(* ===== verification/_CoqProject ===== *)
-Q . S2P
Prelude.v
Float64.v
Extern.v
Limiter.v
Refill.v
Judge.v
Brake.v
Config.v
Addresses.v
Errors.v
Cache.v
Health.v
Recording.v
Connect.v
Controller.v
Pool.v
Utils.v
Dns.v
Worker.v
Fleet.v
Adaptive.v
Client.v
Handles.v
Sockets.v
Resolver.v
ZoneTransfer.v
Mock.v
Cli.v
Python.v
Output.v
Sim.v
Reach.v
Stretch.v
Pace.v
Progress.v
Calls.v
Batches.v
