(* ===== verification/Prelude.v ===== *)
(** * BlastDNS: a verification library for the Rust crate under [src/src]

    BlastDNS resolves very many names over a pool of DNS resolvers: a client puts queries
    on a bounded queue, a fleet of workers takes them off, paces each one three times
    (the global rate, the chosen resolver's own rate, the attempt pacer), picks a resolver
    that has room, asks it, and sends the answer back; the client retries, caches and
    counts.  A control loop watches the losses and moves the three paces.  This library
    models that program definition by definition and proves what each part promises.

    ** Files, in dependency order

    - [Prelude] (this file): [Result], 64-bit integers with their wrap-around and the
      setoid of equality modulo 2^64, durations, record update, list lemmas.
    - [Float64]: IEEE binary64 over the Standard Library's [spec_float]; exact integer
      values ([units], in multiples of 2^-1074), rounding, monotonicity of the operations.
    - [Extern]: what is used of tokio's semaphore and once-cell and of the [lru] crate, as
      classes of operations with their laws, and a reference instance of each.
    - [Limiter]: [limiter.rs].  [RateLimiter.acquire_step] is one atomic action of
      [acquire], [RateLimiter.step] any interleaving; [AttemptPacer] is the token bucket.
    - [Refill]: the pacer of [limiter.rs] again, its refill, its callers and [set_rate] cut
      at every access of the rate, the semaphore, the carry and the count of waiters.
    - [Judge], [Brake], [Controller]: [controller.rs].  [LossJudge.judge] decides whether a
      loss is congestion; [AttemptBrake.tick] limits the attempts in flight;
      [AdaptiveController.tick] visits every resolver, then the global rate, then the
      brake.  [control_step] interleaves ticks with dispatch and traffic.
    - [Config], [Errors], [Cache], [Utils], [ZoneTransfer], [Mock]: the files of those names.
    - [Addresses]: the standard library's reader and printer of IP and socket addresses.
    - [Connect]: [client], [tcp_client] and [connect] of [health.rs]: any number of calls
      racing for a resolver's one connection of each kind.
    - [Health], [Pool]: [health.rs].  [ResolverHealth] is one resolver's counters, purgatory
      and round-trip times; [ResolverPool.reserve_step] is one atomic action of [reserve],
      [ResolverPool.step] any interleaving of tasks, cancellation included.
    - [Recording]: the recorders of [ResolverHealth] and [stats] at their atomic accesses,
      compare-exchange loop included, in any number of threads.
    - [Dns]: what is read of the DNS library's names, types and responses, as a class.
    - [Worker]: [worker.rs].  [ResolverWorker.advance] is one atomic action of the worker
      loop [run]; a state holds the queue, the pool, both limiters, the pacer and every
      worker's stage, so the parts above meet here as they do in the program.
    - [Fleet]: [Worker] seen from [Limiter]: a simulation of the workers' runs by the
      limiter's, which carries the cap over to the queries of the whole fleet.
    - [Adaptive]: the fleet and the controller together, sharing limiter, pacer and
      resolvers: the client as [ensure_workers] sets it going.  A control tick loads each
      resolver's ten statistics one by one and then paces it, sets the global rate, and
      brakes the attempts, with the fleet acting in between.
    - [Client]: [client.rs].  Construction, first use, and [resolve_full] in three phases.
    - [Handles]: [ensure_workers] of [client.rs] with callers racing for the first use,
      cancelled while the pool is probed, and clones of the client made in between.
    - [Sockets]: [resolvers()] of [client.rs]: the printed list builds the same client again.
    - [Resolver]: [resolver.rs], the trait as a class with its default methods; a batch is a
      step relation, [BlockingIteratorStream] a function of how its task stands.
    - [Cli]: [main.rs] up to the lookups; [Python]: [python.rs]; [Output]: what both make of
      the results, JSON values, printed lines and Python dictionaries.
    - [Sim]: [sim.rs], the simulated resolver: its budget, loss, refusal and TCP listener.
    - [Pace]: one resolver's own limiter within the fleet, in a window of time.
    - [Reach], [Stretch], [Progress]: from any reachable state of the fleet to one where every
      query is answered; [Reach] has the invariants of reachable states, [Stretch] the
      measure that a stretch of steps decreases, [Progress] the run.
    - [Calls]: any number of [resolve_full] calls of [Client] running over the fleet of
      [Worker] and [Adaptive], cache and one-shot channels included.
    - [Batches]: a batch of [Resolver] whose lookups are the calls of [Calls].

    ** How the code is modelled

    A method becomes a function from the state (a Record with the source's fields) to the
    new state.  An operation with a wait or an atomic access inside is cut there: a program
    counter ([RateLimiter.pc], [ResolverPool.pc], [ResolverWorker.stage]) says where a task
    stands, one function performs the next atomic action, and an inductive [step] lets any
    task act, the clock advance and the other components interfere.  A panic is [None]; a
    [Result] is [result].  Clocks are arguments, in nanoseconds.  [u64] and [usize] are
    integers with the wrap-around, saturation or truncation of the operation used, in the
    release profile, where [+] wraps; [f64] is exact IEEE arithmetic, NaN included.  A
    [HashMap] is a [gmap]; where its iteration order can show, the order is an argument.

    ** What is proved

    - No query lost ([Worker.no_query_lost]), accounting at every moment
      ([Worker.attempts_accounted]), and politeness: no resolver has more than its share of
      queries on the wire ([Worker.fleet_inflight_bound], [Pool.inflight_bound]).
    - The configured rate is a hard cap under any interleaving ([Limiter.dispatch_cap],
      [Limiter.no_stockpiled_slots]), also for the queries of the whole fleet
      ([Fleet.fleet_rate_capped]); and while one resolver's rate stays under a cap, so does
      what it is sent, but for the queries already on their way
      ([Pace.resolver_rate_capped]).  With the controller at work the client is still such a
      fleet ([Adaptive.adaptive_fleet_refines]), so all that is said of fleets holds of it;
      the controller never panics and never stalls a resolver
      ([Controller.control_never_stalls]), undoes exactly what it did
      ([Controller.undo_is_exact]) and gives up on losses that retreating does not cure
      ([Judge.episode_bounded], [Judge.fixed_loss_settles]).
    - The attempt brake: its invariant, transparent probes, cuts that outlast growth, and no
      change without evidence ([Brake]); the pacer releases and bounds its callers, also
      when every access of its refill is interleaved ([Refill.paced_by_refills],
      [Refill.cleared_frees_all]).
    - Selection: [Pool.reserve_alone] says which resolver a reservation takes and when it
      waits, sleeps or gives up; [Health] says when a resolver is benched and for how long,
      and that its counters and round-trip times are what they claim to be.
    - Recorders that race: alone a recorder is the one step the other files take it for
      ([Recording.recorder_alone]); interleaved, no count is lost and the loops end
      ([Recording.records_settle]), the times stay within their samples
      ([Recording.rtt_interleaved]), sentences may be shared but stay earned
      ([Recording.sentences_shared]), and [stats] sees each counter at some moment of its
      call ([Recording.stats_between]).
    - Progress: time, refills and replies alone bring every accepted query its answer
      ([Progress.fleet_drains]), and so every call to its end ([Calls.calls_finish]).
    - Composition: a call over the running fleet returns what the retry loop returns on the
      very replies the fleet gave it ([Calls.answered_calls]); a batch over such calls is a
      run of the abstract batch ([Batches.batch_end_to_end]).
    - Calls end and are counted once ([Client.retries_bounded], [outcomes_count_calls]), are
      answered from the cache while it may ([repeated_query_hits],
      [Cache.cache_serves_fresh]), and a batch resolves every host once
      ([Resolver.batch_resolves_all], [Python.batches_partition]).
    - Edges: construction on every configuration ([Client.client_construction],
      [Config.from_wire_usable]), workers before they are needed and once for a handle
      ([Handles.started_before_use]), one connection per resolver and kind
      ([Connect.connected_once]), round trips of reverse names, resolver lists and socket
      addresses ([Utils.ptr_round_trip], [Sockets.resolvers_rebuild]), the mock, zone
      transfers, what is printed and handed to Python ([Output.prints_every_result],
      [Output.multi_entry_per_type]).
    - The simulator's capacity and its share of losses ([Sim.sim_capacity],
      [Sim.sim_outcomes]).
    - Defects: clones of a client that start everything again
      ([Handles.clones_start_apiece]), two sentences for one threshold of failures
      ([Recording.two_sentences]), system resolvers that are IPv6 ([Client.system_resolvers_only_v4]),
      crossed TTL bounds ([Client.crossed_ttls_panic]), and zone transfers from Python whose
      timeout no duration can hold, which panic ([Python.timeouts_that_panic]).

    ** Bounds and fuel

    [BlastDNSClient.attempt_loop] gets the number of attempts as fuel, and [retries_bounded]
    proves that it never runs out; [ResolverPool.run_alone] and [RateLimiter.run_alone] are
    only used to state how many actions a lone task needs (at most three per resolver and
    three more for [reserve]); [Python.iterate] gets one more than the number of results,
    which [batches_partition] proves enough; so does [PythonHostIterator.drain], by
    [drain_items].  The TCP listener of [Sim] gets the length of what it is sent, every frame
    taking at least its two length bytes off it.  [Recording.run], a thread alone, needs ten
    accesses for each call ([recorder_alone]).  A duration is printed with the nine digits
    of its nanoseconds.  Counters wrap: statements about exact counts ask for histories
    shorter than 2^64, the others hold modulo 2^64.

    ** Not modelled

    - Sockets, the DNS wire format and [serde_json] are parameters: their outcomes are
      arguments, and every outcome is allowed.
    - The fleet of [Worker] takes a recorder, and a refill of the pacer, as one step;
      [Recording] and [Refill] cut them at every access, apart from the fleet.  In a control
      tick, pacing a resolver whose statistics are loaded is one step (nobody else sets its
      rate), and so are the global rate and the brake.
    - Memory ordering: every atomic access is one action and actions are interleaved, so
      reorderings that relaxed atomics permit across variables are not explored.
    - Workers do not panic in the model of the fleet, so a caller whose one-shot channel is
      dropped occurs only in the retry loop of [Client], where any reply is allowed.
    - Aborting the simulator, and the order in which its delayed answers leave.
    - [lib.rs] (re-exports), the Python package and the scripts.
    - Of [python.rs]: the registration of the module. *)

From stdpp Require Export base tactics option list numbers relations.
From Stdlib Require Export ZArith Lia.

#[global] Open Scope Z_scope.

(** ** Rust's [Result]; a panic is [None] of an [option]. *)

Inductive result (T E : Type) : Type :=
| Ok (value : T)
| Err (error : E).
Arguments Ok {T E} value.
Arguments Err {T E} error.

(** The [?] operator, and [collect] into a [Result] of a vector. *)
Definition and_then {T U E} (r : result T E) (f : T -> result U E) : result U E :=
  match r with Ok x => f x | Err e => Err e end.
Notation "'let?' x := r 'in' k" := (and_then r (fun x => k))
  (at level 10, x name, r at level 100, k at level 200).
Definition map_err {T E E'} (f : E -> E') (r : result T E) : result T E' :=
  match r with Ok x => Ok x | Err e => Err (f e) end.
Fixpoint collect {T E} (rs : list (result T E)) : result (list T) E :=
  match rs with
  | [] => Ok []
  | r :: rs' => let? x := r in let? xs := collect rs' in Ok (x :: xs)
  end.

Lemma collect_Ok {T E} (rs : list (result T E)) xs :
  collect rs = Ok xs <-> Forall2 (fun r x => r = Ok x) rs xs.
Proof.
  revert xs. induction rs as [|r rs IH]; intros xs; simpl.
  - split; [intros [= <-]; constructor|]. by intros ->%Forall2_nil_inv_l.
  - destruct r as [x|e]; simpl.
    + destruct (collect rs) as [ys|e] eqn:E2; simpl.
      * split; [intros [= <-]; constructor; [done|by apply IH]|].
        intros (y & ys' & [= ->] & H & ->)%Forall2_cons_inv_l. apply IH in H. congruence.
      * split; [done|]. intros (y & ys' & _ & H & ->)%Forall2_cons_inv_l. by apply IH in H.
    + split; [done|]. by intros (y & ys' & ? & _)%Forall2_cons_inv_l.
Qed.

#[export] Instance Ok_inj {T E} : Inj (=) (=) (@Ok T E).
Proof. by intros x y [= ->]. Qed.

(** ** 64-bit unsigned integers: a [Z] with its wrap-around written out.
    [usize] is modelled on a 64-bit target. *)

Definition u64_modulus : Z := 2 ^ 64.
Definition u64_max : Z := u64_modulus - 1.
Definition wrap_u64 (z : Z) : Z := z mod u64_modulus.
Definition is_u64 (z : Z) : Prop := 0 <= z <= u64_max.
Definition u64_saturating_add (a b : Z) : Z := Z.min (a + b) u64_max.
Definition u64_saturating_sub (a b : Z) : Z := Z.max (a - b) 0.
(** [AtomicU64::fetch_add] wraps around on overflow. *)
Definition fetch_add (a b : Z) : Z := wrap_u64 (a + b).
(** [+] on [u64] and [u32] in the release profile, where overflow wraps. *)
Definition u64_add (a b : Z) : Z := wrap_u64 (a + b).
Definition u32_modulus : Z := 2 ^ 32.
Definition u32_add (a b : Z) : Z := (a + b) mod u32_modulus.
Definition u32_saturating_add (a b : Z) : Z := Z.min (a + b) (u32_modulus - 1).

(** Equality modulo [2 ^ 64], in which wrapping sums are sums. *)
Definition eq64 (a b : Z) : Prop := a mod u64_modulus = b mod u64_modulus.
Infix "≡64" := eq64 (at level 70).

#[export] Instance eq64_equivalence : Equivalence eq64.
Proof. unfold eq64. split; [done|by intros ?|intros ?; congruence]. Qed.
#[export] Instance eq64_add : Proper (eq64 ==> eq64 ==> eq64) Z.add.
Proof.
  unfold eq64. intros a a' Ha b b' Hb. rewrite (Zplus_mod a b), (Zplus_mod a' b'). by rewrite Ha, Hb.
Qed.
#[export] Instance eq64_opp : Proper (eq64 ==> eq64) Z.opp.
Proof.
  unfold eq64. intros a a' Ha. rewrite <- (Z.sub_0_l a), <- (Z.sub_0_l a').
  rewrite (Zminus_mod 0 a), (Zminus_mod 0 a'). by rewrite Ha.
Qed.
#[export] Instance eq64_sub : Proper (eq64 ==> eq64 ==> eq64) Z.sub.
Proof. intros a a' Ha b b' Hb. unfold Z.sub. by rewrite Ha, Hb. Qed.

Lemma eq64_refl a b : a = b -> a ≡64 b.
Proof. by intros ->. Qed.
Lemma wrap_eq64 a : wrap_u64 a ≡64 a.
Proof. unfold eq64, wrap_u64. by rewrite Z.mod_mod. Qed.
Lemma fetch_add_eq64 a b : fetch_add a b ≡64 a + b.
Proof. apply wrap_eq64. Qed.
Lemma eq64_small a b : 0 <= a < u64_modulus -> 0 <= b < u64_modulus -> a ≡64 b -> a = b.
Proof. unfold eq64. intros Ha Hb. by rewrite !Z.mod_small. Qed.

(** ** Durations and instants, in nanoseconds. *)

Definition NANOS_PER_SEC : Z := 1000000000.
Definition from_secs (s : Z) : Z := s * NANOS_PER_SEC.
Definition from_millis (ms : Z) : Z := ms * 1000000.
(** [now.duration_since(then)] saturates at zero. *)
Definition duration_since (now earlier : Z) : Z := Z.max (now - earlier) 0.
(** [start.elapsed().as_nanos() as u64]: [elapsed] saturates at zero, the cast
    from [u128] keeps the low 64 bits. *)
Definition elapsed_ns (start now : Z) : Z := wrap_u64 (Z.max (now - start) 0).

(** ** Record update: [r <| field := v |>].  A record declares its eta expansion
    once; the setter of each field is derived from it. *)

Class Settable (R : Type) := eta_expand : R -> R.
Class Setter {R T : Type} (proj : R -> T) := set_with : (T -> T) -> R -> R.
Arguments set_with {R T} proj {_} / _ _.

Ltac derive_setter :=
  match goal with
  | |- @Setter ?R ?T ?proj =>
      let inst := constr:(_ : Settable R) in
      let body := eval hnf in inst in
      lazymatch eval pattern proj in body with
      | ?s _ => exact (fun f => s (fun r => f (proj r)))
      end
  end.
#[global] Hint Extern 0 (Setter _) => derive_setter : typeclass_instances.

Declare Scope record_scope.
Delimit Scope record_scope with record.
Notation "r <| proj := v |>" := (set_with proj (fun _ => v) r)
  (at level 1, left associativity, format "r  <| proj  :=  v |>") : record_scope.
#[global] Open Scope record_scope.

(** ** Lists *)

Lemma filter_all {A} (P : A -> Prop) `{!forall x, Decision (P x)} l :
  Forall P l -> filter P l = l.
Proof. induction 1; [done|]. rewrite filter_cons_True by done. by f_equal. Qed.

Lemma filter_none {A} (P : A -> Prop) `{!forall x, Decision (P x)} l :
  Forall (fun x => ~ P x) l -> filter P l = [].
Proof. induction 1; [done|]. by rewrite filter_cons_False. Qed.

(** Replacing one element changes a count by that element. *)
Lemma count_insert {A} (P : A -> Prop) `{!forall x, Decision (P x)} l i x y :
  l !! i = Some x ->
  (length (filter P (<[i := y]> l)) + (if decide (P x) then 1 else 0) =
   length (filter P l) + (if decide (P y) then 1 else 0))%nat.
Proof.
  revert i. induction l as [|z l IH]; intros [|i] Hi; simplify_eq/=.
  - rewrite !filter_cons. destruct (decide (P x)), (decide (P y)); simpl; lia.
  - rewrite !filter_cons. specialize (IH i Hi).
    destruct (decide (P x)), (decide (P y)), (decide (P z)); simpl; lia.
Qed.

(** Counting where one property implies another. *)
Lemma count_pointwise {A B} (P : A -> Prop) (Q : B -> Prop)
    `{!forall x, Decision (P x)} `{!forall x, Decision (Q x)} l l' :
  length l = length l' -> (forall i x y, l !! i = Some x -> l' !! i = Some y -> P x -> Q y) ->
  (length (filter P l) <= length (filter Q l'))%nat.
Proof.
  revert l'. induction l as [|x l IH]; intros [|y l'] Hlen Himp; simplify_eq/=; [lia|].
  rewrite !filter_cons.
  assert (length (filter P l) <= length (filter Q l'))%nat by (apply IH; [done|intros i; apply (Himp (S i))]).
  specialize (Himp 0%nat x y eq_refl eq_refl). destruct (decide (P x)), (decide (Q y)); simpl; tauto || lia.
Qed.

(** Replacing one element changes a sum by it. *)
Lemma sum_list_insert (l : list nat) w x y :
  l !! w = Some x -> (sum_list (<[w := y]> l) + x = sum_list l + y)%nat.
Proof.
  revert w. induction l as [|z l IH]; intros [|w] Hw; simplify_eq/=; [lia|]. specialize (IH w Hw). lia.
Qed.

(** A measure of a list of tasks: one that comes closer brings the whole closer. *)
Lemma sum_measure_lt {A} (f : A -> nat) (l : list A) i x y :
  l !! i = Some x -> (f y < f x)%nat -> (sum_list (f <$> <[i := y]> l) < sum_list (f <$> l))%nat.
Proof.
  intros Hi Hlt. rewrite list_fmap_insert.
  pose proof (sum_list_insert (f <$> l) i (f x) (f y)) as E. rewrite list_lookup_fmap, Hi in E.
  specialize (E eq_refl). lia.
Qed.
