(* ===== verification/Float64.v ===== *)
(** * IEEE 754 binary64, the [f64] of the source

    [f64] is the Standard Library's [spec_float] at precision 53 and maximal
    exponent 1024, so every operation below is the bit-exact operation the
    program runs and evaluates by [vm_compute].  Second half: the value of a
    finite float as an integer number of units 2^-1074, the rounding function
    on exact quotients, and the facts the controllers need (order, monotonicity
    of the four operations, rounding error). *)

From Stdlib Require Export Floats.SpecFloat.
From S2P Require Export Prelude.

Definition f64 : Type := spec_float.

Declare Scope f64_scope.
Delimit Scope f64_scope with f64.
Bind Scope f64_scope with f64.

Definition f64_add : f64 -> f64 -> f64 := SFadd 53 1024.
Definition f64_sub : f64 -> f64 -> f64 := SFsub 53 1024.
Definition f64_mul : f64 -> f64 -> f64 := SFmul 53 1024.
Definition f64_div : f64 -> f64 -> f64 := SFdiv 53 1024.
Definition f64_lt : f64 -> f64 -> bool := SFltb.
Definition f64_le : f64 -> f64 -> bool := SFleb.
Definition f64_eq : f64 -> f64 -> bool := SFeqb.

Infix "+" := f64_add : f64_scope.
Infix "-" := f64_sub : f64_scope.
Infix "*" := f64_mul : f64_scope.
Infix "/" := f64_div : f64_scope.
Infix "<?" := f64_lt : f64_scope.
Infix "<=?" := f64_le : f64_scope.
Notation "x >? y" := (f64_lt y x) (only parsing) : f64_scope.
Notation "x >=? y" := (f64_le y x) (only parsing) : f64_scope.

Definition is_nan (x : f64) : bool := match x with S754_nan => true | _ => false end.

(** [f64::max] and [f64::min] ignore a NaN argument. *)
Definition f64_max (a b : f64) : f64 :=
  if is_nan a then b else if is_nan b then a else if f64_lt a b then b else a.
Definition f64_min (a b : f64) : f64 :=
  if is_nan a then b else if is_nan b then a else if f64_lt b a then b else a.

(** [n as f64] for an integer, correctly rounded. *)
Definition f64_of_Z (n : Z) : f64 := binary_normalize 53 1024 n 0 false.

(** The literal [n / d] in decimal notation: the correctly rounded quotient,
    for [n] and [d] small enough to be exact. *)
Definition f64_lit (n d : Z) : f64 := f64_div (f64_of_Z n) (f64_of_Z d).

(** Integer part of the magnitude of a finite float, and the part rounded half
    away from zero. *)
Definition trunc_mag (m : positive) (e : Z) : Z :=
  if 0 <=? e then Z.pos m * 2 ^ e else Z.pos m / 2 ^ (- e).
Definition round_mag (m : positive) (e : Z) : Z :=
  if 0 <=? e then Z.pos m * 2 ^ e else (2 * Z.pos m + 2 ^ (- e)) / (2 * 2 ^ (- e)).

(** [f64::round]. *)
Definition f64_round (x : f64) : f64 :=
  match x with
  | S754_finite s m e =>
      if 0 <=? e then x else binary_normalize 53 1024 (cond_Zopp s (round_mag m e)) 0 s
  | _ => x
  end.

(** [f64::floor]. *)
Definition f64_floor (x : f64) : f64 :=
  match x with
  | S754_finite s m e =>
      if 0 <=? e then x
      else binary_normalize 53 1024 (cond_Zopp s (Z.pos m) / 2 ^ (- e)) 0 s
  | _ => x
  end.

(** [x as u64]: truncation, saturating at both ends, NaN is 0. *)
Definition f64_as_u64 (x : f64) : Z :=
  match x with
  | S754_finite false m e => Z.min (trunc_mag m e) u64_max
  | S754_infinity false => u64_max
  | _ => 0
  end.

(** [Duration::as_secs_f64]: seconds and the sub-second nanoseconds are converted
    separately. *)
Definition as_secs_f64 (d : Z) : f64 :=
  (f64_of_Z (d / NANOS_PER_SEC) + f64_of_Z (d mod NANOS_PER_SEC) / f64_of_Z NANOS_PER_SEC)%f64.

(** [f64::total_cmp] as a boolean order: -NaN excluded, negative zero below
    positive zero, NaN above everything. *)
Definition f64_total_le (a b : f64) : bool :=
  match a, b with
  | S754_nan, S754_nan => true
  | S754_nan, _ => false
  | _, S754_nan => true
  | S754_zero sa, S754_zero sb => implb sb sa
  | _, _ => f64_le a b
  end.

(** ** The value of a float *)

(** Type invariant of [f64]: the mantissa is canonical and the exponent in range. *)
Definition f64_wf (x : f64) : Prop := valid_binary 53 1024 x = true.

(** A non-negative number (not NaN), possibly infinite. *)
Definition f64_nonneg (x : f64) : Prop :=
  f64_wf x /\ match x with
              | S754_finite s _ _ => s = false
              | S754_infinity s => s = false
              | S754_zero _ => True
              | S754_nan => False
              end.

Definition f64_finite (x : f64) : Prop :=
  match x with S754_finite _ _ _ | S754_zero _ => True | _ => False end.

(** Units of 2^-1074, the smallest subnormal; [inf_units] is 2^1024. *)
Definition one_unit : Z := 2 ^ 1074.
Definition inf_units : Z := 2 ^ 2098.
Definition units (x : f64) : Z :=
  match x with
  | S754_finite s m e => cond_Zopp s (Z.pos m * 2 ^ (e + 1074))
  | S754_infinity s => cond_Zopp s inf_units
  | _ => 0
  end.

(** Rounding of the exact value [n / d] (in units) to nearest, ties to even. *)
Definition rne (n d : Z) : Z :=
  let k := n / d in
  let r := n mod d in
  match 2 * r ?= d with
  | Lt => k
  | Eq => if Z.even k then k else k + 1
  | Gt => k + 1
  end.
Definition round_shift (q : Z) : Z := Z.max 0 (Z.log2 q - 52).
Definition round_units (n d : Z) : Z :=
  let sh := round_shift (n / d) in
  rne n (d * 2 ^ sh) * 2 ^ sh.

(** ** Rounding an exact quotient *)

Lemma rne_bounds n d :
  0 < d -> 2 * (rne n d * d) <= 2 * n + d /\ 2 * n <= 2 * (rne n d * d) + d.
Proof.
  intros Hd. unfold rne.
  pose proof (Z.div_mod n d ltac:(lia)) as Hn.
  pose proof (Z.mod_pos_bound n d Hd) as Hr.
  set (k := n / d) in *. set (r := n mod d) in *.
  destruct (Z.compare_spec (2 * r) d); [destruct (Z.even k)| |]; nia.
Qed.

Lemma rne_mono n1 n2 d : 0 < d -> n1 <= n2 -> rne n1 d <= rne n2 d.
Proof.
  intros Hd Hle.
  destruct (decide (n1 = n2)) as [->|Hne]; [lia|].
  pose proof (rne_bounds n1 d Hd). pose proof (rne_bounds n2 d Hd). nia.
Qed.

Lemma rne_scale c n d : 0 < c -> 0 < d -> rne (c * n) (c * d) = rne n d.
Proof.
  intros Hc Hd. unfold rne.
  rewrite Z.div_mul_cancel_l, Z.mul_mod_distr_l by lia.
  replace (2 * (c * (n mod d)) ?= c * d) with (2 * (n mod d) ?= d); [done|].
  symmetry. destruct (Z.compare_spec (2 * (n mod d)) d);
    [apply Z.compare_eq_iff|apply Z.compare_lt_iff|apply Z.compare_gt_iff]; nia.
Qed.

Lemma rne_int k d : 0 < d -> rne (k * d) d = k.
Proof.
  intros Hd. unfold rne. rewrite Z.div_mul, Z.mod_mul by lia.
  destruct (Z.compare_spec (2 * 0) d); lia.
Qed.

Lemma rne_le n d k : 0 < d -> n <= k * d -> rne n d <= k.
Proof. intros Hd H. rewrite <- (rne_int k d Hd). by apply rne_mono. Qed.

Lemma rne_ge n d k : 0 < d -> k * d <= n -> k <= rne n d.
Proof. intros Hd H. rewrite <- (rne_int k d Hd). by apply rne_mono. Qed.

Lemma pow2_pos k : 0 <= k -> 0 < 2 ^ k.
Proof. intros. apply Z.pow_pos_nonneg; lia. Qed.
#[local] Hint Resolve pow2_pos : core.

Lemma quot_mono n1 d1 n2 d2 :
  0 < d1 -> 0 < d2 -> n1 * d2 <= n2 * d1 -> n1 / d1 <= n2 / d2.
Proof.
  intros H1 H2 H.
  rewrite <- (Z.div_mul_cancel_r n1 d1 d2), <- (Z.div_mul_cancel_r n2 d2 d1) by lia.
  rewrite (Z.mul_comm d2 d1). apply Z.div_le_mono; lia.
Qed.

Lemma round_shift_nonneg q : 0 <= round_shift q.
Proof. unfold round_shift. lia. Qed.
#[local] Hint Resolve round_shift_nonneg : core.

Lemma round_shift_mono q1 q2 : q1 <= q2 -> round_shift q1 <= round_shift q2.
Proof. intros H. unfold round_shift. pose proof (Z.log2_le_mono q1 q2 H). lia. Qed.

Lemma round_shift_upper q : 0 <= q -> q < 2 ^ (53 + round_shift q).
Proof.
  intros Hq. destruct (decide (q = 0)) as [->|]; [done|].
  pose proof (Z.log2_spec q ltac:(lia)) as [_ Hlt].
  eapply Z.lt_le_trans; [exact Hlt|]. apply Z.pow_le_mono_r; unfold round_shift; lia.
Qed.

Lemma round_shift_lower q : 0 < round_shift q -> 2 ^ (52 + round_shift q) <= q.
Proof.
  intros Hs. unfold round_shift in *.
  destruct (Z.le_gt_cases q 0) as [Hq|Hq];
    [rewrite Z.log2_nonpos in Hs by done; lia|].
  pose proof (Z.log2_spec q Hq) as [Hle _].
  replace (52 + Z.max 0 (Z.log2 q - 52)) with (Z.log2 q) by lia. done.
Qed.

Lemma quot_lt_pow n d k : 0 < d -> n / d < k -> n < k * d.
Proof. intros Hd H. pose proof (Z.div_mod n d ltac:(lia)). pose proof (Z.mod_pos_bound n d Hd). nia. Qed.

Lemma round_units_mono n1 d1 n2 d2 :
  0 < d1 -> 0 < d2 -> 0 <= n1 -> n1 * d2 <= n2 * d1 ->
  round_units n1 d1 <= round_units n2 d2.
Proof.
  intros H1 H2 Hn Hle. unfold round_units.
  pose proof (quot_mono _ _ _ _ H1 H2 Hle) as Hq.
  pose proof (round_shift_mono _ _ Hq) as Hs.
  pose proof (Z.div_pos n1 d1 Hn H1) as Hq0.
  set (s1 := round_shift (n1 / d1)) in *. set (s2 := round_shift (n2 / d2)) in *.
  assert (0 <= s1) as Hs1 by (unfold s1; auto).
  pose proof (pow2_pos s1 Hs1). pose proof (pow2_pos s2 ltac:(lia)).
  destruct (decide (s1 = s2)) as [<-|Hne].
  - apply Z.mul_le_mono_nonneg_r; [lia|].
    rewrite <- (rne_scale d2 n1), <- (rne_scale d1 n2) by nia.
    replace (d1 * (d2 * 2 ^ s1)) with (d2 * (d1 * 2 ^ s1)) by ring.
    apply rne_mono; nia.
  - pose proof (round_shift_upper _ Hq0) as Hup. fold s1 in Hup.
    pose proof (round_shift_lower (n2 / d2) ltac:(fold s2; lia)) as Hlow. fold s2 in Hlow.
    apply quot_lt_pow in Hup; [|done].
    assert (2 ^ (52 + s2) * d2 <= n2) as Hlow'.
    { pose proof (Z.mul_div_le n2 d2 H2). nia. }
    rewrite Z.pow_add_r in Hup, Hlow' by lia.
    transitivity (2 ^ 53 * 2 ^ s1).
    { apply Z.mul_le_mono_nonneg_r; [lia|]. apply rne_le; [nia|]. nia. }
    transitivity (2 ^ 52 * 2 ^ s2).
    { change (2 ^ 53) with (2 ^ 52 * 2). rewrite <- Z.mul_assoc, <- (Z.pow_succ_r 2 s1) by done.
      apply Z.mul_le_mono_nonneg_l; [lia|]. apply Z.pow_le_mono_r; lia. }
    apply Z.mul_le_mono_nonneg_r; [lia|]. apply rne_ge; [nia|]. nia.
Qed.

(** Integers that are the value of some float, overflow apart. *)
Definition representable (v : Z) : Prop :=
  exists k sh, 0 <= sh /\ 0 <= k < 2 ^ 53 /\ v = k * 2 ^ sh.

Lemma round_units_id v d : 0 < d -> representable v -> round_units (v * d) d = v.
Proof.
  intros Hd (k & sh & Hsh & Hk & ->). unfold round_units.
  rewrite Z.div_mul by lia.
  assert (round_shift (k * 2 ^ sh) <= sh) as Hle.
  { destruct (decide (k = 0)) as [->|]; [done|].
    unfold round_shift. rewrite Z.log2_mul_pow2 by lia.
    pose proof (Z.log2_lt_pow2 k 53 ltac:(lia)). lia. }
  set (s := round_shift _) in *.
  assert (0 <= s) by (unfold s; auto).
  replace (k * 2 ^ sh * d) with (k * 2 ^ (sh - s) * (d * 2 ^ s)).
  2:{ replace sh with ((sh - s) + s) at 2 by lia. rewrite Z.pow_add_r by lia. ring. }
  rewrite rne_int by (pose proof (pow2_pos s ltac:(lia)); nia).
  rewrite <- Z.mul_assoc, <- Z.pow_add_r by lia. f_equal. f_equal. lia.
Qed.

Lemma round_units_0 d : 0 < d -> round_units 0 d = 0.
Proof.
  intros Hd. apply (round_units_id 0 d Hd). exists 0, 0. split_and!; lia.
Qed.

Lemma round_units_le n d v :
  0 < d -> 0 <= n -> representable v -> n <= v * d -> round_units n d <= v.
Proof.
  intros Hd Hn Hv H. rewrite <- (round_units_id v d Hd Hv). apply round_units_mono; nia.
Qed.

Lemma round_units_ge n d v :
  0 < d -> 0 <= v -> representable v -> v * d <= n -> v <= round_units n d.
Proof.
  intros Hd Hn Hv H. rewrite <- (round_units_id v d Hd Hv). apply round_units_mono; nia.
Qed.

Lemma round_units_scale c n d : 0 < c -> 0 < d -> round_units (c * n) (c * d) = round_units n d.
Proof.
  intros Hc Hd. unfold round_units. rewrite Z.div_mul_cancel_l by lia.
  set (s := round_shift _). rewrite <- (Z.mul_assoc c d). rewrite rne_scale; [done|lia|].
  pose proof (pow2_pos s ltac:(unfold s; auto)). nia.
Qed.

Lemma round_units_nonneg n d : 0 < d -> 0 <= n -> 0 <= round_units n d.
Proof.
  intros. apply round_units_ge; [lia..| |nia]. exists 0, 0. split_and!; lia.
Qed.

(** Relative error 2^-53, plus half a unit for subnormal results. *)
Lemma round_units_error n d :
  0 < d -> 0 <= n ->
  2 ^ 54 * Z.abs (round_units n d * d - n) <= 2 * n + 2 ^ 53 * d.
Proof.
  intros Hd Hn. unfold round_units.
  pose proof (Z.div_pos n d Hn Hd) as Hq.
  set (s := round_shift (n / d)).
  pose proof (pow2_pos s ltac:(unfold s; auto)) as Hp.
  pose proof (rne_bounds n (d * 2 ^ s) ltac:(nia)) as [Hb1 Hb2].
  set (k := rne n (d * 2 ^ s)) in *.
  assert (2 * Z.abs (k * 2 ^ s * d - n) <= d * 2 ^ s) as Herr by lia.
  destruct (decide (s = 0)) as [Hs0|Hs0].
  - rewrite Hs0 in *. change (2 ^ 0) with 1 in *. lia.
  - pose proof (round_shift_lower (n / d)) as Hlow. fold s in Hlow.
    pose proof (round_shift_nonneg (n / d)) as Hnn. fold s in Hnn.
    specialize (Hlow ltac:(lia)).
    assert (2 ^ (52 + s) * d <= n) as Hl.
    { pose proof (Z.mul_div_le n d Hd). nia. }
    rewrite Z.pow_add_r in Hl by lia. lia.
Qed.

(** ** The rounding step of every operation *)

(** [m] and [l] locate [n] between the multiples [m * u] and [(m + 1) * u]. *)
Definition located (m : Z) (l : location) (n u : Z) : Prop :=
  match l with
  | loc_Exact => n = m * u
  | loc_Inexact c => m * u < n < (m + 1) * u /\ (2 * (n - m * u) ?= u) = c
  end.

Lemma located_bounds m l n u : 0 < u -> located m l n u -> m * u <= n < (m + 1) * u.
Proof. destruct l; simpl; lia. Qed.

Lemma located_floor m l n u : 0 < u -> located m l n u -> n / u = m.
Proof.
  intros Hu H%located_bounds; [|done]. symmetry.
  apply Z.div_unique with (n - m * u); lia.
Qed.

Lemma round_nearest_even_rne m l n u :
  0 < u -> located m l n u -> round_nearest_even m l = rne n u.
Proof.
  intros Hu H. unfold rne. rewrite (located_floor m l n u Hu H).
  rewrite Zmod_eq_full, (located_floor m l n u Hu H) by lia.
  destruct l as [|c]; simpl in *.
  - subst n. rewrite Z.sub_diag. by destruct u.
  - destruct H as [_ <-]. by destruct (2 * (n - m * u) ?= u).
Qed.

Definition shr_inv (n u0 k : Z) (mrs : shr_record) : Prop :=
  0 <= k /\ 0 <= shr_m mrs /\ located (shr_m mrs) (loc_of_shr_record mrs) n (u0 * 2 ^ k).

Lemma shr_record_of_loc_inv n u m l :
  0 <= m -> located m l n u -> shr_inv n u 0 (shr_record_of_loc m l).
Proof.
  intros Hm Hl. unfold shr_inv. rewrite Z.mul_1_r.
  destruct l as [|[]]; simpl; auto with lia.
Qed.

Lemma compare_cases a b c :
  (a ?= b) = c <-> match c with Lt => a < b | Eq => a = b | Gt => b < a end.
Proof.
  destruct c;
    [apply Z.compare_eq_iff|apply Z.compare_lt_iff|rewrite Z.compare_gt_iff; done].
Qed.

Lemma shr_1_inv n u0 k mrs :
  0 < u0 -> shr_inv n u0 k mrs -> shr_inv n u0 (k + 1) (shr_1 mrs).
Proof.
  intros Hu (Hk & Hm & Hl). unfold shr_inv.
  rewrite Z.pow_add_r by lia. change (2 ^ 1) with 2.
  pose proof (pow2_pos k Hk).
  replace (u0 * (2 ^ k * 2)) with (2 * (u0 * 2 ^ k)) by ring.
  set (u := u0 * 2 ^ k) in *. assert (0 < u) by (unfold u; nia). clearbody u.
  destruct mrs as [m r s]; destruct m as [|p|p]; [| |simpl in Hm; lia].
  - destruct r, s; simpl in *; rewrite ?compare_cases in *; lia.
  - destruct p, r, s; simpl in *; rewrite ?compare_cases in *; lia.
Qed.

Lemma iter_pos_inv n u0 p : forall k mrs,
  0 < u0 -> shr_inv n u0 k mrs -> shr_inv n u0 (k + Z.pos p) (SpecFloat.iter_pos shr_1 p mrs).
Proof.
  induction p as [p IH|p IH|]; intros k mrs Hu H; simpl.
  - replace (k + Z.pos p~1) with (k + 1 + Z.pos p + Z.pos p) by lia.
    by apply IH, IH, shr_1_inv.
  - replace (k + Z.pos p~0) with (k + Z.pos p + Z.pos p) by lia. by apply IH, IH.
  - by apply shr_1_inv.
Qed.

(** Shifting right by [k >= 0] multiplies the grid by [2 ^ k]. *)
Lemma shr_inv_shift n u m l e k :
  0 < u -> 0 <= m -> 0 <= k -> located m l n u ->
  let '(mrs, e') := shr (shr_record_of_loc m l) e k in
  e' = e + k /\ 0 <= shr_m mrs /\ located (shr_m mrs) (loc_of_shr_record mrs) n (u * 2 ^ k).
Proof.
  intros Hu Hm Hk Hl.
  pose proof (shr_record_of_loc_inv n u m l Hm Hl) as Hinv.
  destruct k as [|p|p]; simpl shr; [| |lia].
  - destruct Hinv as (_ & ? & ?). split_and!; [lia|done|done].
  - apply (iter_pos_inv n u p 0) in Hinv; [|done].
    destruct Hinv as (_ & ? & ?). split_and!; [done|done|done].
Qed.

Abbreviation fexp64 := (fexp 53 1024).

Lemma fexp64_eq e : fexp64 e = Z.max (e - 53) (-1074).
Proof. unfold fexp, emin. f_equal. Qed.

Lemma digits2_pos_spec p :
  2 ^ (Z.pos (digits2_pos p) - 1) <= Z.pos p < 2 ^ Z.pos (digits2_pos p).
Proof.
  induction p as [p IH|p IH|]; simpl digits2_pos; [| |done];
    rewrite Pos2Z.inj_succ;
    replace (2 ^ Z.succ (Z.pos (digits2_pos p))) with (2 * 2 ^ Z.pos (digits2_pos p))
      by (rewrite Z.pow_succ_r; lia);
    replace (Z.succ (Z.pos (digits2_pos p)) - 1) with (Z.succ (Z.pos (digits2_pos p) - 1)) by lia;
    rewrite Z.pow_succ_r by lia; lia.
Qed.

Lemma Zdigits2_log2 m : 0 < m -> Zdigits2 m = Z.log2 m + 1.
Proof.
  intros Hm. destruct m as [|p|p]; [lia| |lia].
  change (Zdigits2 (Z.pos p)) with (Z.pos (digits2_pos p)).
  pose proof (digits2_pos_spec p).
  symmetry. enough (Z.log2 (Z.pos p) = Z.pos (digits2_pos p) - 1) by lia.
  apply Z.log2_unique; [lia|]. by replace (Z.succ (Z.pos (digits2_pos p) - 1))
    with (Z.pos (digits2_pos p)) by lia.
Qed.

(** [r] is the float of sign [s] and magnitude [v] units, infinite from
    [inf_units] on. *)
Definition encodes (s : bool) (v : Z) (r : f64) : Prop :=
  match r with
  | S754_zero s' => s' = s /\ v = 0
  | S754_finite s' m e => s' = s /\ v = Z.pos m * 2 ^ (e + 1074) /\ f64_wf r
  | S754_infinity s' => s' = s /\ inf_units <= v
  | S754_nan => False
  end.

(** The exponent the rounding step aligns to is the one of [round_units]. *)
Lemma aligned_exponent m e l n d :
  0 < d -> 0 <= m -> -2148 <= e -> e <= fexp64 (Zdigits2 m + e) ->
  located m l n (d * 2 ^ (e + 2148)) ->
  fexp64 (Zdigits2 m + e) + 1074 = round_shift (n / (d * 2 ^ 1074)).
Proof.
  intros Hd Hm He Hf Hl. rewrite fexp64_eq in *.
  pose proof (pow2_pos (e + 2148) ltac:(lia)) as Hp.
  assert (0 < d * 2 ^ (e + 2148)) as HU by nia.
  pose proof (located_bounds _ _ _ _ HU Hl) as [Hlo Hhi].
  assert (forall t, t <= 0 -> n < d * 2 ^ 1074 * 2 ^ Z.max t 0 -> round_shift (n / (d * 2 ^ 1074)) = 0)
    as Hsmall.
  { intros t Ht Hn. rewrite Z.max_r, Z.mul_1_r in Hn by lia. rewrite Z.div_small; [done|].
    split; [nia|lia]. }
  destruct (decide (m = 0)) as [->|Hm0].
  - simpl Zdigits2 in *. rewrite (Hsmall 0); [lia..|].
    eapply Z.lt_le_trans; [exact Hhi|]. change (2 ^ Z.max 0 0) with 1.
    rewrite Z.mul_1_l, Z.mul_1_r. apply Z.mul_le_mono_nonneg_l; [lia|].
    apply Z.pow_le_mono_r; lia.
  - rewrite Zdigits2_log2 in * by lia.
    pose proof (Z.log2_spec m ltac:(lia)) as [HL1 HL2].
    pose proof (Z.log2_nonneg m) as HL0. set (L := Z.log2 m) in *.
    assert (2 ^ L * (d * 2 ^ (e + 2148)) <= n) as Hlo'.
    { etransitivity; [|exact Hlo]. apply Z.mul_le_mono_nonneg_r; nia. }
    assert (n < 2 ^ (Z.succ L) * (d * 2 ^ (e + 2148))) as Hhi'.
    { eapply Z.lt_le_trans; [exact Hhi|]. apply Z.mul_le_mono_nonneg_r; nia. }
    assert (forall j, 0 <= j -> 2 ^ j * (d * 2 ^ (e + 2148)) = d * 2 ^ (j + e + 2148)) as Hj.
    { intros j Hj. replace (j + e + 2148) with (j + (e + 2148)) by lia.
      rewrite (Z.pow_add_r 2 j) by lia. ring. }
    rewrite Hj in Hlo', Hhi' by lia. clear Hj Hlo Hhi.
    destruct (Z.le_gt_cases 0 (L + e + 1074)) as [Ht|Ht].
    + enough (Z.log2 (n / (d * 2 ^ 1074)) = L + e + 1074) as Hq by (unfold round_shift; lia).
      apply Z.log2_unique; [lia|].
      replace (L + e + 2148) with (L + e + 1074 + 1074) in Hlo' by lia.
      replace (Z.succ L + e + 2148) with (Z.succ (L + e + 1074) + 1074) in Hhi' by lia.
      rewrite Z.pow_add_r in Hlo', Hhi' by lia.
      split; [apply Z.div_le_lower_bound|apply Z.div_lt_upper_bound]; lia.
    + rewrite (Hsmall 0); [lia..|]. eapply Z.lt_le_trans; [exact Hhi'|].
      change (2 ^ Z.max 0 0) with 1. rewrite Z.mul_1_r.
      apply Z.mul_le_mono_nonneg_l; [lia|]. apply Z.pow_le_mono_r; lia.
Qed.

(** Re-normalising the rounded mantissa [k]. *)
Lemma renormalise_encodes s k e :
  -1074 <= e -> 0 <= k <= 2 ^ 53 -> (e = -1074 \/ 2 ^ 52 <= k) ->
  encodes s (k * 2 ^ (e + 1074))
    (let '(mrs, e') := shr_fexp 53 1024 k e loc_Exact in
     match shr_m mrs with
     | Z0 => S754_zero s
     | Z.pos m => if e' <=? 971 then S754_finite s m e' else S754_infinity s
     | Z.neg _ => S754_nan
     end).
Proof.
  intros He Hk Hcan. unfold shr_fexp. rewrite fexp64_eq.
  destruct (decide (k = 2 ^ 53)) as [->|Hk53].
  - change (Zdigits2 (2 ^ 53)) with 54.
    replace (Z.max (54 + e - 53) (-1074) - e) with 1 by lia.
    change (shr _ e 1) with (Build_shr_record (2 ^ 52) false false, e + 1).
    simpl shr_m. cbn [Z.pow Z.pow_pos Pos.iter Z.mul Pos.mul].
    destruct (Z.leb_spec (e + 1) 971) as [Hle|Hgt]; simpl encodes.
    + split_and!; [done| |].
      * replace (e + 1 + 1074) with (Z.succ (e + 1074)) by lia. rewrite Z.pow_succ_r by lia. lia.
      * unfold f64_wf, valid_binary, bounded, canonical_mantissa. rewrite fexp64_eq.
        apply andb_true_intro; split; [apply Z.eqb_eq|apply Z.leb_le; lia].
        change (Z.pos (digits2_pos _)) with 53. lia.
    + split; [done|]. change 9007199254740992 with (2 ^ 53). unfold inf_units.
      rewrite <- Z.pow_add_r by lia. apply Z.pow_le_mono_r; lia.
  - assert (Z.max (Zdigits2 k + e - 53) (-1074) <= e) as Hsh.
    { destruct (decide (k = 0)) as [->|]; [simpl; lia|].
      rewrite Zdigits2_log2 by lia. pose proof (Z.log2_lt_pow2 k 53 ltac:(lia)). lia. }
    replace (shr _ e _) with (Build_shr_record k false false, e)
      by (unfold shr; destruct (_ - e) eqn:?; [done|lia|done]).
    simpl shr_m. destruct k as [|p|p]; [done| |lia].
    destruct (Z.leb_spec e 971) as [Hle|Hgt]; simpl encodes.
    + split_and!; [done..|].
      unfold f64_wf, valid_binary, bounded, canonical_mantissa.
      apply andb_true_intro; split; [apply Z.eqb_eq|apply Z.leb_le; lia].
      change (Zdigits2 (Z.pos p)) with (Z.pos (digits2_pos p)) in Hsh. rewrite fexp64_eq.
      destruct Hcan as [->|Hcan]; [lia|].
      enough (52 <= Z.log2 (Z.pos p)) by
        (pose proof (Zdigits2_log2 (Z.pos p) ltac:(lia)) as Hdig;
         change (Zdigits2 (Z.pos p)) with (Z.pos (digits2_pos p)) in Hdig; lia).
      by apply Z.log2_le_pow2.
    + split; [done|]. destruct Hcan as [->|Hcan]; [lia|].
      transitivity (2 ^ 52 * 2 ^ (e + 1074)); [|apply Z.mul_le_mono_nonneg_r; lia].
      unfold inf_units. rewrite <- Z.pow_add_r by lia. apply Z.pow_le_mono_r; lia.
Qed.

Lemma binary_round_aux_spec s m e l n d :
  0 < d -> 0 <= m -> -2148 <= e -> e <= fexp64 (Zdigits2 m + e) ->
  located m l n (d * 2 ^ (e + 2148)) ->
  encodes s (round_units n (d * 2 ^ 1074)) (binary_round_aux 53 1024 s m e l).
Proof.
  intros Hd Hm He Hf Hl.
  pose proof (aligned_exponent m e l n d Hd Hm He Hf Hl) as Hexp.
  assert (-1074 <= fexp64 (Zdigits2 m + e)) as Hf0 by (rewrite fexp64_eq; lia).
  set (f := fexp64 (Zdigits2 m + e)) in *.
  pose proof (pow2_pos (e + 2148) ltac:(lia)).
  assert (0 < d * 2 ^ (e + 2148)) as HU by nia.
  assert (0 <= n) as Hn by (pose proof (located_bounds _ _ _ _ HU Hl); nia).
  pose proof (shr_inv_shift n _ m l e (f - e) HU Hm ltac:(lia) Hl) as Hshr.
  unfold binary_round_aux. unfold shr_fexp at 1. fold f.
  destruct (shr _ e (f - e)) as [mrs e1]. destruct Hshr as (-> & Hm1 & Hl1).
  replace (e + (f - e)) with f by lia.
  rewrite <- Z.mul_assoc, <- Z.pow_add_r in Hl1 by lia.
  replace (e + 2148 + (f - e)) with (1074 + (f + 1074)) in Hl1 by lia.
  rewrite Z.pow_add_r, Z.mul_assoc in Hl1 by lia.
  pose proof (pow2_pos (f + 1074) ltac:(lia)).
  set (D := d * 2 ^ 1074) in *. assert (0 < D) as HD by (unfold D; lia). clearbody D.
  rewrite (round_nearest_even_rne _ _ n (D * 2 ^ (f + 1074))) by (done || nia).
  unfold round_units. rewrite <- Hexp.
  apply renormalise_encodes; [lia| |].
  - split; [apply rne_ge; nia|].
    apply rne_le; [nia|].
    pose proof (round_shift_upper (n / D) (Z.div_pos _ _ Hn HD)) as Hup.
    apply quot_lt_pow in Hup; [|done]. rewrite <- Hexp, Z.pow_add_r in Hup by lia. lia.
  - destruct (decide (f = -1074)) as [|Hne]; [by left|right].
    pose proof (round_shift_lower (n / D)) as Hlow. rewrite <- Hexp in Hlow.
    assert (0 < f + 1074) as Hpos.
    { unfold f in *. rewrite fexp64_eq in *. lia. }
    specialize (Hlow Hpos). apply rne_ge; [nia|].
    rewrite Z.pow_add_r in Hlow by lia.
    pose proof (Z.mul_div_le n D HD). nia.
Qed.

(** ** The operations on non-negative floats, through [units] *)

Lemma wf_finite s m e :
  f64_wf (S754_finite s m e) ->
  -1074 <= e <= 971 /\ Z.pos m < 2 ^ 53 /\
  e = Z.max (Zdigits2 (Z.pos m) + e - 53) (-1074).
Proof.
  unfold f64_wf, valid_binary, bounded, canonical_mantissa.
  rewrite andb_true_iff, Z.eqb_eq, Z.leb_le, fexp64_eq.
  change (Z.pos (digits2_pos m)) with (Zdigits2 (Z.pos m)). rewrite Zdigits2_log2 by lia.
  intros [Hc He]. split_and!; [lia..| |lia].
  apply Z.log2_lt_pow2; lia.
Qed.

Lemma wf_representable s m e :
  f64_wf (S754_finite s m e) -> representable (Z.pos m * 2 ^ (e + 1074)).
Proof.
  intros (He & Hm & _)%wf_finite. exists (Z.pos m), (e + 1074). split_and!; lia.
Qed.

Lemma wf_units_lt s m e :
  f64_wf (S754_finite s m e) -> 0 < Z.pos m * 2 ^ (e + 1074) < inf_units.
Proof.
  intros (He & Hm & _)%wf_finite. pose proof (pow2_pos (e + 1074) ltac:(lia)).
  split; [lia|]. unfold inf_units. change 2098 with (53 + 2045). rewrite (Z.pow_add_r 2 53 2045) by lia.
  assert (2 ^ (e + 1074) <= 2 ^ 2045) by (apply Z.pow_le_mono_r; lia). nia.
Qed.

Lemma units_nonneg x : f64_nonneg x -> 0 <= units x <= inf_units.
Proof.
  intros [Hwf Hs]. destruct x as [|[]| |s m e]; simpl in *; try (unfold inf_units; lia).
  subst s. pose proof (wf_units_lt _ _ _ Hwf). simpl. lia.
Qed.

Lemma units_finite x : f64_nonneg x -> f64_finite x <-> units x < inf_units.
Proof.
  intros [Hwf Hs]. destruct x as [|[]| |s m e]; simpl in *; try done.
  subst s. pose proof (wf_units_lt _ _ _ Hwf). simpl. intuition lia.
Qed.

Lemma units_representable x : f64_nonneg x -> f64_finite x -> representable (units x).
Proof.
  intros [Hwf Hs] Hf. destruct x as [| | |s m e]; simpl in *; try done.
  - exists 0, 0. split_and!; lia.
  - subst s. by eapply wf_representable.
Qed.

Lemma encodes_nonneg v r :
  encodes false v r -> f64_nonneg r /\ units r = Z.min v inf_units.
Proof.
  destruct r as [s|s| |s m e]; simpl.
  - intros [-> ->]. split; [done|]. unfold inf_units. lia.
  - intros [-> Hv]. split; [done|]. simpl. lia.
  - done.
  - intros (-> & -> & Hwf). split; [done|]. pose proof (wf_units_lt _ _ _ Hwf). simpl. lia.
Qed.

Lemma round_units_eq n1 d1 n2 d2 :
  0 < d1 -> 0 < d2 -> 0 <= n1 -> n1 * d2 = n2 * d1 -> round_units n1 d1 = round_units n2 d2.
Proof. intros. apply Z.le_antisymm; apply round_units_mono; nia. Qed.

Lemma f64_mul_units x y :
  f64_nonneg x -> f64_nonneg y -> f64_finite x -> f64_finite y ->
  f64_nonneg (x * y)%f64 /\
  units (x * y)%f64 = Z.min (round_units (units x * units y) one_unit) inf_units.
Proof.
  intros [Hx Hsx] [Hy Hsy] Hfx Hfy.
  destruct x as [sx| | |sx mx ex]; try done; destruct y as [sy| | |sy my ey]; try done;
    simpl in *; try (split; [done|]; rewrite ?Z.mul_0_r; done).
  subst sx sy. simpl. apply encodes_nonneg.
  pose proof (wf_finite _ _ _ Hx) as (Hex & Hmx & Hcx).
  pose proof (wf_finite _ _ _ Hy) as (Hey & Hmy & Hcy).
  change one_unit with (1 * 2 ^ 1074). apply binary_round_aux_spec; [lia..| |].
  - rewrite fexp64_eq. change (Z.pos (mx * my)) with (Z.pos mx * Z.pos my).
    rewrite !Zdigits2_log2 in * by lia.
    pose proof (Z.log2_mul_below (Z.pos mx) (Z.pos my) ltac:(lia) ltac:(lia)).
    pose proof (Z.log2_nonneg (Z.pos mx)). pose proof (Z.log2_nonneg (Z.pos my)). lia.
  - simpl. rewrite Z.mul_1_l.
    replace (ex + ey + 2148) with ((ex + 1074) + (ey + 1074)) by lia.
    rewrite (Z.pow_add_r 2 (ex + 1074)) by lia. lia.
Qed.

Lemma iter_xO_pow m d : Z.pos (Pos.iter xO m d) = Z.pos m * 2 ^ Z.pos d.
Proof.
  induction d as [|d IH] using Pos.peano_ind; [simpl; lia|].
  rewrite Pos.iter_succ, Pos2Z.inj_succ, Z.pow_succ_r, Pos2Z.inj_xO, IH by lia. ring.
Qed.

Lemma shl_align_spec m e e' :
  let '(m1, e1) := shl_align m e e' in
  e1 = Z.min e e' /\ Z.pos m1 = Z.pos m * 2 ^ (e - e1).
Proof.
  unfold shl_align. destruct (e' - e) as [|d|d] eqn:Hd.
  - split; [lia|]. by rewrite Z.sub_diag, Z.mul_1_r.
  - split; [lia|]. by rewrite Z.sub_diag, Z.mul_1_r.
  - split; [lia|]. rewrite iter_xO_pow. f_equal. f_equal. lia.
Qed.

(** Normalising [m * 2 ^ e] rounds its value. *)
Lemma binary_normalize_units m e :
  0 < m -> -1074 <= e ->
  encodes false (round_units (m * 2 ^ (e + 1074)) 1) (binary_normalize 53 1024 m e false).
Proof.
  intros Hm He. destruct m as [|p|p]; [lia| |lia]. simpl. unfold binary_round.
  pose proof (shl_align_spec p e (fexp64 (Z.pos (digits2_pos p) + e))) as Hal.
  destruct (shl_align p e _) as [p1 e1]. destruct Hal as [He1 Hp1].
  change (Z.pos (digits2_pos p)) with (Zdigits2 (Z.pos p)) in He1.
  rewrite fexp64_eq in He1.
  rewrite (round_units_eq _ _ (Z.pos p1 * 2 ^ (e1 + 2148)) (1 * 2 ^ 1074)).
  - apply binary_round_aux_spec; [lia..| |simpl; lia].
    rewrite fexp64_eq, Hp1. rewrite !Zdigits2_log2 in * by (pose proof (pow2_pos (e - e1)); lia).
    rewrite Z.log2_mul_pow2 by lia. lia.
  - lia.
  - lia.
  - pose proof (pow2_pos (e + 1074) ltac:(lia)). lia.
  - rewrite Hp1. rewrite Z.mul_1_l, Z.mul_1_r, <- !Z.mul_assoc, <- !Z.pow_add_r by lia.
    f_equal. f_equal. lia.
Qed.

Lemma f64_of_Z_units n :
  0 <= n -> f64_nonneg (f64_of_Z n) /\
            units (f64_of_Z n) = Z.min (round_units (n * one_unit) 1) inf_units.
Proof.
  intros Hn. destruct (decide (n = 0)) as [->|]; [by split|].
  apply encodes_nonneg, (binary_normalize_units n 0); lia.
Qed.

Lemma f64_add_units x y :
  f64_nonneg x -> f64_nonneg y -> f64_finite x -> f64_finite y ->
  f64_nonneg (x + y)%f64 /\ units (x + y)%f64 = Z.min (round_units (units x + units y) 1) inf_units.
Proof.
  intros Hx Hy Hfx Hfy.
  assert (forall z, f64_nonneg z -> f64_finite z ->
            units z = Z.min (round_units (units z) 1) inf_units) as Hid.
  { intros z Hz Hfz. rewrite <- (Z.mul_1_r (units z)) at 2.
    rewrite round_units_id by (lia || by apply units_representable).
    pose proof (units_nonneg z Hz). lia. }
  destruct x as [sx| | |sx mx ex]; try done; destruct y as [sy| | |sy my ey]; try done.
  - by destruct sx, sy.
  - split; [done|]. rewrite Z.add_0_l. by apply Hid.
  - split; [done|]. rewrite Z.add_0_r. by apply Hid.
  - destruct Hx as [Hwx ->], Hy as [Hwy ->]. simpl. apply encodes_nonneg.
    pose proof (wf_finite _ _ _ Hwx) as (Hex & _ & _).
    pose proof (wf_finite _ _ _ Hwy) as (Hey & _ & _).
    pose proof (shl_align_spec mx ex (Z.min ex ey)) as Hax.
    pose proof (shl_align_spec my ey (Z.min ex ey)) as Hay.
    destruct (shl_align mx ex _) as [mx' ex'], (shl_align my ey _) as [my' ey'].
    destruct Hax as [Hex' Hmx'], Hay as [Hey' Hmy']. simpl fst.
    replace ex' with (Z.min ex ey) in Hmx' by lia.
    replace ey' with (Z.min ex ey) in Hmy' by lia.
    replace (Z.pos mx * 2 ^ (ex + 1074) + Z.pos my * 2 ^ (ey + 1074))
      with (Z.pos (mx' + my') * 2 ^ (Z.min ex ey + 1074)).
    + apply binary_normalize_units; lia.
    + rewrite Pos2Z.inj_add, Hmx', Hmy', Z.mul_add_distr_r, <- !Z.mul_assoc, <- !Z.pow_add_r by lia.
      f_equal; f_equal; f_equal; lia.
Qed.

Lemma new_location_located q nb k c :
  0 < nb -> 0 < c -> 0 <= k < nb ->
  located q (new_location nb k) ((q * nb + k) * c) (nb * c).
Proof.
  intros Hnb Hc Hk. unfold new_location, new_location_even, new_location_odd.
  destruct (Z.eqb_spec k 0) as [->|Hk0]; [destruct (Z.even nb); simpl; lia|].
  assert ((2 * ((q * nb + k) * c - q * (nb * c)) ?= nb * c) = (2 * k ?= nb)) as Hcmp.
  { replace (2 * ((q * nb + k) * c - q * (nb * c))) with (2 * k * c) by ring.
    apply (proj2 (compare_cases _ _ _)). destruct (Z.compare_spec (2 * k) nb); nia. }
  destruct (Z.even nb) eqn:Hev; cbv beta; rewrite (proj2 (Z.eqb_neq k 0) Hk0); simpl;
    (split; [nia|]); rewrite Hcmp.
  - done.
  - assert (2 * k <> nb) by (intros <-; rewrite Z.even_mul in Hev; done).
    symmetry. destruct (Z.compare_spec (2 * k) nb), (Z.compare_spec (2 * k + 1) nb); (done || lia).
Qed.

Lemma SFdiv_core_spec mx ex my ey :
  -1074 <= ex <= 971 -> -1074 <= ey <= 971 ->
  let '(q, e, l) := SFdiv_core_binary 53 1024 (Z.pos mx) ex (Z.pos my) ey in
  0 <= q /\ -2148 <= e /\ e <= fexp64 (Zdigits2 q + e) /\
  located q l (Z.pos mx * 2 ^ (ex - ey + 2148)) (Z.pos my * 2 ^ (e + 2148)).
Proof.
  intros Hex Hey. unfold SFdiv_core_binary.
  set (e := Z.min _ _).
  assert (-2148 <= e <= ex - ey) as He by (unfold e; rewrite fexp64_eq; lia).
  replace (match ex - ey - e with 0 => Z.pos mx | Z.pos _ => Z.shiftl (Z.pos mx) (ex - ey - e)
           | Z.neg _ => 0 end) with (Z.pos mx * 2 ^ (ex - ey - e)).
  2:{ destruct (ex - ey - e) as [|p|p] eqn:Hs; [by rewrite Z.mul_1_r| |lia].
      by rewrite Z.shiftl_mul_pow2 by lia. }
  pose proof (Z_div_mod (Z.pos mx * 2 ^ (ex - ey - e)) (Z.pos my) ltac:(lia)) as Hdm.
  destruct (Z.div_eucl _ _) as [q r]. destruct Hdm as [Hdm Hr].
  pose proof (pow2_pos (ex - ey - e) ltac:(lia)) as Hp.
  assert (0 <= q) as Hq by nia.
  split_and!; [done|lia| |].
  - rewrite fexp64_eq. unfold e at 1. rewrite fexp64_eq.
    enough (Zdigits2 (Z.pos mx) + (ex - ey - e) - Zdigits2 (Z.pos my) <= Zdigits2 q) by lia.
    pose proof (digits2_pos_spec mx) as [Hdx _]. pose proof (digits2_pos_spec my) as [_ Hdy].
    change (Z.pos (digits2_pos mx)) with (Zdigits2 (Z.pos mx)) in Hdx.
    change (Z.pos (digits2_pos my)) with (Zdigits2 (Z.pos my)) in Hdy.
    set (dx := Zdigits2 (Z.pos mx)) in *. set (dy := Zdigits2 (Z.pos my)) in *.
    assert (1 <= dx /\ 1 <= dy) as [Hdx1 Hdy1] by (unfold dx, dy; simpl; lia).
    set (s := ex - ey - e) in *.
    destruct (Z.le_gt_cases (dx + s - dy) 0) as [|Hgt]; [destruct q; simpl; lia|].
    enough (2 ^ (dx + s - dy - 1) <= q) as Hlow.
    { pose proof (pow2_pos (dx + s - dy - 1) ltac:(lia)). rewrite Zdigits2_log2 by lia.
      apply Z.log2_le_pow2 in Hlow; lia. }
    apply Z.lt_succ_r, (Z.mul_lt_mono_pos_r (Z.pos my)); [lia|].
    apply Z.le_lt_trans with (Z.pos mx * 2 ^ s); [|lia].
    transitivity (2 ^ (dx + s - dy - 1) * 2 ^ dy);
      [apply Z.mul_le_mono_nonneg_l; [apply Z.pow_nonneg|]; lia|].
    rewrite <- Z.pow_add_r by lia. replace (dx + s - dy - 1 + dy) with (dx - 1 + s) by lia.
    rewrite Z.pow_add_r by lia. apply Z.mul_le_mono_nonneg_r; lia.
  - replace (Z.pos mx * 2 ^ (ex - ey + 2148)) with ((q * Z.pos my + r) * 2 ^ (e + 2148)).
    + apply new_location_located; [lia|apply pow2_pos; lia|lia].
    + rewrite (Z.mul_comm q), <- Hdm, <- Z.mul_assoc, <- Z.pow_add_r by lia.
      f_equal. f_equal. lia.
Qed.

Lemma f64_div_units x y :
  f64_nonneg x -> f64_nonneg y -> f64_finite x -> f64_finite y -> 0 < units y ->
  f64_nonneg (x / y)%f64 /\
  units (x / y)%f64 = Z.min (round_units (units x * one_unit) (units y)) inf_units.
Proof.
  intros [Hx Hsx] [Hy Hsy] Hfx Hfy Hpos.
  destruct y as [sy| | |sy my ey]; try done. simpl in Hsy; subst sy.
  destruct x as [sx| | |sx mx ex]; try done; simpl in *.
  - split; [done|]. rewrite Z.mul_0_l, round_units_0 by done. done.
  - subst sx. simpl.
    pose proof (wf_finite _ _ _ Hx) as (Hex & _ & _).
    pose proof (wf_finite _ _ _ Hy) as (Hey & _ & _).
    pose proof (SFdiv_core_spec mx ex my ey Hex Hey) as Hcore.
    destruct (SFdiv_core_binary _ _ _ _ _ _) as [[q e] l].
    destruct Hcore as (Hq & He & Hf & Hl). apply encodes_nonneg.
    pose proof (pow2_pos (ex - ey + 2148) ltac:(lia)).
    rewrite (round_units_eq _ _ (Z.pos mx * 2 ^ (ex - ey + 2148)) (Z.pos my * 2 ^ 1074)).
    + by apply binary_round_aux_spec; [lia..| |].
    + lia.
    + lia.
    + pose proof (pow2_pos (ex + 1074) ltac:(lia)). unfold one_unit. lia.
    + unfold one_unit.
      transitivity (Z.pos mx * Z.pos my * 2 ^ (ex + 1074 + 1074 + 1074));
        [|symmetry; transitivity (Z.pos mx * Z.pos my * 2 ^ (ex - ey + 2148 + (ey + 1074)))].
      * rewrite (Z.pow_add_r 2 (ex + 1074 + 1074)), (Z.pow_add_r 2 (ex + 1074)) by lia. ring.
      * rewrite (Z.pow_add_r 2 (ex - ey + 2148)) by lia. ring.
      * f_equal. f_equal. lia.
Qed.

(** ** Comparison, minimum and maximum *)

Lemma finite_compare mx ex my ey :
  f64_wf (S754_finite false mx ex) -> f64_wf (S754_finite false my ey) ->
  match ex ?= ey with Eq => Pos.compare_cont Eq mx my | c => c end
  = (Z.pos mx * 2 ^ (ex + 1074) ?= Z.pos my * 2 ^ (ey + 1074)).
Proof.
  intros Hx Hy.
  pose proof (wf_finite _ _ _ Hx) as (Hex & Hmx & Hcx).
  pose proof (wf_finite _ _ _ Hy) as (Hey & Hmy & Hcy).
  rewrite Zdigits2_log2 in Hcx, Hcy by lia.
  assert (forall m e m' e', e < e' -> -1074 <= e -> Z.pos m < 2 ^ 53 -> Z.log2 (Z.pos m') = 52 ->
            Z.pos m * 2 ^ (e + 1074) < Z.pos m' * 2 ^ (e' + 1074)) as Hlt.
  { intros m e m' e' Hee He Hm Hm'.
    assert (2 ^ 52 <= Z.pos m') by (rewrite <- Hm'; apply Z.log2_spec; lia).
    assert (2 ^ (e + 1074 + 1) <= 2 ^ (e' + 1074)) as Hp by (apply Z.pow_le_mono_r; lia).
    rewrite Z.pow_add_r in Hp by lia. pose proof (pow2_pos (e + 1074) ltac:(lia)). nia. }
  symmetry. apply compare_cases. destruct (Z.compare_spec ex ey) as [->|He|He].
  - change (Pos.compare_cont Eq mx my) with (Z.pos mx ?= Z.pos my).
    pose proof (pow2_pos (ey + 1074) ltac:(lia)).
    destruct (Z.compare_spec (Z.pos mx) (Z.pos my)) as [->| |]; nia.
  - apply Hlt; lia.
  - apply Hlt; lia.
Qed.

Lemma f64_compare_units x y :
  f64_nonneg x -> f64_nonneg y -> SFcompare x y = Some (units x ?= units y).
Proof.
  intros [Hx Hsx] [Hy Hsy].
  destruct x as [sx|[]| |sx mx ex]; try done; destruct y as [sy|[]| |sy my ey]; try done;
    simpl in Hsx, Hsy; subst; unfold units, SFcompare, cond_Zopp; try done.
  - pose proof (wf_units_lt _ _ _ Hy). f_equal. symmetry. apply compare_cases. lia.
  - pose proof (wf_units_lt _ _ _ Hy). f_equal. symmetry. apply compare_cases. lia.
  - pose proof (wf_units_lt _ _ _ Hx). f_equal. symmetry. apply compare_cases. lia.
  - pose proof (wf_units_lt _ _ _ Hx). f_equal. symmetry. apply compare_cases. lia.
  - f_equal. etransitivity; [|apply finite_compare; done]. by destruct (ex ?= ey).
Qed.

Lemma f64_le_units x y :
  f64_nonneg x -> f64_nonneg y -> (x <=? y)%f64 = (units x <=? units y).
Proof.
  intros Hx Hy. unfold f64_le, SFleb, Z.leb. rewrite f64_compare_units by done.
  by destruct (units x ?= units y).
Qed.

Lemma f64_lt_units x y :
  f64_nonneg x -> f64_nonneg y -> (x <? y)%f64 = (units x <? units y).
Proof.
  intros Hx Hy. unfold f64_lt, SFltb, Z.ltb. rewrite f64_compare_units by done.
  by destruct (units x ?= units y).
Qed.

Lemma f64_nonneg_not_nan x : f64_nonneg x -> is_nan x = false.
Proof. by intros [_ H]; destruct x. Qed.

Lemma f64_min_units x y :
  f64_nonneg x -> f64_nonneg y ->
  f64_nonneg (f64_min x y) /\ units (f64_min x y) = Z.min (units x) (units y).
Proof.
  intros Hx Hy. unfold f64_min. rewrite !f64_nonneg_not_nan by done.
  change (f64_lt y x) with (y <? x)%f64. rewrite f64_lt_units by done.
  destruct (Z.ltb_spec (units y) (units x)); (split; [done|lia]).
Qed.

Lemma f64_max_units x y :
  f64_nonneg x -> f64_nonneg y ->
  f64_nonneg (f64_max x y) /\ units (f64_max x y) = Z.max (units x) (units y).
Proof.
  intros Hx Hy. unfold f64_max. rewrite !f64_nonneg_not_nan by done.
  change (f64_lt x y) with (x <? y)%f64. rewrite f64_lt_units by done.
  destruct (Z.ltb_spec (units x) (units y)); (split; [done|lia]).
Qed.

(** ** Derived facts, in the form the controllers use them *)

(** A finite non-negative float: every rate, loss ratio and duration. *)
Definition f64_fin (x : f64) : Prop := f64_nonneg x /\ f64_finite x.

Create HintDb f64db discriminated.
Ltac f64_const := split; [split; vm_compute; trivial|exact I].

Lemma one_unit_pos : 0 < one_unit.
Proof. by apply pow2_pos. Qed.
Lemma one_unit_representable : representable one_unit.
Proof. exists 1, 1074. split_and!; [lia..|]. unfold one_unit. lia. Qed.

Lemma f64_fin_units x : f64_fin x -> 0 <= units x < inf_units.
Proof. intros [Hn Hf]. pose proof (units_nonneg x Hn). apply (units_finite x Hn) in Hf. lia. Qed.

Lemma f64_fin_of_lt x : f64_nonneg x -> units x < inf_units -> f64_fin x.
Proof. intros Hn Hu. split; [done|]. by apply units_finite. Qed.

Lemma f64_fin_le_of x y : f64_fin x -> f64_nonneg y -> units y <= units x -> f64_fin y.
Proof. intros Hx Hy Hle. apply f64_fin_of_lt; [done|]. pose proof (f64_fin_units x Hx). lia. Qed.

Lemma f64_le_fin x y : f64_fin x -> f64_fin y -> (x <=? y)%f64 = (units x <=? units y).
Proof. intros [? _] [? _]. by apply f64_le_units. Qed.
Lemma f64_lt_fin x y : f64_fin x -> f64_fin y -> (x <? y)%f64 = (units x <? units y).
Proof. intros [? _] [? _]. by apply f64_lt_units. Qed.

Lemma f64_min_fin x y :
  f64_fin x -> f64_fin y -> f64_fin (f64_min x y) /\ units (f64_min x y) = Z.min (units x) (units y).
Proof.
  intros Hx Hy. destruct (f64_min_units x y) as [Hn Hu]; [apply Hx|apply Hy|].
  split; [|done]. apply (f64_fin_le_of x); [done|done|lia].
Qed.

Lemma f64_max_fin x y :
  f64_fin x -> f64_fin y -> f64_fin (f64_max x y) /\ units (f64_max x y) = Z.max (units x) (units y).
Proof.
  intros Hx Hy. destruct (f64_max_units x y) as [Hn Hu]; [apply Hx|apply Hy|].
  split; [|done]. apply f64_fin_of_lt; [done|].
  pose proof (f64_fin_units x Hx). pose proof (f64_fin_units y Hy). lia.
Qed.

Lemma f64_mul_nonneg x y : f64_fin x -> f64_fin y -> f64_nonneg (x * y)%f64.
Proof. intros [] []. by apply f64_mul_units. Qed.

(** Multiplication is monotone. *)
Lemma f64_mul_mono x y c d :
  f64_fin x -> f64_fin y -> f64_fin c -> f64_fin d ->
  units x <= units y -> units c <= units d -> units (x * c)%f64 <= units (y * d)%f64.
Proof.
  intros Hx Hy Hc Hd Hle Hcd.
  destruct (f64_mul_units x c) as [_ ->]; [by apply Hx|by apply Hc|by apply Hx|by apply Hc|].
  destruct (f64_mul_units y d) as [_ ->]; [by apply Hy|by apply Hd|by apply Hy|by apply Hd|].
  pose proof (f64_fin_units x Hx). pose proof (f64_fin_units c Hc).
  enough (round_units (units x * units c) one_unit <= round_units (units y * units d) one_unit)
    by lia.
  pose proof one_unit_pos.
  apply round_units_mono; [done|done|by apply Z.mul_nonneg_nonneg; lia|].
  apply Z.mul_le_mono_nonneg_r; [lia|]. apply Z.mul_le_mono_nonneg; lia.
Qed.

(** Multiplying by a factor of at most one does not increase. *)
Lemma f64_mul_le_l x c :
  f64_fin x -> f64_fin c -> units c <= one_unit ->
  f64_fin (x * c)%f64 /\ units (x * c)%f64 <= units x.
Proof.
  intros Hx Hc Hle.
  destruct (f64_mul_units x c) as [Hn Hu]; [by apply Hx|by apply Hc|by apply Hx|by apply Hc|].
  pose proof (f64_fin_units x Hx). pose proof (f64_fin_units c Hc). pose proof one_unit_pos.
  assert (units (x * c)%f64 <= units x) as Hxc.
  { rewrite Hu. etransitivity; [apply Z.le_min_l|].
    apply round_units_le; [lia|apply Z.mul_nonneg_nonneg; lia| |].
    - apply units_representable; apply Hx.
    - apply Z.mul_le_mono_nonneg_l; lia. }
  split; [|done]. by apply (f64_fin_le_of x).
Qed.

(** Multiplying by a factor of at least one does not decrease. *)
Lemma f64_mul_ge_l x c :
  f64_fin x -> f64_fin c -> one_unit <= units c -> units x <= units (x * c)%f64.
Proof.
  intros Hx Hc Hle.
  destruct (f64_mul_units x c) as [_ ->]; [by apply Hx|by apply Hc|by apply Hx|by apply Hc|].
  pose proof (f64_fin_units x Hx). pose proof one_unit_pos.
  apply Z.min_glb; [|lia].
  apply round_units_ge; [lia|lia|apply units_representable; apply Hx|].
  apply Z.mul_le_mono_nonneg_l; lia.
Qed.

Lemma rounded_product_upper r u a c :
  u <= a -> 2 ^ 54 * Z.abs (r * u - a * c) <= 2 * (a * c) + 2 ^ 53 * u ->
  r * (2 ^ 54 * u) <= a * (c * (2 ^ 54 + 2) + 2 ^ 53).
Proof. lia. Qed.

(** A product exceeds the real product by a relative 2^-53 at most. *)
Lemma f64_mul_upper x c :
  f64_fin x -> f64_fin c -> one_unit <= units x ->
  units (x * c)%f64 * (2 ^ 54 * one_unit) <= units x * (units c * (2 ^ 54 + 2) + 2 ^ 53).
Proof.
  intros Hx Hc Hone.
  destruct (f64_mul_units x c) as [_ Hu]; [by apply Hx|by apply Hc|by apply Hx|by apply Hc|].
  pose proof (f64_fin_units x Hx). pose proof (f64_fin_units c Hc). pose proof one_unit_pos.
  pose proof (round_units_error (units x * units c) one_unit ltac:(done)
                ltac:(apply Z.mul_nonneg_nonneg; lia)) as He.
  rewrite Hu. etransitivity; [apply Z.mul_le_mono_nonneg_r; [lia|apply Z.le_min_l]|].
  by apply rounded_product_upper.
Qed.

Lemma f64_mul_comm_units x y :
  f64_fin x -> f64_fin y -> units (x * y)%f64 = units (y * x)%f64.
Proof.
  intros [] []. destruct (f64_mul_units x y) as [_ ->]; [done..|].
  destruct (f64_mul_units y x) as [_ ->]; [done..|]. by rewrite Z.mul_comm.
Qed.

Lemma f64_add_mono x y c d :
  f64_fin x -> f64_fin y -> f64_fin c -> f64_fin d ->
  units x <= units y -> units c <= units d -> units (x + c)%f64 <= units (y + d)%f64.
Proof.
  intros Hx Hy Hc Hd Hle Hcd.
  destruct (f64_add_units x c) as [_ ->]; [by apply Hx|by apply Hc|by apply Hx|by apply Hc|].
  destruct (f64_add_units y d) as [_ ->]; [by apply Hy|by apply Hd|by apply Hy|by apply Hd|].
  pose proof (f64_fin_units x Hx). pose proof (f64_fin_units c Hc).
  enough (round_units (units x + units c) 1 <= round_units (units y + units d) 1) by lia.
  apply round_units_mono; lia.
Qed.

(** Division is monotone in the dividend and antitone in the divisor. *)
Lemma f64_div_mono x y c d :
  f64_fin x -> f64_fin y -> f64_fin c -> f64_fin d -> 0 < units d ->
  units x <= units y -> units d <= units c -> units (x / c)%f64 <= units (y / d)%f64.
Proof.
  intros Hx Hy Hc Hd Hpos Hle Hcd.
  destruct (f64_div_units x c) as [_ ->]; [by apply Hx|by apply Hc|by apply Hx|by apply Hc|lia|].
  destruct (f64_div_units y d) as [_ ->]; [by apply Hy|by apply Hd|by apply Hy|by apply Hd|lia|].
  pose proof (f64_fin_units x Hx). pose proof one_unit_pos.
  enough (round_units (units x * one_unit) (units c) <= round_units (units y * one_unit) (units d))
    by lia.
  apply round_units_mono; [lia|lia|apply Z.mul_nonneg_nonneg; lia|].
  apply Z.mul_le_mono_nonneg; [apply Z.mul_nonneg_nonneg; lia| |lia|lia].
  apply Z.mul_le_mono_nonneg_r; lia.
Qed.

(** ** Conversions *)

Lemma f64_as_u64_units x : f64_nonneg x -> f64_as_u64 x = Z.min (units x / one_unit) u64_max.
Proof.
  intros [Hwf Hs]. destruct x as [|[]| |s m e]; [by vm_compute|done|by vm_compute|done|].
  simpl in *. subst s. f_equal.
  unfold trunc_mag, cond_Zopp, one_unit. pose proof (wf_finite _ _ _ Hwf) as (He & _ & _).
  destruct (Z.leb_spec 0 e).
  - rewrite Z.pow_add_r, Z.mul_assoc, Z.div_mul by lia. done.
  - replace 1074 with ((e + 1074) + - e) at 2 by lia.
    rewrite (Z.pow_add_r 2 (e + 1074)), (Z.mul_comm (Z.pos m)) by lia.
    by rewrite Z.div_mul_cancel_l by lia.
Qed.

Lemma f64_as_u64_nonneg x : 0 <= f64_as_u64 x.
Proof.
  destruct x as [|[]| |[] m e]; try done. simpl. apply Z.min_glb; [|done].
  unfold trunc_mag. case_match.
  - apply Z.mul_nonneg_nonneg; [lia|]. by apply Z.pow_nonneg.
  - apply Z.div_pos; [lia|]. apply Z.pow_pos_nonneg; lia.
Qed.

Lemma f64_as_u64_mono x y :
  f64_nonneg x -> f64_nonneg y -> units x <= units y -> f64_as_u64 x <= f64_as_u64 y.
Proof.
  intros Hx Hy Hle. rewrite !f64_as_u64_units by done.
  pose proof (Z.div_le_mono _ _ one_unit one_unit_pos Hle). lia.
Qed.

(** Round half up, in units. *)
Definition half_up (v : Z) : Z := (2 * v + one_unit) / (2 * one_unit) * one_unit.

Lemma half_up_mono v w : v <= w -> half_up v <= half_up w.
Proof.
  intros H. unfold half_up. pose proof one_unit_pos.
  apply Z.mul_le_mono_nonneg_r; [lia|]. apply Z.div_le_mono; lia.
Qed.

Lemma f64_round_units x :
  f64_nonneg x -> f64_nonneg (f64_round x) /\
                  units (f64_round x) = Z.min (round_units (half_up (units x)) 1) inf_units.
Proof.
  intros Hx. pose proof Hx as [Hwf Hs]. destruct x as [|[]| |s m e];
    [split; by vm_compute|done|split; by vm_compute|done|].
  simpl in Hs. subst s. pose proof (wf_finite _ _ _ Hwf) as (He & _ & _). unfold f64_round.
  destruct (Z.leb_spec 0 e) as [He0|He0].
  - split; [apply Hx|].
    pose proof (wf_units_lt _ _ _ Hwf) as Hu.
    set (x := S754_finite false m e) in *.
    change (Z.pos m * 2 ^ (e + 1074)) with (units x) in Hu.
    assert (half_up (units x) = units x * 1) as ->.
    { unfold half_up, x, units, cond_Zopp.
      replace (2 * (Z.pos m * 2 ^ (e + 1074)) + one_unit)
        with (one_unit + Z.pos m * 2 ^ e * (2 * one_unit)).
      - rewrite Z.div_add, (Z.div_small one_unit) by (pose proof one_unit_pos; lia).
        unfold one_unit. rewrite Z.pow_add_r by lia. ring.
      - unfold one_unit. rewrite (Z.pow_add_r 2 e) by lia. ring. }
    rewrite round_units_id by (lia || by apply units_representable). lia.
  - assert (half_up (units (S754_finite false m e)) = round_mag m e * one_unit) as ->.
    { unfold half_up, units, cond_Zopp, round_mag. rewrite (proj2 (Z.leb_gt 0 e)) by done.
      f_equal. replace one_unit with (2 ^ (- e) * 2 ^ (e + 1074)).
      - rewrite <- (Z.div_mul_cancel_r (2 * Z.pos m + 2 ^ (- e)) (2 * 2 ^ (- e)) (2 ^ (e + 1074)))
          by (pose proof (pow2_pos (e + 1074)); pose proof (pow2_pos (- e)); lia).
        f_equal; ring.
      - unfold one_unit. rewrite <- Z.pow_add_r by lia. f_equal. lia. }
    apply (f64_of_Z_units (round_mag m e)). unfold round_mag.
    rewrite (proj2 (Z.leb_gt 0 e)) by done.
    apply Z.div_pos; pose proof (pow2_pos (- e) ltac:(lia)); lia.
Qed.

Lemma f64_round_mono x y :
  f64_nonneg x -> f64_nonneg y -> units x <= units y -> units (f64_round x) <= units (f64_round y).
Proof.
  intros Hx Hy Hle. destruct (f64_round_units x Hx) as [_ ->], (f64_round_units y Hy) as [_ ->].
  pose proof (half_up_mono _ _ Hle). pose proof (units_nonneg x Hx). pose proof one_unit_pos.
  enough (round_units (half_up (units x)) 1 <= round_units (half_up (units y)) 1) by lia.
  apply round_units_mono; [lia|lia| |lia].
  unfold half_up. apply Z.mul_nonneg_nonneg; [|lia]. apply Z.div_pos; lia.
Qed.

Lemma f64_of_Z_small n :
  0 <= n < 2 ^ 53 -> f64_fin (f64_of_Z n) /\ units (f64_of_Z n) = n * one_unit.
Proof.
  intros Hn. destruct (f64_of_Z_units n) as [Hnn Hu]; [lia|].
  rewrite <- (Z.mul_1_r (n * one_unit)), round_units_id in Hu.
  - assert (n * one_unit < inf_units) as Hlt.
    { unfold one_unit, inf_units. replace 2098 with (1074 + 1024) by lia.
      rewrite Z.pow_add_r, Z.mul_comm by lia. apply Z.mul_lt_mono_pos_l; [by apply pow2_pos|].
      apply Z.lt_le_trans with (2 ^ 53); [lia|by apply Z.pow_le_mono_r]. }
    rewrite Z.min_l in Hu by lia. split; [|done]. apply f64_fin_of_lt; [done|lia].
  - lia.
  - exists n, 1074. split_and!; [lia..|done].
Qed.

(** ** Closure under operations that may reach infinity *)

Lemma f64_nonneg_cases x : f64_nonneg x -> f64_fin x \/ x = S754_infinity false.
Proof.
  intros Hx. destruct x as [s|s| |s m e]; [left; by split| |by destruct Hx|left; by split].
  destruct Hx as [_ ->]. by right.
Qed.

Lemma f64_add_nonneg x y : f64_nonneg x -> f64_nonneg y -> f64_nonneg (x + y)%f64.
Proof.
  intros Hx Hy. destruct (f64_nonneg_cases x Hx) as [[_ Hfx]| ->], (f64_nonneg_cases y Hy) as [[_ Hfy]| ->].
  - by apply f64_add_units.
  - by destruct x.
  - by destruct y.
  - done.
Qed.

Lemma f64_div_nonneg x y :
  f64_fin x -> f64_nonneg y -> 0 < units y -> f64_nonneg (x / y)%f64.
Proof.
  intros [Hx Hfx] Hy Hpos. destruct (f64_nonneg_cases y Hy) as [[_ Hfy]| ->].
  - by apply f64_div_units.
  - destruct x as [s|s| |s m e]; try done.
Qed.

Lemma f64_mul_pos_nonneg x c : f64_nonneg x -> f64_fin c -> 0 < units c -> f64_nonneg (x * c)%f64.
Proof.
  intros Hx Hc Hpos. destruct (f64_nonneg_cases x Hx) as [Hf| ->]; [by apply f64_mul_nonneg|].
  destruct Hc as [[Hw Hs] Hf]. by destruct c as [s|s| |s m e].
Qed.

(** A [u64] as a float. *)
Lemma f64_of_u64 n :
  0 <= n < u64_modulus ->
  f64_fin (f64_of_Z n) /\ (0 < n -> one_unit <= units (f64_of_Z n)).
Proof.
  intros Hn. destruct (f64_of_Z_units n) as [Hnn Hu]; [lia|]. pose proof one_unit_pos.
  assert (round_units (n * one_unit) 1 <= u64_modulus * one_unit) as Hle.
  { apply round_units_le; [lia|apply Z.mul_nonneg_nonneg; lia| |].
    - exists 1, (64 + 1074). unfold u64_modulus, one_unit. rewrite <- Z.pow_add_r by lia. split_and!; lia.
    - rewrite Z.mul_1_r. apply Z.mul_le_mono_nonneg_r; lia. }
  assert (u64_modulus * one_unit < inf_units) as Hinf by (vm_compute; reflexivity).
  split; [apply f64_fin_of_lt; [done|lia]|]. intros H0. rewrite Hu. apply Z.min_glb.
  - apply round_units_ge; [lia|apply Z.mul_nonneg_nonneg; lia|exact one_unit_representable|].
    rewrite Z.mul_1_r. rewrite <- (Z.mul_1_l one_unit) at 1. apply Z.mul_le_mono_nonneg_r; lia.
  - vm_compute. discriminate.
Qed.

(** ** [total_cmp] is a total order *)

Definition total_key (x : f64) : Z * Z * Z :=
  match x with
  | S754_infinity true => (-2, 0, 0)
  | S754_finite true m e => (-1, - e, Z.neg m)
  | S754_zero true => (0, 0, 0)
  | S754_zero false => (0, 1, 0)
  | S754_finite false m e => (1, e, Z.pos m)
  | S754_infinity false => (2, 0, 0)
  | S754_nan => (3, 0, 0)
  end.

Definition key_le (a b : Z * Z * Z) : Prop :=
  let '(a1, a2, a3) := a in
  let '(b1, b2, b3) := b in
  a1 < b1 \/ a1 = b1 /\ (a2 < b2 \/ a2 = b2 /\ a3 <= b3).

Lemma f64_total_le_key a b : f64_total_le a b = true <-> key_le (total_key a) (total_key b).
Proof.
  destruct a as [[]|[]| |[] m1 e1], b as [[]|[]| |[] m2 e2];
    unfold f64_total_le, f64_le, SFleb, SFcompare, key_le; simpl; try (intuition lia).
  all: change (Pos.compare_cont Eq m1 m2) with (m1 ?= m2)%positive.
  all: destruct (Z.compare_spec e1 e2), (Pos.compare_spec m1 m2); simpl;
    (split; intros Hle; [try discriminate Hle; lia|try reflexivity; exfalso; lia]).
Qed.

#[export] Instance f64_total_le_total : Total (fun a b => f64_total_le a b).
Proof.
  intros a b. rewrite !Is_true_true, !f64_total_le_key.
  destruct (total_key a) as [[? ?] ?], (total_key b) as [[? ?] ?]. simpl. lia.
Qed.

#[export] Instance f64_total_le_trans : Transitive (fun a b => f64_total_le a b).
Proof.
  intros a b c. rewrite !Is_true_true, !f64_total_le_key.
  destruct (total_key a) as [[? ?] ?], (total_key b) as [[? ?] ?], (total_key c) as [[? ?] ?].
  simpl. lia.
Qed.

(** Closed terms are evaluated by [vm_compute], never by [simpl]. *)
#[global] Arguments f64_add : simpl never.
#[global] Arguments f64_sub : simpl never.
#[global] Arguments f64_mul : simpl never.
#[global] Arguments f64_div : simpl never.
#[global] Arguments f64_lt : simpl never.
#[global] Arguments f64_le : simpl never.
#[global] Arguments f64_max : simpl never.
#[global] Arguments f64_min : simpl never.
#[global] Arguments f64_of_Z : simpl never.
#[global] Arguments f64_lit : simpl never.
#[global] Arguments f64_round : simpl never.
#[global] Arguments f64_floor : simpl never.
#[global] Arguments f64_as_u64 : simpl never.
#[global] Arguments as_secs_f64 : simpl never.
#[global] Arguments units : simpl never.
