(* ===== verification/Extern.v ===== *)
(** * What the code relies on from third-party crates

    The crates [tokio] and [lru] are not part of the repository: their types are
    parameters, and what the code relies on is stated as class laws, which follow
    the crates' documentation.  The reference instances at the end show that the
    laws can hold and make the components executable in the examples. *)

From S2P Require Export Prelude.

(** ** [tokio::sync::Semaphore]

    A counting semaphore with a fair (first in, first out) queue of waiting
    acquisitions, each known by an identifier of its waiting task. *)
Class SemaphoreOps (S : Type) := {
  sem_new : Z -> S;
  (** [Semaphore::available_permits]. *)
  sem_available : S -> Z;
  (** Acquisitions that wait, oldest first. *)
  sem_waiters : S -> list nat;
  (** [try_acquire(_owned)]: [None] when no permit is free. *)
  sem_try_acquire : S -> option S;
  (** First poll of [acquire(_owned)] by a task: granted at once, or queued. *)
  sem_acquire : nat -> S -> S * bool;
  (** [add_permits], also the effect of dropping a permit: the tasks it grants. *)
  sem_add_permits : Z -> S -> S * list nat;
  (** Dropping a queued acquisition. *)
  sem_cancel : nat -> S -> S;
}.

(** A permit is free only when nobody waits. *)
Definition sem_ok {S} `{SemaphoreOps S} (s : S) : Prop :=
  0 <= sem_available s /\ (0 < sem_available s -> sem_waiters s = []).

Class Semaphore (S : Type) `{SemaphoreOps S} : Prop := {
  sem_new_ok n : 0 <= n ->
    sem_ok (sem_new n) /\ sem_available (sem_new n) = n /\ sem_waiters (sem_new n) = [];
  sem_try_acquire_spec s : sem_ok s ->
    match sem_try_acquire s with
    | Some s' => 0 < sem_available s /\ sem_ok s' /\
                 sem_available s' = sem_available s - 1 /\ sem_waiters s' = sem_waiters s
    | None => sem_available s = 0
    end;
  sem_acquire_spec w s : sem_ok s ->
    let '(s', granted) := sem_acquire w s in
    sem_ok s' /\
    if granted
    then sem_available s = sem_available s' + 1 /\ sem_waiters s' = sem_waiters s
    else sem_available s = 0 /\ sem_available s' = 0 /\ sem_waiters s' = sem_waiters s ++ [w];
  sem_acquire_granted w s : sem_ok s -> 0 < sem_available s -> (sem_acquire w s).2 = true;
  sem_add_permits_spec n s : sem_ok s -> 0 <= n ->
    let '(s', woken) := sem_add_permits n s in
    sem_ok s' /\ woken ++ sem_waiters s' = sem_waiters s /\
    Z.of_nat (length woken) + sem_available s' = sem_available s + n;
  sem_cancel_spec w s : sem_ok s ->
    sem_ok (sem_cancel w s) /\ sem_available (sem_cancel w s) = sem_available s /\
    sem_waiters (sem_cancel w s) = filter (fun v => v <> w) (sem_waiters s);
}.

(** Reference semaphore: the counter and the queue themselves. *)
Record ref_sem := mk_ref_sem { ref_permits : Z; ref_queue : list nat }.

#[export] Instance ref_sem_ops : SemaphoreOps ref_sem := {
  sem_new n := mk_ref_sem n [];
  sem_available := ref_permits;
  sem_waiters := ref_queue;
  sem_try_acquire s :=
    if 0 <? ref_permits s then Some (mk_ref_sem (ref_permits s - 1) (ref_queue s)) else None;
  sem_acquire w s :=
    if 0 <? ref_permits s then (mk_ref_sem (ref_permits s - 1) (ref_queue s), true)
    else (mk_ref_sem (ref_permits s) (ref_queue s ++ [w]), false);
  sem_add_permits n s :=
    let k := Z.to_nat n in
    (mk_ref_sem (ref_permits s + n - Z.of_nat (length (take k (ref_queue s))))
       (drop k (ref_queue s)), take k (ref_queue s));
  sem_cancel w s := mk_ref_sem (ref_permits s) (filter (fun v => v <> w) (ref_queue s));
}.

#[export] Instance ref_sem_semaphore : Semaphore ref_sem.
Proof.
  split; unfold sem_ok; simpl.
  - intros. split_and!; auto with lia.
  - intros [p q] [Hp Hq]; simpl in *. destruct (Z.ltb_spec 0 p); simpl; [|lia].
    rewrite Hq by lia. split_and!; auto with lia.
  - intros w [p q] [Hp Hq]; simpl in *. destruct (Z.ltb_spec 0 p); simpl.
    + rewrite Hq by lia. split_and!; auto with lia.
    + split_and!; auto with lia.
  - intros w [p q] [Hp Hq] H; simpl in *. by rewrite (proj2 (Z.ltb_lt 0 p)).
  - intros n [p q] [Hp Hq] Hn; simpl in *. rewrite take_drop, length_take.
    split_and!; [lia| |done|lia].
    intros H. apply length_zero_iff_nil. rewrite length_drop.
    destruct (decide (0 < p)) as [Hp0|]; [rewrite Hq by done; simpl; lia|lia].
  - intros w [p q] [Hp Hq]; simpl in *. split_and!; auto.
    intros H. by rewrite Hq.
Qed.

(** ** [tokio::sync::OnceCell]

    [get_or_try_init] returns the value there is, or lets one task at a time run its
    initialisation; a task that fails or is cancelled leaves the cell as it found it, and
    some other task may try. *)
Class OnceCellOps (A C : Type) := {
  once_new : C;
  (** [get]. *)
  once_get : C -> option A;
  (** The task that is running its initialisation. *)
  once_running : C -> option nat;
  (** [get_or_try_init] by a task without a value: its turn, unless another's runs. *)
  once_start : nat -> C -> option C;
  (** The running initialisation ends: with a value, or with an error or a cancellation. *)
  once_finish : option A -> C -> C;
}.

Class OnceCell (A C : Type) `{OnceCellOps A C} : Prop := {
  once_new_spec : once_get (once_new : C) = None /\ once_running once_new = None;
  once_start_spec w (c : C) :
    match once_start w c with
    | Some c' => once_get c = None /\ once_running c = None /\
                 once_get c' = None /\ once_running c' = Some w
    | None => once_get c <> None \/ once_running c <> None
    end;
  once_finish_spec v (c : C) : once_running c <> None -> once_get c = None ->
    once_get (once_finish v c) = v /\ once_running (once_finish v c) = None;
}.

(** Reference cell: the value, and who is at it. *)
Record ref_cell (A : Type) := mk_ref_cell { ref_value : option A; ref_running : option nat }.
Arguments mk_ref_cell {A}.
Arguments ref_value {A}.
Arguments ref_running {A}.

#[export] Instance ref_cell_ops A : OnceCellOps A (ref_cell A) := {
  once_new := mk_ref_cell None None;
  once_get := ref_value;
  once_running := ref_running;
  once_start w c :=
    match ref_value c, ref_running c with
    | None, None => Some (mk_ref_cell None (Some w))
    | _, _ => None
    end;
  once_finish v c := mk_ref_cell v None;
}.

#[export] Instance ref_cell_once A : OnceCell A (ref_cell A).
Proof.
  split; [done| |done]. intros w [[a|] [v|]]; simpl; first [by left|by right|done].
Qed.

(** [Clone] of [tokio]'s cell: a cell with the same value, where nobody is at work. *)
Class OnceClone (A C : Type) `{OnceCellOps A C} := {
  once_clone : C -> C;
  once_clone_spec c : once_get (once_clone c) = once_get c /\ once_running (once_clone c) = None;
}.

#[export] Instance ref_cell_clone A : OnceClone A (ref_cell A).
Proof. by refine {| once_clone c := mk_ref_cell (ref_value c) None |}. Defined.

(** ** [lru::LruCache]

    A bounded map that orders its entries by last use. *)
Class LruOps (K V L : Type) := {
  lru_new : Z -> L;
  lru_cap : L -> Z;
  (** [iter()]: the entries, most recently used first. *)
  lru_entries : L -> list (K * V);
  (** [get] makes the entry the most recently used one. *)
  lru_get : K -> L -> L * option V;
  lru_pop : K -> L -> L;
  (** [put] inserts or replaces, and evicts the least recently used entry when full. *)
  lru_put : K -> V -> L -> L;
}.

Section Entries.
Context {K V : Type} `{EqDecision K}.

Definition without_key (k : K) (l : list (K * V)) : list (K * V) := filter (fun e => e.1 <> k) l.

Fixpoint find_key (k : K) (l : list (K * V)) : option V :=
  match l with
  | [] => None
  | (k', v) :: l' => if decide (k' = k) then Some v else find_key k l'
  end.
End Entries.

(** No key twice, and no more entries than the capacity. *)
Definition lru_ok {K V L} `{LruOps K V L} (l : L) : Prop :=
  NoDup (fst <$> lru_entries l) /\ Z.of_nat (length (lru_entries l)) <= lru_cap l.

Class Lru (K V L : Type) `{EqDecision K} `{LruOps K V L} : Prop := {
  lru_new_spec n : 1 <= n ->
    lru_ok (lru_new n) /\ lru_entries (lru_new n) = [] /\ lru_cap (lru_new n) = n;
  lru_get_spec k l : lru_ok l ->
    let '(l', v) := lru_get k l in
    lru_ok l' /\ lru_cap l' = lru_cap l /\ v = find_key k (lru_entries l) /\
    lru_entries l' = match v with
                     | Some x => (k, x) :: without_key k (lru_entries l)
                     | None => lru_entries l
                     end;
  lru_pop_spec k l : lru_ok l ->
    lru_ok (lru_pop k l) /\ lru_cap (lru_pop k l) = lru_cap l /\
    lru_entries (lru_pop k l) = without_key k (lru_entries l);
  lru_put_spec k v l : lru_ok l -> 1 <= lru_cap l ->
    lru_ok (lru_put k v l) /\ lru_cap (lru_put k v l) = lru_cap l /\
    lru_entries (lru_put k v l) =
      take (Z.to_nat (lru_cap l)) ((k, v) :: without_key k (lru_entries l));
}.

(** Reference map: the capacity and the entries. *)
Record ref_lru (K V : Type) := mk_ref_lru { ref_cap : Z; ref_entries : list (K * V) }.
Arguments mk_ref_lru {K V}.
Arguments ref_cap {K V}.
Arguments ref_entries {K V}.

Section RefLru.
Context {K V : Type} `{EqDecision K}.

#[global] Instance ref_lru_ops : LruOps K V (ref_lru K V) := {
  lru_new n := mk_ref_lru n [];
  lru_cap := ref_cap;
  lru_entries := ref_entries;
  lru_get k l :=
    match find_key k (ref_entries l) with
    | Some v => (mk_ref_lru (ref_cap l) ((k, v) :: without_key k (ref_entries l)), Some v)
    | None => (l, None)
    end;
  lru_pop k l := mk_ref_lru (ref_cap l) (without_key k (ref_entries l));
  lru_put k v l :=
    mk_ref_lru (ref_cap l) (take (Z.to_nat (ref_cap l)) ((k, v) :: without_key k (ref_entries l)));
}.

Implicit Types l : list (K * V).

Lemma without_key_nodup k l : NoDup (fst <$> l) -> NoDup (fst <$> without_key k l).
Proof.
  intros Hnd. apply (sublist_NoDup _ (fst <$> l) Hnd). clear Hnd. unfold without_key.
  induction l as [|e l IH]; simpl; [constructor|].
  rewrite filter_cons. case_decide; simpl; by constructor.
Qed.

Lemma without_key_notin k l : k ∉ (fst <$> without_key k l).
Proof.
  intros Hin. apply list_elem_of_fmap in Hin as (e & -> & He).
  by apply list_elem_of_filter in He as [He _].
Qed.

Lemma without_key_length k l : (length (without_key k l) <= length l)%nat.
Proof. apply length_filter. Qed.

Lemma find_key_length k v l :
  NoDup (fst <$> l) -> find_key k l = Some v -> (length (without_key k l) < length l)%nat.
Proof.
  intros Hnd Hf. induction l as [|[k' v'] l IH]; simpl in *; [done|].
  apply NoDup_cons in Hnd as [Hn Hnd]. unfold without_key. rewrite filter_cons. simpl.
  case_decide as E1; case_decide as E2; try congruence; simpl.
  - pose proof (without_key_length k l). unfold without_key in *. lia.
  - specialize (IH Hnd Hf). unfold without_key in *. lia.
Qed.

#[global] Instance ref_lru_lru : Lru K V (ref_lru K V).
Proof.
  split; unfold lru_ok; simpl.
  - intros n Hn. split_and!; try done; simpl; [constructor|lia].
  - intros k [c l] [Hnd Hl]; simpl in *. destruct (find_key k l) as [v|] eqn:E; simpl; [|done].
    split_and!; try done.
    + apply NoDup_cons. split; [apply without_key_notin|by apply without_key_nodup].
    + pose proof (find_key_length k v l Hnd E). simpl. lia.
  - intros k [c l] [Hnd Hl]; simpl in *. split_and!; try done; [by apply without_key_nodup|].
    pose proof (without_key_length k l). lia.
  - intros k v [c l] [Hnd Hl] Hc; simpl in *. split_and!; try done.
    + rewrite fmap_take. eapply sublist_NoDup; [|apply sublist_take].
      simpl. apply NoDup_cons. split; [apply without_key_notin|by apply without_key_nodup].
    + rewrite length_take. lia.
Qed.
End RefLru.
