(* ===== verification/Limiter.v ===== *)
(** * Dispatch pacing: [limiter.rs]

    [Module RateLimiter] is the lock-free interval limiter.  [acquire] is modelled
    one atomic action at a time ([acquire_step]), and [step] interleaves any number
    of callers, clock ticks and rate changes.  [Module AttemptPacer] is the token
    bucket the adaptive controller moves while traffic runs. *)

From stdpp Require Import list.
From S2P Require Import Prelude Float64 Extern.

(** Rate high enough that pacing never sleeps. *)
Definition UNLIMITED_QPS : f64 := f64_of_Z 1000000000.

Module RateLimiter.

Record t := mk { interval_ns : Z; start : Z; next_ns : Z }.
#[global] Instance t_settable : Settable t := fun l => mk (interval_ns l) (start l) (next_ns l).

(** [None] is the panic of the [assert!]. *)
Definition interval_for (queries_per_second : f64) : option Z :=
  if (f64_of_Z 0 <? queries_per_second)%f64
  then Some (f64_as_u64 (f64_max (f64_round (f64_of_Z 1000000000 / queries_per_second)) (f64_of_Z 1)))
  else None.

Definition new (queries_per_second : f64) (now : Z) : option t :=
  interval ← interval_for queries_per_second; Some (mk interval now 0).

Definition set_rate (queries_per_second : f64) (l : t) : option t :=
  interval ← interval_for queries_per_second; Some (l <| interval_ns := interval |>).

Definition rate (l : t) : f64 := (f64_of_Z 1000000000 / f64_of_Z (interval_ns l))%f64.

Definition interval (l : t) : Z := interval_ns l.

Definition SUB_MS_SKIP_THRESHOLD_NS : Z := 1000000.

(** Where a caller stands between two atomic actions of [acquire]. *)
Inductive pc :=
| Called                                    (* about to load the interval *)
| Looping (interval_ns : Z)                 (* top of the loop *)
| Loaded (interval_ns current : Z)          (* cursor loaded, clock not yet read *)
| Attempt (interval_ns current now_ns : Z)  (* about to compare and exchange *)
| Claimed (slot_ns : Z)                     (* out of the loop *)
| Sleeping (slot_ns until : Z)
| Returned (slot_ns at_ns : Z).

(** One atomic action of a caller.  [spurious] is the failure that
    [compare_exchange_weak] is allowed even when the cursor still matches. *)
Definition acquire_step (spurious : bool) (now : Z) (l : t) (p : pc) : t * pc :=
  match p with
  | Called => (l, Looping (interval_ns l))
  | Looping i => (l, Loaded i (next_ns l))
  | Loaded i current => (l, Attempt i current (elapsed_ns (start l) now))
  | Attempt i current now_ns =>
      let base := Z.max current now_ns in
      let next := u64_saturating_add base i in
      if (next_ns l =? current) && negb spurious
      then (l <| next_ns := next |>, Claimed base)
      else (l, Looping i)
  | Claimed slot_ns =>
      let now_ns := elapsed_ns (start l) now in
      if slot_ns <=? now_ns then (l, Returned slot_ns now_ns)
      else
        let deficit_ns := slot_ns - now_ns in
        if SUB_MS_SKIP_THRESHOLD_NS <=? deficit_ns
        then (l, Sleeping slot_ns (now + deficit_ns))
        else (l, Returned slot_ns now_ns)
  | Sleeping slot_ns until =>
      if until <=? now then (l, Returned slot_ns (elapsed_ns (start l) now)) else (l, p)
  | Returned _ _ => (l, p)
  end.

(** A caller, with the time of its call. *)
Record caller := mk_caller { called_ns : Z; at_pc : pc }.

(** A granted slot and the interval the cursor moved by; newest first. *)
Record grant := mk_grant { g_slot : Z; g_interval : Z }.

Record sys := mk_sys { limiter : t; clock : Z; callers : list caller; granted : list grant }.
#[global] Instance sys_settable : Settable sys :=
  fun s => mk_sys (limiter s) (clock s) (callers s) (granted s).

Definition new_grant (p p' : pc) : list grant :=
  match p, p' with
  | Attempt i _ _, Claimed slot => [mk_grant slot i]
  | _, _ => []
  end.

Definition run_caller (spurious : bool) (k : nat) (c : caller) (s : sys) : sys :=
  let '(l', p') := acquire_step spurious (clock s) (limiter s) (at_pc c) in
  mk_sys l' (clock s) (<[k := mk_caller (called_ns c) p']> (callers s))
    (new_grant (at_pc c) p' ++ granted s).

(** Interleavings: callers arrive and act in any order, the clock advances, and
    the rate changes to any rate the rest of the program [allowed]. *)
Inductive step (allowed : f64 -> Prop) : sys -> sys -> Prop :=
| step_tick s d : 0 <= d -> step allowed s (s <| clock := clock s + d |>)
| step_set_rate s q l' :
    allowed q -> set_rate q (limiter s) = Some l' -> step allowed s (s <| limiter := l' |>)
| step_call s :
    step allowed s
      (s <| callers := callers s ++ [mk_caller (elapsed_ns (start (limiter s)) (clock s)) Called] |>)
| step_run s k c spurious :
    callers s !! k = Some c -> step allowed s (run_caller spurious k c s).

Definition initial (allowed : f64 -> Prop) (s : sys) : Prop :=
  exists q, allowed q /\ new q (clock s) = Some (limiter s) /\ callers s = [] /\ granted s = [].

(** Rates no higher than a cap. *)
Definition at_most (cap q : f64) : Prop := f64_fin q /\ units q <= units cap.

Definition pc_slot (p : pc) : option Z :=
  match p with
  | Claimed slot | Sleeping slot _ | Returned slot _ => Some slot
  | _ => None
  end.

(** A schedule, to run the system. *)
Inductive action :=
| Tick (d : Z)
| SetRate (q : f64)
| Call
| Run (k : nat) (spurious : bool).

Definition perform (a : action) (s : sys) : option sys :=
  match a with
  | Tick d => if 0 <=? d then Some (s <| clock := clock s + d |>) else None
  | SetRate q => l' ← set_rate q (limiter s); Some (s <| limiter := l' |>)
  | Call =>
      Some (s <| callers := callers s ++ [mk_caller (elapsed_ns (start (limiter s)) (clock s)) Called] |>)
  | Run k spurious => c ← callers s !! k; Some (run_caller spurious k c s)
  end.

Fixpoint perform_all (acts : list action) (s : sys) : option sys :=
  match acts with
  | [] => Some s
  | a :: acts' => s' ← perform a s; perform_all acts' s'
  end.

(** A caller alone: [n] atomic actions at one instant. *)
Fixpoint run_alone (n : nat) (now : Z) (l : t) (p : pc) : t * pc :=
  match n with
  | O => (l, p)
  | S n' => let '(l', p') := acquire_step false now l p in run_alone n' now l' p'
  end.

(** Callers that have been let through by [limit]. *)
Definition returned_by (limit : Z) (c : caller) : bool :=
  match at_pc c with Returned _ t => t <=? limit | _ => false end.

(** Successive slots are at least one interval apart, up to saturation. *)
Fixpoint spaced (gs : list grant) (bound : Z) : Prop :=
  match gs with
  | [] => 0 <= bound
  | g :: gs' => u64_saturating_add (g_slot g) (g_interval g) <= bound /\ spaced gs' (g_slot g)
  end.

Definition slots_within (a b : Z) (gs : list grant) : list grant :=
  filter (fun g => a <= g_slot g <= b) gs.

End RateLimiter.

(** ** The attempt pacer *)

Module AttemptPacer.
Section AttemptPacer.
Context {S : Type} `{SemaphoreOps S}.

(** [rate] is [None] while unlimited; [carry] is the fraction of a token kept
    between ticks. *)
Record t := mk { rate : option f64; tokens : S; carry : f64; waiting : Z }.
#[global] Instance t_settable : Settable t :=
  fun p => mk (rate p) (tokens p) (carry p) (waiting p).

Definition PACER_TICK : Z := from_millis 2.
Definition PACER_IDLE_TICK : Z := from_millis 100.
Definition PACER_BURST_SECONDS : f64 := f64_lit 1 100.

Definition new : t := mk None (sem_new 0) (f64_of_Z 0) 0.

Definition set_rate (r : option f64) (p : t) : t := p <| rate := r |> <| carry := f64_of_Z 0 |>.

(** Tokens the bucket may hold at rate [r]. *)
Definition burst (r : f64) : Z := f64_as_u64 (f64_max (r * PACER_BURST_SECONDS)%f64 (f64_of_Z 1)).

(** The pacer after a refill, and the waiting callers it let through. *)
Definition refill (seconds : f64) (p : t) : t * list nat :=
  match rate p with
  | None =>
      let '(tokens', woken) :=
        sem_add_permits (u64_saturating_sub (waiting p) (sem_available (tokens p))) (tokens p) in
      (p <| tokens := tokens' |>, woken)
  | Some r =>
      let c := (carry p + r * seconds)%f64 in
      let whole := f64_floor c in
      let room := u64_saturating_sub (burst r) (sem_available (tokens p)) in
      let '(tokens', woken) := sem_add_permits (Z.min (f64_as_u64 whole) room) (tokens p) in
      (p <| carry := (c - whole)%f64 |> <| tokens := tokens' |>, woken)
  end.

(** The refill task's pause before its next tick. *)
Definition next_pause (p : t) : Z :=
  if (match rate p with None => true | Some _ => false end) && (waiting p =? 0)
  then PACER_IDLE_TICK else PACER_TICK.

(** Callers inside [acquire]: counted as waiting but not yet queued, or woken with
    a token but not yet resumed; the queue itself is in the semaphore. *)
Record sys := mk_sys { pacer : t; counted : list nat; woken : list nat; sent : list nat }.
#[global] Instance sys_settable : Settable sys :=
  fun s => mk_sys (pacer s) (counted s) (woken s) (sent s).

(** Entry: straight through while unlimited, otherwise counted as waiting. *)
Definition enter (w : nat) (s : sys) : sys :=
  match rate (pacer s) with
  | None => s <| sent := w :: sent s |>
  | Some _ =>
      s <| pacer := (pacer s) <| waiting := fetch_add (waiting (pacer s)) 1 |> |>
        <| counted := w :: counted s |>
  end.

(** The guard leaves: one caller fewer is waiting, its token is forgotten. *)
Definition leave (w : nat) (s : sys) : sys :=
  s <| pacer := (pacer s) <| waiting := wrap_u64 (waiting (pacer s) - 1) |> |>
    <| sent := w :: sent s |>.

(** First poll of [tokens.acquire()]. *)
Definition poll (w : nat) (s : sys) : sys :=
  let '(tokens', granted) := sem_acquire w (tokens (pacer s)) in
  let s' := s <| pacer := (pacer s) <| tokens := tokens' |> |> in
  if granted then leave w s' else s'.

Definition tick (seconds : f64) (s : sys) : sys :=
  let '(p', ws) := refill seconds (pacer s) in s <| pacer := p' |> <| woken := woken s ++ ws |>.

Inductive step : sys -> sys -> Prop :=
| step_enter w s : step s (enter w s)
| step_poll w c1 c2 s :
    counted s = c1 ++ w :: c2 -> step s (poll w (s <| counted := c1 ++ c2 |>))
| step_resume w c1 c2 s :
    woken s = c1 ++ w :: c2 -> step s (leave w (s <| woken := c1 ++ c2 |>))
| step_refill seconds s : step s (tick seconds s)
| step_set_rate r s : step s (s <| pacer := set_rate r (pacer s) |>).

Definition initial (s : sys) : Prop := s = mk_sys new [] [] [].

(** Callers inside [acquire]. *)
Definition inside (s : sys) : Z :=
  Z.of_nat (length (counted s) + length (sem_waiters (tokens (pacer s))) + length (woken s)).

End AttemptPacer.
Arguments t S : clear implicits.
Arguments sys S : clear implicits.
End AttemptPacer.

(** ** Rate limiter: lemmas *)

Section RateLimiterProofs.
Import RateLimiter.

Lemma interval_quotient q :
  f64_fin q -> 0 < units q -> f64_nonneg (f64_of_Z 1000000000 / q)%f64.
Proof.
  intros [? ?] Hpos. apply f64_div_units; [by split|done|done|done|done].
Qed.

Lemma interval_for_units q :
  f64_fin q -> 0 < units q ->
  exists r, f64_nonneg r /\ one_unit <= units r /\ interval_for q = Some (f64_as_u64 r) /\
            units r = Z.max (units (f64_round (f64_of_Z 1000000000 / q)%f64)) one_unit.
Proof.
  intros Hq Hpos. unfold interval_for. rewrite f64_lt_fin; [|by split|done].
  change (units (f64_of_Z 0)) with 0. rewrite (proj2 (Z.ltb_lt 0 _)) by done.
  eexists. split; [|split; [|split; [reflexivity|]]].
  1: apply f64_max_units; [|done].
  1: by apply f64_round_units, interval_quotient.
  all: destruct (f64_max_units (f64_round (f64_of_Z 1000000000 / q)%f64) (f64_of_Z 1)) as [_ ->];
    [by apply f64_round_units, interval_quotient|done|].
  all: change (units (f64_of_Z 1)) with one_unit; lia.
Qed.

Lemma interval_for_bounds q i : interval_for q = Some i -> f64_fin q -> 1 <= i <= u64_max.
Proof.
  intros Hi Hq. assert (0 < units q) as Hpos.
  { unfold interval_for in Hi. rewrite f64_lt_fin in Hi by done.
    change (units (f64_of_Z 0)) with 0 in Hi. by destruct (Z.ltb_spec 0 (units q)). }
  destruct (interval_for_units q Hq Hpos) as (r & Hr & Hge & Hq' & _).
  rewrite Hi in Hq'. injection Hq' as ->. rewrite f64_as_u64_units by done.
  assert (1 <= units r / one_unit) by (apply Z.div_le_lower_bound; [apply one_unit_pos|lia]).
  change u64_max with 18446744073709551615. lia.
Qed.

Lemma interval_for_mono q1 q2 i1 i2 :
  f64_fin q1 -> f64_fin q2 -> units q1 <= units q2 ->
  interval_for q1 = Some i1 -> interval_for q2 = Some i2 -> i2 <= i1.
Proof.
  intros H1 H2 Hle Hi1 Hi2.
  assert (0 < units q1) as Hpos.
  { unfold interval_for in Hi1. rewrite f64_lt_fin in Hi1 by done.
    change (units (f64_of_Z 0)) with 0 in Hi1. by destruct (Z.ltb_spec 0 (units q1)). }
  destruct (interval_for_units q1 H1 Hpos) as (r1 & Hr1 & _ & E1 & U1).
  destruct (interval_for_units q2 H2 ltac:(lia)) as (r2 & Hr2 & _ & E2 & U2).
  rewrite Hi1 in E1; rewrite Hi2 in E2. injection E1 as ->; injection E2 as ->.
  apply f64_as_u64_mono; [done..|]. rewrite U1, U2.
  enough (units (f64_round (f64_of_Z 1000000000 / q2)%f64)
          <= units (f64_round (f64_of_Z 1000000000 / q1)%f64)) by lia.
  apply f64_round_mono.
  - apply interval_quotient; [done|lia].
  - by apply interval_quotient.
  - by apply f64_div_mono.
Qed.

Lemma spaced_count_below a I gs : forall bound,
  0 < I -> 0 <= a -> Forall (fun g => I <= g_interval g) gs -> spaced gs bound -> bound < u64_max ->
  let n := Z.of_nat (length (slots_within a u64_max gs)) in n = 0 \/ a + n * I <= bound.
Proof.
  unfold slots_within.
  induction gs as [|g gs IH]; intros bound HI Ha Hall Hsp Hb; simpl; [by left|].
  apply Forall_cons in Hall as [Hg Hall]. destruct Hsp as [Hsat Hsp].
  unfold u64_saturating_add in Hsat.
  specialize (IH (g_slot g) HI Ha Hall Hsp ltac:(lia)). cbv zeta in IH.
  destruct (decide (a <= g_slot g <= u64_max)) as [Hin|Hout].
  - rewrite filter_cons_True by done. right. simpl length.
    destruct IH; nia.
  - rewrite filter_cons_False by done. destruct IH as [|IH]; [by left|left]. lia.
Qed.

(** At most one slot per interval, in any window. *)
Lemma spaced_count a b I gs bound :
  0 < I -> 0 <= a -> b < u64_max -> Forall (fun g => I <= g_interval g) gs -> spaced gs bound ->
  (Z.of_nat (length (slots_within a b gs)) - 1) * I <= Z.max (b - a) 0.
Proof.
  intros HI Ha Hb. revert bound.
  induction gs as [|g gs IH]; intros bound Hall Hsp; [simpl; lia|].
  apply Forall_cons in Hall as [Hg Hall]. destruct Hsp as [Hsat Hsp].
  unfold slots_within in *.
  destruct (decide (a <= g_slot g <= b)) as [Hin|Hout].
  2:{ rewrite filter_cons_False by done. by eapply IH. }
  rewrite filter_cons_True by done. simpl length.
  pose proof (spaced_count_below a I gs (g_slot g) HI Ha Hall Hsp ltac:(lia)) as Hc.
  cbv zeta in Hc. unfold slots_within in Hc.
  assert (Z.of_nat (length (filter (fun g => a <= g_slot g <= b) gs))
          <= Z.of_nat (length (filter (fun g => a <= g_slot g <= u64_max) gs))) as Hlen.
  { clear -Hb. induction gs as [|g gs IH]; [done|].
    destruct (decide (a <= g_slot g <= b)).
    - rewrite !filter_cons_True by lia. simpl. lia.
    - rewrite filter_cons_False by done. rewrite filter_cons. case_decide; simpl; lia. }
  rewrite Nat2Z.inj_succ. destruct Hc; nia.
Qed.

Lemma spaced_weaken gs b b' : spaced gs b -> b <= b' -> spaced gs b'.
Proof. destruct gs; simpl; intuition lia. Qed.

(** Every slot a caller holds was granted once. *)
Definition held_slots (s : sys) : list Z := omap pc_slot (at_pc <$> callers s).

Record inv (s : sys) : Prop := {
  inv_spaced : spaced (granted s) (next_ns (limiter s));
  inv_held : held_slots s ≡ₚ g_slot <$> granted s;
}.

Lemma omap_insert_perm {A B} (f : A -> option B) (l : list A) k x y :
  l !! k = Some x ->
  option_list (f x) ++ omap f (<[k:=y]> l) ≡ₚ option_list (f y) ++ omap f l.
Proof.
  intros Hk. rewrite <- (take_drop_middle l k x Hk) at 2.
  rewrite insert_take_drop by (by eapply lookup_lt_Some).
  rewrite !omap_app. simpl. destruct (f x), (f y); simpl; rewrite <- ?Permutation_middle; try done.
  apply perm_swap.
Qed.

Lemma initial_inv allowed s : initial allowed s -> inv s.
Proof.
  destruct s as [l c cs gs]. intros (q & _ & Hnew & Hc & Hg). unfold new in Hnew.
  simpl in *. destruct (interval_for q); simplify_eq/=. by split.
Qed.

Lemma run_caller_inv spurious k c s :
  callers s !! k = Some c -> inv s -> inv (run_caller spurious k c s).
Proof.
  intros Hk [Hsp Hperm]. unfold run_caller, held_slots in *.
  pose proof (omap_insert_perm pc_slot (at_pc <$> callers s) k (at_pc c)) as Hins.
  rewrite list_lookup_fmap, Hk in Hins.
  destruct (acquire_step _ _ _ _) as [l' p'] eqn:Hstep.
  specialize (Hins p' eq_refl).
  set (mk' := mk_caller (called_ns c) p') in *.
  change p' with (at_pc mk') in Hins. rewrite <- list_fmap_insert in Hins.
  destruct (at_pc c) as [|i|i cur|i cur now|slot|slot u|slot t] eqn:Hpc; simpl in Hstep;
    repeat case_match; simplify_eq/=; split; unfold held_slots in *; simpl in *;
    try apply Permutation_cons_inv in Hins; rewrite ?Hins; try done.
  - split; [done|]. apply andb_prop in H as [H%Z.eqb_eq _].
    eapply spaced_weaken; [done|lia].
  - by constructor.
Qed.

Lemma step_inv allowed s s' : step allowed s s' -> inv s -> inv s'.
Proof.
  destruct 1 as [s d Hd|s q l' _ Hl|s|s k c sp Hk]; intros Hinv.
  - by destruct Hinv; split.
  - destruct Hinv. split; [|done]. unfold set_rate in Hl.
    by destruct (interval_for q); simplify_eq/=.
  - destruct Hinv as [Hsp Hp]. split; [done|]. unfold held_slots in *. simpl.
    by rewrite fmap_app, omap_app, app_nil_r.
  - by apply run_caller_inv.
Qed.

Lemma reachable_inv allowed s0 s : initial allowed s0 -> rtc (step allowed) s0 s -> inv s.
Proof. intros H0 Hr. apply initial_inv in H0. induction Hr; eauto using step_inv. Qed.

(** Every interval in the system is at least that of the capped rate. *)
Definition pc_interval (p : pc) : option Z :=
  match p with
  | Looping i | Loaded i _ | Attempt i _ _ => Some i
  | _ => None
  end.

Record paced (I : Z) (s : sys) : Prop := {
  paced_limiter : I <= interval_ns (limiter s);
  paced_callers : Forall (fun c => from_option (Z.le I) True (pc_interval (at_pc c))) (callers s);
  paced_granted : Forall (fun g => I <= g_interval g) (granted s);
}.

Lemma set_rate_paced cap I q l l' :
  f64_fin cap -> interval_for cap = Some I -> at_most cap q -> set_rate q l = Some l' ->
  I <= interval_ns l' /\ start l' = start l /\ next_ns l' = next_ns l.
Proof.
  intros Hcap HI [Hq Hle] Hl. unfold set_rate in Hl.
  destruct (interval_for q) as [i|] eqn:Hi; simplify_eq/=. split; [|done].
  by apply (interval_for_mono q cap i I).
Qed.

Lemma run_caller_paced I spurious k c s :
  callers s !! k = Some c -> paced I s -> paced I (run_caller spurious k c s).
Proof.
  intros Hk [Hl Hcs Hg]. pose proof (Forall_lookup_1 _ _ _ _ Hcs Hk) as Hc. simpl in Hc.
  unfold run_caller. destruct (acquire_step _ _ _ _) as [l' p'] eqn:Hstep.
  assert (I <= interval_ns l' /\ from_option (Z.le I) True (pc_interval p') /\
          Forall (fun g => I <= g_interval g) (new_grant (at_pc c) p')) as (H1 & H2 & H3).
  { destruct (at_pc c); simpl in Hstep; repeat case_match; simplify_eq/=; auto. }
  split; simpl; [done|by apply Forall_insert|by apply Forall_app].
Qed.

Lemma step_paced cap I s s' :
  f64_fin cap -> interval_for cap = Some I -> step (at_most cap) s s' -> paced I s -> paced I s'.
Proof.
  intros Hcap HI [s1 d Hd|s1 q l' Hq Hl|s1|s1 k c sp Hk] [H1 H2 H3].
  - by split.
  - split; [|done..]. by eapply set_rate_paced in Hl as [? _].
  - split; [done| |done]. simpl. apply Forall_app. split; [done|]. by repeat constructor.
  - by apply run_caller_paced.
Qed.

Lemma reachable_paced cap I s0 s :
  f64_fin cap -> interval_for cap = Some I ->
  initial (at_most cap) s0 -> rtc (step (at_most cap)) s0 s -> paced I s.
Proof.
  intros Hcap HI (q & Hq & Hnew & Hc & Hg) Hr.
  assert (paced I s0) as H0.
  { split; [|by rewrite Hc|by rewrite Hg]. unfold new in Hnew.
    destruct (interval_for q) as [i|] eqn:Hi; simplify_eq/=.
    rewrite <- Hnew. by apply (interval_for_mono q cap i I); [apply Hq|..|apply Hq| |]. }
  clear Hq Hnew Hc Hg. induction Hr; eauto using step_paced.
Qed.

(** Times: nobody is let through a millisecond or more before their slot, and no
    slot lies before the call. *)
Definition caller_timed (start_at elapsed : Z) (c : caller) : Prop :=
  0 <= called_ns c <= elapsed /\
  match at_pc c with
  | Attempt _ _ now_ns => called_ns c <= now_ns
  | Claimed slot => called_ns c <= slot
  | Sleeping slot until => called_ns c <= slot /\ until = slot + start_at
  | Returned slot t => called_ns c <= slot /\ slot < t + SUB_MS_SKIP_THRESHOLD_NS /\ t <= elapsed
  | _ => True
  end.

Record timed (s : sys) : Prop := {
  timed_clock : start (limiter s) <= clock s;
  timed_callers : clock s - start (limiter s) <= u64_max ->
    Forall (caller_timed (start (limiter s)) (clock s - start (limiter s))) (callers s);
}.

Lemma elapsed_ns_small start now :
  start <= now -> now - start <= u64_max -> elapsed_ns start now = now - start.
Proof.
  intros H1 H2. unfold elapsed_ns, wrap_u64, u64_max in *.
  rewrite Z.max_l by lia. apply Z.mod_small. lia.
Qed.

Lemma caller_timed_later st e e' c :
  caller_timed st e c -> e <= e' -> caller_timed st e' c.
Proof. unfold caller_timed. destruct (at_pc c); intuition lia. Qed.

Lemma run_caller_timed spurious k c s :
  callers s !! k = Some c -> timed s -> timed (run_caller spurious k c s).
Proof.
  intros Hk [Hclk Hcs]. unfold run_caller.
  destruct (acquire_step _ _ _ _) as [l' p'] eqn:Hstep.
  assert (start l' = start (limiter s)) as Hst
    by (destruct (at_pc c); simpl in Hstep; repeat case_match; by simplify_eq/=).
  split; simpl; rewrite Hst; [done|]. intros Hsmall. specialize (Hcs Hsmall).
  apply Forall_insert; [done|]. pose proof (Forall_lookup_1 _ _ _ _ Hcs Hk) as [Hcall Hpc].
  split; [done|]. simpl. pose proof (elapsed_ns_small _ _ Hclk Hsmall) as He.
  unfold SUB_MS_SKIP_THRESHOLD_NS in *.
  destruct (at_pc c) as [|i|i cur|i cur now|slot|slot u|slot t]; simpl in Hstep;
    repeat case_match; simplify_eq/=; unfold SUB_MS_SKIP_THRESHOLD_NS in *; rewrite ?He in *; lia.
Qed.

Lemma step_timed allowed s s' : step allowed s s' -> timed s -> timed s'.
Proof.
  intros [s1 d Hd|s1 q l' Hq Hl|s1|s1 k c sp Hk] [H1 H2].
  - split; simpl; [lia|]. intros Hs. eapply Forall_impl; [apply H2; lia|].
    intros c Hc. eapply caller_timed_later; [done|lia].
  - unfold set_rate in Hl. destruct (interval_for q); simplify_eq/=. by split.
  - split; [done|]. simpl. intros Hs. apply Forall_app; split; [by apply H2|].
    constructor; [|done]. split; [simpl|done]. rewrite elapsed_ns_small by done. lia.
  - by apply run_caller_timed.
Qed.

Lemma reachable_timed allowed s0 s : initial allowed s0 -> rtc (step allowed) s0 s -> timed s.
Proof.
  intros (q & _ & Hnew & Hc & Hg) Hr.
  assert (timed s0) as H0.
  { unfold new in Hnew. destruct (interval_for q); simplify_eq/=.
    split; rewrite <- Hnew; simpl; [lia|]. by rewrite Hc. }
  clear Hnew Hc Hg. induction Hr; eauto using step_timed.
Qed.

Lemma returned_count st e T cs :
  0 <= T -> Forall (caller_timed st e) cs ->
  (length (filter (fun c => returned_by T c) cs)
   <= length (filter (fun x => 0 <= x <= T + 999999)%Z (omap pc_slot (at_pc <$> cs))))%nat.
Proof.
  intros HT. induction 1 as [|c cs [Hcall Hc] _ IH]; [done|].
  unfold returned_by in *. rewrite filter_cons. unfold SUB_MS_SKIP_THRESHOLD_NS in *. simpl.
  assert (forall x, length (filter (fun x => 0 <= x <= T + 999999)%Z (omap pc_slot (at_pc <$> cs)))
    <= length (filter (fun x => 0 <= x <= T + 999999)%Z (x :: omap pc_slot (at_pc <$> cs))))%nat
    as Hskip by (intros x; rewrite filter_cons; case_decide; simpl; lia).
  destruct (at_pc c) as [|i|i cur|i cur now|slot|slot u|slot t]; simpl in *;
    try (etransitivity; [exact IH|apply Hskip]); try done.
  destruct (Z.leb_spec t T); simpl.
  - rewrite filter_cons_True by lia. simpl. by apply le_n_S.
  - etransitivity; [exact IH|apply Hskip].
Qed.

Lemma slots_within_length a b gs :
  length (filter (fun x => a <= x <= b)%Z (g_slot <$> gs)) = length (slots_within a b gs).
Proof.
  unfold slots_within. induction gs as [|g gs IH]; [done|]. rewrite fmap_cons, !filter_cons.
  simpl. repeat case_decide; simpl; by rewrite IH.
Qed.

Lemma perform_all_sound allowed acts : forall s s',
  (forall q, SetRate q ∈ acts -> allowed q) ->
  perform_all acts s = Some s' -> rtc (step allowed) s s'.
Proof.
  induction acts as [|a acts IH]; intros s s' Hq H; simpl in H; [by simplify_eq|].
  destruct (perform a s) as [s1|] eqn:Ha; simplify_eq/=.
  eapply rtc_l; [|apply IH; [intros; apply Hq; by right|done]].
  destruct a; simpl in Ha.
  - destruct (Z.leb_spec 0 d); simplify_eq. by constructor.
  - destruct (set_rate q (limiter s)) eqn:?; simplify_eq/=. econstructor; [|done].
    apply Hq. by left.
  - simplify_eq. constructor.
  - destruct (callers s !! k) eqn:?; simplify_eq/=. by constructor.
Qed.

End RateLimiterProofs.

(** ** Rates and intervals *)

Section RateLemmas.
Import RateLimiter.

Lemma abs_sub_triangle a b : Z.abs (a - b) <= Z.abs a + Z.abs b.
Proof. lia. Qed.

(** The pure arithmetic of dividing twice: [q] is [N / i] and [r] is [N / q], each
    rounded, in units of [1 / u]. *)
Lemma double_division_close u i q r :
  2 ^ 60 <= u -> 1 <= i <= 1000000000 -> u <= q ->
  2 ^ 54 * Z.abs (q * i - 1000000000 * u) <= 2 * (1000000000 * u) + 2 ^ 53 * i ->
  2 ^ 54 * Z.abs (r * q - 1000000000 * u * u) <= 2 * (1000000000 * u * u) + 2 ^ 53 * q ->
  2 * Z.abs (r - i * u) < u.
Proof.
  intros Hu Hi Hq He1 He2.
  assert (1000000000 * u <= 2 * (i * q)) as Hiq by lia.
  assert (1000000000 * u * u <= 2 * (i * q) * u) as Hiqu by (apply Z.mul_le_mono_nonneg_r; lia).
  assert (u * i <= q * i) as Hui by (apply Z.mul_le_mono_nonneg_r; lia).
  assert (2 ^ 54 * (u * Z.abs (q * i - 1000000000 * u)) <= u * (2 * (1000000000 * u) + 2 ^ 53 * i)) as He1'.
  { rewrite Z.mul_assoc, (Z.mul_comm _ u), <- Z.mul_assoc. apply Z.mul_le_mono_nonneg_l; lia. }
  assert (Z.abs ((r - i * u) * q) <= Z.abs (r * q - 1000000000 * u * u) + u * Z.abs (q * i - 1000000000 * u)) as Htri.
  { replace ((r - i * u) * q) with ((r * q - 1000000000 * u * u) - u * (q * i - 1000000000 * u)) by ring.
    assert (u * Z.abs (q * i - 1000000000 * u) = Z.abs (u * (q * i - 1000000000 * u))) as ->
      by (rewrite Z.abs_mul, (Z.abs_eq u); lia).
    apply abs_sub_triangle. }
  rewrite Z.abs_mul, (Z.abs_eq q) in Htri by lia.
  assert (2 ^ 54 * Z.abs (r - i * u) * q <= (8 * (i * u) + 2 ^ 53 * (1 + i)) * q) as Hmul by lia.
  apply Z.mul_le_mono_pos_r in Hmul; [|lia].
  assert (i * u <= 1000000000 * u) by (apply Z.mul_le_mono_nonneg_r; lia). lia.
Qed.

Lemma half_up_close u i r : 0 < u -> 2 * Z.abs (r - i * u) < u -> (2 * r + u) / (2 * u) = i.
Proof. intros Hu Hr. symmetry. apply (Z.div_unique_pos _ _ _ (2 * r + u - 2 * u * i)); lia. Qed.

Definition one_qps_or_more (l : t) : Prop := 1 <= interval_ns l <= NANOS_PER_SEC.

Lemma one_unit_large : 2 ^ 60 <= one_unit.
Proof. vm_compute. discriminate. Qed.

Lemma rate_units l :
  one_qps_or_more l ->
  f64_fin (rate l) /\ one_unit <= units (rate l) /\
  units (rate l) = round_units (1000000000 * one_unit) (interval_ns l).
Proof.
  intros Hi. unfold one_qps_or_more, NANOS_PER_SEC in Hi. unfold rate. pose proof one_unit_pos.
  destruct (f64_of_Z_small 1000000000) as [Hnf Hnu]; [split; [discriminate|reflexivity]|].
  destruct (f64_of_Z_small (interval_ns l)) as [Hif Hiu]; [lia|].
  destruct (f64_div_units (f64_of_Z 1000000000) (f64_of_Z (interval_ns l))) as [Hn Hu];
    [exact (proj1 Hnf)|exact (proj1 Hif)|exact (proj2 Hnf)|exact (proj2 Hif)|rewrite Hiu; nia|].
  rewrite Hnu, Hiu in Hu.
  replace (1000000000 * one_unit * one_unit) with (one_unit * (1000000000 * one_unit)) in Hu by ring.
  rewrite (Z.mul_comm (interval_ns l)), round_units_scale in Hu by lia.
  assert (round_units (1000000000 * one_unit) (interval_ns l) <= 1000000000 * one_unit) as Hle.
  { apply round_units_le; [lia|lia| |nia]. rewrite <- Hnu.
    apply units_representable; [exact (proj1 Hnf)|exact (proj2 Hnf)]. }
  assert (one_unit <= round_units (1000000000 * one_unit) (interval_ns l)) as Hge.
  { apply round_units_ge; [lia|lia|exact one_unit_representable|nia]. }
  assert (1000000000 * one_unit < inf_units) by (vm_compute; reflexivity).
  rewrite Z.min_l in Hu by lia. split; [apply f64_fin_of_lt; [exact Hn|lia]|]. rewrite Hu. lia.
Qed.

(** Setting the rate a limiter already has keeps its interval to the nanosecond. *)
Lemma rate_roundtrip l : one_qps_or_more l -> interval_for (rate l) = Some (interval_ns l).
Proof.
  intros Hi. destruct (rate_units l Hi) as (Hf & Hone & Hu). pose proof one_unit_pos as Hpos.
  destruct (interval_for_units (rate l) Hf ltac:(lia)) as (x & Hx & Hx1 & -> & Hxu).
  destruct (f64_of_Z_small 1000000000) as [Hnf Hnu]; [split; [discriminate|reflexivity]|].
  destruct (f64_div_units (f64_of_Z 1000000000) (rate l)) as [Hn Hq];
    [exact (proj1 Hnf)|exact (proj1 Hf)|exact (proj2 Hnf)|exact (proj2 Hf)|lia|].
  unfold one_qps_or_more, NANOS_PER_SEC in Hi. rewrite Hnu in Hq.
  pose proof (round_units_error (1000000000 * one_unit) (interval_ns l) ltac:(lia) ltac:(lia)) as He1.
  rewrite <- Hu in He1.
  pose proof (round_units_error (1000000000 * one_unit * one_unit) (units (rate l)) ltac:(lia)
                ltac:(apply Z.mul_nonneg_nonneg; lia)) as He2.
  pose proof (double_division_close one_unit (interval_ns l) (units (rate l)) _ one_unit_large Hi Hone He1 He2)
    as Hclose.
  set (r := round_units (1000000000 * one_unit * one_unit) (units (rate l))) in *.
  assert ((1000000000 + 1) * one_unit < inf_units) as Hinf by (vm_compute; reflexivity).
  assert (interval_ns l * one_unit <= 1000000000 * one_unit) by (apply Z.mul_le_mono_nonneg_r; lia).
  rewrite Z.min_l in Hq by lia.
  destruct (f64_round_units _ Hn) as [_ Hround]. rewrite Hq in Hround.
  unfold half_up in Hround. rewrite (half_up_close one_unit (interval_ns l) r) in Hround by assumption.
  destruct (f64_of_Z_small (interval_ns l)) as [Hif Hiu]; [lia|].
  rewrite <- (Z.mul_1_r (interval_ns l * one_unit)), round_units_id in Hround;
    [|lia|rewrite <- Hiu; apply units_representable; [exact (proj1 Hif)|exact (proj2 Hif)]].
  rewrite Z.min_l in Hround by lia. rewrite Hround in Hxu.
  assert (one_unit <= interval_ns l * one_unit) by nia. rewrite Z.max_l in Hxu by lia.
  rewrite f64_as_u64_units by exact Hx. rewrite Hxu, Z.div_mul by lia.
  f_equal. change u64_max with 18446744073709551615. lia.
Qed.

(** Rates of at least one a second give intervals of at most a second. *)
Lemma interval_for_floor q :
  f64_nonneg q -> one_unit <= units q ->
  exists i, interval_for q = Some i /\ 1 <= i <= NANOS_PER_SEC.
Proof.
  intros Hq Hone. pose proof one_unit_pos. destruct (f64_nonneg_cases q Hq) as [Hf| ->].
  - destruct (interval_for_units q Hf ltac:(lia)) as (x & _ & _ & E & _). exists (f64_as_u64 x).
    split; [exact E|]. split; [by apply (interval_for_bounds q)|].
    assert (f64_fin (f64_of_Z 1)) as H1 by f64_const.
    assert (interval_for (f64_of_Z 1) = Some NANOS_PER_SEC) as E1 by (vm_compute; reflexivity).
    exact (interval_for_mono _ _ _ _ H1 Hf Hone E1 E).
  - exists 1. split; [vm_compute; reflexivity|unfold NANOS_PER_SEC; lia].
Qed.

End RateLemmas.


(** ** Rate limiter: properties *)

Section RateLimiterProperties.
Import RateLimiter.

(** Nobody has returned later than now. *)
Lemma returned_by_now s c :
  timed s -> clock s - start (limiter s) <= u64_max -> c ∈ callers s ->
  match at_pc c with Returned _ _ => returned_by (clock s - start (limiter s)) c = true | _ => True end.
Proof.
  intros [_ Hcs] Hsmall Hc. specialize (Hcs Hsmall). rewrite Forall_forall in Hcs.
  destruct (Hcs c Hc) as [_ Hpc]. unfold returned_by. destruct (at_pc c); try done. apply Z.leb_le. tauto.
Qed.

(** Callers let through by [T], while the rate stays at or below [cap]. *)
Lemma capped_returns cap interval s0 s T :
  f64_fin cap -> interval_for cap = Some interval ->
  initial (at_most cap) s0 -> rtc (step (at_most cap)) s0 s ->
  clock s - start (limiter s) <= u64_max -> 0 <= T -> T + 1000000 <= u64_max ->
  (Z.of_nat (length (filter (fun c => returned_by T c) (callers s))) - 1) * interval <= T + 999999.
Proof.
  intros Hcap Hi H0 Hr Hclk HT Hsmall.
  pose proof (interval_for_bounds _ _ Hi Hcap) as Hi1.
  destruct (reachable_inv _ _ _ H0 Hr) as [Hsp Hheld].
  destruct (reachable_paced _ _ _ _ Hcap Hi H0 Hr) as [_ _ Hg].
  destruct (reachable_timed _ _ _ H0 Hr) as [_ Hcs].
  pose proof (returned_count _ _ T _ HT (Hcs Hclk)) as Hcount.
  unfold held_slots in Hheld. rewrite Hheld, slots_within_length in Hcount.
  pose proof (spaced_count 0 (T + 999999) interval _ _ ltac:(lia) ltac:(lia) ltac:(lia) Hg Hsp).
  nia.
Qed.

(** The configured rate is a hard cap.  However callers interleave, however the
    compare-and-exchange loses or fails spuriously, and whatever rates up to [cap]
    the controller sets meanwhile, at most one caller per interval of [cap] (plus
    one) has been let through by any time [T] after construction, with the one
    millisecond of early release that the sub-millisecond skip allows. *)
Theorem dispatch_cap cap interval s0 s T :
  f64_fin cap -> interval_for cap = Some interval ->
  initial (at_most cap) s0 -> rtc (step (at_most cap)) s0 s ->
  clock s - start (limiter s) <= u64_max -> 0 <= T -> T + 1000000 <= u64_max ->
  (Z.of_nat (length (filter (fun c => returned_by T c) (callers s))) - 1) * interval <= T + 999999.
Proof. exact (capped_returns cap interval s0 s T). Qed.

Definition busy_start : sys :=
  mk_sys (mk 1000000 5 0) 5 [] [].

Lemma dispatch_cap_witness :
  exists s, perform_all [Call; Call; Run 0 false; Run 0 false; Run 1 false; Run 0 false; Run 1 false;
      Run 1 false; Run 0 false; Run 1 false; Run 0 false; SetRate (f64_of_Z 500); Run 1 false;
      Run 1 false; Run 1 false; Run 1 false; Run 1 false; Tick 1000000; Run 1 false] busy_start
      = Some s /\ callers s = [mk_caller 0 (Returned 0 0); mk_caller 0 (Returned 1000000 1000000)] /\
  (Z.of_nat (length (filter (fun c => returned_by 1000000 c) (callers s))) - 1) * 1000000
    <= 1000000 + 999999.
Proof.
  eexists. split; [vm_compute; reflexivity|]. split; [reflexivity|].
  apply (dispatch_cap (f64_of_Z 1000) 1000000 busy_start).
  - f64_const.
  - vm_compute. reflexivity.
  - exists (f64_of_Z 1000). split; [split; [f64_const|reflexivity]|]. by vm_compute.
  - apply (perform_all_sound _ [Call; Call; Run 0 false; Run 0 false; Run 1 false; Run 0 false;
      Run 1 false; Run 1 false; Run 0 false; Run 1 false; Run 0 false; SetRate (f64_of_Z 500);
      Run 1 false; Run 1 false; Run 1 false; Run 1 false; Run 1 false; Tick 1000000; Run 1 false]).
    + intros q Hq. assert (q = f64_of_Z 500) as ->.
      { repeat (apply elem_of_cons in Hq as [Hq|Hq]; [by simplify_eq|]). by apply elem_of_nil in Hq. }
      split; [f64_const|by vm_compute].
    + vm_compute. reflexivity.
  - by vm_compute.
  - by vm_compute.
  - by vm_compute.
Defined.

(** C34: no burst.  In any window of the time line, however long the limiter idled
    before it, at most one slot per interval (plus one) is granted, and a caller's
    slot never lies before its call. *)
Theorem no_stockpiled_slots cap interval s0 s a b c slot t :
  f64_fin cap -> interval_for cap = Some interval ->
  initial (at_most cap) s0 -> rtc (step (at_most cap)) s0 s ->
  clock s - start (limiter s) <= u64_max -> 0 <= a -> b < u64_max ->
  c ∈ callers s -> at_pc c = Returned slot t ->
  (Z.of_nat (length (slots_within a b (granted s))) - 1) * interval <= Z.max (b - a) 0 /\
  called_ns c <= slot < t + 1000000.
Proof.
  intros Hcap Hi H0 Hr Hclk Ha Hb Hc Hpc.
  pose proof (interval_for_bounds _ _ Hi Hcap) as Hi1.
  destruct (reachable_inv _ _ _ H0 Hr) as [Hsp _].
  destruct (reachable_paced _ _ _ _ Hcap Hi H0 Hr) as [_ _ Hg].
  destruct (reachable_timed _ _ _ H0 Hr) as [_ Hcs]. split.
  - eapply spaced_count; [lia|done..].
  - specialize (Hcs Hclk). rewrite Forall_forall in Hcs.
    destruct (Hcs c Hc) as [_ Hct]. rewrite Hpc in Hct.
    unfold SUB_MS_SKIP_THRESHOLD_NS in Hct. lia.
Qed.

Lemma no_stockpiled_slots_witness :
  exists s, perform_all [Tick 5000000; Call; Run 0 true; Run 0 true; Run 0 true; Run 0 true; Run 0 false;
      Run 0 false; Run 0 false; Run 0 false] busy_start = Some s /\
  (Z.of_nat (length (slots_within 0 6000000 (granted s))) - 1) * 1000000 <= Z.max (6000000 - 0) 0 /\
  5000000 <= 5000000 < 5000000 + 1000000.
Proof.
  eexists. split; [vm_compute; reflexivity|].
  apply (no_stockpiled_slots (f64_of_Z 1000) 1000000 busy_start _ 0 6000000
           (mk_caller 5000000 (Returned 5000000 5000000))).
  - f64_const.
  - vm_compute. reflexivity.
  - exists (f64_of_Z 1000). split; [split; [f64_const|reflexivity]|]. by vm_compute.
  - apply (perform_all_sound _ [Tick 5000000; Call; Run 0 true; Run 0 true; Run 0 true; Run 0 true;
      Run 0 false; Run 0 false; Run 0 false; Run 0 false]).
    + intros q Hq. exfalso. repeat (apply elem_of_cons in Hq as [Hq|Hq]; [by simplify_eq|]).
      by apply elem_of_nil in Hq.
    + vm_compute. reflexivity.
  - by vm_compute.
  - done.
  - by vm_compute.
  - by left.
  - reflexivity.
Defined.

(** An uncontended [acquire] takes the later of the cursor and now as its slot,
    moves the cursor one interval past it (saturating), and goes ahead at once when
    the slot is less than a millisecond away; otherwise it sleeps exactly until the
    slot and then returns. *)
Theorem acquire_uncontended l now :
  let now_ns := elapsed_ns (start l) now in
  let slot := Z.max (next_ns l) now_ns in
  run_alone 5 now l Called =
    (l <| next_ns := u64_saturating_add slot (interval_ns l) |>,
     if slot - now_ns <? 1000000 then Returned slot now_ns
     else Sleeping slot (now + (slot - now_ns))) /\
  (forall later, now + (slot - now_ns) <= later ->
   acquire_step false later l (Sleeping slot (now + (slot - now_ns)))
   = (l, Returned slot (elapsed_ns (start l) later))).
Proof.
  cbv zeta. split.
  - cbn [run_alone acquire_step]. rewrite Z.eqb_refl. cbn -[Z.leb Z.ltb elapsed_ns Z.max].
    unfold SUB_MS_SKIP_THRESHOLD_NS.
    destruct (Z.leb_spec (Z.max (next_ns l) (elapsed_ns (start l) now)) (elapsed_ns (start l) now)).
    + by rewrite (proj2 (Z.ltb_lt _ _)) by lia.
    + destruct (Z.leb_spec 1000000 (Z.max (next_ns l) (elapsed_ns (start l) now)
                                      - elapsed_ns (start l) now)).
      * by rewrite (proj2 (Z.ltb_ge _ _)) by lia.
      * by rewrite (proj2 (Z.ltb_lt _ _)) by lia.
  - intros later Hl. cbn [acquire_step]. by rewrite (proj2 (Z.leb_le _ _)).
Qed.

(** For a positive finite rate the interval is a u64 of at least one nanosecond,
    and a higher rate never gets a longer interval; a zero rate panics. *)
Theorem interval_for_spec q1 q2 :
  f64_fin q1 -> f64_fin q2 -> units q1 <= units q2 ->
  (interval_for q1 = None <-> units q1 = 0) /\
  (forall i1 i2, interval_for q1 = Some i1 -> interval_for q2 = Some i2 -> 1 <= i2 /\ i2 <= i1 /\ i1 <= u64_max).
Proof.
  intros H1 H2 Hle. split.
  - pose proof (f64_fin_units q1 H1). split; intros H0.
    + destruct (decide (units q1 = 0)) as [|Hne]; [done|].
      destruct (interval_for_units q1 H1 ltac:(lia)) as (? & _ & _ & ? & _). congruence.
    + unfold interval_for. rewrite f64_lt_fin by (done || f64_const). by rewrite H0.
  - intros i1 i2 Hi1 Hi2. pose proof (interval_for_bounds _ _ Hi1 H1).
    pose proof (interval_for_bounds _ _ Hi2 H2).
    pose proof (interval_for_mono _ _ _ _ H1 H2 Hle Hi1 Hi2). lia.
Qed.

Lemma interval_for_spec_witness :
  interval_for (f64_lit 25 1) = Some 40000000 /\ interval_for (f64_of_Z 1000) = Some 1000000 /\
  (1 <= 1000000 /\ 1000000 <= 40000000 /\ 40000000 <= u64_max).
Proof.
  split; [by vm_compute|]. split; [by vm_compute|].
  apply (interval_for_spec (f64_lit 25 1) (f64_of_Z 1000)); [f64_const|f64_const| | |]; by vm_compute.
Defined.

End RateLimiterProperties.

(** ** Attempt pacer: lemmas and properties *)

Section AttemptPacerProofs.
Import AttemptPacer.
Context {S : Type} `{Semaphore S}.

Record pacer_inv (s : sys S) : Prop := {
  pacer_sem_ok : sem_ok (tokens (pacer s));
  pacer_waiting : waiting (pacer s) = wrap_u64 (inside s);
}.

Lemma wrap_fetch_add a b : fetch_add (wrap_u64 a) b = wrap_u64 (a + b).
Proof. unfold fetch_add, wrap_u64. by rewrite Zplus_mod_idemp_l. Qed.
Lemma wrap_sub a b : wrap_u64 (wrap_u64 a - b) = wrap_u64 (a - b).
Proof. unfold wrap_u64. by rewrite Zminus_mod_idemp_l. Qed.

Lemma refill_spec seconds (p : t S) :
  sem_ok (tokens p) -> 0 <= waiting p ->
  let '(p', ws) := refill seconds p in
  sem_ok (tokens p') /\ waiting p' = waiting p /\ rate p' = rate p /\
  ws ++ sem_waiters (tokens p') = sem_waiters (tokens p).
Proof.
  intros Hok Hw. unfold refill. destruct (rate p) as [r|] eqn:Hr.
  - set (n := Z.min _ _). assert (0 <= n) as Hn.
    { unfold n, u64_saturating_sub. pose proof (f64_as_u64_nonneg (f64_floor (carry p + r * seconds)%f64)).
      lia. }
    pose proof (sem_add_permits_spec n (tokens p) Hok Hn) as Hadd.
    destruct (sem_add_permits n (tokens p)) as [tok ws]. simpl. intuition.
  - pose proof (sem_add_permits_spec (u64_saturating_sub (waiting p) (sem_available (tokens p)))
                  (tokens p) Hok) as Hadd.
    destruct (sem_add_permits _ _) as [tok ws]. unfold u64_saturating_sub in *.
    specialize (Hadd ltac:(lia)). simpl. intuition.
Qed.

Lemma step_pacer_inv s s' : step s s' -> pacer_inv s -> pacer_inv s'.
Proof.
  intros Hstep [Hok Hw]. pose proof (Z.mod_pos_bound (inside s) u64_modulus eq_refl) as Hb.
  destruct Hstep as [w s|w c1 c2 s Hc|w c1 c2 s Hc|sec s|r s].
  - unfold enter. destruct (rate (pacer s)); split; simpl; try done.
    rewrite Hw, wrap_fetch_add. f_equal. unfold inside. simpl. lia.
  - unfold poll. simpl. pose proof (sem_acquire_spec w (tokens (pacer s)) Hok) as Hacq.
    destruct (sem_acquire w _) as [tok granted]. destruct Hacq as [Hok' Hq].
    destruct granted; split; simpl; try done; rewrite Hw, ?wrap_sub; f_equal;
      unfold inside; simpl; rewrite Hc, !length_app; simpl.
    + destruct Hq as [_ ->]. lia.
    + destruct Hq as (_ & _ & ->). rewrite length_app. simpl. lia.
  - unfold leave. split; simpl; [done|]. rewrite Hw, wrap_sub. f_equal.
    unfold inside. simpl. rewrite Hc, !length_app. simpl. lia.
  - unfold tick. pose proof (refill_spec sec (pacer s) Hok) as Hrf.
    destruct (refill sec (pacer s)) as [p' ws]. destruct Hrf as (Hok' & Hw' & _ & Hq); [rewrite Hw; apply Hb|].
    split; simpl; [done|]. rewrite Hw', Hw. f_equal. unfold inside. simpl.
    rewrite <- Hq, !length_app. lia.
  - by split.
Qed.

Lemma reachable_pacer_inv s0 s : initial s0 -> rtc step s0 s -> pacer_inv s.
Proof.
  intros -> Hr. assert (pacer_inv (mk_sys new [] [] [])) as H0'.
  { destruct (sem_new_ok 0) as (? & ? & Hq); [done|]. split; [done|]. unfold inside. simpl. by rewrite Hq. }
  remember (mk_sys new [] [] []) as s0. clear Heqs0. induction Hr; eauto using step_pacer_inv.
Qed.

Lemma cleared_refill s seconds :
  pacer_inv s -> rate (pacer s) = None -> inside s <= u64_max ->
  sem_waiters (tokens (pacer (tick seconds s))) = [] /\
  woken (tick seconds s) = woken s ++ sem_waiters (tokens (pacer s)).
Proof.
  intros [Hok Hw] Hrate Hin.
  unfold wrap_u64 in Hw. rewrite Z.mod_small in Hw by (unfold inside, u64_max in *; lia).
  unfold tick, refill. rewrite Hrate.
  pose proof (sem_add_permits_spec
    (u64_saturating_sub (waiting (pacer s)) (sem_available (tokens (pacer s)))) _ Hok) as Hadd.
  destruct (sem_add_permits _ _) as [tok ws]. unfold u64_saturating_sub in *. simpl.
  destruct Hadd as (Hok' & Hq & Hn); [lia|].
  destruct Hok as [Hav Hfree]. destruct Hok' as [_ Hfree'].
  assert (sem_waiters tok = []) as Hnil; [|by rewrite <- Hq, Hnil, app_nil_r].
  destruct (decide (0 < sem_available tok)) as [|Hz]; [by apply Hfree'|].
  apply length_zero_iff_nil. rewrite <- Hq in Hfree.
  destruct (decide (0 < sem_available (tokens (pacer s)))) as [Ha|Ha].
  - specialize (Hfree Ha). by apply app_nil in Hfree as [_ ->].
  - assert (length (sem_waiters (tokens (pacer s))) = length ws + length (sem_waiters tok))%nat
      by (by rewrite <- Hq, length_app).
    unfold inside in Hw. lia.
Qed.

(** Clearing the rate strands nobody.  In every reachable state with the rate
    cleared, one refill leaves no caller queued: all of them, in arrival order, are
    among the woken. *)
Theorem cleared_refill_releases s0 s seconds :
  initial s0 -> rtc step s0 s -> rate (pacer s) = None -> inside s <= u64_max ->
  sem_waiters (tokens (pacer (tick seconds s))) = [] /\
  woken (tick seconds s) = woken s ++ sem_waiters (tokens (pacer s)).
Proof. intros Hinit Hr. by apply cleared_refill, (reachable_pacer_inv s0). Qed.

(** With a rate set, a refill adds at most the tokens accrued, never beyond the
    burst the rate allows unless the bucket already held more, and every token added
    goes to the longest-waiting caller first. *)
Theorem refill_burst_bound r seconds (p : t S) :
  sem_ok (tokens p) -> rate p = Some r ->
  let '(p', ws) := refill seconds p in
  let whole := f64_as_u64 (f64_floor (carry p + r * seconds)%f64) in
  ws `prefix_of` sem_waiters (tokens p) /\
  Z.of_nat (length ws) + sem_available (tokens p') <= sem_available (tokens p) + whole /\
  Z.of_nat (length ws) + sem_available (tokens p') <= Z.max (sem_available (tokens p)) (burst r) /\
  (sem_waiters (tokens p') <> [] -> sem_available (tokens p') = 0).
Proof.
  intros Hok Hr. unfold refill. rewrite Hr. cbv zeta.
  assert (0 <= f64_as_u64 (f64_floor (carry p + r * seconds)%f64)) as Hwhole by apply f64_as_u64_nonneg.
  set (whole := f64_as_u64 _) in *. unfold u64_saturating_sub.
  pose proof (sem_add_permits_spec (Z.min whole (Z.max (burst r - sem_available (tokens p)) 0))
                (tokens p) Hok ltac:(lia)) as Hadd.
  destruct (sem_add_permits _ _) as [tok ws]. destruct Hadd as ([Hav Hfree] & Hq & Hn). simpl.
  split_and!; [by exists (sem_waiters tok)|lia|lia|].
  intros Hne. destruct (decide (0 < sem_available tok)) as [Hp|]; [by rewrite Hfree in Hne|lia].
Qed.

End AttemptPacerProofs.

Section AttemptPacerExamples.
Import AttemptPacer.

(** Two callers queue at one attempt per second, then the rate is cleared. *)
Definition two_queued : sys ref_sem :=
  let s := mk_sys new [] [] [] in
  let s := s <| pacer := set_rate (Some (f64_of_Z 1)) (pacer s) |> in
  let s := enter 8 (enter 7 s) in
  let s := poll 8 (poll 7 (s <| counted := [8; 7]%nat |>) <| counted := [8]%nat |>) <| counted := [] |> in
  s <| pacer := set_rate None (pacer s) |>.

Lemma two_queued_reachable : rtc step (mk_sys new [] [] []) two_queued.
Proof.
  eapply rtc_l; [apply (step_set_rate (Some (f64_of_Z 1)))|].
  eapply rtc_l; [apply (step_enter 7)|]. eapply rtc_l; [apply (step_enter 8)|].
  eapply rtc_l; [apply (step_poll 7 [8]%nat []); reflexivity|].
  eapply rtc_l; [apply (step_poll 8 [] []); reflexivity|].
  eapply rtc_l; [apply (step_set_rate None)|]. apply rtc_refl.
Qed.

Lemma cleared_refill_releases_witness :
  sem_waiters (tokens (pacer two_queued)) = [7; 8]%nat /\
  sem_waiters (tokens (pacer (tick (f64_lit 1 500) two_queued))) = [] /\
  woken (tick (f64_lit 1 500) two_queued) = woken two_queued ++ sem_waiters (tokens (pacer two_queued)).
Proof.
  split; [reflexivity|].
  apply (cleared_refill_releases (mk_sys new [] [] [])).
  - reflexivity.
  - apply two_queued_reachable.
  - reflexivity.
  - by vm_compute.
Defined.

Definition paced_pacer : t ref_sem :=
  mk (Some (f64_of_Z 500)) (mk_ref_sem 0 [3; 4]%nat) (f64_lit 1 2) 2.

Lemma refill_burst_bound_witness :
  refill (f64_lit 1 100) paced_pacer
    = (mk (Some (f64_of_Z 500)) (mk_ref_sem 3 []) (f64_lit 1 2) 2, [3; 4]%nat) /\
  ([3; 4]%nat `prefix_of` [3; 4]%nat /\ 2 + 3 <= 0 + 5 /\ 2 + 3 <= Z.max 0 5 /\
   (([] : list nat) <> [] -> 3 = 0)).
Proof.
  split; [vm_compute; reflexivity|].
  pose proof (refill_burst_bound (f64_of_Z 500) (f64_lit 1 100) paced_pacer) as Hb.
  specialize (Hb ltac:(split; [done|intros Hc; by vm_compute in Hc]) eq_refl).
  assert (refill (f64_lit 1 100) paced_pacer
    = (mk (Some (f64_of_Z 500)) (mk_ref_sem 3 []) (f64_lit 1 2) 2, [3; 4]%nat)) as E
    by (vm_compute; reflexivity).
  rewrite E in Hb. exact Hb.
Defined.

(** The bucket can hold more than the burst right after a rate is set: while the rate
    is cleared, a second refill counts callers that were woken but have not resumed
    yet as still waiting and adds tokens for them again. *)
Example surplus_tokens_after_clearing :
  exists s : sys ref_sem, rtc step (mk_sys new [] [] []) s /\
    rate (pacer s) = Some (f64_of_Z 1) /\ burst (f64_of_Z 1) = 1 /\
    sem_available (tokens (pacer s)) = 2 /\ sem_waiters (tokens (pacer s)) = [].
Proof.
  exists ((tick (f64_lit 1 500) (tick (f64_lit 1 500) two_queued))
       <| pacer := set_rate (Some (f64_of_Z 1))
                     (pacer (tick (f64_lit 1 500) (tick (f64_lit 1 500) two_queued))) |>).
  split; [|by vm_compute].
  transitivity two_queued; [apply two_queued_reachable|].
  eapply rtc_l; [apply (step_refill (f64_lit 1 500))|].
  eapply rtc_l; [apply (step_refill (f64_lit 1 500))|].
  eapply rtc_l; [apply (step_set_rate (Some (f64_of_Z 1)))|]. apply rtc_refl.
Qed.

End AttemptPacerExamples.
