(* ===== verification/Refill.v ===== *)
(** * The pacer's refill, interleaved: [refill] and [acquire] of [limiter.rs]

    [Limiter] takes a refill of the bucket as one step, and counting a caller as part of
    reading the rate.  In the program the refill task reads the rate, the waiting callers
    and the free permits one after the other and adds permits last, while callers enter,
    poll and leave, and the controller stores a rate and then resets the carry.  Here each
    of those is a step.  A refill left alone is [Limiter]'s; interleaved, the bucket never
    holds more than a burst while a rate is set, refills bound what gets through, and once
    the rate is cleared one refill still frees everyone who waits. *)

From stdpp Require Import list.
From S2P Require Import Prelude Float64 Extern Limiter.

Module Refill.
Section Refill.
Import AttemptPacer.
Context {S : Type} `{SemaphoreOps S}.

(** Where the refill task stands: asleep, or between two accesses. *)
Inductive pc :=
| Asleep
| Rating (seconds : f64)                  (* about to read the rate *)
| LoadingWaiting                          (* unlimited: about to load the waiting callers *)
| LoadingFree (waiting : Z)               (* about to load the free permits *)
| Releasing (permits : Z)                 (* about to add permits *)
| Carrying (rate seconds : f64)           (* about to take the carry's lock *)
| LoadingRoom (rate whole : f64)          (* the lock held; about to load the free permits *)
| Topping (permits : Z).                  (* the lock held; about to add permits *)

Definition holds_carry (p : pc) : bool :=
  match p with LoadingRoom _ _ | Topping _ => true | _ => false end.

(** The refill task's next access; with the callers it lets through. *)
Definition access (q : pc) (p : t S) : pc * t S * list nat :=
  match q with
  | Asleep => (Asleep, p, [])
  | Rating seconds =>
      match rate p with
      | None => (LoadingWaiting, p, [])
      | Some r => (Carrying r seconds, p, [])
      end
  | LoadingWaiting => (LoadingFree (waiting p), p, [])
  | LoadingFree waiting => (Releasing (u64_saturating_sub waiting (sem_available (tokens p))), p, [])
  | Carrying r seconds =>
      let c := (carry p + r * seconds)%f64 in
      let whole := f64_floor c in
      (LoadingRoom r whole, p <| carry := (c - whole)%f64 |>, [])
  | LoadingRoom r whole =>
      let room := u64_saturating_sub (burst r) (sem_available (tokens p)) in
      (Topping (Z.min (f64_as_u64 whole) room), p, [])
  | Releasing n | Topping n =>
      let '(tokens', ws) := sem_add_permits n (tokens p) in (Asleep, p <| tokens := tokens' |>, ws)
  end.

(** [counting] callers saw a rate and are not counted yet; [leaving] ones have forgotten
    their token and are still counted; [resetting]: a rate was stored, the carry is next. *)
Record sys := mk {
  pacer : t S;
  counting : list nat;
  counted : list nat;
  woken : list nat;
  leaving : list nat;
  sent : list nat;
  refiller : pc;
  resetting : bool
}.
#[global] Instance sys_settable : Settable sys := fun s =>
  mk (pacer s) (counting s) (counted s) (woken s) (leaving s) (sent s) (refiller s) (resetting s).

(** Callers: [acquire], access by access. *)
Inductive caller_step : sys -> sys -> Prop :=
| caller_free w s : rate (pacer s) = None -> caller_step s (s <| sent := w :: sent s |>)
| caller_paced w r s : rate (pacer s) = Some r -> caller_step s (s <| counting := w :: counting s |>)
| caller_counts w c1 c2 s :
    counting s = c1 ++ w :: c2 ->
    caller_step s
      (s <| counting := c1 ++ c2 |> <| counted := w :: counted s |>
         <| pacer := (pacer s) <| waiting := fetch_add (waiting (pacer s)) 1 |> |>)
| caller_polls w c1 c2 tokens' (granted : bool) s :
    counted s = c1 ++ w :: c2 -> sem_acquire w (tokens (pacer s)) = (tokens', granted) ->
    caller_step s
      (s <| counted := c1 ++ c2 |> <| pacer := (pacer s) <| tokens := tokens' |> |>
         <| leaving := if granted then w :: leaving s else leaving s |>)
| caller_resumes w c1 c2 s :
    woken s = c1 ++ w :: c2 ->
    caller_step s (s <| woken := c1 ++ c2 |> <| leaving := w :: leaving s |>)
| caller_leaves w c1 c2 s :
    leaving s = c1 ++ w :: c2 ->
    caller_step s
      (s <| leaving := c1 ++ c2 |> <| sent := w :: sent s |>
         <| pacer := (pacer s) <| waiting := wrap_u64 (waiting (pacer s) - 1) |> |>).

Definition stored (r : option f64) (s : sys) : sys :=
  s <| pacer := (pacer s) <| rate := r |> |> <| resetting := true |>.

(** The controller: [set_rate], to a rate it [allowed]. *)
Inductive control_step (allowed : option f64 -> Prop) : sys -> sys -> Prop :=
| control_stores r s : allowed r -> resetting s = false -> control_step allowed s (stored r s)
| control_resets s :
    resetting s = true -> holds_carry (refiller s) = false ->
    control_step allowed s (s <| pacer := (pacer s) <| carry := f64_of_Z 0 |> |> <| resetting := false |>).

(** The refill task: it wakes up, or makes its next access. *)
Definition refill_acts (s : sys) : sys :=
  let '(q, p, ws) := access (refiller s) (pacer s) in
  s <| refiller := q |> <| pacer := p |> <| woken := woken s ++ ws |>.
Inductive refill_step : sys -> sys -> Prop :=
| refill_wakes seconds s : refiller s = Asleep -> refill_step s (s <| refiller := Rating seconds |>)
| refill_goes_on s : refiller s <> Asleep -> refill_step s (refill_acts s).

(** The last access of a refill adds the permits. *)
Definition adds (q : pc) : bool := match q with Releasing _ | Topping _ => true | _ => false end.

(** [runs allowed n s s']: an interleaving with rates [allowed] and [n] refills completed. *)
Inductive runs (allowed : option f64 -> Prop) : nat -> sys -> sys -> Prop :=
| runs_none s : runs allowed 0 s s
| runs_caller n s s1 s' : runs allowed n s s1 -> caller_step s1 s' -> runs allowed n s s'
| runs_control n s s1 s' : runs allowed n s s1 -> control_step allowed s1 s' -> runs allowed n s s'
| runs_refill n s s1 s' :
    runs allowed n s s1 -> refill_step s1 s' ->
    runs allowed (if adds (refiller s1) then Datatypes.S n else n) s s'.

(** The pacer as it is built. *)
Definition initial : sys := mk new [] [] [] [] [] Asleep false.

(** Callers that [waiting] counts. *)
Definition inside (s : sys) : Z :=
  Z.of_nat (length (counted s) + length (sem_waiters (tokens (pacer s))) + length (woken s) + length (leaving s)).

(** Tokens that were ever handed out or can be. *)
Definition passes (s : sys) : Z :=
  sem_available (tokens (pacer s)) + Z.of_nat (length (woken s) + length (leaving s) + length (sent s)).
End Refill.
Arguments sys S : clear implicits.
End Refill.

Section RefillProofs.
Import AttemptPacer Refill.
Context {S : Type} `{Semaphore S}.
Implicit Types (s : Refill.sys S) (p : AttemptPacer.t S).

(** Four accesses with nobody in between. *)
Fixpoint alone (n : nat) (q : Refill.pc) p (ws : list nat) : Refill.pc * AttemptPacer.t S * list nat :=
  match n with
  | O => (q, p, ws)
  | Datatypes.S n => let '(q, p, ws') := access q p in alone n q p (ws ++ ws')
  end.

(** A refill that nobody comes between is [Limiter]'s, in four accesses. *)
Theorem refill_alone seconds p :
  alone 4 (Rating seconds) p [] = (Asleep, (refill seconds p).1, (refill seconds p).2).
Proof.
  unfold refill. cbn [alone access]. destruct (rate p) as [r|] eqn:Er; cbn [alone access].
  - cbn. by destruct (sem_add_permits _ _).
  - by destruct (sem_add_permits _ _).
Qed.

(** *** Counts *)

Record sound s : Prop := {
  sd_ok : sem_ok (tokens (pacer s));
  sd_waiting : waiting (pacer s) = wrap_u64 (inside s);
  sd_permits : match refiller s with Releasing n | Topping n => 0 <= n | _ => True end;
}.

(** Polling, field by field. *)
Lemma poll_spec w tok (granted : bool) p :
  sem_ok (tokens p) -> sem_acquire w (tokens p) = (tok, granted) ->
  sem_ok tok /\
  if granted then sem_available (tokens p) = sem_available tok + 1 /\ sem_waiters tok = sem_waiters (tokens p)
  else sem_available (tokens p) = 0 /\ sem_available tok = 0 /\ sem_waiters tok = sem_waiters (tokens p) ++ [w].
Proof. intros Hok Ha. pose proof (sem_acquire_spec w (tokens p) Hok) as Hs. by rewrite Ha in Hs. Qed.

(** One access of the refill, field by field. *)
Lemma access_frame q p q' p' ws :
  sem_ok (tokens p) -> match q with Releasing n | Topping n => 0 <= n | _ => True end ->
  access q p = (q', p', ws) ->
  waiting p' = waiting p /\ rate p' = rate p /\ sem_ok (tokens p') /\
  ws ++ sem_waiters (tokens p') = sem_waiters (tokens p) /\
  Z.of_nat (length ws) + sem_available (tokens p') =
    sem_available (tokens p) + match q with Releasing n | Topping n => n | _ => 0 end /\
  (adds q = true -> q' = Asleep) /\ match q' with Releasing n | Topping n => 0 <= n | _ => True end.
Proof.
  intros Hok Hn Ha.
  assert (forall n, 0 <= n -> forall tok vs, sem_add_permits n (tokens p) = (tok, vs) -> sem_ok tok /\
    vs ++ sem_waiters tok = sem_waiters (tokens p) /\ Z.of_nat (length vs) + sem_available tok = sem_available (tokens p) + n)
    as Hadd.
  { intros n H0n tok vs E. pose proof (sem_add_permits_spec n (tokens p) Hok H0n) as Hs. by rewrite E in Hs. }
  destruct q as [|seconds| |w|n|r seconds|r whole|n]; cbn [access] in Ha.
  2: destruct (rate p) eqn:Er.
  1-5,7-8: injection Ha as <- <- <-; simpl; split_and!; try done; try lia.
  - unfold u64_saturating_sub. lia.
  - pose proof (f64_as_u64_nonneg whole). unfold u64_saturating_sub. lia.
  - destruct (sem_add_permits n (tokens p)) as [tok vs] eqn:E. injection Ha as <- <- <-. simpl.
    by destruct (Hadd n Hn tok vs E) as (? & ? & ?).
  - destruct (sem_add_permits n (tokens p)) as [tok vs] eqn:E. injection Ha as <- <- <-. simpl.
    by destruct (Hadd n Hn tok vs E) as (? & ? & ?).
Qed.

Lemma caller_sound s s' : caller_step s s' -> sound s -> sound s'.
Proof.
  intros Hst [Hok Hw Hp]. destruct Hst as [w s Hr|w r s Hr|w c1 c2 s Hc|w c1 c2 tok granted s Hc Ha|w c1 c2 s Hc|w c1 c2 s Hc];
    (split; [try done|try done|done]); unfold inside in *; simpl in *.
  - rewrite Hw, wrap_fetch_add. f_equal. lia.
  - exact (proj1 (poll_spec w tok granted _ Hok Ha)).
  - destruct (poll_spec w tok granted _ Hok Ha) as [_ Hq]. rewrite Hw. f_equal. rewrite Hc, !length_app. simpl.
    destruct granted; [destruct Hq as [_ ->]; simpl; lia|]. destruct Hq as (_ & _ & ->). rewrite length_app. simpl. lia.
  - rewrite Hw. f_equal. rewrite Hc, !length_app. simpl. lia.
  - rewrite Hw, wrap_sub. f_equal. rewrite Hc, !length_app. simpl. lia.
Qed.

Lemma control_sound allowed s s' : control_step allowed s s' -> sound s -> sound s'.
Proof. intros Hst [Hok Hw Hp]. by destruct Hst; split. Qed.

Lemma refill_sound s s' : refill_step s s' -> sound s -> sound s'.
Proof.
  intros Hst [Hok Hw Hp]. destruct Hst as [seconds s Ha|s Ha]; [by split|].
  unfold refill_acts. destruct (access (refiller s) (pacer s)) as [[q p] ws] eqn:E.
  destruct (access_frame _ _ _ _ _ Hok Hp E) as (Ew & _ & Hok' & Hq & _ & _ & Hp').
  split; simpl; [done| |done]. rewrite Ew, Hw. f_equal. unfold inside. simpl. rewrite <- Hq, !length_app. lia.
Qed.

Lemma runs_sound allowed n s s' : runs allowed n s s' -> sound s -> sound s'.
Proof.
  induction 1 as [s|n s s1 s' _ IH Hst|n s s1 s' _ IH Hst|n s s1 s' _ IH Hst]; intros Hs; [done|..].
  - by eapply caller_sound; [|apply IH].
  - by eapply control_sound; [|apply IH].
  - by eapply refill_sound; [|apply IH].
Qed.

Lemma initial_sound_pacer : sound (Refill.initial (S := S)).
Proof.
  destruct (sem_new_ok 0) as (Hok & _ & Hq); [done|]. split; simpl; [done| |done].
  unfold inside. simpl. by rewrite Hq.
Qed.

(** *** While a rate is set *)

(** Rates whose burst is at most [B]. *)
Definition bursts_within (B : Z) (r : option f64) : Prop := exists q, r = Some q /\ burst q <= B.

Record capped (B : Z) s : Prop := {
  ca_sound : sound s;
  ca_free : sem_available (tokens (pacer s)) <= B;
  ca_rate : bursts_within B (rate (pacer s));
  ca_refill :
    match refiller s with
    | Asleep | Rating _ => True
    | LoadingWaiting | LoadingFree _ | Releasing _ => False
    | Carrying r _ | LoadingRoom r _ => burst r <= B
    | Topping n => n + sem_available (tokens (pacer s)) <= B
    end;
}.

Lemma caller_capped B s s' : caller_step s s' -> capped B s -> capped B s' /\ passes s' = passes s.
Proof.
  intros Hst [Hs Hf Hr Hp]. pose proof (caller_sound _ _ Hst Hs) as Hs'. destruct Hs as [Hok _ _].
  destruct Hst as [w s Hr'|w r s _|w c1 c2 s Hc|w c1 c2 tok granted s Hc Ha|w c1 c2 s Hc|w c1 c2 s Hc].
  1: destruct Hr as (q & E & _); congruence.
  3: destruct (poll_spec w tok granted _ Hok Ha) as [_ Hq];
     assert (sem_available tok <= sem_available (tokens (pacer s))) by (destruct granted; cbn iota in Hq; lia).
  all: split; [split; simpl; try done; try lia|unfold passes; simpl; rewrite ?Hc, ?length_app; simpl; try lia].
  - destruct (refiller s); try done. lia.
  - destruct granted; cbn iota in Hq; simpl; lia.
Qed.

Lemma control_capped B s s' :
  control_step (bursts_within B) s s' -> capped B s -> capped B s' /\ passes s' = passes s.
Proof.
  intros Hst [Hs Hf Hr Hp]. pose proof (control_sound _ _ _ Hst Hs). by destruct Hst; split.
Qed.

Lemma refill_capped B s s' :
  0 <= B -> refill_step s s' -> capped B s ->
  capped B s' /\ passes s' <= passes s + if adds (refiller s) then B else 0.
Proof.
  intros HB Hst [Hs Hf Hr Hp]. pose proof (refill_sound _ _ Hst Hs) as Hs'. destruct Hs as [Hok Hw H0p].
  destruct Hst as [seconds s Ha|s Ha]; [by split; [split|unfold passes; rewrite Ha; simpl; lia]|].
  unfold refill_acts in *. destruct (access (refiller s) (pacer s)) as [[q p] ws] eqn:E.
  destruct (access_frame _ _ _ _ _ Hok H0p E) as (_ & Er & Hok' & Hq & Hn & Hadds & _).
  pose proof (proj1 Hok). pose proof (proj1 Hok'). split.
  - split; simpl; [done| |by rewrite Er|].
    + destruct (refiller s) as [|seconds| |w|n|r seconds|r whole|n]; simpl in *; try done; try lia.
    + destruct (refiller s) as [|seconds| |w|n|r seconds|r whole|n]; cbn [access] in E; try done.
      * destruct Hr as (r & Hr & Hb). rewrite Hr in E. by injection E as <- _ _.
      * by injection E as <- _ _.
      * injection E as <- <- _. unfold u64_saturating_sub. simpl. lia.
      * by rewrite (Hadds eq_refl).
  - unfold passes. simpl. rewrite length_app.
    destruct (refiller s) as [|seconds| |w|n|r seconds|r whole|n]; simpl in *; try done; lia.
Qed.

(** C33: while a rate is set, the bucket never holds more than a burst and the refills
    bound what gets through.  From any state the pacer reaches, however callers, the controller and the refill task
    interleave, with every rate's burst within [B], at most [B] permits are ever free, and
    in a run that completes [n] refills at most [n * B] attempts leave beyond the tokens
    there were. *)
Theorem paced_by_refills B m n s s' :
  runs (fun _ => True) m initial s -> refiller s = Asleep -> 0 <= sem_available (tokens (pacer s)) <= B ->
  bursts_within B (rate (pacer s)) -> runs (bursts_within B) n s s' ->
  sem_available (tokens (pacer s')) <= B /\
  Z.of_nat (length (sent s')) <= passes s + Z.of_nat n * B.
Proof.
  intros Hs%runs_sound Ha [H0f Hf] Hr Hrun; [|exact initial_sound_pacer]. assert (capped B s) as Hc by (split; try done; by rewrite Ha).
  assert (capped B s' /\ passes s' <= passes s + Z.of_nat n * B) as [Hc' Hp].
  { assert (0 <= B) as HB by lia. clear Ha Hf Hr Hs H0f.
    induction Hrun as [s|n s s1 s' _ IH Hst|n s s1 s' _ IH Hst|n s s1 s' _ IH Hst]; [split; [done|lia]|..];
      destruct (IH Hc) as [Hc1 Hp1].
    - destruct (caller_capped _ _ _ Hst Hc1) as [? ->]. done.
    - destruct (control_capped _ _ _ Hst Hc1) as [? ->]. done.
    - destruct (refill_capped _ _ _ HB Hst Hc1) as [? Hp2]. split; [done|].
      destruct (adds (refiller s1)); lia. }
  split; [apply Hc'|]. destruct Hc' as [[[Hav _] _ _] _ _ _]. unfold passes in *. lia.
Qed.

(** *** After the rate was cleared *)

(** Callers that have yet to poll, or are queued. *)
Definition tokenless s : Z := Z.of_nat (length (counted s) + length (sem_waiters (tokens (pacer s)))).

(** The rate is cleared, nobody is about to be counted, and [freed] tells whether a refill
    was completed since. *)
Record cleared (freed : bool) s : Prop := {
  cl_sound : sound s;
  cl_rate : rate (pacer s) = None;
  cl_counting : counting s = [];
  cl_inside : inside s <= u64_max;
  cl_freed : freed = true -> tokenless s <= sem_available (tokens (pacer s));
  cl_refill :
    match refiller s with
    | LoadingWaiting => True
    | LoadingFree w => freed = false -> tokenless s <= w
    | Releasing n => freed = false -> tokenless s <= n + sem_available (tokens (pacer s))
    | Asleep | Rating _ => freed = true
    | _ => False
    end;
}.

Lemma caller_cleared freed s s' : caller_step s s' -> cleared freed s -> cleared freed s'.
Proof.
  intros Hst [Hs Hr Hc Hi Hf Hp]. pose proof (caller_sound _ _ Hst Hs) as Hs'. pose proof (sd_ok _ Hs) as Hok.
  destruct Hst as [w s _|w r s Hr'|w c1 c2 s Hc'|w c1 c2 tok granted s Hc' Ha|w c1 c2 s Hc'|w c1 c2 s Hc'].
  - by split.
  - congruence.
  - rewrite Hc in Hc'. by destruct c1.
  - set (s' := _ <| leaving := _ |>) in *. destruct (poll_spec w tok granted _ Hok Ha) as [_ Hq].
    assert (tokenless s' <= tokenless s /\ inside s' <= inside s /\
      tokenless s' - sem_available tok = tokenless s - sem_available (tokens (pacer s))) as (Ht & Hin & Hd).
    { unfold s', tokenless, inside. simpl. rewrite Hc', !length_app. simpl.
      destruct granted; [destruct Hq as [Hq1 ->]|destruct Hq as (Hq0 & Hq1 & ->)]; rewrite ?length_app; simpl; lia. }
    split; try done; [lia|simpl; intros E; specialize (Hf E); lia|]. unfold s' at 1. simpl.
    destruct (refiller s); try done; [intros E; specialize (Hp E); lia..].
  - split; simpl; try done. unfold inside in *. simpl. rewrite Hc', !length_app in Hi. rewrite length_app. simpl in *. lia.
  - split; simpl; try done. unfold inside in *. simpl. rewrite Hc', !length_app in Hi. rewrite length_app. simpl in *. lia.
Qed.

Lemma control_cleared freed s s' :
  control_step (fun r => r = None) s s' -> cleared freed s -> cleared freed s'.
Proof.
  intros Hst [Hs Hr Hc Hi Hf Hp]. pose proof (control_sound _ _ _ Hst Hs). by destruct Hst; split.
Qed.

Lemma refill_cleared freed s s' :
  refill_step s s' -> cleared freed s -> cleared (freed || adds (refiller s)) s'.
Proof.
  intros Hst [Hs Hr Hc Hi Hf Hp]. pose proof (refill_sound _ _ Hst Hs) as Hs'. destruct Hs as [Hok Hw H0p].
  destruct Hst as [seconds s Ha|s Ha]; [rewrite Ha in *; subst freed; by split|].
  unfold refill_acts in *. destruct (access (refiller s) (pacer s)) as [[q p] ws] eqn:E.
  destruct (access_frame _ _ _ _ _ Hok H0p E) as (_ & Er & Hok' & Hq & Hn & Hadds & _).
  pose proof (proj1 Hok) as Hav. destruct Hok' as [Hav' Hfree'].
  assert (Z.of_nat (length (sem_waiters (tokens (pacer s)))) =
    Z.of_nat (length ws) + Z.of_nat (length (sem_waiters (tokens p)))) as Hlen
    by (rewrite <- Hq, length_app; lia).
  set (s' := _ <| woken := _ |>) in *.
  assert (tokenless s' = tokenless s - Z.of_nat (length ws)) as Et by (unfold s', tokenless; simpl; lia).
  assert (inside s' = inside s) as Ei by (unfold s', inside; simpl; rewrite length_app; lia).
  split; try done; [by rewrite <- Er in Hr|lia|..].
  - unfold s' at 2. simpl. rewrite Et. intros [E'|E']%orb_true_iff; [specialize (Hf E')|].
    + destruct (refiller s); try done; lia.
    + destruct (refiller s); try done. destruct freed; [specialize (Hf eq_refl)|specialize (Hp eq_refl)]; lia.
  - unfold s' at 1. simpl. destruct (refiller s) as [|seconds| |w|n|r seconds|r whole|n]; cbn [access] in E; try done.
    + rewrite Hr in E. by injection E as <- _ _.
    + injection E as <- _ _. intros _. rewrite Et, Hw. unfold wrap_u64.
      rewrite Z.mod_small by (unfold inside, u64_max in *; lia).
      unfold tokenless, inside. lia.
    + injection E as <- <- _. rewrite orb_false_r. intros Ef. specialize (Hp Ef). unfold u64_saturating_sub. simpl. lia.
    + rewrite (Hadds eq_refl). by rewrite orb_true_r.
Qed.

(** Clearing the rate strands nobody, however the refill is interleaved.  From a refill
    that found the rate cleared, with no caller on the point of being counted, every run
    that completes a refill while the rate stays cleared leaves the queue empty, and a
    permit free for each caller that has yet to poll. *)
Theorem cleared_frees_all m n s s' :
  runs (fun _ => True) m initial s -> rate (pacer s) = None -> counting s = [] -> refiller s = LoadingWaiting -> inside s <= u64_max ->
  runs (fun r => r = None) (Datatypes.S n) s s' ->
  sem_waiters (tokens (pacer s')) = [] /\
  Z.of_nat (length (counted s')) <= sem_available (tokens (pacer s')).
Proof.
  intros Hs%runs_sound Hr Hc Ha Hi Hrun; [|exact initial_sound_pacer].
  assert (cleared false s) as H1 by (split; try done; by rewrite Ha).
  assert (forall k, runs (fun r => r = None) k s s' -> cleared (negb (k =? 0)%nat) s') as Hall.
  { clear Hrun Hs Hr Hc Ha Hi. intros k Hrun.
    induction Hrun as [s|k s s1 s' _ IH Hst|k s s1 s' _ IH Hst|k s s1 s' _ IH Hst]; [done|..]; specialize (IH H1).
    - by eapply caller_cleared.
    - by eapply control_cleared.
    - pose proof (refill_cleared _ _ _ Hst IH) as Hn. destruct (adds (refiller s1)).
      + by rewrite orb_true_r in Hn.
      + by rewrite orb_false_r in Hn. }
  destruct (Hall _ Hrun) as [[Hok _ _] _ _ _ Hf _]. specialize (Hf eq_refl). unfold tokenless in Hf.
  destruct Hok as [Hav Hfree]. destruct (sem_waiters (tokens (pacer s'))) as [|w ws] eqn:Eq; [split; [done|simpl in Hf; lia]|].
  simpl in Hf. exfalso. assert (0 < sem_available (tokens (pacer s'))) as Hpos by lia. by apply Hfree in Hpos.
Qed.

End RefillProofs.

(** ** Witnesses and examples *)

Section RefillExamples.
Import AttemptPacer Refill.

(** A schedule in which callers go first come, first served. *)
Inductive move :=
| Enter (w : nat) | Count | Poll | Resume | Leave
| Store (r : option f64) | Reset
| Wake (seconds : f64) | Go.

Definition make (m : move) (s : Refill.sys ref_sem) : option (Refill.sys ref_sem) :=
  match m with
  | Enter w =>
      Some match rate (pacer s) with
           | None => s <| sent := w :: sent s |>
           | Some _ => s <| counting := w :: counting s |>
           end
  | Count =>
      '(w, c) ← match counting s with w :: c => Some (w, c) | [] => None end;
      Some (s <| counting := c |> <| counted := w :: counted s |>
              <| pacer := (pacer s) <| waiting := fetch_add (waiting (pacer s)) 1 |> |>)
  | Poll =>
      '(w, c) ← match counted s with w :: c => Some (w, c) | [] => None end;
      let '(tokens', granted) := sem_acquire w (tokens (pacer s)) in
      Some (s <| counted := c |> <| pacer := (pacer s) <| tokens := tokens' |> |>
              <| leaving := if (granted : bool) then w :: leaving s else leaving s |>)
  | Resume =>
      '(w, c) ← match woken s with w :: c => Some (w, c) | [] => None end;
      Some (s <| woken := c |> <| leaving := w :: leaving s |>)
  | Leave =>
      '(w, c) ← match leaving s with w :: c => Some (w, c) | [] => None end;
      Some (s <| leaving := c |> <| sent := w :: sent s |>
              <| pacer := (pacer s) <| waiting := wrap_u64 (waiting (pacer s) - 1) |> |>)
  | Store r => if resetting s then None else Some (stored r s)
  | Reset =>
      if resetting s && negb (holds_carry (refiller s))
      then Some (s <| pacer := (pacer s) <| carry := f64_of_Z 0 |> |> <| resetting := false |>) else None
  | Wake seconds => match refiller s with Asleep => Some (s <| refiller := Rating seconds |>) | _ => None end
  | Go => match refiller s with Asleep => None | _ => Some (refill_acts s) end
  end.

Fixpoint make_all (ms : list move) (n : nat) (s : Refill.sys ref_sem) : option (nat * Refill.sys ref_sem) :=
  match ms with
  | [] => Some (n, s)
  | m :: ms =>
      s' ← make m s;
      make_all ms (match m with Go => if adds (refiller s) then S n else n | _ => n end) s'
  end.

Definition permitted (allowed : option f64 -> Prop) (m : move) : Prop :=
  match m with Store r => allowed r | _ => True end.

Lemma make_runs (allowed : option f64 -> Prop) m n s0 s s' :
  permitted allowed m -> runs allowed n s0 s -> make m s = Some s' ->
  runs allowed (match m with Go => if adds (refiller s) then S n else n | _ => n end) s0 s'.
Proof.
  intros Hok Hr Hm. destruct m; cbn [make permitted] in *.
  - injection Hm as <-. eapply runs_caller; [exact Hr|].
    destruct (rate (pacer s)) eqn:E; [by eapply caller_paced|by apply caller_free].
  - apply bind_Some in Hm as ([w c] & Hc & [= <-]). destruct (counting s) as [|w' c'] eqn:E; [done|]. injection Hc as -> ->.
    eapply runs_caller; [exact Hr|]. by apply (caller_counts w [] c).
  - apply bind_Some in Hm as ([w c] & Hc & Hm). destruct (counted s) as [|w' c'] eqn:E; [done|]. injection Hc as -> ->.
    destruct (sem_acquire w (tokens (pacer s))) as [tok granted] eqn:Ea. injection Hm as <-.
    eapply runs_caller; [exact Hr|]. by apply (caller_polls w [] c tok granted).
  - apply bind_Some in Hm as ([w c] & Hc & [= <-]). destruct (woken s) as [|w' c'] eqn:E; [done|]. injection Hc as -> ->.
    eapply runs_caller; [exact Hr|]. by apply (caller_resumes w [] c).
  - apply bind_Some in Hm as ([w c] & Hc & [= <-]). destruct (leaving s) as [|w' c'] eqn:E; [done|]. injection Hc as -> ->.
    eapply runs_caller; [exact Hr|]. by apply (caller_leaves w [] c).
  - destruct (resetting s) eqn:E; [done|]. injection Hm as <-. eapply runs_control; [exact Hr|by constructor].
  - destruct (resetting s) eqn:E1; [|done]. destruct (holds_carry (refiller s)) eqn:E2; [done|]. injection Hm as <-.
    eapply runs_control; [exact Hr|by constructor].
  - pose proof (runs_refill allowed n s0 s s' Hr) as Hrun. destruct (refiller s) eqn:E; try done.
    injection Hm as <-. apply Hrun. by constructor.
  - pose proof (runs_refill allowed n s0 s s' Hr) as Hrun.
    destruct (refiller s) eqn:E; try done; injection Hm as <-; apply Hrun; constructor; by rewrite E.
Qed.

Lemma make_all_runs allowed ms : forall n n' s0 s s',
  Forall (permitted allowed) ms -> runs allowed n s0 s -> make_all ms n s = Some (n', s') -> runs allowed n' s0 s'.
Proof.
  induction ms as [|m ms IH]; intros n n' s0 s s' Hok Hr Hm; cbn [make_all] in Hm; [by injection Hm as <- <-|].
  apply Forall_cons in Hok as [Hok1 Hok]. apply bind_Some in Hm as (s1 & Hmake & Hm). eapply IH; [exact Hok| |exact Hm]. by apply make_runs.
Qed.

(** A rate of 500 with three permits in the bucket: a caller takes one after the refill
    has loaded them, so the refill tops up to four, not to the burst of five. *)
Definition after (ms : list move) (s : Refill.sys ref_sem) : nat * Refill.sys ref_sem :=
  from_option id (0%nat, s) (make_all ms 0 s).
Definition paced_setup : list move :=
  [Store (Some (f64_of_Z 500)); Reset; Wake (f64_lit 7 1000); Go; Go; Go; Go].
Definition paced_start : Refill.sys ref_sem := (after paced_setup initial).2.
Definition paced_moves : list move :=
  [Enter 7; Count; Wake (f64_lit 1 100); Go; Go; Go; Poll; Go; Leave].
Definition paced_end : Refill.sys ref_sem := (after paced_moves paced_start).2.

Example paced_counts :
  sem_available (tokens (pacer paced_start)) = 3 /\ sem_available (tokens (pacer paced_end)) = 4 /\
  sent paced_end = [7]%nat /\ waiting (pacer paced_end) = 0.
Proof. vm_compute. auto. Qed.

Lemma paced_by_refills_witness :
  runs (bursts_within 5) 1 paced_start paced_end /\
  sem_available (tokens (pacer paced_end)) <= 5 /\
  Z.of_nat (length (sent paced_end)) <= passes paced_start + Z.of_nat 1 * 5.
Proof.
  assert (runs (bursts_within 5) 1 paced_start paced_end) as Hr.
  { apply (make_all_runs _ paced_moves 0 1 paced_start paced_start);
      [by repeat constructor|constructor|vm_compute; reflexivity]. }
  split; [exact Hr|]. apply (paced_by_refills 5 1 1 paced_start).
  - apply (make_all_runs _ paced_setup 0 1 initial initial);
      [by repeat constructor|constructor|vm_compute; reflexivity].
  - vm_compute. reflexivity.
  - vm_compute. split; discriminate.
  - exists (f64_of_Z 500). split; [vm_compute; reflexivity|vm_compute; discriminate].
  - exact Hr.
Defined.

(** One caller queued and one about to poll when the rate is cleared. *)
Definition cleared_setup : list move :=
  [Store (Some (f64_of_Z 1)); Reset; Enter 3; Count; Poll; Enter 4; Count; Store None; Reset;
   Wake (f64_lit 1 10); Go].
Definition cleared_start : Refill.sys ref_sem := (after cleared_setup initial).2.
Definition cleared_moves : list move := [Go; Go; Enter 9; Poll; Go; Resume; Leave].
Definition cleared_end : Refill.sys ref_sem := (after cleared_moves cleared_start).2.

Lemma cleared_frees_all_witness :
  runs (fun r => r = None) 1 cleared_start cleared_end /\
  (woken cleared_end, sent cleared_end) = ([4], [3; 9])%nat /\
  sem_waiters (tokens (pacer cleared_end)) = [] /\
  Z.of_nat (length (counted cleared_end)) <= sem_available (tokens (pacer cleared_end)).
Proof.
  assert (runs (fun r => r = None) 1 cleared_start cleared_end) as Hr.
  { apply (make_all_runs _ cleared_moves 0 1 cleared_start cleared_start);
      [by repeat constructor|constructor|vm_compute; reflexivity]. }
  split; [exact Hr|]. split; [vm_compute; reflexivity|].
  apply (cleared_frees_all 0 0 cleared_start); [|vm_compute; reflexivity..|vm_compute; discriminate|exact Hr].
  apply (make_all_runs _ cleared_setup 0 0 initial initial);
    [by repeat constructor|constructor|vm_compute; reflexivity].
Defined.

End RefillExamples.
