(* ===== verification/Judge.v ===== *)
(** * Is the loss the rate's fault?  [LossJudge] of [controller.rs]

    The judge sees one loss ratio and one delivered rate per window.  It calls a
    window congested only while retreating pays; otherwise the loss becomes the
    path's baseline.  The main result bounds every congestion episode. *)

From stdpp Require Import list.
From S2P Require Import Prelude Float64.

Definition LOSS_THRESHOLD : f64 := f64_lit 2 100.
Definition RETREAT_MUST_IMPROVE : f64 := f64_lit 99 100.
Definition RETREAT_MUST_DELIVER : f64 := f64_lit 95 100.
Definition STALL_TICKS : Z := 2.

(** What a window of loss is worth doing about. *)
Inductive Verdict :=
| Congested (converging : bool)
| Clear
| Baseline.

#[export] Instance Verdict_eq_dec : EqDecision Verdict.
Proof. solve_decision. Defined.

Module LossJudge.

(** [stalled] is a [u8]. *)
Record t := mk {
  best : option f64;
  best_delivered : option f64;
  stalled : Z;
  baseline : option f64
}.
#[export] Instance t_settable : Settable t :=
  fun j => mk (best j) (best_delivered j) (stalled j) (baseline j).

Definition fresh : t := mk None None 0 None.

(** Start the next episode fresh; the baseline stays. *)
Definition end_episode (j : t) : t :=
  j <| best := None |> <| best_delivered := None |> <| stalled := 0 |>.

Definition u8_saturating_add (a b : Z) : Z := Z.min (a + b) 255.

(** [delivered] is answered queries per second over the same window as [loss]. *)
Definition judge (loss delivered : f64) (j0 : t) : t * Verdict :=
  let j := match baseline j0 with
           | Some b => j0 <| baseline := Some (f64_min b loss) |>
           | None => j0
           end in
  if (loss <=? from_option id (f64_of_Z 0) (baseline j) + LOSS_THRESHOLD)%f64
  then (end_episode j, Clear)
  else
    let improving := match best j with
                     | Some b => (loss <? b * RETREAT_MUST_IMPROVE)%f64
                     | None => true
                     end in
    let paying := match best_delivered j with
                  | Some b => (b * RETREAT_MUST_DELIVER <=? delivered)%f64
                  | None => true
                  end in
    let converging := (match best j with Some _ => true | None => false end)
                        && improving && paying in
    let observe j :=
      j <| best := Some (match best j with Some b => f64_min b loss | None => loss end) |>
        <| best_delivered := Some (match best_delivered j with
                                   | Some b => f64_max b delivered
                                   | None => delivered
                                   end) |> in
    if improving && paying then (observe (j <| stalled := 0 |>), Congested converging)
    else
      let j := j <| stalled := u8_saturating_add (stalled j) 1 |> in
      if negb paying || (STALL_TICKS <=? stalled j)
      then (end_episode (j <| baseline := Some loss |>), Baseline)
      else (observe j, Congested converging).

(** Consecutive windows, with their verdicts. *)
Fixpoint judge_all (ws : list (f64 * f64)) (j : t) : t * list Verdict :=
  match ws with
  | [] => (j, [])
  | (loss, delivered) :: ws' =>
      let '(j1, v) := judge loss delivered j in
      let '(j2, vs) := judge_all ws' j1 in (j2, v :: vs)
  end.

End LossJudge.

(** Loss ratios and delivered rates as the controllers compute them. *)
Definition is_ratio (x : f64) : Prop := f64_fin x /\ units x <= one_unit.
Definition is_congested (v : Verdict) : bool :=
  match v with Congested _ => true | _ => false end.

(** Type invariant of the judge. *)
Record judge_wf (j : LossJudge.t) : Prop := {
  wf_best : forall b, LossJudge.best j = Some b -> is_ratio b;
  wf_delivered : forall b, LossJudge.best_delivered j = Some b -> f64_fin b;
  wf_baseline : forall b, LossJudge.baseline j = Some b -> is_ratio b;
  wf_stalled : 0 <= LossJudge.stalled j < STALL_TICKS;
  wf_fresh : LossJudge.best j = None -> LossJudge.best_delivered j = None /\ LossJudge.stalled j = 0;
}.

Section JudgeProofs.
Import LossJudge.

Lemma threshold_fin : f64_fin LOSS_THRESHOLD.
Proof. f64_const. Qed.
Lemma zero_fin : f64_fin (f64_of_Z 0).
Proof. f64_const. Qed.
Lemma improve_ratio : is_ratio RETREAT_MUST_IMPROVE.
Proof. split; [f64_const|by vm_compute]. Qed.
Lemma deliver_ratio : is_ratio RETREAT_MUST_DELIVER.
Proof. split; [f64_const|by vm_compute]. Qed.

Lemma ratio_min b loss : is_ratio b -> is_ratio loss -> is_ratio (f64_min b loss) /\
  units (f64_min b loss) = Z.min (units b) (units loss).
Proof.
  intros [Hb Hb1] [Hl Hl1]. destruct (f64_min_fin b loss Hb Hl) as [Hf Hu].
  split; [split; [done|lia]|done].
Qed.

(** The threshold above a baseline lies at or above both of its terms. *)
Lemma threshold_sum b :
  is_ratio b ->
  f64_fin (b + LOSS_THRESHOLD)%f64 /\
  units b <= units (b + LOSS_THRESHOLD)%f64 /\
  units LOSS_THRESHOLD <= units (b + LOSS_THRESHOLD)%f64.
Proof.
  intros [Hb Hb1]. destruct (f64_add_units b LOSS_THRESHOLD) as [Hn Hu];
    [apply (proj1 Hb)|apply (proj1 threshold_fin)|apply (proj2 Hb)|apply (proj2 threshold_fin)|].
  pose proof (f64_fin_units b Hb). pose proof (f64_fin_units _ threshold_fin).
  pose proof one_unit_pos.
  assert (units LOSS_THRESHOLD <= one_unit) by (by vm_compute).
  assert (2 * one_unit < inf_units) by (by vm_compute).
  assert (round_units (units b + units LOSS_THRESHOLD) 1 <= 2 * one_unit) as Hup.
  { apply round_units_le; [lia|lia| |lia]. exists 2, 1074. unfold one_unit. split_and!; lia. }
  split; [|split].
  - apply f64_fin_of_lt; [done|lia].
  - rewrite Hu. apply Z.min_glb; [|lia].
    apply round_units_ge; [lia|lia|apply units_representable; [apply (proj1 Hb)|apply (proj2 Hb)]|lia].
  - rewrite Hu. apply Z.min_glb; [|lia].
    apply round_units_ge; [lia|lia|apply units_representable; [apply (proj1 threshold_fin)|apply (proj2 threshold_fin)]|lia].
Qed.

(** The judge after the baseline has followed the loss down. *)
Definition lowered (loss : f64) (j : t) : t :=
  match baseline j with
  | Some b => j <| baseline := Some (f64_min b loss) |>
  | None => j
  end.

Lemma lowered_fields loss j :
  best (lowered loss j) = best j /\ best_delivered (lowered loss j) = best_delivered j /\
  stalled (lowered loss j) = stalled j /\
  baseline (lowered loss j) = (fun b => f64_min b loss) <$> baseline j.
Proof. unfold lowered. destruct (baseline j) eqn:E; simpl; by rewrite ?E. Qed.

Lemma lowered_wf loss j : judge_wf j -> is_ratio loss -> judge_wf (lowered loss j).
Proof.
  intros [Hb Hd Hbl Hs Hf] Hl. destruct (lowered_fields loss j) as (E1 & E2 & E3 & E4).
  split; rewrite ?E1, ?E2, ?E3, ?E4; try done.
  intros b Hb'. destruct (baseline j) as [b0|]; simplify_eq/=. by apply ratio_min; [apply Hbl|].
Qed.

(** A congested window notes its loss and its answers. *)
Definition observed (loss delivered : f64) (stall : Z) (j : t) : t :=
  mk (Some (from_option (fun b => f64_min b loss) loss (best j)))
     (Some (from_option (fun b => f64_max b delivered) delivered (best_delivered j)))
     stall (baseline j).

Definition improving (loss : f64) (j : t) : bool :=
  from_option (fun b => f64_lt loss (b * RETREAT_MUST_IMPROVE)%f64) true (best j).
Definition paying (delivered : f64) (j : t) : bool :=
  from_option (fun b => f64_le (b * RETREAT_MUST_DELIVER)%f64 delivered) true (best_delivered j).
Definition over_threshold (loss : f64) (j : t) : bool :=
  negb (f64_le loss (from_option id (f64_of_Z 0) (baseline (lowered loss j)) + LOSS_THRESHOLD)%f64).

(** The four outcomes of a window. *)
Inductive outcome (loss delivered : f64) (j : t) : t * Verdict -> Prop :=
| outcome_clear :
    over_threshold loss j = false ->
    outcome loss delivered j (end_episode (lowered loss j), Clear)
| outcome_working :
    over_threshold loss j = true -> improving loss j = true -> paying delivered j = true ->
    outcome loss delivered j
      (observed loss delivered 0 (lowered loss j), Congested (bool_decide (is_Some (best j))))
| outcome_stalling :
    over_threshold loss j = true -> improving loss j = false -> paying delivered j = true ->
    u8_saturating_add (stalled j) 1 < STALL_TICKS ->
    outcome loss delivered j
      (observed loss delivered (u8_saturating_add (stalled j) 1) (lowered loss j), Congested false)
| outcome_baseline :
    over_threshold loss j = true ->
    paying delivered j = false \/
      improving loss j = false /\ STALL_TICKS <= u8_saturating_add (stalled j) 1 ->
    outcome loss delivered j (mk None None 0 (Some loss), Baseline).

Lemma judge_outcome loss delivered j : outcome loss delivered j (judge loss delivered j).
Proof.
  unfold judge. change (match baseline j with Some b => _ | None => j end) with (lowered loss j).
  destruct (lowered_fields loss j) as (E1 & E2 & E3 & _).
  assert (forall v, v = f64_le loss
     (from_option id (f64_of_Z 0) (baseline (lowered loss j)) + LOSS_THRESHOLD)%f64 ->
     over_threshold loss j = negb v) as Ho by (by intros ? ->).
  destruct (f64_le loss _); specialize (Ho _ eq_refl); simpl in Ho; [by constructor|].
  pose proof (outcome_working loss delivered j Ho) as Hwork.
  pose proof (outcome_stalling loss delivered j Ho) as Hstall.
  pose proof (outcome_baseline loss delivered j Ho) as Hbase. clear Ho.
  unfold improving, paying in *. destruct (lowered loss j) as [b1 d1 s1 l1]. simpl in *.
  rewrite <- E1, <- E2, <- E3 in *. clear E1 E2 E3.
  destruct b1 as [b|], d1 as [d|]; unfold observed in *; simpl in *.
  all: repeat match goal with
       | |- context [f64_lt ?x ?y] => revert Hwork Hstall Hbase; generalize (f64_lt x y); intros [] Hwork Hstall Hbase; simpl in *
       | |- context [f64_le ?x ?y] => revert Hwork Hstall Hbase; generalize (f64_le x y); intros [] Hwork Hstall Hbase; simpl in *
       end.
  all: try (apply Hwork; reflexivity); try (apply Hbase; left; reflexivity).
  all: destruct (Z.leb_spec STALL_TICKS (u8_saturating_add s1 1)).
  all: try (apply Hbase; right; split; [reflexivity|assumption]).
  all: apply Hstall; [reflexivity..|assumption].
Qed.

(** ** The type invariant *)

Lemma fresh_wf b : (forall l, b = Some l -> is_ratio l) -> judge_wf (mk None None 0 b).
Proof. intros Hb. by split. Qed.

Lemma observed_wf loss delivered stall j :
  judge_wf j -> is_ratio loss -> f64_fin delivered -> 0 <= stall < STALL_TICKS ->
  judge_wf (observed loss delivered stall j).
Proof.
  intros [Hb Hd Hbl _ _] Hl Hdv Hs. split; simpl; [| |exact Hbl|exact Hs|discriminate].
  - intros b [= <-]. destruct (best j) as [b|]; simpl; [|exact Hl].
    exact (proj1 (ratio_min b loss (Hb b eq_refl) Hl)).
  - intros b [= <-]. destruct (best_delivered j) as [b|]; simpl; [|exact Hdv].
    exact (proj1 (f64_max_fin b delivered (Hd b eq_refl) Hdv)).
Qed.

Lemma judge_preserves loss delivered j :
  judge_wf j -> is_ratio loss -> f64_fin delivered -> judge_wf (judge loss delivered j).1.
Proof.
  intros Hj Hl Hd. pose proof (lowered_wf loss j Hj Hl) as Hlow. pose proof (wf_stalled j Hj).
  destruct (judge_outcome loss delivered j) as [Ho|Ho Hi Hp|Ho Hi Hp Hs|Ho Hp]; simpl.
  - apply fresh_wf. exact (wf_baseline _ Hlow).
  - apply observed_wf; [exact Hlow|exact Hl|exact Hd|vm_compute; split; [discriminate|reflexivity]].
  - apply observed_wf; [exact Hlow|exact Hl|exact Hd|].
    unfold u8_saturating_add, STALL_TICKS in *. lia.
  - apply fresh_wf. intros l [= <-]. exact Hl.
Qed.

(** The baseline, or zero. *)
Definition bar (j : t) : f64 := from_option id (f64_of_Z 0) (baseline j).

Lemma bar_ratio j : judge_wf j -> is_ratio (bar j).
Proof.
  intros Hj. unfold bar. destruct (baseline j) as [b|] eqn:E; simpl; [exact (wf_baseline j Hj b E)|].
  split; [exact zero_fin|vm_compute; discriminate].
Qed.

Lemma over_threshold_units loss j :
  judge_wf j -> is_ratio loss ->
  over_threshold loss j = (units (bar (lowered loss j) + LOSS_THRESHOLD)%f64 <? units loss).
Proof.
  intros Hj Hl. pose proof (bar_ratio _ (lowered_wf loss j Hj Hl)) as Hb.
  unfold over_threshold. fold (bar (lowered loss j)).
  generalize (proj1 (threshold_sum _ Hb)). generalize (bar (lowered loss j) + LOSS_THRESHOLD)%f64.
  intros x Hx. rewrite f64_le_fin by (exact Hx || exact (proj1 Hl)). by rewrite Z.ltb_antisym.
Qed.

Lemma over_threshold_loss loss j :
  judge_wf j -> is_ratio loss -> over_threshold loss j = true ->
  units LOSS_THRESHOLD < units loss.
Proof.
  intros Hj Hl Ho. rewrite over_threshold_units in Ho by assumption. apply Z.ltb_lt in Ho.
  pose proof (threshold_sum _ (bar_ratio _ (lowered_wf loss j Hj Hl))) as (_ & _ & Hle).
  exact (Z.le_lt_trans _ _ _ Hle Ho).
Qed.

(** Improving means at least one percent below the best. *)
Lemma improving_units loss b :
  is_ratio loss -> is_ratio b ->
  f64_lt loss (b * RETREAT_MUST_IMPROVE)%f64 = (units loss <? units (b * RETREAT_MUST_IMPROVE)%f64).
Proof.
  intros Hl Hb. apply f64_lt_fin; [exact (proj1 Hl)|].
  exact (proj1 (f64_mul_le_l b _ (proj1 Hb) (proj1 improve_ratio) (proj2 improve_ratio))).
Qed.

(** ** Every congestion episode ends *)

(** The highest best loss possible after [k] improvements, starting from one. *)
Fixpoint level (k : nat) : f64 :=
  match k with O => f64_of_Z 1 | S k => (level k * RETREAT_MUST_IMPROVE)%f64 end.

Definition MAX_IMPROVEMENTS : nat := 389.

Lemma level_fin k : f64_fin (level k).
Proof.
  induction k as [|k IH]; [f64_const|].
  exact (proj1 (f64_mul_le_l _ _ IH (proj1 improve_ratio) (proj2 improve_ratio))).
Qed.

Lemma level_mono k n : (k <= n)%nat -> units (level n) <= units (level k).
Proof.
  induction 1 as [|n Hn IH]; [lia|]. etransitivity; [|exact IH].
  exact (proj2 (f64_mul_le_l _ _ (level_fin n) (proj1 improve_ratio) (proj2 improve_ratio))).
Qed.

Lemma level_exhausted : units (level (S MAX_IMPROVEMENTS)) <= units LOSS_THRESHOLD.
Proof. vm_compute. discriminate. Qed.

(** Windows a running episode still has after [k] improvements and [stalled] flat windows. *)
Definition windows_left (k : nat) (stall : Z) : Z :=
  2 * (Z.of_nat MAX_IMPROVEMENTS - Z.of_nat k) + (1 - stall).

Definition window_ok (w : f64 * f64) : Prop := is_ratio w.1 /\ f64_fin w.2.

Lemma judge_all_cons loss delivered ws j :
  judge_all ((loss, delivered) :: ws) j =
  ((judge_all ws (judge loss delivered j).1).1,
   (judge loss delivered j).2 :: (judge_all ws (judge loss delivered j).1).2).
Proof.
  cbn [judge_all]. destruct (judge loss delivered j) as [j1 v]. cbn [fst snd].
  by destruct (judge_all ws j1).
Qed.

(** A congested window inside an episode improves by a percent or stalls. *)
Lemma congested_progress k loss delivered j b :
  judge_wf j -> window_ok (loss, delivered) -> best j = Some b -> units b <= units (level k) ->
  is_congested (judge loss delivered j).2 = true ->
  let j' := (judge loss delivered j).1 in
  exists b', best j' = Some b' /\
    ((k < MAX_IMPROVEMENTS)%nat /\ units b' <= units (level (S k)) /\ stalled j' = 0 \/
     units b' <= units (level k) /\ stalled j = 0 /\ stalled j' = 1).
Proof.
  intros Hj [Hl Hd] Eb Hk. simpl fst in Hl. simpl snd in Hd.
  pose proof (wf_best j Hj b Eb) as Hb. pose proof (wf_stalled j Hj) as Hs0.
  pose proof (ratio_min b loss Hb Hl) as [_ Hmin].
  destruct (lowered_fields loss j) as (E1 & _ & _ & _).
  destruct (judge_outcome loss delivered j) as [Ho|Ho Hi Hp|Ho Hi Hp Hs|Ho Hp];
    simpl is_congested; intros Hc; try discriminate; cbn [fst]; unfold observed; cbn [best stalled];
    rewrite E1, Eb; cbn [from_option].
  all: eexists; split; [reflexivity|]; rewrite Hmin.
  - left. unfold improving in Hi. rewrite Eb in Hi. cbn [from_option] in Hi.
    rewrite improving_units in Hi by assumption. apply Z.ltb_lt in Hi.
    pose proof (over_threshold_loss loss j Hj Hl Ho) as Hgt.
    assert (units (b * RETREAT_MUST_IMPROVE)%f64 <= units (level (S k))) as Hlvl.
    { cbn [level].
      exact (f64_mul_mono _ _ _ _ (proj1 Hb) (level_fin k) (proj1 improve_ratio)
               (proj1 improve_ratio) Hk (Z.le_refl _)). }
    split; [|split; [|reflexivity]].
    + destruct (Nat.lt_ge_cases k MAX_IMPROVEMENTS) as [|Hge]; [assumption|exfalso].
      apply le_n_S in Hge. apply level_mono in Hge. pose proof level_exhausted as Hex.
      generalize dependent (units (level (S MAX_IMPROVEMENTS))).
      generalize dependent (units (level (S k))). generalize dependent (units LOSS_THRESHOLD).
      generalize dependent (units (b * RETREAT_MUST_IMPROVE)%f64). intros. lia.
    + generalize dependent (units (level (S k))).
      generalize dependent (units (b * RETREAT_MUST_IMPROVE)%f64). intros. lia.
  - right. unfold u8_saturating_add, STALL_TICKS in *. split; [|lia].
    generalize dependent (units (level k)). intros. lia.
Qed.

Lemma episode_remaining ws : forall k j b,
  judge_wf j -> best j = Some b -> units b <= units (level k) -> (k <= MAX_IMPROVEMENTS)%nat ->
  Forall window_ok ws -> Forall (fun v => is_congested v = true) (judge_all ws j).2 ->
  Z.of_nat (length ws) <= windows_left k (stalled j).
Proof.
  induction ws as [|[loss delivered] ws IH]; intros k j b Hj Eb Hb Hk Hws Hv.
  { pose proof (wf_stalled j Hj). unfold windows_left, STALL_TICKS in *. simpl length. lia. }
  rewrite judge_all_cons in Hv. cbn [snd] in Hv. apply Forall_cons in Hv as [Hc Hv].
  apply Forall_cons in Hws as [Hw Hws].
  destruct (congested_progress k loss delivered j b Hj Hw Eb Hb Hc) as (b' & Eb' & Hp).
  pose proof (judge_preserves loss delivered j Hj (proj1 Hw) (proj2 Hw)) as Hj'.
  pose proof (wf_stalled j Hj) as Hs. unfold windows_left, STALL_TICKS in *. simpl length.
  destruct Hp as [(Hlt & Hb' & Hs')|(Hb' & Hs0 & Hs')].
  - specialize (IH (S k) _ b' Hj' Eb' Hb' Hlt Hws Hv). rewrite Hs' in IH. lia.
  - specialize (IH k _ b' Hj' Eb' Hb' Hk Hws Hv). rewrite Hs' in IH. lia.
Qed.

Lemma episode_length ws j :
  judge_wf j -> best j = None -> Forall window_ok ws ->
  Forall (fun v => is_congested v = true) (judge_all ws j).2 -> (length ws <= 780)%nat.
Proof.
  intros Hj En Hws Hv. destruct ws as [|[loss delivered] ws]; [simpl; lia|].
  rewrite judge_all_cons in Hv. cbn [snd] in Hv. apply Forall_cons in Hv as [Hc Hv].
  apply Forall_cons in Hws as [[Hl Hd] Hws]. cbn [fst snd] in Hl, Hd.
  pose proof (judge_preserves loss delivered j Hj Hl Hd) as Hj'.
  assert (exists b, best (judge loss delivered j).1 = Some b /\ units b <= units (level 0)) as (b & Eb & Hb).
  { destruct (lowered_fields loss j) as (E1 & _ & _ & _).
    destruct (judge_outcome loss delivered j); try discriminate Hc; cbn [fst]; unfold observed;
      cbn [best]; rewrite E1, En; exists loss; (split; [reflexivity|exact (proj2 Hl)]). }
  pose proof (episode_remaining ws 0 _ b Hj' Eb Hb ltac:(lia) Hws Hv) as Hlen.
  pose proof (wf_stalled _ Hj'). unfold windows_left, MAX_IMPROVEMENTS in Hlen. simpl length. lia.
Qed.

(** ** Fixed-share loss *)

Lemma over_threshold_antitone loss j1 j2 :
  judge_wf j1 -> judge_wf j2 -> is_ratio loss ->
  units (bar (lowered loss j2)) <= units (bar (lowered loss j1)) ->
  over_threshold loss j1 = true -> over_threshold loss j2 = true.
Proof.
  intros H1 H2 Hl Hle Ho. rewrite over_threshold_units in * by assumption.
  apply Z.ltb_lt in Ho. apply Z.ltb_lt.
  pose proof (bar_ratio _ (lowered_wf loss j1 H1 Hl)) as Hb1.
  pose proof (bar_ratio _ (lowered_wf loss j2 H2 Hl)) as Hb2.
  eapply Z.le_lt_trans; [|exact Ho].
  exact (f64_add_mono _ _ _ _ (proj1 Hb2) (proj1 Hb1) threshold_fin threshold_fin Hle (Z.le_refl _)).
Qed.

Lemma bar_lowered loss j :
  judge_wf j -> is_ratio loss ->
  units (bar (lowered loss j)) = from_option (fun b => Z.min (units b) (units loss)) 0 (baseline j).
Proof.
  intros Hj Hl. destruct (lowered_fields loss j) as (_ & _ & _ & E). unfold bar. rewrite E.
  destruct (baseline j) as [b|] eqn:Eb; simpl; [|reflexivity].
  exact (proj2 (ratio_min b loss (wf_baseline j Hj b Eb) Hl)).
Qed.

Lemma bar_lowers loss j :
  judge_wf j -> is_ratio loss -> units (bar (lowered loss j)) <= units (bar j).
Proof.
  intros Hj Hl. rewrite bar_lowered by assumption. unfold bar.
  destruct (baseline j) as [b|]; simpl; [lia|reflexivity].
Qed.

(** Seeing the same loss again is no improvement. *)
Lemma same_loss_flat loss j :
  is_ratio loss -> (exists b, best j = Some b /\ units b <= units loss /\ is_ratio b) ->
  improving loss j = false.
Proof.
  intros Hl (b & Eb & Hle & Hb). unfold improving. rewrite Eb. cbn [from_option].
  rewrite improving_units by assumption. apply Z.ltb_ge. etransitivity; [|exact Hle].
  exact (proj2 (f64_mul_le_l b _ (proj1 Hb) (proj1 improve_ratio) (proj2 improve_ratio))).
Qed.

(** After a congested window the same loss is still over the threshold and flat. *)
Lemma congested_again loss d j c :
  judge_wf j -> is_ratio loss -> f64_fin d -> judge loss d j = ((judge loss d j).1, Congested c) ->
  let j' := (judge loss d j).1 in
  over_threshold loss j' = true /\ improving loss j' = false.
Proof.
  intros Hj Hl Hd Hc. pose proof (judge_preserves loss d j Hj Hl Hd) as Hj'.
  pose proof (lowered_wf loss j Hj Hl) as Hlow.
  destruct (judge_outcome loss d j) as [Ho|Ho _ _|Ho _ _ Hs|Ho _]; try discriminate Hc; cbn [fst] in *.
  all: split;
    [ eapply (over_threshold_antitone loss j); [exact Hj|exact Hj'|exact Hl| |exact Ho];
      exact (bar_lowers loss _ Hj' Hl)
    | apply same_loss_flat; [exact Hl|]; unfold observed; cbn [best];
      destruct (best (lowered loss j)) as [b|] eqn:Eb; simpl; (eexists; split; [reflexivity|]);
      [ destruct (ratio_min b loss (wf_best _ Hlow b Eb) Hl) as [Hr Hm]; split; [rewrite Hm; lia|exact Hr]
      | split; [lia|exact Hl] ] ].
Qed.

(** A flat window over the threshold either is the second in a row or settles. *)
Lemma flat_window loss d j :
  judge_wf j -> over_threshold loss j = true -> improving loss j = false ->
  (judge loss d j).2 = Baseline \/
  stalled j = 0 /\ (judge loss d j).2 = Congested false /\ stalled (judge loss d j).1 = 1.
Proof.
  intros Hj Ho Hi. pose proof (wf_stalled j Hj). unfold u8_saturating_add, STALL_TICKS in *.
  destruct (judge_outcome loss d j) as [Ho'|Ho' Hi' Hp|Ho' Hi' Hp Hs|Ho' Hp]; cbn [fst snd].
  - congruence.
  - congruence.
  - right. unfold u8_saturating_add, STALL_TICKS, observed in *. cbn [stalled]. split_and!; [lia|reflexivity|lia].
  - by left.
Qed.

(** ** Properties *)

(** C22: every congestion episode ends.  Whatever losses and rates the windows show,
    and from any state of the judge, at most 780 windows in a row are congested:
    each one lowers the best loss by a percent or spends a stall, and loss at or
    under two percent is never congestion.  So a rate cannot be walked down for ever. *)
Theorem episode_bounded ws j :
  judge_wf j -> Forall window_ok ws -> (780 < length ws)%nat ->
  Exists (fun v => is_congested v = false) (judge_all ws j).2.
Proof.
  intros Hj Hws Hlen.
  assert (forall v, {is_congested v = true} + {is_congested v = false}) as Hdec
    by (intros v; destruct (is_congested v); auto).
  destruct (Forall_Exists_dec _ _ Hdec (judge_all ws j).2) as [Hall|Hnot]; [exfalso|exact Hnot].
  destruct (best j) as [b|] eqn:Eb.
  - pose proof (wf_stalled j Hj).
    pose proof (episode_remaining ws 0 j b Hj Eb (proj2 (wf_best j Hj b Eb)) ltac:(lia) Hws Hall) as Hr.
    unfold windows_left, MAX_IMPROVEMENTS in Hr. lia.
  - pose proof (episode_length ws j Hj Eb Hws Hall). lia.
Qed.

(** A [Baseline] verdict raises the bar to the loss seen, so the same or a lower
    loss is clear from then on and the episode is over. *)
Theorem baseline_settles loss d loss' d' j j' :
  judge_wf j -> is_ratio loss -> is_ratio loss' -> f64_fin d ->
  judge loss d j = (j', Baseline) -> units loss' <= units loss ->
  best j' = None /\ baseline j' = Some loss /\ (judge loss' d' j').2 = Clear.
Proof.
  intros Hj Hl Hl' Hd HB Hle. pose proof (judge_preserves loss d j Hj Hl Hd) as Hj'.
  rewrite HB in Hj'. cbn [fst] in Hj'.
  pose proof (judge_outcome loss d j) as Hout. rewrite HB in Hout. inversion Hout; subst; clear Hout.
  split; [reflexivity|split; [reflexivity|]].
  assert (over_threshold loss' (mk None None 0 (Some loss)) = false) as Hno.
  { rewrite over_threshold_units by assumption. apply Z.ltb_ge.
    pose proof (threshold_sum _ (bar_ratio _ (lowered_wf loss' _ Hj' Hl'))) as (_ & Hge & _).
    etransitivity; [|exact Hge]. rewrite bar_lowered by assumption. simpl. lia. }
  by destruct (judge_outcome loss' d' (mk None None 0 (Some loss))); [|congruence..].
Qed.

(** Only a stall raises the baseline.  After any window the baseline is at most
    the loss seen; it never appears or rises except by a [Baseline] verdict, which
    sets it to that loss. *)
Theorem baseline_follows_loss loss d j :
  judge_wf j -> is_ratio loss ->
  match baseline (judge loss d j).1 with
  | None => baseline j = None
  | Some b' =>
      units b' <= units loss /\
      ((judge loss d j).2 = Baseline \/ exists b, baseline j = Some b /\ units b' <= units b)
  end.
Proof.
  intros Hj Hl. destruct (lowered_fields loss j) as (_ & _ & _ & E).
  destruct (judge_outcome loss d j); cbn [fst snd]; unfold observed, end_episode; simpl; rewrite ?E.
  4: split; [lia|by left].
  all: destruct (baseline j) as [b|] eqn:Eb; simpl; [|reflexivity].
  all: pose proof (proj2 (ratio_min b loss (wf_baseline j Hj b Eb) Hl)) as Hm;
    split; [rewrite Hm; lia|right; exists b; split; [reflexivity|rewrite Hm; lia]].
Qed.

(** A fixed share of loss costs at most two retreats after the first.  However
    many answers come back, three windows at one loss above the threshold end in a
    [Baseline] verdict on the second or the third. *)
Theorem fixed_loss_settles loss d1 d2 d3 j j1 c :
  judge_wf j -> is_ratio loss -> f64_fin d1 -> f64_fin d2 ->
  judge loss d1 j = (j1, Congested c) ->
  let '(j2, v2) := judge loss d2 j1 in
  v2 = Baseline \/ v2 = Congested false /\ (judge loss d3 j2).2 = Baseline.
Proof.
  intros Hj Hl H1 H2 E1. pose proof (congested_again loss d1 j c Hj Hl H1) as Hagain.
  pose proof (judge_preserves loss d1 j Hj Hl H1) as Hj1. rewrite E1 in *. cbn [fst] in *.
  destruct (Hagain eq_refl) as [Ho Hi].
  pose proof (judge_preserves loss d2 j1 Hj1 Hl H2) as Hj2.
  pose proof (flat_window loss d2 j1 Hj1 Ho Hi) as Hflat.
  pose proof (congested_again loss d2 j1 false Hj1 Hl H2) as Hagain2.
  destruct (judge loss d2 j1) as [j2 v2]. cbn [fst snd] in *.
  destruct Hflat as [->|(_ & -> & Hs)]; [by left|right]. split; [reflexivity|].
  destruct (Hagain2 eq_refl) as [Ho2 Hi2].
  by destruct (flat_window loss d3 j2 Hj2 Ho2 Hi2) as [|(Hs0 & _)]; [|congruence].
Qed.

End JudgeProofs.

(** ** Witnesses and examples *)

Section JudgeExamples.
Import LossJudge.

Definition thirty_percent : f64 := f64_lit 3 10.

Lemma thirty_percent_ratio : is_ratio thirty_percent.
Proof. split; [f64_const|by vm_compute]. Qed.
Lemma hundred_fin : f64_fin (f64_of_Z 100).
Proof. f64_const. Qed.
Lemma fresh_judge_wf : judge_wf fresh.
Proof. apply fresh_wf. discriminate. Qed.

(** Congestion relieved by retreating: loss falls, answers hold, then all is clear. *)
Example converging_episode :
  (judge_all [(f64_lit 3 10, f64_of_Z 100); (f64_lit 2 10, f64_of_Z 98);
              (f64_lit 1 10, f64_of_Z 99); (f64_lit 1 100, f64_of_Z 99)] fresh).2
  = [Congested false; Congested true; Congested true; Clear].
Proof. vm_compute. reflexivity. Qed.

(** A retreat that costs answers is settled at once. *)
Example costly_retreat :
  (judge_all [(f64_lit 3 10, f64_of_Z 100); (f64_lit 2 10, f64_of_Z 80)] fresh).2
  = [Congested false; Baseline].
Proof. vm_compute. reflexivity. Qed.

Lemma episode_bounded_witness :
  Exists (fun v => is_congested v = false)
    (judge_all (replicate 781 (thirty_percent, f64_of_Z 100)) fresh).2.
Proof.
  apply (episode_bounded (replicate 781 (thirty_percent, f64_of_Z 100)) fresh).
  - exact fresh_judge_wf.
  - apply Forall_replicate. split; [exact thirty_percent_ratio|exact hundred_fin].
  - rewrite length_replicate. lia.
Defined.

Definition settled : t := mk None None 0 (Some thirty_percent).

Lemma baseline_settles_witness :
  best settled = None /\ baseline settled = Some thirty_percent /\
  (judge thirty_percent (f64_of_Z 50) settled).2 = Clear.
Proof.
  apply (baseline_settles thirty_percent (f64_of_Z 80) thirty_percent (f64_of_Z 50)
           (mk (Some thirty_percent) (Some (f64_of_Z 100)) 0 None) settled).
  - split; simpl; try discriminate.
    + intros b [= <-]. exact thirty_percent_ratio.
    + intros b [= <-]. exact hundred_fin.
    + vm_compute. split; [discriminate|reflexivity].
  - exact thirty_percent_ratio.
  - exact thirty_percent_ratio.
  - f64_const.
  - vm_compute. reflexivity.
  - reflexivity.
Defined.

Lemma baseline_follows_loss_witness :
  match baseline (judge thirty_percent (f64_of_Z 100) settled).1 with
  | None => baseline settled = None
  | Some b' =>
      units b' <= units thirty_percent /\
      ((judge thirty_percent (f64_of_Z 100) settled).2 = Baseline \/
       exists b, baseline settled = Some b /\ units b' <= units b)
  end.
Proof.
  apply (baseline_follows_loss thirty_percent (f64_of_Z 100) settled).
  - apply fresh_wf. intros l [= <-]. exact thirty_percent_ratio.
  - exact thirty_percent_ratio.
Defined.

Definition once_congested : t := (judge thirty_percent (f64_of_Z 100) fresh).1.

Lemma fixed_loss_settles_witness :
  let '(j2, v2) := judge thirty_percent (f64_of_Z 100) once_congested in
  v2 = Baseline \/
  v2 = Congested false /\ (judge thirty_percent (f64_of_Z 100) j2).2 = Baseline.
Proof.
  apply (fixed_loss_settles thirty_percent (f64_of_Z 100) (f64_of_Z 100) (f64_of_Z 100)
           fresh once_congested false).
  - exact fresh_judge_wf.
  - exact thirty_percent_ratio.
  - exact hundred_fin.
  - exact hundred_fin.
  - vm_compute. reflexivity.
Defined.

End JudgeExamples.
