(* ===== verification/Brake.v ===== *)
(** * The attempt brake: [AttemptBrake] of [controller.rs]

    When per-attempt loss shows a bottleneck the whole pool shares, the brake paces
    attempts.  [tick] is one control tick: it gathers a window, judges it against
    windows measured at clearly lower loads, probes for one when there is none, cuts
    when loss is the rate's doing and grows slowly when it is not.  The brake shares
    the [AttemptPacer] with the dispatch path. *)

From stdpp Require Import list sorting.
From S2P Require Import Prelude Float64 Extern Limiter.

(** Fraction of a discovered edge to operate at. *)
Definition RETREAT : f64 := f64_lit 85 100.

Definition ATTEMPT_WINDOW_TIMEOUTS : f64 := f64_of_Z 4.
Definition ATTEMPT_MIN_WINDOW : Z := 500.
Definition ATTEMPT_IDLE_QPS : f64 := f64_of_Z 20.
Definition ATTEMPT_LOSS_THRESHOLD : f64 := f64_lit 3 100.
Definition ATTEMPT_REFERENCE_BELOW : f64 := f64_lit 6 10.
Definition ATTEMPT_PROBE_FRACTION : f64 := f64_lit 5 10.
Definition ATTEMPT_PROBE_WINDOWS : Z := 2.
Definition ATTEMPT_REFERENCE_WINDOW : Z := from_secs 60.
Definition ATTEMPT_MAX_REFERENCE_WINDOW : Z := from_secs 480.
Definition ATTEMPT_GOODPUT_FLOOR : f64 := f64_lit 8 10.
Definition ATTEMPT_SHAPED_FRACTION : f64 := f64_lit 95 100.
Definition ATTEMPT_MIN_RATE : f64 := f64_of_Z 10.
Definition ATTEMPT_GROWTH : f64 := f64_lit 105 100.

Module Observation.
Record t := mk { attempted : Z; lost : Z; responded : Z }.
#[global] Instance t_settable : Settable t := fun o => mk (attempted o) (lost o) (responded o).
Definition default : t := mk 0 0 0.
End Observation.

(** One judged attempt window. *)
Record Sample := mk_sample { at_ns : Z; s_rate : f64; s_loss : f64; s_delivered : f64 }.

(** A lower rate being measured: the limit to restore and the windows left. *)
Record Probe := mk_probe { restore : option f64; windows : Z }.

Module AttemptBrake.
Section AttemptBrake.
Context {S : Type} `{SemaphoreOps S}.

Record t := mk {
  pacer : AttemptPacer.t S;
  limit : option f64;
  window : Observation.t;
  dispatched : Z;
  seconds : f64;
  unshaped_ticks : Z;
  settling : bool;
  idle_ticks : Z;
  history : list Sample;
  reference_window : Z;
  probe : option Probe;
  probed : bool
}.
#[global] Instance t_settable : Settable t :=
  fun b => mk (pacer b) (limit b) (window b) (dispatched b) (seconds b) (unshaped_ticks b)
              (settling b) (idle_ticks b) (history b) (reference_window b) (probe b) (probed b).

Definition new (p : AttemptPacer.t S) : t :=
  mk p None Observation.default 0 (f64_of_Z 0) 0 true 0 [] ATTEMPT_REFERENCE_WINDOW None false.

Definition set_limit (l : option f64) (b : t) : t :=
  let l := (fun l => f64_max l ATTEMPT_MIN_RATE) <$> l in
  b <| limit := l |> <| pacer := AttemptPacer.set_rate l (pacer b) |> <| settling := true |>.

Definition reset_window (b : t) : t :=
  b <| window := Observation.default |> <| dispatched := 0 |> <| seconds := f64_of_Z 0 |>
    <| unshaped_ticks := 0 |>.

(** Pop samples older than the reference window from the front. *)
Fixpoint expire (now max_age : Z) (h : list Sample) : list Sample :=
  match h with
  | oldest :: h' =>
      if max_age <? duration_since now (at_ns oldest) then expire now max_age h' else h
  | [] => []
  end.

Definition record (now : Z) (rate loss delivered : f64) (b : t) : t :=
  b <| history :=
         expire now (reference_window b) (history b ++ [mk_sample now rate loss delivered]) |>.

(** [sort_by(f64::total_cmp)]: a stable sort by a total order. *)
Definition sort_losses (l : list f64) : list f64 := merge_sort (fun a b => f64_total_le a b) l.

Definition lower_losses (rate : f64) (h : list Sample) : list f64 :=
  s_loss <$> filter (fun s => (s_rate s <=? rate * ATTEMPT_REFERENCE_BELOW)%f64) h.

(** [lower[lower.len() / 2]] of a non-empty vector is in bounds. *)
Definition congested (rate loss : f64) (b : t) : option bool :=
  match sort_losses (lower_losses rate (history b)) with
  | [] => None
  | x :: rest =>
      let reference := nth (length (x :: rest) / 2) (x :: rest) x in
      Some ((loss >? ATTEMPT_LOSS_THRESHOLD)%f64
              && (loss >? reference + ATTEMPT_LOSS_THRESHOLD)%f64)
  end.

Definition abandon_probe (b : t) : t :=
  match probe b with
  | Some p => set_limit (restore p) (b <| probe := None |>)
  | None => b
  end.

(** An idle tick: there is nothing for a probe to measure. *)
Definition idle_tick (b : t) : t :=
  let b := abandon_probe b in
  reset_window (b <| idle_ticks := u32_saturating_add (idle_ticks b) 1 |>).

(** The first busy tick after idle ones. *)
Definition wake (secs : f64) (b : t) : t :=
  if 0 <? idle_ticks b then
    let idle := (secs * f64_of_Z (idle_ticks b))%f64 in
    let b := b <| idle_ticks := 0 |> <| settling := true |> in
    if (idle >=? as_secs_f64 ATTEMPT_REFERENCE_WINDOW)%f64
    then set_limit None
           (b <| history := [] |> <| reference_window := ATTEMPT_REFERENCE_WINDOW |>
              <| probed := false |>)
    else b
  else b.

Definition accumulate (secs : f64) (attempted lost responded : Z) (b : t) : t :=
  let w := window b in
  let b := b <| window := w <| Observation.lost := u64_add (Observation.lost w) lost |>
                            <| Observation.responded := u64_add (Observation.responded w) responded |> |>
             <| dispatched := u64_add (dispatched b) attempted |>
             <| seconds := (seconds b + secs)%f64 |> in
  if AttemptPacer.waiting (pacer b) =? 0
  then b <| unshaped_ticks := u32_add (unshaped_ticks b) 1 |> else b.

(** A probe's window was measured. *)
Definition measure_probe (now : Z) (rate loss delivered : f64) (p : Probe) (b : t) : t :=
  let b := record now rate loss delivered (b <| probe := None |>) in
  if 1 <? windows p then b <| probe := Some (mk_probe (restore p) (windows p - 1)) |>
  else (set_limit (restore p) b) <| probed := true |>.

(** Judge a window measured at [rate]. *)
Definition decide_window (now : Z) (rate loss delivered : f64) (b : t) : t :=
  let best_higher :=
    fold_left f64_max (s_delivered <$> filter (fun s => (s_rate s >? rate)%f64) (history b))
      (f64_of_Z 0) in
  let b := record now rate loss delivered b in
  match congested rate loss b with
  | None =>
      set_limit (Some (rate * ATTEMPT_PROBE_FRACTION)%f64)
        (b <| probe := Some (mk_probe (limit b) ATTEMPT_PROBE_WINDOWS) |>)
  | Some is_congested =>
      let was_probed := probed b in
      let b := b <| probed := false |> in
      let b := if was_probed && negb is_congested
               then b <| reference_window :=
                      Z.min (reference_window b * 2) ATTEMPT_MAX_REFERENCE_WINDOW |>
               else b in
      if is_congested then
        let b := b <| reference_window := ATTEMPT_REFERENCE_WINDOW |> in
        if (delivered <? best_higher * ATTEMPT_GOODPUT_FLOOR)%f64 then b
        else set_limit (Some (rate * RETREAT)%f64) b
      else match limit b with
           | Some l => set_limit (Some (l * ATTEMPT_GROWTH)%f64) b
           | None => b
           end
  end.

(** The window is long and full enough: measure it and start the next. *)
Definition close_window (now : Z) (b : t) : t :=
  let finished := u64_add (Observation.lost (window b)) (Observation.responded (window b)) in
  let loss := (f64_of_Z (Observation.lost (window b)) / f64_of_Z finished)%f64 in
  let rate := (f64_of_Z (dispatched b) / seconds b)%f64 in
  let delivered := (f64_of_Z (Observation.responded (window b)) / seconds b)%f64 in
  let shaped := match limit b with
                | None => true
                | Some l => (unshaped_ticks b =? 0) || (rate >=? l * ATTEMPT_SHAPED_FRACTION)%f64
                end in
  let b := reset_window b in
  let was_settling := settling b in
  let b := b <| settling := false |> in
  if was_settling then b
  else
    let rate := from_option id rate (limit b) in
    match probe b with
    | Some p => measure_probe now rate loss delivered p b
    | None =>
        if (match limit b with Some _ => true | None => false end) && negb shaped
        then if bool_decide (congested rate loss b <> Some true) then set_limit None b else b
        else decide_window now rate loss delivered b
    end.

Definition window_full (longest_timeout : f64) (b : t) : bool :=
  let finished := u64_add (Observation.lost (window b)) (Observation.responded (window b)) in
  negb ((finished <? ATTEMPT_MIN_WINDOW)
          || (seconds b <? longest_timeout * ATTEMPT_WINDOW_TIMEOUTS)%f64).

Definition tick (secs : f64) (attempted lost responded : Z) (longest_timeout : f64) (now : Z)
    (b : t) : t :=
  if (f64_of_Z attempted <? ATTEMPT_IDLE_QPS * secs)%f64 then idle_tick b
  else
    let b := accumulate secs attempted lost responded (wake secs b) in
    if window_full longest_timeout b then close_window now b else b.

End AttemptBrake.
Arguments t S : clear implicits.
End AttemptBrake.

(** ** Steps of the whole program that touch the brake *)

Section BrakeSteps.
Import AttemptBrake.
Context {S : Type} `{SemaphoreOps S}.

(** A control tick, the controller noting that another brake moved the rate or
    releasing the limit, and traffic, which moves the pacer but not its rate. *)
Inductive brake_step : t S -> t S -> Prop :=
| step_tick b secs attempted lost responded longest now :
    brake_step b (tick secs attempted lost responded longest now b)
| step_settle b : brake_step b (b <| settling := true |>)
| step_release b : brake_step b (set_limit None b)
| step_traffic b p' :
    AttemptPacer.rate p' = AttemptPacer.rate (pacer b) -> brake_step b (b <| pacer := p' |>).

Definition brake_initial (b : t S) : Prop :=
  exists p, AttemptPacer.rate p = None /\ b = new p.

(** A rate at or above the floor (and not NaN). *)
Definition at_floor (l : option f64) : Prop :=
  forall x, l = Some x -> is_nan x = false /\ f64_lt x ATTEMPT_MIN_RATE = false.

Definition is_reference_window (w : Z) : Prop :=
  w = from_secs 60 \/ w = from_secs 120 \/ w = from_secs 240 \/ w = from_secs 480.

Record brake_wf (b : t S) : Prop := {
  wf_sync : AttemptPacer.rate (pacer b) = limit b;
  wf_floor : at_floor (limit b);
  wf_probe : forall p, probe b = Some p -> at_floor (restore p) /\ 1 <= windows p <= 2;
  wf_idle : 0 <= idle_ticks b /\ (0 < idle_ticks b -> probe b = None);
  wf_reference : is_reference_window (reference_window b);
}.

(** Windows judged one after the other, with the clock, loss and delivered rate of
    each, at the limit in force. *)
Fixpoint decide_all (ws : list (Z * f64 * f64)) (unlimited : f64) (b : t S) : t S :=
  match ws with
  | [] => b
  | (now, loss, delivered) :: ws' =>
      decide_all ws' unlimited
        (decide_window now (from_option id unlimited (limit b)) loss delivered b)
  end.

End BrakeSteps.

Section BrakeProofs.
Import AttemptBrake.
Context {S : Type} `{SemaphoreOps S}.
Implicit Types b : t S.

Lemma floor_max x : is_nan (f64_max x ATTEMPT_MIN_RATE) = false /\
                    f64_lt (f64_max x ATTEMPT_MIN_RATE) ATTEMPT_MIN_RATE = false.
Proof.
  unfold f64_max. change (is_nan ATTEMPT_MIN_RATE) with false.
  destruct (is_nan x) eqn:En; [split; vm_compute; reflexivity|].
  destruct (f64_lt x ATTEMPT_MIN_RATE) eqn:El; [split; vm_compute; reflexivity|split; assumption].
Qed.

Lemma floor_max_id x :
  is_nan x = false -> f64_lt x ATTEMPT_MIN_RATE = false -> f64_max x ATTEMPT_MIN_RATE = x.
Proof.
  intros En El. unfold f64_max. rewrite En, El. by change (is_nan ATTEMPT_MIN_RATE) with false.
Qed.

Lemma at_floor_max l : at_floor ((fun l => f64_max l ATTEMPT_MIN_RATE) <$> l).
Proof. intros x Hx. apply fmap_Some in Hx as (y & _ & ->). apply floor_max. Qed.

Lemma at_floor_id l : at_floor l -> (fun l => f64_max l ATTEMPT_MIN_RATE) <$> l = l.
Proof.
  intros Hl. destruct l as [x|]; [|reflexivity]. simpl. f_equal.
  destruct (Hl x eq_refl). by apply floor_max_id.
Qed.

Lemma at_floor_none : at_floor None.
Proof. discriminate. Qed.

Lemma set_limit_wf l b :
  brake_wf b -> brake_wf (set_limit l b).
Proof. intros []. split; simpl; auto using at_floor_max. Qed.

Lemma wf_no_probe b : brake_wf b -> brake_wf (b <| probe := None |>).
Proof. intros [? ? ? [? ?] ?]. split; simpl; auto. discriminate. Qed.

Lemma reset_window_wf b : brake_wf b -> brake_wf (reset_window b).
Proof. intros []. by split. Qed.

Lemma record_wf now rate loss delivered b :
  brake_wf b -> brake_wf (record now rate loss delivered b).
Proof. intros []. by split. Qed.

Lemma abandon_probe_wf b :
  brake_wf b -> brake_wf (abandon_probe b) /\ probe (abandon_probe b) = None.
Proof.
  intros Hb. unfold abandon_probe. destruct (probe b) as [p|] eqn:E; [|done]. split; [|done].
  by apply set_limit_wf, wf_no_probe.
Qed.

Lemma idle_tick_wf b : brake_wf b -> brake_wf (idle_tick b).
Proof.
  intros Hb. destruct (abandon_probe_wf b Hb) as [[? ? ? [? ?] ?] Hp].
  unfold idle_tick. apply reset_window_wf. split; simpl; auto. split; [|auto].
  unfold u32_saturating_add, u32_modulus. lia.
Qed.

Lemma wake_wf secs b : brake_wf b -> brake_wf (wake secs b).
Proof.
  intros Hb. unfold wake. destruct (0 <? idle_ticks b); [|done].
  destruct (f64_le _ _); [|destruct Hb as [? ? ? [? ?] ?]; split; simpl; auto with lia].
  apply set_limit_wf. destruct Hb as [? ? ? [? ?] ?]. split; simpl; auto with lia.
  by left.
Qed.

Lemma wake_idle secs b : 0 <= idle_ticks b -> idle_ticks (wake secs b) = 0.
Proof.
  intros Hb. unfold wake. destruct (Z.ltb_spec 0 (idle_ticks b)); [|lia].
  by destruct (f64_le _ _).
Qed.

Lemma accumulate_wf secs attempted lost responded b :
  brake_wf b -> brake_wf (accumulate secs attempted lost responded b).
Proof. intros []. unfold accumulate. by destruct (_ =? _). Qed.

Lemma accumulate_idle secs attempted lost responded b :
  idle_ticks (accumulate secs attempted lost responded b) = idle_ticks b.
Proof. unfold accumulate. by destruct (_ =? _). Qed.

Lemma doubled_window w :
  is_reference_window w -> is_reference_window (Z.min (w * 2) ATTEMPT_MAX_REFERENCE_WINDOW).
Proof.
  intros [->|[->|[->| ->]]]; [right; left|do 2 right; left|do 3 right|do 3 right]; reflexivity.
Qed.

Lemma measure_probe_wf now rate loss delivered p b :
  brake_wf b -> idle_ticks b = 0 -> probe b = Some p ->
  brake_wf (measure_probe now rate loss delivered p b).
Proof.
  intros Hb Hi Ep. pose proof (wf_probe b Hb p Ep) as [Hp Hw]. unfold measure_probe.
  destruct (Z.ltb_spec 1 (windows p)).
  - destruct Hb as [? ? ? [? ?] ?]. split; simpl; auto.
    + intros p' [= <-]. simpl. split; [done|lia].
    + lia.
  - assert (brake_wf (record now rate loss delivered (b <| probe := None |>))) as Hb'
      by (by apply record_wf, wf_no_probe).
    apply (set_limit_wf (restore p)) in Hb' as []. by split.
Qed.

Lemma decide_window_wf now rate loss delivered b :
  brake_wf b -> idle_ticks b = 0 -> brake_wf (decide_window now rate loss delivered b).
Proof.
  intros Hb Hi. unfold decide_window. pose proof (record_wf now rate loss delivered b Hb) as Hr.
  assert (idle_ticks (record now rate loss delivered b) = 0) as Hir by done.
  generalize dependent (record now rate loss delivered b). intros r Hr Hir.
  destruct (congested rate loss r) as [c|].
  2:{ apply set_limit_wf. destruct Hr. split; simpl; auto.
      - intros p [= <-]. simpl. unfold ATTEMPT_PROBE_WINDOWS. split; [done|lia].
      - lia. }
  assert (forall w, is_reference_window w -> brake_wf (r <| probed := false |> <| reference_window := w |>))
    as Hwin by (intros; destruct Hr; by split).
  destruct c.
  - assert (brake_wf ((if probed r && negb true
       then (r <| probed := false |>) <| reference_window :=
              Z.min (reference_window (r <| probed := false |>) * 2) ATTEMPT_MAX_REFERENCE_WINDOW |>
       else r <| probed := false |>) <| reference_window := ATTEMPT_REFERENCE_WINDOW |>)) as Hc.
    { rewrite andb_false_r. apply Hwin. by left. }
    destruct (f64_lt delivered _); [exact Hc|]. by apply set_limit_wf.
  - assert (brake_wf (if probed r && negb false
       then (r <| probed := false |>) <| reference_window :=
              Z.min (reference_window (r <| probed := false |>) * 2) ATTEMPT_MAX_REFERENCE_WINDOW |>
       else r <| probed := false |>)) as Hc.
    { destruct (probed r); simpl; [apply Hwin; simpl; by apply doubled_window, wf_reference|].
      destruct Hr; by split. }
    match goal with |- context [limit ?x] => destruct (limit x) end; [by apply set_limit_wf|done].
Qed.

Lemma close_window_wf now b : brake_wf b -> idle_ticks b = 0 -> brake_wf (close_window now b).
Proof.
  intros Hb Hi. unfold close_window.
  assert (brake_wf ((reset_window b) <| settling := false |>)) as Hr by (destruct Hb; by split).
  destruct (settling (reset_window b)); [done|].
  destruct (probe _) as [p|] eqn:Ep; [by apply measure_probe_wf|].
  destruct (_ && _); [|by apply decide_window_wf].
  case_bool_decide; [by apply set_limit_wf|done].
Qed.

Lemma tick_wf secs attempted lost responded longest now b :
  brake_wf b -> brake_wf (tick secs attempted lost responded longest now b).
Proof.
  intros Hb. unfold tick. destruct (f64_lt _ _); [by apply idle_tick_wf|].
  pose proof (accumulate_wf secs attempted lost responded _ (wake_wf secs b Hb)) as Ha.
  destruct (window_full _ _); [|done]. apply close_window_wf; [done|].
  rewrite accumulate_idle. apply wake_idle, wf_idle, Hb.
Qed.

Lemma brake_step_wf b b' : brake_step b b' -> brake_wf b -> brake_wf b'.
Proof.
  intros [] Hb; [by apply tick_wf|destruct Hb; by split|by apply set_limit_wf|].
  destruct Hb as [Hs ? ? ? ?]. split; simpl; auto. congruence.
Qed.

Lemma brake_initial_wf b : brake_initial b -> brake_wf b.
Proof.
  intros (p & Hp & ->). split; simpl; [done|apply at_floor_none|discriminate|lia|].
  by left.
Qed.

End BrakeProofs.

(** ** Sorting, medians and expiry: lemmas *)

Section BrakeLists.
Import AttemptBrake.

(** In a sorted list, the element at index [k] has [k] elements before it that are
    at most it, and everything after it is at least it. *)
Lemma sorted_rank {A} (R : relation A) `{!RelDecision R, !Reflexive R} l k m :
  StronglySorted R l -> l !! k = Some m ->
  (k < length (filter (fun x => R x m) l))%nat /\
  (length l <= k + length (filter (fun x => R m x) l))%nat.
Proof.
  revert k. induction l as [|x l IH]; intros k Hs Hk; [done|].
  apply StronglySorted_inv in Hs as [Hs Hx].
  destruct k as [|k]; simpl in Hk.
  - injection Hk as ->. rewrite !filter_cons_True by done. simpl. split; [lia|].
    rewrite (filter_all (R m)) by done. lia.
  - destruct (IH k Hs Hk) as [H1 H2]. rewrite filter_cons_True by (by eapply (Forall_lookup_1 _ _ _ _ Hx)).
    rewrite filter_cons. split; [simpl; lia|]. simpl. case_decide; simpl; lia.
Qed.

Lemma sort_losses_perm l : sort_losses l ≡ₚ l.
Proof. apply merge_sort_Permutation. Qed.

#[global] Instance total_le_dec : RelDecision (fun a b : f64 => f64_total_le a b).
Proof. exact (fun a b => Is_true_dec (f64_total_le a b)). Defined.

Lemma f64_total_le_refl a : f64_total_le a a.
Proof. by destruct (f64_total_le_total a a). Qed.

Lemma sort_losses_sorted l : StronglySorted (fun a b => f64_total_le a b) (sort_losses l).
Proof. apply (StronglySorted_merge_sort _). Qed.

Definition at_order (s1 s2 : Sample) : Prop := at_ns s1 <= at_ns s2.

Definition recent (now max_age : Z) (s : Sample) : Prop := now - at_ns s <= max_age.
#[global] Instance recent_dec now max_age s : Decision (recent now max_age s).
Proof. unfold recent. apply _. Defined.

Lemma expire_filter now max_age h :
  StronglySorted at_order h -> 0 <= max_age ->
  expire now max_age h = filter (recent now max_age) h.
Proof.
  intros Hs Hm. induction Hs as [|x h Hs IH Hx]; simpl; [done|]. unfold duration_since.
  destruct (Z.ltb_spec max_age (Z.max (now - at_ns x) 0)).
  - rewrite filter_cons_False by (unfold recent; lia). exact IH.
  - rewrite filter_all; [done|]. unfold recent, at_order in *. constructor; [lia|].
    eapply Forall_impl; [exact Hx|]. simpl. lia.
Qed.

End BrakeLists.

(** ** The limit's moves: lemmas *)

Section BrakeLimit.
Import AttemptBrake.
Context {S : Type} `{SemaphoreOps S}.
Implicit Types b : t S.

(** What judging a window does to a standing limit: hold, probe, cut or grow. *)
Lemma decide_limit now loss delivered l b :
  limit b = Some l ->
  let b' := decide_window now l loss delivered b in
  limit b' = Some l \/
  exists c, (c = ATTEMPT_PROBE_FRACTION \/ c = RETREAT \/ c = ATTEMPT_GROWTH) /\
            limit b' = Some (f64_max (l * c)%f64 ATTEMPT_MIN_RATE).
Proof.
  intros Hl. unfold decide_window.
  set (r := record now l loss delivered b). assert (limit r = Some l) as Hr by done.
  destruct (congested l loss r) as [c|].
  2:{ right. exists ATTEMPT_PROBE_FRACTION. split; [by left|done]. }
  set (r1 := r <| probed := false |>).
  assert (limit (if probed r && negb c
                 then r1 <| reference_window :=
                        Z.min (reference_window r1 * 2) ATTEMPT_MAX_REFERENCE_WINDOW |>
                 else r1) = Some l) as Hr1 by (by destruct (probed r && negb c)).
  destruct c.
  - destruct (f64_lt delivered _); [by left|right].
    exists RETREAT. split; [by right; left|done].
  - rewrite Hr1. right. exists ATTEMPT_GROWTH. split; [by do 2 right|done].
Qed.

Lemma min_rate_fin : f64_fin ATTEMPT_MIN_RATE.
Proof. f64_const. Qed.
Lemma growth_fin : f64_fin ATTEMPT_GROWTH.
Proof. f64_const. Qed.
Lemma retreat_fin : f64_fin RETREAT.
Proof. f64_const. Qed.
Lemma retreat_le_one : units RETREAT <= one_unit.
Proof. vm_compute. discriminate. Qed.
Lemma probe_fin : f64_fin ATTEMPT_PROBE_FRACTION.
Proof. f64_const. Qed.

(** [k] growths from [l]. *)
Fixpoint climb (k : nat) (l : f64) : f64 :=
  match k with O => l | Datatypes.S k => climb k (l * ATTEMPT_GROWTH)%f64 end.

Definition above_floor (l : f64) : Prop := f64_fin l /\ units ATTEMPT_MIN_RATE <= units l.

Lemma growth_ge l : f64_fin l -> units l <= units (l * ATTEMPT_GROWTH)%f64.
Proof. intros Hl. apply f64_mul_ge_l; [exact Hl|exact growth_fin|vm_compute; discriminate]. Qed.

Lemma decide_limit_bound now loss delivered l b l' :
  limit b = Some l -> above_floor l -> f64_fin (l * ATTEMPT_GROWTH)%f64 ->
  limit (decide_window now l loss delivered b) = Some l' ->
  above_floor l' /\ units l' <= units (l * ATTEMPT_GROWTH)%f64.
Proof.
  intros Hl [Hf Hge] Hg Hl'. pose proof (growth_ge l Hf) as Hgr.
  destruct (decide_limit now loss delivered l b Hl) as [E|(c & Hc & E)]; rewrite Hl' in E;
    injection E as ->; [by split|].
  assert (f64_fin c /\ units c <= units ATTEMPT_GROWTH) as [Hcf Hcl].
  { destruct Hc as [->|[->| ->]].
    - split; [exact probe_fin|vm_compute; discriminate].
    - split; [exact retreat_fin|vm_compute; discriminate].
    - split; [exact growth_fin|reflexivity].
    }
  pose proof (f64_mul_mono l l c ATTEMPT_GROWTH Hf Hf Hcf growth_fin (Z.le_refl _) Hcl) as Hle.
  pose proof (f64_fin_le_of _ _ Hg (f64_mul_nonneg l c Hf Hcf) Hle) as Hlc.
  destruct (f64_max_fin (l * c)%f64 ATTEMPT_MIN_RATE Hlc min_rate_fin) as [Hm Hu].
  unfold above_floor. rewrite Hu. split; [split; [exact Hm|apply Z.le_max_r]|].
  apply Z.max_lub; [exact Hle|]. etransitivity; [exact Hge|exact Hgr].
Qed.

Lemma climb_mono k : forall l1 l2,
  f64_fin l1 -> f64_fin l2 -> units l1 <= units l2 -> f64_fin (climb k l2) ->
  (forall j, (j <= k)%nat -> f64_fin (climb j l2)) ->
  (forall j, (j <= k)%nat -> f64_fin (climb j l1)) /\ units (climb k l1) <= units (climb k l2).
Proof.
  induction k as [|k IH]; intros l1 l2 H1 H2 Hle Hk Hall; simpl.
  - split; [|exact Hle]. intros j Hj. by replace j with O by lia.
  - pose proof (Hall 1%nat ltac:(lia)) as Hg2. simpl in Hg2.
    pose proof (f64_mul_mono l1 l2 _ _ H1 H2 growth_fin growth_fin Hle (Z.le_refl _)) as Hm.
    pose proof (f64_fin_le_of _ _ Hg2 (f64_mul_nonneg l1 _ H1 growth_fin) Hm) as Hg1.
    destruct (IH _ _ Hg1 Hg2 Hm Hk) as [IH1 IH2].
    { intros j Hj. apply (Hall (Datatypes.S j)). lia. }
    split; [|exact IH2]. intros [|j] Hj; [exact H1|]. apply IH1. lia.
Qed.

(** Judging [n] windows climbs at most [n] growths. *)
Lemma decide_all_bound ws unlimited : forall b l l',
  limit b = Some l -> above_floor l ->
  (forall j, (j <= length ws)%nat -> f64_fin (climb j l)) ->
  limit (decide_all ws unlimited b) = Some l' -> units l' <= units (climb (length ws) l).
Proof.
  induction ws as [|[[now loss] delivered] ws IH]; intros b l l' Hl Hf Hall Hl'; simpl in *.
  { rewrite Hl in Hl'. by injection Hl' as ->. }
  rewrite Hl in Hl'. simpl in Hl'. pose proof (Hall 1%nat ltac:(lia)) as Hg. simpl in Hg.
  assert (exists m, limit (decide_window now l loss delivered b) = Some m) as [m Hm].
  { destruct (decide_limit now loss delivered l b Hl) as [E|(c & _ & E)]; eauto. }
  destruct (decide_limit_bound now loss delivered l b m Hl Hf Hg Hm) as [Hmf Hmle].
  destruct (climb_mono (length ws) m (l * ATTEMPT_GROWTH)%f64) as [Hcm Hcle].
  - apply Hmf.
  - exact Hg.
  - exact Hmle.
  - apply (Hall (Datatypes.S (length ws))). lia.
  - intros j Hj. apply (Hall (Datatypes.S j)). lia.
  - etransitivity; [|exact Hcle]. exact (IH _ m l' Hm Hmf Hcm Hl').
Qed.

(** Bounds [y * d <= x * n] compose along products. *)
Lemma ratio_step x y y' n d k a :
  0 <= k -> 0 <= d -> y' * a <= y * k -> y * d <= x * n -> y' * (a * d) <= x * (n * k).
Proof. nia. Qed.

Lemma ratio_below x y n d : 0 < x -> 0 <= n -> n < d -> y * d <= x * n -> y < x.
Proof. nia. Qed.

Definition ULP_SCALE : Z := 2 ^ 54 * one_unit.
Definition upper (c : f64) : Z := units c * (2 ^ 54 + 2) + 2 ^ 53.

Lemma mul_upper x c :
  f64_fin x -> f64_fin c -> one_unit <= units x -> units (x * c)%f64 * ULP_SCALE <= units x * upper c.
Proof. apply f64_mul_upper. Qed.

Lemma growth_step x y n d :
  f64_fin x -> 0 < units x -> f64_fin y -> one_unit <= units y -> 0 <= n -> 0 <= d ->
  units y * d <= units x * n -> n * upper ATTEMPT_GROWTH < ULP_SCALE * d ->
  f64_fin (y * ATTEMPT_GROWTH)%f64 /\ one_unit <= units (y * ATTEMPT_GROWTH)%f64 /\
  units (y * ATTEMPT_GROWTH)%f64 < units x /\
  units (y * ATTEMPT_GROWTH)%f64 * (ULP_SCALE * d) <= units x * (n * upper ATTEMPT_GROWTH).
Proof.
  intros Hx Hpos Hy Hone Hn Hd Hb Hlt.
  pose proof (mul_upper y ATTEMPT_GROWTH Hy growth_fin Hone) as Hup.
  assert (0 <= upper ATTEMPT_GROWTH) as Hk by (vm_compute; discriminate).
  pose proof (ratio_step _ _ _ _ _ _ _ Hk Hd Hup Hb) as Hb'.
  pose proof (ratio_below _ _ _ _ Hpos (Z.mul_nonneg_nonneg _ _ Hn Hk) Hlt Hb') as Hbelow.
  split; [|split; [|split; [exact Hbelow|exact Hb']]].
  - apply (f64_fin_le_of x); [exact Hx|exact (f64_mul_nonneg y _ Hy growth_fin)|].
    by apply Z.lt_le_incl.
  - etransitivity; [exact Hone|]. by apply growth_ge.
Qed.

(** Three growths do not make up for one cut: 0.85 * 1.05 ^ 3 < 1, with room for rounding. *)
Lemma three_growths x y k :
  f64_fin x -> 0 < units x -> f64_fin y -> one_unit <= units y ->
  units y * ULP_SCALE <= units x * upper RETREAT -> (k <= 3)%nat ->
  f64_fin (climb k y) /\ units (climb k y) < units x.
Proof.
  intros Hx Hpos Hy Hone Hb Hk.
  assert (0 <= upper RETREAT) as Hr by (vm_compute; discriminate).
  assert (units y < units x) as Hlt by (eapply ratio_below; [exact Hpos|exact Hr| |exact Hb]; by vm_compute).
  destruct k as [|k]; [by split|].
  destruct (growth_step x y (upper RETREAT) ULP_SCALE Hx Hpos Hy Hone Hr ltac:(by vm_compute) Hb ltac:(by vm_compute))
    as (Hf1 & Ho1 & Hl1 & Hb1).
  destruct k as [|k]; [by split|].
  destruct (growth_step x _ (upper RETREAT * upper ATTEMPT_GROWTH) (ULP_SCALE * ULP_SCALE) Hx Hpos Hf1 Ho1 ltac:(by vm_compute) ltac:(by vm_compute) Hb1
              ltac:(by vm_compute)) as (Hf2 & Ho2 & Hl2 & Hb2).
  destruct k as [|k]; [by split|].
  destruct (growth_step x _ (upper RETREAT * upper ATTEMPT_GROWTH * upper ATTEMPT_GROWTH)
              (ULP_SCALE * (ULP_SCALE * ULP_SCALE)) Hx Hpos Hf2 Ho2 ltac:(by vm_compute) ltac:(by vm_compute) Hb2
              ltac:(by vm_compute)) as (Hf3 & Ho3 & Hl3 & Hb3).
  destruct k as [|k]; [by split|lia].
Qed.

End BrakeLimit.

(** ** Properties of the brake *)

Section BrakeProperties.
Import AttemptBrake.
Context {S : Type} `{SemaphoreOps S}.
Implicit Types b : t S.

(** C35: whatever the traffic, the pacer always runs at the brake's limit, the limit is
    never below ten attempts a second (or NaN), nor is the limit a probe will restore,
    a probe has one or two windows left, and references are kept 60, 120, 240 or
    480 seconds. *)
Theorem brake_invariant b0 b :
  brake_initial b0 -> rtc brake_step b0 b ->
  AttemptPacer.rate (pacer b) = limit b /\
  at_floor (limit b) /\
  (forall p, probe b = Some p -> at_floor (restore p) /\ 1 <= windows p <= 2) /\
  is_reference_window (reference_window b).
Proof.
  intros Hi Hs. assert (brake_wf b) as [].
  { apply brake_initial_wf in Hi. clear -Hi Hs. induction Hs; eauto using brake_step_wf. }
  split_and!; auto.
Qed.

Lemma wake_not_idle secs b : idle_ticks b = 0 -> wake secs b = b.
Proof. intros E. unfold wake. by rewrite E. Qed.

Lemma accumulate_fields secs attempted lost responded b :
  let b' := accumulate secs attempted lost responded b in
  limit b' = limit b /\ probe b' = probe b /\ settling b' = settling b /\ history b' = history b /\
  reference_window b' = reference_window b.
Proof. unfold accumulate. by destruct (_ =? _). Qed.

Lemma close_window_settling now b :
  settling b = true -> close_window now b = (reset_window b) <| settling := false |>.
Proof.
  intros E. unfold close_window. cbv zeta. change (settling (reset_window b)) with (settling b).
  by rewrite E.
Qed.

Lemma close_window_probe now b p :
  settling b = false -> probe b = Some p ->
  exists rate loss delivered,
    close_window now b =
    measure_probe now rate loss delivered p ((reset_window b) <| settling := false |>).
Proof.
  intros Es Ep. unfold close_window. cbv zeta. change (settling (reset_window b)) with (settling b).
  rewrite Es. change (probe ((reset_window b) <| settling := false |>)) with (probe b). rewrite Ep.
  by do 3 eexists.
Qed.

Lemma measure_probe_fields now rate loss delivered p b :
  at_floor (restore p) ->
  let b' := measure_probe now rate loss delivered p b in
  if 1 <? windows p
  then limit b' = limit b /\ probe b' = Some (mk_probe (restore p) (windows p - 1))
  else limit b' = restore p /\ probe b' = None.
Proof.
  intros Hf. unfold measure_probe. destruct (1 <? windows p); [done|].
  split; [|done]. exact (at_floor_id _ Hf).
Qed.

Lemma idle_tick_fields b :
  (forall p, probe b = Some p -> at_floor (restore p)) ->
  limit (idle_tick b) = from_option restore (limit b) (probe b) /\ probe (idle_tick b) = None.
Proof.
  intros Hf. unfold idle_tick, abandon_probe. destruct (probe b) as [p|] eqn:E; [|done].
  split; [|done]. exact (at_floor_id _ (Hf p eq_refl)).
Qed.


(** A cut followed by clear windows does not leave the rate higher than before.
    From any limit of at least twelve a second, a window that cuts and up to three
    more windows, whatever they show, leave the limit strictly lower. *)
Theorem retreat_outpaces_growth now loss delivered l ws unlimited l' b :
  limit b = Some l -> f64_fin l -> units (f64_of_Z 12) <= units l ->
  let b1 := decide_window now l loss delivered b in
  limit b1 = Some (f64_max (l * RETREAT)%f64 ATTEMPT_MIN_RATE) -> (length ws <= 3)%nat ->
  limit (decide_all ws unlimited b1) = Some l' -> units l' < units l.
Proof.
  intros Hl Hf H12 b1 Hcut Hlen Hl'.
  assert (f64_fin (f64_of_Z 12)) as H12f by f64_const.
  assert (one_unit <= units (f64_of_Z 12)) as Hu12 by (vm_compute; discriminate).
  assert (units ATTEMPT_MIN_RATE <= units (f64_of_Z 12 * RETREAT)%f64) as Hmin by (vm_compute; discriminate).
  assert (one_unit <= units ATTEMPT_MIN_RATE) as Hu10 by (vm_compute; discriminate).
  destruct (f64_mul_le_l l RETREAT Hf retreat_fin retreat_le_one) as [Hrf _].
  pose proof (f64_mul_mono _ _ _ _ H12f Hf retreat_fin retreat_fin H12 (Z.le_refl _)) as Hm.
  destruct (f64_max_fin _ _ Hrf min_rate_fin) as [Hmaxf Hmaxu].
  assert (units (f64_max (l * RETREAT)%f64 ATTEMPT_MIN_RATE) = units (l * RETREAT)%f64) as Hmax
    by (rewrite Hmaxu; apply Z.max_l; exact (Z.le_trans _ _ _ Hmin Hm)).
  assert (forall k, (k <= 3)%nat -> f64_fin (climb k (f64_max (l * RETREAT)%f64 ATTEMPT_MIN_RATE)) /\
            units (climb k (f64_max (l * RETREAT)%f64 ATTEMPT_MIN_RATE)) < units l) as Hclimb.
  { intros k. pose proof (Z.le_trans _ _ _ Hu12 H12) as Hone.
    apply three_growths; [exact Hf| |exact Hmaxf| |].
    - exact (Z.lt_le_trans _ _ _ one_unit_pos Hone).
    - rewrite Hmax. exact (Z.le_trans _ _ _ Hu10 (Z.le_trans _ _ _ Hmin Hm)).
    - rewrite Hmax. exact (mul_upper l RETREAT Hf retreat_fin Hone). }
  eapply Z.le_lt_trans; [|exact (proj2 (Hclimb (length ws) Hlen))].
  eapply (decide_all_bound ws unlimited b1); [exact Hcut| | |exact Hl'].
  - split; [exact Hmaxf|]. rewrite Hmax. exact (Z.le_trans _ _ _ Hmin Hm).
  - intros j Hj. apply Hclimb. lia.
Qed.

(** Recording keeps exactly the samples inside the reference window.  For windows
    recorded in time order, [record]'s loop that pops the front is the filter that
    keeps the recent ones, with the new sample last. *)
Theorem record_keeps_recent now rate loss delivered b :
  StronglySorted at_order (history b) -> Forall (fun s => at_ns s <= now) (history b) ->
  0 <= reference_window b ->
  let b' := record now rate loss delivered b in
  history b' = filter (recent now (reference_window b)) (history b)
                 ++ [mk_sample now rate loss delivered] /\
  StronglySorted at_order (history b').
Proof.
  intros Hs Hn Hw. simpl.
  assert (StronglySorted at_order (history b ++ [mk_sample now rate loss delivered])) as Hs'.
  { apply StronglySorted_app_2; [|done|by repeat constructor].
    intros x y Hx Hy. apply list_elem_of_singleton in Hy as ->. rewrite Forall_forall in Hn. by apply Hn. }
  rewrite expire_filter by done. split.
  - rewrite filter_app. f_equal. by rewrite filter_cons_True by (unfold recent; simpl; lia).
  - clear Hw Hn. induction Hs' as [|x l Hl IH Hx]; simpl; [constructor|].
    rewrite filter_cons. case_decide; [|done]. constructor; [done|].
    apply Forall_forall. intros y Hy. apply list_elem_of_filter in Hy as [_ Hy].
    rewrite Forall_forall in Hx. by apply Hx.
Qed.

(** A window is judged against the median.  Without a window at a clearly lower
    load there is no verdict; otherwise loss must exceed three percent and exceed by
    three percent a loss measured at such a load with half of the measured losses on
    each side (the upper median). *)
Theorem congested_is_median rate loss b :
  let lower := lower_losses rate (history b) in
  match congested rate loss b with
  | None => lower = []
  | Some verdict =>
      exists m, m ∈ lower /\
        (length lower < 2 * length (filter (fun x => f64_total_le x m) lower))%nat /\
        (length lower <= 2 * length (filter (fun x => f64_total_le m x) lower))%nat /\
        verdict = (f64_lt ATTEMPT_LOSS_THRESHOLD loss &&
                     f64_lt (m + ATTEMPT_LOSS_THRESHOLD)%f64 loss)
  end.
Proof.
  intros lower. unfold congested. fold lower. pose proof (sort_losses_perm lower) as Hp.
  pose proof (sort_losses_sorted lower) as Hs.
  destruct (sort_losses lower) as [|x rest]; [by apply Permutation_nil_l in Hp|].
  set (k := (length (x :: rest) / 2)%nat).
  assert (k < length (x :: rest))%nat as Hk by (apply Nat.div_lt; simpl; lia).
  exists (nth k (x :: rest) x).
  assert ((x :: rest) !! k = Some (nth k (x :: rest) x)) as Hm.
  { destruct (nth_lookup_or_length (x :: rest) k x); [done|lia]. }
  assert (Reflexive (fun x y : f64 => f64_total_le x y)) as Hrefl by exact f64_total_le_refl.
  destruct (sorted_rank (fun x y : f64 => f64_total_le x y) _ _ _ Hs Hm) as [H1 H2].
  unfold decide_rel, total_le_dec in H1, H2. cbv beta in H1, H2.
  generalize dependent (nth k (x :: rest) x). intros m Hm H1 H2.
  assert (length lower = length (x :: rest)) as -> by (by rewrite Hp).
  assert (length (filter (fun y => f64_total_le y m) lower) =
          length (filter (fun y => f64_total_le y m) (x :: rest))) as -> by (by rewrite Hp).
  assert (length (filter (fun y => f64_total_le m y) lower) =
          length (filter (fun y => f64_total_le m y) (x :: rest))) as -> by (by rewrite Hp).
  pose proof (Nat.div_mod (length (x :: rest)) 2 ltac:(lia)) as Hdm.
  pose proof (Nat.mod_upper_bound (length (x :: rest)) 2 ltac:(lia)). fold k in Hdm.
  split_and!; [rewrite <- Hp; by eapply list_elem_of_lookup_2|lia|lia|done].
Qed.

Lemma idle_ticks_count (ts : list (f64 * Z * Z * Z * f64 * Z)) : forall b,
  Forall (fun '(secs, attempted, _, _, _, _) =>
            f64_lt (f64_of_Z attempted) (ATTEMPT_IDLE_QPS * secs)%f64 = true) ts ->
  0 <= idle_ticks b -> idle_ticks b + Z.of_nat (length ts) < u32_modulus -> brake_wf b ->
  let b' := fold_left (fun b '(secs, attempted, lost, responded, longest, now) =>
                         tick secs attempted lost responded longest now b) ts b in
  idle_ticks b' = idle_ticks b + Z.of_nat (length ts) /\ brake_wf b'.
Proof.
  induction ts as [|[[[[[secs attempted] lost] responded] longest] now] ts IH];
    intros b Hall Hi Hlt Hb; simpl in *; [split; [lia|done]|].
  apply Forall_cons in Hall as [Hidle Hall].
  assert (tick secs attempted lost responded longest now b = idle_tick b) as ->
    by (unfold tick; by rewrite Hidle).
  assert (idle_ticks (idle_tick b) = idle_ticks b + 1) as E.
  { unfold idle_tick, abandon_probe, u32_saturating_add.
    destruct (probe b); simpl; lia. }
  destruct (IH (idle_tick b) Hall) as [IH1 IH2]; [lia|lia|by apply idle_tick_wf|].
  split; [lia|done].
Qed.

(** A minute of silence starts the brake over.  After idle ticks that together
    lasted at least sixty seconds, the next busy tick leaves the attempts unlimited,
    with no references and no probe, and the tick's own window is not judged. *)
Theorem idle_reset ts secs attempted lost responded longest now b :
  brake_wf b -> idle_ticks b = 0 -> ts <> [] -> Z.of_nat (length ts) < u32_modulus ->
  Forall (fun '(secs, attempted, _, _, _, _) =>
            f64_lt (f64_of_Z attempted) (ATTEMPT_IDLE_QPS * secs)%f64 = true) ts ->
  f64_lt (f64_of_Z attempted) (ATTEMPT_IDLE_QPS * secs)%f64 = false ->
  f64_le (as_secs_f64 ATTEMPT_REFERENCE_WINDOW) (secs * f64_of_Z (Z.of_nat (length ts)))%f64 = true ->
  let b1 := fold_left (fun b '(secs, attempted, lost, responded, longest, now) =>
                         tick secs attempted lost responded longest now b) ts b in
  let b' := tick secs attempted lost responded longest now b1 in
  limit b' = None /\ AttemptPacer.rate (pacer b') = None /\ history b' = [] /\ probe b' = None.
Proof.
  intros Hb Hi Hne Hlen Hall Hbusy Hlong b1 b'.
  destruct (idle_ticks_count ts b Hall) as [Hc Hb1]; [lia|lia|done|]. fold b1 in Hc, Hb1.
  rewrite Hi, Z.add_0_l in Hc.
  assert (0 < idle_ticks b1) as Hpos by (rewrite Hc; destruct ts; simpl; [done|lia]).
  pose proof (proj2 (wf_idle b1 Hb1) Hpos) as Hp.
  subst b'. unfold tick. rewrite Hbusy.
  assert (brake_wf (wake secs b1)) as Hw by (by apply wake_wf).
  assert (limit (wake secs b1) = None /\ history (wake secs b1) = [] /\ probe (wake secs b1) = None
          /\ settling (wake secs b1) = true) as (E1 & E2 & E3 & E4).
  { unfold wake. rewrite (proj2 (Z.ltb_lt _ _) Hpos), Hc, Hlong. simpl. by rewrite Hp. }
  destruct (accumulate_fields secs attempted lost responded (wake secs b1)) as (A1 & A2 & A3 & A4 & _).
  pose proof (accumulate_wf secs attempted lost responded _ Hw) as Ha.
  set (a := accumulate secs attempted lost responded (wake secs b1)) in *.
  assert (limit a = None /\ AttemptPacer.rate (pacer a) = None /\ history a = [] /\ probe a = None) as Hfin.
  { rewrite (wf_sync a Ha). split_and!; congruence. }
  destruct (window_full longest a); [|done].
  rewrite close_window_settling by congruence. exact Hfin.
Qed.

(** The limit moves only on evidence: when a running probe is abandoned on an idle
    tick, when a long idle resets it, or when a window that is full and does not
    straddle a rate change is judged. *)
Theorem limit_needs_evidence secs attempted lost responded longest now b :
  let b' := tick secs attempted lost responded longest now b in
  let busy := negb (f64_lt (f64_of_Z attempted) (ATTEMPT_IDLE_QPS * secs)%f64) in
  limit b' = limit b \/
  (busy = false /\ exists p, probe b = Some p) \/
  (busy = true /\ 0 < idle_ticks b /\ limit b' = None) \/
  (busy = true /\ idle_ticks b <= 0 /\ settling b = false /\
   let w := accumulate secs attempted lost responded b in
   ATTEMPT_MIN_WINDOW <= u64_add (Observation.lost (window w)) (Observation.responded (window w)) /\
   f64_lt (seconds w) (longest * ATTEMPT_WINDOW_TIMEOUTS)%f64 = false).
Proof.
  cbv zeta. unfold tick. destruct (f64_lt (f64_of_Z attempted) _) eqn:Eb; cbn [negb].
  { unfold idle_tick, abandon_probe. destruct (probe b) as [p|]; [right; left; by eauto|by left]. }
  destruct (accumulate_fields secs attempted lost responded (wake secs b)) as (A1 & _ & A3 & _).
  destruct (Z.ltb_spec 0 (idle_ticks b)) as [Hpos|Hnp].
  - assert (settling (wake secs b) = true /\
            (limit (wake secs b) = limit b \/ limit (wake secs b) = None)) as [Hset Hlim].
    { unfold wake. rewrite (proj2 (Z.ltb_lt _ _) Hpos). destruct (f64_le _ _); simpl; auto. }
    assert (limit (if window_full longest (accumulate secs attempted lost responded (wake secs b))
                   then close_window now (accumulate secs attempted lost responded (wake secs b))
                   else accumulate secs attempted lost responded (wake secs b))
            = limit (wake secs b)) as ->.
    { destruct (window_full _ _); [|done]. rewrite close_window_settling by congruence. exact A1. }
    destruct Hlim as [->| ->]; [by left|by do 2 right; left].
  - assert (wake secs b = b) as Hw by (unfold wake; by rewrite (proj2 (Z.ltb_ge _ _) Hnp)).
    rewrite Hw in *. destruct (window_full _ _) eqn:Ef; [|by left].
    destruct (settling b) eqn:Es.
    { left. rewrite close_window_settling by congruence. exact A1. }
    do 3 right. unfold window_full in Ef. apply negb_true_iff, orb_false_iff in Ef as [E1 E2].
    apply Z.ltb_ge in E1. auto.
Qed.

End BrakeProperties.

(** ** Witnesses and examples *)

Section BrakeExamples.
Import AttemptBrake.

Definition idle_pacer : AttemptPacer.t ref_sem := AttemptPacer.new.

(** A brake at 100 attempts a second whose only reference is a clean window at 50. *)
Definition braked : t ref_sem :=
  (set_limit (Some (f64_of_Z 100)) (new idle_pacer))
    <| settling := false |>
    <| history := [mk_sample 0 (f64_of_Z 50) (f64_of_Z 0) (f64_of_Z 50)] |>.

(** The same brake probing at 50 attempts a second. *)
Definition probing : t ref_sem :=
  (set_limit (Some (f64_of_Z 50)) (new idle_pacer))
    <| settling := false |> <| probe := Some (mk_probe (Some (f64_of_Z 100)) 2) |>.

Lemma braked_wf : brake_wf braked.
Proof.
  split; [reflexivity| |discriminate|split; [reflexivity|discriminate]|by left].
  intros x Hx. apply (at_floor_max (Some (f64_of_Z 100))). exact Hx.
Qed.

Lemma probing_wf : brake_wf probing.
Proof.
  split; [reflexivity| | |split; [reflexivity|discriminate]|by left].
  - intros x Hx. apply (at_floor_max (Some (f64_of_Z 50))). exact Hx.
  - intros p [= <-]. split; [|simpl; lia].
    intros x [= <-]. split; vm_compute; reflexivity.
Qed.

Definition one_tick : f64 := f64_lit 5 10.

(** An unlimited brake sees thirty percent loss: with nothing to compare it to, it
    first waits out the settling window, then probes at half the observed rate. *)
Example first_probe :
  let run := fun b now => tick (f64_of_Z 10) 5000 1500 3500 (f64_of_Z 2) now b in
  let b := run (run (new idle_pacer) (from_secs 10)) (from_secs 20) in
  limit b = Some (f64_of_Z 250) /\ probe b = Some (mk_probe None 2) /\ settling b = true.
Proof. vm_compute. auto. Qed.

(** The floor is where one clear window can undo a cut: from 10.2 a second the
    floor holds the cut at ten, and the growth passes 10.2. *)
Example cut_at_the_floor :
  let l := f64_lit 102 10 in
  let b := decide_window 1 l (f64_lit 3 10) l (braked <| limit := Some l |> <| history :=
             [mk_sample 0 (f64_of_Z 5) (f64_of_Z 0) (f64_of_Z 5)] |>) in
  limit b = Some ATTEMPT_MIN_RATE /\
  exists l', limit (decide_window 2 ATTEMPT_MIN_RATE (f64_of_Z 0) l b) = Some l' /\ f64_lt l l' = true.
Proof. vm_compute. split; [reflexivity|]. eexists. split; reflexivity. Qed.

Lemma brake_invariant_witness :
  let b := tick one_tick 0 0 0 (f64_of_Z 2) 0 (new idle_pacer) in
  AttemptPacer.rate (pacer b) = limit b /\
  at_floor (limit b) /\
  (forall p, probe b = Some p -> at_floor (restore p) /\ 1 <= windows p <= 2) /\
  is_reference_window (reference_window b).
Proof.
  apply (brake_invariant (new idle_pacer)).
  - exists idle_pacer. split; reflexivity.
  - apply rtc_once. apply step_tick.
Defined.


Definition lossy_window : t ref_sem :=
  decide_window (from_secs 1) (f64_of_Z 100) (f64_lit 3 10) (f64_of_Z 70) braked.
Definition clear_windows : list (Z * f64 * f64) :=
  [(from_secs 2, f64_of_Z 0, f64_of_Z 85); (from_secs 3, f64_of_Z 0, f64_of_Z 89);
   (from_secs 4, f64_of_Z 0, f64_of_Z 93)].

Lemma retreat_outpaces_growth_witness :
  exists l', limit (decide_all clear_windows (f64_of_Z 100) lossy_window) = Some l' /\
             units l' < units (f64_of_Z 100).
Proof.
  eexists. split; [vm_compute; reflexivity|].
  apply (retreat_outpaces_growth (from_secs 1) (f64_lit 3 10) (f64_of_Z 70) (f64_of_Z 100)
           clear_windows (f64_of_Z 100) _ braked).
  - vm_compute. reflexivity.
  - f64_const.
  - vm_compute. discriminate.
  - vm_compute. reflexivity.
  - simpl. lia.
  - vm_compute. reflexivity.
Defined.

Lemma record_keeps_recent_witness :
  let b' := record (from_secs 61) (f64_of_Z 100) (f64_of_Z 0) (f64_of_Z 100) braked in
  history b' = filter (recent (from_secs 61) (reference_window braked)) (history braked)
                 ++ [mk_sample (from_secs 61) (f64_of_Z 100) (f64_of_Z 0) (f64_of_Z 100)] /\
  StronglySorted at_order (history b').
Proof.
  apply (record_keeps_recent (from_secs 61) (f64_of_Z 100) (f64_of_Z 0) (f64_of_Z 100) braked).
  - repeat constructor.
  - repeat constructor. vm_compute. discriminate.
  - vm_compute. discriminate.
Defined.

Definition silence : list (f64 * Z * Z * Z * f64 * Z) :=
  replicate 120 (one_tick, 0, 0, 0, f64_of_Z 2, 0).

Lemma idle_reset_witness :
  let b1 := fold_left (fun b '(secs, attempted, lost, responded, longest, now) =>
                         tick secs attempted lost responded longest now b) silence braked in
  let b' := tick one_tick 1000 0 1000 (f64_of_Z 2) (from_secs 70) b1 in
  limit b' = None /\ AttemptPacer.rate (pacer b') = None /\ history b' = [] /\ probe b' = None.
Proof.
  apply (idle_reset silence one_tick 1000 0 1000 (f64_of_Z 2) (from_secs 70) braked).
  - exact braked_wf.
  - reflexivity.
  - discriminate.
  - vm_compute. reflexivity.
  - apply Forall_replicate. vm_compute. reflexivity.
  - vm_compute. reflexivity.
  - vm_compute. reflexivity.
Defined.

End BrakeExamples.
