(* ===== verification/Config.v ===== *)
(** * Configuration: [config.rs]

    [BlastDNSConfig] as the client uses it, and [from_wire], the conversion at the
    Python boundary, which repairs the values the rest of the code relies on. *)

From S2P Require Import Prelude Float64 Limiter.

Definition DEFAULT_MAX_INFLIGHT_PER_RESOLVER : Z := 2.
Definition DEFAULT_MAX_CONCURRENCY : Z := 256.
Definition DEFAULT_REQUEST_TIMEOUT : Z := from_millis 1000.
Definition DEFAULT_MAX_RETRIES : Z := 10.
Definition DEFAULT_PURGATORY_THRESHOLD : Z := 10.
Definition DEFAULT_PURGATORY_SENTENCE : Z := from_millis 1000.
Definition DEFAULT_CACHE_CAPACITY : Z := 10000.
Definition DEFAULT_CACHE_MIN_TTL : Z := from_secs 10.
Definition DEFAULT_CACHE_MAX_TTL : Z := from_secs 86400.

(** Durations are in nanoseconds. *)
Record BlastDNSConfig := mk_config {
  max_inflight_per_resolver : Z;
  max_concurrency : Z;
  rate_limit : option f64;
  adaptive : bool;
  resolver_probe : bool;
  persistent_socket : bool;
  request_timeout : Z;
  max_retries : Z;
  purgatory_threshold : Z;
  purgatory_sentence : Z;
  cache_capacity : Z;
  cache_min_ttl : Z;
  cache_max_ttl : Z
}.

(** The JSON shape at the FFI boundary: milliseconds and seconds. *)
Record BlastDNSConfigWire := mk_wire {
  w_max_inflight_per_resolver : Z;
  w_max_concurrency : Z;
  w_rate_limit : option f64;
  w_adaptive : bool;
  w_resolver_probe : bool;
  w_persistent_socket : bool;
  w_request_timeout_ms : Z;
  w_max_retries : Z;
  w_purgatory_threshold : Z;
  w_purgatory_sentence_ms : Z;
  w_cache_capacity : Z;
  w_cache_min_ttl_secs : Z;
  w_cache_max_ttl_secs : Z
}.

(** [Option::filter]. *)
Definition option_filter {A} (f : A -> bool) (o : option A) : option A :=
  match o with Some x => if f x then Some x else None | None => None end.

Definition from_wire (w : BlastDNSConfigWire) : BlastDNSConfig := {|
  max_inflight_per_resolver := Z.max (w_max_inflight_per_resolver w) 1;
  max_concurrency := Z.max (w_max_concurrency w) 1;
  rate_limit := option_filter (fun r => (r >? f64_of_Z 0)%f64) (w_rate_limit w);
  adaptive := w_adaptive w;
  resolver_probe := w_resolver_probe w;
  persistent_socket := w_persistent_socket w;
  request_timeout := from_millis (Z.max (w_request_timeout_ms w) 1);
  max_retries := w_max_retries w;
  purgatory_threshold := w_purgatory_threshold w;
  purgatory_sentence := from_millis (Z.max (w_purgatory_sentence_ms w) 1);
  cache_capacity := w_cache_capacity w;
  cache_min_ttl := from_secs (w_cache_min_ttl_secs w);
  cache_max_ttl := from_secs (w_cache_max_ttl_secs w)
|}.

Definition default_config : BlastDNSConfig := {|
  max_inflight_per_resolver := DEFAULT_MAX_INFLIGHT_PER_RESOLVER;
  max_concurrency := DEFAULT_MAX_CONCURRENCY;
  rate_limit := None;
  adaptive := true;
  resolver_probe := false;
  persistent_socket := false;
  request_timeout := DEFAULT_REQUEST_TIMEOUT;
  max_retries := DEFAULT_MAX_RETRIES;
  purgatory_threshold := DEFAULT_PURGATORY_THRESHOLD;
  purgatory_sentence := DEFAULT_PURGATORY_SENTENCE;
  cache_capacity := DEFAULT_CACHE_CAPACITY;
  cache_min_ttl := DEFAULT_CACHE_MIN_TTL;
  cache_max_ttl := DEFAULT_CACHE_MAX_TTL
|}.

(** What building a client relies on, and what the running code relies on besides.
    Nothing orders the cache's two TTLs. *)
Record config_buildable (c : BlastDNSConfig) : Prop := {
  buildable_inflight : 1 <= max_inflight_per_resolver c;
  buildable_concurrency : 1 <= max_concurrency c;
  buildable_rate : forall r, rate_limit c = Some r -> f64_lt (f64_of_Z 0) r = true;
}.
Record config_usable (c : BlastDNSConfig) : Prop := {
  usable_buildable : config_buildable c;
  usable_timeout : from_millis 1 <= request_timeout c;
  usable_sentence : from_millis 1 <= purgatory_sentence c;
}.

Lemma interval_for_positive q :
  f64_lt (f64_of_Z 0) q = true -> is_Some (RateLimiter.interval_for q).
Proof. intros H. unfold RateLimiter.interval_for. rewrite H. eauto. Qed.

Lemma from_wire_config w : config_usable (from_wire w).
Proof.
  split; [split|..]; cbn [from_wire max_inflight_per_resolver max_concurrency rate_limit request_timeout
                          purgatory_sentence]; try (unfold from_millis; lia).
  intros r. destruct (w_rate_limit w) as [r'|]; cbn [option_filter]; [|discriminate].
  destruct (f64_lt _ r') eqn:E; [|discriminate]. by intros [= <-].
Qed.

(** A rate limit above zero never makes building a limiter panic. *)
Lemma buildable_limiter c now : config_buildable c ->
  is_Some (RateLimiter.new (from_option id UNLIMITED_QPS (rate_limit c)) now).
Proof.
  intros Hc. unfold RateLimiter.new.
  assert (is_Some (RateLimiter.interval_for (from_option id UNLIMITED_QPS (rate_limit c)))) as [i ->].
  { apply interval_for_positive. pose proof (buildable_rate _ Hc) as Hr.
    destruct (rate_limit c); cbn [from_option id]; [by apply Hr|vm_compute; reflexivity]. }
  simpl. eauto.
Qed.

(** C40: whatever the wire carries, zeroes and NaN included, the converted
    configuration is usable, and building the dispatch limiter from its rate limit
    (or the unlimited rate) never panics. *)
Theorem from_wire_usable w now :
  config_usable (from_wire w) /\
  is_Some (RateLimiter.new (from_option id UNLIMITED_QPS (rate_limit (from_wire w))) now).
Proof. split; [apply from_wire_config|apply buildable_limiter, from_wire_config]. Qed.
