(* ===== verification/Addresses.v ===== *)
(** * Addresses as text

    A Rust [str] is its list of code points.  [IpAddr] and [SocketAddr] are read and
    printed as the standard library does: a recursive-descent reader that gives back
    what it did not read, and a printer that abbreviates the longest run of zeros of
    an IPv6 address. *)

From Stdlib Require Import Ascii String.
From stdpp Require Import list.
From S2P Require Import Prelude.
#[local] Open Scope Z_scope.
#[local] Open Scope list_scope.

Definition text : Type := list Z.
Definition lit (s : string) : text := (fun c => Z.of_nat (nat_of_ascii c)) <$> list_ascii_of_string s.

(** Code points used by name. *)
Definition DOT : Z := 46.
Definition COLON : Z := 58.
Definition PERCENT : Z := 37.
Definition OPEN : Z := 91.
Definition CLOSE : Z := 93.
Definition ZERO : Z := 48.
Definition NEWLINE : Z := 10.

(** ** The standard library's address parser *)

Inductive IpAddr :=
| V4 (a b c d : Z)
| V6 (segments : list Z).

#[export] Instance IpAddr_eq_dec : EqDecision IpAddr.
Proof. solve_decision. Defined.

Record SocketAddress := mk_socket { ip : IpAddr; port : Z; scope_id : Z }.

Definition to_digit (radix c : Z) : option Z :=
  let d := if (48 <=? c) && (c <=? 57) then Some (c - 48)
           else if (97 <=? c) && (c <=? 122) then Some (c - 87)
           else if (65 <=? c) && (c <=? 90) then Some (c - 55) else None in
  match d with Some v => if v <? radix then Some v else None | None => None end.

Definition read_char (x : Z) (s : text) : option text :=
  match s with c :: s' => if c =? x then Some s' else None | [] => None end.

(** Digits while there are any, at most [max] when it is given. *)
Fixpoint read_digits (radix : Z) (max : option nat) (count : nat) (acc : Z) (s : text)
    : option (Z * nat * text) :=
  match s with
  | c :: s' =>
      match to_digit radix c with
      | Some d =>
          if (match max with Some m => (m <? S count)%nat | None => false end) then None
          else read_digits radix max (S count) (acc * radix + d) s'
      | None => Some (acc, count, s)
      end
  | [] => Some (acc, count, [])
  end.

(** [read_number]: the value must fit [bound]. *)
Definition read_number (radix : Z) (max : option nat) (allow_zero_prefix : bool) (bound : Z) (s : text)
    : option (Z * text) :=
  '(v, count, rest) ← read_digits radix max 0 0 s;
  let has_leading_zero := match s with c :: _ => c =? ZERO | [] => false end in
  if (count =? 0)%nat then None
  else if negb allow_zero_prefix && has_leading_zero && (1 <? count)%nat then None
  else if v <=? bound then Some (v, rest) else None.

Definition read_separator {A} (sep : Z) (index : nat) (inner : text -> option (A * text)) (s : text)
    : option (A * text) :=
  match index with O => inner s | S _ => s' ← read_char sep s; inner s' end.

Definition read_octet : text -> option (Z * text) := read_number 10 (Some 3%nat) false 255.

Definition read_ipv4 (s : text) : option (Z * Z * Z * Z * text) :=
  '(a, s) ← read_separator DOT 0 read_octet s;
  '(b, s) ← read_separator DOT 1 read_octet s;
  '(c, s) ← read_separator DOT 2 read_octet s;
  '(d, s) ← read_separator DOT 3 read_octet s;
  Some (a, b, c, d, s).

Definition read_group : text -> option (Z * text) := read_number 16 (Some 4%nat) true 65535.

(** Groups from index [i] on, [room] slots left; the flag tells a trailing IPv4 part. *)
Fixpoint read_groups (i room : nat) (s : text) : list Z * bool * text :=
  match room with
  | O => ([], false, s)
  | S room' =>
      let plain :=
        match read_separator COLON i read_group s with
        | Some (g, s') => let '(gs, v4, rest) := read_groups (S i) room' s' in (g :: gs, v4, rest)
        | None => ([], false, s)
        end in
      match room' with
      | O => plain
      | S _ =>
          match read_separator COLON i
                  (fun s => '(a, b, c, d, s') ← read_ipv4 s; Some ((a, b, c, d), s')) s with
          | Some ((a, b, c, d), s') => ([a * 256 + b; c * 256 + d], true, s')
          | None => plain
          end
      end
  end.

Definition read_ipv6 (s : text) : option (list Z * text) :=
  let '(head, head_v4, s1) := read_groups 0 8 s in
  if (List.length head =? 8)%nat then Some (head, s1)
  else if head_v4 then None
  else
    s2 ← read_char COLON s1;
    s3 ← read_char COLON s2;
    let '(tail, _, s4) := read_groups 0 (8 - (List.length head + 1)) s3 in
    Some (head ++ replicate (8 - List.length head - List.length tail) 0 ++ tail, s4).

Definition read_ip (s : text) : option (IpAddr * text) :=
  match read_ipv4 s with
  | Some (a, b, c, d, s') => Some (V4 a b c d, s')
  | None => '(segments, s') ← read_ipv6 s; Some (V6 segments, s')
  end.

(** [str::parse]: the whole input must be read. *)
Definition whole {A} (r : option (A * text)) : option A :=
  match r with Some (x, []) => Some x | _ => None end.

Definition parse_ip (s : text) : option IpAddr := whole (read_ip s).

Definition read_port (s : text) : option (Z * text) :=
  s ← read_char COLON s; read_number 10 None true 65535 s.

Definition read_socket (s : text) : option (SocketAddress * text) :=
  let v4 :=
    '(a, b, c, d, s1) ← read_ipv4 s; '(p, s2) ← read_port s1;
    Some (mk_socket (V4 a b c d) p 0, s2) in
  let v6 :=
    s1 ← read_char OPEN s; '(segments, s2) ← read_ipv6 s1;
    let '(scope, s3) :=
      match (s' ← read_char PERCENT s2; read_number 10 None true 4294967295 s') with
      | Some r => r
      | None => (0, s2)
      end in
    s4 ← read_char CLOSE s3; '(p, s5) ← read_port s4;
    Some (mk_socket (V6 segments) p scope, s5) in
  match v4 with Some r => Some r | None => v6 end.

Definition parse_socket (s : text) : option SocketAddress := whole (read_socket s).

(** ** The printer *)

(** A nibble in hexadecimal, an octet in decimal. *)
Definition hex_digit (n : Z) : Z := if n <? 10 then 48 + n else 87 + n.
Definition show_octet (n : Z) : text :=
  if n <? 10 then [48 + n]
  else if n <? 100 then [48 + n / 10; 48 + n mod 10]
  else [48 + n / 100; 48 + n / 10 mod 10; 48 + n mod 10].

Fixpoint join (sep : text) (parts : list text) : text :=
  match parts with
  | [] => []
  | [x] => x
  | x :: parts' => x ++ sep ++ join sep parts'
  end.

Definition show_v4 (a b c d : Z) : text :=
  show_octet a ++ DOT :: show_octet b ++ DOT :: show_octet c ++ DOT :: show_octet d.

(** A number in decimal. *)
Fixpoint show_digits (fuel : nat) (n : Z) : text :=
  match fuel with
  | O => []
  | S fuel' => (if n <? 10 then [] else show_digits fuel' (n / 10)) ++ [48 + n mod 10]
  end.
Definition show_Z (n : Z) : text := show_digits (S (Z.to_nat (Z.log2 n))) n.

(** A segment in hexadecimal, without leading zeros. *)
Definition show_hex (n : Z) : text :=
  if n <? 16 then [hex_digit n]
  else if n <? 256 then [hex_digit (n / 16); hex_digit (n mod 16)]
  else if n <? 4096 then [hex_digit (n / 256); hex_digit (n / 16 mod 16); hex_digit (n mod 16)]
  else [hex_digit (n / 4096); hex_digit (n / 256 mod 16); hex_digit (n / 16 mod 16); hex_digit (n mod 16)].
Definition show_segments (l : list Z) : text := join [COLON] (show_hex <$> l).

(** The longest run of zeros, the first of them: its start and its length. *)
Record span := mk_span { first_zero : nat; zeros : nat }.
Definition longest_run (l : list Z) : span :=
  (foldl (fun '(i, current, longest) segment =>
     if segment =? 0 then
       let current := if (zeros current =? 0)%nat then mk_span i 1
                      else mk_span (first_zero current) (S (zeros current)) in
       (S i, current, if (zeros longest <? zeros current)%nat then current else longest)
     else (S i, mk_span 0 0, longest)) (0%nat, mk_span 0 0, mk_span 0 0) l).2.

Definition show_v6 (l : list Z) : text :=
  match l with
  | [0; 0; 0; 0; 0; 65535; a; b] =>
      lit "::ffff:" ++ show_v4 (a / 256) (a mod 256) (b / 256) (b mod 256)
  | _ =>
      let run := longest_run l in
      if (1 <? zeros run)%nat
      then show_segments (take (first_zero run) l) ++ lit "::"
             ++ show_segments (drop (first_zero run + zeros run) l)
      else show_segments l
  end.

Definition show_ip (i : IpAddr) : text :=
  match i with V4 a b c d => show_v4 a b c d | V6 l => show_v6 l end.

(** [SocketAddr]: brackets around an IPv6 address, with its scope when it has one. *)
Definition show_socket (a : SocketAddress) : text :=
  match ip a with
  | V4 _ _ _ _ => show_ip (ip a) ++ COLON :: show_Z (port a)
  | V6 l =>
      OPEN :: show_v6 l ++ (if scope_id a =? 0 then [] else PERCENT :: show_Z (scope_id a))
        ++ CLOSE :: COLON :: show_Z (port a)
  end.

(** ** What the parser reads *)

(** A reader takes characters of [P] off the front and returns values of [Q]. *)
Definition reads {A} (P : Z -> Prop) (Q : A -> Prop) (f : text -> option (A * text)) : Prop :=
  forall s x rest, f s = Some (x, rest) -> Q x /\ exists used, s = used ++ rest /\ Forall P used.

Definition hex_char (c : Z) : Prop := to_digit 16 c <> None.
Definition address_char (c : Z) : Prop := hex_char c \/ c = DOT \/ c = COLON.
#[export] Instance hex_char_dec c : Decision (hex_char c).
Proof. unfold hex_char. apply _. Defined.
#[export] Instance address_char_dec c : Decision (address_char c).
Proof. unfold address_char. apply _. Defined.
Definition is_octet (n : Z) : Prop := 0 <= n <= 255.
Definition is_segment (n : Z) : Prop := 0 <= n <= 65535.

(** An address as [std::net] holds it: four octets, or eight 16-bit segments. *)
Definition well_formed (i : IpAddr) : Prop :=
  match i with
  | V4 a b c d => is_octet a /\ is_octet b /\ is_octet c /\ is_octet d
  | V6 l => length l = 8%nat /\ Forall is_segment l
  end.

Lemma to_digit_range r c d : to_digit r c = Some d -> 0 <= d < r.
Proof.
  unfold to_digit.
  destruct (Z.leb_spec 48 c), (Z.leb_spec c 57); simpl; [|
    destruct (Z.leb_spec 97 c), (Z.leb_spec c 122); simpl; [|
      destruct (Z.leb_spec 65 c), (Z.leb_spec c 90); simpl; try done..]..];
    try (match goal with |- context [?v <? r] => destruct (Z.ltb_spec v r) end);
    intros; simplify_eq; lia.
Qed.

Lemma to_digit_mono r c : r <= 16 -> to_digit r c <> None -> hex_char c.
Proof.
  intros Hr Hd. unfold hex_char, to_digit in *.
  match goal with H : context [match ?o with _ => _ end] |- _ => destruct o as [v|] end; [|done].
  destruct (Z.ltb_spec v r), (Z.ltb_spec v 16); done || lia.
Qed.

Lemma read_digits_spec r m : forall s n acc v k rest, 0 <= acc -> r <= 16 -> 0 < r ->
  read_digits r m n acc s = Some (v, k, rest) ->
  0 <= v /\ exists used, s = used ++ rest /\ Forall hex_char used.
Proof.
  induction s as [|c s IH]; intros n acc v k rest Hacc Hr Hr0 H; simplify_eq/=.
  - split; [done|]. by exists [].
  - destruct (to_digit r c) as [d|] eqn:Hd; [|simplify_eq; split; [done|]; by exists []].
    case_match; [done|]. pose proof (to_digit_range _ _ _ Hd).
    apply IH in H as (Hv & used & -> & Hu); [|nia..]. split; [done|].
    exists (c :: used). split; [done|]. constructor; [|done].
    apply (to_digit_mono r); congruence.
Qed.

Lemma read_number_reads r m z b : 0 < r <= 16 ->
  reads hex_char (fun v => 0 <= v <= b) (read_number r m z b).
Proof.
  intros Hr s v rest H. unfold read_number in H.
  destruct (read_digits r m 0 0 s) as [[[v' k] rest']|] eqn:Hd; [|done]. simpl in H.
  case_match; [done|]. case_match; [done|]. destruct (Z.leb_spec v' b); [|done].
  apply read_digits_spec in Hd as (? & ?); [|lia..]. by simplify_eq.
Qed.

Lemma reads_impl {A} (P P' : Z -> Prop) (Q : A -> Prop) f :
  (forall c, P c -> P' c) -> reads P Q f -> reads P' Q f.
Proof.
  intros Himp Hf s x rest H. destruct (Hf s x rest H) as (HQ & used & -> & Hu).
  split; [done|]. exists used. split; [done|]. by eapply Forall_impl.
Qed.

Lemma read_char_reads x s s' : read_char x s = Some s' -> s = x :: s'.
Proof. destruct s as [|c s]; simpl; [done|]. case_match; intros; simplify_eq. f_equal. lia. Qed.

Lemma read_char_same x s : read_char x (x :: s) = Some s.
Proof. simpl. by rewrite Z.eqb_refl. Qed.

Lemma read_separator_reads {A} (Q : A -> Prop) sep i f :
  address_char sep -> reads address_char Q f -> reads address_char Q (read_separator sep i f).
Proof.
  intros Hsep Hf s x rest H. destruct i as [|i]; simpl in H; [by apply Hf|].
  destruct (read_char sep s) as [s'|] eqn:Hc; [|done]. apply read_char_reads in Hc as ->.
  simpl in H. apply Hf in H as (HQ & used & -> & Hu). split; [done|].
  exists (sep :: used). split; [done|]. by constructor.
Qed.

Lemma dot_is_address_char : address_char DOT. Proof. right; by left. Qed.
Lemma colon_is_address_char : address_char COLON. Proof. right; by right. Qed.
#[local] Hint Resolve dot_is_address_char colon_is_address_char : core.

(** Prefixes read one after the other. *)
Lemma reads_trans (P : Z -> Prop) s s' rest :
  (exists used, s = used ++ s' /\ Forall P used) ->
  (exists used, s' = used ++ rest /\ Forall P used) ->
  exists used, s = used ++ rest /\ Forall P used.
Proof.
  intros (u & -> & Hu) (u' & -> & Hu'). exists (u ++ u').
  rewrite app_assoc. split; [done|]. by apply Forall_app.
Qed.

Lemma read_octet_reads i : reads address_char is_octet (read_separator DOT i read_octet).
Proof.
  apply read_separator_reads; [done|]. apply (reads_impl hex_char); [by left|].
  apply read_number_reads. lia.
Qed.

Lemma read_ipv4_reads s a b c d rest : read_ipv4 s = Some (a, b, c, d, rest) ->
  well_formed (V4 a b c d) /\ exists used, s = used ++ rest /\ Forall address_char used.
Proof.
  unfold read_ipv4. intros H.
  apply bind_Some in H as ([a' s1] & Ha & H). apply bind_Some in H as ([b' s2] & Hb & H).
  apply bind_Some in H as ([c' s3] & Hc & H). apply bind_Some in H as ([d' s4] & Hd & H).
  simplify_eq. apply (read_octet_reads 0) in Ha as [? ?]. apply (read_octet_reads 1) in Hb as [? ?].
  apply (read_octet_reads 2) in Hc as [? ?]. apply (read_octet_reads 3) in Hd as [? ?].
  split; [done|]. eauto using reads_trans.
Qed.

Lemma read_group_reads i : reads address_char is_segment (read_separator COLON i read_group).
Proof.
  apply read_separator_reads; [done|]. apply (reads_impl hex_char); [by left|].
  apply read_number_reads. lia.
Qed.

Lemma read_groups_reads : forall room i s gs v4 rest, read_groups i room s = (gs, v4, rest) ->
  (length gs <= room)%nat /\ Forall is_segment gs /\
  exists used, s = used ++ rest /\ Forall address_char used.
Proof.
  induction room as [|room IH]; intros i s gs v4 rest H.
  { simplify_eq/=. split; [lia|]. split; [done|]. by exists []. }
  assert (Hplain : match read_separator COLON i read_group s with
                   | Some (g, s') => let '(gs, v4, rest) := read_groups (S i) room s' in (g :: gs, v4, rest)
                   | None => ([], false, s)
                   end = (gs, v4, rest) ->
    (length gs <= S room)%nat /\ Forall is_segment gs /\
    exists used, s = used ++ rest /\ Forall address_char used).
  { destruct (read_separator COLON i read_group s) as [[g s']|] eqn:Hg.
    - destruct (read_groups (S i) room s') as [[gs' v4'] rest'] eqn:Hgs. intros; simplify_eq.
      apply IH in Hgs as (? & ? & ?). apply read_group_reads in Hg as [? ?].
      simpl. split; [lia|]. split; [by constructor|]. eauto using reads_trans.
    - intros; simplify_eq. simpl. split; [lia|]. split; [done|]. by exists []. }
  simpl in H. destruct room as [|room]; [by apply Hplain|].
  match type of H with match read_separator _ _ ?f _ with _ => _ end = _ =>
    destruct (read_separator COLON i f s) as [[[[[a b] c] d] s']|] eqn:Hv; [|by apply Hplain] end.
  simplify_eq.
  apply (read_separator_reads (fun q => let '(a, b, c, d) := q in well_formed (V4 a b c d))) in Hv;
    [|done|].
  - destruct Hv as [(Ha & Hb & Hc & Hd) Hu]. simpl. split; [lia|]. split; [|done].
    unfold is_octet, is_segment in *. repeat constructor; lia.
  - intros s1 [[[a' b'] c'] d'] rest1 H1.
    destruct (read_ipv4 s1) as [[[[[a1 b1] c1] d1] s2]|] eqn:H2; [|done]. simplify_eq/=.
    by apply read_ipv4_reads in H2.
Qed.

Lemma read_ipv6_reads s l rest : read_ipv6 s = Some (l, rest) ->
  well_formed (V6 l) /\ exists used, s = used ++ rest /\ Forall address_char used.
Proof.
  unfold read_ipv6. intros H.
  destruct (read_groups 0 8 s) as [[head v4] s1] eqn:Hh.
  apply read_groups_reads in Hh as (Hl & Hf & Hu).
  destruct (Nat.eqb_spec (length head) 8) as [H8|H8]; [by simplify_eq|].
  destruct v4; [done|].
  apply bind_Some in H as (s2 & Hc2 & H). apply bind_Some in H as (s3 & Hc3 & H).
  apply read_char_reads in Hc2 as ->. apply read_char_reads in Hc3 as ->.
  destruct (read_groups 0 (8 - (length head + 1)) s3) as [[tail v4'] s4] eqn:Ht.
  apply read_groups_reads in Ht as (Hl' & Hf' & Hu'). simplify_eq. split.
  - split; [rewrite !length_app, length_replicate; lia|].
    apply Forall_app; split; [done|]. apply Forall_app; split; [|done].
    apply Forall_replicate. unfold is_segment. lia.
  - eapply reads_trans; [done|]. eapply (reads_trans _ _ s3); [|done].
    exists [COLON; COLON]. split; [done|]. by repeat constructor.
Qed.

(** What [IpAddr::from_str] accepts: only address characters, and a well-formed address. *)
Lemma parse_ip_reads s i : parse_ip s = Some i -> well_formed i /\ Forall address_char s.
Proof.
  unfold parse_ip, whole, read_ip. intros H.
  destruct (read_ipv4 s) as [[[[[a b] c] d] rest]|] eqn:H4.
  - destruct rest; simplify_eq. apply read_ipv4_reads in H4 as (Hw & used & -> & Hu).
    split; [done|]. by rewrite app_nil_r.
  - destruct (read_ipv6 s) as [[l rest]|] eqn:H6; [|done]. destruct rest; simplify_eq/=.
    apply read_ipv6_reads in H6 as (Hw & used & -> & Hu). split; [done|]. by rewrite app_nil_r.
Qed.

(** ** What the printer prints *)

(** A fact about every octet (nibble), checked on each of them. *)
Lemma every_below (P : Z -> bool) n m : 0 <= m < n -> forallb P (seqZ 0 n) = true -> P m = true.
Proof.
  intros Hm Hall. rewrite forallb_forall in Hall. apply Hall.
  apply list_elem_of_In, elem_of_seqZ. lia.
Qed.

Ltac each_octet n :=
  match goal with
  | |- ?P =>
      let f := eval pattern n in P in
      match f with
      | ?p _ => refine (bool_decide_eq_true_1 _ (every_below (fun n => bool_decide (p n)) 256 n _ _));
                [unfold is_octet in *; lia | vm_compute; reflexivity]
      end
  end.

Definition octet_char (c : Z) : Prop := 48 <= c <= 57.
#[local] Instance octet_char_dec c : Decision (octet_char c).
Proof. unfold octet_char. apply _. Defined.

Lemma octet_chars n : is_octet n -> Forall octet_char (show_octet n).
Proof. intros Hn. each_octet n. Qed.

Lemma octet_read n : is_octet n -> read_octet (show_octet n) = Some (n, []).
Proof. intros Hn. each_octet n. Qed.

Lemma octet_nonempty n : is_octet n -> show_octet n <> [].
Proof. intros Hn. unfold show_octet. repeat case_match; done. Qed.

Lemma join_app sep l1 l2 : l1 <> [] -> l2 <> [] ->
  join sep (l1 ++ l2) = join sep l1 ++ sep ++ join sep l2.
Proof.
  intros H1 H2. induction l1 as [|x l1 IH]; [done|].
  destruct l1 as [|y l1]; simpl; [by destruct l2|].
  simpl in IH. rewrite IH by done. by rewrite <- !app_assoc.
Qed.

(** The text ends, or goes on with a character that is no digit. *)
Definition ends_number (radix : Z) (s : text) : Prop :=
  match s with [] => True | c :: _ => to_digit radix c = None end.

Lemma read_digits_more r m rest : ends_number r rest -> forall s n acc v k,
  read_digits r m n acc s = Some (v, k, []) -> read_digits r m n acc (s ++ rest) = Some (v, k, rest).
Proof.
  intros He. induction s as [|c s IH]; intros n acc v k H; simplify_eq/=.
  - destruct rest as [|c rest]; simpl in *; [done|]. by rewrite He.
  - destruct (to_digit r c); [|done]. case_match; [done|]. by apply IH.
Qed.

Lemma read_number_more r m z b s n rest : s <> [] -> ends_number r rest ->
  read_number r m z b s = Some (n, []) -> read_number r m z b (s ++ rest) = Some (n, rest).
Proof.
  intros Hs He H. unfold read_number in *.
  apply bind_Some in H as ([[v k] rest'] & Hd & H).
  destruct s as [|c s]; [done|]. cbn [app].
  assert (rest' = []) as -> by (repeat case_match; by simplify_eq).
  apply (read_digits_more _ _ _ He) in Hd. cbn [app] in Hd. rewrite Hd.
  cbn [mbind option_bind]. repeat case_match; by simplify_eq.
Qed.

Lemma read_shown_octet n rest : is_octet n -> ends_number 10 rest ->
  read_octet (show_octet n ++ rest) = Some (n, rest).
Proof. intros. apply read_number_more; auto using octet_read, octet_nonempty. Qed.

Lemma read_shown_v4 a b c d rest : well_formed (V4 a b c d) -> ends_number 10 rest ->
  read_ipv4 (show_v4 a b c d ++ rest) = Some (a, b, c, d, rest).
Proof.
  intros (Ha & Hb & Hc & Hd) He. unfold read_ipv4, read_separator, show_v4.
  repeat (rewrite <- app_assoc; cbn [app]).
  do 3 (rewrite read_shown_octet by done; cbn [mbind option_bind]; rewrite read_char_same;
        cbn [mbind option_bind]).
  by rewrite read_shown_octet.
Qed.

Lemma show_v4_chars a b c d : well_formed (V4 a b c d) ->
  Forall (fun x => octet_char x \/ x = DOT) (show_v4 a b c d) /\
  exists x s, show_v4 a b c d = x :: s /\ octet_char x.
Proof.
  intros (Ha & Hb & Hc & Hd).
  assert (Ho : forall n, is_octet n -> Forall (fun x => octet_char x \/ x = DOT) (show_octet n)).
  { intros n Hn. eapply Forall_impl; [by apply octet_chars|]. auto. }
  split.
  - unfold show_v4. repeat (apply Forall_app; split; [by apply Ho|]; constructor; [by right|]).
    by apply Ho.
  - unfold show_v4. pose proof (octet_chars a Ha) as Hx.
    destruct (show_octet a) as [|x s] eqn:E; [by apply octet_nonempty in E|].
    exists x. eexists. split; [done|]. by apply Forall_inv in Hx.
Qed.

Lemma not_a_digit c : c <= 32 \/ 132 < c -> to_digit 10 c = None.
Proof.
  intros H. unfold to_digit. destruct (Z.leb_spec 48 c), (Z.leb_spec c 57); simpl; try lia;
    destruct (Z.leb_spec 97 c), (Z.leb_spec c 122); simpl; try lia;
    destruct (Z.leb_spec 65 c), (Z.leb_spec c 90); simpl; try lia; done.
Qed.

(** No dotted quad starts with a character that is no digit. *)
Lemma read_ipv4_other c s : to_digit 10 c = None -> read_ipv4 (c :: s) = None.
Proof.
  intros H. unfold read_ipv4, read_separator, read_octet, read_number. cbn [read_digits].
  rewrite H. done.
Qed.

Lemma read_ipv6_v4 a b c d rest : well_formed (V4 a b c d) -> ends_number 10 rest ->
  read_ipv6 (show_v4 a b c d ++ rest) = None.
Proof.
  intros Hw He. unfold read_ipv6. cbn [read_groups]. cbn [read_separator].
  by rewrite read_shown_v4.
Qed.

(** ** IPv6 texts *)

Lemma to_digit_hex d : 0 <= d < 16 -> to_digit 16 (hex_digit d) = Some d.
Proof.
  intros Hd. refine (bool_decide_eq_true_1 _ (every_below (fun d =>
    bool_decide (to_digit 16 (hex_digit d) = Some d)) 16 d _ _)); [lia|].
  vm_compute. reflexivity.
Qed.

(** Reading hexadecimal digits gives their value, up to four of them. *)
Lemma read_digits_hex : forall ds n acc, Forall (fun d => 0 <= d < 16) ds ->
  (n + length ds <= 4)%nat ->
  read_digits 16 (Some 4%nat) n acc (hex_digit <$> ds)
  = Some (fold_left (fun v d => v * 16 + d) ds acc, (n + length ds)%nat, []).
Proof.
  induction ds as [|d ds IH]; intros n acc Hds Hn; simpl in *; [by rewrite Nat.add_0_r|].
  apply Forall_cons in Hds as [Hd Hds]. rewrite to_digit_hex by done.
  destruct (Nat.ltb_spec 4 (S n)); [lia|]. simpl in IH. unfold fmap in IH. rewrite IH by (done || lia).
  do 2 f_equal. f_equal. lia.
Qed.

Definition hex_digits (n : Z) : list Z :=
  if n <? 16 then [n]
  else if n <? 256 then [n / 16; n mod 16]
  else if n <? 4096 then [n / 256; n / 16 mod 16; n mod 16]
  else [n / 4096; n / 256 mod 16; n / 16 mod 16; n mod 16].

Lemma show_hex_digits n : show_hex n = hex_digit <$> hex_digits n.
Proof. unfold show_hex, hex_digits. by repeat case_match. Qed.

Lemma hex_digits_spec n : is_segment n ->
  Forall (fun d => 0 <= d < 16) (hex_digits n) /\ (0 < length (hex_digits n))%nat /\ (length (hex_digits n) <= 4)%nat /\
  fold_left (fun v d => v * 16 + d) (hex_digits n) 0 = n.
Proof.
  unfold is_segment, hex_digits. intros Hn.
  destruct (Z.ltb_spec n 16); [|destruct (Z.ltb_spec n 256); [|destruct (Z.ltb_spec n 4096)]];
    simpl; (split; [repeat constructor|split_and!; try lia]);
    Z.to_euclidean_division_equations; lia.
Qed.

Lemma segment_shown n : is_segment n ->
  read_group (show_hex n) = Some (n, []) /\ Forall hex_char (show_hex n) /\ show_hex n <> [].
Proof.
  intros Hn. destruct (hex_digits_spec n Hn) as (Hd & Hl0 & Hl & Hv). rewrite show_hex_digits. split_and!.
  - unfold read_group, read_number. rewrite read_digits_hex by (done || lia).
    cbn [mbind option_bind]. rewrite Hv. simpl. destruct (Nat.eqb_spec (length (hex_digits n)) 0); [lia|].
    destruct (Z.leb_spec n 65535); [done|unfold is_segment in *; lia].
  - apply Forall_fmap. eapply Forall_impl; [done|]. intros d Hr. unfold hex_char. simpl.
    by rewrite to_digit_hex.
  - intros E. apply (f_equal length) in E. rewrite length_fmap in E. simpl in E. lia.
Qed.

Lemma read_shown_group n rest : is_segment n -> ends_number 16 rest ->
  read_group (show_hex n ++ rest) = Some (n, rest).
Proof. intros Hn He. destruct (segment_shown n Hn) as (H1 & _ & H3). by apply read_number_more. Qed.

(** The address is over: the text ends, or its scope or its bracket follows. *)
Definition closes (rest : text) : Prop :=
  match rest with [] => True | c :: _ => c = PERCENT \/ c = CLOSE end.

(** After a group comes the end of the address or a colon. *)
Definition after_group (rest : text) : Prop := closes rest \/ exists s, rest = COLON :: s.

Lemma after_group_head c rest : after_group (c :: rest) -> c = PERCENT \/ c = CLOSE \/ c = COLON.
Proof. intros [[->| ->]|[s [= -> _]]]; auto. Qed.

Lemma after_group_ends rest : after_group rest -> ends_number 16 rest.
Proof. destruct rest; simpl; [done|]. by intros [->|[->| ->]]%after_group_head. Qed.

Lemma closes_ends rest : closes rest -> ends_number 10 rest.
Proof. destruct rest; simpl; [done|]. by intros [->| ->]. Qed.

Lemma after_colon s : after_group (COLON :: s).
Proof. right. by eexists. Qed.
#[export] Hint Resolve after_colon : core.

(** A group is never the start of a dotted quad. *)
Lemma group_no_ipv4 h rest : Forall hex_char h -> after_group rest -> read_ipv4 (h ++ rest) = None.
Proof.
  intros Hh Hr. destruct (read_ipv4 (h ++ rest)) as [[[[[a b] c] d] s]|] eqn:H; [exfalso|done].
  unfold read_ipv4 in H. apply bind_Some in H as ([a' s1] & Ha & H).
  apply bind_Some in H as ([b' s2] & Hb & _).
  apply (read_number_reads 10 _ _ _ ltac:(lia)) in Ha as (_ & used & E & Hu).
  unfold read_separator in Hb. apply bind_Some in Hb as (s1' & Hs & _).
  apply read_char_reads in Hs as ->.
  assert (Hdot : ~ hex_char DOT) by (unfold hex_char; vm_compute; auto).
  assert (Hno : forall c s, after_group (c :: s) -> c <> DOT /\ ~ hex_char c).
  { intros x y [->|[->| ->]]%after_group_head; (split; [done|unfold hex_char; vm_compute; auto]). }
  apply app_eq_app in E as (l & [[-> E]|[-> E]]).
  - apply Forall_app in Hh as [_ Hl]. destruct l as [|x l]; simpl in E.
    + subst rest. by apply Hno in Hr as [? _].
    + injection E as <- _. by apply Forall_inv in Hl.
  - apply Forall_app in Hu as [_ Hl]. destruct l as [|x l]; simpl in E; subst rest; apply Hno in Hr as [? ?].
    + done.
    + by apply Forall_inv in Hl.
Qed.

(** Groups as they follow the [i]-th: each behind a colon, but for the first of all. *)
Definition groups_text (i : nat) (gs : list Z) : text :=
  match i with
  | O => show_segments gs
  | S _ => gs ≫= fun g => COLON :: show_hex g
  end.

Lemma groups_text_cons i g gs :
  groups_text i (g :: gs) =
  match i with O => [] | S _ => [COLON] end ++ show_hex g ++ groups_text (S i) gs.
Proof.
  assert (Hj : forall g, show_segments (g :: gs) = show_hex g ++ groups_text 1 gs).
  { unfold show_segments. induction gs as [|g' gs IH]; intros x; [by simpl; rewrite app_nil_r|].
    change (groups_text 1 (g' :: gs)) with (COLON :: show_hex g' ++ groups_text 1 gs).
    rewrite <- IH. done. }
  destruct i; simpl; [apply Hj|done].
Qed.

(** Nothing more to read as a group, at any place. *)
Definition stops (rest : text) : Prop := closes rest \/ exists s, rest = COLON :: COLON :: s.

Lemma read_groups_stop i room rest : stops rest -> read_groups i room rest = ([], false, rest).
Proof.
  intros [Hc|[s ->]]; [|destruct i, room as [|[|room]]; reflexivity].
  destruct rest as [|c rest]; [|destruct Hc as [->| ->]]; destruct i, room as [|[|room]]; reflexivity.
Qed.

Lemma stops_after_group rest : stops rest -> after_group rest.
Proof. intros [?|[s ->]]; [by left|right; by eexists]. Qed.

Lemma groups_text_after i gs rest : after_group rest -> after_group (groups_text (S i) gs ++ rest).
Proof. destruct gs; by simpl. Qed.

(** [read_groups] reads back what was printed; with no room left, whatever follows. *)
Lemma read_groups_shown : forall gs i room rest,
  Forall is_segment gs -> (length gs <= room)%nat ->
  (if (length gs <? room)%nat then stops rest else after_group rest) ->
  read_groups i room (groups_text i gs ++ rest) = (gs, false, rest).
Proof.
  induction gs as [|g gs IH]; intros i room rest Hgs Hlen Hrest.
  - assert (Et : groups_text i [] = []) by (by destruct i). rewrite Et. simpl app.
    destruct room as [|room]; [done|]. by apply (read_groups_stop i (S room)).
  - destruct room as [|room]; simpl in Hlen; [lia|].
    apply Forall_cons in Hgs as [Hg Hgs]. destruct (segment_shown g Hg) as (_ & Hhex & _).
    assert (Hafter : after_group (groups_text (S i) gs ++ rest)).
    { apply groups_text_after. revert Hrest. case_match; [apply stops_after_group|done]. }
    assert (Hsep : forall {A} (f : text -> option (A * text)),
      read_separator COLON i f (groups_text i (g :: gs) ++ rest)
      = f (show_hex g ++ groups_text (S i) gs ++ rest)).
    { intros A f. rewrite groups_text_cons, <- !app_assoc. by destruct i. }
    cbn [read_groups]. rewrite !Hsep, group_no_ipv4 by done.
    rewrite read_shown_group by (done || by apply after_group_ends).
    assert (Hn : read_groups (S i) room (groups_text (S i) gs ++ rest) = (gs, false, rest)).
    { apply IH; [done|lia|]. revert Hrest. simpl length.
      destruct (Nat.ltb_spec (S (length gs)) (S room)), (Nat.ltb_spec (length gs) room); done || lia. }
    rewrite Hn. by destruct room.
Qed.

Lemma show_segments_cons g gs : show_segments (g :: gs) = show_hex g ++ groups_text 1 gs.
Proof. exact (groups_text_cons 0 g gs). Qed.

Lemma show_segments_snoc gs g : gs <> [] ->
  show_segments (gs ++ [g]) = show_segments gs ++ COLON :: show_hex g.
Proof.
  intros Hne. destruct gs as [|x gs]; [done|]. cbn [app]. rewrite !show_segments_cons, <- app_assoc.
  f_equal. unfold groups_text. rewrite bind_app. simpl. by rewrite app_nil_r.
Qed.

(** An IPv6 text is never the start of a dotted quad. *)
Lemma segments_no_ipv4 gs rest : Forall is_segment gs -> after_group rest -> (gs = [] -> rest <> []) ->
  read_ipv4 (show_segments gs ++ rest) = None.
Proof.
  intros Hgs Hr Hne. destruct Hgs as [|g gs Hg Hgs].
  - simpl. destruct rest as [|c rest]; [by destruct Hne|].
    apply after_group_head in Hr as [->|[->| ->]]; by apply read_ipv4_other.
  - rewrite show_segments_cons, <- app_assoc. destruct (segment_shown g Hg) as (_ & Hh & _).
    apply group_no_ipv4; [done|]. by apply groups_text_after.
Qed.

(** Eight groups, and what follows. *)
Lemma read_full_ipv6 l rest : well_formed (V6 l) -> after_group rest ->
  read_ip (show_segments l ++ rest) = Some (V6 l, rest).
Proof.
  intros [Hlen Hl] Hr. unfold read_ip. rewrite segments_no_ipv4 by (done || by intros ->).
  unfold read_ipv6. rewrite (read_groups_shown l 0 8); [|done|lia|by rewrite Hlen].
  by rewrite Hlen.
Qed.

(** A head, the double colon, and what the rest reads as. *)
Lemma read_compressed hs s : Forall is_segment hs -> (length hs <= 7)%nat ->
  read_ip (show_segments hs ++ COLON :: COLON :: s) =
  let '(tail, _, rest) := read_groups 0 (8 - (length hs + 1)) s in
  Some (V6 (hs ++ replicate (8 - length hs - length tail) 0 ++ tail), rest).
Proof.
  intros Hhs Hlen. unfold read_ip. rewrite segments_no_ipv4 by done.
  unfold read_ipv6. rewrite (read_groups_shown hs 0 8); [|done|lia|].
  - destruct (Nat.eqb_spec (length hs) 8); [lia|].
    rewrite read_char_same. cbn [mbind option_bind]. rewrite read_char_same. cbn [mbind option_bind].
    destruct (read_groups 0 (8 - (length hs + 1)) s) as [[tail v4] rest]. done.
  - destruct (Nat.ltb_spec (length hs) 8); [|lia]. right. by eexists.
Qed.

Lemma read_compressed_groups hs ts rest : Forall is_segment hs -> Forall is_segment ts ->
  (length hs + length ts <= 7)%nat -> closes rest ->
  read_ip (show_segments hs ++ COLON :: COLON :: show_segments ts ++ rest)
  = Some (V6 (hs ++ replicate (8 - length hs - length ts) 0 ++ ts), rest).
Proof.
  intros Hhs Hts Hlen Hr. rewrite read_compressed by (done || lia).
  rewrite (read_groups_shown ts 0); [done|done|lia|]. case_match; by left.
Qed.

(** *** The longest run of zeros *)

Definition zeros_at (l : list Z) (s n : nat) : Prop :=
  (s + n <= length l)%nat /\ forall j, (s <= j)%nat -> (j < s + n)%nat -> l !! j = Some 0.

Lemma zeros_at_snoc l s n x : zeros_at l s n -> zeros_at (l ++ [x]) s n.
Proof.
  intros [H1 H2]. split; [rewrite length_app; lia|]. intros j Hj Hn.
  rewrite lookup_app_l by lia. by apply H2.
Qed.

Lemma zeros_at_split l s n : zeros_at l s n -> l = take s l ++ replicate n 0 ++ drop (s + n) l.
Proof.
  intros [H1 H2]. rewrite <- (take_drop s l) at 1. f_equal.
  rewrite <- (take_drop n (drop s l)). rewrite drop_drop. f_equal.
  apply list_eq_same_length with n; [by rewrite length_replicate|rewrite length_take, length_drop; lia|].
  intros j x y Hj Hx Hy. rewrite lookup_take_lt in Hx by lia. rewrite lookup_drop in Hx.
  rewrite H2 in Hx by lia. apply lookup_replicate in Hy as [-> _]. congruence.
Qed.

Lemma longest_run_zeros l : zeros_at l (first_zero (longest_run l)) (zeros (longest_run l)).
Proof.
  unfold longest_run.
  match goal with |- context [foldl ?f ?a l] => set (step := f); set (init := a) end.
  enough (H : let '(i, current, longest) := foldl step init l in
    i = length l /\ zeros_at l (first_zero longest) (zeros longest) /\
    zeros_at l (first_zero current) (zeros current) /\
    (zeros current = 0%nat \/ (first_zero current + zeros current = length l)%nat)).
  { destruct (foldl step init l) as [[i current] longest]. tauto. }
  induction l as [|x l IH] using rev_ind.
  { simpl. split_and!; [done|split; simpl; lia|split; simpl; lia|by left]. }
  rewrite foldl_app. simpl. destruct (foldl step init l) as [[i current] longest].
  destruct IH as (-> & Hl & Hc & Hend). unfold step. rewrite length_app, Nat.add_1_r.
  destruct (Z.eqb_spec x 0) as [->|Hx].
  2:{ split_and!; [done|by apply zeros_at_snoc|split; simpl; lia|by left]. }
  match goal with |- context [if (zeros longest <? zeros ?c)%nat then _ else _] => set (cur := c) end.
  assert (Hcur : zeros_at (l ++ [0]) (first_zero cur) (zeros cur) /\
                 (first_zero cur + zeros cur = S (length l))%nat).
  { assert (Hlast : (l ++ [0]) !! length l = Some 0) by (by apply list_lookup_middle).
    subst cur. destruct (Nat.eqb_spec (zeros current) 0) as [E|E]; simpl.
    - split; [|lia]. split; [rewrite length_app; simpl; lia|]. intros j Hj1 Hj2.
      by replace j with (length l) by lia.
    - destruct Hend as [?|Hend]; [done|]. split; [|lia].
      split; [rewrite length_app; simpl; lia|]. intros j Hj1 Hj2.
      destruct (decide (j = length l)) as [->|]; [done|].
      rewrite lookup_app_l by lia. apply Hc; lia. }
  destruct Hcur as [Hcur Hsum]. clearbody cur.
  split_and!; [done|case_match; [done|by apply zeros_at_snoc]|done|right; lia].
Qed.

(** ** The printed forms of an IPv6 address *)

Inductive v6_text (l : list Z) : text -> Prop :=
| v6_mapped a b c d :
    l = [0; 0; 0; 0; 0; 65535; a * 256 + b; c * 256 + d] -> well_formed (V4 a b c d) ->
    v6_text l (lit "::ffff:" ++ show_v4 a b c d)
| v6_compressed hs z ts :
    (1 < z)%nat -> l = hs ++ replicate z 0 ++ ts ->
    v6_text l (show_segments hs ++ COLON :: COLON :: show_segments ts)
| v6_plain : v6_text l (show_segments l).

Lemma show_v6_text l : well_formed (V6 l) -> v6_text l (show_v6 l).
Proof.
  intros [Hlen Hl].
  assert (Hgen : let run := longest_run l in
    v6_text l (if (1 <? zeros run)%nat
               then show_segments (take (first_zero run) l) ++ lit "::"
                      ++ show_segments (drop (first_zero run + zeros run) l)
               else show_segments l)).
  { intros run. destruct (Nat.ltb_spec 1 (zeros run)); [|apply v6_plain].
    apply (v6_compressed l _ (zeros run)); [done|]. apply zeros_at_split, longest_run_zeros. }
  destruct (decide (take 6 l = [0; 0; 0; 0; 0; 65535])) as [Ht|Hn].
  - assert (exists a b, l = [0; 0; 0; 0; 0; 65535; a; b]) as (a & b & ->).
    { destruct l as [|x0 [|x1 [|x2 [|x3 [|x4 [|x5 [|a [|b [|]]]]]]]]]; try discriminate Hlen.
      injection Ht as -> -> -> -> -> ->. by exists a, b. }
    do 6 apply Forall_inv_tail in Hl. apply Forall_cons in Hl as [Ha Hb].
    apply Forall_inv in Hb. unfold is_segment in *.
    assert (E : [0; 0; 0; 0; 0; 65535; a; b]
      = [0; 0; 0; 0; 0; 65535; a / 256 * 256 + a mod 256; b / 256 * 256 + b mod 256]).
    { pose proof (Z.div_mod a 256). pose proof (Z.div_mod b 256). repeat f_equal; lia. }
    apply (v6_mapped _ (a / 256) (a mod 256) (b / 256) (b mod 256)); [exact E|].
    unfold well_formed, is_octet. Z.to_euclidean_division_equations. lia.
  - unfold show_v6. repeat (case_match; try exact Hgen).
    exfalso. apply Hn. by subst.
Qed.

(** Every printed form of an IPv6 address is read to its end, where the address closes. *)
Lemma read_ip_v6 s l rest : read_ip s = Some (V6 l, rest) -> read_ipv6 s = Some (l, rest).
Proof.
  unfold read_ip. destruct (read_ipv4 s) as [[[[[a b] c] d] s']|]; [done|].
  intros E. apply bind_Some in E as ([l' s'] & -> & E). by simplify_eq.
Qed.

Lemma read_shown_mapped a b c d rest : well_formed (V4 a b c d) -> ends_number 10 rest ->
  read_ip ((lit "::ffff:" ++ show_v4 a b c d) ++ rest)
  = Some (V6 [0; 0; 0; 0; 0; 65535; a * 256 + b; c * 256 + d], rest).
Proof.
  intros Hw He.
  assert (E : (lit "::ffff:" ++ show_v4 a b c d) ++ rest =
    show_segments [] ++ COLON :: COLON :: (show_hex 65535 ++ COLON :: show_v4 a b c d ++ rest)) by done.
  rewrite E, read_compressed; [|constructor|simpl; lia].
  assert (Hseg : is_segment 65535) by (unfold is_segment; lia).
  assert (Hg : read_groups 0 7 (show_hex 65535 ++ COLON :: show_v4 a b c d ++ rest)
               = ([65535; a * 256 + b; c * 256 + d], true, rest)).
  { cbn [read_groups read_separator].
    rewrite group_no_ipv4; [|apply (segment_shown 65535 Hseg)|done]. cbn [mbind option_bind].
    rewrite read_shown_group by done. rewrite read_char_same. cbn [mbind option_bind].
    rewrite read_shown_v4 by done. done. }
  change (8 - (length (@nil Z) + 1))%nat with 7%nat. by rewrite Hg.
Qed.

Lemma read_shown_v6 l rest : well_formed (V6 l) -> closes rest ->
  read_ipv6 (show_v6 l ++ rest) = Some (l, rest).
Proof.
  intros Hw Hr. pose proof Hw as [Hlen Hl]. apply read_ip_v6.
  destruct (show_v6_text l Hw) as [a b c d -> Hv4|hs z ts Hz ->|].
  - by apply read_shown_mapped, closes_ends.
  - rewrite !Forall_app in Hl. destruct Hl as (Hh & _ & Ht).
    rewrite !length_app, length_replicate in Hlen. rewrite <- app_assoc. cbn [app].
    rewrite read_compressed_groups by (done || lia).
    by replace (8 - length hs - length ts)%nat with z by lia.
  - apply read_full_ipv6; [done|by left].
Qed.
