(* ===== verification/Errors.v ===== *)
(** * Errors: [error.rs]

    The client's error type, and the three questions the rest of the code asks of an
    error: retry it, blame the path for it, count it as an unanswered query. *)

From Stdlib Require Import String.
From stdpp Require Import list.
From S2P Require Import Prelude Addresses.
#[local] Open Scope Z_scope.
#[local] Open Scope list_scope.

(** What [ClientError::kind()] of the DNS library shows of an error. *)
Inductive client_error_kind :=
| KindTimeout
| KindIo (timed_out : bool)
| KindProto (timeout : bool)
| KindOther.

(** [std::net::AddrParseError] tells only what was being parsed. *)
Inductive AddrParseError := AddrKindIp | AddrKindSocket.

(** The DNS library's error types. *)
Class ErrorTypes := {
  ProtoError : Type;
  ClientError : Type;
  client_kind : ClientError -> client_error_kind;
}.

(** [Duration]'s [Debug]: the digits of a fraction up to the last that counts, and the unit
    that leaves a whole part. *)
Fixpoint fraction_digits (fuel : nat) (fractional divisor : Z) : text :=
  match fuel with
  | O => []
  | S fuel' =>
      if 0 <? fractional
      then (48 + fractional / divisor) :: fraction_digits fuel' (fractional mod divisor) (divisor / 10)
      else []
  end.
Definition show_decimal (integer fractional divisor : Z) (unit : text) : text :=
  match fraction_digits 9 fractional divisor with
  | [] => show_Z integer ++ unit
  | digits => show_Z integer ++ DOT :: digits ++ unit
  end.
Definition show_duration (d : Z) : text :=
  let secs := d / NANOS_PER_SEC in
  let nanos := d mod NANOS_PER_SEC in
  if 0 <? secs then show_decimal secs nanos 100000000 (lit "s")
  else if 1000000 <=? nanos then show_decimal (nanos / 1000000) (nanos mod 1000000) 100000 (lit "ms")
  else if 1000 <=? nanos then show_decimal (nanos / 1000) (nanos mod 1000) 100 (181 :: lit "s")
  else show_decimal nanos 0 1 (lit "ns").

Section BlastDNSError.
Context `{ErrorTypes}.

Inductive BlastDNSError :=
| NoResolvers
| InvalidResolver (resolver : text) (source : AddrParseError)
| InvalidHostname (name : text) (source : ProtoError)
| QueueClosed
| WorkerDropped
| ResolverSetupFailed (resolver : SocketAddress) (source : ProtoError)
| ResolverRequestFailed (resolver : SocketAddress) (source : ClientError)
| QueryTimedOut (resolver : SocketAddress) (timeout : Z)
| Configuration (message : text).

(** The message of an error. *)
Definition show_error (e : BlastDNSError) : text :=
  match e with
  | NoResolvers => lit "no resolvers provided"
  | InvalidResolver resolver _ => lit "invalid resolver `" ++ resolver ++ lit "`"
  | InvalidHostname name _ => lit "invalid hostname `" ++ name ++ lit "`"
  | QueueClosed => lit "request queue closed"
  | WorkerDropped => lit "resolver workers dropped before delivering a response"
  | ResolverSetupFailed resolver _ => lit "failed to initialize resolver " ++ show_socket resolver
  | ResolverRequestFailed resolver _ => lit "resolver " ++ show_socket resolver ++ lit " query failed"
  | QueryTimedOut resolver timeout =>
      lit "resolver " ++ show_socket resolver ++ lit " did not answer within " ++ show_duration timeout
  | Configuration message => lit "configuration error: " ++ message
  end.

Definition is_retryable (e : BlastDNSError) : bool :=
  match e with
  | ResolverRequestFailed _ _ | QueryTimedOut _ _ | WorkerDropped => true
  | _ => false
  end.

Definition is_congestion_evidence (e : BlastDNSError) : bool :=
  negb match e with
       | InvalidHostname _ _ | InvalidResolver _ _ | QueueClosed | Configuration _ => true
       | _ => false
       end.

Definition is_timeout (e : BlastDNSError) : bool :=
  match e with
  | QueryTimedOut _ _ => true
  | ResolverRequestFailed _ source =>
      match client_kind source with
      | KindTimeout => true
      | KindIo timed_out => timed_out
      | KindProto timeout => timeout
      | KindOther => false
      end
  | _ => false
  end.

(** The classes nest.  A timeout is always worth retrying, an error worth retrying
    always counts against the path, and the errors that never count are exactly the
    caller's own: bad names and resolvers, configuration and shutdown. *)
Theorem error_classes_nest (e : BlastDNSError) :
  (is_timeout e = true -> is_retryable e = true) /\
  (is_retryable e = true -> is_congestion_evidence e = true) /\
  (is_congestion_evidence e = false <->
   (exists n s, e = InvalidHostname n s) \/ (exists r s, e = InvalidResolver r s) \/
   e = QueueClosed \/ exists m, e = Configuration m).
Proof.
  destruct e; simpl; (split; [try done|split; [done|]]);
    (split; [intros Hd; try discriminate Hd; eauto 6|]);
    intros [(? & ? & ?)|[(? & ? & ?)|[?|(? & ?)]]]; first [reflexivity|congruence].
Qed.

End BlastDNSError.

(** Errors to evaluate examples with: a parse error is its text, a client error its kind. *)
Definition demo_errors : ErrorTypes := {|
  ProtoError := text; ClientError := client_error_kind; client_kind := id
|}.

Example durations : show_duration <$> [from_secs 5; from_millis 1500; from_millis 2; 2500; 7; 0; 1000000001]
  = [lit "5s"; lit "1.5s"; lit "2ms"; [50; 46; 53; 181; 115]; lit "7ns"; lit "0ns"; lit "1.000000001s"].
Proof. vm_compute. reflexivity. Qed.

Example timeout_message : show_error (H := demo_errors)
    (QueryTimedOut (mk_socket (V6 [8193; 3512; 0; 0; 0; 0; 0; 1]) 53 0) (from_millis 300))
  = lit "resolver [2001:db8::1]:53 did not answer within 300ms".
Proof. vm_compute. reflexivity. Qed.
