(* ===== verification/Cache.v ===== *)
(** * The response cache: [cache.rs]

    [SimpleCache] over the LRU interface.  Times are instants in nanoseconds, supplied
    by the caller; an entry expires after the least TTL of its answers, clamped to the
    configured bounds. *)

From S2P Require Import Prelude Extern.

(** What the cache reads of a DNS response: the TTLs of its answers, in seconds. *)
Class ResponseTtls (R : Type) := answer_ttls : R -> list Z.

(** [Duration::clamp] asserts that the bounds are ordered; [None] is its panic. *)
Definition duration_clamp (d lo hi : Z) : option Z :=
  if lo <=? hi then Some (Z.min (Z.max d lo) hi) else None.

(** [iter().min().unwrap_or(0)]. *)
Definition min_or_zero (l : list Z) : Z :=
  match l with [] => 0 | x :: l' => fold_left Z.min l' x end.

Module SimpleCache.

Record CacheEntry (R : Type) := mk_entry { response : R; expire_at : Z }.
Arguments mk_entry {R}.
Arguments response {R}.
Arguments expire_at {R}.

Section SimpleCache.
Context {Q R L : Type} `{ResponseTtls R} `{LruOps Q (CacheEntry R) L}.

(** The mutex is [poisoned] once a thread panicked while it held the lock. *)
Record t := mk { inner : L; poisoned : bool; min_ttl : Z; max_ttl : Z }.
#[global] Instance t_settable : Settable t :=
  fun c => mk (inner c) (poisoned c) (min_ttl c) (max_ttl c).

Definition new (capacity min_ttl max_ttl : Z) : t :=
  mk (lru_new (Z.max capacity 1)) false min_ttl max_ttl.

Definition get (query : Q) (now : Z) (c : t) : t * option R :=
  if poisoned c then (c, None)
  else
    let '(inner', entry) := lru_get query (inner c) in
    let c := c <| inner := inner' |> in
    match entry with
    | Some e =>
        if now <? expire_at e then (c, Some (response e))
        else (c <| inner := lru_pop query inner' |>, None)
    | None => (c, None)
    end.

Definition contains (query : Q) (now : Z) (c : t) : t * bool :=
  if poisoned c then (c, false)
  else
    let '(inner', entry) := lru_get query (inner c) in
    let c := c <| inner := inner' |> in
    match entry with
    | Some e =>
        if now <? expire_at e then (c, true)
        else (c <| inner := lru_pop query inner' |>, false)
    | None => (c, false)
    end.

(** [None] is a panic. *)
Definition insert (query : Q) (resp : R) (now : Z) (c : t) : option t :=
  let ttl_secs := min_or_zero (answer_ttls resp) in
  if ttl_secs =? 0 then Some c
  else
    ttl ← duration_clamp (from_secs ttl_secs) (min_ttl c) (max_ttl c);
    let entry := mk_entry resp (now + ttl) in
    Some (if poisoned c then c else c <| inner := lru_put query entry (inner c) |>).

(** A history of calls, each with its clock reading. *)
Inductive call :=
| Get (query : Q) (now : Z)
| Contains (query : Q) (now : Z)
| Insert (query : Q) (resp : R) (now : Z).

Definition run_call (o : call) (c : t) : option t :=
  match o with
  | Get q now => Some (get q now c).1
  | Contains q now => Some (contains q now c).1
  | Insert q r now => insert q r now c
  end.

Fixpoint run_calls (os : list call) (c : t) : option t :=
  match os with [] => Some c | o :: os' => c' ← run_call o c; run_calls os' c' end.

(** When an answer inserted at [now] stops being served. *)
Definition lifetime (c : t) (resp : R) : Z :=
  Z.min (Z.max (from_secs (min_or_zero (answer_ttls resp))) (min_ttl c)) (max_ttl c).

End SimpleCache.
Arguments t L : clear implicits.
End SimpleCache.

Section CacheProofs.
Import SimpleCache.
Context {Q R L : Type} `{EqDecision Q} `{ResponseTtls R} `{LruOps Q (CacheEntry R) L}.
Context `{!Lru Q (CacheEntry R) L}.
Implicit Types c : t L.

Lemma find_key_in (k : Q) (v : CacheEntry R) l : find_key k l = Some v -> (k, v) ∈ l.
Proof.
  induction l as [|[k' v'] l IH]; simpl; [done|].
  case_decide; [intros [= ->]; subst; by left|]. intros Hf. right. by apply IH.
Qed.

Lemma find_key_head (k : Q) (v : CacheEntry R) l : find_key k ((k, v) :: l) = Some v.
Proof. simpl. by rewrite decide_True. Qed.

Lemma find_key_without (k : Q) (l : list (Q * CacheEntry R)) : find_key k (without_key k l) = None.
Proof.
  unfold without_key. induction l as [|[k' v'] l IH]; simpl; [done|]. rewrite filter_cons. simpl.
  case_decide; simpl; [by rewrite decide_False|done].
Qed.

Lemma without_key_in k (e : Q * CacheEntry R) l : e ∈ without_key k l -> e ∈ l.
Proof. unfold without_key. rewrite list_elem_of_filter. tauto. Qed.

(** The inner map after a lookup: some of the old entries, in some order. *)
Lemma lookup_entries q now c :
  lru_ok (inner c) ->
  let c' := (get q now c).1 in
  (contains q now c).1 = c' /\
  lru_ok (inner c') /\ lru_cap (inner c') = lru_cap (inner c) /\
  min_ttl c' = min_ttl c /\ max_ttl c' = max_ttl c /\
  (forall e, e ∈ lru_entries (inner c') -> e ∈ lru_entries (inner c)).
Proof.
  intros Hok. unfold get, contains. destruct (poisoned c); [done|].
  pose proof (lru_get_spec q (inner c) Hok) as Hg. destruct (lru_get q (inner c)) as [l' v].
  destruct Hg as (Hok' & Hcap & Hv & He).
  assert (forall e, e ∈ lru_entries l' -> e ∈ lru_entries (inner c)) as Hsub.
  { intros e. rewrite He. destruct v as [x|]; [|done]. rewrite elem_of_cons.
    intros [->|Hin]; [by apply find_key_in|by eapply without_key_in]. }
  destruct v as [x|]; [|simpl; auto 10]. destruct (now <? expire_at x); simpl; [by auto 10|].
  destruct (lru_pop_spec q l' Hok') as (Hok2 & Hcap2 & He2). split_and!; auto; [congruence|].
  intros e Hin. rewrite He2 in Hin. by apply Hsub, (without_key_in q).
Qed.

Lemma insert_cases q r now c c' :
  lru_ok (inner c) -> 1 <= lru_cap (inner c) -> insert q r now c = Some c' ->
  c' = c /\ (min_or_zero (answer_ttls r) = 0 \/ poisoned c = true) \/
  poisoned c = false /\ min_or_zero (answer_ttls r) <> 0 /\ min_ttl c <= max_ttl c /\
  c' = c <| inner := lru_put q (mk_entry r (now + lifetime c r)) (inner c) |>.
Proof.
  intros Hok Hcap. unfold insert, duration_clamp, lifetime.
  destruct (Z.eqb_spec (min_or_zero (answer_ttls r)) 0); [intros [= ->]; left; by auto|].
  destruct (Z.leb_spec (min_ttl c) (max_ttl c)); simpl; [|done]. intros [= <-].
  destruct (poisoned c); [left; by auto|right]. auto.
Qed.

(** Invariant of a cache since it was made with [capacity], [lo] and [hi], having
    executed the calls [hist]. *)
Record cache_inv (capacity lo hi : Z) (hist : list (call (Q := Q) (R := R))) (c : t L) : Prop := {
  inv_ok : lru_ok (inner c);
  inv_cap : lru_cap (inner c) = Z.max capacity 1;
  inv_ttls : min_ttl c = lo /\ max_ttl c = hi;
  inv_entries : forall q e, (q, e) ∈ lru_entries (inner c) ->
    exists now, Insert q (response e) now ∈ hist /\ expire_at e = now + lifetime c (response e)
                /\ min_or_zero (answer_ttls (response e)) <> 0;
}.

Lemma lifetime_ttls c c' (r : R) :
  min_ttl c' = min_ttl c -> max_ttl c' = max_ttl c -> lifetime c' r = lifetime c r.
Proof. unfold lifetime. by intros -> ->. Qed.

Lemma lookup_inv capacity lo hi hist o q now c :
  cache_inv capacity lo hi hist c -> cache_inv capacity lo hi (hist ++ [o]) (get q now c).1.
Proof.
  intros [Hok Hcap [H1 H2] He].
  destruct (lookup_entries q now c Hok) as (_ & Hok' & Hcap' & E1 & E2 & Hsub).
  split; [done|congruence|split; congruence|].
  intros q' e Hin. destruct (He q' e (Hsub _ Hin)) as (n & Hn & Hx & Hz). exists n.
  rewrite elem_of_app. rewrite (lifetime_ttls c) by done. auto.
Qed.

Lemma run_call_inv capacity lo hi hist o c c' :
  cache_inv capacity lo hi hist c -> run_call o c = Some c' ->
  cache_inv capacity lo hi (hist ++ [o]) c'.
Proof.
  intros Hinv Hrun. pose proof Hinv as [Hok Hcap [H1 H2] He].
  destruct o as [q now|q now|q r now]; simpl in Hrun.
  - injection Hrun as <-. by apply lookup_inv.
  - injection Hrun as <-. destruct (lookup_entries q now c Hok) as [-> _]. by apply lookup_inv.
  - destruct (insert_cases q r now c c' Hok ltac:(lia) Hrun) as [[-> _]|(Hp & Hz & Hle & ->)].
    + split; [done|done|done|]. intros q' e Hin. destruct (He q' e Hin) as (n & Hn & Hx & Hz).
      exists n. rewrite elem_of_app. auto.
    + destruct (lru_put_spec q (mk_entry r (now + lifetime c r)) (inner c) Hok ltac:(lia))
        as (Hok' & Hcap' & He').
      split; simpl; [done|congruence|done|]. intros q' e Hin. rewrite He' in Hin.
      apply elem_of_take in Hin as (i & Hi & _). apply list_elem_of_lookup_2 in Hi.
      apply elem_of_cons in Hi as [[= -> ->]|Hin].
      * exists now. rewrite elem_of_app. split_and!; [right; by left|done|done].
      * apply without_key_in in Hin. destruct (He q' e Hin) as (n & Hn & Hx & Hz').
        exists n. rewrite elem_of_app. auto.
Qed.

Lemma run_calls_inv capacity lo hi os : forall hist c c',
  cache_inv capacity lo hi hist c -> run_calls os c = Some c' ->
  cache_inv capacity lo hi (hist ++ os) c'.
Proof.
  induction os as [|o os IH]; intros hist c c' Hinv Hrun; simpl in Hrun.
  { injection Hrun as <-. by rewrite app_nil_r. }
  apply bind_Some in Hrun as (c1 & H1 & H2). rewrite (cons_middle o), app_assoc.
  eapply IH; [|exact H2]. by eapply run_call_inv.
Qed.

Lemma new_inv capacity lo hi : cache_inv capacity lo hi [] (new capacity lo hi).
Proof.
  destruct (lru_new_spec (Z.max capacity 1) ltac:(lia)) as (Hok & He & Hcap).
  split; simpl; [done|done|done|]. intros q e. rewrite He. by intros ?%elem_of_nil.
Qed.

(** The entry an insertion leaves, as a lookup finds it. *)
Lemma get_after_insert q r now now' c c' :
  lru_ok (inner c) -> 1 <= lru_cap (inner c) -> poisoned c = false ->
  min_or_zero (answer_ttls r) <> 0 -> insert q r now c = Some c' ->
  if now' <? now + lifetime c r
  then (get q now' c').2 = Some r
  else (get q now' c').2 = None /\
       find_key q (lru_entries (inner (get q now' c').1)) = None.
Proof.
  intros Hok Hcap Hp Hz Hins. destruct (insert_cases q r now c c' Hok Hcap Hins) as [[-> Hno]|(_ & _ & _ & ->)].
  { destruct Hno; congruence. }
  set (e := mk_entry r (now + lifetime c r)).
  destruct (lru_put_spec q e (inner c) Hok Hcap) as (Hok' & _ & He).
  assert (find_key q (lru_entries (lru_put q e (inner c))) = Some e) as Hfind.
  { rewrite He. destruct (Z.to_nat (lru_cap (inner c))) eqn:En; [lia|]. apply find_key_head. }
  unfold get. simpl. rewrite Hp.
  pose proof (lru_get_spec q _ Hok') as Hg. destruct (lru_get q (lru_put q e (inner c))) as [l' v].
  destruct Hg as (Hok2 & _ & -> & _). rewrite Hfind. simpl.
  destruct (now' <? now + lifetime c r); simpl; [done|]. split; [done|].
  destruct (lru_pop_spec q l' Hok2) as (_ & _ & ->). apply find_key_without.
Qed.

(** ** Properties *)

(** C18: the cache never serves a stale or foreign answer.  In any history of calls,
    whatever their clock readings, an answer comes back only for the question it was
    inserted under, strictly before its lifetime (its least TTL, clamped) ends, and
    only if that TTL was not zero; and the cache never holds more than its capacity. *)
Theorem cache_serves_fresh capacity lo hi os c q now r :
  run_calls os (new capacity lo hi) = Some c -> (get q now c).2 = Some r ->
  (exists at_ns, Insert q r at_ns ∈ os /\ now < at_ns + lifetime c r) /\
  min_or_zero (answer_ttls r) <> 0 /\
  Z.of_nat (length (lru_entries (inner c))) <= Z.max capacity 1.
Proof.
  intros Hrun Hget. pose proof (run_calls_inv _ _ _ _ _ _ _ (new_inv capacity lo hi) Hrun) as Hinv.
  destruct Hinv as [Hok Hcap _ He]. simpl in He.
  assert (exists e, (q, e) ∈ lru_entries (inner c) /\ response e = r /\ now < expire_at e) as (e & Hin & <- & Hx).
  { unfold get in Hget. destruct (poisoned c); [done|].
    pose proof (lru_get_spec q (inner c) Hok) as Hg. destruct (lru_get q (inner c)) as [l' v].
    destruct Hg as (_ & _ & Hv & _). destruct v as [x|]; [|done].
    destruct (Z.ltb_spec now (expire_at x)); [|done]. simpl in Hget. injection Hget as <-.
    exists x. split; [by apply find_key_in|done]. }
  destruct (He q e Hin) as (n & Hn & Hx' & Hz). rewrite Hx' in Hx.
  split; [by exists n|]. split; [done|]. rewrite <- Hcap. by destruct Hok.
Qed.

(** A cached answer comes back.  After an insertion that does not panic, the same
    question gets the answer at every instant before its lifetime ends, gets nothing
    from then on, and the first miss removes the entry. *)
Theorem insert_then_get q r now now' c c' :
  lru_ok (inner c) -> 1 <= lru_cap (inner c) -> poisoned c = false ->
  min_or_zero (answer_ttls r) <> 0 -> insert q r now c = Some c' ->
  if now' <? now + lifetime c r
  then (get q now' c').2 = Some r
  else (get q now' c').2 = None /\
       find_key q (lru_entries (inner (get q now' c').1)) = None.
Proof. exact (get_after_insert q r now now' c c'). Qed.

(** Inserting panics exactly when the answer is cacheable and the configured TTL
    bounds are crossed; nothing in the configuration rules that out. *)
Lemma insert_panics q r now c :
  insert q r now c = None <-> min_or_zero (answer_ttls r) <> 0 /\ max_ttl c < min_ttl c.
Proof.
  unfold insert, duration_clamp. destruct (Z.eqb_spec (min_or_zero (answer_ttls r)) 0) as [E|E].
  - split; [done|]. intros [? _]. done.
  - destruct (Z.leb_spec (min_ttl c) (max_ttl c)); simpl; split; try done. intros [_ ?]. lia.
Qed.

End CacheProofs.

(** ** Witnesses *)

Section CacheExamples.
Import SimpleCache.

(** Answers are their lists of TTLs, questions numbers. *)
#[local] Instance ttls_self : ResponseTtls (list Z) := fun r => r.
Definition cache : Type := t (ref_lru nat (CacheEntry (list Z))).

Definition small_cache : cache := new 2 (from_secs 10) (from_secs 60).
Definition calls : list (call (Q := nat) (R := list Z)) :=
  [Insert 1%nat [5; 300] 0; Insert 2%nat [0] 0; Insert 3%nat [90] (from_secs 1);
   Get 1%nat (from_secs 2); Insert 4%nat [30] (from_secs 3)].
Definition after_calls : cache := from_option id small_cache (run_calls calls small_cache).

(** Question 1 was used last, so inserting 4 evicted 3. *)
Example eviction :
  fst <$> lru_entries (inner after_calls) = [4%nat; 1%nat].
Proof. vm_compute. reflexivity. Qed.

Lemma cache_serves_fresh_witness :
  (exists at_ns, Insert 1%nat [5; 300] at_ns ∈ calls /\
                 from_secs 9 < at_ns + lifetime after_calls [5; 300]) /\
  min_or_zero (answer_ttls [5; 300]) <> 0 /\
  Z.of_nat (length (lru_entries (inner after_calls))) <= Z.max 2 1.
Proof.
  apply (cache_serves_fresh 2 (from_secs 10) (from_secs 60) calls after_calls 1%nat (from_secs 9) [5; 300]).
  - vm_compute. reflexivity.
  - vm_compute. reflexivity.
Defined.

Definition after_insert : cache := from_option id small_cache (insert 1%nat [5; 300] 0 small_cache).

Lemma insert_then_get_witness :
  if from_secs 11 <? 0 + lifetime small_cache [5; 300]
  then (get 1%nat (from_secs 11) after_insert).2 = Some [5; 300]
  else (get 1%nat (from_secs 11) after_insert).2 = None /\
       find_key 1%nat (lru_entries (inner (get 1%nat (from_secs 11) after_insert).1)) = None.
Proof.
  apply (insert_then_get 1%nat [5; 300] 0 (from_secs 11) small_cache after_insert).
  - split; [constructor|vm_compute; discriminate].
  - vm_compute. discriminate.
  - reflexivity.
  - vm_compute. discriminate.
  - vm_compute. reflexivity.
Defined.

(** A minimum above the maximum: any cacheable answer panics. *)
Example crossed_bounds : insert 1%nat [5] 0 (new 2 (from_secs 60) (from_secs 10) : cache) = None.
Proof. vm_compute. reflexivity. Qed.

End CacheExamples.
