(* ===== verification/Health.v ===== *)
(** * One resolver: [ResolverHealth] of [health.rs]

    Counters, purgatory, round-trip times, in-flight permits and pacing of a single
    resolver.  Every field but the connection handles is modelled; each operation on
    the counters is one step here ([Recording] cuts them), and [query_within] maps what the DNS library reports to
    the client's result. *)

From S2P Require Import Prelude Float64 Extern Limiter Config Addresses Errors.

Definition RTT_MIN_WINDOW : Z := from_secs 30.
Definition RTT_EWMA_SHIFT : Z := 3.
Definition PROBE_DEADLINE_FLOOR : Z := from_secs 2.

Record ResolverStats (A : Type) := mk_stats {
  st_resolver : A;
  st_attempted : Z;
  st_answered : Z;
  st_empty : Z;
  st_timeout : Z;
  st_error : Z;
  st_rtt_mean_us : Z;
  st_rtt_min_us : Z;
  st_purgatory_entries : Z;
  st_truncated : Z;
  st_rate_qps : option f64
}.
Arguments mk_stats {A}.
Arguments st_resolver {A}. Arguments st_attempted {A}. Arguments st_answered {A}.
Arguments st_empty {A}. Arguments st_timeout {A}. Arguments st_error {A}.
Arguments st_rtt_mean_us {A}. Arguments st_rtt_min_us {A}. Arguments st_purgatory_entries {A}.
Arguments st_truncated {A}. Arguments st_rate_qps {A}.

Module ResolverHealth.
Section ResolverHealth.
Context {A S : Type} `{SemaphoreOps S}.

Record t := mk {
  resolver : A;
  request_timeout : Z;
  persistent_socket : bool;
  purgatory_threshold : Z;
  purgatory_sentence : Z;
  inflight : S;
  limiter : RateLimiter.t;
  start : Z;
  active : bool;
  attempted : Z;
  answered : Z;
  empty : Z;
  timeout : Z;
  error : Z;
  consecutive_errors : Z;
  benched_until : Z;
  purgatory_entries : Z;
  truncated : Z;
  rtt_ewma_us : Z;
  rtt_min_us : Z;
  rtt_min_window_ns : Z
}.
#[global] Instance t_settable : Settable t := fun h =>
  mk (resolver h) (request_timeout h) (persistent_socket h) (purgatory_threshold h)
     (purgatory_sentence h) (inflight h) (limiter h) (start h) (active h) (attempted h)
     (answered h) (empty h) (timeout h) (error h) (consecutive_errors h) (benched_until h)
     (purgatory_entries h) (truncated h) (rtt_ewma_us h) (rtt_min_us h) (rtt_min_window_ns h).

(** [None] would be the limiter's panic. *)
Definition new (addr : A) (config : BlastDNSConfig) (start now : Z) : option t :=
  limiter ← RateLimiter.new UNLIMITED_QPS now;
  Some (mk addr (Config.request_timeout config) (Config.persistent_socket config)
          (Config.purgatory_threshold config) (Config.purgatory_sentence config)
          (sem_new (Z.max (max_inflight_per_resolver config) 1)) limiter start true
          0 0 0 0 0 0 0 0 0 0 0 0).

Definition addr (h : t) : A := resolver h.
Definition now_ns (now : Z) (h : t) : Z := elapsed_ns (start h) now.

Definition try_acquire (h : t) : option t :=
  s ← sem_try_acquire (inflight h); Some (h <| inflight := s |>).

Definition is_active (h : t) : bool := active h.
Definition rate (h : t) : f64 := RateLimiter.rate (limiter h).
Definition set_rate (qps : f64) (h : t) : option t :=
  l ← RateLimiter.set_rate qps (limiter h); Some (h <| limiter := l |>).

Definition is_benched (now : Z) (h : t) : bool := now_ns now h <? benched_until h.
Definition benched_until_ns (h : t) : Z := benched_until h.

(** What a startup probe that found the resolver [alive] or not leaves behind. *)
Definition probe_deadline (h : t) : Z := Z.max (request_timeout h) PROBE_DEADLINE_FLOOR.
Definition probe (alive : bool) (h : t) : t := if alive then h else h <| active := false |>.

Definition record_truncated (h : t) : t := h <| truncated := fetch_add (truncated h) 1 |>.
Definition record_dispatch (h : t) : t := h <| attempted := fetch_add (attempted h) 1 |>.

Definition decay_errors (h : t) : t :=
  h <| consecutive_errors := u64_saturating_sub (consecutive_errors h) 1 |>.

Definition record_rtt (rtt now : Z) (h : t) : t :=
  let sample := Z.max (wrap_u64 (rtt / 1000)) 1 in
  let previous := rtt_ewma_us h in
  let ewma := if previous =? 0 then sample
              else u64_add (previous - Z.shiftr previous RTT_EWMA_SHIFT)
                           (Z.shiftr sample RTT_EWMA_SHIFT) in
  let h := h <| rtt_ewma_us := Z.max ewma 1 |> in
  let now := now_ns now h in
  let window_start := rtt_min_window_ns h in
  let current_min := rtt_min_us h in
  let lapsed := wrap_u64 RTT_MIN_WINDOW <? u64_saturating_sub now window_start in
  if (current_min =? 0) || lapsed
  then h <| rtt_min_us := sample |> <| rtt_min_window_ns := now |>
  else if sample <? current_min then h <| rtt_min_us := sample |> else h.

Definition record_response (rtt : Z) (had_answers : bool) (now : Z) (h : t) : t :=
  let h := if had_answers then h <| answered := fetch_add (answered h) 1 |>
           else h <| empty := fetch_add (empty h) 1 |> in
  record_rtt rtt now (decay_errors h).

Definition record_error (is_timeout : bool) (now : Z) (h : t) : t :=
  let h := if is_timeout then h <| timeout := fetch_add (timeout h) 1 |>
           else h <| error := fetch_add (error h) 1 |> in
  let consecutive := u64_add (consecutive_errors h) 1 in
  let h := h <| consecutive_errors := fetch_add (consecutive_errors h) 1 |> in
  if (purgatory_threshold h =? 0) || (consecutive <? purgatory_threshold h) then h
  else if purgatory_sentence h =? 0 then h
  else
    let until := u64_add (now_ns now h) (wrap_u64 (purgatory_sentence h)) in
    h <| benched_until := until |>
      <| purgatory_entries := fetch_add (purgatory_entries h) 1 |>
      <| consecutive_errors := 0 |>.

Definition stats (h : t) : ResolverStats A :=
  mk_stats (resolver h) (attempted h) (answered h) (empty h) (timeout h) (error h)
    (rtt_ewma_us h) (rtt_min_us h) (purgatory_entries h) (truncated h)
    (if (rate h <? UNLIMITED_QPS)%f64 then Some (rate h) else None).

(** What happens to one query, as its outcome is recorded. *)
Inductive event :=
| Dispatched
| Responded (rtt : Z) (had_answers : bool) (now : Z)
| Errored (is_timeout : bool) (now : Z)
| Truncated.

Definition apply (e : event) (h : t) : t :=
  match e with
  | Dispatched => record_dispatch h
  | Responded rtt had_answers now => record_response rtt had_answers now h
  | Errored is_timeout now => record_error is_timeout now h
  | Truncated => record_truncated h
  end.

Definition apply_all (es : list event) (h : t) : t := fold_left (fun h e => apply e h) es h.

End ResolverHealth.
Arguments t A S : clear implicits.

(** What the DNS library reports of one exchange, bounded by a deadline. *)
Inductive exchange (E Response : Type) `{ErrorTypes} :=
| Disconnected (e : E)
| Answered (response : Response)
| Failed (source : ClientError)
| Elapsed.
Arguments Disconnected {E Response _}.
Arguments Answered {E Response _}.
Arguments Failed {E Response _}.
Arguments Elapsed {E Response _}.

Definition query_within {S Response} `{ErrorTypes} (h : t SocketAddress S) (deadline : Z)
    (x : exchange BlastDNSError Response) : result Response BlastDNSError :=
  match x with
  | Disconnected e => Err e
  | Answered response => Ok response
  | Failed source => Err (ResolverRequestFailed (resolver h) source)
  | Elapsed => Err (QueryTimedOut (resolver h) deadline)
  end.

Definition query_bounded {S Response} `{ErrorTypes} (h : t SocketAddress S)
    (x : exchange BlastDNSError Response) : result Response BlastDNSError :=
  query_within h (request_timeout h) x.

End ResolverHealth.

(** ** Counters *)

Section HealthSpec.
Import ResolverHealth.
Context {A S : Type} `{SemaphoreOps S}.
Implicit Types h : t A S.

Definition count (f : event -> bool) (es : list event) : Z :=
  Z.of_nat (length (filter (fun e => f e = true) es)).

Definition is_dispatch (e : event) : bool := match e with Dispatched => true | _ => false end.
Definition is_answer (e : event) : bool := match e with Responded _ true _ => true | _ => false end.
Definition is_empty (e : event) : bool := match e with Responded _ false _ => true | _ => false end.
Definition is_timed_out (e : event) : bool := match e with Errored true _ => true | _ => false end.
Definition is_failure (e : event) : bool := match e with Errored false _ => true | _ => false end.
Definition is_error (e : event) : bool := match e with Errored _ _ => true | _ => false end.
Definition is_outcome (e : event) : bool :=
  match e with Responded _ _ _ | Errored _ _ => true | _ => false end.

(** A response's sample, in microseconds. *)
Definition sample_us (rtt : Z) : Z := Z.max (wrap_u64 (rtt / 1000)) 1.
Definition samples_within (lo hi : Z) (e : event) : Prop :=
  match e with Responded rtt _ _ => lo <= sample_us rtt <= hi | _ => True end.
Definition errors_at (ts : list (bool * Z)) : list event :=
  (fun '(is_timeout, now) => Errored is_timeout now) <$> ts.
End HealthSpec.

Section HealthProofs.
Import ResolverHealth.
Context {A S : Type} `{SemaphoreOps S}.
Implicit Types h : t A S.

Lemma apply_all_cons e es h : apply_all (e :: es) h = apply_all es (apply e h).
Proof. done. Qed.

Lemma apply_all_app es1 es2 h : apply_all (es1 ++ es2) h = apply_all es2 (apply_all es1 h).
Proof. apply fold_left_app. Qed.

Lemma count_cons f e es : count f (e :: es) = (if f e then 1 else 0) + count f es.
Proof.
  unfold count. rewrite filter_cons. destruct (f e); simpl; [|done].
  rewrite Nat2Z.inj_succ. lia.
Qed.

Lemma count_nonneg f es : 0 <= count f es.
Proof. unfold count. lia. Qed.

(** One round-trip sample, field by field. *)
Lemma record_rtt_frame rtt now h :
  let h' := record_rtt rtt now h in
  attempted h' = attempted h /\ answered h' = answered h /\ empty h' = empty h /\
  timeout h' = timeout h /\ error h' = error h /\ consecutive_errors h' = consecutive_errors h /\
  benched_until h' = benched_until h /\ purgatory_entries h' = purgatory_entries h /\
  purgatory_threshold h' = purgatory_threshold h /\ purgatory_sentence h' = purgatory_sentence h /\
  start h' = start h /\ active h' = active h /\ inflight h' = inflight h /\ limiter h' = limiter h.
Proof.
  unfold record_rtt. cbv zeta.
  repeat match goal with |- context [if ?c then _ else _] => destruct c end; simpl; split_and!; done.
Qed.

(** What an error does to the counters and to purgatory. *)
Lemma record_error_frame is_timeout now h :
  let h' := record_error is_timeout now h in
  attempted h' = attempted h /\ answered h' = answered h /\ empty h' = empty h /\
  timeout h' = (if is_timeout then fetch_add (timeout h) 1 else timeout h) /\
  error h' = (if is_timeout then error h else fetch_add (error h) 1) /\
  purgatory_threshold h' = purgatory_threshold h /\ purgatory_sentence h' = purgatory_sentence h /\
  start h' = start h /\ active h' = active h /\ inflight h' = inflight h /\ limiter h' = limiter h /\
  rtt_ewma_us h' = rtt_ewma_us h /\ rtt_min_us h' = rtt_min_us h.
Proof.
  unfold record_error. cbv zeta. destruct is_timeout;
    repeat match goal with |- context [if ?c then _ else _] => destruct c end; simpl; split_and!; done.
Qed.

(** Counters modulo [2 ^ 64]. *)
Lemma wrap_add a b : wrap_u64 (wrap_u64 a + b) = wrap_u64 (a + b).
Proof. unfold wrap_u64. by rewrite Zplus_mod_idemp_l. Qed.

Lemma wrap_small a : 0 <= a < u64_modulus -> wrap_u64 a = a.
Proof. apply Z.mod_small. Qed.

(** A [fetch_add] counter counts the events that bump it. *)
Definition counts (field : t A S -> Z) (f : event -> bool) : Prop :=
  forall e h, field (apply e h) = if f e then fetch_add (field h) 1 else field h.

Lemma counts_all field f es h :
  counts field f -> 0 <= field h -> field h + count f es < u64_modulus ->
  field (apply_all es h) = field h + count f es.
Proof.
  intros Hc. revert h. induction es as [|e es IH]; intros h Hn Hlt; [unfold count; simpl; lia|].
  rewrite apply_all_cons, count_cons in *. pose proof (count_nonneg f es). specialize (Hc e h).
  destruct (f e).
  - unfold fetch_add in Hc. rewrite wrap_small in Hc by lia. rewrite IH; lia.
  - rewrite IH; lia.
Qed.

Lemma record_response_frame rtt had_answers now h :
  let h' := record_response rtt had_answers now h in
  attempted h' = attempted h /\
  answered h' = (if had_answers then fetch_add (answered h) 1 else answered h) /\
  empty h' = (if had_answers then empty h else fetch_add (empty h) 1) /\
  timeout h' = timeout h /\ error h' = error h /\
  consecutive_errors h' = u64_saturating_sub (consecutive_errors h) 1 /\
  benched_until h' = benched_until h /\ purgatory_entries h' = purgatory_entries h /\
  purgatory_threshold h' = purgatory_threshold h /\ purgatory_sentence h' = purgatory_sentence h.
Proof.
  unfold record_response. cbv zeta.
  match goal with |- context [record_rtt rtt now ?x] => destruct (record_rtt_frame rtt now x)
    as (-> & -> & -> & -> & -> & -> & -> & -> & -> & -> & _) end.
  by destruct had_answers.
Qed.

Ltac counter :=
  let e := fresh "e" in let h := fresh "h" in
  intros e h; destruct e as [|rtt had now|timed now|];
  cbn [apply is_dispatch is_answer is_empty is_timed_out is_failure is_error]; try reflexivity;
  [ match goal with |- context [record_response ?r ?b ?n h] =>
      generalize (record_response_frame r b n h); destruct b end
  | match goal with |- context [record_error ?b ?n h] =>
      generalize (record_error_frame b n h); destruct b end ];
  cbv zeta; intros ?; destruct_and!; assumption.

Lemma attempted_counts : counts attempted is_dispatch.
Proof. counter. Qed.
Lemma answered_counts : counts answered is_answer.
Proof. counter. Qed.
Lemma empty_counts : counts empty is_empty.
Proof. counter. Qed.
Lemma timeout_counts : counts timeout is_timed_out.
Proof. counter. Qed.
Lemma error_counts : counts error is_failure.
Proof. counter. Qed.

Lemma outcome_split es :
  count is_outcome es = count is_answer es + count is_empty es + count is_timed_out es + count is_failure es.
Proof.
  induction es as [|e es IH]; [done|]. rewrite !count_cons, IH.
  destruct e as [|? [] ?|[] ?|]; simpl; lia.
Qed.

Lemma count_le f es : count f es <= Z.of_nat (length es).
Proof. unfold count. pose proof (length_filter (fun e => f e = true) es). lia. Qed.

(** ** Purgatory *)

(** Purgatory is enabled, and the count is short of the threshold. *)
Record purgatory_ok h : Prop := {
  po_threshold : 0 < purgatory_threshold h < u64_modulus;
  po_sentence : 0 < purgatory_sentence h;
  po_count : 0 <= consecutive_errors h < purgatory_threshold h;
}.

Lemma record_error_purgatory is_timeout now h :
  purgatory_ok h ->
  let h' := record_error is_timeout now h in
  purgatory_ok h' /\
  if consecutive_errors h + 1 <? purgatory_threshold h
  then benched_until h' = benched_until h /\ purgatory_entries h' = purgatory_entries h /\
       consecutive_errors h' = consecutive_errors h + 1
  else benched_until h' = u64_add (now_ns now h) (wrap_u64 (purgatory_sentence h)) /\
       purgatory_entries h' = fetch_add (purgatory_entries h) 1 /\ consecutive_errors h' = 0.
Proof.
  intros [Ht Hs Hc].
  assert (u64_add (consecutive_errors h) 1 = consecutive_errors h + 1) as Eu
    by (apply wrap_small; lia).
  unfold record_error. cbv zeta.
  set (g := if is_timeout then h <| timeout := fetch_add (timeout h) 1 |>
            else h <| error := fetch_add (error h) 1 |>).
  assert (consecutive_errors g = consecutive_errors h /\ purgatory_threshold g = purgatory_threshold h /\
          purgatory_sentence g = purgatory_sentence h /\ benched_until g = benched_until h /\
          purgatory_entries g = purgatory_entries h /\ start g = start h)
    as (E1 & E2 & E3 & E4 & E5 & E6) by (by destruct is_timeout).
  clearbody g. simpl. unfold fetch_add at 1 2 3. fold (u64_add (consecutive_errors g) 1).
  rewrite E1, E2, E3, Eu. rewrite (proj2 (Z.eqb_neq _ 0)) by lia. simpl.
  destruct (Z.ltb_spec (consecutive_errors h + 1) (purgatory_threshold h)).
  - split; [split; simpl; rewrite ?E1, ?E2, ?E3; lia|]. simpl. auto.
  - rewrite (proj2 (Z.eqb_neq _ 0)) by lia. simpl. split; [split; simpl; rewrite ?E2, ?E3; lia|].
    unfold now_ns. rewrite E5, E6. simpl. auto.
Qed.

(** The purgatory account: every entry paid for by a threshold of errors. *)
Lemma apply_purgatory e h :
  purgatory_ok h -> 0 <= purgatory_entries h < u64_max ->
  let h' := apply e h in
  purgatory_ok h' /\ purgatory_threshold h' = purgatory_threshold h /\
  0 <= purgatory_entries h' <= purgatory_entries h + (if is_error e then 1 else 0) /\
  purgatory_entries h' * purgatory_threshold h + consecutive_errors h' <=
  purgatory_entries h * purgatory_threshold h + consecutive_errors h + (if is_error e then 1 else 0).
Proof.
  intros Hp He. pose proof Hp as [Ht Hs Hc]. destruct e as [|rtt had now|timed now|]; cbn [apply is_error].
  - split; [by split|]. simpl. lia.
  - generalize (record_response_frame rtt had now h). cbv zeta. intros ?. destruct_and!.
    unfold u64_saturating_sub in *. split; [split; lia|]. split; [done|]. split; lia.
  - destruct (record_error_frame timed now h) as (_ & _ & _ & _ & _ & E1 & _).
    destruct (record_error_purgatory timed now h Hp) as [Hp' Hcase]. split; [exact Hp'|].
    split; [exact E1|]. destruct (Z.ltb_spec (consecutive_errors h + 1) (purgatory_threshold h)).
    + destruct Hcase as (_ & -> & ->). lia.
    + destruct Hcase as (_ & -> & ->). unfold fetch_add.
      rewrite wrap_small by (unfold u64_max in *; lia). lia.
  - split; [by split|]. simpl. lia.
Qed.

Lemma apply_all_purgatory es : forall h,
  purgatory_ok h -> 0 <= purgatory_entries h ->
  purgatory_entries h + Z.of_nat (length es) < u64_max ->
  let h' := apply_all es h in
  purgatory_ok h' /\
  purgatory_entries h' * purgatory_threshold h + consecutive_errors h' <=
  purgatory_entries h * purgatory_threshold h + consecutive_errors h + count is_error es.
Proof.
  induction es as [|e es IH]; intros h Hp H0 Hlen; [split; [done|unfold count; simpl; lia]|].
  rewrite apply_all_cons, count_cons. simpl length in Hlen.
  destruct (apply_purgatory e h Hp ltac:(lia)) as (Hp' & Et & He & Hacc).
  destruct (IH (apply e h) Hp') as [IH1 IH2]; [lia|destruct (is_error e); lia|].
  split; [exact IH1|]. rewrite Et in IH2. lia.
Qed.

Lemma apply_all_threshold es : forall h, purgatory_threshold (apply_all es h) = purgatory_threshold h.
Proof.
  induction es as [|e es IH]; intros h; [done|]. rewrite apply_all_cons, IH.
  destruct e as [|rtt had now|timed now|]; cbn [apply]; try done.
  - generalize (record_response_frame rtt had now h). cbv zeta. intros ?. by destruct_and!.
  - generalize (record_error_frame timed now h). cbv zeta. intros ?. by destruct_and!.
Qed.

(** Errors in a row, short of the threshold. *)
Lemma errors_below ts : forall h,
  purgatory_ok h -> consecutive_errors h + Z.of_nat (length ts) < purgatory_threshold h ->
  let h' := apply_all (errors_at ts) h in
  purgatory_ok h' /\ benched_until h' = benched_until h /\ purgatory_entries h' = purgatory_entries h /\
  consecutive_errors h' = consecutive_errors h + Z.of_nat (length ts) /\
  purgatory_threshold h' = purgatory_threshold h /\ purgatory_sentence h' = purgatory_sentence h /\
  start h' = start h.
Proof.
  induction ts as [|[timed now] ts IH]; intros h Hp Hlt; simpl length in *; [simpl; split_and!; try done; lia|].
  change (errors_at ((timed, now) :: ts)) with (Errored timed now :: errors_at ts).
  rewrite apply_all_cons. cbn [apply].
  destruct (record_error_frame timed now h) as (_ & _ & _ & _ & _ & E1 & E2 & E3 & _).
  destruct (record_error_purgatory timed now h Hp) as [Hp' Hcase].
  rewrite (proj2 (Z.ltb_lt _ _)) in Hcase by lia. destruct Hcase as (F1 & F2 & F3).
  destruct (IH _ Hp') as (I1 & I2 & I3 & I4 & I5 & I6 & I7); [lia|].
  split_and!; [done|congruence|congruence|lia|congruence..].
Qed.

(** ** Round-trip times *)

Lemma ewma_between lo hi p s :
  0 <= lo -> lo <= p <= hi -> lo <= s <= hi ->
  lo <= p - Z.shiftr p 3 + Z.shiftr s 3 <= hi.
Proof.
  intros H0 Hp Hs. rewrite !Z.shiftr_div_pow2 by lia. change (2 ^ 3) with 8.
  Z.div_mod_to_equations. lia.
Qed.

(** The recorded times: none yet, or all within the bounds of the samples. *)
Definition rtt_within (lo hi : Z) h : Prop :=
  rtt_ewma_us h = 0 /\ rtt_min_us h = 0 \/
  lo <= rtt_ewma_us h <= hi /\ lo <= rtt_min_us h <= hi.

Lemma record_rtt_within lo hi rtt now h :
  1 <= lo -> hi <= u64_max -> rtt_within lo hi h -> lo <= sample_us rtt <= hi ->
  rtt_within lo hi (record_rtt rtt now h) /\ rtt_min_us (record_rtt rtt now h) <= sample_us rtt.
Proof.
  intros Hlo Hhi Hw Hs. unfold record_rtt. fold (sample_us rtt). cbv zeta.
  set (ewma := if rtt_ewma_us h =? 0 then _ else _).
  assert (lo <= Z.max ewma 1 <= hi) as He.
  { unfold ewma. destruct (Z.eqb_spec (rtt_ewma_us h) 0); [lia|].
    destruct Hw as [[? _]|[Hp _]]; [lia|]. pose proof (ewma_between lo hi _ _ ltac:(lia) Hp Hs).
    unfold u64_add. rewrite wrap_small by (unfold RTT_EWMA_SHIFT, u64_max in *; lia).
    unfold RTT_EWMA_SHIFT. lia. }
  clearbody ewma. unfold rtt_within. simpl. unfold now_ns. simpl.
  destruct (Z.eqb_spec (rtt_min_us h) 0) as [Em|Em]; simpl; [split; [right; lia|lia]|].
  destruct (_ <? _); simpl; [split; [right; lia|lia]|].
  destruct Hw as [[_ ?]|[_ Hm]]; [lia|].
  destruct (Z.ltb_spec (sample_us rtt) (rtt_min_us h)); simpl; split; [right; lia|lia|right; lia|lia].
Qed.

Lemma apply_rtt lo hi e h :
  1 <= lo -> hi <= u64_max -> rtt_within lo hi h -> samples_within lo hi e -> rtt_within lo hi (apply e h).
Proof.
  intros Hlo Hhi Hw Hs. destruct e as [|rtt had now|timed now|]; cbn [apply]; try done.
  - unfold record_response. apply record_rtt_within; [done|done| |done]. by destruct had.
  - pose proof (record_error_frame timed now h) as Hf. cbv zeta in Hf. unfold rtt_within.
    destruct_and! Hf. congruence || (repeat match goal with E : _ = _ |- _ => rewrite E; clear E end; done).
Qed.

(** ** Properties *)

(** The counters account for every query.  After any history from a new resolver,
    shorter than [2 ^ 64], each counter is the number of its events; so
    [attempted = answered + empty + timeout + error] exactly when every dispatched
    query has had its outcome recorded. *)
Theorem stats_account addr config start now h es :
  new addr config start now = Some h -> Z.of_nat (length es) < u64_modulus ->
  let st := stats (apply_all es h) in
  st_attempted st = count is_dispatch es /\ st_answered st = count is_answer es /\
  st_empty st = count is_empty es /\ st_timeout st = count is_timed_out es /\
  st_error st = count is_failure es /\
  (st_attempted st = st_answered st + st_empty st + st_timeout st + st_error st <->
   count is_dispatch es = count is_outcome es).
Proof.
  intros Hnew Hlen. unfold new in Hnew. apply bind_Some in Hnew as (l & _ & [= <-]).
  simpl. set (h := mk _ _ _ _ _ _ _ _ _ _ _ _ _ _ _ _ _ _ _ _ _).
  assert (forall field f, counts field f -> field h = 0 -> field (apply_all es h) = count f es) as Hall.
  { intros field f Hc H0. pose proof (count_le f es).
    rewrite (counts_all field f es h Hc); rewrite ?H0; lia. }
  rewrite (Hall _ _ attempted_counts), (Hall _ _ answered_counts), (Hall _ _ empty_counts),
    (Hall _ _ timeout_counts), (Hall _ _ error_counts) by done.
  rewrite outcome_split. split_and!; done || lia.
Qed.

(** C29: purgatory takes exactly a threshold of consecutive errors.  From a count [c],
    fewer than [threshold - c] errors in a row bench nobody; the error that reaches the
    threshold benches the resolver for the sentence, counts an entry and clears the
    count, and the resolver is eligible again exactly when the sentence has passed. *)
Theorem purgatory_cycle ts timed now now' h :
  purgatory_ok h ->
  consecutive_errors h + Z.of_nat (length ts) = purgatory_threshold h - 1 ->
  0 <= now_ns now h + purgatory_sentence h < u64_modulus ->
  let h1 := apply_all (errors_at ts) h in
  let h2 := apply_all (errors_at (ts ++ [(timed, now)])) h in
  benched_until h1 = benched_until h /\ purgatory_entries h1 = purgatory_entries h /\
  benched_until h2 = now_ns now h + purgatory_sentence h /\
  purgatory_entries h2 = fetch_add (purgatory_entries h) 1 /\ consecutive_errors h2 = 0 /\
  (is_benched now' h2 = true <-> now_ns now' h < now_ns now h + purgatory_sentence h).
Proof.
  intros Hp Hlen Hroom h1 h2.
  destruct (errors_below ts h Hp ltac:(lia)) as (Hp1 & B1 & B2 & B3 & B4 & B5 & B6).
  fold h1 in Hp1, B1, B2, B3, B4, B5, B6.
  assert (h2 = record_error timed now h1) as E2.
  { unfold h2, errors_at. rewrite fmap_app, apply_all_app. done. }
  destruct (record_error_purgatory timed now h1 Hp1) as [_ Hcase]. rewrite <- E2 in Hcase.
  rewrite (proj2 (Z.ltb_ge _ _)) in Hcase by lia. destruct Hcase as (C1 & C2 & C3).
  destruct (record_error_frame timed now h1) as (_ & _ & _ & _ & _ & _ & _ & Es & _).
  rewrite <- E2 in Es.
  assert (now_ns now h1 = now_ns now h) as En by (unfold now_ns; congruence).
  assert (0 <= now_ns now h) as Hn by (apply Z.mod_pos_bound; done).
  pose proof (po_sentence h Hp).
  assert (benched_until h2 = now_ns now h + purgatory_sentence h) as Hb.
  { rewrite C1, En, B5. unfold u64_add. rewrite (wrap_small (purgatory_sentence h)) by lia.
    by apply wrap_small. }
  split_and!; try done; [congruence|].
  unfold is_benched. rewrite Hb, Z.ltb_lt. unfold now_ns. rewrite Es, B6. done.
Qed.

(** Nobody is benched for less.  Over any history from a new resolver, the
    sentences served times the threshold, plus the errors still on the count, never
    exceed the errors recorded; the count itself stays below the threshold. *)
Theorem sentences_are_earned addr config start now h es :
  new addr config start now = Some h ->
  0 < Config.purgatory_threshold config < u64_modulus -> 0 < Config.purgatory_sentence config ->
  Z.of_nat (length es) < u64_max ->
  let h' := apply_all es h in
  consecutive_errors h' < Config.purgatory_threshold config /\
  purgatory_entries h' * Config.purgatory_threshold config + consecutive_errors h' <= count is_error es.
Proof.
  intros Hnew Ht Hs Hlen. unfold new in Hnew. apply bind_Some in Hnew as (l & _ & [= <-]). simpl.
  set (h := mk _ _ _ _ _ _ _ _ _ _ _ _ _ _ _ _ _ _ _ _ _).
  assert (purgatory_ok h) as Hp by (split; simpl; lia).
  pose proof (apply_all_threshold es h) as Et.
  destruct (apply_all_purgatory es h Hp) as [Hp' Hacc]; [done|simpl; lia|].
  pose proof (po_count _ Hp') as Hc. rewrite Et in Hc. simpl in *. lia.
Qed.

(** The reported round-trip times are within the samples.  If every response took
    between [lo] and [hi] microseconds (a sample is at least one), the moving average
    and the minimum are zero before the first response and within the bounds for ever
    after: the shift arithmetic neither drifts, underflows nor wraps; and after a
    response the minimum is at most its sample. *)
Theorem rtt_within_samples addr config start now h es lo hi rtt had at_ns :
  new addr config start now = Some h -> 1 <= lo -> hi <= u64_max ->
  Forall (samples_within lo hi) es -> lo <= sample_us rtt <= hi ->
  let h1 := apply_all es h in
  let h2 := apply (Responded rtt had at_ns) h1 in
  (rtt_ewma_us h1 = 0 /\ rtt_min_us h1 = 0 \/
   lo <= rtt_ewma_us h1 <= hi /\ lo <= rtt_min_us h1 <= hi) /\
  lo <= rtt_ewma_us h2 <= hi /\ lo <= rtt_min_us h2 <= sample_us rtt.
Proof.
  intros Hnew Hlo Hhi Hall Hs h1 h2.
  assert (rtt_within lo hi h1) as H1.
  { assert (rtt_within lo hi h) as H0.
    { unfold new in Hnew. apply bind_Some in Hnew as (l & _ & [= <-]). by left. }
    unfold h1. clear Hnew h1 h2. revert h H0. induction Hall as [|e es He _ IH]; intros h H0; [done|].
    rewrite apply_all_cons. apply IH. by apply apply_rtt. }
  split; [exact H1|]. unfold h2, apply, record_response.
  match goal with |- context [record_rtt rtt at_ns ?g] =>
    destruct (record_rtt_within lo hi rtt at_ns g Hlo Hhi) as [Hw Hm]; [by destruct had|done|];
    assert (rtt_ewma_us (record_rtt rtt at_ns g) <> 0) as Hne
  end.
  { unfold record_rtt. cbv zeta.
    repeat match goal with |- context [if ?c then _ else _] => destruct c end; simpl; lia. }
  destruct Hw as [[? _]|[? ?]]; [done|lia].
Qed.

End HealthProofs.

(** ** Witnesses and examples *)

Section HealthExamples.
Import ResolverHealth.

(** A new resolver with the default configuration, ten errors and a second's bench. *)
Definition demo : t nat ref_sem :=
  mk 53%nat (from_millis 1000) false 10 (from_millis 1000) (sem_new 2) (RateLimiter.mk 1 0 0) 0 true
    0 0 0 0 0 0 0 0 0 0 0 0.

Lemma demo_new : new 53%nat default_config 0 0 = Some demo.
Proof. vm_compute. reflexivity. Qed.

Definition some_history : list event :=
  [Dispatched; Responded 3000000 true (from_millis 3); Dispatched; Errored true (from_millis 1003);
   Dispatched; Responded 5000000 false (from_millis 1008)].

Example some_stats :
  let st := stats (apply_all some_history demo) in
  (st_attempted st, st_answered st, st_empty st, st_timeout st, st_error st) = (3, 1, 1, 1, 0) /\
  st_rtt_mean_us st = 3250 /\ st_rtt_min_us st = 3000 /\ st_rate_qps st = None.
Proof. vm_compute. auto. Qed.

Lemma stats_account_witness :
  let st := stats (apply_all some_history demo) in
  st_attempted st = count is_dispatch some_history /\ st_answered st = count is_answer some_history /\
  st_empty st = count is_empty some_history /\ st_timeout st = count is_timed_out some_history /\
  st_error st = count is_failure some_history /\
  (st_attempted st = st_answered st + st_empty st + st_timeout st + st_error st <->
   count is_dispatch some_history = count is_outcome some_history).
Proof.
  apply (stats_account 53%nat default_config 0 0 demo some_history).
  - exact demo_new.
  - vm_compute. reflexivity.
Defined.

Definition nine_errors : list (bool * Z) := replicate 9 (true, from_secs 1).

Lemma purgatory_cycle_witness :
  let h1 := apply_all (errors_at nine_errors) demo in
  let h2 := apply_all (errors_at (nine_errors ++ [(false, from_secs 2)])) demo in
  benched_until h1 = benched_until demo /\ purgatory_entries h1 = purgatory_entries demo /\
  benched_until h2 = now_ns (from_secs 2) demo + purgatory_sentence demo /\
  purgatory_entries h2 = fetch_add (purgatory_entries demo) 1 /\ consecutive_errors h2 = 0 /\
  (is_benched (from_secs 2) h2 = true <->
   now_ns (from_secs 2) demo < now_ns (from_secs 2) demo + purgatory_sentence demo).
Proof.
  apply (purgatory_cycle nine_errors false (from_secs 2) (from_secs 2) demo).
  - split; vm_compute; repeat split; discriminate.
  - reflexivity.
  - vm_compute. split; [discriminate|reflexivity].
Defined.

Lemma sentences_are_earned_witness :
  let h' := apply_all (errors_at (nine_errors ++ nine_errors)) demo in
  consecutive_errors h' < 10 /\
  purgatory_entries h' * 10 + consecutive_errors h' <= count is_error (errors_at (nine_errors ++ nine_errors)).
Proof.
  apply (sentences_are_earned 53%nat default_config 0 0 demo (errors_at (nine_errors ++ nine_errors))).
  - exact demo_new.
  - vm_compute. split; reflexivity.
  - vm_compute. reflexivity.
  - vm_compute. reflexivity.
Defined.

Lemma rtt_within_samples_witness :
  let h1 := apply_all some_history demo in
  let h2 := apply (Responded 4000000 true (from_secs 2)) h1 in
  (rtt_ewma_us h1 = 0 /\ rtt_min_us h1 = 0 \/
   3000 <= rtt_ewma_us h1 <= 5000 /\ 3000 <= rtt_min_us h1 <= 5000) /\
  3000 <= rtt_ewma_us h2 <= 5000 /\ 3000 <= rtt_min_us h2 <= sample_us 4000000.
Proof.
  apply (rtt_within_samples 53%nat default_config 0 0 demo some_history 3000 5000 4000000 true (from_secs 2)).
  - exact demo_new.
  - discriminate.
  - vm_compute. discriminate.
  - repeat constructor; vm_compute; discriminate.
  - vm_compute. split; discriminate.
Defined.

End HealthExamples.
