(* ===== verification/Recording.v ===== *)
(** * Recording at the atomic accesses: the recorders of [health.rs], interleaved

    [Health] takes each recorder of a resolver as one step.  In the program they run on as
    many threads as there are workers, and a recorder is a sequence of relaxed atomic
    accesses that others come between.  Here every access is a step of its own: the
    [fetch_add]s, the compare-exchange loop of [decay_errors], the loads and stores of
    [record_rtt], the clock reads, the stores of a sentence, and the ten loads of [stats].
    A recorder left alone is the one step of [Health]; interleaved, no count is lost, the
    compare-exchange loops end, the round-trip times stay within their samples, and
    sentences may be shared, but only as often as errors are recorded at once. *)

From stdpp Require Import list.
From S2P Require Import Prelude Float64 Extern Limiter Config Addresses Errors Health.

Module Recording.
Section Recording.
Import ResolverHealth.
Context {A S : Type} `{SemaphoreOps S}.
Implicit Types (h : t A S).

(** A recorder's call; the time it runs at is the clock's. *)
Inductive call :=
| RecordDispatch
| RecordTruncated
| RecordResponse (rtt : Z) (had_answers : bool)
| RecordError (is_timeout : bool).

(** Where a recorder stands between two accesses. *)
Inductive phase :=
| Ready
(* decay_errors: before the load, and before a compare-exchange of the value seen *)
| Decay (rtt : Z)
| Decaying (rtt seen : Z)
(* record_rtt *)
| Sampling (sample : Z)
| Averaging (sample previous : Z)
| Clocking (sample : Z)
| Windowing (sample now : Z)
| Comparing (sample now window_start : Z)
| Lowering (sample : Z) (reopen : option Z)
| Reopening (now : Z)
(* record_error *)
| Failing
| Sentencing
| Benching (until : Z)
| Entering
| Clearing.

(** The first access of a call. *)
Definition begin (c : call) (h : t A S) : phase * t A S :=
  match c with
  | RecordDispatch => (Ready, h <| attempted := fetch_add (attempted h) 1 |>)
  | RecordTruncated => (Ready, h <| truncated := fetch_add (truncated h) 1 |>)
  | RecordResponse rtt true => (Decay rtt, h <| answered := fetch_add (answered h) 1 |>)
  | RecordResponse rtt false => (Decay rtt, h <| empty := fetch_add (empty h) 1 |>)
  | RecordError true => (Failing, h <| timeout := fetch_add (timeout h) 1 |>)
  | RecordError false => (Failing, h <| error := fetch_add (error h) 1 |>)
  end.

(** The next access of a call under way.  [weak] makes a compare-exchange fail although
    the value is the expected one, as [compare_exchange_weak] may. *)
Definition access (now : Z) (weak : bool) (p : phase) (h : t A S) : phase * t A S :=
  match p with
  | Ready => (Ready, h)
  | Decay rtt => (Decaying rtt (consecutive_errors h), h)
  | Decaying rtt seen =>
      if (consecutive_errors h =? seen) && negb weak
      then (Sampling (Z.max (wrap_u64 (rtt / 1000)) 1),
            h <| consecutive_errors := u64_saturating_sub seen 1 |>)
      else (Decaying rtt (consecutive_errors h), h)
  | Sampling sample => (Averaging sample (rtt_ewma_us h), h)
  | Averaging sample previous =>
      let ewma := if previous =? 0 then sample
                  else u64_add (previous - Z.shiftr previous RTT_EWMA_SHIFT)
                               (Z.shiftr sample RTT_EWMA_SHIFT) in
      (Clocking sample, h <| rtt_ewma_us := Z.max ewma 1 |>)
  | Clocking sample => (Windowing sample (now_ns now h), h)
  | Windowing sample now => (Comparing sample now (rtt_min_window_ns h), h)
  | Comparing sample now window_start =>
      let current_min := rtt_min_us h in
      let lapsed := wrap_u64 RTT_MIN_WINDOW <? u64_saturating_sub now window_start in
      if (current_min =? 0) || lapsed then (Lowering sample (Some now), h)
      else if sample <? current_min then (Lowering sample None, h) else (Ready, h)
  | Lowering sample reopen =>
      (match reopen with Some now => Reopening now | None => Ready end, h <| rtt_min_us := sample |>)
  | Reopening now => (Ready, h <| rtt_min_window_ns := now |>)
  | Failing =>
      let consecutive := u64_add (consecutive_errors h) 1 in
      let h' := h <| consecutive_errors := fetch_add (consecutive_errors h) 1 |> in
      if (purgatory_threshold h =? 0) || (consecutive <? purgatory_threshold h) then (Ready, h')
      else if purgatory_sentence h =? 0 then (Ready, h') else (Sentencing, h')
  | Sentencing => (Benching (u64_add (now_ns now h) (wrap_u64 (purgatory_sentence h))), h)
  | Benching until => (Entering, h <| benched_until := until |>)
  | Entering => (Clearing, h <| purgatory_entries := fetch_add (purgatory_entries h) 1 |>)
  | Clearing => (Ready, h <| consecutive_errors := 0 |>)
  end.

(** A thread: the call it is in, and the calls it still has to make. *)
Definition thread : Type := phase * list call.

Definition advance (now : Z) (weak : bool) (th : thread) (h : t A S) : option (thread * t A S) :=
  match th with
  | (Ready, []) => None
  | (Ready, c :: rest) => let '(p, h') := begin c h in Some ((p, rest), h')
  | (p, rest) => let '(p', h') := access now weak p h in Some ((p', rest), h')
  end.

Record state := mk { clock : Z; health : t A S; threads : list thread }.

(** [stepped weak s s']: one access of one thread. *)
Inductive stepped (weak : bool) : state -> state -> Prop :=
| step_thread now h ths k th th' h' :
    ths !! k = Some th -> advance now weak th h = Some (th', h') ->
    stepped weak (mk now h ths) (mk now h' (<[k := th']> ths)).

(** Between the accesses time passes and the controller sets the rate. *)
Inductive passes : state -> state -> Prop :=
| pass_clock now now' h ths : now <= now' -> passes (mk now h ths) (mk now' h ths)
| pass_rate q now h h' ths : set_rate q h = Some h' -> passes (mk now h ths) (mk now h' ths).

Definition step (s s' : state) : Prop := passes s s' \/ exists weak, stepped weak s s'.

(** [runs n s s']: an interleaving in which the threads make [n] accesses, none of them
    a compare-exchange failing for nothing. *)
Inductive runs : nat -> state -> state -> Prop :=
| runs_none s : runs 0 s s
| runs_pass n s s' s'' : passes s s' -> runs n s' s'' -> runs n s s''
| runs_access n s s' s'' : stepped false s s' -> runs n s' s'' -> runs (Datatypes.S n) s s''.

(** The threads before any of them has begun. *)
Definition fresh (programs : list (list call)) : list thread := pair Ready <$> programs.

Definition finished (s : state) : Prop := Forall (fun th => th = (Ready, [])) (threads s).

(** The same call as one step of [Health], at a time. *)
Definition event_of (now : Z) (c : call) : event :=
  match c with
  | RecordDispatch => Dispatched
  | RecordTruncated => Truncated
  | RecordResponse rtt had => Responded rtt had now
  | RecordError timed => Errored timed now
  end.

(** A thread run alone at one instant. *)
Fixpoint run (fuel : nat) (now : Z) (th : thread) (h : t A S) : thread * t A S :=
  match fuel with
  | O => (th, h)
  | Datatypes.S fuel =>
      match advance now false th h with
      | Some (th', h') => run fuel now th' h'
      | None => (th, h)
      end
  end.

(** ** [stats]: ten loads *)

Definition stats_fields : list (t A S -> Z) :=
  [attempted; answered; empty; timeout; error; rtt_ewma_us; rtt_min_us; purgatory_entries; truncated;
   fun h => RateLimiter.interval (limiter h)].

(** [reading s loaded s']: a call of [stats] began at [s], and has [loaded] its first
    fields by [s']. *)
Inductive reading : state -> list Z -> state -> Prop :=
| reading_begins s : reading s [] s
| reading_loads s loaded s' field :
    reading s loaded s' -> stats_fields !! length loaded = Some field ->
    reading s (loaded ++ [field (health s')]) s'
| reading_waits s loaded s' s'' : reading s loaded s' -> step s' s'' -> reading s loaded s''.

Definition assemble (addr : A) (loaded : list Z) : option (ResolverStats A) :=
  match loaded with
  | [attempted; answered; empty; timeout; error; rtt; rtt_min; entries; truncated; interval] =>
      let rate := (f64_of_Z 1000000000 / f64_of_Z interval)%f64 in
      Some (mk_stats addr attempted answered empty timeout error rtt rtt_min entries truncated
              (if (rate <? UNLIMITED_QPS)%f64 then Some rate else None))
  | _ => None
  end.

(** From a new resolver, threads with their programs of calls. *)
Definition initial (programs : list (list call)) (s : state) : Prop :=
  (exists addr config start, new addr config start (clock s) = Some (health s)) /\
  threads s = fresh programs.

(** The calls of a kind in all the programs. *)
Definition calls_of (f : event -> bool) (programs : list (list call)) : Z :=
  count f (event_of 0 <$> concat programs).

(** A schedule: which thread makes the next access. *)
Fixpoint follow (schedule : list nat) (s : state) : option state :=
  match schedule with
  | [] => Some s
  | k :: schedule =>
      th ← threads s !! k;
      r ← advance (clock s) false th (health s);
      follow schedule (mk (clock s) r.2 (<[k := r.1]> (threads s)))
  end.

End Recording.
Arguments state A S : clear implicits.
End Recording.

Section RecordingProofs.
Import ResolverHealth Recording.
Context {A S : Type} `{SemaphoreOps S}.
Implicit Types (h : t A S) (th : thread) (s : state A S).

Ltac cases E :=
  repeat match type of E with
  | context [match ?x with _ => _ end] => destruct x eqn:?
  end.

(** ** A recorder alone *)

Lemma run_idle fuel now h : run fuel now (Ready, []) h = ((Ready, []), h).
Proof. by destruct fuel. Qed.

Lemma run_none rest m now h : run (0 + m) now (Ready, rest) h = run m now (Ready, rest) h.
Proof. done. Qed.

(** One call, left alone: some accesses, at most ten, and then what [Health] says. *)
Lemma run_call c rest now h :
  exists n, (n <= 10)%nat /\ forall m, run (n + m) now (Ready, c :: rest) h = run m now (Ready, rest) (apply (event_of now c) h).
Proof.
  assert (forall rtt (g : t A S), exists n, (n <= 9)%nat /\ forall m, run (n + m) now (Decay rtt, rest) g =
    run m now (Ready, rest) (record_rtt rtt now (decay_errors g))) as Hresp.
  { intros rtt g. unfold record_rtt. cbv zeta.
    destruct (rtt_min_us _ =? 0) eqn:E1; [|destruct (wrap_u64 _ <? _) eqn:E2; [|destruct (_ <? rtt_min_us _) eqn:E3]].
    - exists 9%nat. split; [lia|]. intros m. simpl. rewrite Z.eqb_refl. simpl in *. rewrite E1. simpl. done.
    - exists 9%nat. split; [lia|]. intros m. simpl. rewrite Z.eqb_refl. simpl in *. rewrite E1, E2. simpl. done.
    - exists 8%nat. split; [lia|]. intros m. simpl. rewrite Z.eqb_refl. simpl in *. rewrite E1, E2, E3. simpl. done.
    - exists 7%nat. split; [lia|]. intros m. simpl. rewrite Z.eqb_refl. simpl in *. rewrite E1, E2, E3. simpl. done. }
  destruct c as [| |rtt had|timed].
  - by exists 1%nat; split; [lia|].
  - by exists 1%nat; split; [lia|].
  - destruct had; simpl; edestruct Hresp as (n & Hn & Hr);
      (exists (Datatypes.S n); split; [lia|]; intros m; apply Hr).
  - simpl. unfold record_error.
    destruct (_ || _) eqn:E1; [|destruct (purgatory_sentence _ =? 0) eqn:E2].
    + exists 2%nat. split; [lia|]. intros m. destruct timed; simpl in *; by rewrite E1.
    + exists 2%nat. split; [lia|]. intros m. destruct timed; simpl in *; by rewrite E1, E2.
    + exists 6%nat. split; [lia|]. intros m. destruct timed; simpl in *; by rewrite E1, E2.
Qed.

(** Recorders that nobody comes between are the steps [Health] takes them to be: a
    thread alone makes at most ten accesses for each of its calls, its compare-exchanges
    succeed at once, and the resolver ends as the calls one after the other leave it. *)
Theorem recorder_alone cs now h fuel :
  (10 * length cs <= fuel)%nat ->
  run fuel now (Ready, cs) h = ((Ready, []), apply_all (event_of now <$> cs) h).
Proof.
  revert h fuel. induction cs as [|c cs IH]; intros h fuel Hf; [apply run_idle|].
  simpl in Hf. destruct (run_call c cs now h) as (n & Hn & Hr).
  replace fuel with (n + (fuel - n))%nat by lia. rewrite Hr. apply IH. lia.
Qed.
(** ** Counts *)

(** The calls of a kind that a thread still has to begin, and those of all threads. *)
Definition ahead (f : event -> bool) (th : thread) : nat :=
  length (filter (fun c => f (event_of 0 c) = true) th.2).
Definition total (w : thread -> nat) (ths : list thread) : nat := sum_list (w <$> ths).

Lemma total_insert w ths k th th' :
  ths !! k = Some th -> (total w (<[k := th']> ths) + w th = total w ths + w th')%nat.
Proof.
  intros Hk. unfold total. rewrite list_fmap_insert. apply sum_list_insert. by rewrite list_lookup_fmap, Hk.
Qed.

Lemma total_lookup w ths k th : ths !! k = Some th -> (w th <= total w ths)%nat.
Proof.
  intros Hk. apply (sum_list_with_in (w th) id), list_elem_of_fmap. exists th.
  split; [done|by eapply list_elem_of_lookup_2].
Qed.

Lemma total_zero w ths : total w ths = 0%nat <-> Forall (fun th => w th = 0%nat) ths.
Proof.
  induction ths as [|th ths IH]; [by split; [constructor|]|]. rewrite Forall_cons, <- IH.
  change (total w (th :: ths)) with (w th + total w ths)%nat. lia.
Qed.

(** [tallied field w]: an access that raises [field] by one takes one off [w], and no
    other access changes either. *)
Definition tallied (field : t A S -> Z) (w : thread -> nat) : Prop :=
  forall now weak th h th' h', advance now weak th h = Some (th', h') ->
    field h' = field h /\ w th' = w th \/ field h' = fetch_add (field h) 1 /\ w th = Datatypes.S (w th').

Ltac access_cases Hadv :=
  match type of Hadv with
  | advance _ _ ?th _ = _ =>
      let p := fresh "p" in let rest := fresh "rest" in
      destruct th as [p rest]; destruct p; [destruct rest as [|c rest]; [done|]; destruct c as [| |rtt []|[]]|..]
  end;
  simpl in Hadv;
  repeat match type of Hadv with
  | context [if ?b then _ else _] => destruct b eqn:?
  end;
  simplify_eq/=.

Ltac tally := intros now weak th h th' h' Hadv; access_cases Hadv; unfold ahead; simpl; auto.

Lemma attempted_tallied : tallied attempted (ahead is_dispatch).
Proof. tally. Qed.
Lemma answered_tallied : tallied answered (ahead is_answer).
Proof. tally. Qed.
Lemma empty_tallied : tallied empty (ahead is_empty).
Proof. tally. Qed.
Lemma timeout_tallied : tallied timeout (ahead is_timed_out).
Proof. tally. Qed.
Lemma error_tallied : tallied error (ahead is_failure).
Proof. tally. Qed.

Lemma stepped_inv weak s s' :
  stepped weak s s' ->
  exists k th th', threads s !! k = Some th /\ threads s' = <[k := th']> (threads s) /\
    advance (clock s) weak th (health s) = Some (th', health s').
Proof. intros [now h ths k th th' h' Hk Hadv]. by exists k, th, th'. Qed.

Lemma passes_frame s s' :
  passes s s' -> threads s' = threads s /\ exists l, health s' = (health s) <| limiter := l |>.
Proof.
  intros [now now' h ths Hle|q now h h' ths Hq]; (split; [done|]); simpl.
  - exists (limiter h). by destruct h.
  - unfold set_rate in Hq. apply bind_Some in Hq as (l & _ & [= <-]). by exists l.
Qed.

(** What is counted, and what is still to be, add up. *)
Definition adds_up (field : t A S -> Z) (w : thread -> nat) (T : Z) s : Prop :=
  0 <= field (health s) /\ field (health s) + Z.of_nat (total w (threads s)) = T.

Lemma tallied_stepped field w T weak s s' :
  tallied field w -> T < u64_modulus -> adds_up field w T s -> stepped weak s s' ->
  adds_up field w T s' /\ field (health s) <= field (health s').
Proof.
  intros Ht HT [H0 Hsum] (k & th & th' & Hk & Eths & Hadv)%stepped_inv.
  pose proof (total_insert w (threads s) k th th' Hk). unfold adds_up. rewrite Eths.
  destruct (Ht _ _ _ _ _ _ Hadv) as [[-> E]|[-> E]]; [lia|].
  unfold fetch_add. rewrite wrap_small; lia.
Qed.

Lemma tallied_step field w T s s' :
  tallied field w -> (forall h l, field (h <| limiter := l |>) = field h) ->
  T < u64_modulus -> adds_up field w T s -> step s s' ->
  adds_up field w T s' /\ field (health s) <= field (health s').
Proof.
  intros Ht Hl HT Hs [Hp|[weak Hst]]; [|by eapply tallied_stepped].
  apply passes_frame in Hp as (E & l & Eh). unfold adds_up in *. rewrite E, Eh, Hl. lia.
Qed.

Lemma tallied_rtc field w T s s' :
  tallied field w -> (forall h l, field (h <| limiter := l |>) = field h) ->
  T < u64_modulus -> adds_up field w T s -> rtc step s s' ->
  adds_up field w T s' /\ field (health s) <= field (health s').
Proof.
  intros Ht Hl HT Hs Hst. induction Hst as [s|s s1 s' H1 _ IH]; [done|].
  destruct (tallied_step _ _ _ _ _ Ht Hl HT Hs H1) as [Hs1 ?]. destruct (IH Hs1). split; [done|lia].
Qed.

Lemma ahead_count f p : Z.of_nat (ahead f (Ready, p)) = count f (event_of 0 <$> p).
Proof.
  unfold ahead, count. simpl. f_equal. induction p as [|c p IH]; [done|].
  rewrite fmap_cons, !filter_cons. destruct (decide (f (event_of 0 c) = true)); simpl; by rewrite IH.
Qed.

Lemma total_fresh f programs : Z.of_nat (total (ahead f) (fresh programs)) = calls_of f programs.
Proof.
  induction programs as [|p ps IH]; [done|].
  change (total (ahead f) (fresh (p :: ps))) with (ahead f (Ready, p) + total (ahead f) (fresh ps))%nat.
  rewrite Nat2Z.inj_add, IH, ahead_count. unfold calls_of, count. simpl.
  rewrite fmap_app, filter_app, length_app. lia.
Qed.

Lemma runs_rtc n s s' : runs n s s' -> rtc step s s'.
Proof.
  induction 1 as [s|n s s1 s' Hp _ IH|n s s1 s' Hp _ IH]; [done|..]; (eapply rtc_l; [|exact IH]).
  - by left.
  - right. by exists false.
Qed.

(** ** The compare-exchange loops end *)

Definition call_cost (c : call) : nat :=
  match c with RecordDispatch | RecordTruncated => 1 | RecordResponse _ _ => 10 | RecordError _ => 6 end.

(** The accesses left to a thread whose compare-exchanges succeed. *)
Definition phase_cost (p : phase) : nat :=
  match p with
  | Ready => 0 | Decay _ => 9 | Decaying _ _ => 8 | Sampling _ => 7 | Averaging _ _ => 6
  | Clocking _ => 5 | Windowing _ _ => 4 | Comparing _ _ _ => 3 | Lowering _ _ => 2 | Reopening _ => 1
  | Failing => 5 | Sentencing => 4 | Benching _ => 3 | Entering => 2 | Clearing => 1
  end.
Fixpoint program_cost (p : list call) : nat :=
  match p with [] => 0 | c :: p => call_cost c + program_cost p end.
Definition cost (th : thread) : nat := phase_cost th.1 + program_cost th.2.

(** A thread about to compare with a value that is no longer there. *)
Definition stale h (th : thread) : nat :=
  match th.1 with Decaying _ seen => if consecutive_errors h =? seen then 0 else 1 | _ => 0 end.

Definition effort s : nat :=
  (Datatypes.S (length (threads s)) * total cost (threads s) + total (stale (health s)) (threads s))%nat.

Lemma stale_le h ths : (total (stale h) ths <= length ths)%nat.
Proof.
  induction ths as [|th ths IH]; [done|].
  change (total (stale h) (th :: ths)) with (stale h th + total (stale h) ths)%nat. simpl.
  assert (stale h th <= 1)%nat by (unfold stale; repeat case_match; lia). lia.
Qed.

(** An access makes progress, or was a compare-exchange with a stale value. *)
Lemma advance_cost now th h th' h' :
  advance now false th h = Some (th', h') ->
  (cost th' < cost th)%nat \/ cost th' = cost th /\ h' = h /\ stale h th = 1%nat /\ stale h th' = 0%nat.
Proof.
  intros Hadv. access_cases Hadv; unfold cost, stale; simpl;
    try (left; lia); try (destruct reopen; simpl in *; simplify_eq/=; left; lia).
  right. rewrite Z.eqb_refl. rewrite andb_true_r in *.
  match goal with E : _ = false |- _ => by rewrite E end.
Qed.

Lemma stepped_effort s s' : stepped false s s' -> (effort s' < effort s)%nat.
Proof.
  intros (k & th & th' & Hk & Eths & Hadv)%stepped_inv. unfold effort. rewrite Eths, length_insert.
  pose proof (total_insert cost _ k th th' Hk) as Hc.
  destruct (advance_cost _ _ _ _ _ Hadv) as [Hlt|(E & Eh & E1 & E0)].
  - pose proof (stale_le (health s') (<[k:=th']> (threads s))) as Hle. rewrite length_insert in Hle. nia.
  - pose proof (total_insert (stale (health s)) _ k th th' Hk). rewrite Eh.
    replace (total cost (<[k:=th']> (threads s))) with (total cost (threads s)) by lia. lia.
Qed.

Lemma passes_effort s s' : passes s s' -> effort s' = effort s.
Proof.
  intros (E & l & Eh)%passes_frame. unfold effort. rewrite E, Eh. f_equal.
Qed.

Lemma runs_effort n s s' : runs n s s' -> (n + effort s' <= effort s)%nat.
Proof.
  induction 1 as [s|n s s1 s' Hp _ IH|n s s1 s' Hp _ IH]; [done|..].
  - apply passes_effort in Hp. lia.
  - apply stepped_effort in Hp. lia.
Qed.

Lemma effort_fresh programs h now :
  (effort (mk now h (fresh programs)) <= Datatypes.S (length programs) * (10 * length (concat programs)))%nat.
Proof.
  unfold effort. simpl threads. simpl health. unfold fresh at 1. rewrite length_fmap.
  assert (total (stale h) (fresh programs) = 0%nat) as ->.
  { apply total_zero. unfold fresh. apply Forall_fmap. by apply Forall_true. }
  rewrite Nat.add_0_r. apply Nat.mul_le_mono_l.
  induction programs as [|p ps IH]; [done|]. simpl concat. rewrite length_app.
  change (total cost (fresh (p :: ps))) with (cost (Ready, p) + total cost (fresh ps))%nat.
  enough (cost (Ready, p) <= 10 * length p)%nat by lia. unfold cost. simpl. clear IH.
  induction p as [|c p IH]; [done|]. simpl.
  assert (call_cost c <= 10)%nat by (destruct c; simpl; lia). lia.
Qed.

(** A thread that is not done can always make its next access. *)
Lemma unfinished_steps s : (forall s', ~ stepped false s s') -> finished s.
Proof.
  intros Hstuck. unfold finished. apply Forall_lookup. intros k th Hk. destruct s as [now h ths].
  destruct (advance now false th h) as [[th' h']|] eqn:E.
  - exfalso. eapply Hstuck. by econstructor.
  - destruct th as [p rest]. destruct p; [destruct rest as [|c rest]; [done|]|..]; simpl in E;
      repeat match type of E with context [let '(_, _) := ?x in _] => destruct x end; done.
Qed.

(** ** Sentences *)

(** A thread that has counted its error and not yet the failure; one whose sentence has
    no entry yet; and one that has yet to clear the count. *)
Definition failing (th : thread) : nat := match th.1 with Failing => 1 | _ => 0 end.
Definition granting (th : thread) : nat :=
  match th.1 with Sentencing | Benching _ | Entering => 1 | _ => 0 end.
Definition sentencing (th : thread) : nat :=
  match th.1 with Sentencing | Benching _ | Entering | Clearing => 1 | _ => 0 end.

Record can_bench h : Prop := {
  cb_threshold : 0 < purgatory_threshold h < u64_modulus;
  cb_sentence : 0 < purgatory_sentence h;
}.

(** What an access does to the failures [c], the errors [e], the sentences [g] and the
    threads [p] that are to clear the count. *)
Inductive purgatory_move (thr : Z) : Z * Z * Z * Z -> Z * Z * Z * Z -> Prop :=
| move_quiet c c' e e' g g' p p' :
    0 <= c' <= c -> e' = e -> g' = g -> p' = p -> purgatory_move thr (c, e, g, p) (c', e', g', p')
| move_short c c' e e' g g' p p' :
    c' = c + 1 -> c' < thr -> e' = e + 1 -> g' = g -> p' = p ->
    purgatory_move thr (c, e, g, p) (c', e', g', p')
| move_sentence c c' e e' g g' p p' :
    c' = c + 1 -> thr <= c' -> e' = e + 1 -> g' = g + 1 -> p' = p + 1 ->
    purgatory_move thr (c, e, g, p) (c', e', g', p')
| move_clear c e e' g g' p p' :
    e' = e -> g' = g -> p' = p - 1 -> purgatory_move thr (c, e, g, p) (0, e', g', p').

Definition books h (failing granting sentencing : nat) : Z * Z * Z * Z :=
  (consecutive_errors h, timeout h + error h - Z.of_nat failing,
   purgatory_entries h + Z.of_nat granting, Z.of_nat sentencing).

(** Everything but this thread, [f], [g] and [p] of the others. *)
Lemma advance_books now weak th h th' h' f g p :
  can_bench h -> 0 <= consecutive_errors h < u64_max -> 0 <= timeout h < u64_max ->
  0 <= error h < u64_max -> 0 <= purgatory_entries h < u64_max ->
  advance now weak th h = Some (th', h') ->
  can_bench h' /\ purgatory_threshold h' = purgatory_threshold h /\ 0 <= purgatory_entries h' /\
  purgatory_move (purgatory_threshold h)
    (books h (f + failing th) (g + granting th) (p + sentencing th))
    (books h' (f + failing th') (g + granting th') (p + sentencing th')).
Proof.
  intros [Ht Hs] Hc H1 H2 H3 Hadv. unfold u64_max in *.
  access_cases Hadv; (split; [by split|split; [done|]]); unfold books, failing, granting, sentencing; simpl;
    unfold fetch_add, u64_add, u64_saturating_sub in *; rewrite ?wrap_small in * by lia; (split; [lia|]);
    try destruct reopen; first
    [ apply move_quiet; lia | apply move_short; lia | apply move_sentence; lia | apply move_clear; lia | idtac ].
Qed.
(** What the sentences so far have cost.  [j] of the threads that are to clear the count
    were sentenced since it was last cleared: the others of the [k] threads may yet be. *)
Definition paid (k thr : Z) (b : Z * Z * Z * Z) : Prop :=
  let '(c, e, g, p) := b in
  0 <= c <= e /\ 0 <= g /\
  exists j, 0 <= j <= p /\
    g * (thr - 1 + k) + (if j =? 0 then k * Z.min c (thr - 1) else (k - j) * (thr - 1)) <= k * e.

Lemma paid_move k thr b b' :
  1 <= k -> 0 < thr -> b.2 <= k -> 0 <= b'.2 <= k -> paid k thr b -> purgatory_move thr b b' -> paid k thr b'.
Proof.
  intros Hk Ht Hp Hp' Hb Hm.
  destruct Hm as [c c' e e' g g' p p' Hc -> -> ->|c c' e e' g g' p p' -> Hc -> -> ->
    |c c' e e' g g' p p' -> Hc -> -> ->|c e e' g g' p p' -> -> ->]; simpl in *;
    destruct Hb as (He & Hg & j & Hj & Hsum); (split; [lia|split; [lia|]]).
  - exists j. split; [lia|]. destruct (Z.eqb_spec j 0); [|lia].
    assert (k * Z.min c' (thr - 1) <= k * Z.min c (thr - 1)) by (apply Z.mul_le_mono_nonneg_l; lia). lia.
  - exists j. split; [lia|]. destruct (Z.eqb_spec j 0); [|lia].
    rewrite Z.min_l in * by lia. lia.
  - exists (j + 1). split; [lia|]. rewrite (proj2 (Z.eqb_neq (j + 1) 0)) by lia.
    destruct (Z.eqb_spec j 0) as [->|]; [rewrite Z.min_r in Hsum by lia|]; lia.
  - exists 0. split; [lia|]. rewrite (Z.min_l 0), Z.eqb_refl by lia. destruct (Z.eqb_spec j 0).
    + assert (0 <= k * Z.min c (thr - 1)) by (apply Z.mul_nonneg_nonneg; lia). lia.
    + assert (0 <= (k - j) * (thr - 1)) by (apply Z.mul_nonneg_nonneg; lia). lia.
Qed.

Definition all_books s : Z * Z * Z * Z :=
  books (health s) (total failing (threads s)) (total granting (threads s)) (total sentencing (threads s)).

(** [n] threads and purgatory enabled, with [T] timeouts and [E] other errors in all. *)
Record sound (n : nat) (T E thr : Z) s : Prop := {
  so_threads : length (threads s) = n;
  so_bench : can_bench (health s);
  so_threshold : purgatory_threshold (health s) = thr;
  so_timeouts : adds_up timeout (ahead is_timed_out) T s;
  so_errors : adds_up error (ahead is_failure) E s;
  so_entries : 0 <= purgatory_entries (health s);
  so_paid : paid (Z.of_nat n) thr (all_books s);
}.

Lemma sentencing_le ths : (total sentencing ths <= length ths)%nat.
Proof.
  induction ths as [|th ths IH]; [done|].
  change (total sentencing (th :: ths)) with (sentencing th + total sentencing ths)%nat. simpl.
  assert (sentencing th <= 1)%nat by (unfold sentencing; case_match; lia). lia.
Qed.

(** The sentences granted are no more than the errors. *)
Lemma paid_le k thr c e g p : 1 <= k -> 0 < thr -> p <= k -> paid k thr (c, e, g, p) -> g <= e.
Proof.
  intros Hk Ht Hp (Hc & Hg & j & Hj & Hsum).
  assert (0 <= (if j =? 0 then k * Z.min c (thr - 1) else (k - j) * (thr - 1))).
  { destruct (j =? 0); apply Z.mul_nonneg_nonneg; lia. }
  apply (Zmult_le_reg_r _ _ k); [lia|]. assert (0 <= g * (thr - 1)) by (apply Z.mul_nonneg_nonneg; lia). lia.
Qed.

Lemma sound_stepped n T E thr weak s s' :
  T + E < u64_max -> sound n T E thr s -> stepped weak s s' -> sound n T E thr s'.
Proof.
  intros Hroom [Hn Hb Ht HT HE H0 Hp] Hst.
  assert (0 <= T /\ 0 <= E) as [] by (destruct HT, HE; lia). unfold u64_max in *.
  destruct (tallied_stepped _ _ T _ _ _ timeout_tallied ltac:(lia) HT Hst) as [HT' _].
  destruct (tallied_stepped _ _ E _ _ _ error_tallied ltac:(lia) HE Hst) as [HE' _].
  apply stepped_inv in Hst as (k & th & th' & Hk & Eths & Hadv).
  assert (1 <= Z.of_nat n) as Hn1 by (apply lookup_lt_Some in Hk; lia).
  pose proof (sentencing_le (threads s)) as Hs. pose proof (sentencing_le (threads s')) as Hs'.
  assert (length (threads s') = n) as Hlen by (by rewrite Eths, length_insert).
  destruct Hb as [Hthr Hsen].
  pose proof Hp as Hge. unfold all_books, books in Hge. pose proof Hge as (Hce & Hg & _).
  apply paid_le in Hge; [|lia..].
  assert (0 <= consecutive_errors (health s) < u64_max /\ 0 <= timeout (health s) < u64_max /\
          0 <= error (health s) < u64_max /\ 0 <= purgatory_entries (health s) < u64_max)
    as (B1 & B2 & B3 & B4) by (destruct HT, HE; unfold u64_max; lia).
  destruct (advance_books _ _ _ _ _ _ (total failing (threads s) - failing th)
    (total granting (threads s) - granting th) (total sentencing (threads s) - sentencing th)
    ltac:(by split) B1 B2 B3 B4 Hadv) as (Hb' & Et & He' & Hm).
  pose proof (total_insert failing _ k th th' Hk) as E1.
  pose proof (total_insert granting _ k th th' Hk) as E2.
  pose proof (total_insert sentencing _ k th th' Hk) as E3. rewrite <- Eths in E1, E2, E3.
  pose proof (total_lookup failing _ k th Hk). pose proof (total_lookup granting _ k th Hk).
  pose proof (total_lookup sentencing _ k th Hk).
  rewrite !Nat.sub_add in Hm by done.
  replace (total failing (threads s) - failing th + failing th')%nat
    with (total failing (threads s')) in Hm by lia.
  replace (total granting (threads s) - granting th + granting th')%nat
    with (total granting (threads s')) in Hm by lia.
  replace (total sentencing (threads s) - sentencing th + sentencing th')%nat
    with (total sentencing (threads s')) in Hm by lia.
  rewrite Ht in Hm. split; [done|done|congruence|done|done|done|].
  eapply paid_move; [exact Hn1|lia|..|exact Hp|exact Hm]; simpl; lia.
Qed.

Lemma sound_rtc n T E thr s s' : T + E < u64_max -> sound n T E thr s -> rtc step s s' -> sound n T E thr s'.
Proof.
  intros Hroom Hs Hst. induction Hst as [s|s s1 s' [Hp|[weak Hw]] _ IH]; [done|..]; apply IH.
  - destruct Hs as [Hn Hb Ht HT HE H0 Hpaid]. apply passes_frame in Hp as (Eths & l & Eh).
    destruct Hb. by split; unfold all_books, adds_up in *; rewrite ?Eths, ?Eh.
  - by eapply sound_stepped.
Qed.

Lemma errors_split programs :
  calls_of is_error programs = calls_of is_timed_out programs + calls_of is_failure programs.
Proof.
  unfold calls_of. induction (concat programs) as [|c cs IH]; [done|].
  rewrite fmap_cons, !count_cons, IH. destruct c as [| | |[]]; simpl; lia.
Qed.

Lemma total_fresh_zero w programs : (forall p, w (Ready, p) = 0%nat) -> total w (fresh programs) = 0%nat.
Proof. intros Hw. apply total_zero. unfold fresh. apply Forall_fmap. by apply Forall_true. Qed.

(** A new resolver's counters are zero, and all calls are ahead. *)
Lemma initial_adds_up field f programs s :
  initial programs s -> (forall addr config start now h, new addr config start now = Some h -> field h = 0) ->
  adds_up field (ahead f) (calls_of f programs) s.
Proof.
  intros [(addr & config & start & Hnew) Eths] Hz. unfold adds_up.
  rewrite (Hz _ _ _ _ _ Hnew), Eths, total_fresh. lia.
Qed.

Lemma new_zeroes addr config start now h :
  new addr config start now = Some h ->
  attempted h = 0 /\ answered h = 0 /\ empty h = 0 /\ timeout h = 0 /\ error h = 0 /\
  consecutive_errors h = 0 /\ purgatory_entries h = 0 /\ truncated h = 0 /\ rtt_ewma_us h = 0 /\ rtt_min_us h = 0.
Proof. unfold new. intros (l & _ & [= <-])%bind_Some. by split_and!. Qed.

Lemma initial_sound programs s :
  initial programs s -> can_bench (health s) ->
  sound (length programs) (calls_of is_timed_out programs) (calls_of is_failure programs)
    (purgatory_threshold (health s)) s.
Proof.
  intros Hi Hb. pose proof Hi as [(addr & config & start & Hnew) Eths].
  apply new_zeroes in Hnew. destruct_and! Hnew.
  assert (all_books s = (0, 0, 0, 0)) as Eb.
  { unfold all_books, books. rewrite Eths, !total_fresh_zero by done. repeat f_equal; simpl; lia. }
  split; try done.
  - rewrite Eths. unfold fresh. by rewrite length_fmap.
  - apply initial_adds_up; [done|]. intros * Hn. by apply new_zeroes in Hn as (?&?&?&?&_).
  - apply initial_adds_up; [done|]. intros * Hn. by apply new_zeroes in Hn as (?&?&?&?&?&_).
  - lia.
  - rewrite Eb. simpl. split; [lia|split; [lia|]]. exists 0. split; [lia|].
    destruct Hb as [Ht _]. rewrite (Z.min_l 0), Z.eqb_refl by lia. lia.
Qed.

(** C15: however the recorders of a resolver interleave, sentences are earned, if shared.
    Two errors that reach the threshold at once each serve a sentence, the count being
    cleared only after the second; but with [n] threads recording at most [n] do: in
    every reachable state the entries times [threshold - 1 + n] are at most [n] times the
    errors.  For one thread that is a threshold of errors apiece. *)
Theorem sentences_shared programs s s' :
  initial programs s -> can_bench (health s) -> calls_of is_error programs < u64_max -> rtc step s s' ->
  let n := Z.of_nat (length programs) in
  purgatory_entries (health s') * (purgatory_threshold (health s) - 1 + n) <=
  n * (timeout (health s') + error (health s')).
Proof.
  intros Hi Hb Hroom Hst. rewrite errors_split in Hroom.
  destruct (sound_rtc _ _ _ _ _ _ Hroom (initial_sound _ _ Hi Hb) Hst) as [Hlen _ Et _ _ H0 Hp].
  destruct Hb as [Ht _]. simpl. unfold all_books, books in Hp.
  destruct Hp as (Hc & _ & j & Hj & Hsum). pose proof (sentencing_le (threads s')) as Hk.
  set (thr := purgatory_threshold (health s)) in *. set (n := Z.of_nat (length programs)) in *.
  assert (0 <= (if j =? 0 then n * Z.min (consecutive_errors (health s')) (thr - 1) else (n - j) * (thr - 1))).
  { destruct (j =? 0); apply Z.mul_nonneg_nonneg; lia. }
  nia.
Qed.

(** ** Round-trip times *)

Definition is_response (e : event) : bool := match e with Responded _ _ _ => true | _ => false end.

(** Responses of a thread that have not yet stored their average, or their minimum. *)
Definition averages_ahead (th : thread) : nat :=
  ahead is_response th +
  match th.1 with Decay _ | Decaying _ _ | Sampling _ | Averaging _ _ => 1 | _ => 0 end.
Definition minima_ahead (th : thread) : nat :=
  averages_ahead th +
  match th.1 with Clocking _ | Windowing _ _ | Comparing _ _ _ | Lowering _ _ => 1 | _ => 0 end.

Definition unset_or (lo hi v : Z) : Prop := v = 0 \/ lo <= v <= hi.
Definition phase_within (lo hi : Z) (p : phase) : Prop :=
  match p with
  | Decay rtt | Decaying rtt _ => lo <= sample_us rtt <= hi
  | Sampling sample | Clocking sample | Windowing sample _ | Comparing sample _ _ | Lowering sample _ =>
      lo <= sample <= hi
  | Averaging sample previous => lo <= sample <= hi /\ unset_or lo hi previous
  | _ => True
  end.
Definition thread_within (lo hi : Z) (th : thread) : Prop :=
  phase_within lo hi th.1 /\ Forall (fun c => samples_within lo hi (event_of 0 c)) th.2.

Lemma average_within lo hi sample previous :
  1 <= lo -> hi <= u64_max -> lo <= sample <= hi -> unset_or lo hi previous ->
  lo <= Z.max (if previous =? 0 then sample
               else u64_add (previous - Z.shiftr previous RTT_EWMA_SHIFT)
                            (Z.shiftr sample RTT_EWMA_SHIFT)) 1 <= hi.
Proof.
  intros Hlo Hhi Hs Hp. destruct (Z.eqb_spec previous 0); [lia|]. destruct Hp as [?|Hp]; [done|].
  pose proof (ewma_between lo hi _ _ ltac:(lia) Hp Hs).
  unfold u64_add. rewrite wrap_small by (unfold RTT_EWMA_SHIFT, u64_max in *; lia).
  unfold RTT_EWMA_SHIFT. lia.
Qed.

(** One access: what is stored stays within, what a thread carries too, and a response
    that is past its store has left something there. *)
Lemma advance_within lo hi now weak th h th' h' :
  1 <= lo -> hi <= u64_max -> advance now weak th h = Some (th', h') ->
  thread_within lo hi th -> unset_or lo hi (rtt_ewma_us h) -> unset_or lo hi (rtt_min_us h) ->
  thread_within lo hi th' /\ unset_or lo hi (rtt_ewma_us h') /\ unset_or lo hi (rtt_min_us h') /\
  (averages_ahead th' = averages_ahead th /\ rtt_ewma_us h' = rtt_ewma_us h \/ rtt_ewma_us h' <> 0) /\
  (minima_ahead th' = minima_ahead th /\ rtt_min_us h' = rtt_min_us h \/ rtt_min_us h' <> 0).
Proof.
  intros Hlo Hhi Hadv [Hp Hr] He Hm. unfold thread_within, averages_ahead, minima_ahead, averages_ahead, ahead.
  access_cases Hadv; try destruct reopen; simpl in *; repeat match goal with
    | H : Forall _ (_ :: _) |- _ => apply Forall_cons in H as [? ?] end; simpl in *;
    try (split_and!; done || tauto || (left; split; [lia|done])).
  1-2: pose proof (average_within lo hi sample previous Hlo Hhi (proj1 Hp) (proj2 Hp)) as Ha;
    rewrite Heqb in Ha; split_and!; tauto || (by right) || (right; lia) || (left; split; [lia|done]).
  - apply orb_false_iff in Heqb as [Hz%Z.eqb_neq _].
    split_and!; done || (right; lia) || (left; split; [lia|done]).
  - split_and!; done || (by right) || (right; lia) || (left; split; [lia|done]).
  - split_and!; done || (by right) || (right; lia) || (left; split; [lia|done]).
Qed.

(** Every time stored or carried is within the samples, and once no response is ahead of
    its store there is one. *)
Record timed (lo hi : Z) (responses : nat) s : Prop := {
  tm_threads : Forall (thread_within lo hi) (threads s);
  tm_average : unset_or lo hi (rtt_ewma_us (health s));
  tm_minimum : unset_or lo hi (rtt_min_us (health s));
  tm_averages : total averages_ahead (threads s) = responses \/ rtt_ewma_us (health s) <> 0;
  tm_minima : total minima_ahead (threads s) = responses \/ rtt_min_us (health s) <> 0;
}.

Lemma timed_rtc lo hi n s s' : 1 <= lo -> hi <= u64_max -> timed lo hi n s -> rtc step s s' -> timed lo hi n s'.
Proof.
  intros Hlo Hhi Hs Hst. induction Hst as [s|s s1 s' [Hp|[weak Hw]] _ IH]; [done|..]; apply IH;
    destruct Hs as [Ht Ha Hm Hna Hnm].
  - apply passes_frame in Hp as (Eths & l & Eh). by split; rewrite ?Eths, ?Eh.
  - apply stepped_inv in Hw as (k & th & th' & Hk & Eths & Hadv).
    pose proof (Forall_lookup_1 _ _ _ _ Ht Hk) as Hth.
    destruct (advance_within _ _ _ _ _ _ _ _ Hlo Hhi Hadv Hth Ha Hm) as (Hth' & Ha' & Hm' & Da & Dm).
    pose proof (total_insert averages_ahead _ k th th' Hk). pose proof (total_insert minima_ahead _ k th th' Hk).
    split; rewrite ?Eths; [by apply Forall_insert|done|done|..].
    + destruct Da as [[E1 E2]|?]; [rewrite E2; destruct Hna; [left; lia|by right]|by right].
    + destruct Dm as [[E1 E2]|?]; [rewrite E2; destruct Hnm; [left; lia|by right]|by right].
Qed.

Lemma initial_timed lo hi programs s :
  initial programs s -> Forall (Forall (fun c => samples_within lo hi (event_of 0 c))) programs ->
  timed lo hi (Z.to_nat (calls_of is_response programs)) s.
Proof.
  intros [(addr & config & start & Hnew%new_zeroes) Eths] Hall. destruct_and! Hnew.
  assert (forall w, (forall p, w (Ready, p) = ahead is_response (Ready, p)) ->
    total w (fresh programs) = Z.to_nat (calls_of is_response programs)) as Hw.
  { intros w Hw. rewrite <- total_fresh, Nat2Z.id. unfold total, fresh. rewrite <- !list_fmap_compose.
    f_equal. apply list_fmap_ext. intros i p _. apply Hw. }
  split; [|by left|by left|left|left].
  - rewrite Eths. unfold fresh. apply Forall_fmap. eapply Forall_impl; [exact Hall|]. by intros p Hp.
  - rewrite Eths. apply Hw. intros p. unfold averages_ahead. simpl. lia.
  - rewrite Eths. apply Hw. intros p. unfold minima_ahead, averages_ahead. simpl. lia.
Qed.

(** C32: the recorded round-trip times survive interleaving.  If every response took
    between [lo] and [hi] microseconds, then in every reachable state, even between the
    load of an average and its store, the moving average and the minimum are zero or
    within those bounds: neither drifts, underflows or wraps; and once the recorders are
    done, if one of them recorded a response, both are set. *)
Theorem rtt_interleaved programs s s' lo hi :
  initial programs s -> 1 <= lo -> hi <= u64_max ->
  Forall (Forall (fun c => samples_within lo hi (event_of 0 c))) programs -> rtc step s s' ->
  (rtt_ewma_us (health s') = 0 \/ lo <= rtt_ewma_us (health s') <= hi) /\
  (rtt_min_us (health s') = 0 \/ lo <= rtt_min_us (health s') <= hi) /\
  (finished s' -> 0 < calls_of is_response programs ->
   lo <= rtt_ewma_us (health s') <= hi /\ lo <= rtt_min_us (health s') <= hi).
Proof.
  intros Hi Hlo Hhi Hall Hst.
  destruct (timed_rtc _ _ _ _ _ Hlo Hhi (initial_timed _ _ _ _ Hi Hall) Hst) as [_ Ha Hm Hna Hnm].
  split; [exact Ha|split; [exact Hm|]]. intros Hf Hpos.
  assert (forall w, w (Ready, []) = 0%nat -> total w (threads s') = 0%nat) as Hz.
  { intros w Hw. apply total_zero. eapply Forall_impl; [exact Hf|]. by intros ? ->. }
  rewrite !Hz in * by done. unfold unset_or in *. lia.
Qed.

(** ** Everything recorded, and what a caller sees of it *)

Definition is_truncation (e : event) : bool := match e with Truncated => true | _ => false end.

Lemma truncated_tallied : tallied truncated (ahead is_truncation).
Proof. tally. Qed.

(** The counters a caller compares, with the calls that raise them. *)
Definition counters : list ((t A S -> Z) * (event -> bool)) :=
  [(attempted, is_dispatch); (answered, is_answer); (empty, is_empty); (timeout, is_timed_out);
   (error, is_failure); (truncated, is_truncation)].

Lemma calls_of_le f programs : calls_of f programs <= Z.of_nat (length (concat programs)).
Proof. unfold calls_of. etrans; [apply count_le|]. by rewrite length_fmap. Qed.

Lemma counter_tallied field f :
  (field, f) ∈ counters ->
  tallied field (ahead f) /\ (forall h l, field (h <| limiter := l |>) = field h) /\
  forall addr config start now h, new addr config start now = Some h -> field h = 0.
Proof.
  assert (forall addr config start now h, new addr config start now = Some h -> attempted h = 0 /\
    answered h = 0 /\ empty h = 0 /\ timeout h = 0 /\ error h = 0 /\ truncated h = 0) as Hn.
  { intros * Hn%new_zeroes. by destruct_and! Hn. }
  unfold counters. rewrite !elem_of_cons, elem_of_nil. intros Hin.
  destruct_or! Hin; simplify_eq; (split; [|split; [done|by intros * Hnew%Hn; destruct_and! Hnew]]).
  - apply attempted_tallied.
  - apply answered_tallied.
  - apply empty_tallied.
  - apply timeout_tallied.
  - apply error_tallied.
  - apply truncated_tallied.
Qed.

(** In every reachable state each counter and its calls ahead add up to all its calls,
    and from there on it only grows. *)
Lemma counter_adds_up programs s s' s'' field f :
  initial programs s -> Z.of_nat (length (concat programs)) < u64_modulus -> (field, f) ∈ counters ->
  rtc step s s' -> rtc step s' s'' ->
  adds_up field (ahead f) (calls_of f programs) s' /\ field (health s') <= field (health s'').
Proof.
  intros Hi Hroom (Ht & Hl & Hz)%counter_tallied Hst Hst'. pose proof (calls_of_le f programs).
  assert (calls_of f programs < u64_modulus) as HT by lia.
  destruct (tallied_rtc _ _ _ s s' Ht Hl HT (initial_adds_up _ _ _ _ Hi Hz) Hst) as [Hs' _].
  split; [exact Hs'|]. by destruct (tallied_rtc _ _ _ s' s'' Ht Hl HT Hs' Hst').
Qed.


Lemma reading_rtc s loaded s' : reading s loaded s' -> rtc step s s'.
Proof. induction 1; [done|done|by eapply rtc_r]. Qed.

Lemma reading_between programs s0 s loaded s' i v field f :
  initial programs s0 -> Z.of_nat (length (concat programs)) < u64_modulus -> rtc step s0 s ->
  reading s loaded s' -> (field, f) ∈ counters -> stats_fields !! i = Some field -> loaded !! i = Some v ->
  field (health s) <= v <= field (health s').
Proof.
  intros Hi Hroom Hst Hr Hin Hf.
  assert (forall x y, rtc step s x -> rtc step x y -> field (health x) <= field (health y)) as Hmono.
  { intros x y Hx Hy. by eapply counter_adds_up; [..|exact Hy]; [done..|etrans]. }
  induction Hr as [s|s loaded s' g Hr IH Hg|s loaded s' s'' Hr IH Hs]; [done|..]; intros Hv.
  - apply reading_rtc in Hr. apply lookup_app_Some in Hv as [Hv|[Hle Hv]]; [by apply IH|].
    apply list_lookup_singleton_Some in Hv as [E <-].
    assert (i = length loaded) as -> by lia. rewrite Hf in Hg. injection Hg as <-.
    pose proof (Hmono s s'). split; [by apply Hmono|lia].
  - pose proof (reading_rtc _ _ _ Hr). destruct (IH Hst Hmono Hv). split; [done|].
    etrans; [eassumption|]. apply Hmono; [done|by apply rtc_once].
Qed.

(** A call of [stats] that nobody comes between sees the resolver as it is. *)
Lemma stats_at_once h :
  assemble (resolver h) ((fun field => field h) <$> stats_fields) = Some (stats h).
Proof. done. Qed.

Lemma assemble_full (addr : A) loaded : length loaded = 10%nat -> exists st, assemble addr loaded = Some st.
Proof. intros Hl. do 11 (destruct loaded as [|? loaded]; try done). by eexists. Qed.

(** C5: [stats] sees each counter at some moment of its call.  It loads them one after the
    other, so the snapshot need not be a state the resolver was in ([torn_stats]), but each
    counter it reports lies between what it was when the call began and what it is when
    the call ends. *)
Theorem stats_between programs s0 s loaded s' (addr : A) (st : ResolverStats A) :
  initial programs s0 -> Z.of_nat (length (concat programs)) < u64_modulus -> rtc step s0 s ->
  reading s loaded s' -> assemble addr loaded = Some st ->
  attempted (health s) <= st_attempted st <= attempted (health s') /\
  answered (health s) <= st_answered st <= answered (health s') /\
  empty (health s) <= st_empty st <= empty (health s') /\
  timeout (health s) <= st_timeout st <= timeout (health s') /\
  error (health s) <= st_error st <= error (health s') /\
  truncated (health s) <= st_truncated st <= truncated (health s').
Proof.
  intros Hi Hroom Hst Hr Ha. destruct loaded as [|a [|b [|c [|d [|e [|f [|g [|i [|j [|k []]]]]]]]]]]; try done.
  simpl in Ha. injection Ha as <-. simpl.
  assert (forall m n v field ev, counters !! m = Some (field, ev) -> stats_fields !! n = Some field ->
    [a; b; c; d; e; f; g; i; j; k] !! n = Some v -> field (health s) <= v <= field (health s')) as Hb.
  { intros m n v field ev Hin%list_elem_of_lookup_2 Hf Hv. by eapply reading_between. }
  split; [exact (Hb 0 0 a attempted is_dispatch eq_refl eq_refl eq_refl)%nat|].
  split; [exact (Hb 1 1 b answered is_answer eq_refl eq_refl eq_refl)%nat|].
  split; [exact (Hb 2 2 c empty is_empty eq_refl eq_refl eq_refl)%nat|].
  split; [exact (Hb 3 3 d timeout is_timed_out eq_refl eq_refl eq_refl)%nat|].
  split; [exact (Hb 4 4 e error is_failure eq_refl eq_refl eq_refl)%nat|].
  exact (Hb 5 8 j truncated is_truncation eq_refl eq_refl eq_refl)%nat.
Qed.

(** The rest of the loads, with nobody in between. *)
Lemma reading_rest fields : forall before s loaded s',
  stats_fields = before ++ fields -> length loaded = length before -> reading s loaded s' ->
  reading s (loaded ++ ((fun field => field (health s')) <$> fields)) s'.
Proof.
  induction fields as [|field fields IH]; intros before s loaded s' Eall Elen Hr; simpl; [by rewrite app_nil_r|].
  rewrite cons_middle, app_assoc. apply (IH (before ++ [field])).
  - by rewrite <- app_assoc.
  - rewrite !length_app. simpl. lia.
  - apply reading_loads; [done|]. rewrite Eall, Elen. by apply list_lookup_middle.
Qed.

Lemma reading_rtc_trans s loaded s' s'' : reading s loaded s' -> rtc step s' s'' -> reading s loaded s''.
Proof. intros Hr Hst. revert Hr. induction Hst; [done|]. intros Hr. eauto using @reading_waits. Qed.

(** Schedules are interleavings. *)
Lemma follow_runs schedule s s' : follow schedule s = Some s' -> runs (length schedule) s s'.
Proof.
  revert s. induction schedule as [|k ks IH]; intros s Hf; simpl in Hf; [simplify_eq; constructor|].
  apply bind_Some in Hf as (th & Hk & ([th' h'] & Hadv & Hf)%bind_Some).
  destruct s as [now h ths]. eapply runs_access; [by econstructor|by apply IH].
Qed.

Lemma follow_rtc schedule s s' : follow schedule s = Some s' -> rtc step s s'.
Proof. intros Hf. by eapply runs_rtc, follow_runs. Qed.
End RecordingProofs.

(** ** Witnesses and examples *)

Section RecordingExamples.
Import ResolverHealth Recording.

Definition demo_state (programs : list (list call)) : state nat ref_sem := mk 0 demo (fresh programs).

Lemma demo_initial programs : initial programs (demo_state programs).
Proof. split; [|done]. exists 53%nat, default_config, 0. exact demo_new. Qed.

Lemma demo_can_bench : can_bench (A := nat) demo.
Proof. split; vm_compute; repeat split; discriminate. Qed.

(** Ten errors in one thread, one in another; nine are over when the tenth and the
    eleventh reach the threshold together. *)
Definition two_failing : list (list call) := [replicate 10 (RecordError true); [RecordError false]].
Definition both_sentenced : list nat := replicate 18 0%nat ++ [0; 1; 0; 1; 0; 1; 0; 1; 0; 1; 0; 1]%nat.

(** Two sentences for eleven errors: the count is cleared after both were passed. *)
Example two_sentences :
  (fun s => (purgatory_entries (health s), timeout (health s) + error (health s), consecutive_errors (health s)))
    <$> follow both_sentenced (demo_state two_failing) = Some (2, 11, 0).
Proof. vm_compute. reflexivity. Qed.

(** A faster sample is forgotten when a slower first one is stored over it. *)
Example lost_minimum :
  (fun s => (rtt_min_us (health s), threads s))
    <$> follow (replicate 8 0 ++ replicate 10 1 ++ replicate 2 0)%nat
      (demo_state [[RecordResponse 10000000 true]; [RecordResponse 3000000 true]]) =
  Some (10000, [(Ready, []); (Ready, [])]).
Proof. vm_compute. reflexivity. Qed.

(** [stats] loads [attempted] when one query has been sent, and the rest after two have
    been answered. *)
Definition two_queries : list (list call) :=
  [[RecordDispatch; RecordResponse 3000000 true; RecordDispatch; RecordResponse 5000000 true]].

Definition torn (s s' : state nat ref_sem) : list Z :=
  attempted (health s) :: ((fun field => field (health s')) <$> tail stats_fields).

Lemma torn_reading s s' : rtc step s s' -> reading s (torn s s') s'.
Proof.
  intros Hst. apply (reading_rest (tail stats_fields) [attempted] s [attempted (health s)] s'); [done|done|].
  eapply reading_rtc_trans; [|exact Hst]. by apply (reading_loads s [] s attempted); [apply reading_begins|].
Qed.

Example torn_stats :
  (s ← follow [0%nat] (demo_state two_queries);
   s' ← follow (replicate 19 0%nat) s;
   st ← assemble 53%nat (torn s s');
   Some (st_attempted st, st_answered st)) = Some (1, 2).
Proof. vm_compute. reflexivity. Qed.

Lemma recorder_alone_witness :
  run 25 5 (Ready, [RecordDispatch; RecordError true]) demo =
  ((Ready, []), apply_all [Dispatched; Errored true 5] demo).
Proof. apply (recorder_alone [RecordDispatch; RecordError true] 5 demo 25). simpl. lia. Defined.

Lemma sentences_shared_witness :
  exists s', follow both_sentenced (demo_state two_failing) = Some s' /\
    purgatory_entries (health s') * (purgatory_threshold demo - 1 + 2) <=
    2 * (timeout (health s') + error (health s')).
Proof.
  destruct (follow both_sentenced (demo_state two_failing)) as [s'|] eqn:E; [|by vm_compute in E].
  exists s'. split; [done|].
  apply (sentences_shared two_failing (demo_state two_failing) s' (demo_initial _) demo_can_bench).
  - vm_compute. reflexivity.
  - by eapply follow_rtc.
Defined.

(** Two threads that answer and fail, to the end. *)
Definition mixed : list (list call) :=
  [[RecordDispatch; RecordResponse 3000000 true]; [RecordDispatch; RecordError true]].
Definition mixed_schedule : list nat := [0; 1; 0; 1; 0; 0; 1; 0; 0; 0; 0; 0; 0; 0]%nat.

Lemma rtt_interleaved_witness :
  exists s', follow mixed_schedule (demo_state mixed) = Some s' /\
  (rtt_ewma_us (health s') = 0 \/ 2000 <= rtt_ewma_us (health s') <= 4000) /\
  (rtt_min_us (health s') = 0 \/ 2000 <= rtt_min_us (health s') <= 4000) /\
  (finished s' -> 0 < calls_of is_response mixed ->
   2000 <= rtt_ewma_us (health s') <= 4000 /\ 2000 <= rtt_min_us (health s') <= 4000).
Proof.
  destruct (follow mixed_schedule (demo_state mixed)) as [s'|] eqn:E; [|by vm_compute in E].
  exists s'. split; [done|].
  apply (rtt_interleaved mixed (demo_state mixed) s' 2000 4000 (demo_initial _)).
  - lia.
  - vm_compute. discriminate.
  - repeat constructor; vm_compute; discriminate.
  - by eapply follow_rtc.
Defined.


Lemma stats_between_witness :
  exists s s' (st : ResolverStats nat),
    follow [0%nat] (demo_state two_queries) = Some s /\ follow (replicate 19 0%nat) s = Some s' /\
    attempted (health s) <= st_attempted st <= attempted (health s') /\
    answered (health s) <= st_answered st <= answered (health s') /\
    empty (health s) <= st_empty st <= empty (health s') /\
    timeout (health s) <= st_timeout st <= timeout (health s') /\
    error (health s) <= st_error st <= error (health s') /\
    truncated (health s) <= st_truncated st <= truncated (health s').
Proof.
  destruct (follow [0%nat] (demo_state two_queries)) as [s|] eqn:E1; [|by vm_compute in E1].
  destruct (follow (replicate 19 0%nat) s) as [s'|] eqn:E2.
  2: { assert (follow [0%nat] (demo_state two_queries) ≫= follow (replicate 19 0%nat) = None) as E
         by (by rewrite E1). by vm_compute in E. }
  destruct (assemble 53%nat (torn s s')) as [st|] eqn:E3; [|done].
  exists s, s', st. split; [done|split; [done|]].
  apply (stats_between two_queries (demo_state two_queries) s (torn s s') s' 53%nat st (demo_initial _)).
  - vm_compute. reflexivity.
  - by eapply follow_rtc.
  - by apply torn_reading, (follow_rtc (replicate 19 0%nat)).
  - exact E3.
Defined.

End RecordingExamples.
