(* ===== verification/Connect.v ===== *)
(** * Connecting to a resolver: [client], [tcp_client] and [connect] of [health.rs]

    Every worker that selects a resolver asks for its client; the first to ask connects,
    and the others wait for it.  The sockets and the DNS library's clients are parameters,
    what the network brings at each attempt is an argument; the cell that keeps the client
    is [tokio]'s, through the laws of [Extern].  [connected_once]: over all tasks and all
    failures a resolver never gets a second connection of a kind. *)

From Stdlib Require Import String.
From stdpp Require Import list relations.
From S2P Require Import Prelude Float64 Extern Limiter Config Addresses Errors Health.
#[local] Open Scope Z_scope.
#[local] Open Scope list_scope.

Module ResolverConnection.
Section ResolverConnection.
Import ResolverHealth.
Context `{ErrorTypes} {S Client Socket C : Type} `{OnceCellOps Client C}.
Abbreviation health := (ResolverHealth.t SocketAddress S).
Abbreviation outcome := (result Client BlastDNSError).

(** What the system and the DNS library answer when asked. *)
Record network := mk_network {
  bind : SocketAddress -> result Socket text;
  client_connect : SocketAddress -> Z -> result Client ProtoError;
  client_over : Socket -> SocketAddress -> result Client ProtoError;
  client_tcp : SocketAddress -> Z -> result Client ProtoError
}.

(** Any port, on the unspecified address of the resolver's family. *)
Definition bind_address (resolver : SocketAddress) : SocketAddress :=
  match ip resolver with
  | V4 _ _ _ _ => mk_socket (V4 0 0 0 0) 0 0
  | V6 _ => mk_socket (V6 (replicate 8 0)) 0 0
  end.

Definition connect_per_query (net : network) (h : health) : outcome :=
  map_err (ResolverSetupFailed (resolver h)) (client_connect net (resolver h) (request_timeout h)).

Definition connect_persistent (net : network) (h : health) : outcome :=
  let? socket := map_err (fun e => Configuration (lit "failed to bind socket for "
                                                    ++ show_socket (resolver h) ++ lit ": " ++ e))
                   (bind net (bind_address (resolver h))) in
  map_err (ResolverSetupFailed (resolver h)) (client_over net socket (resolver h)).

Definition connect (net : network) (h : health) : outcome :=
  if persistent_socket h then connect_persistent net h else connect_per_query net h.

Definition connect_tcp (net : network) (h : health) : outcome :=
  map_err (ResolverSetupFailed (resolver h)) (client_tcp net (resolver h) (request_timeout h)).

(** [PersistentUdpStream]: the library's stream with its errors converted, and its name. *)
Definition poll_next {Message IoError} (from : IoError -> ProtoError)
    (polled : option (option (result Message IoError))) : option (option (result Message ProtoError)) :=
  option_map (option_map (map_err from)) polled.
Definition show_stream (name_server : SocketAddress) : text := lit "UDP(" ++ show_socket name_server ++ lit ")".

(** The two cells of a resolver. *)
Inductive transport := Udp | Tcp.
Definition init (k : transport) (net : network) (h : health) : outcome :=
  match k with Udp => connect net h | Tcp => connect_tcp net h end.

(** *** [get_or_try_init]

    A task in [client()] or [tcp_client()]: waiting its turn, connecting, back. *)
Inductive pc := Calling | Connecting | Returned (r : outcome) | Cancelled.

(** [opened] are the connections ever made: each has its background task. *)
Record sys := mk_sys { cell : C; tasks : list pc; opened : list Client }.
#[global] Instance sys_settable : Settable sys := fun s => mk_sys (cell s) (tasks s) (opened s).

Definition put (w : nat) (p : pc) (s : sys) : sys := s <| tasks := <[w := p]> (tasks s) |>.

Inductive action := Call | Act (w : nat) (net : network) | Cancel (w : nat).

Definition perform (k : transport) (h : health) (a : action) (s : sys) : option sys :=
  match a with
  | Call => Some (s <| tasks := tasks s ++ [Calling] |>)
  | Act w net =>
      p ← tasks s !! w;
      match p with
      | Calling =>
          match once_get (cell s) with
          | Some client => Some (put w (Returned (Ok client)) s)
          | None => c ← once_start w (cell s); Some (put w Connecting (s <| cell := c |>))
          end
      | Connecting =>
          match init k net h with
          | Ok client =>
              Some (put w (Returned (Ok client))
                      (s <| cell := once_finish (Some client) (cell s) |> <| opened := opened s ++ [client] |>))
          | Err e => Some (put w (Returned (Err e)) (s <| cell := once_finish None (cell s) |>))
          end
      | _ => None
      end
  | Cancel w =>
      p ← tasks s !! w;
      match p with
      | Calling => Some (put w Cancelled s)
      | Connecting => Some (put w Cancelled (s <| cell := once_finish None (cell s) |>))
      | _ => None
      end
  end.

Definition step (k : transport) (h : health) (s s' : sys) : Prop := exists a, perform k h a s = Some s'.

Definition initial : sys := mk_sys once_new [] [].

(** What becomes of a query: no client, or what it reports. *)
Definition exchanged {Response} (r : outcome) (send : Client -> exchange BlastDNSError Response)
    : exchange BlastDNSError Response :=
  match r with Ok client => send client | Err e => Disconnected e end.
End ResolverConnection.
Arguments network {_} Client Socket.
Arguments sys {_} Client C.
Arguments action {_} Client Socket.
End ResolverConnection.

(** ** One connection of a kind *)

Section ConnectProofs.
Import ResolverHealth ResolverConnection.
Context `{ErrorTypes} {S Client Socket C : Type} `{OnceCell Client C}.
Context (k : transport) (h : ResolverHealth.t SocketAddress S).
Implicit Types (s : ResolverConnection.sys Client C) (net : network Client Socket).
Abbreviation steps := (rtc (ResolverConnection.step (Socket := Socket) k h)).

(** What connecting can fail with: errors that name this resolver, and are not worth retrying. *)
Definition setup_error (e : BlastDNSError) : Prop :=
  (exists source, e = ResolverSetupFailed (resolver h) source) \/
  k = Udp /\ persistent_socket h = true /\
  exists m, e = Configuration (lit "failed to bind socket for " ++ show_socket (resolver h) ++ lit ": " ++ m).

Lemma init_error net e : init k net h = Err e -> setup_error e.
Proof.
  unfold setup_error. destruct k; cbn [init].
  - unfold connect, connect_per_query, connect_persistent. destruct (persistent_socket h).
    + destruct (bind net _) as [socket|m]; cbn [map_err and_then].
      * destruct (client_over net _ _); cbn [map_err]; intros [= <-]. left. by eexists.
      * intros [= <-]. right. eauto.
    + destruct (client_connect net _ _); cbn [map_err]; intros [= <-]. left. by eexists.
  - unfold connect_tcp. destruct (client_tcp net _ _); cbn [map_err]; intros [= <-]. left. by eexists.
Qed.

Lemma setup_error_class e : setup_error e -> is_retryable e = false /\ is_timeout e = false.
Proof. by intros [[source ->]|(_ & _ & m & ->)]. Qed.

Record cell_ok s : Prop := {
  co_running w : once_running (cell s) = Some w <-> tasks s !! w = Some Connecting;
  co_opened : opened s = option_list (once_get (cell s));
  co_idle : once_get (cell s) <> None -> once_running (cell s) = None;
  co_returned w client : tasks s !! w = Some (Returned (Ok client)) -> once_get (cell s) = Some client;
  co_errors w e : tasks s !! w = Some (Returned (Err e)) -> setup_error e;
}.

Lemma start_ok : cell_ok initial.
Proof.
  destruct once_new_spec as [Eg Er]. split; cbn; try done.
  - intros w. by rewrite Er, lookup_nil.
  - by rewrite Eg.
Qed.

(** The task at [w] moves on; the cell may change. *)
Lemma put_ok w p0 p c o s :
  cell_ok s -> tasks s !! w = Some p0 ->
  (once_running c = Some w <-> p = Connecting) ->
  (forall v, v <> w -> once_running c = Some v <-> once_running (cell s) = Some v) ->
  o = option_list (once_get c) -> (once_get c <> None -> once_running c = None) ->
  (forall client, once_get (cell s) = Some client -> once_get c = Some client) ->
  match p with
  | Returned (Ok client) => once_get c = Some client
  | Returned (Err e) => setup_error e
  | _ => True
  end ->
  cell_ok (mk_sys c (<[w := p]> (tasks s)) o).
Proof.
  intros [Hr Ho Hi Hret He] Hw Hself Hother Eo Hidle Hkeep Hp.
  assert (Hlt : (w < length (tasks s))%nat) by (by eapply lookup_lt_Some).
  split; cbn [cell tasks opened]; try done.
  - intros v. destruct (decide (v = w)) as [->|Hne].
    + rewrite list_lookup_insert_eq by done. rewrite Hself. split; [by intros ->|by intros [= ->]].
    + rewrite list_lookup_insert_ne by done. rewrite Hother by done. apply Hr.
  - intros v client. destruct (decide (v = w)) as [->|Hne].
    + rewrite list_lookup_insert_eq by done. by intros [= ->].
    + rewrite list_lookup_insert_ne by done. intros Hv. apply Hkeep. by apply (Hret v).
  - intros v e. destruct (decide (v = w)) as [->|Hne].
    + rewrite list_lookup_insert_eq by done. by intros [= ->].
    + rewrite list_lookup_insert_ne by done. apply He.
Qed.

(** A running task leaves the cell with [v]. *)
Lemma finish_ok w p v s :
  cell_ok s -> tasks s !! w = Some Connecting ->
  match p with
  | Returned (Ok client) => v = Some client
  | Returned (Err e) => v = None /\ setup_error e
  | Cancelled => v = None
  | _ => False
  end ->
  cell_ok (mk_sys (once_finish v (cell s)) (<[w := p]> (tasks s)) (opened s ++ option_list v)).
Proof.
  intros Hs Hw Hp. pose proof (proj2 (co_running _ Hs w) Hw) as Hrun.
  assert (Eg : once_get (cell s) = None).
  { destruct (once_get (cell s)) eqn:E; [|done]. rewrite (co_idle _ Hs) in Hrun; [done|]. by rewrite E. }
  destruct (once_finish_spec v (cell s)) as [Ev Er]; [by rewrite Hrun|done|].
  eapply put_ok; [done|exact Hw|..].
  - rewrite Er. split; [done|]. intros ->. done.
  - intros u Hu. rewrite Er, Hrun. split; congruence.
  - by rewrite (co_opened _ Hs), Eg, Ev.
  - done.
  - by rewrite Eg.
  - rewrite Ev. destruct p as [| |[]|]; by try destruct Hp.
Qed.

Lemma task_ok (a : action Client Socket) s s' : cell_ok s -> perform k h a s = Some s' -> cell_ok s'.
Proof.
  intros Hs Hp. destruct a as [|w net|w]; cbn [perform] in Hp.
  - injection Hp as <-. destruct Hs as [Hr Ho Hi Hret He]. split; cbn; try done.
    + intros w. rewrite Hr. rewrite lookup_app. destruct (tasks s !! w) as [p|] eqn:E; [done|].
      split; [done|]. by intros [_ ?]%list_lookup_singleton_Some.
    + intros w client [Hw|[_ Hw]]%lookup_app_Some; [by eapply Hret|].
      by apply list_lookup_singleton_Some in Hw as [_ ?].
    + intros w e [Hw|[_ Hw]]%lookup_app_Some; [by eapply He|].
      by apply list_lookup_singleton_Some in Hw as [_ ?].
  - apply bind_Some in Hp as (p & Hw & Hp). destruct p; try done.
    + destruct (once_get (cell s)) as [client|] eqn:Eg.
      * injection Hp as <-. apply (put_ok w Calling _ (cell s) (opened s) s Hs Hw); try done.
        -- rewrite (co_running _ Hs), Hw. split; congruence.
        -- exact (co_opened _ Hs).
        -- exact (co_idle _ Hs).
      * apply bind_Some in Hp as (c & Ec & [= <-]). pose proof (once_start_spec w (cell s)) as Hst.
        rewrite Ec in Hst. destruct Hst as (_ & Er & Eg' & Er').
        apply (put_ok w Calling Connecting c (opened s) s Hs Hw); try done.
        -- intros v Hne. rewrite Er, Er'. split; congruence.
        -- by rewrite (co_opened _ Hs), Eg, Eg'.
        -- by rewrite Eg, Eg'.
    + destruct (init k net h) as [client|e] eqn:Ei; injection Hp as <-.
      * exact (finish_ok w (Returned (Ok client)) (Some client) s Hs Hw eq_refl).
      * pose proof (finish_ok w (Returned (Err e)) None s Hs Hw (conj eq_refl (init_error _ _ Ei))) as Hok.
        simpl in Hok. by rewrite app_nil_r in Hok.
  - apply bind_Some in Hp as (p & Hw & Hp). destruct p; try done; injection Hp as <-.
    + apply (put_ok w Calling _ (cell s) (opened s) s Hs Hw); try done.
      * rewrite (co_running _ Hs), Hw. split; congruence.
      * exact (co_opened _ Hs).
      * exact (co_idle _ Hs).
    + pose proof (finish_ok w Cancelled None s Hs Hw eq_refl) as Hok. simpl in Hok. by rewrite app_nil_r in Hok.
Qed.

Lemma runs_ok s : steps initial s -> cell_ok s.
Proof.
  intros Hr. pose proof start_ok as Hi. revert Hi.
  induction Hr as [|s1 s2 s3 [a Ha] _ IH]; [done|]. intros Hi. apply IH. by eapply task_ok.
Qed.

(** *** Every call comes back *)

Definition turns (p : pc (Client := Client)) : nat := match p with Calling => 2 | Connecting => 1 | _ => 0 end.
Definition turns_left s : nat := sum_list (turns <$> tasks s).

(** A task that is not back can go on, or the one that connects can. *)
Lemma can_go_on net s w p :
  cell_ok s -> tasks s !! w = Some p -> turns p <> 0%nat ->
  exists v s', perform k h (Act v net) s = Some s' /\ (turns_left s' < turns_left s)%nat.
Proof.
  intros Hs Hw Hp.
  assert (Hput : forall v q q' s', tasks s !! v = Some q -> (turns q' < turns q)%nat ->
    tasks s' = <[v := q']> (tasks s) -> (turns_left s' < turns_left s)%nat).
  { intros v q q' s' Hv Hlt E. unfold turns_left. rewrite E. by apply (sum_measure_lt _ _ _ q). }
  destruct (once_running (cell s)) as [v|] eqn:Er.
  - apply (co_running _ Hs) in Er. exists v. cbn [perform]. rewrite Er. cbn [mbind option_bind].
    destruct (init k net h) as [client|e]; eexists; (split; [reflexivity|]);
      (eapply Hput; [exact Er| |reflexivity]; simpl; lia).
  - destruct p; try done; [|by apply (co_running _ Hs) in Hw; rewrite Hw in Er].
    exists w. cbn [perform]. rewrite Hw. cbn [mbind option_bind].
    destruct (once_get (cell s)) as [client|] eqn:Eg.
    + eexists. split; [reflexivity|]. eapply Hput; [exact Hw| |reflexivity]. simpl. lia.
    + pose proof (once_start_spec w (cell s)) as Hst. destruct (once_start w (cell s)) as [c|].
      * eexists. split; [reflexivity|]. eapply Hput; [exact Hw| |reflexivity]. simpl. lia.
      * rewrite Er, Eg in Hst. by destruct Hst.
Qed.

Definition acts_with net (s s' : ResolverConnection.sys Client C) : Prop :=
  exists w, perform k h (Act w net) s = Some s'.

Lemma all_back net : forall m s, (turns_left s <= m)%nat -> cell_ok s ->
  exists s', rtc (acts_with net) s s' /\ Forall (fun p => turns p = 0%nat) (tasks s') /\ cell_ok s'.
Proof.
  induction m as [m IH] using lt_wf_ind. intros s Hm Hs.
  destruct (decide (Forall (fun p => turns p = 0%nat) (tasks s))) as [Hall|Hnot]; [by exists s|].
  apply not_Forall_Exists in Hnot; [|intros x; apply _]. apply Exists_exists in Hnot as (p & Hin & Hp).
  apply list_elem_of_lookup in Hin as [w Hw].
  destruct (can_go_on net s w p Hs Hw Hp) as (v & s1 & Hact & Hlt).
  assert (Hs1 : cell_ok s1) by (by eapply task_ok).
  destruct (IH (turns_left s1)) with (s := s1) as (s2 & Hr & Hall & Hs2); [lia|done|done|].
  exists s2. split; [|done]. eapply rtc_l; [by exists v|done].
Qed.

(** C30: a resolver has at most one connection of a kind.  However calls interleave, fail and
    are cancelled, one connection at a time is attempted and at most one is ever made;
    every call that gets a client gets that one; an error says that connecting to this
    very resolver failed, is neither retried nor taken for a timeout, and is what the query
    reports.  No call is
    stuck: whatever the network answers, turns of the tasks alone bring all of them back. *)
Theorem connected_once s net :
  steps initial s ->
  (length (opened s) <= 1)%nat /\
  (forall w client, tasks s !! w = Some (Returned (Ok client)) -> opened s = [client]) /\
  (forall v w, tasks s !! v = Some Connecting -> tasks s !! w = Some Connecting -> v = w /\ opened s = []) /\
  (forall w e, tasks s !! w = Some (Returned (Err e)) ->
     setup_error e /\ is_retryable e = false /\ is_timeout e = false /\
     forall Response deadline (send : Client -> exchange BlastDNSError Response),
       query_within h deadline (exchanged (Err e) send) = Err e) /\
  exists s', rtc (acts_with net) s s' /\ Forall (fun p => turns p = 0%nat) (tasks s').
Proof.
  intros Hr. pose proof (runs_ok _ Hr) as Hs. split_and!.
  - rewrite (co_opened _ Hs). destruct (once_get (cell s)); simpl; lia.
  - intros w client Hw. by rewrite (co_opened _ Hs), (co_returned _ Hs _ _ Hw).
  - intros v w Hv Hw. apply (co_running _ Hs) in Hv, Hw. split; [congruence|].
    rewrite (co_opened _ Hs). destruct (once_get (cell s)) eqn:E; [|done].
    rewrite (co_idle _ Hs) in Hv; [done|by rewrite E].
  - intros w e Hw. pose proof (co_errors _ Hs _ _ Hw). split; [done|].
    by destruct (setup_error_class e) as [-> ->].
  - destruct (all_back net _ s (le_n _) Hs) as (s' & ? & ? & _). by exists s'.
Qed.
End ConnectProofs.

(** ** Witness *)

Section ConnectExamples.
Import ResolverHealth ResolverConnection.
#[local] Existing Instance demo_errors.

(** A persistent socket to an IPv6 resolver; clients are numbers. *)
Definition v6_resolver : ResolverHealth.t SocketAddress ref_sem :=
  match ResolverHealth.new (mk_socket (V6 [8193; 3512; 0; 0; 0; 0; 0; 1]) 53 0)
          (from_wire (mk_wire 64 8 None true false true 1000 2 10 1000 10 10 86400)) 0 0 with
  | Some h => h
  | None => ResolverHealth.mk (mk_socket (V4 0 0 0 0) 0 0) 0 true 0 0 (sem_new 1) (RateLimiter.mk 1 0 0) 0 true
              0 0 0 0 0 0 0 0 0 0 0 0
  end.
Definition bound_and_up (n : nat) : network nat nat :=
  mk_network (fun _ => Ok 7%nat) (fun _ _ => Ok n) (fun _ _ => Ok n) (fun _ _ => Ok n).
Definition no_socket : network nat nat :=
  mk_network (fun _ => Err (lit "Too many open files")) (fun _ _ => Ok 0%nat) (fun _ _ => Ok 0%nat) (fun _ _ => Ok 0%nat).

(** The first call cannot bind, the second connects while the third waits. *)
Definition three_calls : list (action nat nat) :=
  [Call; Call; Call; Act 0 no_socket; Act 0 no_socket; Act 1 (bound_and_up 4); Act 1 (bound_and_up 4); Act 2 (bound_and_up 5)].
Fixpoint run_all (acts : list (action nat nat)) (s : sys nat (ref_cell nat)) : option (sys nat (ref_cell nat)) :=
  match acts with
  | [] => Some s
  | a :: acts' => s' ← perform Udp v6_resolver a s; run_all acts' s'
  end.
Definition connected : sys nat (ref_cell nat) := from_option id initial (run_all three_calls initial).

Example connected_tasks :
  tasks connected =
    [Returned (Err (Configuration (lit "failed to bind socket for [2001:db8::1]:53: Too many open files")));
     Returned (Ok 4%nat); Returned (Ok 4%nat)] /\
  bind_address (resolver v6_resolver) = mk_socket (V6 [0; 0; 0; 0; 0; 0; 0; 0]) 0 0.
Proof. vm_compute. split; reflexivity. Qed.

Lemma run_all_rtc acts : forall s s', run_all acts s = Some s' -> rtc (step (Socket := nat) Udp v6_resolver) s s'.
Proof.
  induction acts as [|a acts IH]; intros s s' Hr; simpl in Hr; [by injection Hr as <-|].
  apply bind_Some in Hr as (s1 & K1 & K2). eapply rtc_l; [by exists a|by apply IH].
Qed.

Lemma connected_once_witness : (length (opened connected) <= 1)%nat /\ opened connected = [4%nat].
Proof.
  assert (Hr : rtc (step (Socket := nat) Udp v6_resolver) initial connected)
    by (apply (run_all_rtc three_calls); vm_compute; reflexivity).
  destruct (connected_once Udp v6_resolver connected no_socket Hr) as (Hlen & Hone & _).
  split; [exact Hlen|]. apply (Hone 1%nat 4%nat). vm_compute. reflexivity.
Defined.
End ConnectExamples.
