(* ===== verification/Controller.v ===== *)
(** * The adaptive controller: [AdaptiveController] of [controller.rs]

    [tick] recomputes every resolver's pacing from its own loss, the global rate from
    queries that ultimately failed, and drives the attempt brake.  The pool's resolvers
    are passed in and returned with their new pacing; the outcome counters, which the
    client moves, are read.  [None] is a panic: an index out of range, or a limiter
    asked for a rate that is not positive. *)

From S2P Require Import Prelude Float64 Extern Limiter Judge Brake Health.

Definition GROWTH : f64 := f64_lit 125 100.
Definition MIN_SAMPLES : Z := 100.
Definition MAX_WINDOW_TIMEOUTS : f64 := f64_of_Z 5.
Definition MIN_AGGREGATE_SAMPLES : Z := 100.
Definition TICK : Z := from_millis 500.
Definition EDGE_TTL : Z := from_secs 30.
Definition MIN_RATE_QPS : f64 := f64_of_Z 1.
Definition MAX_BASELINE_LOSS : f64 := f64_lit 5 10.
Definition ATTEMPT_MIN_RESOLVERS : Z := 8.
(** The literals [1e-6], [1.0] and [2.0]. *)
Definition MICRO : f64 := f64_lit 1 1000000.
Definition ONE : f64 := f64_of_Z 1.
Definition TWO : f64 := f64_of_Z 2.

(** A rate at which loss was observed, and when it was seen. *)
Record Edge := mk_edge { qps : f64; seen_at : Z }.

(** [client.rs]'s counters of finished and failed queries. *)
Record Outcomes := mk_outcomes { completed : Z; failed : Z }.

Module AdaptiveController.
Section AdaptiveController.
Context {A S : Type} `{SemaphoreOps S}.

Record t := mk {
  global : RateLimiter.t;
  global_ceiling : f64;
  per_resolver : list Observation.t;
  edges : list (option Edge);
  stepped : list bool;
  undo : list (option (option Edge * f64));
  judge : list LossJudge.t;
  window : list Observation.t;
  window_seconds : list f64;
  previous_outcomes : Observation.t;
  global_window : Observation.t;
  global_window_dispatched : Z;
  global_window_seconds : f64;
  global_judge : LossJudge.t;
  global_limit : option f64;
  attempts : AttemptBrake.t S
}.
#[global] Instance t_settable : Settable t := fun c =>
  mk (global c) (global_ceiling c) (per_resolver c) (edges c) (stepped c) (undo c) (judge c)
     (window c) (window_seconds c) (previous_outcomes c) (global_window c)
     (global_window_dispatched c) (global_window_seconds c) (global_judge c) (global_limit c)
     (attempts c).

Definition new (resolver_count : nat) (global : RateLimiter.t) (pacer : AttemptPacer.t S)
    (global_ceiling : f64) : t :=
  mk global global_ceiling (replicate resolver_count Observation.default)
     (replicate resolver_count None) (replicate resolver_count false)
     (replicate resolver_count None) (replicate resolver_count LossJudge.fresh)
     (replicate resolver_count Observation.default) (replicate resolver_count (f64_of_Z 0))
     Observation.default Observation.default 0 (f64_of_Z 0) LossJudge.fresh None
     (AttemptBrake.new pacer).

Abbreviation resolver := (ResolverHealth.t A S).

(** [v[i] = x]: panics out of range. *)
Definition store {X} (i : nat) (x : X) (l : list X) : option (list X) :=
  if decide (i < length l)%nat then Some (<[i := x]> l) else None.

(** The retreat target below an edge. *)
Definition target_below (edge_qps : f64) : f64 := f64_max (RETREAT * edge_qps)%f64 MIN_RATE_QPS.

Definition relax (i : nat) (now : Z) (r : resolver) (c : t) : option (t * resolver) :=
  slot ← edges c !! i;
  match slot with
  | None => Some (c, r)
  | Some edge =>
      if EDGE_TTL <=? duration_since now (seen_at edge) then
        edges' ← store i None (edges c);
        j ← judge c !! i;
        judge' ← store i (LossJudge.end_episode j) (judge c);
        r' ← ResolverHealth.set_rate UNLIMITED_QPS r;
        Some (c <| edges := edges' |> <| judge := judge' |>, r')
      else
        let target := target_below (qps edge) in
        let current := ResolverHealth.rate r in
        if (current <? target)%f64 then
          r' ← ResolverHealth.set_rate (f64_min (current * GROWTH)%f64 target) r; Some (c, r')
        else Some (c, r)
  end.

(** A [Baseline] verdict: the last retreat bought nothing, undo it. *)
Definition undo_retreat (i : nat) (r : resolver) (c : t) : option (t * resolver) :=
  was_stepped ← stepped c !! i;
  stepped' ← store i false (stepped c);
  let c := c <| stepped := stepped' |> in
  if was_stepped : bool then
    slot ← undo c !! i;
    undo' ← store i None (undo c);
    let c := c <| undo := undo' |> in
    match slot with
    | Some (edge, rate) =>
        edges' ← store i edge (edges c);
        r' ← ResolverHealth.set_rate rate r;
        Some (c <| edges := edges' |>, r')
    | None => Some (c, r)
    end
  else Some (c, r).

(** A [Congested] verdict: step down from the resolver's own rate. *)
Definition retreat (i : nat) (now : Z) (converging : bool) (dispatched : Z) (window_seconds : f64)
    (r : resolver) (c : t) : option (t * resolver) :=
  let observed_qps := (f64_of_Z dispatched / f64_max window_seconds MICRO)%f64 in
  let rate := ResolverHealth.rate r in
  was_stepped ← stepped c !! i;
  let shaped := was_stepped && (observed_qps >=? RETREAT * rate)%f64 in
  slot ← edges c !! i;
  let edge := match slot with
              | None => mk_edge observed_qps now
              | Some edge =>
                  if converging && shaped then mk_edge (f64_min (qps edge) rate) now else edge
              end in
  let target := target_below (qps edge) in
  let steps := (target <? rate * (ONE + RETREAT) / TWO)%f64 in
  stepped' ← store i steps (stepped c);
  undo' ← (if steps then store i (Some (slot, rate)) (undo c) else Some (undo c));
  edges' ← store i (Some edge) (edges c);
  r' ← ResolverHealth.set_rate target r;
  Some (c <| stepped := stepped' |> <| undo := undo' |> <| edges := edges' |>, r').

(** A full window of one resolver. *)
Definition judge_window (i : nat) (now : Z) (w : Observation.t) (window_seconds : f64)
    (r : resolver) (c : t) : option (t * resolver) :=
  let dispatched := Observation.attempted w in
  if dispatched <? MIN_SAMPLES then relax i now r c
  else
    let loss := f64_min (f64_of_Z (Observation.lost w) / f64_of_Z dispatched)%f64 ONE in
    let delivered := (f64_of_Z (Observation.responded w) / f64_max window_seconds MICRO)%f64 in
    j ← judge c !! i;
    let '(j', verdict) := LossJudge.judge loss delivered j in
    judge' ← store i j' (judge c);
    let c := c <| judge := judge' |> in
    match verdict with
    | Clear => stepped' ← store i false (stepped c); relax i now r (c <| stepped := stepped' |>)
    | Baseline => undo_retreat i r c
    | Congested converging => retreat i now converging dispatched window_seconds r c
    end.

(** What the loop over the resolvers adds up. *)
Record totals := mk_totals {
  attempted_total : Z;
  attempts_lost : Z;
  attempts_responded : Z;
  longest_timeout : f64;
  responsive : Z
}.
Definition no_totals : totals := mk_totals 0 0 0 (f64_of_Z 0) 0.

(** The queries a resolver has lost and answered so far, by its [stats]. *)
Definition observation {B} (st : ResolverStats B) : Observation.t :=
  Observation.mk (st_attempted st) (u64_add (st_timeout st) (st_error st))
    (u64_add (st_answered st) (st_empty st)).

(** One resolver's turn in the loop, after its [stats] were loaded. *)
Definition visit_seen {B} (st : ResolverStats B) (seconds : f64) (now : Z) (i : nat) (r : resolver)
    (tot : totals) (c : t) : option (t * resolver * totals) :=
  let current := observation st in
  previous ← per_resolver c !! i;
  per_resolver' ← store i current (per_resolver c);
  let tick_attempted := u64_saturating_sub (Observation.attempted current) (Observation.attempted previous) in
  let tick_lost := u64_saturating_sub (Observation.lost current) (Observation.lost previous) in
  let tick_responded := u64_saturating_sub (Observation.responded current) (Observation.responded previous) in
  let answers := 0 <? Observation.responded current in
  let timeout := as_secs_f64 (ResolverHealth.request_timeout r) in
  let tot := mk_totals (u64_add (attempted_total tot) tick_attempted)
               (if answers then u64_add (attempts_lost tot) tick_lost else attempts_lost tot)
               (if answers then u64_add (attempts_responded tot) tick_responded else attempts_responded tot)
               (f64_max (longest_timeout tot) timeout)
               (if answers then u64_add (responsive tot) 1 else responsive tot) in
  w ← window c !! i;
  let w := Observation.mk (u64_add (Observation.attempted w) tick_attempted)
             (u64_add (Observation.lost w) tick_lost)
             (u64_add (Observation.responded w) tick_responded) in
  ws ← window_seconds c !! i;
  let ws := (ws + seconds)%f64 in
  let gathering := (ws <? timeout)%f64
                     || ((Observation.attempted w <? MIN_SAMPLES)
                           && (ws <? timeout * MAX_WINDOW_TIMEOUTS)%f64) in
  window' ← store i (if gathering then w else Observation.default) (window c);
  seconds' ← store i (if gathering then ws else f64_of_Z 0) (window_seconds c);
  let c := c <| per_resolver := per_resolver' |> <| window := window' |>
             <| window_seconds := seconds' |> in
  '(c, r) ← (if gathering then relax i now r c else judge_window i now w ws r c);
  Some (c, r, tot).

Definition visit (seconds : f64) (now : Z) (i : nat) (r : resolver) (tot : totals) (c : t)
    : option (t * resolver * totals) :=
  visit_seen (ResolverHealth.stats r) seconds now i r tot c.

Fixpoint visit_all (seconds : f64) (now : Z) (i : nat) (rs : list resolver) (tot : totals) (c : t)
    : option (t * list resolver * totals) :=
  match rs with
  | [] => Some (c, [], tot)
  | r :: rs' =>
      '(c, r, tot) ← visit seconds now i r tot c;
      '(c, rs', tot) ← visit_all seconds now (Datatypes.S i) rs' tot c;
      Some (c, r :: rs', tot)
  end.

(** Retreat from the standing limit, or from observed throughput the first time. *)
Definition lower_global (dispatched : Z) (window_seconds : f64) (c : t) : option t :=
  let basis := from_option id (f64_of_Z dispatched / f64_max window_seconds MICRO)%f64
                 (global_limit c) in
  let target := f64_min (f64_max (basis * RETREAT)%f64 MIN_RATE_QPS) (global_ceiling c) in
  g ← RateLimiter.set_rate target (global c);
  Some (c <| global_limit := Some target |> <| global := g |>).

Definition raise_global (limit : f64) (c : t) : option t :=
  let grown := (limit * GROWTH)%f64 in
  if (grown >=? global_ceiling c)%f64 then
    g ← RateLimiter.set_rate (global_ceiling c) (global c);
    Some (c <| global_limit := None |> <| global := g |>)
  else
    g ← RateLimiter.set_rate grown (global c);
    Some (c <| global_limit := Some grown |> <| global := g |>).

Definition adjust_global (seconds : f64) (attempted : Z) (outcomes : Outcomes) (c : t) : option t :=
  let current := Observation.mk (completed outcomes) (failed outcomes) 0 in
  let previous := previous_outcomes c in
  let gw := global_window c in
  let gw := gw
    <| Observation.attempted := u64_add (Observation.attempted gw)
         (u64_saturating_sub (Observation.attempted current) (Observation.attempted previous)) |>
    <| Observation.lost := u64_add (Observation.lost gw)
         (u64_saturating_sub (Observation.lost current) (Observation.lost previous)) |> in
  let dispatched := u64_add (global_window_dispatched c) attempted in
  let ws := (global_window_seconds c + seconds)%f64 in
  let c := c <| previous_outcomes := current |> in
  if Observation.attempted gw <? MIN_AGGREGATE_SAMPLES then
    Some (c <| global_window := gw |> <| global_window_dispatched := dispatched |>
            <| global_window_seconds := ws |>)
  else
    let c := c <| global_window := Observation.default |> <| global_window_dispatched := 0 |>
               <| global_window_seconds := f64_of_Z 0 |> in
    let completed := Observation.attempted gw in
    let failed := Observation.lost gw in
    let loss := (f64_of_Z failed / f64_of_Z completed)%f64 in
    let delivered := (f64_of_Z (u64_saturating_sub completed failed) / f64_max ws MICRO)%f64 in
    let '(j, verdict) := LossJudge.judge loss delivered (global_judge c) in
    let c := c <| global_judge := j |> in
    match verdict with
    | Congested _ => lower_global dispatched ws c
    | _ =>
        if (loss >? MAX_BASELINE_LOSS)%f64 then Some c
        else match global_limit c with
             | None => Some c
             | Some limit => raise_global limit c
             end
    end.

(** The global rate, and the brake's next window set aside when that rate moved. *)
Definition balance (seconds : f64) (tot : totals) (outcomes : Outcomes) (c : t) : option t :=
  let global_rate := RateLimiter.rate (global c) in
  c ← adjust_global seconds (attempted_total tot) outcomes c;
  Some (if negb (f64_eq (RateLimiter.rate (global c)) global_rate)
        then c <| attempts := (attempts c) <| AttemptBrake.settling := true |> |> else c).

Definition pace_attempts (seconds : f64) (now : Z) (tot : totals) (c : t) : t :=
  let brake := attempts c in
  let brake :=
    if ATTEMPT_MIN_RESOLVERS <=? responsive tot
    then AttemptBrake.tick seconds (attempted_total tot) (attempts_lost tot)
           (attempts_responded tot) (longest_timeout tot) now brake
    else match AttemptBrake.limit brake with
         | Some _ => AttemptBrake.set_limit None brake
         | None => brake
         end in
  c <| attempts := brake |>.

Definition tick (rs : list resolver) (outcomes : Outcomes) (elapsed now : Z) (c : t)
    : option (t * list resolver) :=
  let seconds := f64_max (as_secs_f64 elapsed) MICRO in
  '(c, rs, tot) ← visit_all seconds now 0 rs no_totals c;
  c ← balance seconds tot outcomes c;
  Some (pace_attempts seconds now tot c, rs).

End AdaptiveController.
Arguments t S : clear implicits.
End AdaptiveController.

(** ** Invariants *)

Section ControllerSpec.
Import AdaptiveController.
Context {A S : Type} `{SemaphoreOps S}.

Definition edge_ok (e : option Edge) : Prop := forall x, e = Some x -> f64_nonneg (qps x).

(** A rate a limiter can have been read at: at least one query per second. *)
Definition rate_ok (q : f64) : Prop := f64_nonneg q /\ one_unit <= units q.

Definition undo_ok (u : option (option Edge * f64)) : Prop :=
  forall e q, u = Some (e, q) -> edge_ok e /\ rate_ok q.

(** The per-resolver half: one slot per resolver, rates that are numbers. *)
Record lanes_ok (n : nat) (c : t S) : Prop := {
  lo_lengths : length (per_resolver c) = n /\ length (edges c) = n /\ length (stepped c) = n /\
               length (undo c) = n /\ length (judge c) = n /\ length (window c) = n /\
               length (window_seconds c) = n;
  lo_edges : Forall edge_ok (edges c);
  lo_undo : Forall undo_ok (undo c);
  lo_seconds : Forall f64_nonneg (window_seconds c);
}.

(** The global half: the standing limit is between one query a second (or the ceiling,
    when that is lower) and the ceiling. *)
Record global_ok (c : t S) : Prop := {
  go_ceiling : f64_fin (global_ceiling c) /\ 0 < units (global_ceiling c);
  go_seconds : f64_nonneg (global_window_seconds c);
  go_limit : forall l, global_limit c = Some l ->
    f64_fin l /\ Z.min one_unit (units (global_ceiling c)) <= units l <= units (global_ceiling c);
}.

(** No resolver is paced below one query per second. *)
Definition resolver_ok (r : ResolverHealth.t A S) : Prop :=
  one_qps_or_more (ResolverHealth.limiter r).

(** The state the loop over the resolvers does not touch. *)
Definition same_global (c c' : t S) : Prop :=
  global c' = global c /\ global_ceiling c' = global_ceiling c /\
  previous_outcomes c' = previous_outcomes c /\ global_window c' = global_window c /\
  global_window_dispatched c' = global_window_dispatched c /\
  global_window_seconds c' = global_window_seconds c /\ global_judge c' = global_judge c /\
  global_limit c' = global_limit c /\ attempts c' = attempts c.

(** A turn of the loop that went through. *)
Definition lane_step (n : nat) (c : t S) (res : option (t S * ResolverHealth.t A S)) : Prop :=
  exists c' r', res = Some (c', r') /\ lanes_ok n c' /\ resolver_ok r' /\ same_global c c'.

End ControllerSpec.

(** Step through the option monad and the controller's fields only. *)
Ltac monad :=
  repeat match goal with
  | |- context [mbind ?f (Some ?x)] => change (mbind f (Some x)) with (f x); cbv beta
  end;
  cbn [set_with AdaptiveController.t_settable AdaptiveController.global
       AdaptiveController.per_resolver AdaptiveController.edges AdaptiveController.stepped
       AdaptiveController.undo AdaptiveController.judge AdaptiveController.window
       AdaptiveController.window_seconds AdaptiveController.global_ceiling
       AdaptiveController.global_limit AdaptiveController.attempts
       AdaptiveController.previous_outcomes AdaptiveController.global_window
       AdaptiveController.global_window_dispatched AdaptiveController.global_window_seconds
       AdaptiveController.global_judge].

Ltac monad_in H :=
  repeat match type of H with
  | context [mbind ?f (Some ?x)] => change (mbind f (Some x)) with (f x) in H; cbv beta in H
  end.

Section ControllerProofs.
Import AdaptiveController.
Context {A S : Type} `{SemaphoreOps S}.
Implicit Types (c : t S) (r : ResolverHealth.t A S).

Lemma store_lt {X} i (x : X) l : (i < length l)%nat -> store i x l = Some (<[i := x]> l).
Proof. intros Hi. unfold store. by rewrite decide_True. Qed.

Lemma store_lookup {X} i (x : X) l l' : store i x l = Some l' -> l' !! i = Some x.
Proof. unfold store. case_decide; [|done]. intros [= <-]. by apply list_lookup_insert_eq. Qed.

Ltac stored :=
  monad;
  match goal with
  | |- context [mbind ?f (store ?i ?x ?l)] => rewrite (store_lt i x l) by (monad; congruence)
  end; monad.

Lemma same_global_refl c : same_global c c.
Proof. by repeat split. Qed.

Lemma same_global_trans c1 c2 c3 : same_global c1 c2 -> same_global c2 c3 -> same_global c1 c3.
Proof. unfold same_global. intros ? ?. destruct_and!. split_and!; congruence. Qed.

Lemma lane_step_trans n c c1 (res : option (t S * ResolverHealth.t A S)) : same_global c c1 -> lane_step n c1 res -> lane_step n c res.
Proof.
  intros Hs (c' & r' & E & Hl & Hr & Hg). exists c', r'. split_and!; try done.
  by eapply same_global_trans.
Qed.

(** *** Rates *)

Lemma min_rate_ok : rate_ok MIN_RATE_QPS.
Proof. split; [split; vm_compute; trivial|vm_compute; discriminate]. Qed.
Lemma unlimited_ok : rate_ok UNLIMITED_QPS.
Proof. split; [split; vm_compute; trivial|vm_compute; discriminate]. Qed.
Lemma growth_factor : f64_fin GROWTH /\ one_unit <= units GROWTH.
Proof. split; [f64_const|vm_compute; discriminate]. Qed.
Lemma retreat_factor : f64_fin RETREAT /\ 0 < units RETREAT /\ units RETREAT <= one_unit.
Proof. split; [f64_const|split; vm_compute; [reflexivity|discriminate]]. Qed.
Lemma micro_ok : f64_fin MICRO /\ 0 < units MICRO.
Proof. split; [f64_const|vm_compute; reflexivity]. Qed.

Lemma rate_ok_max x : f64_nonneg x -> rate_ok (f64_max x MIN_RATE_QPS).
Proof.
  intros Hx. destruct min_rate_ok as [Hm Hm1].
  destruct (f64_max_units x MIN_RATE_QPS Hx Hm) as [Hn Hu]. split; [exact Hn|].
  rewrite Hu. etransitivity; [exact Hm1|apply Z.le_max_r].
Qed.

Lemma rate_ok_min x y : rate_ok x -> rate_ok y -> rate_ok (f64_min x y).
Proof.
  intros [Hx Hx1] [Hy Hy1]. destruct (f64_min_units x y Hx Hy) as [Hn Hu]. split; [exact Hn|].
  rewrite Hu. by apply Z.min_glb.
Qed.

Lemma retreat_nonneg x : f64_nonneg x -> f64_nonneg (RETREAT * x)%f64.
Proof.
  intros Hx. destruct retreat_factor as (Hf & Hpos & _). destruct (f64_nonneg_cases x Hx) as [Hxf| ->].
  - exact (f64_mul_nonneg _ _ Hf Hxf).
  - split; vm_compute; trivial.
Qed.

Lemma target_ok e : f64_nonneg e -> rate_ok (target_below e).
Proof. intros He. apply rate_ok_max. by apply retreat_nonneg. Qed.

Lemma grown_ok q : f64_fin q -> one_unit <= units q -> rate_ok (q * GROWTH)%f64.
Proof.
  intros Hq H1. destruct growth_factor as [Hg Hg1]. split.
  - exact (f64_mul_nonneg _ _ Hq Hg).
  - etransitivity; [exact H1|]. exact (f64_mul_ge_l _ _ Hq Hg Hg1).
Qed.

(** Counts over a measured time, at least a microsecond. *)
Lemma per_second_nonneg n ws :
  0 <= n < u64_modulus -> f64_nonneg ws -> f64_nonneg (f64_of_Z n / f64_max ws MICRO)%f64.
Proof.
  intros Hn Hw. destruct micro_ok as [Hm Hm1]. destruct (f64_of_u64 n Hn) as [Hf _].
  destruct (f64_max_units ws MICRO Hw (proj1 Hm)) as [Hx Hu].
  apply f64_div_nonneg; [exact Hf|exact Hx|]. rewrite Hu. eapply Z.lt_le_trans; [exact Hm1|apply Z.le_max_r].
Qed.

Lemma resolver_rate_ok r :
  resolver_ok r -> f64_fin (ResolverHealth.rate r) /\ one_unit <= units (ResolverHealth.rate r).
Proof. intros Hr. destruct (rate_units _ Hr) as (? & ? & _). by split. Qed.

Lemma set_rate_ok q r :
  rate_ok q -> exists r', ResolverHealth.set_rate q r = Some r' /\ resolver_ok r'.
Proof.
  intros [Hq H1]. unfold ResolverHealth.set_rate, RateLimiter.set_rate.
  destruct (interval_for_floor q Hq H1) as (i & -> & Hi). simpl. eexists. split; [reflexivity|].
  unfold resolver_ok, one_qps_or_more. simpl. exact Hi.
Qed.

Lemma interval_for_antitone q1 q2 i1 i2 :
  f64_fin q1 -> f64_nonneg q2 -> units q1 <= units q2 ->
  RateLimiter.interval_for q1 = Some i1 -> RateLimiter.interval_for q2 = Some i2 -> i2 <= i1.
Proof.
  intros H1 H2 Hle E1 E2. destruct (f64_nonneg_cases q2 H2) as [Hf| ->].
  - exact (interval_for_mono q1 q2 i1 i2 H1 Hf Hle E1 E2).
  - assert (RateLimiter.interval_for (S754_infinity false) = Some 1) as E by (vm_compute; reflexivity).
    rewrite E in E2. injection E2 as <-. by apply (interval_for_bounds q1).
Qed.

Lemma interval_for_antitone_l q1 q2 i1 i2 :
  f64_nonneg q1 -> f64_nonneg q2 -> units q1 <= units q2 ->
  RateLimiter.interval_for q1 = Some i1 -> RateLimiter.interval_for q2 = Some i2 -> i2 <= i1.
Proof.
  intros H1 H2 Hle E1 E2. destruct (f64_nonneg_cases q1 H1) as [Hf| ->].
  - by eapply interval_for_antitone.
  - destruct (f64_nonneg_cases q2 H2) as [Hf| ->]; [|rewrite E1 in E2; injection E2 as <-; lia].
    pose proof (f64_fin_units q2 Hf). change (units (S754_infinity false)) with inf_units in Hle. lia.
Qed.

(** *** Vectors *)

Lemma lanes_lookup n c i :
  lanes_ok n c -> (i < n)%nat ->
  is_Some (per_resolver c !! i) /\ is_Some (edges c !! i) /\ is_Some (stepped c !! i) /\
  is_Some (undo c !! i) /\ is_Some (judge c !! i) /\ is_Some (window c !! i) /\
  is_Some (window_seconds c !! i).
Proof. intros [Hl _ _ _] Hi. destruct_and!. split_and!; apply lookup_lt_is_Some_2; congruence. Qed.

Lemma lanes_edges n c i e :
  lanes_ok n c -> edge_ok e -> lanes_ok n (c <| edges := <[i := e]> (edges c) |>).
Proof.
  intros [Hl He Hu Hs] Hx. destruct_and! Hl.
  split; simpl; try done; [rewrite length_insert; by split_and!|by apply Forall_insert].
Qed.

Lemma lanes_judge n c i j :
  lanes_ok n c -> lanes_ok n (c <| judge := <[i := j]> (judge c) |>).
Proof. intros [Hl He Hu Hs]. destruct_and! Hl. split; simpl; try done. rewrite length_insert. by split_and!. Qed.

Lemma lanes_stepped n c i b :
  lanes_ok n c -> lanes_ok n (c <| stepped := <[i := b]> (stepped c) |>).
Proof. intros [Hl He Hu Hs]. destruct_and! Hl. split; simpl; try done. rewrite length_insert. by split_and!. Qed.

Lemma lanes_undo n c i u :
  lanes_ok n c -> undo_ok u -> lanes_ok n (c <| undo := <[i := u]> (undo c) |>).
Proof.
  intros [Hl He Hu Hs] Hx. destruct_and! Hl.
  split; simpl; try done; [rewrite length_insert; by split_and!|by apply Forall_insert].
Qed.

Lemma edge_ok_none : edge_ok None.
Proof. discriminate. Qed.
Lemma undo_ok_none : undo_ok None.
Proof. discriminate. Qed.

(** *** One resolver's turn *)

Lemma relax_ok n i now r c :
  lanes_ok n c -> (i < n)%nat -> resolver_ok r -> lane_step n c (relax i now r c).
Proof.
  intros Hc Hi Hr. destruct (lanes_lookup n c i Hc Hi) as (_ & [slot Es] & _ & _ & [j Ej] & _).
  pose proof (lo_lengths n c Hc) as Hl. destruct_and! Hl.
  unfold relax. rewrite Es. monad. destruct slot as [e|].
  2:{ exists c, r. split_and!; try done; apply same_global_refl. }
  pose proof (Forall_lookup_1 _ _ _ _ (lo_edges n c Hc) Es) as He. specialize (He e eq_refl).
  destruct (EDGE_TTL <=? _).
  - stored. rewrite Ej. monad. stored.
    destruct (set_rate_ok UNLIMITED_QPS r unlimited_ok) as (r' & -> & Hr'). monad.
    eexists _, _. split; [reflexivity|]. split; [|split; [exact Hr'|by repeat split]].
    exact (lanes_judge n _ i _ (lanes_edges n c i None Hc edge_ok_none)).
  - destruct (f64_lt _ _).
    2:{ exists c, r. split_and!; try done; apply same_global_refl. }
    destruct (resolver_rate_ok r Hr) as [Hf Hone].
    destruct (set_rate_ok (f64_min (ResolverHealth.rate r * GROWTH)%f64 (target_below (qps e))) r)
      as (r' & -> & Hr'); [apply rate_ok_min; [by apply grown_ok|by apply target_ok]|].
    monad. eexists _, _. split; [reflexivity|]. split_and!; try done; apply same_global_refl.
Qed.

Lemma undo_retreat_ok n i r c :
  lanes_ok n c -> (i < n)%nat -> resolver_ok r -> lane_step n c (undo_retreat i r c).
Proof.
  intros Hc Hi Hr. destruct (lanes_lookup n c i Hc Hi) as (_ & _ & [b Eb] & [u Eu] & _).
  pose proof (lo_lengths n c Hc) as Hl. destruct_and! Hl.
  unfold undo_retreat. rewrite Eb. monad. stored.
  pose proof (lanes_stepped n c i false Hc) as Hc1.
  destruct b.
  2:{ eexists _, _. split; [reflexivity|]. split_and!; try done. }
  rewrite Eu. monad. stored.
  pose proof (lanes_undo n _ i None Hc1 undo_ok_none) as Hc2.
  pose proof (Forall_lookup_1 _ _ _ _ (lo_undo n c Hc) Eu) as Hu.
  destruct u as [[e q]|].
  2:{ eexists _, _. split; [reflexivity|]. split_and!; try done. }
  destruct (Hu e q eq_refl) as [He Hq].
  stored.
  destruct (set_rate_ok q r Hq) as (r' & -> & Hr'). monad.
  eexists _, _. split; [reflexivity|]. split_and!; try done.
  exact (lanes_edges n _ i e Hc2 He).
Qed.

Lemma retreat_ok n i now converging dispatched ws r c :
  lanes_ok n c -> (i < n)%nat -> resolver_ok r -> 0 <= dispatched < u64_modulus -> f64_nonneg ws ->
  lane_step n c (retreat i now converging dispatched ws r c).
Proof.
  intros Hc Hi Hr Hd Hws. destruct (lanes_lookup n c i Hc Hi) as (_ & [slot Es] & [b Eb] & [u Eu] & _).
  pose proof (lo_lengths n c Hc) as Hl. destruct_and! Hl.
  destruct (resolver_rate_ok r Hr) as [Hf Hone].
  unfold retreat. rewrite Eb, Es. monad.
  set (observed := (f64_of_Z dispatched / f64_max ws MICRO)%f64).
  assert (f64_nonneg observed) as Ho by (by apply per_second_nonneg).
  set (edge := match slot with None => mk_edge observed now | Some e => _ end).
  pose proof (Forall_lookup_1 _ _ _ _ (lo_edges n c Hc) Es) as Hslot.
  assert (f64_nonneg (qps edge)) as He.
  { unfold edge. destruct slot as [e|]; [|exact Ho]. specialize (Hslot e eq_refl).
    destruct (_ && _); [|exact Hslot]. simpl. by apply f64_min_units; [|apply Hf]. }
  clearbody observed edge. stored.
  set (steps := f64_lt _ _).
  assert (exists c2 : list (option (option Edge * f64)), (if steps then store i (Some (slot, ResolverHealth.rate r)) (undo c) else Some (undo c))
                     = Some c2 /\ lanes_ok n ((c <| stepped := <[i := steps]> (stepped c) |>) <| undo := c2 |>))
    as (c2 & -> & Hc2).
  { pose proof (lanes_stepped n c i steps Hc) as Hc1. clearbody steps. destruct steps.
    - rewrite store_lt by congruence. eexists. split; [reflexivity|].
      apply (lanes_undo n _ i _ Hc1). intros e q [= <- <-]. split; [exact Hslot|].
      split; [exact (proj1 Hf)|exact Hone].
    - eexists. split; [reflexivity|]. destruct Hc1. by split. }
  monad. stored.
  destruct (set_rate_ok (target_below (qps edge)) r) as (r' & -> & Hr'); [by apply target_ok|]. monad.
  eexists _, _. split; [reflexivity|]. split_and!; try done.
  apply (lanes_edges n _ i (Some edge) Hc2). by intros x [= <-].
Qed.

Definition is_observation (w : Observation.t) : Prop :=
  0 <= Observation.attempted w < u64_modulus.

Lemma judge_window_ok n i now w ws r c :
  lanes_ok n c -> (i < n)%nat -> resolver_ok r -> is_observation w -> f64_nonneg ws ->
  lane_step n c (judge_window i now w ws r c).
Proof.
  intros Hc Hi Hr Hw Hws. destruct (lanes_lookup n c i Hc Hi) as (_ & _ & _ & _ & [j Ej] & _).
  pose proof (lo_lengths n c Hc) as Hl. destruct_and! Hl.
  unfold judge_window. destruct (_ <? _); [by apply relax_ok|]. rewrite Ej. monad.
  destruct (LossJudge.judge _ _ j) as [j' v]. stored.
  pose proof (lanes_judge n c i j' Hc) as Hc1.
  eapply (lane_step_trans n c (c <| judge := <[i:=j']> (judge c) |>)); [by repeat split|].
  destruct v.
  - by apply retreat_ok.
  - stored.
    eapply lane_step_trans; [|apply relax_ok; [exact (lanes_stepped n _ i false Hc1)|done|done]]. by repeat split.
  - by apply undo_retreat_ok.
Qed.

Lemma wrap_range a : 0 <= wrap_u64 a < u64_modulus.
Proof. by apply Z.mod_pos_bound. Qed.

Lemma visit_ok {B} (st : ResolverStats B) n seconds now i r tot c :
  lanes_ok n c -> (i < n)%nat -> resolver_ok r -> f64_nonneg seconds ->
  exists c' r' tot', visit_seen st seconds now i r tot c = Some (c', r', tot') /\
    lanes_ok n c' /\ resolver_ok r' /\ same_global c c'.
Proof.
  intros Hc Hi Hr Hsec.
  destruct (lanes_lookup n c i Hc Hi) as ([p Ep] & _ & _ & _ & _ & [w Ew] & [ws Ews]).
  pose proof (lo_lengths n c Hc) as Hl. destruct_and! Hl.
  unfold visit_seen. rewrite Ep. monad. stored. rewrite Ew. monad. rewrite Ews. monad.
  set (w' := Observation.mk _ _ _). set (gathering := orb _ _). stored. stored.
  pose proof (Forall_lookup_1 _ _ _ _ (lo_seconds n c Hc) Ews) as Hws.
  pose proof (f64_add_nonneg ws seconds Hws Hsec) as Hws'.
  assert (is_observation w') as Hw' by apply wrap_range.
  set (c1 := mk _ _ _ _ _ _ _ _ _ _ _ _ _ _ _ _).
  assert (lanes_ok n c1) as Hc1.
  { destruct Hc as [_ He Hu Hs]. split; simpl; try done.
    - rewrite !length_insert. by split_and!.
    - apply Forall_insert; [done|]. by destruct gathering. }
  assert (same_global c c1) as Hs1 by (by repeat split).
  clearbody c1 w'. assert (lane_step n c1 (if gathering then relax i now r c1
                                     else judge_window i now w' (ws + seconds)%f64 r c1)) as Hstep.
  { destruct gathering; [by apply relax_ok|by apply judge_window_ok]. }
  destruct Hstep as (c' & r' & -> & Hl & Hr' & Hg). monad.
  eexists _, _, _. split; [reflexivity|]. split_and!; try done. by eapply same_global_trans.
Qed.

Lemma visit_all_ok n seconds now (rs : list (ResolverHealth.t A S)) : forall i tot c,
  lanes_ok n c -> (i + length rs <= n)%nat -> Forall resolver_ok rs -> f64_nonneg seconds ->
  exists c' rs' tot', visit_all seconds now i rs tot c = Some (c', rs', tot') /\
    lanes_ok n c' /\ Forall resolver_ok rs' /\ same_global c c' /\ length rs' = length rs.
Proof.
  induction rs as [|r rs IH]; intros i tot c Hc Hi Hrs Hsec; simpl in Hi.
  { exists c, [], tot. split_and!; try done. }
  apply Forall_cons in Hrs as [Hr Hrs]. cbn [visit_all]. unfold visit.
  destruct (visit_ok (ResolverHealth.stats r) n seconds now i r tot c Hc ltac:(lia) Hr Hsec) as (c1 & r1 & t1 & -> & H1 & Hr1 & Hg1).
  monad. destruct (IH (Datatypes.S i) t1 c1 H1 ltac:(lia) Hrs Hsec) as (c2 & rs2 & t2 & -> & H2 & Hr2 & Hg2 & Hlen).
  monad. eexists _, _, _. split; [reflexivity|]. split_and!; try done.
  - by constructor.
  - by eapply same_global_trans.
  - simpl. by rewrite Hlen.
Qed.

(** *** The global rate *)

(** What adjusting the global rate may do to the limiter: nothing, or one [set_rate]
    to a rate no higher than the ceiling. *)
Definition capped_step c c' : Prop :=
  global c' = global c \/
  exists q, RateLimiter.at_most (global_ceiling c) q /\ RateLimiter.set_rate q (global c) = Some (global c').

Definition global_step c (res : option (t S)) : Prop :=
  exists c', res = Some c' /\ global_ok c' /\ capped_step c c' /\
             global_ceiling c' = global_ceiling c /\ attempts c' = attempts c /\
             (forall n, lanes_ok n c -> lanes_ok n c').

Lemma set_capped_rate q c :
  global_ok c -> f64_fin q -> 0 < units q -> units q <= units (global_ceiling c) ->
  exists g, RateLimiter.set_rate q (global c) = Some g /\ RateLimiter.at_most (global_ceiling c) q.
Proof.
  intros _ Hf Hpos Hle. unfold RateLimiter.set_rate.
  destruct (interval_for_units q Hf Hpos) as (x & _ & _ & -> & _). eexists. split; [reflexivity|by split].
Qed.

Lemma min_ceiling_pos c : global_ok c -> 0 < Z.min one_unit (units (global_ceiling c)).
Proof. intros [[_ Hc] _ _]. pose proof one_unit_pos. by apply Z.min_glb_lt. Qed.

Lemma lower_global_ok dispatched ws c :
  global_ok c -> 0 <= dispatched < u64_modulus -> f64_nonneg ws ->
  global_step c (lower_global dispatched ws c).
Proof.
  intros Hc Hd Hws. pose proof (min_ceiling_pos c Hc) as Hmin. destruct (go_ceiling c Hc) as [Hcf Hcp].
  unfold lower_global. set (basis := from_option id _ _).
  assert (f64_nonneg basis) as Hb.
  { unfold basis. destruct (global_limit c) as [l|] eqn:E; [exact (proj1 (proj1 (go_limit c Hc l E)))|].
    by apply per_second_nonneg. }
  clearbody basis. destruct retreat_factor as (Hrf & Hrp & _).
  pose proof (f64_mul_pos_nonneg basis RETREAT Hb Hrf Hrp) as Hcut.
  destruct (rate_ok_max _ Hcut) as [Hx Hx1].
  set (x := f64_max (basis * RETREAT)%f64 MIN_RATE_QPS) in *. clearbody x.
  destruct (f64_min_units x (global_ceiling c) Hx (proj1 Hcf)) as [Hn Hu].
  set (target := f64_min x (global_ceiling c)) in *. clearbody target.
  assert (Z.min one_unit (units (global_ceiling c)) <= units target <= units (global_ceiling c)) as Hr
    by (rewrite Hu; lia).
  assert (f64_fin target) as Hf by (apply (f64_fin_le_of (global_ceiling c)); [done|done|lia]).
  destruct (set_capped_rate target c Hc Hf ltac:(lia) ltac:(lia)) as (g & Eg & Hcap).
  rewrite Eg. monad. eexists. split; [reflexivity|]. split; [|split; [|split; [done|split; [done|]]]].
  - destruct Hc as [H1 H2 _]. split; [exact H1|exact H2|]. intros l [= <-]. split; [exact Hf|exact Hr].
  - right. exists target. split; [exact Hcap|exact Eg].
  - intros n []. by split.
Qed.

Lemma raise_global_ok limit c :
  global_ok c -> global_limit c = Some limit -> global_step c (raise_global limit c).
Proof.
  intros Hc El. pose proof (min_ceiling_pos c Hc) as Hmin. destruct (go_ceiling c Hc) as [Hcf Hcp].
  destruct (go_limit c Hc limit El) as [Hlf [Hl1 Hl2]]. destruct growth_factor as [Hgf Hg1].
  pose proof (f64_mul_nonneg limit GROWTH Hlf Hgf) as Hgn.
  pose proof (f64_mul_ge_l limit GROWTH Hlf Hgf Hg1) as Hge.
  unfold raise_global. set (grown := (limit * GROWTH)%f64) in *. clearbody grown.
  rewrite f64_le_units by (exact (proj1 Hcf) || exact Hgn).
  destruct (Z.leb_spec (units (global_ceiling c)) (units grown)) as [Hle|Hlt].
  - destruct (set_capped_rate (global_ceiling c) c Hc Hcf Hcp ltac:(lia)) as (g & Eg & Hcap).
    rewrite Eg. monad. eexists. split; [reflexivity|]. split; [|split; [|split; [done|split; [done|]]]].
    + destruct Hc as [H1 H2 _]. split; [exact H1|exact H2|discriminate].
    + right. exists (global_ceiling c). split; [exact Hcap|exact Eg].
    + intros n []. by split.
  - assert (f64_fin grown) as Hf by (apply (f64_fin_le_of (global_ceiling c)); [done|done|lia]).
    destruct (set_capped_rate grown c Hc Hf ltac:(lia) ltac:(lia)) as (g & Eg & Hcap).
    rewrite Eg. monad. eexists. split; [reflexivity|]. split; [|split; [|split; [done|split; [done|]]]].
    + destruct Hc as [H1 H2 _]. split; [exact H1|exact H2|]. intros l [= <-]. split; [exact Hf|cbn; lia].
    + right. exists grown. split; [exact Hcap|exact Eg].
    + intros n []. by split.
Qed.

(** Changing what the global half only reads keeps everything. *)
Lemma global_step_from c c1 res :
  global c1 = global c -> global_ceiling c1 = global_ceiling c -> attempts c1 = attempts c ->
  (forall n, lanes_ok n c -> lanes_ok n c1) -> global_step c1 res -> global_step c res.
Proof.
  intros E1 E2 E3 Hl (c' & -> & Hok & Hcap & Ec & Ea & Hl'). exists c'. unfold capped_step in *.
  rewrite E1, E2, E3 in *. split_and!; try done; auto.
Qed.

Lemma adjust_global_ok seconds attempted outcomes c :
  global_ok c -> f64_nonneg seconds -> global_step c (adjust_global seconds attempted outcomes c).
Proof.
  intros Hc Hsec. unfold adjust_global. cbv zeta. monad.
  pose proof (f64_add_nonneg _ _ (go_seconds c Hc) Hsec) as Hws. pose proof Hc as [Hcl _ Hlim].
  destruct (_ <? MIN_AGGREGATE_SAMPLES).
  { eexists. split; [reflexivity|]. split; [by split|]. split; [by left|]. split_and!; try done.
    intros n []. by split. }
  destruct (LossJudge.judge _ _ (global_judge c)) as [j v].
  set (c1 := mk _ _ _ _ _ _ _ _ _ _ _ _ _ _ _ _).
  assert (global_ok c1) as Hc1 by (split; [exact Hcl|split; vm_compute; trivial|exact Hlim]).
  assert (global_step c1 (Some c1)) as Hstay.
  { exists c1. split; [done|]. split; [done|]. split; [by left|]. by split_and!. }
  apply (global_step_from c c1); [done|done|done|intros n []; by split|].
  destruct v as [conv| |].
  - apply lower_global_ok; [exact Hc1|apply wrap_range|exact Hws].
  - destruct (f64_lt _ _); [exact Hstay|].
    destruct (global_limit c) eqn:El; [apply raise_global_ok; [exact Hc1|reflexivity]|exact Hstay].
  - destruct (f64_lt _ _); [exact Hstay|].
    destruct (global_limit c) eqn:El; [apply raise_global_ok; [exact Hc1|reflexivity]|exact Hstay].
Qed.

(** *** A whole tick *)

(** Durations are nanosecond counts whose seconds fit a [u64]. *)
Definition is_duration (d : Z) : Prop := 0 <= d < u64_modulus * NANOS_PER_SEC.

Lemma as_secs_nonneg d : is_duration d -> f64_nonneg (as_secs_f64 d).
Proof.
  unfold is_duration, NANOS_PER_SEC. intros Hd. unfold as_secs_f64, NANOS_PER_SEC.
  destruct (f64_of_u64 (d / 1000000000)) as [[Hs _] _].
  { split; [apply Z.div_pos; lia|apply Z.div_lt_upper_bound; lia]. }
  pose proof (Z.mod_pos_bound d 1000000000 ltac:(lia)).
  destruct (f64_of_Z_small (d mod 1000000000)) as [Hm _]; [lia|].
  destruct (f64_of_Z_small 1000000000) as [[Hn Hnf] Hnu]; [lia|]. pose proof one_unit_pos.
  apply f64_add_nonneg; [exact Hs|]. apply f64_div_nonneg; [exact Hm|exact Hn|]. rewrite Hnu. lia.
Qed.

Lemma same_global_ok c c1 : same_global c c1 -> global_ok c -> global_ok c1.
Proof.
  intros Hs1 [Hc Hsc Hlim]. unfold same_global in Hs1. destruct_and!. split; congruence || idtac.
  - by replace (global_ceiling c1) with (global_ceiling c) by done.
  - replace (global_limit c1) with (global_limit c) by done.
    by replace (global_ceiling c1) with (global_ceiling c) by done.
Qed.

Lemma seconds_nonneg elapsed : is_duration elapsed -> f64_nonneg (f64_max (as_secs_f64 elapsed) MICRO).
Proof. intros Hel. apply f64_max_units; [by apply as_secs_nonneg|exact (proj1 (proj1 micro_ok))]. Qed.

Lemma balance_ok seconds tot outcomes c :
  global_ok c -> f64_nonneg seconds ->
  exists c', balance seconds tot outcomes c = Some c' /\ global_ok c' /\ capped_step c c' /\
    global_ceiling c' = global_ceiling c /\
    AttemptBrake.pacer (attempts c') = AttemptBrake.pacer (attempts c) /\
    (forall n, lanes_ok n c -> lanes_ok n c').
Proof.
  intros Hg Hsec. unfold balance. cbv zeta.
  destruct (adjust_global_ok seconds (attempted_total tot) outcomes c Hg Hsec)
    as (c' & -> & Hg' & Hcap & Ec & Ea & Hl'). monad.
  destruct (negb _); eexists; (split; [reflexivity|]); split_and!; try done; try congruence.
  - destruct Hg'. by split.
  - by rewrite <- Ea.
  - intros n Hn. destruct (Hl' n Hn). by split.
Qed.

Lemma pace_attempts_ok seconds now tot c :
  global_ok c -> global_ok (pace_attempts seconds now tot c) /\
  (forall n, lanes_ok n c -> lanes_ok n (pace_attempts seconds now tot c)).
Proof. intros []. split; [by split|]. intros n []. by split. Qed.

Lemma tick_ok (rs : list (ResolverHealth.t A S)) outcomes elapsed now c :
  lanes_ok (length rs) c -> global_ok c -> Forall resolver_ok rs -> is_duration elapsed ->
  exists c' rs', tick rs outcomes elapsed now c = Some (c', rs') /\
    lanes_ok (length rs') c' /\ global_ok c' /\ Forall resolver_ok rs' /\
    length rs' = length rs /\ capped_step c c' /\ global_ceiling c' = global_ceiling c.
Proof.
  intros Hl Hg Hrs Hel. unfold tick. cbv zeta. pose proof (seconds_nonneg _ Hel) as Hsec.
  set (seconds := f64_max _ MICRO) in *. clearbody seconds.
  destruct (visit_all_ok (length rs) seconds now rs 0 no_totals c Hl ltac:(lia) Hrs Hsec)
    as (c1 & rs1 & tot & -> & Hl1 & Hr1 & Hs1 & Hlen). monad.
  destruct (balance_ok seconds tot outcomes c1 (same_global_ok _ _ Hs1 Hg) Hsec)
    as (c2 & -> & Hg2 & Hcap & Ec & _ & Hl2). monad.
  destruct (pace_attempts_ok seconds now tot c2 Hg2) as [Hg3 Hl3].
  eexists _, _. split; [reflexivity|]. rewrite Hlen. unfold same_global, capped_step in *. destruct_and!.
  split_and!; try done; [by apply Hl3, Hl2| |simpl; congruence]. simpl.
  destruct Hcap as [E|(q & Hq & E)]; [left; congruence|right]. exists q. split; congruence.
Qed.

End ControllerProofs.

(** ** The controller among the dispatchers it paces *)

Section ControlSystem.
Import AdaptiveController.
Context {A S : Type} `{SemaphoreOps S}.

(** The dispatch limiter with its callers, the controller, and the resolvers. *)
Record control := mk_control {
  dispatch : RateLimiter.sys;
  controller : t S;
  pool : list (ResolverHealth.t A S)
}.

(** Queries move a resolver's counters and its limiter's cursor, not its interval. *)
Definition same_pace (r r' : ResolverHealth.t A S) : Prop :=
  RateLimiter.interval_ns (ResolverHealth.limiter r') = RateLimiter.interval_ns (ResolverHealth.limiter r).

Inductive control_step : control -> control -> Prop :=
| control_tick k outcomes elapsed now c' rs' :
    is_duration elapsed -> tick (pool k) outcomes elapsed now (controller k) = Some (c', rs') ->
    control_step k (mk_control ((dispatch k) <| RateLimiter.limiter := global c' |>) c' rs')
| control_dispatch k s' :
    RateLimiter.step (fun _ => False) (dispatch k) s' ->
    control_step k (mk_control s' ((controller k) <| global := RateLimiter.limiter s' |>) (pool k))
| control_traffic k rs' :
    Forall2 same_pace (pool k) rs' -> control_step k (mk_control (dispatch k) (controller k) rs')
| control_pacer k p' :
    control_step k (mk_control (dispatch k)
      ((controller k) <| attempts := (attempts (controller k)) <| AttemptBrake.pacer := p' |> |>) (pool k)).

(** A client that starts with a ceiling: one limiter at that rate, a new controller,
    and resolvers that are not paced yet. *)
Definition control_initial (ceiling : f64) (k : control) : Prop :=
  RateLimiter.new ceiling (RateLimiter.clock (dispatch k)) = Some (RateLimiter.limiter (dispatch k)) /\
  RateLimiter.callers (dispatch k) = [] /\ RateLimiter.granted (dispatch k) = [] /\
  (exists pacer, controller k = new (length (pool k)) (RateLimiter.limiter (dispatch k)) pacer ceiling) /\
  Forall (fun r => RateLimiter.interval_ns (ResolverHealth.limiter r) = 1) (pool k).

Record control_ok (ceiling : f64) (k : control) : Prop := {
  co_lanes : lanes_ok (length (pool k)) (controller k);
  co_global : global_ok (controller k);
  co_ceiling : global_ceiling (controller k) = ceiling;
  co_pool : Forall resolver_ok (pool k);
  co_shared : RateLimiter.limiter (dispatch k) = global (controller k);
}.

Lemma control_initial_ok ceiling k :
  f64_fin ceiling -> 0 < units ceiling -> control_initial ceiling k -> control_ok ceiling k.
Proof.
  intros Hf Hpos (_ & _ & _ & (pacer & Ec) & Hpool).
  assert (f64_nonneg (f64_of_Z 0)) as H0 by (split; vm_compute; trivial).
  split; rewrite ?Ec; try reflexivity.
  - split; simpl; [by rewrite !length_replicate| | |]; apply Forall_replicate;
      [discriminate|discriminate|exact H0].
  - split; [by split|exact H0|discriminate].
  - eapply Forall_impl; [exact Hpool|]. intros r Hr. unfold resolver_ok, one_qps_or_more.
    rewrite Hr. unfold NANOS_PER_SEC. lia.
Qed.

Lemma control_step_ok ceiling k k' :
  control_step k k' -> control_ok ceiling k ->
  control_ok ceiling k' /\
  rtc (RateLimiter.step (RateLimiter.at_most ceiling)) (dispatch k) (dispatch k').
Proof.
  intros Hstep [Hl Hg Hc Hp Hs]. destruct Hstep as [k outcomes elapsed now c' rs' Hel Htick|k s' Hd|k rs' Ht|k p'].
  - destruct (tick_ok (pool k) outcomes elapsed now (controller k) Hl Hg Hp Hel)
      as (c2 & rs2 & E & Hl2 & Hg2 & Hp2 & Hlen & Hcap & Hc2).
    rewrite Htick in E. injection E as <- <-. split; [split; simpl; congruence || done|]. simpl.
    destruct Hcap as [E|(q & Hq & E)].
    + rewrite E, <- Hs. by destruct (dispatch k).
    + rewrite Hc in Hq. rewrite <- Hs in E. apply rtc_once. by apply (RateLimiter.step_set_rate _ _ q).
  - split.
    + split; simpl; try done; [destruct Hl; by split|destruct Hg; by split].
    + simpl. apply rtc_once. destruct Hd; [by constructor|done|by constructor|by constructor].
  - split; [|simpl; apply rtc_refl]. pose proof (Forall2_length _ _ _ Ht) as Hlen.
    split; simpl; try done; [by rewrite <- Hlen|].
    clear -Ht Hp. induction Ht as [|r r' rs rs' E _ IH]; [done|]. apply Forall_cons in Hp as [Hr Hp].
    constructor; [|by apply IH]. unfold resolver_ok, one_qps_or_more, same_pace in *. by rewrite E.
  - split; [|simpl; apply rtc_refl]. split; simpl; try done; [destruct Hl; by split|destruct Hg; by split].
Qed.

Lemma control_run_ok ceiling k k' :
  rtc control_step k k' -> control_ok ceiling k ->
  control_ok ceiling k' /\
  rtc (RateLimiter.step (RateLimiter.at_most ceiling)) (dispatch k) (dispatch k').
Proof.
  induction 1 as [k|k k1 k2 H1 _ IH]; intros Hk; [split; [done|apply rtc_refl]|].
  destruct (control_step_ok ceiling k k1 H1 Hk) as [Hk1 Hr1]. destruct (IH Hk1) as [Hk2 Hr2].
  split; [done|]. by eapply rtc_trans.
Qed.

(** ** Properties *)

(** Adaptive control refines capped dispatch.  Every run of the dispatch limiter
    under the controller, interleaved with traffic in any way, is a run of the limiter
    whose rate changes all stay at or below the configured ceiling, so the bounds
    proved of those runs hold of the adaptive client. *)
Theorem adaptive_run_is_capped ceiling k0 k :
  f64_fin ceiling -> 0 < units ceiling -> control_initial ceiling k0 -> rtc control_step k0 k ->
  RateLimiter.initial (RateLimiter.at_most ceiling) (dispatch k0) /\
  rtc (RateLimiter.step (RateLimiter.at_most ceiling)) (dispatch k0) (dispatch k) /\
  RateLimiter.limiter (dispatch k) = global (controller k).
Proof.
  intros Hf Hpos Hi Hrun. pose proof (control_initial_ok ceiling k0 Hf Hpos Hi) as H0.
  destruct (control_run_ok ceiling k0 k Hrun H0) as [Hk Hr]. split; [|split; [done|apply Hk]].
  destruct Hi as (Hn & Hc & Hg & _). exists ceiling. split; [by split|done].
Qed.

(** C12: control never panics and never stalls a scan.  In every reachable state the
    next tick returns, whatever the counters and clocks read; every resolver is paced
    at one query a second or more, and a standing global limit lies between one query
    a second (or a lower ceiling) and the ceiling. *)
Theorem control_never_stalls ceiling k0 k outcomes elapsed now :
  f64_fin ceiling -> 0 < units ceiling -> control_initial ceiling k0 -> rtc control_step k0 k ->
  is_duration elapsed ->
  is_Some (tick (pool k) outcomes elapsed now (controller k)) /\
  Forall (fun r => 1 <= RateLimiter.interval_ns (ResolverHealth.limiter r) <= NANOS_PER_SEC) (pool k) /\
  (forall l, global_limit (controller k) = Some l ->
     f64_fin l /\ Z.min one_unit (units ceiling) <= units l <= units ceiling).
Proof.
  intros Hf Hpos Hi Hrun Hel. pose proof (control_initial_ok ceiling k0 Hf Hpos Hi) as H0.
  destruct (control_run_ok ceiling k0 k Hrun H0) as [[Hl Hg Hc Hp _] _].
  destruct (tick_ok (pool k) outcomes elapsed now _ Hl Hg Hp Hel) as (c' & rs' & -> & _).
  split; [eauto|split; [exact Hp|]]. rewrite <- Hc. apply (go_limit _ Hg).
Qed.

(** C23: undoing a retreat is exact.  When a window after a retreat is taken as the
    resolver's baseline, whatever happened to its neighbours in between, the resolver
    gets back the edge it had and its interval to the nanosecond, although the rate
    went through two floating-point divisions. *)
Theorem undo_is_exact i now converging dispatched ws (r r1 r2 r3 : ResolverHealth.t A S)
    (c c1 c2 c3 : t S) :
  resolver_ok r -> retreat i now converging dispatched ws r c = Some (c1, r1) ->
  stepped c1 !! i = Some true ->
  undo c2 !! i = undo c1 !! i -> stepped c2 !! i = stepped c1 !! i ->
  undo_retreat i r2 c2 = Some (c3, r3) ->
  edges c3 !! i = edges c !! i /\
  RateLimiter.interval_ns (ResolverHealth.limiter r3) = RateLimiter.interval_ns (ResolverHealth.limiter r) /\
  stepped c3 !! i = Some false.
Proof.
  intros Hr Hret Hst Eu Es Hundo. unfold retreat in Hret.
  apply bind_Some in Hret as (b & _ & Hret). apply bind_Some in Hret as (slot & Eslot & Hret).
  cbv zeta in Hret. set (steps := f64_lt _ _) in Hret. clearbody steps.
  apply bind_Some in Hret as (st' & E1 & Hret). apply bind_Some in Hret as (un' & E2 & Hret).
  apply bind_Some in Hret as (ed' & _ & Hret). apply bind_Some in Hret as (r' & _ & [= <- <-]).
  apply store_lookup in E1. simpl in Hst, Es, Eu. rewrite E1 in Hst, Es. injection Hst as ->.
  apply store_lookup in E2. rewrite E2 in Eu.
  unfold undo_retreat in Hundo. rewrite Es in Hundo. simpl in Hundo.
  apply bind_Some in Hundo as (st2 & F1 & Hundo). simpl in Hundo. rewrite Eu in Hundo. simpl in Hundo.
  apply bind_Some in Hundo as (un2 & _ & Hundo). simpl in Hundo.
  apply bind_Some in Hundo as (ed2 & F3 & Hundo). apply bind_Some in Hundo as (r2' & F4 & [= <- <-]).
  apply store_lookup in F1, F3. simpl. rewrite Eslot. split; [exact F3|]. split; [|exact F1].
  unfold ResolverHealth.set_rate, RateLimiter.set_rate, ResolverHealth.rate in F4.
  rewrite (rate_roundtrip _ Hr) in F4. simpl in F4. by injection F4 as <-.
Qed.

(** Easing back up.  A resolver whose edge is thirty seconds old is unpaced and
    forgets the edge; before that it never slows down, and never goes faster than the
    faster of its present pace and the retreat target. *)
Theorem relax_bounds i now (r r' : ResolverHealth.t A S) (c c' : t S) e it :
  resolver_ok r -> f64_nonneg (qps e) -> edges c !! i = Some (Some e) ->
  relax i now r c = Some (c', r') -> RateLimiter.interval_for (target_below (qps e)) = Some it ->
  let before := RateLimiter.interval_ns (ResolverHealth.limiter r) in
  let after := RateLimiter.interval_ns (ResolverHealth.limiter r') in
  if EDGE_TTL <=? duration_since now (seen_at e)
  then edges c' !! i = Some None /\ after = 1
  else c' = c /\ Z.min before it <= after <= before.
Proof.
  intros Hr He Es Hrelax Hit. pose proof (target_ok (qps e) He) as [Htn Ht1].
  unfold relax in Hrelax. rewrite Es in Hrelax. monad_in Hrelax. cbv beta iota zeta in Hrelax.
  set (target := target_below (qps e)) in *. clearbody target. cbv zeta.
  destruct (EDGE_TTL <=? _).
  - apply bind_Some in Hrelax as (ed' & E1 & Hrelax). apply bind_Some in Hrelax as (j & _ & Hrelax).
    apply bind_Some in Hrelax as (ju' & _ & Hrelax). apply bind_Some in Hrelax as (r2 & E2 & [= <- <-]).
    apply store_lookup in E1. split; [exact E1|]. unfold ResolverHealth.set_rate, RateLimiter.set_rate in E2.
    assert (RateLimiter.interval_for UNLIMITED_QPS = Some 1) as Ei by (vm_compute; reflexivity).
    rewrite Ei in E2. monad_in E2. by injection E2 as <-.
  - destruct (resolver_rate_ok r Hr) as [Hf Hone]. pose proof (rate_roundtrip _ Hr) as Hback.
    unfold ResolverHealth.rate in *. set (q := RateLimiter.rate (ResolverHealth.limiter r)) in *.
    clearbody q. rewrite f64_lt_units in Hrelax by (exact (proj1 Hf) || exact Htn).
    destruct (Z.ltb_spec (units q) (units target)) as [Hlt|Hge].
    2:{ injection Hrelax as <- <-. split; [done|]. split; [apply Z.le_min_l|lia]. }
    apply bind_Some in Hrelax as (r2 & E2 & [= <- <-]). split; [done|].
    destruct growth_factor as [Hgf Hg1].
    pose proof (f64_mul_nonneg q GROWTH Hf Hgf) as Hgn. pose proof (f64_mul_ge_l q GROWTH Hf Hgf Hg1) as Hge.
    set (grown := (q * GROWTH)%f64) in *. clearbody grown.
    destruct (f64_min_units grown target Hgn Htn) as [Hmn Hmu].
    set (q' := f64_min grown target) in *. clearbody q'.
    unfold ResolverHealth.set_rate, RateLimiter.set_rate in E2.
    destruct (RateLimiter.interval_for q') as [i'|] eqn:Ei; [|done]. monad_in E2. injection E2 as <-. simpl.
    split; [|eapply (interval_for_antitone q q'); [exact Hf|exact Hmn|lia|exact Hback|exact Ei]].
    etransitivity; [apply Z.le_min_r|]. eapply (interval_for_antitone_l q' target); [done..|lia|done|done].
Qed.

End ControlSystem.

(** ** Witnesses and examples *)

Section ControllerExamples.
Import AdaptiveController.

Definition hundred : f64 := f64_of_Z 100.
Definition demo_limiter : RateLimiter.t := RateLimiter.mk 10000000 0 0.
Definition demo_resolver : ResolverHealth.t nat ref_sem := demo.

(** The same resolver after a second of traffic: 200 queries, 80 of them lost. *)
Definition lossy_resolver : ResolverHealth.t nat ref_sem :=
  demo_resolver <| ResolverHealth.attempted := 200 |> <| ResolverHealth.answered := 120 |>
    <| ResolverHealth.timeout := 80 |>.

Definition start_control : control :=
  mk_control (RateLimiter.mk_sys demo_limiter 0 [] []) (new 1 demo_limiter AttemptPacer.new hundred)
    [demo_resolver].
Definition busy_control : control :=
  mk_control (dispatch start_control) (controller start_control) [lossy_resolver].

Definition one_second : Z := from_secs 1.
Definition ticked : t ref_sem * list (ResolverHealth.t nat ref_sem) :=
  from_option id (controller start_control, [])
    (tick (pool busy_control) (mk_outcomes 100 0) one_second one_second (controller busy_control)).
Definition ticked_control : control :=
  mk_control ((dispatch busy_control) <| RateLimiter.limiter := global ticked.1 |>) ticked.1 ticked.2.

Lemma hundred_ceiling : f64_fin hundred /\ 0 < units hundred.
Proof. split; [f64_const|vm_compute; reflexivity]. Qed.

Lemma start_control_initial : control_initial hundred start_control.
Proof.
  split; [vm_compute; reflexivity|split; [done|split; [done|split]]].
  - exists AttemptPacer.new. reflexivity.
  - by repeat constructor.
Qed.

Lemma demo_run : rtc control_step start_control ticked_control.
Proof.
  apply (rtc_l _ _ busy_control).
  - apply (control_traffic start_control [lossy_resolver]). by repeat constructor.
  - apply rtc_once. apply (control_tick busy_control (mk_outcomes 100 0) one_second one_second).
    + vm_compute. split; [discriminate|reflexivity].
    + vm_compute. reflexivity.
Qed.

(** Forty percent loss at 200 a second: the resolver is paced at 170. *)
Example first_retreat :
  (fun r => f64_round (ResolverHealth.rate r)) <$> ticked.2 = [f64_of_Z 170] /\
  stepped ticked.1 = [true].
Proof. vm_compute. auto. Qed.

Lemma adaptive_run_is_capped_witness :
  RateLimiter.initial (RateLimiter.at_most hundred) (dispatch start_control) /\
  rtc (RateLimiter.step (RateLimiter.at_most hundred)) (dispatch start_control) (dispatch ticked_control) /\
  RateLimiter.limiter (dispatch ticked_control) = global (controller ticked_control).
Proof.
  apply (adaptive_run_is_capped hundred start_control ticked_control).
  - exact (proj1 hundred_ceiling).
  - exact (proj2 hundred_ceiling).
  - exact start_control_initial.
  - exact demo_run.
Defined.

Lemma control_never_stalls_witness :
  is_Some (tick (pool ticked_control) (mk_outcomes 300 30) one_second (from_secs 2) (controller ticked_control)) /\
  Forall (fun r => 1 <= RateLimiter.interval_ns (ResolverHealth.limiter r) <= NANOS_PER_SEC)
    (pool ticked_control) /\
  (forall l, global_limit (controller ticked_control) = Some l ->
     f64_fin l /\ Z.min one_unit (units hundred) <= units l <= units hundred).
Proof.
  apply (control_never_stalls hundred start_control ticked_control).
  - exact (proj1 hundred_ceiling).
  - exact (proj2 hundred_ceiling).
  - exact start_control_initial.
  - exact demo_run.
  - vm_compute. split; [discriminate|reflexivity].
Defined.

Definition paced_resolver : ResolverHealth.t nat ref_sem :=
  demo_resolver <| ResolverHealth.limiter := RateLimiter.mk 3333333 0 0 |>.
Definition retreated : t ref_sem * ResolverHealth.t nat ref_sem :=
  from_option id (controller start_control, demo_resolver)
    (retreat 0 one_second false 200 (f64_of_Z 1) paced_resolver (controller start_control)).
Definition undone : t ref_sem * ResolverHealth.t nat ref_sem :=
  from_option id (controller start_control, demo_resolver) (undo_retreat 0 retreated.2 retreated.1).

Lemma undo_is_exact_witness :
  edges undone.1 !! 0%nat = edges (controller start_control) !! 0%nat /\
  RateLimiter.interval_ns (ResolverHealth.limiter undone.2) = 3333333 /\
  stepped undone.1 !! 0%nat = Some false.
Proof.
  apply (undo_is_exact 0 one_second false 200 (f64_of_Z 1) paced_resolver retreated.2 retreated.2 undone.2
           (controller start_control) retreated.1 retreated.1 undone.1).
  - vm_compute. split; discriminate.
  - vm_compute. reflexivity.
  - vm_compute. reflexivity.
  - reflexivity.
  - reflexivity.
  - vm_compute. reflexivity.
Defined.

Definition edged : t ref_sem :=
  (controller start_control) <| edges := [Some (mk_edge hundred 0)] |>.
Definition slow_resolver : ResolverHealth.t nat ref_sem :=
  demo_resolver <| ResolverHealth.limiter := RateLimiter.mk 20000000 0 0 |>.
Definition eased : t ref_sem * ResolverHealth.t nat ref_sem :=
  from_option id (edged, demo_resolver) (relax 0 one_second slow_resolver edged).

Lemma relax_bounds_witness :
  let before := RateLimiter.interval_ns (ResolverHealth.limiter slow_resolver) in
  let after := RateLimiter.interval_ns (ResolverHealth.limiter eased.2) in
  if EDGE_TTL <=? duration_since one_second 0
  then edges eased.1 !! 0%nat = Some None /\ after = 1
  else eased.1 = edged /\ Z.min before 11764706 <= after <= before.
Proof.
  apply (relax_bounds 0 one_second slow_resolver eased.2 edged eased.1 (mk_edge hundred 0) 11764706).
  - vm_compute. split; discriminate.
  - exact (proj1 (proj1 hundred_ceiling)).
  - reflexivity.
  - vm_compute. reflexivity.
  - vm_compute. reflexivity.
Defined.

End ControllerExamples.
