(* ===== verification/Pool.v ===== *)
(** * Selecting a resolver: [ResolverPool] of [health.rs]

    [reserve] is modelled one atomic action at a time ([reserve_step]); [step]
    interleaves any number of tasks with the clock, finishing and cancelled queries,
    and everything else that happens to a resolver.  Permits are the semaphore
    interface's, so waiting tasks queue fairly and are woken by a released permit. *)

From S2P Require Import Prelude Float64 Extern Limiter Config Health.

Module ResolverPool.
Section ResolverPool.
Context {A S : Type} `{SemaphoreOps S}.
Abbreviation resolver := (ResolverHealth.t A S).

Record t := mk { resolvers : list resolver; cursor : Z; start : Z }.
#[global] Instance t_settable : Settable t := fun p => mk (resolvers p) (cursor p) (start p).

Definition new (addrs : list A) (config : BlastDNSConfig) (now : Z) : option t :=
  rs ← mapM (fun addr => ResolverHealth.new addr config now now) addrs; Some (mk rs 0 now).

(** [probe]: every resolver is probed, [alive k] telling whether the [k]-th answered;
    how many did. *)
Definition probe (alive : nat -> bool) (p : t) : t * Z :=
  (p <| resolvers := imap (fun k r => ResolverHealth.probe (alive k) r) (resolvers p) |>,
   Z.of_nat (length (filter (fun k => alive k = true) (seq 0 (length (resolvers p)))))).

Definition stats (p : t) : list (ResolverStats A) := ResolverHealth.stats <$> resolvers p.

(** Where a task stands inside [reserve], with the local variables of the loop.
    [Recheck k] and the states after it hold a permit of resolver [k]. *)
Inductive pc :=
| Enter
| Visit (offset : Z) (i : nat) (active benched : Z) (waitable : option nat)
| CheckBench (offset : Z) (i : nat) (active benched : Z) (waitable : option nat)
| TryAcquire (offset : Z) (i : nat) (active benched : Z) (waitable : option nat)
| Decide (active benched : Z) (waitable : option nat)
| Queued (k : nat)
| Recheck (k : nat)
| RecheckBench (k : nat)
| Asleep (until : Z)
| Reserved (k : nat)
| NoneActive
| Idle.

#[global] Instance pc_eq_dec : EqDecision pc.
Proof. solve_decision. Defined.

(** [(offset + i) % len]. *)
Definition slot (offset : Z) (i len : nat) : nat :=
  Z.to_nat (u64_add offset (Z.of_nat i) mod Z.of_nat len).

(** The first sentence to lapse among the active resolvers, or [now]. *)
Definition soonest (now : Z) (rs : list resolver) : Z :=
  match ResolverHealth.benched_until_ns <$> filter (fun r => ResolverHealth.is_active r = true) rs with
  | [] => now
  | b :: bs => fold_left Z.min bs b
  end.

(** Nanoseconds to sleep until then; zero only yields. *)
Definition sleep_until_first_eligible (now : Z) (p : t) : Z :=
  let now_ns := elapsed_ns (start p) now in
  u64_saturating_sub (soonest now_ns (resolvers p)) now_ns.

Definition update (k : nat) (r : resolver) (p : t) : t := p <| resolvers := <[k := r]> (resolvers p) |>.

(** One atomic action of task [w].  A task that gives up its permit is in [Recheck]
    or [RecheckBench] before and in [Enter] after. *)
Definition reserve_step (w : nat) (now : Z) (p : t) (s : pc) : t * pc :=
  let len := length (resolvers p) in
  match s with
  | Enter =>
      match resolvers p with
      | [] => (p, NoneActive)
      | _ => (p <| cursor := fetch_add (cursor p) 1 |>, Visit (cursor p) 0 0 0 None)
      end
  | Visit offset i active benched waitable =>
      if (i <? len)%nat then
        match resolvers p !! slot offset i len with
        | Some r =>
            (p, if ResolverHealth.is_active r
                then CheckBench offset i (active + 1) benched waitable
                else Visit offset (Datatypes.S i) active benched waitable)
        | None => (p, s)
        end
      else (p, Decide active benched waitable)
  | CheckBench offset i active benched waitable =>
      match resolvers p !! slot offset i len with
      | Some r =>
          (p, if ResolverHealth.is_benched now r
              then Visit offset (Datatypes.S i) active (benched + 1) waitable
              else TryAcquire offset i active benched waitable)
      | None => (p, s)
      end
  | TryAcquire offset i active benched waitable =>
      let k := slot offset i len in
      match resolvers p !! k with
      | Some r =>
          match ResolverHealth.try_acquire r with
          | Some r' => (update k r' p, Reserved k)
          | None =>
              (p, Visit offset (Datatypes.S i) active benched
                    (match waitable with None => Some k | Some _ => waitable end))
          end
      | None => (p, s)
      end
  | Decide active benched waitable =>
      if active =? 0 then (p, NoneActive)
      else if benched =? active then
        let wait := sleep_until_first_eligible now p in
        (p, if 0 <? wait then Asleep (now + wait) else Enter)
      else
        match waitable with
        | Some k =>
            match resolvers p !! k with
            | Some r =>
                let '(sem, granted) := sem_acquire w (ResolverHealth.inflight r) in
                (update k (r <| ResolverHealth.inflight := sem |>) p,
                 if granted then Recheck k else Queued k)
            | None => (p, s)
            end
        | None => (p, Enter)
        end
  | Recheck k =>
      match resolvers p !! k with
      | Some r => (p, if ResolverHealth.is_active r then RecheckBench k else Enter)
      | None => (p, s)
      end
  | RecheckBench k =>
      match resolvers p !! k with
      | Some r => (p, if ResolverHealth.is_benched now r then Enter else Reserved k)
      | None => (p, s)
      end
  | Asleep until => (p, if until <=? now then Enter else s)
  | Queued _ | Reserved _ | NoneActive | Idle => (p, s)
  end.

(** The resolver whose permit a task holds. *)
Definition held (s : pc) : option nat :=
  match s with Recheck k | RecheckBench k | Reserved k => Some k | _ => None end.

(** ** Tasks *)

Record sys := mk_sys { pool : t; clock : Z; tasks : list pc }.
#[global] Instance sys_settable : Settable sys := fun s => mk_sys (pool s) (clock s) (tasks s).

Definition wake (k : nat) (ws : list nat) (ts : list pc) : list pc :=
  fold_left (fun ts w => <[w := Recheck k]> ts) ws ts.

(** Dropping a permit of resolver [k]: the semaphore may hand it to a waiting task. *)
Definition release (k : nat) (s : sys) : sys :=
  match resolvers (pool s) !! k with
  | Some r =>
      let '(sem, woken) := sem_add_permits 1 (ResolverHealth.inflight r) in
      s <| pool := update k (r <| ResolverHealth.inflight := sem |>) (pool s) |>
        <| tasks := wake k woken (tasks s) |>
  | None => s
  end.

(** Task [w] goes from [a] to [b], dropping the permit it held if it no longer does. *)
Definition move (w : nat) (a b : pc) (s : sys) : sys :=
  let s := s <| tasks := <[w := b]> (tasks s) |> in
  match held a, held b with
  | Some k, None => release k s
  | _, _ => s
  end.

Definition run_task (w : nat) (a : pc) (s : sys) : sys :=
  let '(p, b) := reserve_step w (clock s) (pool s) a in move w a b (s <| pool := p |>).

(** Cancelling a queued acquisition takes it out of the queue. *)
Definition cancel (w : nat) (a : pc) (s : sys) : sys :=
  let s := match a with
           | Queued k =>
               match resolvers (pool s) !! k with
               | Some r => s <| pool := update k (r <| ResolverHealth.inflight :=
                                  sem_cancel w (ResolverHealth.inflight r) |>) (pool s) |>
               | None => s
               end
           | _ => s
           end in
  move w a Idle s.

Inductive step : sys -> sys -> Prop :=
| step_clock s d : 0 <= d -> step s (s <| clock := clock s + d |>)
| step_spawn s : step s (s <| tasks := tasks s ++ [Idle] |>)
| step_call s w : tasks s !! w = Some Idle -> step s (move w Idle Enter s)
| step_run s w a : tasks s !! w = Some a -> step s (run_task w a s)
| step_cancel s w a : tasks s !! w = Some a -> step s (cancel w a s)
| step_health s k r r' :
    resolvers (pool s) !! k = Some r -> ResolverHealth.inflight r' = ResolverHealth.inflight r ->
    step s (s <| pool := update k r' (pool s) |>).

Definition initial (addrs : list A) (config : BlastDNSConfig) (s : sys) : Prop :=
  new addrs config (clock s) = Some (pool s) /\ tasks s = [].

(** Tasks holding a permit of [k], and those sending a query to it. *)
Definition holders (k : nat) (s : sys) : Z :=
  Z.of_nat (length (filter (fun a => held a = Some k) (tasks s))).
Definition in_flight (k : nat) (s : sys) : Z :=
  Z.of_nat (length (filter (fun a => a = Reserved k) (tasks s))).

(** A task on its own: [n] atomic actions at one instant. *)
Fixpoint run_alone (n : nat) (w : nat) (now : Z) (p : t) (a : pc) : t * pc :=
  match n with
  | O => (p, a)
  | Datatypes.S n => let '(p', a') := reserve_step w now p a in run_alone n w now p' a'
  end.

End ResolverPool.
Arguments t A S : clear implicits.
Arguments sys A S : clear implicits.
End ResolverPool.

(** ** Permits are conserved: lemmas *)

Section PoolProofs.
Import ResolverPool.
Context {A S : Type} `{HO : SemaphoreOps S} `{!Semaphore S}.
Implicit Types (s : sys A S) (p : t A S) (r : ResolverHealth.t A S).

Definition queued (a : pc) : option nat := match a with Queued k => Some k | _ => None end.

(** Every resolver has [cap] permits: free ones, held ones, and [debt] on their way
    back; and its queue is exactly the tasks waiting on it. *)
Record permits_ok (cap : Z) (debt : nat -> Z) s : Prop := {
  po_resolver : forall k r, resolvers (pool s) !! k = Some r ->
    sem_ok (ResolverHealth.inflight r) /\
    sem_available (ResolverHealth.inflight r) + holders k s + debt k = cap /\
    NoDup (sem_waiters (ResolverHealth.inflight r)) /\
    (forall w, w ∈ sem_waiters (ResolverHealth.inflight r) <-> tasks s !! w = Some (Queued k));
}.
Definition no_debt : nat -> Z := fun _ => 0.
Definition owed (k : nat) : nat -> Z := fun k' => if decide (k' = k) then 1 else 0.

Lemma holders_insert k w a b s :
  tasks s !! w = Some a ->
  holders k (s <| tasks := <[w := b]> (tasks s) |>) =
  holders k s - (if decide (held a = Some k) then 1 else 0) + (if decide (held b = Some k) then 1 else 0).
Proof.
  intros Hw. unfold holders. simpl.
  pose proof (count_insert (fun a => held a = Some k) (tasks s) w a b Hw) as Hc.
  destruct (decide (held a = Some k)), (decide (held b = Some k)); lia.
Qed.

Lemma lookup_insert_queue w a b k s :
  tasks s !! w = Some a -> queued a = queued b -> forall w',
  <[w := b]> (tasks s) !! w' = Some (Queued k) <-> tasks s !! w' = Some (Queued k).
Proof.
  intros Hw Hq w'. destruct (decide (w' = w)) as [->|Hne].
  - rewrite list_lookup_insert_eq by (by eapply lookup_lt_Some). rewrite Hw.
    split; intros [= ->]; simpl in Hq; [by destruct a; simplify_eq/=|by destruct b; simplify_eq/=].
  - by rewrite list_lookup_insert_ne.
Qed.

(** A task moves without touching any permit or queue, or gives its permit up. *)
Lemma set_task_ok cap w a b s :
  permits_ok cap no_debt s -> tasks s !! w = Some a -> queued a = queued b ->
  held b = held a \/ held b = None ->
  permits_ok cap (match held a, held b with Some k, None => owed k | _, _ => no_debt end)
    (s <| tasks := <[w := b]> (tasks s) |>).
Proof.
  intros [Hp] Hw Hq Hh. split. intros k r Hk. simpl in Hk. destruct (Hp k r Hk) as (H1 & H2 & H3 & H4).
  split; [done|]. split; [|split; [done|]].
  - rewrite (holders_insert k w a b s Hw). unfold no_debt, owed in *.
    destruct Hh as [Eh|Eh]; rewrite Eh; destruct (held a) as [k'|]; repeat case_decide; simplify_eq; lia.
  - intros w'. rewrite H4. symmetry. by apply (lookup_insert_queue w a).
Qed.

Lemma wake_lookup k ws : forall (ts : list pc) w,
  (forall v, v ∈ ws -> (v < length ts)%nat) ->
  wake k ws ts !! w = if decide (w ∈ ws) then Some (Recheck k) else ts !! w.
Proof.
  unfold wake. induction ws as [|v ws IH]; intros ts w Hlt; cbn [fold_left].
  { rewrite decide_False; [done|by intros ?%elem_of_nil]. }
  rewrite IH by (intros u Hu; rewrite length_insert; apply Hlt; by right).
  assert (v < length ts)%nat as Hv by (apply Hlt; by left).
  destruct (decide (w ∈ ws)) as [Hw|Hw]; [by rewrite decide_True by (by right)|].
  destruct (decide (w = v)) as [->|Hne].
  - rewrite decide_True by (by left). by apply list_lookup_insert_eq.
  - rewrite decide_False; [by apply list_lookup_insert_ne|]. rewrite elem_of_cons. tauto.
Qed.

Lemma wake_count k k' ws : forall ts : list pc,
  NoDup ws -> (forall v, v ∈ ws -> ts !! v = Some (Queued k)) ->
  length (filter (fun a => held a = Some k') (wake k ws ts)) =
  (length (filter (fun a => held a = Some k') ts) + (if decide (k = k') then length ws else 0))%nat.
Proof.
  unfold wake. induction ws as [|v ws IH]; intros ts Hnd Hq; simpl; [case_decide; lia|].
  apply NoDup_cons in Hnd as [Hv Hnd]. rewrite IH; [|done|].
  - pose proof (count_insert (fun a => held a = Some k') ts v _ (Recheck k) (Hq v ltac:(by left))) as Hc.
    simpl in Hc. repeat case_decide; simplify_eq/=; lia.
  - intros u Hu. rewrite list_lookup_insert_ne by (by intros ->). apply Hq. by right.
Qed.

Lemma lookup_update k r p k' r' :
  resolvers (update k r p) !! k' = Some r' ->
  (k' = k /\ r' = r /\ is_Some (resolvers p !! k)) \/ (k' <> k /\ resolvers p !! k' = Some r').
Proof.
  unfold update. simpl. intros H1. destruct (decide (k' = k)) as [->|]; [left|right].
  - assert (k < length (resolvers p))%nat as Hk
      by (rewrite <- (length_insert _ k r); by eapply lookup_lt_Some).
    rewrite list_lookup_insert_eq in H1 by done. split_and!; [done|congruence|by apply lookup_lt_is_Some_2].
  - by rewrite list_lookup_insert_ne in H1.
Qed.

(** Releasing a permit pays the debt, to a waiting task or to the semaphore. *)
Lemma release_ok cap k s :
  permits_ok cap (owed k) s -> permits_ok cap no_debt (release k s).
Proof.
  intros [Hp]. unfold release. destruct (resolvers (pool s) !! k) as [r|] eqn:Hr.
  2:{ split. intros k' r' Hk'. destruct (Hp k' r' Hk') as (K1 & K2 & K3).
      unfold owed in K2. rewrite decide_False in K2 by congruence. done. }
  destruct (Hp k r Hr) as (Hok & Hav & Hnd & Hq).
  pose proof (sem_add_permits_spec 1 _ Hok ltac:(lia)) as Hadd.
  destruct (sem_add_permits 1 (ResolverHealth.inflight r)) as [sem woken]. destruct Hadd as (Hok' & Hw & Hlen).
  assert (NoDup (woken ++ sem_waiters sem)) as Hnd' by (by rewrite Hw).
  apply NoDup_app in Hnd' as (Hnw & Hdisj & Hns).
  assert (forall v, v ∈ woken -> tasks s !! v = Some (Queued k)) as Hwq.
  { intros v Hv. apply Hq. rewrite <- Hw. apply elem_of_app. by left. }
  assert (forall v, v ∈ woken -> (v < length (tasks s))%nat) as Hlt
    by (intros v Hv; eapply lookup_lt_Some; by apply Hwq).
  split. intros k' r' Hk'. simpl in Hk'. unfold holders. simpl.
  rewrite (wake_count k k' woken (tasks s) Hnw Hwq). unfold no_debt, owed, holders in *.
  apply lookup_update in Hk' as [(-> & -> & _)|(Hne & Hk')].
  - split; [done|]. split; [repeat case_decide; try done; simpl; lia|]. split; [done|].
    intros w. rewrite wake_lookup by done. destruct (decide (w ∈ woken)) as [Hin|Hnot].
    + split; [|done]. intros Hin'. by destruct (Hdisj w Hin).
    + rewrite <- Hq, <- Hw, elem_of_app. tauto.
  - destruct (Hp k' r' Hk') as (K1 & K2 & K3 & K4).
    split; [done|]. split; [repeat case_decide; try congruence; lia|]. split; [done|].
    intros w. rewrite wake_lookup by done. rewrite K4. destruct (decide (w ∈ woken)) as [Hin|Hnot]; [|done].
    rewrite (Hwq w Hin). split; congruence.
Qed.

Lemma move_ok cap w a b s :
  permits_ok cap no_debt s -> tasks s !! w = Some a -> queued a = queued b ->
  held b = held a \/ held b = None -> permits_ok cap no_debt (move w a b s).
Proof.
  intros Hp Hw Hq Hh. pose proof (set_task_ok cap w a b s Hp Hw Hq Hh) as Hs. unfold move.
  destruct (held a) as [k|]; [|done]. destruct (held b); [done|]. by apply release_ok.
Qed.

(** Pools with the same resolvers hold the same permits. *)
Lemma permits_same_resolvers cap debt p' s :
  resolvers p' = resolvers (pool s) -> permits_ok cap debt s -> permits_ok cap debt (s <| pool := p' |>).
Proof. intros E [Hp]. split. simpl. rewrite E. exact Hp. Qed.

(** A task that holds nothing takes a free permit. *)
Lemma take_permit_ok cap w a b k r sem s :
  permits_ok cap no_debt s -> tasks s !! w = Some a -> held a = None -> queued a = None ->
  held b = Some k -> resolvers (pool s) !! k = Some r ->
  sem_ok sem -> sem_available sem = sem_available (ResolverHealth.inflight r) - 1 ->
  sem_waiters sem = sem_waiters (ResolverHealth.inflight r) ->
  permits_ok cap no_debt ((s <| pool := update k (r <| ResolverHealth.inflight := sem |>) (pool s) |>)
    <| tasks := <[w := b]> (tasks s) |>).
Proof.
  intros [Hp] Hw Ha Hqa Hb Hr Hok Hav Hwt. split. intros k' r' Hk'.
  assert (queued b = None) as Hqb by (by destruct b). assert (queued a = queued b) as Hq by congruence.
  assert (holders k' (s <| tasks := <[w := b]> (tasks s) |>) =
          holders k' s + (if decide (k = k') then 1 else 0)) as Hh.
  { rewrite (holders_insert k' w a b s Hw), Ha, Hb. repeat case_decide; simplify_eq; lia. }
  unfold holders in *. simpl in Hh, Hk' |- *. unfold no_debt in *.
  apply lookup_update in Hk' as [(-> & -> & _)|(Hne & Hk')].
  - destruct (Hp k r Hr) as (K1 & K2 & K3 & K4). simpl.
    rewrite decide_True in Hh by done.
    split; [done|]. split; [lia|]. rewrite Hwt. split; [done|].
    intros w'. rewrite K4. symmetry. by apply (lookup_insert_queue w a b k s).
  - destruct (Hp k' r' Hk') as (K1 & K2 & K3 & K4).
    rewrite decide_False in Hh by congruence. split; [done|]. split; [lia|]. split; [done|].
    intros w'. rewrite K4. symmetry. by apply (lookup_insert_queue w a b k' s).
Qed.

(** A task that finds no free permit joins the queue. *)
Lemma join_queue_ok cap w a k r sem s :
  permits_ok cap no_debt s -> tasks s !! w = Some a -> held a = None -> queued a = None ->
  resolvers (pool s) !! k = Some r ->
  sem_ok sem -> sem_available sem = sem_available (ResolverHealth.inflight r) ->
  sem_waiters sem = sem_waiters (ResolverHealth.inflight r) ++ [w] ->
  permits_ok cap no_debt ((s <| pool := update k (r <| ResolverHealth.inflight := sem |>) (pool s) |>)
    <| tasks := <[w := Queued k]> (tasks s) |>).
Proof.
  intros [Hp] Hw Ha Hqa Hr Hok Hav Hwt. split. intros k' r' Hk'.
  assert (holders k' (s <| tasks := <[w := Queued k]> (tasks s) |>) = holders k' s) as Hh.
  { rewrite (holders_insert k' w a (Queued k) s Hw), Ha. cbn [held].
    repeat case_decide; simplify_eq; lia. }
  unfold holders in *. simpl in Hh, Hk' |- *. unfold no_debt in *.
  assert (forall w', w' <> w -> <[w := Queued k]> (tasks s) !! w' = tasks s !! w') as Hother
    by (intros w' Hne; by apply list_lookup_insert_ne).
  assert (<[w := Queued k]> (tasks s) !! w = Some (Queued k)) as Hself
    by (apply list_lookup_insert_eq; by eapply lookup_lt_Some).
  apply lookup_update in Hk' as [(-> & -> & _)|(Hne & Hk')].
  - destruct (Hp k r Hr) as (K1 & K2 & K3 & K4). simpl. rewrite Hwt, Hav.
    assert (w ∉ sem_waiters (ResolverHealth.inflight r)) as Hnot.
    { rewrite K4, Hw. intros [= ->]. done. }
    split; [done|]. split; [lia|]. split.
    + apply NoDup_app. split; [done|]. split; [|apply NoDup_singleton].
      intros x Hx Hx'. apply list_elem_of_singleton in Hx' as ->. done.
    + intros w'. rewrite elem_of_app, list_elem_of_singleton.
      destruct (decide (w' = w)) as [->|Hn]; [rewrite Hself; tauto|]. rewrite Hother, K4 by done. tauto.
  - destruct (Hp k' r' Hk') as (K1 & K2 & K3 & K4). split; [done|]. split; [lia|]. split; [done|].
    intros w'. destruct (decide (w' = w)) as [->|Hn]; [|by rewrite Hother].
    rewrite Hself, K4, Hw. split; intros [= ?]; [subst a; simpl in Hqa; done|congruence].
Qed.

Lemma update_nop k r p : resolvers p !! k = Some r -> resolvers (update k r p) = resolvers p.
Proof. intros Hr. by apply list_insert_id. Qed.

Lemma run_task_ok cap w a s :
  permits_ok cap no_debt s -> tasks s !! w = Some a -> permits_ok cap no_debt (run_task w a s).
Proof.
  intros Hp Hw. unfold run_task.
  assert (forall b, queued a = queued b -> held b = held a \/ held b = None -> forall p',
            resolvers p' = resolvers (pool s) ->
            permits_ok cap no_debt (move w a b (s <| pool := p' |>))) as Hmove.
  { intros b Hq Hh p' Hres. apply move_ok; [by apply permits_same_resolvers|done..]. }
  destruct a as [|o i ac be wa|o i ac be wa|o i ac be wa|ac be wa|k|k|k|u|k| |]; cbn [reserve_step];
    try (apply Hmove; auto; fail).
  - destruct (resolvers (pool s)) eqn:E; apply Hmove; simpl; auto.
  - destruct (_ <? _)%nat; [|apply Hmove; auto]. destruct (resolvers (pool s) !! _); [|apply Hmove; auto].
    destruct (ResolverHealth.is_active _); apply Hmove; auto.
  - destruct (resolvers (pool s) !! _); [|apply Hmove; auto]. destruct (ResolverHealth.is_benched _ _); apply Hmove; auto.
  - set (k := slot _ _ _). destruct (resolvers (pool s) !! k) as [r|] eqn:Hr; [|apply Hmove; auto].
    unfold ResolverHealth.try_acquire. destruct (po_resolver _ _ _ Hp k r Hr) as (Hok & _).
    pose proof (sem_try_acquire_spec _ Hok) as Ht.
    destruct (sem_try_acquire (ResolverHealth.inflight r)) as [sem|]; simpl; [|apply Hmove; auto].
    destruct Ht as (_ & Hok' & Hav & Hwt).
    by apply (take_permit_ok cap w (TryAcquire o i ac be wa) (Reserved k) k r sem s).
  - destruct (ac =? 0); [apply Hmove; auto|]. destruct (be =? ac).
    { destruct (0 <? _); apply Hmove; auto. }
    destruct wa as [k|]; [|apply Hmove; auto].
    destruct (resolvers (pool s) !! k) as [r|] eqn:Hr; [|apply Hmove; auto].
    destruct (po_resolver _ _ _ Hp k r Hr) as (Hok & _).
    pose proof (sem_acquire_spec w _ Hok) as Ht.
    destruct (sem_acquire w (ResolverHealth.inflight r)) as [sem granted]. destruct Ht as (Hok' & Ht).
    destruct granted; simpl.
    + destruct Ht as (Hav & Hwt). apply (take_permit_ok cap w (Decide ac be (Some k)) (Recheck k) k r sem s);
        try done. lia.
    + destruct Ht as (Hav & Hav' & Hwt). apply (join_queue_ok cap w (Decide ac be (Some k)) k r sem s);
        try done. congruence.
  - destruct (resolvers (pool s) !! k); [|apply Hmove; auto]. destruct (ResolverHealth.is_active _); apply Hmove; auto.
  - destruct (resolvers (pool s) !! k); [|apply Hmove; auto]. destruct (ResolverHealth.is_benched _ _); apply Hmove; auto.
  - destruct (u <=? _); apply Hmove; auto.
Qed.

(** Cancelling a queued task removes it from the queue; then it holds nothing. *)
Lemma cancel_ok cap w a s :
  permits_ok cap no_debt s -> tasks s !! w = Some a -> permits_ok cap no_debt (cancel w a s).
Proof.
  intros Hp Hw. unfold cancel. destruct (queued a) as [k|] eqn:Eq.
  2:{ assert (match a with Queued k => _ | _ => s end = s) as -> by (by destruct a).
      apply move_ok; auto. }
  destruct a; simplify_eq/=. unfold move. simpl.
  assert (forall k' r', k' <> k -> resolvers (pool s) !! k' = Some r' ->
    sem_ok (ResolverHealth.inflight r') /\
    sem_available (ResolverHealth.inflight r') + holders k' (s <| tasks := <[w := Idle]> (tasks s) |>) + 0 = cap /\
    NoDup (sem_waiters (ResolverHealth.inflight r')) /\
    (forall v, v ∈ sem_waiters (ResolverHealth.inflight r') <-> <[w := Idle]> (tasks s) !! v = Some (Queued k'))) as Hother.
  { intros k' r' Hne Hk'. destruct (po_resolver _ _ _ Hp k' r' Hk') as (K1 & K2 & K3 & K4).
    rewrite (holders_insert k' w (Queued k) Idle s Hw). cbn [held].
    rewrite decide_False by done. unfold no_debt in K2. split; [done|]. split; [lia|]. split; [done|]. intros v.
    destruct (decide (v = w)) as [->|Hn]; [|by rewrite list_lookup_insert_ne].
    rewrite list_lookup_insert_eq by (by eapply lookup_lt_Some). rewrite K4, Hw. split; congruence. }
  destruct (resolvers (pool s) !! k) as [r|] eqn:Hr.
  2:{ split. intros k' r' Hk'. simpl in Hk'. apply Hother; [congruence|done]. }
  split. intros k' r' Hk'. simpl in Hk'. apply lookup_update in Hk' as [(-> & -> & _)|(Hne & Hk')];
    [|by apply Hother].
  destruct (po_resolver _ _ _ Hp k r Hr) as (K1 & K2 & K3 & K4).
  destruct (sem_cancel_spec w _ K1) as (C1 & C2 & C3). simpl.
  pose proof (holders_insert k w (Queued k) Idle s Hw) as Hh. cbn [held] in Hh.
  rewrite decide_False in Hh by done.
  unfold holders in *. simpl in Hh |- *. unfold no_debt in *. rewrite C2, C3. split; [done|]. split; [lia|].
  split; [by apply NoDup_filter|]. intros v. rewrite list_elem_of_filter, K4.
  destruct (decide (v = w)) as [->|Hn].
  - rewrite list_lookup_insert_eq by (by eapply lookup_lt_Some). split; [tauto|done].
  - rewrite list_lookup_insert_ne by done. tauto.
Qed.

(** What the moves of one task change elsewhere: woken tasks recheck, and permits. *)
Definition only_woken (ts ts' : list pc) : Prop :=
  length ts' = length ts /\
  forall w, ts' !! w = ts !! w \/ exists k, ts !! w = Some (Queued k) /\ ts' !! w = Some (Recheck k).
Definition only_permits (rs rs' : list (ResolverHealth.t A S)) : Prop :=
  Forall2 (fun r r' => exists sem, r' = r <| ResolverHealth.inflight := sem |>) rs rs'.

#[global] Instance only_permits_refl : Reflexive only_permits.
Proof.
  intros rs. apply Forall_Forall2_diag, Forall_forall. intros r _.
  exists (ResolverHealth.inflight r). by destruct r.
Qed.

Lemma only_permits_update k r sem p :
  resolvers p !! k = Some r ->
  only_permits (resolvers p) (resolvers (update k (r <| ResolverHealth.inflight := sem |>) p)).
Proof.
  intros Hr. apply Forall2_same_length_lookup. split; [simpl; by rewrite length_insert|].
  intros i x y Hx Hy. destruct (decide (i = k)) as [->|Hne].
  - simpl in Hy. rewrite list_lookup_insert_eq in Hy by (by eapply lookup_lt_Some). simplify_eq. eauto.
  - simpl in Hy. rewrite list_lookup_insert_ne in Hy by done.
    assert (y = x) as -> by congruence. exists (ResolverHealth.inflight x). by destruct x.
Qed.

Lemma release_permits k s : only_permits (resolvers (pool s)) (resolvers (pool (release k s))).
Proof.
  unfold release. destruct (resolvers (pool s) !! k) as [r|] eqn:Hr; [|done].
  destruct (sem_add_permits 1 (ResolverHealth.inflight r)) as [sem woken].
  by apply only_permits_update.
Qed.

Lemma move_permits w a b s : only_permits (resolvers (pool s)) (resolvers (pool (move w a b s))).
Proof.
  unfold move. destruct (held a) as [k|]; [|done]. destruct (held b); [done|].
  match goal with |- only_permits _ (resolvers (pool (release k ?s'))) => exact (release_permits k s') end.
Qed.

Lemma reserve_permits w now p a : only_permits (resolvers p) (resolvers (reserve_step w now p a).1).
Proof.
  destruct a; cbn [reserve_step]; try done.
  - by destruct (resolvers p) eqn:E; simpl; rewrite ?E.
  - destruct (_ <? _)%nat; [|done]. by destruct (resolvers p !! _).
  - by destruct (resolvers p !! _).
  - destruct (resolvers p !! _) as [r|] eqn:Hr; [|done]. unfold ResolverHealth.try_acquire.
    destruct (sem_try_acquire (ResolverHealth.inflight r)); simpl; [|done]. by apply only_permits_update.
  - destruct (active =? 0); [done|]. destruct (benched =? active); [done|]. destruct waitable as [k|]; [|done].
    destruct (resolvers p !! k) as [r|] eqn:Hr; [|done].
    destruct (sem_acquire w (ResolverHealth.inflight r)) as [sem granted]. by apply only_permits_update.
  - by destruct (resolvers p !! k).
  - by destruct (resolvers p !! k).
Qed.

Lemma only_permits_trans rs1 rs2 rs3 :
  only_permits rs1 rs2 -> only_permits rs2 rs3 -> only_permits rs1 rs3.
Proof.
  intros H1. revert rs3. induction H1 as [|r1 r2 rs1 rs2 (sem & ->) H1 IH]; intros rs3 H2.
  - by apply Forall2_nil_inv_l in H2 as ->.
  - apply Forall2_cons_inv_l in H2 as (r3 & rs3' & (sem' & ->) & H2 & ->).
    constructor; [by exists sem'|by apply IH].
Qed.

Lemma run_task_permits w a s : only_permits (resolvers (pool s)) (resolvers (pool (run_task w a s))).
Proof.
  unfold run_task. pose proof (reserve_permits w (clock s) (pool s) a) as H1.
  destruct (reserve_step w (clock s) (pool s) a) as [p b]. simpl in H1.
  eapply only_permits_trans; [exact H1|]. match goal with |- only_permits _ (resolvers (pool (move w a b ?s'))) => exact (move_permits w a b s') end.
Qed.

#[global] Instance only_woken_refl : Reflexive only_woken.
Proof. split; auto. Qed.

Lemma release_tasks cap debt k s : permits_ok cap debt s -> only_woken (tasks s) (tasks (release k s)).
Proof.
  intros [Hp]. unfold release. destruct (resolvers (pool s) !! k) as [r|] eqn:Hr; [|done].
  destruct (Hp k r Hr) as (Hok & _ & _ & Hq).
  pose proof (sem_add_permits_spec 1 _ Hok ltac:(lia)) as Hadd.
  destruct (sem_add_permits 1 (ResolverHealth.inflight r)) as [sem woken]. destruct Hadd as (_ & Hw & _).
  assert (forall v, v ∈ woken -> tasks s !! v = Some (Queued k)) as Hwq.
  { intros v Hv. apply Hq. rewrite <- Hw. apply elem_of_app. by left. }
  simpl. split.
  - unfold wake. generalize (tasks s) as ts. clear.
    induction woken as [|v ws IH]; intros ts; [done|]. simpl. rewrite IH. apply length_insert.
  - intros w. rewrite wake_lookup by (intros v Hv; eapply lookup_lt_Some; by apply Hwq).
    case_decide; [right; eauto|by left].
Qed.

Lemma move_tasks cap w a b s :
  permits_ok cap no_debt s -> tasks s !! w = Some a -> queued a = queued b ->
  held b = held a \/ held b = None -> only_woken (<[w := b]> (tasks s)) (tasks (move w a b s)).
Proof.
  intros Hp Hw Hq Hh. pose proof (set_task_ok cap w a b s Hp Hw Hq Hh) as Hs. unfold move.
  destruct (held a) as [k|]; [|done]. destruct (held b); [done|]. exact (release_tasks _ _ _ _ Hs).
Qed.

Lemma run_task_tasks cap w a s :
  permits_ok cap no_debt s -> tasks s !! w = Some a ->
  only_woken (<[w := (reserve_step w (clock s) (pool s) a).2]> (tasks s)) (tasks (run_task w a s)).
Proof.
  intros Hp Hw. unfold run_task.
  destruct (reserve_step w (clock s) (pool s) a) as [p b] eqn:E. cbn [snd].
  destruct (held a) as [k|] eqn:Ha; [|unfold move; by rewrite Ha].
  assert (p = pool s /\ queued a = queued b /\ (held b = held a \/ held b = None)) as (-> & Hq & Hh).
  { destruct a; simplify_eq/=; repeat case_match; simplify_eq/=; auto. }
  replace (s <| pool := pool s |>) with s by (by destruct s). by apply (move_tasks cap).
Qed.

(** A task leaves [reserve] only when it is done there. *)
Lemma reserve_step_not_idle w now p a : a <> Idle -> (reserve_step w now p a).2 <> Idle.
Proof. intros Ha. destruct a; cbn [reserve_step]; repeat case_match; simplify_eq/=; done. Qed.

Lemma step_ok cap s s' : step s s' -> permits_ok cap no_debt s -> permits_ok cap no_debt s'.
Proof.
  intros Hs Hp. destruct Hs as [s d Hd|s|s w Hw|s w a Hw|s w a Hw|s k r r' Hk Hr'].
  - destruct Hp as [Hp]. by split.
  - destruct Hp as [Hp]. split. intros k r Hk. simpl in Hk. destruct (Hp k r Hk) as (K1 & K2 & K3 & K4).
    unfold holders in *. simpl. rewrite filter_app, length_app. simpl.
    split; [done|]. split; [lia|]. split; [done|]. intros w. rewrite K4.
    destruct (decide (w < length (tasks s))%nat) as [Hl|Hl].
    + by rewrite lookup_app_l.
    + rewrite lookup_app_r by lia. rewrite lookup_ge_None_2 by lia.
      split; [done|]. intros H0. apply list_lookup_singleton_Some in H0 as [_ ?]. done.
  - apply move_ok; auto.
  - by apply run_task_ok.
  - by apply cancel_ok.
  - destruct Hp as [Hp]. split. intros k' r2 Hk'. simpl in Hk'.
    apply lookup_update in Hk' as [(-> & -> & _)|(Hne & Hk')]; [rewrite Hr'; by apply Hp|by apply Hp].
Qed.

Lemma new_pool addrs config now p :
  new addrs config now = Some p ->
  length (resolvers p) = length addrs /\
  forall k r, resolvers p !! k = Some r ->
    ResolverHealth.inflight r = sem_new (Z.max (max_inflight_per_resolver config) 1).
Proof.
  unfold new. intros Hn. apply bind_Some in Hn as (rs & Hm & [= <-]). simpl.
  apply mapM_Some in Hm. split; [symmetry; by eapply Forall2_length|]. intros k r Hk.
  destruct (Forall2_lookup_r _ _ _ _ _ Hm Hk) as (addr & _ & Ha).
  unfold ResolverHealth.new in Ha. by apply bind_Some in Ha as (l & _ & [= <-]).
Qed.

Lemma initial_ok addrs config s :
  initial addrs config s -> permits_ok (Z.max (max_inflight_per_resolver config) 1) no_debt s.
Proof.
  intros [Hn Ht]. destruct (new_pool _ _ _ _ Hn) as [_ Hr]. split. intros k r Hk.
  destruct (sem_new_ok (Z.max (max_inflight_per_resolver config) 1) ltac:(lia)) as (N1 & N2 & N3).
  rewrite (Hr k r Hk). unfold holders, no_debt. rewrite Ht, N2, N3. simpl.
  split; [done|]. split; [lia|]. split; [constructor|]. intros w. split; [by intros ?%elem_of_nil|done].
Qed.

Lemma run_ok cap s s' : rtc step s s' -> permits_ok cap no_debt s -> permits_ok cap no_debt s'.
Proof. induction 1; eauto using step_ok. Qed.

End PoolProofs.

(** ** One task alone *)

Section ReserveAlone.
Import ResolverPool.
Context {A S : Type} `{HO : SemaphoreOps S} `{!Semaphore S}.
Implicit Types (p : t A S) (r : ResolverHealth.t A S).

(** What a scan sees of a resolver. *)
Definition eligible (now : Z) r : bool := ResolverHealth.is_active r && negb (ResolverHealth.is_benched now r).
Definition has_permit r : bool := match ResolverHealth.try_acquire r with Some _ => true | None => false end.

Definition sees (f : ResolverHealth.t A S -> bool) p (k : nat) : bool :=
  match resolvers p !! k with Some r => f r | None => false end.

(** The order in which a scan visits the pool. *)
Definition rotation (offset : Z) (i n : nat) : list nat := (fun j => slot offset j n) <$> seq i (n - i).

Definition first (f : nat -> bool) (l : list nat) : option nat := list_find f l ≫= fun x => Some x.2.
Definition count_of (f : nat -> bool) (l : list nat) : Z := Z.of_nat (length (filter f l)).

Lemma run_alone_app n m w now p a :
  run_alone (n + m) w now p a =
  (let '(p', a') := run_alone n w now p a in run_alone m w now p' a').
Proof.
  revert p a. induction n as [|n IH]; intros p a; simpl; [done|].
  destruct (reserve_step w now p a). apply IH.
Qed.

Lemma slot_lt offset i n : (0 < n)%nat -> (slot offset i n < n)%nat.
Proof.
  intros Hn. unfold slot. pose proof (Z.mod_pos_bound (u64_add offset (Z.of_nat i)) (Z.of_nat n)). lia.
Qed.

Lemma rotation_cons offset i n :
  (i < n)%nat -> rotation offset i n = slot offset i n :: rotation offset (Datatypes.S i) n.
Proof.
  intros Hi. unfold rotation. replace (n - i)%nat with (Datatypes.S (n - Datatypes.S i)) by lia. done.
Qed.

Lemma first_cons f k l : first f (k :: l) = if f k then Some k else first f l.
Proof.
  unfold first. simpl. destruct (f k); simpl; [done|].
  destruct (list_find (λ x, f x) l) as [[? ?]|]; done.
Qed.

Lemma count_of_cons f k l : count_of f (k :: l) = (if f k then 1 else 0) + count_of f l.
Proof. unfold count_of. rewrite filter_cons. destruct (f k); simpl; lia. Qed.

Definition sees_active p := sees ResolverHealth.is_active p.
Definition sees_benched now p := sees (fun r => ResolverHealth.is_active r && ResolverHealth.is_benched now r) p.
Definition sees_busy now p := sees (fun r => eligible now r && negb (has_permit r)) p.
Definition sees_free now p := sees (fun r => eligible now r && has_permit r) p.

(** The scan's result over the rest of the rotation. *)
Definition scanned (now : Z) p (order : list nat) (ac be : Z) (wa : option nat) : t A S * pc :=
  match first (sees_free now p) order with
  | Some k =>
      match resolvers p !! k ≫= ResolverHealth.try_acquire with
      | Some r' => (update k r' p, Reserved k)
      | None => (p, Enter)
      end
  | None => (p, Decide (ac + count_of (sees_active p) order) (be + count_of (sees_benched now p) order)
                  (match wa with Some k => Some k | None => first (sees_busy now p) order end))
  end.

(** A resolver passed over in at most three actions: the rest of the scan does the rest. *)
Lemma scan_skip w now p offset m i k order ac be wa d ac1 be1 wa1 :
  (exists fuel, (fuel <= 3 * m + 1)%nat /\
     run_alone fuel w now p (Visit offset (Datatypes.S i) ac1 be1 wa1) = scanned now p order ac1 be1 wa1) ->
  (d <= 3)%nat ->
  ac1 = ac + (if sees_active p k then 1 else 0) -> be1 = be + (if sees_benched now p k then 1 else 0) ->
  sees_free now p k = false ->
  match wa1 with Some x => Some x | None => first (sees_busy now p) order end
  = match wa with Some x => Some x | None => first (sees_busy now p) (k :: order) end ->
  run_alone d w now p (Visit offset i ac be wa) = (p, Visit offset (Datatypes.S i) ac1 be1 wa1) ->
  exists fuel, (fuel <= 3 * Datatypes.S m + 1)%nat /\
    run_alone fuel w now p (Visit offset i ac be wa) = scanned now p (k :: order) ac be wa.
Proof.
  intros (fuel & Hf & E) Hd Ha Hb Hfree Hwa Hrun.
  exists (d + fuel)%nat. split; [lia|]. rewrite run_alone_app, Hrun, E.
  unfold scanned. rewrite first_cons, Hfree. destruct (first (sees_free now p) _); [done|].
  rewrite Hwa, !count_of_cons, Ha, Hb. f_equal. f_equal; lia.
Qed.

Lemma scan_alone w now p offset :
  let n := length (resolvers p) in
  forall m i ac be wa, (i + m = n)%nat ->
  exists fuel, (fuel <= 3 * m + 1)%nat /\
    run_alone fuel w now p (Visit offset i ac be wa) =
    scanned now p (rotation offset i n) ac be wa.
Proof.
  intros n. induction m as [|m IH]; intros i ac be wa Hi.
  - exists 1%nat. split; [lia|]. simpl. fold n. destruct (Nat.ltb_spec i n); [lia|].
    unfold rotation. replace (n - i)%nat with O by lia. unfold scanned. simpl.
    unfold count_of. simpl. rewrite !Z.add_0_r. by destruct wa.
  - assert (i < n)%nat as Hlt by lia. rewrite rotation_cons by done.
    set (k := slot offset i n). assert (k < n)%nat as Hk by (apply slot_lt; lia).
    destruct (lookup_lt_is_Some_2 _ _ Hk) as [r Hr].
    assert (reserve_step w now p (Visit offset i ac be wa) =
            (p, if ResolverHealth.is_active r then CheckBench offset i (ac + 1) be wa
                else Visit offset (Datatypes.S i) ac be wa)) as E1.
    { simpl. fold n k. rewrite (proj2 (Nat.ltb_lt i n) Hlt), Hr. done. }
    assert (Hskip := fun d ac1 be1 wa1 => scan_skip w now p offset m i k (rotation offset (Datatypes.S i) n)
      ac be wa d ac1 be1 wa1 (IH (Datatypes.S i) ac1 be1 wa1 ltac:(lia))).
    assert (forall f, sees f p k = f r) as Hsees by (intros f; unfold sees; by rewrite Hr).
    unfold sees_active, sees_benched, sees_free, sees_busy, eligible in Hskip.
    rewrite !first_cons in Hskip. rewrite !Hsees in Hskip.
    destruct (ResolverHealth.is_active r) eqn:Ea.
    2:{ apply (Hskip 1%nat ac be wa); [lia|simpl; lia|simpl; lia|done|by destruct wa|].
        cbn [run_alone]. by rewrite E1. }
    assert (reserve_step w now p (CheckBench offset i (ac + 1) be wa) =
            (p, if ResolverHealth.is_benched now r then Visit offset (Datatypes.S i) (ac + 1) (be + 1) wa
                else TryAcquire offset i (ac + 1) be wa)) as E2.
    { cbn [reserve_step]. fold n k. by rewrite Hr. }
    destruct (ResolverHealth.is_benched now r) eqn:Eb.
    { apply (Hskip 2%nat (ac + 1) (be + 1) wa); [lia|simpl; lia|simpl; lia|done|by destruct wa|].
      cbn [run_alone]. by rewrite E1, E2. }
    unfold has_permit in Hskip. destruct (ResolverHealth.try_acquire r) as [r'|] eqn:Et.
    + exists 3%nat. split; [lia|]. cbn [run_alone]. rewrite E1, E2. cbn [reserve_step]. fold n k. rewrite Hr, Et.
      unfold scanned, sees_free. rewrite first_cons, Hsees. unfold eligible, has_permit.
      rewrite Ea, Eb, Et. cbn [andb negb]. rewrite Hr.
      change (Some r ≫= ResolverHealth.try_acquire) with (ResolverHealth.try_acquire r). by rewrite Et.
    + apply (Hskip 3%nat (ac + 1) be (match wa with None => Some k | Some _ => wa end));
        [lia|simpl; lia|simpl; lia|done|by destruct wa|].
      cbn [run_alone]. rewrite E1, E2. cbn [reserve_step]. fold n k. by rewrite Hr, Et.
Qed.

Lemma first_count f l : 0 < count_of f l -> exists k, first f l = Some k /\ f k = true.
Proof.
  induction l as [|x l IH]; [done|]. rewrite count_of_cons, first_cons.
  destruct (f x) eqn:E; [by exists x|]. intros Hc. apply IH. lia.
Qed.

Lemma first_some f l k : first f l = Some k -> f k = true.
Proof.
  induction l as [|x l IH]; [done|]. rewrite first_cons. destruct (f x) eqn:E; [by intros [= ->]|done].
Qed.

Lemma first_none f l : first f l = None -> count_of f l = 0.
Proof.
  intros Hn. destruct (decide (0 < count_of f l)) as [Hp|]; [|unfold count_of in *; lia].
  destruct (first_count f l Hp) as (k & Hk & _). congruence.
Qed.

(** Active resolvers are benched, busy or free. *)
Lemma count_split now p l :
  count_of (sees_active p) l = count_of (sees_benched now p) l + count_of (sees_busy now p) l
                               + count_of (sees_free now p) l.
Proof.
  induction l as [|k l IH]; [done|]. rewrite !count_of_cons, IH.
  assert ((if sees_active p k then 1 else 0) = (if sees_benched now p k then 1 else 0)
          + (if sees_busy now p k then 1 else 0) + (if sees_free now p k then 1 else 0)) as E.
  { unfold sees_active, sees_benched, sees_busy, sees_free, sees, eligible.
    destruct (resolvers p !! k) as [r|]; [|done].
    by destruct (ResolverHealth.is_active r), (ResolverHealth.is_benched now r), (has_permit r). }
  lia.
Qed.

(** C21: a lone [reserve] rotates fairly through the pool.  From the cursor, which it
    advances by one, it takes a permit of the first resolver in rotation order that is
    active, not benched and has one free; with none it gives up only if no resolver is
    active, sleeps until the first sentence lapses if every active one is benched, and
    otherwise queues on the first busy eligible resolver in that order.  It decides
    within three actions per resolver. *)
Theorem reserve_alone w now p :
  resolvers p <> [] ->
  (forall k r, resolvers p !! k = Some r -> sem_ok (ResolverHealth.inflight r)) ->
  let n := length (resolvers p) in
  let p1 := p <| cursor := fetch_add (cursor p) 1 |> in
  let order := rotation (cursor p) 0 n in
  exists fuel, (fuel <= 3 * n + 3)%nat /\
    let '(p', a') := run_alone fuel w now p Enter in
    match first (sees_free now p) order with
    | Some k =>
        exists r r', resolvers p !! k = Some r /\ ResolverHealth.try_acquire r = Some r' /\
                     p' = update k r' p1 /\ a' = Reserved k
    | None =>
        if count_of (sees_active p) order =? 0 then p' = p1 /\ a' = NoneActive
        else if count_of (sees_benched now p) order =? count_of (sees_active p) order then
          p' = p1 /\
          a' = (let wait := sleep_until_first_eligible now p in if 0 <? wait then Asleep (now + wait) else Enter)
        else
          exists k r, first (sees_busy now p) order = Some k /\ resolvers p !! k = Some r /\
            a' = Queued k /\
            p' = update k (r <| ResolverHealth.inflight := (sem_acquire w (ResolverHealth.inflight r)).1 |>) p1
    end.
Proof.
  intros Hne Hok n p1 order.
  assert (reserve_step w now p Enter = (p1, Visit (cursor p) 0 0 0 None)) as E0.
  { cbn [reserve_step]. by destruct (resolvers p). }
  destruct (scan_alone w now p1 (cursor p) n 0 0 0 None eq_refl) as (fuel & Hf & Hscan).
  change (length (resolvers p1)) with n in Hscan. fold order in Hscan. unfold scanned in Hscan.
  change (sees_free now p1) with (sees_free now p) in Hscan.
  change (sees_busy now p1) with (sees_busy now p) in Hscan.
  change (sees_active p1) with (sees_active p) in Hscan.
  change (sees_benched now p1) with (sees_benched now p) in Hscan.
  change (resolvers p1) with (resolvers p) in Hscan.
  destruct (first (sees_free now p) order) as [k|] eqn:Efirst.
  - pose proof (first_some _ _ _ Efirst) as Hk. unfold sees_free, sees in Hk.
    destruct (resolvers p !! k) as [r|] eqn:Hr; [|done]. apply andb_true_iff in Hk as [_ Hperm].
    unfold has_permit in Hperm. destruct (ResolverHealth.try_acquire r) as [r'|] eqn:Et; [|done].
    change (Some r ≫= ResolverHealth.try_acquire) with (ResolverHealth.try_acquire r) in Hscan.
    rewrite Et in Hscan.
    exists (1 + fuel)%nat. split; [lia|]. rewrite run_alone_app. cbn [run_alone]. rewrite E0, Hscan.
    by exists r, r'.
  - set (act := count_of (sees_active p) order) in *. set (ben := count_of (sees_benched now p) order) in *.
    rewrite !Z.add_0_l in Hscan. exists (1 + (fuel + 1))%nat. split; [lia|].
    rewrite !run_alone_app. cbn [run_alone]. rewrite E0, run_alone_app, Hscan. cbn [run_alone reserve_step].
    destruct (Z.eqb_spec act 0) as [|Hact]; [done|]. destruct (Z.eqb_spec ben act) as [|Hben]; [done|].
    pose proof (count_split now p order) as Hsplit. fold act ben in Hsplit.
    rewrite (first_none _ _ Efirst) in Hsplit.
    assert (0 <= count_of (sees_busy now p) order) by (unfold count_of; lia).
    destruct (first_count (sees_busy now p) order ltac:(lia)) as (k & Hfk & Hk). rewrite Hfk.
    change (resolvers p1) with (resolvers p).
    unfold sees_busy, sees in Hk. destruct (resolvers p !! k) as [r|] eqn:Hr; [|done].
    apply andb_true_iff in Hk as [_ Hperm].
    assert (sem_available (ResolverHealth.inflight r) = 0) as Hav.
    { pose proof (sem_try_acquire_spec _ (Hok k r Hr)) as Ht. unfold has_permit, ResolverHealth.try_acquire in Hperm.
      by destruct (sem_try_acquire (ResolverHealth.inflight r)). }
    pose proof (sem_acquire_spec w _ (Hok k r Hr)) as Hacq.
    destruct (sem_acquire w (ResolverHealth.inflight r)) as [sem granted] eqn:Es.
    destruct Hacq as [[Hs _] Hg]. destruct granted; [lia|].
    exists k, r. rewrite Hr, Es. done.
Qed.

(** C20: politeness.  However tasks interleave, are woken or cancelled, and whatever
    else happens to the resolvers, no resolver ever has more queries in flight than
    [max_inflight_per_resolver] (at least one); every permit is free or held by exactly
    one task; and a task waits for a resolver only while all its permits are held. *)
Theorem inflight_bound addrs config s0 s k r :
  initial addrs config s0 -> rtc step s0 s -> resolvers (pool s) !! k = Some r ->
  let cap := Z.max (max_inflight_per_resolver config) 1 in
  in_flight k s <= cap /\
  sem_available (ResolverHealth.inflight r) + holders k s = cap /\
  (forall w, tasks s !! w = Some (Queued k) -> holders k s = cap).
Proof.
  intros Hi Hrun Hk. pose proof (run_ok _ _ _ Hrun (initial_ok addrs config s0 Hi)) as [Hp].
  destruct (Hp k r Hk) as ([Hav0 Hwait] & Hav & _ & Hq). unfold no_debt in Hav.
  assert (in_flight k s <= holders k s) as Hle.
  { unfold in_flight, holders. clear. induction (tasks s) as [|a ts IH]; [done|]. rewrite !filter_cons.
    destruct (decide (a = Reserved k)) as [->|]; destruct (decide (held _ = Some k)); simpl in *; try done; lia. }
  split; [lia|]. split; [lia|]. intros w Hw.
  destruct (decide (0 < sem_available (ResolverHealth.inflight r))) as [Hpos|]; [|lia].
  apply Hq in Hw. rewrite (Hwait Hpos) in Hw. by apply elem_of_nil in Hw.
Qed.

End ReserveAlone.

(** ** Witnesses and examples *)

Section PoolExamples.
Import ResolverPool.

Definition two : list nat := [53%nat; 54%nat].
Definition small_pool : t nat ref_sem :=
  from_option id (mk [] 0 0) (new two default_config 0).
Definition quiet : sys nat ref_sem := mk_sys small_pool 0 [].

(** Run task [w] one action further. *)
Definition act (w : nat) (s : sys nat ref_sem) : sys nat ref_sem :=
  from_option (fun a => run_task w a s) s (tasks s !! w).

Lemma act_steps n w s : is_Some (tasks s !! w) ->
  (forall m, (m <= n)%nat -> is_Some (tasks (Nat.iter m (act w) s) !! w)) ->
  rtc step s (Nat.iter n (act w) s).
Proof.
  intros Hw Hall. induction n as [|n IH]; [apply rtc_refl|].
  eapply rtc_r; [apply IH; intros m Hm; apply Hall; lia|]. simpl.
  destruct (Hall n ltac:(lia)) as [a Ha]. unfold act at 2. rewrite Ha. by apply step_run.
Qed.

(** Two workers call [reserve]; the first runs to completion. *)
Definition called : sys nat ref_sem :=
  move 0 Idle Enter ((quiet <| tasks := tasks quiet ++ [Idle] |>) <| tasks := [Idle; Idle] |>).
Definition first_reserved : sys nat ref_sem := Nat.iter 4 (act 0) called.

Example first_reserved_state : tasks first_reserved = [Reserved 0; Idle].
Proof. vm_compute. reflexivity. Qed.

Lemma called_run : rtc step quiet called.
Proof.
  apply (rtc_l _ _ (quiet <| tasks := tasks quiet ++ [Idle] |>)); [apply step_spawn|].
  apply (rtc_l _ _ ((quiet <| tasks := tasks quiet ++ [Idle] |>) <| tasks := [Idle; Idle] |>)).
  - exact (step_spawn (quiet <| tasks := tasks quiet ++ [Idle] |>)).
  - apply rtc_once. apply step_call. reflexivity.
Qed.

Lemma reserved_run : rtc step called first_reserved.
Proof.
  apply act_steps; [vm_compute; eauto|].
  intros m Hm. destruct m as [|[|[|[|[|m]]]]]; [vm_compute; eauto..|lia].
Qed.

Definition first_resolver : ResolverHealth.t nat ref_sem :=
  from_option id demo (resolvers (pool first_reserved) !! 0%nat).

Lemma inflight_bound_witness :
  in_flight 0 first_reserved <= 2 /\
  sem_available (ResolverHealth.inflight first_resolver) + holders 0 first_reserved = 2 /\
  (forall w, tasks first_reserved !! w = Some (Queued 0) -> holders 0 first_reserved = 2).
Proof.
  apply (inflight_bound two default_config quiet first_reserved 0 first_resolver).
  - split; vm_compute; reflexivity.
  - exact (rtc_trans _ _ _ called_run reserved_run).
  - vm_compute. reflexivity.
Defined.

Lemma small_pool_ok k r : resolvers small_pool !! k = Some r -> sem_ok (ResolverHealth.inflight r).
Proof.
  intros Hk. assert (new two default_config 0 = Some small_pool) as Hn by (vm_compute; reflexivity).
  destruct (new_pool _ _ _ _ Hn) as [_ Hr]. rewrite (Hr k r Hk).
  by apply (sem_new_ok (S := ref_sem)).
Qed.

Lemma reserve_alone_witness :
  exists fuel, (fuel <= 3 * 2 + 3)%nat /\
    let '(p', a') := run_alone fuel 0 0 small_pool Enter in
    match first (sees_free 0 small_pool) (rotation 0 0 2) with
    | Some k =>
        exists r r', resolvers small_pool !! k = Some r /\ ResolverHealth.try_acquire r = Some r' /\
                     p' = update k r' (small_pool <| cursor := 1 |>) /\ a' = Reserved k
    | None =>
        if count_of (sees_active small_pool) (rotation 0 0 2) =? 0
        then p' = small_pool <| cursor := 1 |> /\ a' = NoneActive
        else if count_of (sees_benched 0 small_pool) (rotation 0 0 2)
                =? count_of (sees_active small_pool) (rotation 0 0 2)
        then p' = small_pool <| cursor := 1 |> /\
          a' = (let wait := sleep_until_first_eligible 0 small_pool in
                if 0 <? wait then Asleep (0 + wait) else Enter)
        else
          exists k r, first (sees_busy 0 small_pool) (rotation 0 0 2) = Some k /\
            resolvers small_pool !! k = Some r /\ a' = Queued k /\
            p' = update k (r <| ResolverHealth.inflight :=
                                  (sem_acquire 0 (ResolverHealth.inflight r)).1 |>)
                   (small_pool <| cursor := 1 |>)
    end.
Proof.
  apply (reserve_alone 0 0 small_pool).
  - vm_compute. discriminate.
  - exact small_pool_ok.
Defined.

End PoolExamples.
