(* ===== verification/Utils.v ===== *)
(** * Resolver addresses, reverse names and limits: [utils.rs]

    [parse_resolver], [format_ptr_query] and the descriptor check, on top of the
    standard library's address texts. *)

From Stdlib Require Import Ascii String.
From stdpp Require Import list.
From S2P Require Import Prelude Addresses Errors.
#[local] Open Scope Z_scope.
#[local] Open Scope list_scope.

(** ** [parse_resolver] *)

(** Unicode [White_Space]. *)
Definition is_whitespace (c : Z) : bool :=
  ((9 <=? c) && (c <=? 13)) || (c =? 32) || (c =? 133) || (c =? 160) || (c =? 5760)
  || ((8192 <=? c) && (c <=? 8202)) || (c =? 8232) || (c =? 8233) || (c =? 8239) || (c =? 8287)
  || (c =? 12288).

Fixpoint trim_start (f : Z -> bool) (s : text) : text :=
  match s with c :: s' => if f c then trim_start f s' else s | [] => [] end.
Definition trim_matches (f : Z -> bool) (s : text) : text :=
  reverse (trim_start f (reverse (trim_start f s))).

Definition parse_resolver `{ErrorTypes} (input : text) : result SocketAddress BlastDNSError :=
  match parse_socket input with
  | Some addr => Ok addr
  | None =>
      let trimmed := trim_matches is_whitespace input in
      let stripped := trim_matches (fun c => (c =? OPEN) || (c =? CLOSE)) trimmed in
      match parse_ip stripped with
      | Some i => Ok (mk_socket i 53 0)
      | None => Err (InvalidResolver input AddrKindSocket)
      end
  end.

(** ** [format_ptr_query] *)

Definition nibbles (segment : Z) : list Z :=
  [Z.land (Z.shiftr segment 12) 15; Z.land (Z.shiftr segment 8) 15;
   Z.land (Z.shiftr segment 4) 15; Z.land segment 15].

Definition format_ptr_query (host : text) : text :=
  match parse_ip host with
  | Some (V4 a b c d) =>
      show_octet d ++ [DOT] ++ show_octet c ++ [DOT] ++ show_octet b ++ [DOT] ++ show_octet a
        ++ lit ".in-addr.arpa"
  | Some (V6 segments) =>
      join [DOT] ((fun n => [hex_digit n]) <$> reverse (segments ≫= nibbles)) ++ lit ".ip6.arpa"
  | None => host
  end.

(** ** File descriptors *)

Definition required_fds (max_concurrency resolvers : Z) (persistent_socket : bool) : Z :=
  let udp := if persistent_socket then resolvers else max_concurrency in
  u64_add (u64_add udp max_concurrency) 100.

(** What [getrlimit] and [setrlimit] do, call by call: the limits read first, whether
    raising them failed (and how), and the limits read again. *)
Record rlimit := mk_rlimit { rlim_cur : Z; rlim_max : Z }.
Record rlimit_calls := mk_rlimit_calls {
  first_read : option rlimit;
  raise : result unit text;
  second_read : option rlimit
}.

Definition check_ulimits (os : rlimit_calls) (max_concurrency resolvers : Z) (persistent_socket : bool)
    : result unit text :=
  match first_read os with
  | None => Err (lit "failed to read RLIMIT_NOFILE")
  | Some rl =>
      let hard_limit := rlim_max rl in
      let read :=
        if rlim_cur rl <? hard_limit then
          match raise os with
          | Err last_os_error =>
              Err (lit "failed to raise RLIMIT_NOFILE to hard limit (soft=" ++ show_Z (rlim_cur rl)
                   ++ lit ", hard=" ++ show_Z hard_limit ++ lit "): " ++ last_os_error)
          | Ok _ =>
              match second_read os with
              | None => Err (lit "failed to re-read RLIMIT_NOFILE after raising it")
              | Some rl' => Ok rl'
              end
          end
        else Ok rl in
      match read with
      | Err e => Err e
      | Ok rl =>
          let current_limit := rlim_cur rl in
          let required := required_fds max_concurrency resolvers persistent_socket in
          if current_limit <? required then
            let driver :=
              if persistent_socket
              then lit "persistent sockets for " ++ show_Z resolvers
                     ++ lit " resolvers plus max_concurrency " ++ show_Z max_concurrency
              else lit "max_concurrency of " ++ show_Z max_concurrency in
            Err (lit "NOFILE limit too low even after raising soft limit: current="
                 ++ show_Z current_limit ++ lit ", required=" ++ show_Z required ++ [NEWLINE]
                 ++ driver ++ lit " needs ~" ++ show_Z required ++ lit " FDs" ++ [NEWLINE]
                 ++ lit "Increase with: ulimit -n " ++ show_Z required
                 ++ lit " (or higher), or lower max_concurrency")
          else Ok tt
      end
  end.

(** ** System resolvers *)

Section SystemResolvers.
(** The order in which a [HashSet] is iterated. *)
Context `{ErrorTypes} (set_order : list IpAddr -> list IpAddr).

(** [system_conf] is what the DNS library reads: the name servers, or an error's text. *)
Definition get_system_resolvers (system_conf : result (list SocketAddress) text)
    : result (list IpAddr) BlastDNSError :=
  match system_conf with
  | Err e => Err (Configuration (lit "Failed to read system DNS configuration: " ++ e))
  | Ok name_servers =>
      let resolver_ips := set_order (remove_dups (ip <$> name_servers)) in
      match resolver_ips with
      | [] => Err (Configuration (lit "No system resolvers found"))
      | _ => Ok resolver_ips
      end
  end.
End SystemResolvers.

(** ** Round trips *)

(** The address a reverse name stands for (RFC 1035 3.5, RFC 3596 2.5): labels from
    the least significant octet or nibble. *)
Definition unhex (c : Z) : option Z := to_digit 16 c.
Fixpoint split_on (sep : Z) (label : text) (s : text) : list text :=
  match s with
  | [] => [reverse label]
  | c :: s' => if c =? sep then reverse label :: split_on sep [] s' else split_on sep (c :: label) s'
  end.
Definition octet_of (label : text) : option Z := whole (read_number 10 (Some 3%nat) true 255 label).
Definition nibble_of (label : text) : option Z := match label with [c] => unhex c | _ => None end.
Fixpoint segments_of (nibbles : list Z) : option (list Z) :=
  match nibbles with
  | [] => Some []
  | a :: b :: c :: d :: rest => l ← segments_of rest; Some (a * 4096 + b * 256 + c * 16 + d :: l)
  | _ => None
  end.
Definition ptr_address (name : text) : option IpAddr :=
  match reverse (split_on DOT [] name) with
  | arpa :: zone :: labels =>
      if negb (bool_decide (arpa = lit "arpa")) then None
      else if bool_decide (zone = lit "in-addr") then
        match mapM octet_of labels with Some [a; b; c; d] => Some (V4 a b c d) | _ => None end
      else if bool_decide (zone = lit "ip6") then
        match mapM nibble_of labels with
        | Some l => if (length l =? 32)%nat then V6 <$> segments_of l else None
        | None => None
        end
      else None
  | _ => None
  end.

Example ptr_address_v6 :
  ptr_address (format_ptr_query (lit "2001:db8::1.2.3.4")) = parse_ip (lit "2001:db8::102:304").
Proof. vm_compute. reflexivity. Qed.

(** *** Reverse names *)

Lemma octet_shown n : is_octet n -> octet_of (show_octet n) = Some n.
Proof. intros Hn. each_octet n. Qed.

Lemma hex_digit_read n : 0 <= n < 16 -> nibble_of [hex_digit n] = Some n /\ hex_digit n <> DOT.
Proof.
  intros Hn. refine (bool_decide_eq_true_1 _ (every_below (fun n =>
    bool_decide (nibble_of [hex_digit n] = Some n /\ hex_digit n <> DOT)) 16 n _ _)); [lia|].
  vm_compute. reflexivity.
Qed.

Lemma split_label sep label acc s : Forall (fun c => c <> sep) label ->
  split_on sep acc (label ++ sep :: s) = (reverse acc ++ label) :: split_on sep [] s.
Proof.
  intros H. revert acc. induction H as [|c l Hc Hl IH]; intros acc; simpl.
  - by rewrite Z.eqb_refl, app_nil_r.
  - destruct (Z.eqb_spec c sep); [done|]. rewrite IH, reverse_cons, <- app_assoc. done.
Qed.

Lemma split_last sep label acc : Forall (fun c => c <> sep) label ->
  split_on sep acc label = [reverse acc ++ label].
Proof.
  intros H. revert acc. induction H as [|c l Hc Hl IH]; intros acc; simpl.
  - by rewrite app_nil_r.
  - destruct (Z.eqb_spec c sep); [done|]. rewrite IH, reverse_cons, <- app_assoc. done.
Qed.

Lemma split_join sep labels : labels <> [] -> Forall (Forall (fun c => c <> sep)) labels ->
  split_on sep [] (join [sep] labels) = labels.
Proof.
  intros Hne H. induction H as [|l ls Hl Hls IH]; [done|].
  destruct ls as [|l' ls]; simpl; [by rewrite split_last|].
  simpl in IH. rewrite split_label by done. f_equal. by apply IH.
Qed.

Lemma nibbles_sum s : is_segment s ->
  Z.land (Z.shiftr s 12) 15 * 4096 + Z.land (Z.shiftr s 8) 15 * 256
  + Z.land (Z.shiftr s 4) 15 * 16 + Z.land s 15 = s.
Proof.
  unfold is_segment. intros Hs. change 15 with (Z.ones 4).
  rewrite !Z.land_ones, !Z.shiftr_div_pow2 by lia.
  change (2 ^ 12) with 4096. change (2 ^ 8) with 256. change (2 ^ 4) with 16.
  Z.to_euclidean_division_equations. lia.
Qed.

Lemma segments_of_nibbles l : Forall is_segment l -> segments_of (l ≫= nibbles) = Some l.
Proof.
  induction 1 as [|s l Hs Hl IH]; [done|]. rewrite bind_cons. cbn [nibbles app segments_of].
  rewrite IH. cbn [mbind option_bind]. by rewrite nibbles_sum.
Qed.

Lemma nibbles_range l : Forall (fun n => 0 <= n < 16) (l ≫= nibbles).
Proof.
  induction l as [|s l IH]; [constructor|]. rewrite bind_cons. apply Forall_app; split; [|done].
  unfold nibbles. change 15 with (Z.ones 4). rewrite !Z.land_ones by lia.
  repeat constructor; apply Z.mod_pos_bound; lia.
Qed.

Lemma nibbles_length l : length (l ≫= nibbles) = (4 * length l)%nat.
Proof. induction l as [|s l IH]; [done|]. rewrite bind_cons, length_app, IH. simpl. lia. Qed.

Lemma nibble_labels l : Forall (fun n => 0 <= n < 16) l ->
  mapM nibble_of ((fun n => [hex_digit n]) <$> l) = Some l /\
  Forall (Forall (fun c => c <> DOT)) ((fun n => [hex_digit n]) <$> l).
Proof.
  intros Hl. split.
  - apply mapM_Some, Forall2_fmap_l, Forall_Forall2_diag.
    eapply Forall_impl; [done|]. intros n Hn. by apply hex_digit_read.
  - apply Forall_fmap. eapply Forall_impl; [done|]. intros n Hn.
    repeat constructor. by apply hex_digit_read.
Qed.

Lemma octet_labels n : is_octet n -> Forall (fun c => c <> DOT) (show_octet n).
Proof. intros H. eapply Forall_impl; [by apply octet_chars|]. unfold octet_char, DOT. lia. Qed.

Lemma v4_name_address a b c d : well_formed (V4 a b c d) ->
  ptr_address (join [DOT] [show_octet d; show_octet c; show_octet b; show_octet a;
                           lit "in-addr"; lit "arpa"]) = Some (V4 a b c d).
Proof.
  intros (Ha & Hb & Hc & Hd). unfold ptr_address. rewrite split_join; [|done|].
  - cbn [reverse rev_append]. rewrite !bool_decide_eq_true_2 by done. cbn [negb].
    cbn [mapM mbind option_bind]. rewrite !octet_shown by done. done.
  - repeat (constructor; [by apply octet_labels|]). repeat constructor; by vm_compute.
Qed.

Lemma v6_name_address l : well_formed (V6 l) ->
  ptr_address (join [DOT] (((fun n => [hex_digit n]) <$> reverse (l ≫= nibbles))
                           ++ [lit "ip6"; lit "arpa"])) = Some (V6 l).
Proof.
  intros [Hlen Hl]. destruct (nibble_labels (reverse (l ≫= nibbles))) as [_ Hne].
  { apply Forall_reverse, nibbles_range. }
  destruct (nibble_labels _ (nibbles_range l)) as [Hm _].
  unfold ptr_address. rewrite split_join.
  - rewrite reverse_app, <- fmap_reverse, reverse_involutive.
    change (reverse [lit "ip6"; lit "arpa"]) with [lit "arpa"; lit "ip6"]. cbn [app].
    rewrite bool_decide_eq_true_2 by done. cbn [negb].
    rewrite bool_decide_eq_false_2 by done. rewrite bool_decide_eq_true_2 by done.
    unfold text in *. rewrite Hm, nibbles_length, Hlen. simpl Nat.eqb. cbn match.
    by rewrite segments_of_nibbles.
  - by destruct ((fun n : Z => [hex_digit n]) <$> reverse (l ≫= nibbles)).
  - apply Forall_app; split; [done|]. repeat constructor; by vm_compute.
Qed.

(** C24: reverse names are faithful: whenever the host text is an IP address, its PTR name
    reads back as that address (octets or nibbles least significant first, under
    [in-addr.arpa] or [ip6.arpa]), so two addresses never share a reverse name. *)
Theorem ptr_round_trip host i :
  parse_ip host = Some i -> ptr_address (format_ptr_query host) = Some i.
Proof.
  intros H. unfold format_ptr_query. rewrite H. apply parse_ip_reads in H as [Hw _].
  destruct i as [a b c d|l].
  - by rewrite <- v4_name_address.
  - rewrite <- v6_name_address by done. f_equal. rewrite join_app; [done| |done].
    destruct Hw as [Hl _]. intros E. apply (f_equal length) in E. revert E.
    rewrite length_fmap, length_reverse, nibbles_length, Hl. done.
Qed.

Lemma ptr_round_trip_witness :
  ptr_address (format_ptr_query (lit "2001:db8::1.2.3.4"))
  = Some (V6 [8193; 3512; 0; 0; 0; 0; 258; 772]).
Proof. apply ptr_round_trip. vm_compute. reflexivity. Defined.

Lemma format_ptr_query_name host i : parse_ip host = Some i ->
  exists front, format_ptr_query host = front ++ lit ".arpa".
Proof.
  intros H. unfold format_ptr_query. rewrite H. destruct i as [a b c d|l]; eexists.
  - change (lit ".in-addr.arpa") with (lit ".in-addr" ++ lit ".arpa"). by rewrite !app_assoc.
  - change (lit ".ip6.arpa") with (lit ".ip6" ++ lit ".arpa"). by rewrite !app_assoc.
Qed.

(** Formatting a PTR query is idempotent on every text: a reverse name is never read as
    an address again, and text that is no address is passed through unchanged. *)
Theorem ptr_idempotent host : format_ptr_query (format_ptr_query host) = format_ptr_query host.
Proof.
  destruct (parse_ip host) as [i|] eqn:H.
  - destruct (format_ptr_query_name host i H) as [front ->]. unfold format_ptr_query.
    destruct (parse_ip (front ++ lit ".arpa")) as [j|] eqn:Hj; [|done]. exfalso.
    apply parse_ip_reads in Hj as [_ Hj]. apply Forall_app in Hj as [_ Hj].
    apply Forall_inv_tail, Forall_inv_tail, Forall_inv in Hj.
    destruct Hj as [Hj|[Hj|Hj]]; [|discriminate Hj..]. by apply Hj.
  - unfold format_ptr_query at 2 3. rewrite H. unfold format_ptr_query. by rewrite H.
Qed.

(** *** Resolver addresses *)

(** What trimming keeps: nothing, or a text that starts and ends with kept characters. *)
Lemma trim_start_spec f s :
  (exists pre, s = pre ++ trim_start f s /\ Forall (fun c => f c = true) pre) /\
  match trim_start f s with [] => True | c :: _ => f c = false end.
Proof.
  induction s as [|c s [(pre & E & Hp) Hh]]; simpl; [split; [by exists []|done]|].
  destruct (f c) eqn:Ec.
  - split; [|done]. exists (c :: pre). split; [by rewrite E at 1|by constructor].
  - split; [by exists []|done].
Qed.

Definition trimmed (f : Z -> bool) (s : text) : Prop :=
  match s with [] => True | c :: _ => f c = false end /\
  match last s with None => True | Some c => f c = false end.

Lemma last_reverse {A} (l : list A) : last (reverse l) = head l.
Proof. destruct l as [|x l]; [done|]. by rewrite reverse_cons, last_snoc. Qed.

Lemma trim_start_fixed f s : match s with [] => True | c :: _ => f c = false end -> trim_start f s = s.
Proof. destruct s as [|c s]; simpl; [done|]. by intros ->. Qed.

Lemma trim_fixed f s : trimmed f s -> trim_matches f s = s.
Proof.
  intros [Hh Hl]. unfold trim_matches. rewrite (trim_start_fixed f s Hh).
  rewrite trim_start_fixed; [apply reverse_involutive|].
  rewrite <- (reverse_involutive s), last_reverse in Hl. by destruct (reverse s).
Qed.

Lemma trim_matches_spec f s :
  trimmed f (trim_matches f s) /\ exists pre post, s = pre ++ trim_matches f s ++ post.
Proof.
  unfold trim_matches. destruct (trim_start_spec f s) as [(pre & E1 & _) Hh].
  set (s1 := trim_start f s) in *. destruct (trim_start_spec f (reverse s1)) as [(post & E2 & _) Hh2].
  set (s2 := trim_start f (reverse s1)) in *.
  assert (E3 : s1 = reverse s2 ++ reverse post).
  { rewrite <- reverse_app, <- E2. by rewrite reverse_involutive. }
  split; [split|].
  - rewrite E3 in Hh. by destruct (reverse s2).
  - rewrite last_reverse. by destruct s2.
  - exists pre, (reverse post). rewrite <- E3. exact E1.
Qed.

Lemma trim_matches_In f s c : c ∈ trim_matches f s -> c ∈ s.
Proof.
  intros Hc. destruct (trim_matches_spec f s) as (_ & pre & post & ->).
  apply elem_of_app; right. apply elem_of_app; by left.
Qed.

(** Trimming takes exactly the trimmed characters off both ends. *)
Lemma trim_start_app f pre mid : Forall (fun c => f c = true) pre ->
  match mid with [] => True | c :: _ => f c = false end -> trim_start f (pre ++ mid) = mid.
Proof.
  intros Hp Hm. induction Hp as [|c pre Hc Hp IH]; simpl; [|by rewrite Hc].
  destruct mid; simpl; [done|]. by rewrite Hm.
Qed.

Lemma trim_matches_app f pre mid post :
  Forall (fun c => f c = true) pre -> Forall (fun c => f c = true) post ->
  Forall (fun c => f c = false) mid -> mid <> [] ->
  trim_matches f (pre ++ mid ++ post) = mid.
Proof.
  intros Hpre Hpost Hmid Hne. unfold trim_matches.
  rewrite (trim_start_app f pre); [|done|].
  - rewrite reverse_app, trim_start_app; [apply reverse_involutive|by apply Forall_reverse|].
    apply Forall_reverse in Hmid. case_match; [done|]. by apply Forall_inv in Hmid.
  - destruct mid; [done|]. by apply Forall_inv in Hmid.
Qed.

Lemma whitespace_range c : is_whitespace c = true -> c <= 32 \/ 132 < c.
Proof. unfold is_whitespace. rewrite !orb_true_iff, andb_true_iff, andb_true_iff. lia. Qed.

Definition is_bracket (c : Z) : bool := (c =? OPEN) || (c =? CLOSE).

(** What may surround a bare address: blanks outside, brackets inside. *)
Lemma surrounded_no_digit m post : Forall (fun c => is_whitespace c = true) post ->
  ends_number 10 (replicate m CLOSE ++ post).
Proof.
  intros Hp. destruct m as [|m]; simpl; [|done].
  destruct Hp; simpl; [done|]. by apply not_a_digit, whitespace_range.
Qed.

Lemma surrounded_no_port m post : Forall (fun c => is_whitespace c = true) post ->
  read_port (replicate m CLOSE ++ post) = None.
Proof.
  intros Hp. destruct m as [|m]; [|done]. destruct Hp as [|c post Hc]; [done|].
  unfold read_port. simpl. apply whitespace_range in Hc.
  destruct (Z.eqb_spec c COLON); [unfold COLON in *; lia|done].
Qed.

Lemma surrounded_no_socket pre n a b c d m post : well_formed (V4 a b c d) ->
  Forall (fun c => is_whitespace c = true) pre -> Forall (fun c => is_whitespace c = true) post ->
  parse_socket (pre ++ replicate n OPEN ++ show_v4 a b c d ++ replicate m CLOSE ++ post) = None.
Proof.
  intros Hw Hpre Hpost. unfold parse_socket, read_socket.
  destruct Hpre as [|x pre Hx Hpre]; cbn [app].
  - destruct n as [|[|n]]; cbn [replicate app].
    + rewrite read_shown_v4 by auto using surrounded_no_digit. cbn [mbind option_bind].
      rewrite surrounded_no_port by done. cbn [mbind option_bind].
      destruct (show_v4_chars a b c d Hw) as (_ & x & s & -> & Hx). cbn [app read_char].
      unfold octet_char in Hx. destruct (Z.eqb_spec x OPEN); [unfold OPEN in *; lia|done].
    + rewrite read_ipv4_other by done. cbn [mbind option_bind read_char].
      change (OPEN =? OPEN) with true. cbn match. cbn [mbind option_bind].
      by rewrite read_ipv6_v4 by auto using surrounded_no_digit.
    + done.
  - apply whitespace_range in Hx. rewrite read_ipv4_other by (by apply not_a_digit).
    cbn [mbind option_bind read_char].
    destruct (Z.eqb_spec x OPEN); [unfold OPEN in *; lia|done].
Qed.

(** A resolver given as a bare dotted quad gets port 53, however many blanks surround it
    and whatever brackets enclose it: the first parse (which needs a port) always fails on
    such a text, the two trims strip exactly the surroundings, and the second parse reads
    the address back. *)
Theorem bare_resolver_gets_port_53 `{ErrorTypes} pre n a b c d m post :
  well_formed (V4 a b c d) ->
  Forall (fun c => is_whitespace c = true) pre -> Forall (fun c => is_whitespace c = true) post ->
  parse_resolver (pre ++ replicate n OPEN ++ show_v4 a b c d ++ replicate m CLOSE ++ post)
  = Ok (mk_socket (V4 a b c d) 53 0).
Proof.
  intros Hw Hpre Hpost. unfold parse_resolver. rewrite surrounded_no_socket by done.
  destruct (show_v4_chars a b c d Hw) as (Hchars & x & s & Hx & _).
  assert (Hne : show_v4 a b c d <> []) by (by rewrite Hx).
  replace (replicate n OPEN ++ show_v4 a b c d ++ replicate m CLOSE ++ post)
    with ((replicate n OPEN ++ show_v4 a b c d ++ replicate m CLOSE) ++ post)
    by (by rewrite <- !app_assoc).
  rewrite trim_matches_app; [|done|done| |].
  - rewrite trim_matches_app; [| | | |done].
    + unfold parse_ip, read_ip. rewrite <- (app_nil_r (show_v4 a b c d)).
      by rewrite read_shown_v4.
    + by apply Forall_replicate.
    + by apply Forall_replicate.
    + eapply Forall_impl; [done|]. intros y Hy. unfold octet_char, DOT, OPEN, CLOSE in *.
      destruct (Z.eqb_spec y 91), (Z.eqb_spec y 93); lia || done.
  - rewrite !Forall_app. split; [|split]; [by apply Forall_replicate| |by apply Forall_replicate].
    eapply Forall_impl; [done|]. intros y Hy. unfold octet_char, DOT in *.
    destruct (is_whitespace y) eqn:E; [apply whitespace_range in E; lia|done].
  - intros E. apply app_nil in E as [_ E]. by apply app_nil in E as [E _].
Qed.

Lemma bare_resolver_gets_port_53_witness :
  parse_resolver (H := demo_errors) (lit "  [192.168.0.1] ") = Ok (mk_socket (V4 192 168 0 1) 53 0).
Proof.
  apply (bare_resolver_gets_port_53 [32; 32] 1 192 168 0 1 1 [32]).
  - vm_compute. repeat split; discriminate.
  - repeat constructor.
  - repeat constructor.
Defined.

(** ** The descriptor check *)

(** A system that lets the soft limit be raised to the hard one. *)
Definition raisable (soft hard : Z) : rlimit_calls :=
  mk_rlimit_calls (Some (mk_rlimit soft hard)) (Ok tt) (Some (mk_rlimit hard hard)).

(** There the check passes exactly when the hard limit covers the sockets the
    configuration can open. *)
Lemma check_ulimits_spec soft hard conc resolvers persistent :
  soft <= hard ->
  check_ulimits (raisable soft hard) conc resolvers persistent = Ok tt
  <-> required_fds conc resolvers persistent <= hard.
Proof.
  intros Hle. unfold check_ulimits. cbn [raisable first_read raise second_read rlim_cur rlim_max].
  destruct (Z.ltb_spec soft hard); cbn match; cbn [rlim_cur].
  - destruct (Z.ltb_spec hard (required_fds conc resolvers persistent)); split; intros; done || lia.
  - destruct (Z.ltb_spec soft (required_fds conc resolvers persistent)); split; intros; done || lia.
Qed.

(** ** Addresses with something after them *)

Lemma hex_char_range c : hex_char c -> 48 <= c <= 90 \/ 97 <= c <= 102.
Proof.
  unfold hex_char, to_digit. intros H.
  destruct (Z.leb_spec 48 c), (Z.leb_spec c 57); simpl in H; try lia;
    destruct (Z.leb_spec 97 c), (Z.leb_spec c 122); simpl in H; try lia;
    destruct (Z.leb_spec 65 c), (Z.leb_spec c 90); simpl in H; try lia; try done;
    match type of H with context [?v <? 16] => destruct (Z.ltb_spec v 16) end; done || lia.
Qed.

Lemma address_char_plain c : address_char c -> is_whitespace c = false /\ is_bracket c = false.
Proof.
  intros Hc. assert (46 <= c <= 90 \/ 97 <= c <= 102) as Hr.
  { destruct Hc as [Hc|[-> | ->]]; [apply hex_char_range in Hc; lia|unfold DOT; lia|unfold COLON; lia]. }
  split.
  - destruct (is_whitespace c) eqn:E; [apply whitespace_range in E; lia|done].
  - unfold is_bracket, OPEN, CLOSE. destruct (Z.eqb_spec c 91), (Z.eqb_spec c 93); lia || done.
Qed.

(** A text of address characters that does not start with a dotted quad is read as a bare
    address or refused. *)
Lemma parse_resolver_bare `{ErrorTypes} s :
  Forall address_char s -> s <> [] -> read_ipv4 s = None ->
  parse_resolver s = match parse_ip s with
                     | Some i => Ok (mk_socket i 53 0)
                     | None => Err (InvalidResolver s AddrKindSocket)
                     end.
Proof.
  intros Hs Hne H4. unfold parse_resolver.
  assert (parse_socket s = None) as ->.
  { unfold parse_socket, read_socket. rewrite H4. cbn [mbind option_bind].
    destruct s as [|c s]; [done|]. apply Forall_inv, address_char_plain in Hs as [_ Hb].
    unfold is_bracket in Hb. simpl. by destruct (Z.eqb_spec c OPEN) as [->|]. }
  assert (Htrim : forall f, (forall c, address_char c -> f c = false) -> trim_matches f s = s).
  { intros f Hf. rewrite <- (app_nil_r s) at 1. apply (trim_matches_app f [] s []); [done..| |done].
    eapply Forall_impl; [exact Hs|exact Hf]. }
  rewrite !Htrim; [done|..]; intros c Hc; by apply address_char_plain in Hc as [? ?].
Qed.

(** The printed forms of an address are made of address characters. *)
Lemma show_segments_chars gs : Forall is_segment gs -> Forall address_char (show_segments gs).
Proof.
  intros Hgs. destruct Hgs as [|g gs Hg Hgs]; [constructor|]. rewrite show_segments_cons.
  assert (Hh : forall g, is_segment g -> Forall address_char (show_hex g)).
  { intros x Hx. destruct (segment_shown x Hx) as (_ & Hc & _).
    eapply Forall_impl; [exact Hc|by left]. }
  apply Forall_app; split; [by apply Hh|]. unfold groups_text.
  induction Hgs as [|x gs Hx Hgs IH]; [constructor|]. rewrite bind_cons.
  apply Forall_app; split; [|exact IH]. constructor; [by right; right|by apply Hh].
Qed.

Lemma show_v4_address_chars a b c d : well_formed (V4 a b c d) -> Forall address_char (show_v4 a b c d).
Proof.
  intros Hw. destruct (show_v4_chars a b c d Hw) as [Hc _]. eapply Forall_impl; [exact Hc|].
  intros x [Hx| ->]; [left|by right; left]. unfold octet_char in Hx. unfold hex_char, to_digit.
  destruct (Z.leb_spec 48 x), (Z.leb_spec x 57); try lia. cbn [andb].
  destruct (Z.ltb_spec (x - 48) 16); [done|lia].
Qed.

Lemma snoc_cons_eq {A} (l : list A) a b : l ++ [a] = b :: l -> a = b.
Proof.
  revert b. induction l as [|x l IH]; intros b E; simpl in E; [congruence|].
  injection E as -> E. by apply IH.
Qed.

(** *** [":53"] after an address *)

Definition port_53 : text := lit ":53".

Lemma mapped_with_port a b c d : well_formed (V4 a b c d) ->
  exists l, read_ip ((lit "::ffff:" ++ show_v4 a b c d) ++ port_53) = Some (V6 l, port_53).
Proof. intros Hw. eexists. by apply read_shown_mapped. Qed.

Lemma compressed_with_port hs z ts : Forall is_segment hs -> Forall is_segment ts ->
  (1 < z)%nat -> (length hs + z + length ts = 8)%nat ->
  parse_ip ((show_segments hs ++ COLON :: COLON :: show_segments ts) ++ port_53) =
  match ts with
  | [] => None
  | _ => Some (V6 (hs ++ replicate (z - 1) 0 ++ ts ++ [83]))
  end.
Proof.
  intros Hhs Hts Hz Hlen. rewrite <- app_assoc. cbn [app]. unfold parse_ip. destruct ts as [|t ts].
  - rewrite read_compressed by (done || lia). cbn [show_segments fmap list_fmap join app].
    destruct (8 - (length hs + 1))%nat as [|[|r]]; done.
  - assert (Es : show_segments (t :: ts) ++ port_53 = show_segments ((t :: ts) ++ [83]) ++ []).
    { rewrite show_segments_snoc, app_nil_r by done. done. }
    rewrite Es, read_compressed_groups; [|done| | |done].
    + simpl. do 3 f_equal. f_equal. f_equal. rewrite length_app in *. simpl in *. lia.
    + apply Forall_app; split; [done|]. constructor; [unfold is_segment; lia|constructor].
    + rewrite length_app. simpl in *. lia.
Qed.
