(* ===== verification/Dns.v ===== *)
(** * What the program reads of the DNS library

    Names, record types, records and responses belong to the DNS library; the class
    [DnsTypes] lists what the rest of the program asks of them.  [demo_dns] is a
    concrete instance, to evaluate examples with. *)

From Stdlib Require Import Ascii String.
From stdpp Require Import list countable.
From S2P Require Import Prelude Addresses Errors Cache.
#[local] Open Scope Z_scope.
#[local] Open Scope list_scope.

Inductive ResponseCode := NoError | NXDomain | OtherCode (code : Z).

#[export] Instance ResponseCode_eq_dec : EqDecision ResponseCode.
Proof. solve_decision. Defined.

Class DnsTypes `{ErrorTypes} := {
  Name : Type;
  Name_eq_dec :: EqDecision Name;
  RecordType : Type;
  RecordType_eq_dec :: EqDecision RecordType;
  RecordType_countable :: Countable RecordType;
  PTR : RecordType;
  DnsRecord : Type;
  record_ttl : DnsRecord -> Z;                      (* [record.ttl()] *)
  record_data : DnsRecord -> text;                  (* [record.data().to_string()] *)
  DnsResponse : Type;
  answers : DnsResponse -> list DnsRecord;
  truncated : DnsResponse -> bool;
  response_code : DnsResponse -> ResponseCode;
  from_ascii : text -> result Name ProtoError;   (* [Name::from_ascii] *)
  parse_name : text -> result Name ProtoError;   (* [str::parse] to a [Name] *)
  record_type_from_str : text -> option RecordType;
  record_type_text : RecordType -> text;
}.

Section Dns.
Context `{DnsTypes}.

(** [Query::query]: the question of a name and a record type, class IN. *)
Definition Query : Type := Name * RecordType.
Definition question (name : Name) (record_type : RecordType) : Query := (name, record_type).

#[export] Instance response_ttls : ResponseTtls DnsResponse := fun r => record_ttl <$> answers r.

Definition has_answers (r : DnsResponse) : bool :=
  match answers r with [] => false | _ => true end.

(** [records.iter().map(|record| record.data().to_string())]. *)
Definition rdata_strings (r : DnsResponse) : list text := record_data <$> answers r.

Lemma rdata_strings_empty r : rdata_strings r = [] <-> has_answers r = false.
Proof. unfold rdata_strings, has_answers. by destruct (answers r). Qed.

Lemma no_ttls r : answer_ttls r = [] <-> has_answers r = false.
Proof. unfold answer_ttls, response_ttls, has_answers. by destruct (answers r). Qed.
End Dns.

(** ** A concrete instance *)

(** A name is its text, an empty one is refused; a record type is its number. *)
Record demo_response := mk_demo {
  demo_answers : list (Z * text); demo_truncated : bool; demo_code : ResponseCode
}.
Definition demo_name (s : text) : result text text :=
  match s with [] => Err (lit "empty") | _ => Ok s end.
Definition demo_type (s : text) : option Z :=
  if bool_decide (s = lit "A") then Some 1 else if bool_decide (s = lit "PTR") then Some 12 else None.
Definition demo_type_text (t : Z) : text := if t =? 12 then lit "PTR" else lit "A".

#[local] Existing Instance demo_errors.

Definition demo_dns : @DnsTypes demo_errors := {|
  Name := text; RecordType := Z; PTR := 12; DnsRecord := Z * text;
  record_ttl := fst; record_data := snd;
  DnsResponse := demo_response; answers := demo_answers; truncated := demo_truncated;
  response_code := demo_code; from_ascii := demo_name; parse_name := demo_name;
  record_type_from_str := demo_type; record_type_text := demo_type_text
|}.
