(* ===== verification/Worker.v ===== *)
(** * Workers: [worker.rs]

    [query] and [refetch_over_tcp] as functions of what the DNS library reports, and the
    worker loop ([run]) one atomic action at a time, composed with the pool, the two
    rate limiters and the attempt pacer.  [step] interleaves any number of workers with
    senders, the clock, the pacer's refills and the controller's rate changes. *)

From Stdlib Require Import Ascii String.
From stdpp Require Import list.
From S2P Require Import Prelude Float64 Extern Limiter Config Addresses Errors Health Pool Utils Dns.
#[local] Open Scope Z_scope.
#[local] Open Scope list_scope.

Module ResolverWorker.
Section ResolverWorker.
Context `{DnsTypes} {S : Type} `{SemaphoreOps S}.
Abbreviation health := (ResolverHealth.t SocketAddress S).
Abbreviation exchange := (ResolverHealth.exchange BlastDNSError DnsResponse).

Record QuerySpec := mk_query { host : text; record_type : RecordType }.

(** The [responder] is the identity of the one-shot channel the answer goes to. *)
Record WorkItem := mk_item { query : QuerySpec; responder : nat }.
Definition new (query : QuerySpec) (responder : nat) : WorkItem := mk_item query responder.

(** ** One query *)

(** Connecting over TCP, then the answer that came back; [None] is TCP unavailable. *)
Definition refetch_over_tcp (tcp_client : result unit BlastDNSError)
    (answer : result DnsResponse ClientError) : option DnsResponse :=
  match tcp_client with
  | Err _ => None
  | Ok _ => match answer with Ok response => Some response | Err _ => None end
  end.

(** What the reply of the resolver leaves to do: nothing, or to ask again over TCP. *)
Inductive progress :=
| Done (r : result DnsResponse BlastDNSError)
| Refetch (partial : DnsResponse).

(** [query] up to its first wait, from there to its end or to the TCP refetch, and the
    rest; the clock is read once for the elapsed time and the sample's window. *)
Definition begin_query (h : health) : health := ResolverHealth.record_dispatch h.

Definition on_reply (x : exchange) (started now : Z) (h : health) : health * progress :=
  match ResolverHealth.query_bounded h x with
  | Ok response =>
      if truncated response then (ResolverHealth.record_truncated h, Refetch response)
      else (ResolverHealth.record_response (duration_since now started) (has_answers response) now h,
            Done (Ok response))
  | Err err => (ResolverHealth.record_error (is_timeout err) now h, Done (Err err))
  end.

Definition on_refetch (full : option DnsResponse) (partial : DnsResponse) (started now : Z) (h : health)
    : health * result DnsResponse BlastDNSError :=
  let response := from_option id partial full in
  (ResolverHealth.record_response (duration_since now started) (has_answers response) now h, Ok response).

(** ** The worker loop *)

(** Where a worker stands between two atomic actions of [run]. *)
Inductive stage :=
| Receiving
| Limiting (item : WorkItem) (name : Name) (at_pc : RateLimiter.pc)
| Reserving (item : WorkItem) (name : Name)
| Rating (item : WorkItem) (name : Name) (k : nat) (at_pc : RateLimiter.pc)
| Arriving (item : WorkItem) (name : Name) (k : nat)     (* about to enter the pacer *)
| Pacing (item : WorkItem) (name : Name) (k : nat)
| Sending (item : WorkItem) (name : Name) (k : nat)
| Querying (item : WorkItem) (name : Name) (k : nat) (started : Z)
| Refetching (item : WorkItem) (name : Name) (k : nat) (started : Z) (partial : DnsResponse)
| Stopped.

Definition reply : Type := nat * result DnsResponse BlastDNSError.

(** [reserving] holds the pool, the clock, and where each worker stands in [reserve];
    [accepted] and [replies] are the history, oldest first. *)
Record sys := mk_sys {
  queue : list WorkItem;
  capacity : Z;
  closed : bool;
  reserving : ResolverPool.sys SocketAddress S;
  limiter : RateLimiter.t;
  pacer : AttemptPacer.sys S;
  workers : list stage;
  accepted : list WorkItem;
  replies : list reply
}.
#[global] Instance sys_settable : Settable sys := fun s =>
  mk_sys (queue s) (capacity s) (closed s) (reserving s) (limiter s) (pacer s) (workers s)
    (accepted s) (replies s).

Definition clock (s : sys) : Z := ResolverPool.clock (reserving s).
Definition resolvers (s : sys) : list health := ResolverPool.resolvers (ResolverPool.pool (reserving s)).
Definition task (w : nat) (s : sys) : option ResolverPool.pc := ResolverPool.tasks (reserving s) !! w.

Definition goto (w : nat) (st : stage) (s : sys) : sys := s <| workers := <[w := st]> (workers s) |>.

(** Worker [w] enters or leaves [reserve]; leaving drops the permit it holds. *)
Definition retask (w : nat) (a b : ResolverPool.pc) (s : sys) : sys :=
  s <| reserving := ResolverPool.move w a b (reserving s) |>.

(** [responder.send(result)], and on to the next item. *)
Definition respond (w : nat) (item : WorkItem) (r : result DnsResponse BlastDNSError) (s : sys) : sys :=
  goto w Receiving (s <| replies := replies s ++ [(responder item, r)] |>).

Definition set_health (k : nat) (h : health) (s : sys) : sys :=
  s <| reserving := (reserving s) <| ResolverPool.pool :=
         ResolverPool.update k h (ResolverPool.pool (reserving s)) |> |>.

(** Taking the first [w] out of a list. *)
Fixpoint remove_one (w : nat) (l : list nat) : option (list nat) :=
  match l with
  | [] => None
  | x :: l' => if decide (x = w) then Some l' else l'' ← remove_one w l'; Some (x :: l'')
  end.

(** After an action of worker [w] on the pacer, it is through if the pacer let one more go. *)
Definition pacer_action (w : nat) (p' : AttemptPacer.sys S) (through waiting : stage) (s : sys) : sys :=
  goto w (if (length (AttemptPacer.sent (pacer s)) <? length (AttemptPacer.sent p'))%nat
          then through else waiting) (s <| pacer := p' |>).

(** What the environment contributes to a worker's action. *)
Inductive input :=
| Go (spurious : bool)
| Reply (x : exchange)
| TcpReply (tcp_client : result unit BlastDNSError) (answer : result DnsResponse ClientError).

(** The next atomic action of worker [w]; [None] when it has to wait. *)
Definition advance (w : nat) (x : input) (s : sys) : option sys :=
  st ← workers s !! w;
  match st, x with
  | Receiving, Go _ =>
      match queue s with
      | [] => if closed s then Some (goto w Stopped s) else None
      | item :: queue' =>
          let s := s <| queue := queue' |> in
          match from_ascii (host (query item)) with
          | Ok name => Some (goto w (Limiting item name RateLimiter.Called) s)
          | Err source => Some (respond w item (Err (InvalidHostname (host (query item)) source)) s)
          end
      end
  | Limiting item name a, Go spurious =>
      let '(l, a') := RateLimiter.acquire_step spurious (clock s) (limiter s) a in
      let s := s <| limiter := l |> in
      match a' with
      | RateLimiter.Returned _ _ =>
          Some (goto w (Reserving item name) (retask w ResolverPool.Idle ResolverPool.Enter s))
      | _ => Some (goto w (Limiting item name a') s)
      end
  | Reserving item name, Go _ =>
      a ← task w s;
      match a with
      | ResolverPool.Reserved k => Some (goto w (Rating item name k RateLimiter.Called) s)
      | ResolverPool.NoneActive =>
          Some (respond w item (Err NoResolvers) (retask w ResolverPool.NoneActive ResolverPool.Idle s))
      | _ => Some (s <| reserving := ResolverPool.run_task w a (reserving s) |>)
      end
  | Rating item name k a, Go spurious =>
      h ← resolvers s !! k;
      let '(l, a') := RateLimiter.acquire_step spurious (clock s) (ResolverHealth.limiter h) a in
      let s := set_health k (h <| ResolverHealth.limiter := l |>) s in
      match a' with
      | RateLimiter.Returned _ _ => Some (goto w (Arriving item name k) s)
      | _ => Some (goto w (Rating item name k a') s)
      end
  | Arriving item name k, Go _ =>
      Some (pacer_action w (AttemptPacer.enter w (pacer s)) (Sending item name k) (Pacing item name k) s)
  | Pacing item name k, Go _ =>
      match remove_one w (AttemptPacer.counted (pacer s)) with
      | Some counted' =>
          Some (pacer_action w (AttemptPacer.poll w ((pacer s) <| AttemptPacer.counted := counted' |>))
                  (Sending item name k) (Pacing item name k) s)
      | None =>
          woken' ← remove_one w (AttemptPacer.woken (pacer s));
          Some (pacer_action w (AttemptPacer.leave w ((pacer s) <| AttemptPacer.woken := woken' |>))
                  (Sending item name k) (Pacing item name k) s)
      end
  | Sending item name k, Go _ =>
      h ← resolvers s !! k;
      Some (goto w (Querying item name k (clock s)) (set_health k (begin_query h) s))
  | Querying item name k started, Reply x =>
      h ← resolvers s !! k;
      let '(h', p) := on_reply x started (clock s) h in
      let s := set_health k h' s in
      match p with
      | Refetch partial => Some (goto w (Refetching item name k started partial) s)
      | Done r => Some (respond w item r (retask w (ResolverPool.Reserved k) ResolverPool.Idle s))
      end
  | Refetching item name k started partial, TcpReply tcp_client answer =>
      h ← resolvers s !! k;
      let '(h', r) := on_refetch (refetch_over_tcp tcp_client answer) partial started (clock s) h in
      Some (respond w item r (retask w (ResolverPool.Reserved k) ResolverPool.Idle (set_health k h' s)))
  | _, _ => None
  end.

(** ** Interleavings *)

Inductive action :=
| Act (w : nat) (x : input)
| Tick (d : Z)
| Send (item : WorkItem)
| Close
| Refill (seconds : f64)
| SetAttemptRate (r : option f64)
| SetGlobalRate (q : f64)
| SetResolverRate (k : nat) (q : f64).

Definition perform (a : action) (s : sys) : option sys :=
  match a with
  | Act w x => advance w x s
  | Tick d =>
      if 0 <=? d
      then Some (s <| reserving := (reserving s) <| ResolverPool.clock := clock s + d |> |>) else None
  | Send item =>
      if negb (closed s) && (Z.of_nat (length (queue s)) <? capacity s)
      then Some (s <| queue := queue s ++ [item] |> <| accepted := accepted s ++ [item] |>) else None
  | Close => Some (s <| closed := true |>)
  | Refill seconds => Some (s <| pacer := AttemptPacer.tick seconds (pacer s) |>)
  | SetAttemptRate r =>
      Some (s <| pacer := (pacer s) <| AttemptPacer.pacer :=
                            AttemptPacer.set_rate r (AttemptPacer.pacer (pacer s)) |> |>)
  | SetGlobalRate q => l ← RateLimiter.set_rate q (limiter s); Some (s <| limiter := l |>)
  | SetResolverRate k q =>
      h ← resolvers s !! k; h' ← ResolverHealth.set_rate q h; Some (set_health k h' s)
  end.

Definition step (s s' : sys) : Prop := exists a, perform a s = Some s'.

Fixpoint perform_all (acts : list action) (s : sys) : option sys :=
  match acts with
  | [] => Some s
  | a :: acts' => s' ← perform a s; perform_all acts' s'
  end.

(** [spawn]: [n] workers, with an empty queue, on a new pool after its startup probe
    (which every resolver passes when there is none). *)
Definition initial (addrs : list SocketAddress) (config : BlastDNSConfig) (n : nat) (s : sys) : Prop :=
  (exists p alive, ResolverPool.new addrs config (clock s) = Some p /\
     ResolverPool.pool (reserving s) = (ResolverPool.probe alive p).1) /\
  ResolverPool.tasks (reserving s) = replicate n ResolverPool.Idle /\
  pacer s = AttemptPacer.mk_sys AttemptPacer.new [] [] [] /\
  workers s = replicate n Receiving /\ queue s = [] /\ accepted s = [] /\ replies s = [].

(** The item a worker is at work on, and the resolver whose permit it holds. *)
Definition working_on (st : stage) : option WorkItem :=
  match st with
  | Receiving | Stopped => None
  | Limiting i _ _ | Reserving i _ | Rating i _ _ _ | Arriving i _ _ | Pacing i _ _ | Sending i _ _
  | Querying i _ _ _ | Refetching i _ _ _ _ => Some i
  end.
Definition holding (st : stage) : option nat :=
  match st with
  | Rating _ _ k _ | Arriving _ _ k | Pacing _ _ k | Sending _ _ k
  | Querying _ _ k _ | Refetching _ _ k _ _ => Some k
  | _ => None
  end.
(** The resolver with a query of this worker on the wire. *)
Definition asking (st : stage) : option nat :=
  match st with Querying _ _ k _ | Refetching _ _ k _ _ => Some k | _ => None end.

Definition count_at {A} `{EqDecision A} (f : stage -> option A) (a : A) (s : sys) : Z :=
  Z.of_nat (length (filter (fun st => f st = Some a) (workers s))).

End ResolverWorker.
End ResolverWorker.

(** ** Invariants of the fleet *)

Section WorkerProofs.
Import ResolverWorker.
Context `{DnsTypes} {S : Type} `{HO : SemaphoreOps S} `{!Semaphore S}.
Implicit Types (s : sys (S := S)) (h : ResolverHealth.t SocketAddress S) (st : stage).

(** Dispatched queries without an outcome. *)
Definition balance h : Z :=
  ResolverHealth.attempted h
  - (ResolverHealth.answered h + ResolverHealth.empty h + ResolverHealth.timeout h + ResolverHealth.error h).

Lemma balance_dispatch h : balance (ResolverHealth.record_dispatch h) ≡64 balance h + 1.
Proof. unfold balance. simpl. rewrite fetch_add_eq64. apply eq64_refl. lia. Qed.

Lemma balance_response rtt had now h :
  balance (ResolverHealth.record_response rtt had now h) ≡64 balance h - 1.
Proof.
  destruct (record_response_frame rtt had now h) as (E1 & E2 & E3 & E4 & E5 & _).
  unfold balance. rewrite E1, E2, E3, E4, E5. destruct had; rewrite fetch_add_eq64; apply eq64_refl; lia.
Qed.

Lemma balance_error timed now h : balance (ResolverHealth.record_error timed now h) ≡64 balance h - 1.
Proof.
  destruct (record_error_frame timed now h) as (E1 & E2 & E3 & E4 & E5 & _).
  unfold balance. rewrite E1, E2, E3, E4, E5. destruct timed; rewrite fetch_add_eq64; apply eq64_refl; lia.
Qed.

Lemma record_response_inflight rtt had now h :
  ResolverHealth.inflight (ResolverHealth.record_response rtt had now h) = ResolverHealth.inflight h.
Proof.
  unfold ResolverHealth.record_response.
  match goal with |- context [ResolverHealth.record_rtt ?r ?n ?g] =>
    destruct (record_rtt_frame r n g) as (_ & _ & _ & _ & _ & _ & _ & _ & _ & _ & _ & _ & -> & _) end.
  by destruct had.
Qed.

Lemma on_reply_balance x started now h :
  let '(h', p) := on_reply x started now h in
  balance h' ≡64 balance h - (match p with Done _ => 1 | Refetch _ => 0 end) /\
  ResolverHealth.inflight h' = ResolverHealth.inflight h.
Proof.
  unfold on_reply. destruct (ResolverHealth.query_bounded h x) as [response|err].
  - destruct (truncated response); [split; [apply eq64_refl; unfold balance; simpl; lia|done]|].
    split; [apply balance_response|apply record_response_inflight].
  - split; [apply balance_error|].
    by destruct (record_error_frame (is_timeout err) now h) as (_ & _ & _ & _ & _ & _ & _ & _ & _ & -> & _).
Qed.

(** What a worker's stage says of its place in [reserve]. *)
Definition stage_task st (a : ResolverPool.pc) : Prop :=
  match st with
  | Reserving _ _ => a <> ResolverPool.Idle
  | _ => a = match holding st with Some k => ResolverPool.Reserved k | None => ResolverPool.Idle end
  end.

Definition ids (l : list WorkItem) : list nat := responder <$> l.
Definition in_hand st : list nat := ids (option_list (working_on st)).

(** The one-shot channels that got their answer, and those that still will. *)
Definition answered_ids s : list nat := (replies s).*1.
Definition pending_ids s : list nat := ids (queue s) ++ (workers s ≫= in_hand).

Record fleet_ok (cap : Z) s : Prop := {
  fo_permits : permits_ok cap no_debt (reserving s);
  fo_length : length (workers s) = length (ResolverPool.tasks (reserving s));
  fo_tasks : forall w st a, workers s !! w = Some st -> task w s = Some a -> stage_task st a;
  fo_items : ids (accepted s) ≡ₚ pending_ids s ++ answered_ids s;
  fo_stopped : Stopped ∈ workers s -> closed s = true /\ queue s = [];
  fo_counts : forall k h, resolvers s !! k = Some h -> balance h ≡64 count_at asking k s;
}.

Definition asks st k : Z := if decide (asking st = Some k) then 1 else 0.

Lemma count_at_goto w st st' k s : workers s !! w = Some st ->
  count_at asking k (goto w st' s) = count_at asking k s - asks st k + asks st' k.
Proof.
  intros Hw. unfold count_at, asks. simpl.
  pose proof (count_insert (fun st => asking st = Some k) (workers s) w st st' Hw).
  repeat case_decide; lia.
Qed.

Lemma in_hand_insert w st st' (l : list stage) : l !! w = Some st ->
  in_hand st' ++ (l ≫= in_hand) ≡ₚ in_hand st ++ (<[w := st']> l ≫= in_hand).
Proof.
  revert w. induction l as [|x l IH]; intros [|w] Hw; simplify_eq/=.
  - rewrite !app_assoc. apply Permutation_app_tail, Permutation_app_comm.
  - rewrite (Permutation_app_swap_app (in_hand st')), (Permutation_app_swap_app (in_hand st)).
    by apply Permutation_app_head, IH.
Qed.

(** A worker goes from [st] to [st'], and only it: what that takes. *)
Record moves (cap : Z) (w : nat) st st' (b : ResolverPool.pc) s s' : Prop := {
  mv_workers : workers s' = <[w := st']> (workers s);
  mv_permits : permits_ok cap no_debt (reserving s');
  mv_tasks : only_woken (<[w := b]> (ResolverPool.tasks (reserving s))) (ResolverPool.tasks (reserving s'));
  mv_stage : stage_task st' b;
  mv_accepted : accepted s' = accepted s;
  mv_items : in_hand st' ++ ids (queue s') ++ answered_ids s' ≡ₚ
             in_hand st ++ ids (queue s) ++ answered_ids s;
  mv_closed : closed s' = closed s;
  mv_queue : queue s = [] -> queue s' = [];
  mv_stopped : st' = Stopped -> closed s' = true /\ queue s' = [];
  mv_counts : forall k h', resolvers s' !! k = Some h' ->
    exists h, resolvers s !! k = Some h /\ balance h' ≡64 balance h - asks st k + asks st' k;
}.

Lemma moves_ok cap w st st' b s s' :
  fleet_ok cap s -> workers s !! w = Some st -> moves cap w st st' b s s' -> fleet_ok cap s'.
Proof.
  intros [Hp Hlen Ht Hi Hst Hc] Hw [Mw Mp [Ml Mt] Ms Ma Mi Mc Mq Mst Mcount]. split.
  - done.
  - rewrite Mw, Ml, !length_insert. done.
  - intros w' st2 a. rewrite Mw. unfold task. intros Hw' Ha.
    assert (w < length (ResolverPool.tasks (reserving s)))%nat
      by (rewrite <- Hlen; by eapply lookup_lt_Some).
    destruct (decide (w' = w)) as [->|Hne].
    + rewrite list_lookup_insert_eq in Hw' by (by eapply lookup_lt_Some). simplify_eq.
      specialize (Mt w). rewrite list_lookup_insert_eq in Mt by done.
      destruct Mt as [Mt|(k & Mk & Mt)]; [congruence|]. simplify_eq.
      destruct st2; simpl in *; congruence.
    + rewrite list_lookup_insert_ne in Hw' by done.
      specialize (Mt w'). rewrite list_lookup_insert_ne in Mt by done.
      destruct Mt as [Mt|(k & Mk & Mt)]; [apply (Ht w'); [done|]; unfold task; congruence|].
      specialize (Ht w' st2 _ Hw' Mk). destruct st2; simpl in *; congruence.
  - rewrite Ma, Hi. unfold pending_ids. rewrite Mw.
    apply (Permutation_app_inv_l (in_hand st)). rewrite <- !app_assoc.
    rewrite (Permutation_app_swap_app (ids (queue s')) (<[w := st']> (workers s) ≫= in_hand)).
    rewrite (app_assoc (in_hand st) (_ ≫= _)), <- (in_hand_insert w st st' _ Hw), <- app_assoc.
    rewrite (Permutation_app_swap_app (in_hand st') (workers s ≫= in_hand)), Mi.
    rewrite (Permutation_app_swap_app (ids (queue s)) (workers s ≫= in_hand)).
    apply Permutation_app_swap_app.
  - rewrite Mw. intros Hin. apply list_elem_of_lookup_1 in Hin as [w' Hw'].
    destruct (decide (w' = w)) as [->|Hne].
    + rewrite list_lookup_insert_eq in Hw' by (by eapply lookup_lt_Some). simplify_eq. by apply Mst.
    + rewrite list_lookup_insert_ne in Hw' by done.
      destruct Hst as [Hcl Hq]; [by eapply list_elem_of_lookup_2|]. rewrite Mc. auto.
  - intros k h' Hk. destruct (Mcount k h' Hk) as (h & Hh & ->). rewrite (Hc k h Hh).
    pose proof (count_at_goto w st st' k s Hw) as E. unfold count_at in *. simpl in E.
    rewrite Mw, E. done.
Qed.

Lemma task_of cap w st s : fleet_ok cap s -> workers s !! w = Some st ->
  exists a, task w s = Some a /\ stage_task st a.
Proof.
  intros Hs Hw. destruct (task w s) as [a|] eqn:Ha.
  - exists a. split; [done|]. by apply (fo_tasks _ _ Hs w).
  - apply lookup_ge_None_1 in Ha. apply lookup_lt_Some in Hw. rewrite (fo_length _ _ Hs) in Hw. lia.
Qed.

Lemma balance_permits sem h : balance (h <| ResolverHealth.inflight := sem |>) = balance h.
Proof. done. Qed.

(** Resolvers after permits moved. *)
Lemma permits_lookup rs rs' k h' : only_permits rs rs' -> rs' !! k = Some h' ->
  exists h, rs !! k = Some h /\ balance h' = balance h.
Proof.
  intros Hp Hk. destruct (Forall2_lookup_r _ _ _ _ _ Hp Hk) as (h & Hh & sem & ->). eauto.
Qed.

(** What is shared stays the same, the limiter and the pacer apart. *)
Definition same_core s s1 : Prop :=
  queue s1 = queue s /\ reserving s1 = reserving s /\ workers s1 = workers s /\
  accepted s1 = accepted s /\ replies s1 = replies s /\ closed s1 = closed s.

Lemma plain_move cap w st st' a s s1 :
  fleet_ok cap s -> workers s !! w = Some st -> task w s = Some a -> stage_task st' a ->
  working_on st' = working_on st -> asking st' = asking st -> st' <> Stopped -> same_core s s1 ->
  moves cap w st st' a s (goto w st' s1).
Proof.
  intros Hs Hw Ha Hst' Hwk Hask Hns (E1 & E2 & E3 & E4 & E5 & E6).
  split; simpl; rewrite ?E1, ?E2, ?E3, ?E4, ?E6; try done.
  - apply Hs.
  - unfold task in Ha. by rewrite list_insert_id.
  - unfold in_hand, answered_ids. simpl. by rewrite Hwk, E5.
  - intros k h' Hk. unfold resolvers in Hk. simpl in Hk. rewrite E2 in Hk. exists h'. split; [done|].
    unfold asks. rewrite Hask. apply eq64_refl. lia.
Qed.

(** A worker that records something at resolver [k] and keeps its place. *)
Lemma health_move cap w st st' a k h h' s :
  fleet_ok cap s -> workers s !! w = Some st -> task w s = Some a -> stage_task st' a ->
  working_on st' = working_on st -> st' <> Stopped ->
  resolvers s !! k = Some h -> ResolverHealth.inflight h' = ResolverHealth.inflight h ->
  balance h' ≡64 balance h - asks st k + asks st' k ->
  (forall k', k' <> k -> asks st' k' = asks st k') ->
  moves cap w st st' a s (goto w st' (set_health k h' s)).
Proof.
  intros Hs Hw Ha Hst' Hwk Hns Hk Hin Hb Hother. split; try done.
  - simpl. eapply step_ok; [|apply (fo_permits _ _ Hs)]. by eapply ResolverPool.step_health.
  - simpl. unfold task in Ha. by rewrite list_insert_id.
  - unfold in_hand, answered_ids. simpl. by rewrite Hwk.
  - intros k' h2 Hk'. unfold resolvers in Hk'. cbn in Hk'.
    destruct (decide (k' = k)) as [->|Hne].
    + rewrite list_lookup_insert_eq in Hk' by (by eapply lookup_lt_Some). simplify_eq. by exists h.
    + rewrite list_lookup_insert_ne in Hk' by done. exists h2. split; [done|].
      rewrite Hother by done. apply eq64_refl. lia.
Qed.

(** A worker that answers its item and leaves [reserve], after recording something. *)
Lemma respond_move cap w st a item r k h h' s :
  fleet_ok cap s -> workers s !! w = Some st -> task w s = Some a ->
  a = ResolverPool.Reserved k -> working_on st = Some item ->
  resolvers s !! k = Some h -> ResolverHealth.inflight h' = ResolverHealth.inflight h ->
  balance h' ≡64 balance h - asks st k -> (forall k', k' <> k -> asks st k' = 0) ->
  moves cap w st Receiving ResolverPool.Idle s
    (respond w item r (retask w a ResolverPool.Idle (set_health k h' s))).
Proof.
  intros Hs Hw Ha -> Hwk Hk Hin Hb Hother.
  assert (Hp : permits_ok cap no_debt (reserving (set_health k h' s))).
  { simpl. eapply step_ok; [|apply (fo_permits _ _ Hs)]. by eapply ResolverPool.step_health. }
  split; try done.
  - simpl. by apply move_ok; auto.
  - simpl. apply (move_tasks cap w (ResolverPool.Reserved k) ResolverPool.Idle (reserving (set_health k h' s)));
      auto.
  - unfold in_hand, answered_ids, respond. simpl. rewrite Hwk. simpl. rewrite fmap_app. simpl.
    rewrite (app_assoc (ids (queue s))). symmetry. apply Permutation_cons_append.
  - intros k' h2 Hk'. unfold resolvers in Hk'. cbn in Hk'.
    destruct (permits_lookup _ _ k' h2 (move_permits w (ResolverPool.Reserved k) ResolverPool.Idle
      (reserving (set_health k h' s))) Hk') as (h3 & Hk3 & Eb). rewrite Eb. cbn in Hk3.
    destruct (decide (k' = k)) as [->|Hne].
    + rewrite list_lookup_insert_eq in Hk3 by (by eapply lookup_lt_Some). simplify_eq. exists h.
      split; [done|]. rewrite Hb. apply eq64_refl. unfold asks. simpl. lia.
    + rewrite list_lookup_insert_ne in Hk3 by done. exists h3. split; [done|].
      rewrite Hother by done. apply eq64_refl. unfold asks. simpl. lia.
Qed.

Lemma receive_ok cap w spurious s s' :
  fleet_ok cap s -> workers s !! w = Some Receiving -> advance w (Go spurious) s = Some s' ->
  fleet_ok cap s'.
Proof.
  intros Hs Hw Hadv. destruct (task_of _ _ _ _ Hs Hw) as (a & Ha & Ht). simpl in Ht. subst a.
  unfold advance in Hadv. rewrite Hw in Hadv. simpl in Hadv.
  destruct (queue s) as [|item queue'] eqn:Eq.
  - destruct (closed s) eqn:Ec; [|done]. injection Hadv as <-.
    eapply (moves_ok cap w Receiving Stopped ResolverPool.Idle s); [done|done|].
    split; simpl; try done; [apply Hs|by rewrite list_insert_id|].
    intros k h' Hk. exists h'. split; [done|]. apply eq64_refl. unfold asks. simpl. lia.
  - destruct (from_ascii (host (query item))) as [name|source]; injection Hadv as <-;
      (eapply (moves_ok cap w Receiving _ ResolverPool.Idle s); [done|done|]);
      (split; simpl; try done; [apply Hs|by rewrite list_insert_id| |by rewrite Eq|]);
      try (intros k h' Hk; exists h'; split; [done|]; apply eq64_refl; unfold asks; simpl; lia).
    + unfold in_hand, ids, answered_ids. by rewrite Eq.
    + unfold in_hand, ids, answered_ids. simpl. rewrite Eq, fmap_app. simpl.
      rewrite (app_assoc (responder <$> queue')). symmetry. apply Permutation_cons_append.
Qed.

Lemma limiting_ok cap w item name a spurious s s' :
  fleet_ok cap s -> workers s !! w = Some (Limiting item name a) ->
  advance w (Go spurious) s = Some s' -> fleet_ok cap s'.
Proof.
  intros Hs Hw Hadv. destruct (task_of _ _ _ _ Hs Hw) as (b & Hb & Ht). simpl in Ht. subst b.
  unfold advance in Hadv. rewrite Hw in Hadv. simpl in Hadv.
  destruct (RateLimiter.acquire_step spurious (clock s) (limiter s) a) as [l a'].
  destruct a' as [| | | | | |slot at_ns]; injection Hadv as <-;
    [eapply (moves_ok cap w _ _ ResolverPool.Idle s); [done|done|]; by eapply plain_move..|].
  eapply (moves_ok cap w _ (Reserving item name) ResolverPool.Enter s); [done|done|].
  split; simpl; try done; try (apply Hs).
  - unfold task in Hb. by apply move_ok; [apply Hs| |..]; auto.
  - intros k h' Hk. exists h'. split; [done|]. unfold asks. apply eq64_refl. simpl. lia.
Qed.

Lemma reserving_ok cap w item name spurious s s' :
  fleet_ok cap s -> workers s !! w = Some (Reserving item name) ->
  advance w (Go spurious) s = Some s' -> fleet_ok cap s'.
Proof.
  intros Hs Hw Hadv. destruct (task_of _ _ _ _ Hs Hw) as (a & Ha & Hidle). simpl in Hidle.
  unfold advance in Hadv. rewrite Hw in Hadv. cbn [mbind option_bind] in Hadv. rewrite Ha in Hadv.
  cbn [mbind option_bind] in Hadv.
  assert (Hrun : fleet_ok cap (s <| reserving := ResolverPool.run_task w a (reserving s) |>)).
  { apply (moves_ok cap w (Reserving item name) (Reserving item name)
      (ResolverPool.reserve_step w (clock s) (ResolverPool.pool (reserving s)) a).2 s); [done|done|].
    split; simpl; try done.
    - by rewrite list_insert_id.
    - apply run_task_ok; [apply Hs|done].
    - by apply (run_task_tasks cap); [apply Hs|].
    - by apply reserve_step_not_idle.
    - intros k h' Hk. unfold resolvers in Hk. simpl in Hk.
      destruct (permits_lookup _ _ k h' (run_task_permits w a (reserving s)) Hk) as (h & Hh & E).
      exists h. split; [done|]. rewrite E. apply eq64_refl. unfold asks. simpl. lia. }
  destruct a; try (injection Hadv as <-; exact Hrun).
  - injection Hadv as <-. eapply (moves_ok cap w _ _ (ResolverPool.Reserved k) s); [done|done|].
    by eapply plain_move.
  - injection Hadv as <-. eapply (moves_ok cap w _ Receiving ResolverPool.Idle s); [done|done|].
    split; simpl; try done.
    + apply move_ok; [apply Hs|done|auto..].
    + unfold in_hand, ids, answered_ids. simpl. rewrite fmap_app. simpl.
      rewrite (app_assoc (responder <$> queue s)). symmetry. apply Permutation_cons_append.
    + intros k h' Hk. exists h'. split; [done|]. unfold asks. apply eq64_refl. simpl. lia.
Qed.

Lemma asks_other st k k' : asking st = Some k -> k' <> k -> asks st k' = 0.
Proof. intros H1 H2. unfold asks. rewrite H1, decide_False; congruence. Qed.
Lemma asks_self st k : asking st = Some k -> asks st k = 1.
Proof. intros H1. unfold asks. by rewrite H1, decide_True. Qed.
Lemma asks_none st k : asking st = None -> asks st k = 0.
Proof. intros H1. unfold asks. by rewrite H1, decide_False. Qed.

(** A worker with a reservation: pacing, sending, and asking its resolver. *)
Lemma holding_ok cap w st k x s s' :
  fleet_ok cap s -> workers s !! w = Some st -> holding st = Some k ->
  advance w x s = Some s' -> fleet_ok cap s'.
Proof.
  intros Hs Hw Hk Hadv. destruct (task_of _ _ _ _ Hs Hw) as (a & Ha & Ht).
  assert (a = ResolverPool.Reserved k) as ->.
  { destruct st; simplify_eq/=; done. }
  unfold advance in Hadv. rewrite Hw in Hadv. cbn [mbind option_bind] in Hadv.
  destruct st as [|item name pc|item name|item name k' pc|item name k'|item name k'|item name k'
                 |item name k' started|item name k' started partial|]; try discriminate Hk;
    injection Hk as ->; destruct x as [spurious|x|tcp answer]; try discriminate Hadv.
  - apply bind_Some in Hadv as (h & Hh & Hadv).
    destruct (RateLimiter.acquire_step _ _ _ _) as [l pc'].
    destruct pc'; injection Hadv as <-; (eapply (moves_ok cap w _ _ _ s); [done|done|]);
      eapply (health_move cap w _ _ _ k h); try done;
      apply eq64_refl; rewrite !asks_none by done; unfold balance; simpl; lia.
  - injection Hadv as <-. unfold pacer_action.
    destruct (_ <? _)%nat; (eapply (moves_ok cap w _ _ _ s); [done|done|]); by eapply plain_move.
  - destruct (remove_one w (AttemptPacer.counted (pacer s))) as [c|];
      [|apply bind_Some in Hadv as (c & _ & Hadv)]; injection Hadv as <-; unfold pacer_action;
      destruct (_ <? _)%nat; (eapply (moves_ok cap w _ _ _ s); [done|done|]); by eapply plain_move.
  - apply bind_Some in Hadv as (h & Hh & Hadv). injection Hadv as <-.
    eapply (moves_ok cap w _ _ _ s); [done|done|].
    eapply (health_move cap w _ _ _ k h); try done.
    + rewrite asks_none, asks_self by done. unfold begin_query. rewrite balance_dispatch.
      apply eq64_refl. lia.
    + intros k' Hne. rewrite (asks_other _ k k'), asks_none by done. done.
  - apply bind_Some in Hadv as (h & Hh & Hadv).
    pose proof (on_reply_balance x started (clock s) h) as Hb.
    destruct (on_reply x started (clock s) h) as [h' p]. destruct Hb as [Hb Hi].
    destruct p as [r|partial]; injection Hadv as <-; (eapply (moves_ok cap w _ _ _ s); [done|done|]).
    + eapply (respond_move cap w _ (ResolverPool.Reserved k) item r k h); try done.
      * by rewrite asks_self.
      * intros k' Hne. by apply (asks_other _ k).
    + eapply (health_move cap w _ _ _ k h); try done.
      rewrite Hb, !asks_self by done. apply eq64_refl. lia.
  - apply bind_Some in Hadv as (h & Hh & Hadv). unfold on_refetch in Hadv. injection Hadv as <-.
    eapply (moves_ok cap w _ _ _ s); [done|done|].
    eapply (respond_move cap w _ (ResolverPool.Reserved k) item _ k h); try done.
    + apply record_response_inflight.
    + rewrite balance_response. by rewrite asks_self.
    + intros k' Hne. by apply (asks_other _ k).
Qed.

Lemma advance_ok cap w x s s' : fleet_ok cap s -> advance w x s = Some s' -> fleet_ok cap s'.
Proof.
  intros Hs Hadv. destruct (workers s !! w) as [st|] eqn:Hw.
  2:{ unfold advance in Hadv. by rewrite Hw in Hadv. }
  destruct (holding st) as [k|] eqn:Hk; [by eapply holding_ok|].
  assert (exists spurious, x = Go spurious) as [spurious ->].
  { destruct x as [spurious|x|tcp answer]; [by exists spurious|exfalso..];
      unfold advance in Hadv; rewrite Hw in Hadv; destruct st; done. }
  destruct st; try discriminate Hk.
  - by eapply receive_ok.
  - by eapply limiting_ok.
  - by eapply reserving_ok.
  - unfold advance in Hadv. by rewrite Hw in Hadv.
Qed.

(** Everything but a worker's action leaves the workers where they are. *)
Lemma background_ok cap s s' :
  fleet_ok cap s -> workers s' = workers s -> permits_ok cap no_debt (reserving s') ->
  ResolverPool.tasks (reserving s') = ResolverPool.tasks (reserving s) ->
  ids (accepted s') ≡ₚ pending_ids s' ++ answered_ids s' ->
  (closed s = true -> closed s' = true) -> (closed s = true -> queue s' = queue s) ->
  (forall k h', resolvers s' !! k = Some h' -> exists h, resolvers s !! k = Some h /\ balance h' = balance h) ->
  fleet_ok cap s'.
Proof.
  intros [Hp Hlen Ht Hi Hst Hc] Ew Hp' Et Hi' Hcl Hq Hb. split; try done.
  - by rewrite Ew, Et.
  - unfold task. rewrite Ew, Et. exact Ht.
  - rewrite Ew. intros Hin. destruct (Hst Hin) as [H1 H2]. split; [auto|]. rewrite Hq; auto.
  - intros k h' Hk. destruct (Hb k h' Hk) as (h & Hh & ->). rewrite (Hc k h Hh).
    unfold count_at. by rewrite Ew.
Qed.

Lemma set_health_ok cap k h h' s :
  fleet_ok cap s -> resolvers s !! k = Some h -> ResolverHealth.inflight h' = ResolverHealth.inflight h ->
  balance h' = balance h -> fleet_ok cap (set_health k h' s).
Proof.
  intros Hs Hk Hi Hb. apply (background_ok cap s); try done.
  - eapply step_ok; [|apply (fo_permits _ _ Hs)]. by eapply ResolverPool.step_health.
  - apply Hs.
  - intros k' h2 Hk'. unfold resolvers in Hk'. cbn in Hk'. destruct (decide (k' = k)) as [->|Hne].
    + rewrite list_lookup_insert_eq in Hk' by (by eapply lookup_lt_Some). simplify_eq. by exists h.
    + rewrite list_lookup_insert_ne in Hk' by done. by exists h2.
Qed.

Lemma perform_ok cap a s s' : fleet_ok cap s -> perform a s = Some s' -> fleet_ok cap s'.
Proof.
  intros Hs Hperf. destruct a as [w x|d|item| |seconds|r|q|k q]; simpl in Hperf.
  - by eapply advance_ok.
  - destruct (Z.leb_spec 0 d); [|done]. injection Hperf as <-.
    apply (background_ok cap s); try done; [|apply Hs|by eauto].
    eapply step_ok; [by apply (ResolverPool.step_clock _ d)|apply Hs].
  - destruct (closed s) eqn:Ec; [done|]. destruct (_ <? _); [|done]. injection Hperf as <-.
    apply (background_ok cap s); simpl; try done; try congruence; [apply Hs| |by eauto].
    unfold pending_ids, ids, answered_ids. simpl. rewrite !fmap_app. simpl.
    rewrite (fo_items _ _ Hs). unfold pending_ids, ids, answered_ids. rewrite <- !app_assoc.
    apply Permutation_app_head. rewrite app_assoc. symmetry. apply Permutation_cons_append.
  - injection Hperf as <-. apply (background_ok cap s); try done; [apply Hs|apply Hs|by eauto].
  - injection Hperf as <-. apply (background_ok cap s); try done; [apply Hs|apply Hs|by eauto].
  - injection Hperf as <-. apply (background_ok cap s); try done; [apply Hs|apply Hs|by eauto].
  - apply bind_Some in Hperf as (l & _ & [= <-]).
    apply (background_ok cap s); try done; [apply Hs|apply Hs|by eauto].
  - apply bind_Some in Hperf as (h & Hh & Hperf). apply bind_Some in Hperf as (h' & Hh' & [= <-]).
    unfold ResolverHealth.set_rate in Hh'. apply bind_Some in Hh' as (l & _ & [= <-]).
    by apply (set_health_ok cap k h).
Qed.

(** A resolver of a pool that was just built and probed. *)
Lemma fresh_resolver addrs config now p alive k h :
  ResolverPool.new addrs config now = Some p ->
  ResolverPool.resolvers (ResolverPool.probe alive p).1 !! k = Some h ->
  ResolverHealth.inflight h = sem_new (Z.max (max_inflight_per_resolver config) 1) /\
  balance h = 0 /\ RateLimiter.interval_ns (ResolverHealth.limiter h) = 1.
Proof.
  intros Hn Hk. simpl in Hk. rewrite list_lookup_imap in Hk.
  destruct (ResolverPool.resolvers p !! k) as [h0|] eqn:Hk0; [|done]. injection Hk as <-.
  unfold ResolverPool.new in Hn. apply bind_Some in Hn as (rs & Hm & [= <-]).
  apply mapM_Some in Hm. destruct (Forall2_lookup_r _ _ _ _ _ Hm Hk0) as (addr & _ & Hnh).
  unfold ResolverHealth.new in Hnh. apply bind_Some in Hnh as (l & Hl & [= <-]).
  assert (E : RateLimiter.interval_for UNLIMITED_QPS = Some 1) by (vm_compute; reflexivity).
  unfold RateLimiter.new in Hl. rewrite E in Hl. injection Hl as <-.
  destruct (alive k); split_and!; reflexivity.
Qed.

Lemma initial_fleet_ok addrs config n s :
  initial addrs config n s -> fleet_ok (Z.max (max_inflight_per_resolver config) 1) s.
Proof.
  intros ((p & alive & Hn & Ep) & Ht & Hp & Hw & Hq & Ha & Hr).
  assert (Hfresh : forall k h, resolvers s !! k = Some h ->
    ResolverHealth.inflight h = sem_new (Z.max (max_inflight_per_resolver config) 1) /\ balance h = 0).
  { unfold resolvers. rewrite Ep. intros k h Hk.
    destruct (fresh_resolver _ _ _ _ _ _ _ Hn Hk) as (? & ? & _). done. }
  assert (Hrep : forall {A} (P : A -> Prop) `{!forall x, Decision (P x)} x m,
    ~ P x -> filter P (replicate m x) = []).
  { intros A P HP x m Hx. apply filter_none, Forall_replicate. done. }
  split.
  - split. intros k r Hk. destruct (Hfresh k r Hk) as [Hsem _]. rewrite Hsem.
    destruct (sem_new_ok (Z.max (max_inflight_per_resolver config) 1) ltac:(lia)) as (N1 & N2 & N3).
    unfold ResolverPool.holders, no_debt. rewrite Ht, N2, N3, Hrep by done. simpl.
    split; [done|]. split; [lia|]. split; [constructor|]. intros w.
    split; [by intros ?%elem_of_nil|]. intros Hl. by apply lookup_replicate in Hl as [? _].
  - by rewrite Hw, Ht, !length_replicate.
  - unfold task. rewrite Hw, Ht. intros w st a Hst Hta. apply lookup_replicate in Hst as [-> _].
    by apply lookup_replicate in Hta as [-> _].
  - unfold pending_ids, answered_ids, ids. rewrite Hq, Ha, Hr, Hw. simpl. rewrite app_nil_r.
    assert (E : replicate n Receiving ≫= in_hand = []); [|by rewrite E].
    clear. induction n as [|n IH]; [done|]. exact IH.
  - rewrite Hw. intros Hin. apply elem_of_replicate in Hin as [? _]. done.
  - intros k h Hk. destruct (Hfresh k h Hk) as [_ ->]. unfold count_at. rewrite Hw, Hrep by done.
    by apply eq64_refl.
Qed.

Lemma reachable_ok addrs config n s0 s :
  initial addrs config n s0 -> rtc step s0 s -> fleet_ok (Z.max (max_inflight_per_resolver config) 1) s.
Proof.
  intros Hi Hrun. pose proof (initial_fleet_ok _ _ _ _ Hi) as Hok.
  clear Hi. induction Hrun as [|s1 s2 s3 [a Ha] _ IH]; [done|]. apply IH. by eapply perform_ok.
Qed.

Lemma perform_all_only (P : action -> Prop) acts : forall s s', Forall P acts ->
  perform_all acts s = Some s' -> rtc (fun s s' => exists a, P a /\ perform a s = Some s') s s'.
Proof.
  induction acts as [|a acts IH]; intros s s' Hall Hr; simpl in Hr; [by injection Hr as <-|].
  apply Forall_cons in Hall as [Ha Hall]. apply bind_Some in Hr as (s1 & H1 & H2).
  eapply rtc_l; [by exists a|by apply IH].
Qed.

Lemma perform_all_rtc acts s s' : perform_all acts s = Some s' -> rtc step s s'.
Proof.
  intros Hr. assert (Hall : Forall (fun _ => True) acts) by by apply Forall_true.
  eapply (rtc_subrel _ step); [|exact (perform_all_only _ acts s s' Hall Hr)].
  intros s1 s2 (a & _ & Ha). by exists a.
Qed.

(** Workers that hold a reservation hold a permit, so they are within the cap. *)
Lemma holding_bound cap k h s : fleet_ok cap s -> resolvers s !! k = Some h ->
  count_at holding k s + sem_available (ResolverHealth.inflight h) <= cap.
Proof.
  intros Hs Hk. destruct (po_resolver _ _ _ (fo_permits _ _ Hs) k h Hk) as (_ & Hav & _). unfold no_debt in Hav.
  enough (count_at holding k s <= ResolverPool.holders k (reserving s)) by lia.
  apply inj_le, count_pointwise; [apply Hs|]. intros w st a Hw Ha Hh.
  pose proof (fo_tasks _ _ Hs w st a Hw Ha) as Ht. destruct st; simplify_eq/=; done.
Qed.

(** ** Properties *)

(** C7: politeness from end to end.  However workers, senders, refills and rate changes
    interleave, the workers that hold a reservation of a resolver, and so the queries on
    the wire to it, never outnumber [max_inflight_per_resolver] (at least one), and each
    of them holds one of its permits. *)
Theorem fleet_inflight_bound addrs config n s0 s k h :
  initial addrs config n s0 -> rtc step s0 s -> resolvers s !! k = Some h ->
  let cap := Z.max (max_inflight_per_resolver config) 1 in
  count_at asking k s <= count_at holding k s /\
  count_at holding k s + sem_available (ResolverHealth.inflight h) <= cap /\
  (forall w st, workers s !! w = Some st -> holding st = Some k ->
     task w s = Some (ResolverPool.Reserved k)).
Proof.
  intros Hi Hrun Hk. pose proof (reachable_ok _ _ _ _ _ Hi Hrun) as Hs. cbv zeta. split; [|split].
  - apply inj_le, count_pointwise; [done|]. intros i st st' H1 H2 Hask. assert (st' = st) as -> by congruence.
    destruct st; simpl in *; congruence.
  - by apply holding_bound.
  - intros w st Hw Hh. destruct (task_of _ _ _ _ Hs Hw) as (a & Ha & Ht). rewrite Ha.
    destruct st; simplify_eq/=; done.
Qed.

(** C1: no query is lost and none is answered twice.  In every interleaving each accepted
    query is in exactly one place: the queue, the hands of one worker, or answered; a
    worker stops only once the queue is closed and drained; so when all have stopped,
    every accepted query has had exactly one answer. *)
Theorem no_query_lost addrs config n s0 s :
  initial addrs config n s0 -> rtc step s0 s ->
  ids (accepted s) ≡ₚ ids (queue s) ++ (workers s ≫= in_hand) ++ answered_ids s /\
  (NoDup (ids (accepted s)) -> NoDup (answered_ids s)) /\
  (workers s <> [] -> Forall (eq Stopped) (workers s) -> ids (accepted s) ≡ₚ answered_ids s).
Proof.
  intros Hi Hrun. pose proof (reachable_ok _ _ _ _ _ Hi Hrun) as Hs.
  pose proof (fo_items _ _ Hs) as Hit. unfold pending_ids in Hit. rewrite <- app_assoc in Hit.
  split; [done|]. split.
  - rewrite Hit, app_assoc. intros Hnd. by apply NoDup_app in Hnd as (_ & _ & ?).
  - intros Hne Hall. rewrite Hit.
    assert (queue s = []) as ->.
    { apply (fo_stopped _ _ Hs). destruct Hall as [|st l <- _]; [done|]. by left. }
    assert (E : forall l : list stage, Forall (eq Stopped) l -> l ≫= in_hand = []).
    { induction 1 as [|st l <- _ IH]; [done|]. exact IH. }
    by rewrite E.
Qed.

(** C13: every dispatched query lands in exactly one bucket.  At every moment of every
    interleaving, what a resolver counts as attempted but not as answered, empty, timed
    out or failed is the number of workers waiting for it (modulo [2 ^ 64]); so once no
    query is on the wire, and while the counters have not wrapped,
    [attempted = answered + empty + timeout + error]. *)
Theorem attempts_accounted addrs config n s0 s k h :
  initial addrs config n s0 -> rtc step s0 s -> resolvers s !! k = Some h ->
  let st := ResolverHealth.stats h in
  let outcomes := st_answered st + st_empty st + st_timeout st + st_error st in
  st_attempted st - outcomes ≡64 count_at asking k s /\
  (count_at asking k s = 0 -> 0 <= st_attempted st < u64_modulus -> 0 <= outcomes < u64_modulus ->
   st_attempted st = outcomes).
Proof.
  intros Hi Hrun Hk. pose proof (reachable_ok _ _ _ _ _ Hi Hrun) as Hs. simpl.
  pose proof (fo_counts _ _ Hs k h Hk) as Hb. unfold balance in Hb. split; [exact Hb|].
  intros E H1 H2. apply eq64_small; [done..|]. rewrite E in Hb.
  match goal with |- ?a ≡64 ?b => transitivity ((a - b) + b); [apply eq64_refl; lia|] end.
  rewrite Hb. apply eq64_refl. lia.
Qed.
End WorkerProofs.

(** ** Witnesses and examples *)

Section WorkerExamples.
Import ResolverWorker.
#[local] Existing Instance demo_errors.
#[local] Existing Instance demo_dns.
#[local] Open Scope Z_scope.

Definition dns_server (last port : Z) : SocketAddress := mk_socket (V4 192 0 2 last) port 0.
Definition fleet : Type := sys (S := ref_sem).

(** Two workers over two resolvers, with no rate limit and room for four queries. *)
Definition fleet0 : fleet :=
  mk_sys [] 4 false
    (ResolverPool.mk_sys
       (from_option id (ResolverPool.mk [] 0 0)
          (ResolverPool.new [dns_server 1 53; dns_server 2 53] default_config 0))
       0 (replicate 2 ResolverPool.Idle))
    (RateLimiter.mk 1 0 0) (AttemptPacer.mk_sys AttemptPacer.new [] [] [])
    (replicate 2 Receiving) [] [].

Definition item (host : string) (id : nat) : WorkItem := new (mk_query (lit host) 1) id.
Definition go (n w : nat) : list action := replicate n (Act w (Go false)).
Definition truncated_answer : demo_response := mk_demo [(60, lit "192.0.2.7")] true NoError.
Definition full_answer : demo_response :=
  mk_demo [(60, lit "192.0.2.7"); (60, lit "192.0.2.8")] false NoError.

(** Three queries: one with an unusable name, one answered over TCP, one timed out. *)
Definition schedule : list action :=
  [Send (item "a.example" 10); Send (item "" 11); Send (item "b.example" 12); Tick 5]
  ++ go 18 0 ++ go 19 1
  ++ [Tick 5000; Act 0 (Reply (ResolverHealth.Answered truncated_answer));
      Act 1 (Reply ResolverHealth.Elapsed); Tick 100].
Definition later : list action :=
  [Act 0 (TcpReply (Ok tt) (Ok full_answer)); Close] ++ go 1 0 ++ go 1 1.

Definition mid : fleet := from_option id fleet0 (perform_all schedule fleet0).
Definition finished : fleet := from_option id mid (perform_all later mid).
Definition no_health : ResolverHealth.t SocketAddress ref_sem :=
  ResolverHealth.mk (dns_server 0 0) 0 false 0 0 (sem_new 0) (RateLimiter.mk 1 0 0) 0 true
    0 0 0 0 0 0 0 0 0 0 0 0.
Definition health_of (k : nat) (s : fleet) : ResolverHealth.t SocketAddress ref_sem :=
  from_option id no_health (resolvers s !! k).

Lemma fleet0_initial : initial [dns_server 1 53; dns_server 2 53] default_config 2 fleet0.
Proof.
  split; [eexists _, (fun _ => true); split; vm_compute; reflexivity|].
  split_and!; vm_compute; reflexivity.
Qed.
Lemma mid_run : rtc step fleet0 mid.
Proof. apply (perform_all_rtc schedule). vm_compute. reflexivity. Qed.
Lemma finished_run : rtc step fleet0 finished.
Proof. apply (rtc_trans _ _ _ mid_run), (perform_all_rtc later). vm_compute. reflexivity. Qed.

(** The refused name, the timeout, and the complete answer over TCP. *)
Example answers_delivered :
  replies finished =
  [(11%nat, Err (InvalidHostname [] (lit "empty")));
   (12%nat, Err (QueryTimedOut (dns_server 2 53) (from_millis 1000)));
   (10%nat, Ok full_answer)].
Proof. vm_compute. reflexivity. Qed.

Lemma fleet_inflight_bound_witness :
  count_at asking 0%nat mid <= count_at holding 0%nat mid /\
  count_at holding 0%nat mid + sem_available (ResolverHealth.inflight (health_of 0 mid)) <= 2 /\
  (forall w st, workers mid !! w = Some st -> holding st = Some 0%nat ->
     task w mid = Some (ResolverPool.Reserved 0)).
Proof.
  apply (fleet_inflight_bound [dns_server 1 53; dns_server 2 53] default_config 2 fleet0 mid).
  - exact fleet0_initial.
  - exact mid_run.
  - vm_compute. reflexivity.
Defined.

Lemma no_query_lost_witness :
  ids (accepted finished) ≡ₚ ids (queue finished) ++ (workers finished ≫= in_hand) ++ answered_ids finished /\
  (NoDup (ids (accepted finished)) -> NoDup (answered_ids finished)) /\
  (workers finished <> [] -> Forall (eq Stopped) (workers finished) ->
   ids (accepted finished) ≡ₚ answered_ids finished).
Proof.
  apply (no_query_lost [dns_server 1 53; dns_server 2 53] default_config 2 fleet0 finished).
  - exact fleet0_initial.
  - exact finished_run.
Defined.

Lemma attempts_accounted_witness :
  let st := ResolverHealth.stats (health_of 0 mid) in
  let outcomes := st_answered st + st_empty st + st_timeout st + st_error st in
  st_attempted st - outcomes ≡64 count_at asking 0%nat mid /\
  (count_at asking 0%nat mid = 0 -> 0 <= st_attempted st < u64_modulus -> 0 <= outcomes < u64_modulus ->
   st_attempted st = outcomes).
Proof.
  apply (attempts_accounted [dns_server 1 53; dns_server 2 53] default_config 2 fleet0 mid 0 (health_of 0 mid)).
  - exact fleet0_initial.
  - exact mid_run.
  - vm_compute. reflexivity.
Defined.
End WorkerExamples.
