(* ===== verification/Fleet.v ===== *)
(** * The fleet under its rate limit

    The workers of [Worker] seen from the rate limiter of [Limiter]: every interleaving of
    the fleet is, for the limiter, a run of callers, one for each query that asks for a
    slot, so what is proved of the limiter holds of the queries of the whole fleet. *)

From Stdlib Require Import Ascii String.
From stdpp Require Import list.
From S2P Require Import Prelude Float64 Extern Limiter Config Addresses Errors Health Pool Utils Dns Worker.
#[local] Open Scope Z_scope.
#[local] Open Scope list_scope.

Section Fleet.
Import ResolverWorker.
Context `{DnsTypes} {S : Type} `{HO : SemaphoreOps S}.
Implicit Types (s : sys (S := S)) (m : RateLimiter.sys) (st : stage).

(** The global rate is only ever set to a rate up to [cap]. *)
Definition capped_action (cap : f64) (a : action) : Prop :=
  match a with SetGlobalRate q => RateLimiter.at_most cap q | _ => True end.
Definition capped_step (cap : f64) s s' : Prop :=
  exists a, capped_action cap a /\ perform a s = Some s'.

(** A worker inside the limiter's [acquire], and one that is past it with its query. *)
Definition limiting st : option RateLimiter.pc :=
  match st with Limiting _ _ a => Some a | _ => None end.
Definition past st : bool :=
  match st with Receiving | Limiting _ _ _ | Stopped => false | _ => true end.

Definition refused_name (r : reply) : bool :=
  match r.2 with Err (InvalidHostname _ _) => true | _ => false end.

(** Queries let through so far: those in hand past the limiter, and the answered ones but
    for unusable names, which are answered before. *)
Definition past_count (ws : list stage) : Z := Z.of_nat (length (filter (fun st => past st = true) ws)).
Definition answered_count (rs : list reply) : Z :=
  Z.of_nat (length (filter (fun r => refused_name r = false) rs)).
Definition dispatched s : Z := past_count (workers s) + answered_count (replies s).

Definition returned (c : RateLimiter.caller) : bool :=
  match RateLimiter.at_pc c with RateLimiter.Returned _ _ => true | _ => false end.
Definition returned_count m : Z :=
  Z.of_nat (length (filter (fun c => returned c = true) (RateLimiter.callers m))).

(** Worker [w] in [acquire] is caller [f w] of the limiter's run. *)
Record seen_as (f : nat -> nat) s m : Prop := {
  sa_limiter : RateLimiter.limiter m = limiter s;
  sa_clock : RateLimiter.clock m = clock s;
  sa_callers : forall w st a, workers s !! w = Some st -> limiting st = Some a ->
    exists c, RateLimiter.callers m !! f w = Some c /\ RateLimiter.at_pc c = a /\ returned c = false;
  sa_apart : forall w w' st st', workers s !! w = Some st -> workers s !! w' = Some st' ->
    is_Some (limiting st) -> is_Some (limiting st') -> f w = f w' -> w = w';
  sa_count : dispatched s <= returned_count m;
}.

(** *** Counting *)

Lemma past_count_goto w st st' (ws : list stage) : ws !! w = Some st ->
  past_count (<[w := st']> ws)
  = past_count ws - (if past st then 1 else 0) + (if past st' then 1 else 0).
Proof.
  intros Hw. unfold past_count.
  pose proof (count_insert (fun st => past st = true) ws w st st' Hw) as E.
  repeat case_decide; destruct (past st), (past st'); try congruence; lia.
Qed.

Lemma answered_count_snoc rs r :
  answered_count (rs ++ [r]) = answered_count rs + (if refused_name r then 0 else 1).
Proof.
  unfold answered_count. rewrite filter_app, length_app, filter_cons.
  case_decide; destruct (refused_name r); try congruence; simpl; lia.
Qed.

(** *** Steps that the limiter does not see *)

Lemma unseen f s s' m :
  seen_as f s m -> limiter s' = limiter s -> clock s' = clock s ->
  (forall w st', workers s' !! w = Some st' -> is_Some (limiting st') -> workers s !! w = Some st') ->
  dispatched s' <= dispatched s -> seen_as f s' m.
Proof.
  intros [Hl Hc Hcs Ha Hn] El Ec Hw Hd. split; try congruence.
  - intros w st a Hst Hlim. apply (Hcs w st); [|done]. apply Hw; [done|]. by eexists.
  - intros w w' st st' H1 H2 H3 H4. apply (Ha w w' st st'); auto.
  - lia.
Qed.

(** Worker [w] goes from one stage outside [acquire] to another. *)
Lemma unseen_move f w st st' s s' m :
  seen_as f s m -> workers s !! w = Some st -> limiter s' = limiter s -> clock s' = clock s ->
  workers s' = <[w := st']> (workers s) -> limiting st' = None ->
  (exists rs, replies s' = replies s ++ rs /\
     (if past st' then 1 else 0) + answered_count rs <= if past st then 1 else 0) ->
  seen_as f s' m.
Proof.
  intros Hs Hw El Ec Ew Hlim (rs & Er & Hle). apply (unseen f s); try done.
  - intros w' st2 Hw' [a Ha]. rewrite Ew in Hw'. destruct (decide (w' = w)) as [->|Hne].
    + rewrite list_lookup_insert_eq in Hw' by (by eapply lookup_lt_Some). by simplify_eq.
    + by rewrite list_lookup_insert_ne in Hw'.
  - unfold dispatched. rewrite Ew, Er, (past_count_goto w st) by done.
    unfold answered_count in *. rewrite filter_app, length_app. lia.
Qed.

Lemma release_clock k (q : ResolverPool.sys SocketAddress S) :
  ResolverPool.clock (ResolverPool.release k q) = ResolverPool.clock q.
Proof.
  unfold ResolverPool.release. destruct (_ !! k); [|done].
  by destruct (sem_add_permits 1 _).
Qed.

Lemma move_clock w a b (q : ResolverPool.sys SocketAddress S) :
  ResolverPool.clock (ResolverPool.move w a b q) = ResolverPool.clock q.
Proof.
  unfold ResolverPool.move. destruct (ResolverPool.held a), (ResolverPool.held b); try done.
  by rewrite release_clock.
Qed.

Lemma run_task_clock w a (q : ResolverPool.sys SocketAddress S) :
  ResolverPool.clock (ResolverPool.run_task w a q) = ResolverPool.clock q.
Proof.
  unfold ResolverPool.run_task. destruct (ResolverPool.reserve_step _ _ _ _) as [p b]. by rewrite move_clock.
Qed.

Lemma retask_clock w a b s : clock (retask w a b s) = clock s.
Proof. unfold clock, retask. simpl. apply move_clock. Qed.

(** *** Steps inside [acquire] *)

Lemma receive_seen cap f w spurious s s' m :
  seen_as f s m -> workers s !! w = Some Receiving -> advance w (Go spurious) s = Some s' ->
  exists f' m', rtc (RateLimiter.step (RateLimiter.at_most cap)) m m' /\ seen_as f' s' m'.
Proof.
  intros Hs Hw Hadv. unfold advance in Hadv. rewrite Hw in Hadv. simpl in Hadv.
  destruct (queue s) as [|item queue'].
  { destruct (closed s); [|done]. injection Hadv as <-. exists f, m. split; [done|].
    eapply (unseen_move f w Receiving Stopped s); try done. exists []. by rewrite app_nil_r. }
  destruct (from_ascii (host (query item))) as [name|source]; injection Hadv as <-.
  2:{ exists f, m. split; [done|]. eapply (unseen_move f w Receiving Receiving s); try done.
      by eexists [_]. }
  pose proof Hs as [Hl Hc Hcs Ha Hn].
  exists (fun w' => if decide (w' = w) then length (RateLimiter.callers m) else f w').
  eexists. split; [apply rtc_once, RateLimiter.step_call|].
  assert (Hold : forall w' c, RateLimiter.callers m !! w' = Some c -> (w' < length (RateLimiter.callers m))%nat)
    by (intros w' c Hk; by eapply lookup_lt_Some).
  assert (Hother : forall w' st', workers (goto w (Limiting item name RateLimiter.Called) s) !! w' = Some st' ->
    w' <> w -> workers s !! w' = Some st') by (intros w' st'; simpl; intros ? ?; by rewrite list_lookup_insert_ne in *).
  split; cbn [RateLimiter.limiter RateLimiter.clock]; try done.
  - intros w' st' a Hw' Hlim. simpl. case_decide as E.
    + subst w'. simpl in Hw'. rewrite list_lookup_insert_eq in Hw' by (by eapply lookup_lt_Some).
      simplify_eq/=. eexists. rewrite lookup_app_r, Nat.sub_diag by done. done.
    + destruct (Hcs w' st' a) as (c & Hk & ?); [by apply Hother|done|].
      exists c. split; [by apply lookup_app_l_Some|done].
  - intros w1 w2 st1 st2 H1 H2 L1 L2. repeat case_decide; subst; intros E; try done.
    + destruct L2 as [a2 L2]. destruct (Hcs w2 st2 a2) as (c & Hk & _); [by apply Hother|done|].
      apply Hold in Hk. lia.
    + destruct L1 as [a1 L1]. destruct (Hcs w1 st1 a1) as (c & Hk & _); [by apply Hother|done|].
      apply Hold in Hk. lia.
    + by apply (Ha w1 w2 st1 st2); try apply Hother.
  - unfold dispatched, returned_count in *. simpl. rewrite filter_app, length_app.
    rewrite (past_count_goto w Receiving) by done. simpl. lia.
Qed.
(** A caller whose step is the worker's. *)
Lemma limiting_caller spurious w item name a s m f :
  seen_as f s m -> workers s !! w = Some (Limiting item name a) ->
  exists c l' a', RateLimiter.callers m !! f w = Some c /\ returned c = false /\
    RateLimiter.acquire_step spurious (clock s) (limiter s) a = (l', a') /\
    let m' := RateLimiter.run_caller spurious (f w) c m in
    RateLimiter.limiter m' = l' /\ RateLimiter.clock m' = clock s /\
    RateLimiter.callers m' = <[f w := RateLimiter.mk_caller (RateLimiter.called_ns c) a']> (RateLimiter.callers m).
Proof.
  intros Hs Hw. destruct (sa_callers _ _ _ Hs w _ a Hw eq_refl) as (c & Hk & Hpc & Hret).
  destruct (RateLimiter.acquire_step spurious (clock s) (limiter s) a) as [l' a'] eqn:E.
  exists c, l', a'. split; [done|]. split; [done|]. split; [done|]. unfold RateLimiter.run_caller.
  rewrite (sa_clock _ _ _ Hs), (sa_limiter _ _ _ Hs), Hpc, E. done.
Qed.

Lemma returned_count_insert k c a' m m' :
  RateLimiter.callers m !! k = Some c -> returned c = false ->
  RateLimiter.callers m' = <[k := RateLimiter.mk_caller (RateLimiter.called_ns c) a']> (RateLimiter.callers m) ->
  returned_count m'
  = returned_count m + (match a' with RateLimiter.Returned _ _ => 1 | _ => 0 end).
Proof.
  intros Hk Hr E. unfold returned_count. rewrite E.
  pose proof (count_insert (fun c => returned c = true) _ _ _
                (RateLimiter.mk_caller (RateLimiter.called_ns c) a') Hk) as Hc.
  destruct a'; simpl in Hc; repeat case_decide; congruence || lia.
Qed.

Lemma limiting_seen cap f w item name a spurious s s' m :
  seen_as f s m -> workers s !! w = Some (Limiting item name a) -> advance w (Go spurious) s = Some s' ->
  exists m', rtc (RateLimiter.step (RateLimiter.at_most cap)) m m' /\ seen_as f s' m'.
Proof.
  intros Hs Hw Hadv.
  destruct (limiting_caller spurious w item name a s m f Hs Hw) as (c & l' & a' & Hk & Hret & Estep & El & Ec & Ecs).
  eexists. split; [apply rtc_once, (RateLimiter.step_run _ m (f w) c spurious Hk)|].
  pose proof (returned_count_insert _ _ a' _ _ Hk Hret Ecs) as Hcount.
  set (m' := RateLimiter.run_caller spurious (f w) c m) in *.
  unfold advance in Hadv. rewrite Hw in Hadv. cbn [mbind option_bind] in Hadv. rewrite Estep in Hadv.
  set (st' := match a' with RateLimiter.Returned _ _ => Reserving item name | _ => Limiting item name a' end).
  assert (Es : limiter s' = l' /\ clock s' = clock s /\ workers s' = <[w := st']> (workers s)
               /\ replies s' = replies s).
  { unfold st'. destruct a'; by injection Hadv as <-. }
  clear Hadv. destruct Es as (Esl & Esc & Esw & Esr). destruct Hs as [Hl Hc Hcs Ha Hn].
  assert (Hlt : (w < length (workers s))%nat) by (by eapply lookup_lt_Some).
  assert (Hother : forall w' st2, w' <> w -> workers s' !! w' = Some st2 -> workers s !! w' = Some st2)
    by (intros w' st2 ?; rewrite Esw; by rewrite list_lookup_insert_ne).
  assert (Hself : forall st2, workers s' !! w = Some st2 -> st2 = st')
    by (intros st2; rewrite Esw, list_lookup_insert_eq by done; by intros [= <-]).
  split; [congruence|congruence| | |].
  - intros w' st2 b Hw' Hlim. destruct (decide (w' = w)) as [->|Hne].
    + apply Hself in Hw' as ->. rewrite Ecs, list_lookup_insert_eq by (by eapply lookup_lt_Some).
      unfold st' in Hlim. destruct a'; simplify_eq/=; by eexists.
    + destruct (Hcs w' st2 b) as (c2 & Hk2 & Hpc2); [by apply Hother|done|].
      exists c2. split; [|done]. rewrite Ecs, list_lookup_insert_ne; [done|]. intros E. apply Hne. symmetry.
      apply (Ha w w' (Limiting item name a) st2); [done|by apply Hother|by eexists|by eexists|done].
  - assert (Hwas : forall w' st2, workers s' !! w' = Some st2 -> is_Some (limiting st2) ->
      exists st0, workers s !! w' = Some st0 /\ is_Some (limiting st0)).
    { intros w' st2 H1 H2. destruct (decide (w' = w)) as [->|Hne]; [by eexists|].
      exists st2. split; [by apply Hother|done]. }
    intros w1 w2 st1 st2 H1 H2 L1 L2. destruct (Hwas w1 st1 H1 L1) as (s1 & ? & ?).
    destruct (Hwas w2 st2 H2 L2) as (s2 & ? & ?). by apply (Ha w1 w2 s1 s2).
  - unfold dispatched in *. rewrite Esw, Esr, (past_count_goto w (Limiting item name a)) by done. rewrite Hcount.
    unfold st'. destruct a'; simpl; lia.
Qed.
(** *** Steps past the limiter *)

(** A worker past the limiter keeps its query, or answers it. *)
Definition carries_on (w : nat) s s' : Prop :=
  limiter s' = limiter s /\ clock s' = clock s /\
  exists st', workers s' = <[w := st']> (workers s) /\ limiting st' = None /\
    (past st' = true /\ replies s' = replies s \/
     past st' = false /\ exists r, replies s' = replies s ++ [r]).

Lemma keeps_query w st' s s' :
  workers s' = <[w := st']> (workers s) -> past st' = true -> limiter s' = limiter s -> clock s' = clock s ->
  replies s' = replies s -> carries_on w s s'.
Proof.
  intros ? Hp ? ? ?. split_and!; try done. exists st'. split_and!; [done| |by left]. by destruct st'.
Qed.

Lemma answers_query w item r s s1 :
  limiter s1 = limiter s -> clock s1 = clock s -> workers s1 = workers s -> replies s1 = replies s ->
  carries_on w s (respond w item r s1).
Proof.
  intros ? ? Ew Er. split_and!; try done. exists Receiving. simpl. rewrite Ew, Er.
  split_and!; [done..|]. right. by eauto.
Qed.

Lemma pacer_carries w p' through waiting s s1 :
  past through = true -> past waiting = true -> same_core s s1 -> limiter s1 = limiter s ->
  carries_on w s (pacer_action w p' through waiting s1).
Proof.
  intros H1 H2 (_ & E & Ew & _ & Er & _) El. unfold pacer_action, clock in *.
  destruct (_ <? _)%nat; [apply (keeps_query w through)|apply (keeps_query w waiting)]; try done;
    unfold clock; simpl; congruence.
Qed.

Lemma past_carries w st x s s' :
  workers s !! w = Some st -> past st = true -> advance w x s = Some s' -> carries_on w s s'.
Proof.
  intros Hw Hp Hadv. unfold advance in Hadv. rewrite Hw in Hadv. cbn [mbind option_bind] in Hadv.
  destruct st as [|item name pc|item name|item name k pc|item name k|item name k|item name k
                 |item name k started|item name k started partial|]; try discriminate Hp;
    destruct x as [spurious|x|tcp answer]; try discriminate Hadv.
  - apply bind_Some in Hadv as (a & Ha & Hadv).
    assert (Hrun : carries_on w s (s <| reserving := ResolverPool.run_task w a (reserving s) |>)).
    { eapply (keeps_query w (Reserving item name)); try done; [simpl; by rewrite list_insert_id|].
      unfold clock. simpl. apply run_task_clock. }
    destruct a; try (injection Hadv as <-; exact Hrun); injection Hadv as <-.
    + by eapply keeps_query.
    + apply answers_query; try done. 
  - apply bind_Some in Hadv as (h & Hh & Hadv).
    destruct (RateLimiter.acquire_step _ _ _ _) as [l pc']. destruct pc'; injection Hadv as <-; by eapply keeps_query.
  - injection Hadv as <-. by apply pacer_carries.
  - destruct (remove_one w (AttemptPacer.counted (pacer s))) as [c|];
      [|apply bind_Some in Hadv as (c & _ & Hadv)]; injection Hadv as <-; by apply pacer_carries.
  - apply bind_Some in Hadv as (h & Hh & Hadv). injection Hadv as <-. by eapply keeps_query.
  - apply bind_Some in Hadv as (h & Hh & Hadv). destruct (on_reply x started (clock s) h) as [h' p].
    destruct p as [r|partial]; injection Hadv as <-; [|by eapply keeps_query].
    apply answers_query; try done. exact (retask_clock w _ _ (set_health k h' s)).
  - apply bind_Some in Hadv as (h & Hh & Hadv). unfold on_refetch in Hadv. injection Hadv as <-.
    apply answers_query; try done. exact (retask_clock w _ _ (set_health k _ s)).
Qed.

Lemma past_seen f w st x s s' m :
  seen_as f s m -> workers s !! w = Some st -> past st = true -> advance w x s = Some s' -> seen_as f s' m.
Proof.
  intros Hs Hw Hp Hadv. destruct (past_carries w st x s s' Hw Hp Hadv) as (El & Ec & st' & Ew & Hlim & Hrs).
  apply (unseen_move f w st st' s); try done. rewrite Hp.
  destruct Hrs as [[-> ->]|[-> [r ->]]]; [exists []; by rewrite app_nil_r|].
  exists [r]. split; [done|]. pose proof (answered_count_snoc [] r) as E. simpl in E. rewrite E.
  by destruct (refused_name r).
Qed.
(** *** Runs *)

Lemma advance_seen cap f w x s s' m :
  seen_as f s m -> advance w x s = Some s' ->
  exists f' m', rtc (RateLimiter.step (RateLimiter.at_most cap)) m m' /\ seen_as f' s' m'.
Proof.
  intros Hs Hadv. destruct (workers s !! w) as [st|] eqn:Hw.
  2:{ unfold advance in Hadv. by rewrite Hw in Hadv. }
  destruct (past st) eqn:Hp; [exists f, m; split; [done|by eapply past_seen]|].
  assert (exists spurious, x = Go spurious) as [spurious ->].
  { destruct x as [spurious|x|tcp answer]; [by exists spurious|exfalso..];
      unfold advance in Hadv; rewrite Hw in Hadv; by destruct st. }
  destruct st; try discriminate Hp.
  - by eapply receive_seen.
  - exists f. by eapply limiting_seen.
  - unfold advance in Hadv. by rewrite Hw in Hadv.
Qed.

Lemma step_seen cap f s s' m :
  seen_as f s m -> capped_step cap s s' ->
  exists f' m', rtc (RateLimiter.step (RateLimiter.at_most cap)) m m' /\ seen_as f' s' m'.
Proof.
  intros Hs (a & Hcap & Hperf). destruct a as [w x|d|item| |seconds|r|q|k q]; simpl in Hperf, Hcap.
  - by eapply advance_seen.
  - destruct (Z.leb_spec 0 d); [|done]. injection Hperf as <-. exists f. eexists.
    split; [by apply rtc_once, (RateLimiter.step_tick _ m d)|]. destruct Hs as [Hl Hc Hcs Ha Hn].
    split; try done. unfold clock in *. simpl. by rewrite Hc.
  - destruct (_ && _); [|done]. injection Hperf as <-. exists f, m. split; [done|]. by apply (unseen f s).
  - injection Hperf as <-. exists f, m. split; [done|]. by apply (unseen f s).
  - injection Hperf as <-. exists f, m. split; [done|]. by apply (unseen f s).
  - injection Hperf as <-. exists f, m. split; [done|]. by apply (unseen f s).
  - apply bind_Some in Hperf as (l & Hl & [= <-]). rewrite <- (sa_limiter _ _ _ Hs) in Hl.
    exists f. eexists. split; [apply rtc_once; by eapply RateLimiter.step_set_rate|].
    by destruct Hs; split.
  - apply bind_Some in Hperf as (h & _ & Hperf). apply bind_Some in Hperf as (h' & _ & [= <-]).
    exists f, m. split; [done|]. by apply (unseen f s).
Qed.

(** The limiter's run behind a run of the fleet. *)
Lemma fleet_run_seen cap addrs config n s0 s :
  f64_fin cap -> initial addrs config n s0 -> RateLimiter.new cap (clock s0) = Some (limiter s0) ->
  rtc (capped_step cap) s0 s ->
  exists m0 f m, RateLimiter.initial (RateLimiter.at_most cap) m0 /\
    rtc (RateLimiter.step (RateLimiter.at_most cap)) m0 m /\ seen_as f s m.
Proof.
  intros Hf (_ & _ & _ & Hw & _ & _ & Hr) Hnew Hrun.
  set (m0 := RateLimiter.mk_sys (limiter s0) (clock s0) [] []).
  assert (Hs0 : seen_as id s0 m0).
  { assert (Hidle : forall w st, workers s0 !! w = Some st -> limiting st = None)
      by (intros w st; rewrite Hw; by intros [-> _]%lookup_replicate).
    split; try done.
    - intros w st a H1 H2. apply Hidle in H1. congruence.
    - unfold dispatched, past_count, answered_count. rewrite Hw, Hr, filter_none; [done|].
      by apply Forall_replicate. }
  exists m0. assert (Hinit : RateLimiter.initial (RateLimiter.at_most cap) m0) by (exists cap; by split_and!).
  clear Hw Hr Hnew. clearbody m0. cut (exists f m, rtc (RateLimiter.step (RateLimiter.at_most cap)) m0 m /\ seen_as f s m).
  { intros (f & m & H1 & H2). by exists f, m. }
  clear Hinit. revert m0 Hs0. generalize (id : nat -> nat).
  induction Hrun as [s|s s1 s2 Hstep _ IH]; intros f m Hs; [by exists f, m|].
  destruct (step_seen cap f s s1 m Hs Hstep) as (f1 & m1 & Hr1 & Hs1).
  destruct (IH f1 m1 Hs1) as (f2 & m2 & Hr2 & Hs2). exists f2, m2. split; [by etrans|done].
Qed.
(** ** Property *)

End Fleet.

(** ** Witness *)

Section FleetExamples.
Import ResolverWorker.
#[local] Existing Instance demo_errors.
#[local] Existing Instance demo_dns.
#[local] Open Scope Z_scope.

(** The two workers of [fleet0] at a thousand queries a second: the second one waits. *)
Definition paced0 : fleet := fleet0 <| limiter := RateLimiter.mk 1000000 0 0 |>.
Definition paced_schedule : list action :=
  [Send (item "a.example" 10); Send (item "b.example" 11); Tick 5]
  ++ go 18 0 ++ go 5 1 ++ [Tick 1000000; SetGlobalRate (f64_of_Z 500)] ++ go 13 1.
Definition paced_end : fleet := from_option id paced0 (perform_all paced_schedule paced0).

Lemma paced0_initial : initial [dns_server 1 53; dns_server 2 53] default_config 2 paced0.
Proof.
  split; [eexists _, (fun _ => true); split; vm_compute; reflexivity|].
  split_and!; vm_compute; reflexivity.
Qed.

End FleetExamples.
