(* ===== verification/Adaptive.v ===== *)
(** * The adaptive client: the fleet under its controller

    [AdaptiveController] and [ResolverWorker] share the global limiter, the attempt pacer
    and the resolvers.  Here they run together: every action of the fleet interleaved with
    the actions of a control tick (each resolver's statistics are loaded one after the
    other and then its rate is set; then the global rate; then the brake), with anything
    happening in between.  Each turns out to be a few
    rate changes, so what is proved of the fleet under arbitrary rate changes holds of the
    client as it is built; left alone, the actions make [AdaptiveController.tick]. *)

From Stdlib Require Import Ascii String.
From stdpp Require Import list.
From S2P Require Import Prelude Float64 Extern Limiter Judge Brake Config Addresses Errors Health.
From S2P Require Import Recording Controller Pool Utils Dns Worker Fleet.
#[local] Open Scope Z_scope.
#[local] Open Scope list_scope.

(** ** The controller only sets rates *)

Section Repacing.
Import AdaptiveController.
Context {A S : Type} `{SemaphoreOps S}.
Implicit Types (r : ResolverHealth.t A S) (c : t S).

(** A resolver, and a pacer, after rates were set. *)
Definition repaced : relation (ResolverHealth.t A S) :=
  rtc (fun r r' => exists q, ResolverHealth.set_rate q r = Some r').
Definition pacer_set : relation (AttemptPacer.t S) :=
  rtc (fun p p' => exists l, p' = AttemptPacer.set_rate l p).

Lemma repaced_once q r r' : ResolverHealth.set_rate q r = Some r' -> repaced r r'.
Proof. intros E. apply rtc_once. by exists q. Qed.

Ltac bound Hb := let x := fresh "x" in let E := fresh "E" in apply bind_Some in Hb as (x & E & Hb).

Lemma relax_repaces i now r c c' r' : relax i now r c = Some (c', r') -> repaced r r'.
Proof.
  unfold relax. intros Hr. bound Hr. destruct x as [e|]; [|by injection Hr as _ <-; constructor].
  destruct (EDGE_TTL <=? _).
  - do 4 bound Hr. injection Hr as _ <-. by eapply repaced_once.
  - destruct (f64_lt _ _); [bound Hr; injection Hr as _ <-; by eapply repaced_once|].
    injection Hr as _ <-. constructor.
Qed.

Lemma undo_repaces i r c c' r' : undo_retreat i r c = Some (c', r') -> repaced r r'.
Proof.
  unfold undo_retreat. intros Hr. do 2 bound Hr. destruct x; [|by injection Hr as _ <-; constructor].
  do 2 bound Hr. destruct x as [[e q]|]; [|by injection Hr as _ <-; constructor].
  do 2 bound Hr. injection Hr as _ <-. by eapply repaced_once.
Qed.

Lemma retreat_repaces i now conv d ws r c c' r' :
  retreat i now conv d ws r c = Some (c', r') -> repaced r r'.
Proof.
  unfold retreat. intros Hr. do 6 bound Hr. injection Hr as _ <-. by eapply repaced_once.
Qed.

Lemma judge_repaces i now w ws r c c' r' : judge_window i now w ws r c = Some (c', r') -> repaced r r'.
Proof.
  unfold judge_window. intros Hr. destruct (_ <? _); [by eapply relax_repaces|].
  bound Hr. destruct (LossJudge.judge _ _ x) as [j v]. bound Hr. destruct v.
  - by eapply retreat_repaces.
  - bound Hr. by eapply relax_repaces.
  - by eapply undo_repaces.
Qed.

Lemma visit_repaces {B} (st : ResolverStats B) secs now i r tot c c' r' tot' :
  visit_seen st secs now i r tot c = Some (c', r', tot') -> repaced r r'.
Proof.
  unfold visit_seen. intros Hr. do 6 bound Hr. bound Hr. destruct x5 as [c1 r1]. injection Hr as _ <- _.
  destruct (orb _ _) in E5; [by eapply relax_repaces|by eapply judge_repaces].
Qed.

(** The brake moves its pacer only by setting its rate. *)
Lemma set_limit_pacer l (b : AttemptBrake.t S) :
  pacer_set (AttemptBrake.pacer b) (AttemptBrake.pacer (AttemptBrake.set_limit l b)).
Proof. apply rtc_once. by eexists. Qed.

Lemma decide_pacer now rate loss delivered (b : AttemptBrake.t S) :
  pacer_set (AttemptBrake.pacer b) (AttemptBrake.pacer (AttemptBrake.decide_window now rate loss delivered b)).
Proof.
  unfold AttemptBrake.decide_window.
  repeat match goal with
  | |- context [match ?x with _ => _ end] => destruct x
  end; try apply rtc_refl; apply rtc_once; by eexists.
Qed.

Lemma close_pacer now (b : AttemptBrake.t S) :
  pacer_set (AttemptBrake.pacer b) (AttemptBrake.pacer (AttemptBrake.close_window now b)).
Proof.
  unfold AttemptBrake.close_window. cbv zeta. destruct (AttemptBrake.settling _); [constructor|].
  destruct (AttemptBrake.probe _) as [p|].
  - unfold AttemptBrake.measure_probe. destruct (1 <? _); [constructor|]. apply rtc_once. by eexists.
  - destruct (_ && negb _); [destruct (bool_decide _); [apply rtc_once; by eexists|constructor]|].
    etrans; [|apply decide_pacer]. constructor.
Qed.

Lemma brake_tick_pacer secs attempted lost responded longest now (b : AttemptBrake.t S) :
  pacer_set (AttemptBrake.pacer b)
    (AttemptBrake.pacer (AttemptBrake.tick secs attempted lost responded longest now b)).
Proof.
  unfold AttemptBrake.tick. destruct (f64_lt _ _).
  - unfold AttemptBrake.idle_tick, AttemptBrake.abandon_probe.
    destruct (AttemptBrake.probe b); [apply rtc_once; by eexists|constructor].
  - set (b1 := AttemptBrake.accumulate _ _ _ _ _).
    assert (H1 : pacer_set (AttemptBrake.pacer b) (AttemptBrake.pacer b1)).
    { unfold b1, AttemptBrake.accumulate. cbv zeta.
      transitivity (AttemptBrake.pacer (AttemptBrake.wake secs b)); [|by destruct (_ =? 0); constructor].
      unfold AttemptBrake.wake. destruct (0 <? _); [|constructor].
      destruct (f64_le _ _); [apply rtc_once; by eexists|constructor]. }
    destruct (AttemptBrake.window_full longest b1); [|done]. etrans; [exact H1|apply close_pacer].
Qed.

Lemma pace_attempts_pacer seconds now tot c :
  pacer_set (AttemptBrake.pacer (attempts c)) (AttemptBrake.pacer (attempts (pace_attempts seconds now tot c))).
Proof.
  unfold pace_attempts. cbn [attempts]. destruct (_ <=? _); [apply brake_tick_pacer|].
  destruct (AttemptBrake.limit _); [apply set_limit_pacer|constructor].
Qed.
End Repacing.

(** ** Actions of the fleet leave the pace alone *)

Section Paces.
Import ResolverWorker.
Context `{DnsTypes} {S : Type} `{HO : SemaphoreOps S} `{!Semaphore S}.
Implicit Types (s : sys (S := S)) (h : ResolverHealth.t SocketAddress S).

Definition sets_rate (a : action) : bool :=
  match a with SetAttemptRate _ | SetGlobalRate _ | SetResolverRate _ _ => true | _ => false end.

Definition paces s s' : Prop := Forall2 same_pace (resolvers s) (resolvers s').

#[local] Instance same_pace_refl : Reflexive (same_pace (A := SocketAddress) (S := S)).
Proof. by intros r. Qed.
#[local] Instance same_pace_trans : Transitive (same_pace (A := SocketAddress) (S := S)).
Proof. intros r1 r2 r3 H1 H2. unfold same_pace in *. congruence. Qed.

Lemma paces_same s s' : resolvers s' = resolvers s -> paces s s'.
Proof. intros E. unfold paces. rewrite E. reflexivity. Qed.

Lemma paces_trans s1 s2 s3 : paces s1 s2 -> paces s2 s3 -> paces s1 s3.
Proof. unfold paces. intros H1 H2. by etrans. Qed.

Lemma paces_health k h h' s : resolvers s !! k = Some h -> same_pace h h' -> paces s (set_health k h' s).
Proof.
  intros Hk Hp. unfold paces, resolvers in *. cbn. rewrite <- (list_insert_id _ _ _ Hk) at 1.
  by apply Forall2_insert.
Qed.

Lemma paces_permits s s' : only_permits (resolvers s) (resolvers s') -> paces s s'.
Proof. intros Hp. eapply Forall2_impl; [exact Hp|]. by intros r r' [sem ->]. Qed.

Lemma paces_retask w a b s : paces s (retask w a b s).
Proof. apply paces_permits. apply (move_permits w a b (reserving s)). Qed.

Lemma record_response_paces rtt had now h : same_pace h (ResolverHealth.record_response rtt had now h).
Proof.
  unfold same_pace, ResolverHealth.record_response, ResolverHealth.record_rtt. cbv zeta.
  destruct had; destruct (_ || _); try destruct (_ <? ResolverHealth.rtt_min_us _); reflexivity.
Qed.

Lemma on_reply_paces x started now h : same_pace h (on_reply x started now h).1.
Proof.
  unfold on_reply. destruct (ResolverHealth.query_bounded h x) as [response|err].
  - destruct (truncated response); [done|]. apply record_response_paces.
  - unfold same_pace. simpl.
    by destruct (record_error_frame (is_timeout err) now h) as (_ & _ & _ & _ & _ & _ & _ & _ & _ & _ & -> & _).
Qed.

Lemma acquire_keeps_interval spurious now l a l' a' :
  RateLimiter.acquire_step spurious now l a = (l', a') -> RateLimiter.interval_ns l' = RateLimiter.interval_ns l.
Proof.
  destruct a; simpl; intros E;
    repeat match type of E with context [if ?b then _ else _] => destruct b end; by injection E as <- _.
Qed.

Lemma pacer_action_paces w p' through waiting s s1 :
  resolvers s1 = resolvers s -> paces s (pacer_action w p' through waiting s1).
Proof. intros E. by apply paces_same. Qed.

Lemma advance_paces w x s s' : advance w x s = Some s' -> paces s s'.
Proof.
  unfold advance. intros Hadv. apply bind_Some in Hadv as (st & Hw & Hadv).
  destruct st as [|item name pc|item name|item name k pc|item name k|item name k|item name k
                 |item name k started|item name k started partial|];
    destruct x as [spurious|x|tcp answer]; try discriminate Hadv.
  - destruct (queue s) as [|item queue'].
    + destruct (closed s); [|done]. injection Hadv as <-. by apply paces_same.
    + destruct (from_ascii _); injection Hadv as <-; by apply paces_same.
  - destruct (RateLimiter.acquire_step _ _ _ _) as [l pc']. destruct pc'; injection Hadv as <-; by apply paces_same.
  - apply bind_Some in Hadv as (a & Ha & Hadv).
    assert (Hrun : paces s (s <| reserving := ResolverPool.run_task w a (reserving s) |>))
      by apply paces_permits, (run_task_permits w a (reserving s)).
    destruct a; injection Hadv as <-; first [exact Hrun|by apply paces_same].
  - apply bind_Some in Hadv as (h & Hh & Hadv).
    destruct (RateLimiter.acquire_step _ _ _ _) as [l pc'] eqn:E. apply acquire_keeps_interval in E.
    destruct pc'; injection Hadv as <-; by apply (paces_health k h).
  - injection Hadv as <-. by apply pacer_action_paces.
  - destruct (remove_one w (AttemptPacer.counted (pacer s))) as [c|];
      [|apply bind_Some in Hadv as (c & _ & Hadv)]; injection Hadv as <-; by apply pacer_action_paces.
  - apply bind_Some in Hadv as (h & Hh & Hadv). injection Hadv as <-. by apply (paces_health k h).
  - apply bind_Some in Hadv as (h & Hh & Hadv). pose proof (on_reply_paces x started (clock s) h) as Hp.
    destruct (on_reply x started (clock s) h) as [h' p]. simpl in Hp.
    destruct p as [r|partial]; injection Hadv as <-; [|by apply (paces_health k h)].
    eapply paces_trans; [by apply (paces_health k h h')|].
    eapply paces_trans; [apply (paces_retask w (ResolverPool.Reserved k) ResolverPool.Idle)|by apply paces_same].
  - apply bind_Some in Hadv as (h & Hh & Hadv). unfold on_refetch in Hadv. injection Hadv as <-.
    eapply paces_trans; [eapply (paces_health k h); [done|apply record_response_paces]|].
    eapply paces_trans; [apply (paces_retask w (ResolverPool.Reserved k) ResolverPool.Idle)|by apply paces_same].
Qed.

Lemma perform_paces a s s' : sets_rate a = false -> perform a s = Some s' -> paces s s'.
Proof.
  intros Ha Hperf. destruct a; try discriminate Ha; simpl in Hperf.
  - by eapply advance_paces.
  - destruct (0 <=? d); [|done]. injection Hperf as <-. by apply paces_same.
  - destruct (_ && _); [|done]. injection Hperf as <-. by apply paces_same.
  - injection Hperf as <-. by apply paces_same.
  - injection Hperf as <-. by apply paces_same.
Qed.
End Paces.

(** ** The client as it runs *)

Section AdaptiveClient.
Import ResolverWorker.
Context `{DnsTypes} {S : Type} `{HO : SemaphoreOps S} `{!Semaphore S}.
Implicit Types (s : sys (S := S)) (c : AdaptiveController.t S).
#[local] Open Scope record_scope.

(** Where the controller stands in its tick; the clock was read as the tick began. *)
Inductive phase :=
| Resting
| Visiting (i : nat) (seconds : f64) (now : Z) (tot : AdaptiveController.totals)
| Loading (i : nat) (loaded : list Z) (seconds : f64) (now : Z) (tot : AdaptiveController.totals)
| Balancing (seconds : f64) (now : Z) (tot : AdaptiveController.totals)
| Braking (seconds : f64) (now : Z) (tot : AdaptiveController.totals).

Record client_sys := mk_client {
  fleet : sys (S := S); controller : AdaptiveController.t S; ticking : phase
}.

(** The limiter and the pacer are shared: what the fleet did to them, the controller sees;
    what a tick did to them and to the resolvers, the fleet sees. *)
Definition attach s c : AdaptiveController.t S :=
  c <| AdaptiveController.global := limiter s |>
    <| AdaptiveController.attempts := (AdaptiveController.attempts c)
         <| AttemptBrake.pacer := AttemptPacer.pacer (pacer s) |> |>.
Definition with_resolvers (rs : list (ResolverHealth.t SocketAddress S)) s : sys :=
  s <| reserving := (reserving s)
         <| ResolverPool.pool := (ResolverPool.pool (reserving s)) <| ResolverPool.resolvers := rs |> |> |>.
Definition with_pacer (p : AttemptPacer.t S) s : sys :=
  s <| pacer := (pacer s) <| AttemptPacer.pacer := p |> |>.
Definition with_limiter (l : RateLimiter.t) s : sys := s <| limiter := l |>.

(** The controller's next action, a panic being [None]: a tick begins, [elapsed] after the
    one before; a resolver is visited; the global rate is set; the attempts are braked. *)
Definition control_act (outcomes : Outcomes) (elapsed : Z) (k : client_sys) : option client_sys :=
  let s := fleet k in
  let c := controller k in
  match ticking k with
  | Resting =>
      Some (mk_client s c
              (Visiting 0 (f64_max (as_secs_f64 elapsed) MICRO) (clock s) AdaptiveController.no_totals))
  | Visiting i seconds now tot =>
      match resolvers s !! i with
      | Some _ => Some (mk_client s c (Loading i [] seconds now tot))
      | None => Some (mk_client s c (Balancing seconds now tot))
      end
  | Loading i loaded seconds now tot =>
      r ← resolvers s !! i;
      match Recording.stats_fields !! length loaded with
      | Some field => Some (mk_client s c (Loading i (loaded ++ [field r]) seconds now tot))
      | None =>
          st ← Recording.assemble (ResolverHealth.resolver r) loaded;
          '(c', r', tot') ← AdaptiveController.visit_seen st seconds now i r tot c;
          Some (mk_client (set_health i r' s) c' (Visiting (Datatypes.S i) seconds now tot'))
      end
  | Balancing seconds now tot =>
      c' ← AdaptiveController.balance seconds tot outcomes c;
      Some (mk_client (with_limiter (AdaptiveController.global c') s) c' (Braking seconds now tot))
  | Braking seconds now tot =>
      let c' := AdaptiveController.pace_attempts seconds now tot c in
      Some (mk_client (with_pacer (AttemptBrake.pacer (AdaptiveController.attempts c')) s) c' Resting)
  end.

(** The controller alone, [n] actions of it. *)
Fixpoint control_alone (n : nat) (outcomes : Outcomes) (elapsed : Z) (k : client_sys) : option client_sys :=
  match n with
  | O => Some k
  | Datatypes.S n' => k' ← control_act outcomes elapsed k; control_alone n' outcomes elapsed k'
  end.

Inductive adaptive_step : client_sys -> client_sys -> Prop :=
| adaptive_action k a s' :
    sets_rate a = false -> perform a (fleet k) = Some s' ->
    adaptive_step k (mk_client s' (attach s' (controller k)) (ticking k))
| adaptive_control k outcomes elapsed k' :
    is_duration elapsed -> control_act outcomes elapsed k = Some k' -> adaptive_step k k'.

(** A schedule, to run the client: actions of the fleet, and of the controller. *)
Inductive client_action := FleetAction (a : action) | ControlAct (outcomes : Outcomes) (elapsed : Z).

Definition perform_client (x : client_action) (k : client_sys) : option client_sys :=
  match x with
  | FleetAction a =>
      if sets_rate a then None
      else s' ← perform a (fleet k); Some (mk_client s' (attach s' (controller k)) (ticking k))
  | ControlAct outcomes elapsed =>
      if bool_decide (is_duration elapsed) then control_act outcomes elapsed k else None
  end.
Fixpoint run_client (xs : list client_action) (k : client_sys) : option client_sys :=
  match xs with [] => Some k | x :: xs' => k' ← perform_client x k; run_client xs' k' end.

Lemma run_client_rtc xs : forall k k', run_client xs k = Some k' -> rtc adaptive_step k k'.
Proof.
  induction xs as [|x xs IH]; intros k k' Hr; simpl in Hr; [by injection Hr as <-|].
  apply bind_Some in Hr as (k1 & H1 & H2). eapply rtc_l; [|by apply IH]. clear IH H2.
  destruct x as [a|outcomes elapsed]; simpl in H1.
  - destruct (sets_rate a) eqn:Ea; [done|]. apply bind_Some in H1 as (s' & Hp & [= <-]).
    by eapply adaptive_action.
  - destruct (bool_decide (is_duration elapsed)) eqn:Ed; [|done]. apply bool_decide_eq_true in Ed.
    by eapply adaptive_control.
Qed.

(** First use: the workers' fleet, and a new controller under the configured ceiling. *)
Definition adaptive_initial (addrs : list SocketAddress) (config : BlastDNSConfig) (n : nat)
    (ceiling : f64) (k : client_sys) : Prop :=
  initial addrs config n (fleet k) /\
  RateLimiter.new ceiling (clock (fleet k)) = Some (limiter (fleet k)) /\
  controller k = AdaptiveController.new (length (resolvers (fleet k))) (limiter (fleet k))
                   AttemptPacer.new ceiling /\
  ticking k = Resting.

Definition phase_seconds (p : phase) : option f64 :=
  match p with
  | Resting => None
  | Visiting _ seconds _ _ | Loading _ _ seconds _ _ | Balancing seconds _ _ | Braking seconds _ _ => Some seconds
  end.

(** A resolver whose [stats] are being loaded exists, and no more are loaded than it has. *)
Definition loading_ok (n : nat) (p : phase) : Prop :=
  match p with Loading i loaded _ _ _ => (i < n)%nat /\ (length loaded <= 10)%nat | _ => True end.

Record adaptive_ok (ceiling : f64) (k : client_sys) : Prop := {
  ao_lanes : lanes_ok (length (resolvers (fleet k))) (controller k);
  ao_global : global_ok (controller k);
  ao_ceiling : AdaptiveController.global_ceiling (controller k) = ceiling;
  ao_resolvers : Forall resolver_ok (resolvers (fleet k));
  ao_limiter : limiter (fleet k) = AdaptiveController.global (controller k);
  ao_pacer : AttemptPacer.pacer (pacer (fleet k)) = AttemptBrake.pacer (AdaptiveController.attempts (controller k));
  ao_seconds : forall seconds, phase_seconds (ticking k) = Some seconds -> f64_nonneg seconds;
  ao_loading : loading_ok (length (resolvers (fleet k))) (ticking k);
}.

(** *** The controller's actions as actions of the fleet *)

Lemma set_resolver_rates cap k h h' s :
  resolvers s !! k = Some h -> repaced h h' -> rtc (capped_step cap) s (set_health k h' s).
Proof.
  intros Hk Hr. revert s Hk. induction Hr as [h|h h1 h' [q Hq] _ IH]; intros s Hk.
  - assert (set_health k h s = s) as ->; [|apply rtc_refl].
    unfold set_health, ResolverPool.update, resolvers in *. rewrite (list_insert_id _ _ _ Hk).
    by destruct s as [? ? ? [[] ? ?] ? ? ? ? ?].
  - eapply rtc_l; [exists (SetResolverRate k q); split; [done|]; simpl; rewrite Hk; simpl; by rewrite Hq|].
    assert (set_health k h' s = set_health k h' (set_health k h1 s)) as ->.
    { unfold set_health, ResolverPool.update. cbn. by rewrite list_insert_insert_eq. }
    apply IH. unfold resolvers. cbn. apply list_lookup_insert_eq. by eapply lookup_lt_Some.
Qed.

Lemma set_pacer_rates cap p' s :
  pacer_set (AttemptPacer.pacer (pacer s)) p' -> rtc (capped_step cap) s (with_pacer p' s).
Proof.
  intros Hr. remember (AttemptPacer.pacer (pacer s)) as p eqn:Ep. revert s Ep.
  induction Hr as [p|p p1 p' [l ->] _ IH]; intros s Ep.
  - assert (with_pacer p s = s) as ->; [|apply rtc_refl]. subst p.
    by destruct s as [? ? ? ? ? [] ? ? ?].
  - eapply rtc_l; [by exists (SetAttemptRate l)|].
    specialize (IH (with_pacer (AttemptPacer.set_rate l p) s) eq_refl). subst p. exact IH.
Qed.

Lemma set_limiter_rate cap l s :
  (l = limiter s \/ exists q, RateLimiter.at_most cap q /\ RateLimiter.set_rate q (limiter s) = Some l) ->
  rtc (capped_step cap) s (with_limiter l s).
Proof.
  intros [->|(q & Hq & E)].
  - assert (with_limiter (limiter s) s = s) as ->; [by destruct s|apply rtc_refl].
  - apply rtc_once. exists (SetGlobalRate q). split; [done|]. simpl. by rewrite E.
Qed.

(** *** Runs *)

Lemma adaptive_initial_ok addrs config n ceiling k :
  f64_fin ceiling -> 0 < units ceiling -> adaptive_initial addrs config n ceiling k -> adaptive_ok ceiling k.
Proof.
  intros Hf Hpos (Hinit & Hnew & Ec & Et). destruct Hinit as ((p & alive & Hn & Ep) & _ & Hpacer & _).
  assert (f64_nonneg (f64_of_Z 0)) as H0f by (split; vm_compute; trivial).
  split; rewrite ?Ec, ?Et; try reflexivity; try discriminate.
  - split; simpl; [by rewrite !length_replicate| | |]; apply Forall_replicate;
      [discriminate|discriminate|exact H0f].
  - split; [by split|exact H0f|discriminate].
  - apply Forall_lookup_2. intros i h Hi. unfold resolvers in Hi. rewrite Ep in Hi.
    destruct (fresh_resolver _ _ _ _ _ _ _ Hn Hi) as (_ & _ & E).
    unfold resolver_ok, one_qps_or_more. rewrite E. unfold NANOS_PER_SEC. lia.
  - by rewrite Hpacer.
Qed.

Lemma control_act_ok ceiling outcomes elapsed k :
  adaptive_ok ceiling k -> is_duration elapsed ->
  exists k', control_act outcomes elapsed k = Some k' /\ adaptive_ok ceiling k' /\
    rtc (capped_step ceiling) (fleet k) (fleet k').
Proof.
  intros [Hl Hg Hc Hr Hlim Hpac Hsec Hld] Hel. unfold control_act. destruct k as [s c p]. cbn [fleet controller ticking] in *.
  destruct p as [|i seconds now tot|i loaded seconds now tot|seconds now tot|seconds now tot];
    cbn [phase_seconds loading_ok] in *; try specialize (Hsec _ eq_refl).
  - eexists. split; [reflexivity|]. split; [|constructor]. split; try done.
    cbn. intros seconds [= <-]. by apply seconds_nonneg.
  - destruct (resolvers s !! i) as [r|] eqn:Hi; (eexists; split; [reflexivity|]; split; [|constructor]);
      split; try done; try (by intros ? [= <-]). cbn. apply lookup_lt_Some in Hi. lia.
  - destruct Hld as [Hlt Hlen]. destruct (lookup_lt_is_Some_2 _ _ Hlt) as [r Hi]. rewrite Hi. cbn [mbind option_bind].
    destruct (Recording.stats_fields !! length loaded) as [field|] eqn:Ef.
    { eexists. split; [reflexivity|]. split; [|constructor]. split; try done; try (by intros ? [= <-]).
      apply lookup_lt_Some in Ef. cbn. rewrite length_app. simpl in *. lia. }
    apply lookup_ge_None in Ef. simpl in Ef.
    destruct (assemble_full (ResolverHealth.resolver r) loaded) as [st ->]; [lia|]. cbn [mbind option_bind].
    destruct (visit_ok st _ seconds now i r tot c Hl Hlt (Forall_lookup_1 _ _ _ _ Hr Hi) Hsec)
      as (c' & r' & tot' & E & Hl' & Hr' & Hs'). rewrite E. cbn [mbind option_bind].
    eexists. split; [reflexivity|]. split; [|exact (set_resolver_rates ceiling i r r' s Hi (visit_repaces _ _ _ _ _ _ _ _ _ _ E))].
    pose proof (same_global_ok _ _ Hs' Hg) as Hg'. unfold same_global in Hs'. destruct_and! Hs'.
    unfold resolvers in *. split; cbn; try congruence; [by rewrite length_insert|by apply Forall_insert|done].
  - destruct (balance_ok seconds tot outcomes c Hg Hsec) as (c' & -> & Hg' & Hcap & Ec & Ep & Hl').
    cbn [mbind option_bind]. eexists. split; [reflexivity|]. split.
    + split; cbn; try congruence; try done; by apply Hl'.
    + apply set_limiter_rate. destruct Hcap as [E|(q & Hq & E)]; [left; congruence|right]. exists q.
      rewrite Hlim. split; [congruence|done].
  - destruct (pace_attempts_ok seconds now tot c Hg) as [Hg' Hl']. eexists. split; [reflexivity|]. split.
    + split; cbn; try done. by apply Hl'.
    + apply set_pacer_rates. rewrite Hpac. apply pace_attempts_pacer.
Qed.

Lemma adaptive_step_ok ceiling k k' :
  adaptive_ok ceiling k -> adaptive_step k k' ->
  adaptive_ok ceiling k' /\ rtc (capped_step ceiling) (fleet k) (fleet k').
Proof.
  intros Hk Hstep. destruct Hstep as [k a s' Ha Hperf|k outcomes elapsed k' Hel Hact].
  2:{ destruct (control_act_ok ceiling outcomes elapsed k Hk Hel) as (k1 & E & Hk1 & Hr1).
      rewrite Hact in E. by injection E as <-. }
  pose proof (perform_paces a _ _ Ha Hperf) as Hpaces. destruct Hk as [Hl Hg Hc Hr Hlim Hpac Hsec Hld]. split.
  - pose proof (Forall2_length _ _ _ Hpaces) as Hlen. split; simpl; try done.
    + rewrite <- Hlen. destruct Hl. by split.
    + destruct Hg. by split.
    + clear -Hpaces Hr. unfold paces in Hpaces. induction Hpaces as [|r r' rs rs' E _ IH]; [done|].
      apply Forall_cons in Hr as [Hr Hrs]. constructor; [|by apply IH].
      unfold resolver_ok, one_qps_or_more, same_pace in *. by rewrite E.
    + by rewrite <- Hlen.
  - apply rtc_once. exists a. split; [|done]. by destruct a.
Qed.

Lemma adaptive_run_ok ceiling k0 k :
  rtc adaptive_step k0 k -> adaptive_ok ceiling k0 ->
  adaptive_ok ceiling k /\ rtc (capped_step ceiling) (fleet k0) (fleet k).
Proof.
  induction 1 as [k|k k1 k2 Hstep _ IH]; intros Hk; [by split; [|constructor]|].
  destruct (adaptive_step_ok ceiling k k1 Hk Hstep) as [Hk1 Hr1]. destruct (IH Hk1) as [Hk2 Hr2].
  split; [done|by etrans].
Qed.

(** *** A tick undisturbed *)

Lemma act_begins outcomes elapsed s c i seconds now tot r : resolvers s !! i = Some r ->
  control_act outcomes elapsed (mk_client s c (Visiting i seconds now tot)) =
  Some (mk_client s c (Loading i [] seconds now tot)).
Proof. unfold control_act. cbn [fleet controller ticking]. by intros ->. Qed.

Lemma act_loads outcomes elapsed s c i loaded seconds now tot r field :
  resolvers s !! i = Some r -> Recording.stats_fields !! length loaded = Some field ->
  control_act outcomes elapsed (mk_client s c (Loading i loaded seconds now tot)) =
  Some (mk_client s c (Loading i (loaded ++ [field r]) seconds now tot)).
Proof. unfold control_act. cbn [fleet controller ticking]. intros -> E. cbn [mbind option_bind]. by rewrite E. Qed.

(** One resolver's turn: twelve actions, its [stats] loaded with nobody in between. *)
Lemma visit_alone n outcomes elapsed s c i seconds now tot r : resolvers s !! i = Some r ->
  control_alone (12 + n) outcomes elapsed (mk_client s c (Visiting i seconds now tot)) =
  ('(c', r', tot') ← AdaptiveController.visit seconds now i r tot c;
   control_alone n outcomes elapsed (mk_client (set_health i r' s) c' (Visiting (Datatypes.S i) seconds now tot'))).
Proof.
  intros Hi. cbn [Nat.add control_alone]. rewrite (act_begins _ _ _ _ _ _ _ _ r Hi). cbn [mbind option_bind].
  do 10 (erewrite act_loads by (exact Hi || reflexivity); cbn [mbind option_bind app]).
  unfold control_act at 1. cbn [fleet controller ticking]. rewrite Hi. cbn [mbind option_bind].
  rewrite (lookup_ge_None_2 Recording.stats_fields) by (simpl; lia).
  change (Recording.assemble _ _) with (Some (ResolverHealth.stats r)).
  cbn [mbind option_bind]. unfold AdaptiveController.visit.
  by destruct (AdaptiveController.visit_seen _ _ _ _ _ _ _) as [[[c1 r1] tot1]|].
Qed.

(** What a whole tick leaves: resolvers, limiter and pacer. *)
Definition install c (rs : list (ResolverHealth.t SocketAddress S)) s : sys :=
  with_pacer (AttemptBrake.pacer (AdaptiveController.attempts c))
    (with_limiter (AdaptiveController.global c) (with_resolvers rs s)).

Lemma with_own_resolvers s : with_resolvers (resolvers s) s = s.
Proof. by destruct s as [? ? ? [[] ? ?] ? ? ? ? ?]. Qed.

Lemma visits_alone n outcomes elapsed seconds now rs : forall pre s c tot, resolvers s = pre ++ rs ->
  control_alone (12 * length rs + n) outcomes elapsed (mk_client s c (Visiting (length pre) seconds now tot)) =
  ('(c', rs', tot') ← AdaptiveController.visit_all seconds now (length pre) rs tot c;
   control_alone n outcomes elapsed
     (mk_client (with_resolvers (pre ++ rs') s) c' (Visiting (length pre + length rs) seconds now tot'))).
Proof.
  induction rs as [|r rs IH]; intros pre s c tot Hs; cbn [length AdaptiveController.visit_all].
  - rewrite Nat.mul_0_r. cbn [Nat.add mbind option_bind]. by rewrite <- Hs, with_own_resolvers, Nat.add_0_r.
  - replace (12 * Datatypes.S (length rs) + n)%nat with (12 + (12 * length rs + n))%nat by lia.
    rewrite (visit_alone _ _ _ _ _ _ _ _ _ r) by (rewrite Hs; by apply list_lookup_middle).
    destruct (AdaptiveController.visit seconds now (length pre) r tot c) as [[[c1 r1] tot1]|]; [|done].
    cbn [mbind option_bind]. specialize (IH (pre ++ [r1]) (set_health (length pre) r1 s) c1 tot1).
    rewrite length_app in IH. cbn [length] in IH. rewrite Nat.add_1_r in IH. rewrite IH.
    + destruct (AdaptiveController.visit_all seconds now (Datatypes.S (length pre)) rs tot1 c1) as [[[c2 rs2] tot2]|];
        [|done]. cbn [mbind option_bind]. rewrite <- app_assoc, Nat.add_succ_r. done.
    + unfold resolvers in *. cbn. rewrite Hs, insert_app_r_alt, Nat.sub_diag by done. by rewrite <- app_assoc.
Qed.

Lemma visit_all_length seconds now (rs : list (ResolverHealth.t SocketAddress S)) : forall i tot c c' rs' tot',
  AdaptiveController.visit_all seconds now i rs tot c = Some (c', rs', tot') -> length rs' = length rs.
Proof.
  induction rs as [|r rs IH]; intros i tot c c' rs' tot' E; cbn [AdaptiveController.visit_all] in E;
    [by injection E as _ <- _|].
  apply bind_Some in E as ([[c1 r1] t1] & _ & E). apply bind_Some in E as ([[c2 rs2] t2] & E2 & E).
  injection E as _ <- _. simpl. by rewrite (IH _ _ _ _ _ _ E2).
Qed.

Lemma act_visited outcomes elapsed s c i seconds now tot : resolvers s !! i = None ->
  control_act outcomes elapsed (mk_client s c (Visiting i seconds now tot))
  = Some (mk_client s c (Balancing seconds now tot)).
Proof. unfold control_act. cbn. by intros ->. Qed.

(** Left alone, the actions of a tick make [tick]. *)
Lemma tick_alone outcomes elapsed k : ticking k = Resting ->
  control_alone (12 * length (resolvers (fleet k)) + 4) outcomes elapsed k =
  ('(c', rs') ← AdaptiveController.tick (resolvers (fleet k)) outcomes elapsed (clock (fleet k)) (controller k);
   Some (mk_client (install c' rs' (fleet k)) c' Resting)).
Proof.
  destruct k as [s c p]. cbn [fleet controller ticking]. intros ->. rewrite Nat.add_succ_r. cbn [control_alone].
  unfold control_act at 1. cbn [fleet controller ticking mbind option_bind]. unfold AdaptiveController.tick.
  set (seconds := f64_max _ _).
  rewrite (visits_alone 3 outcomes elapsed seconds (clock s) (resolvers s) [] s c _ eq_refl).
  cbn [length app Nat.add].
  destruct (AdaptiveController.visit_all _ _ _ _ _ _) as [[[c1 rs1] tot]|] eqn:Ev; [|done].
  cbn [mbind option_bind control_alone].
  rewrite act_visited by (apply lookup_ge_None_2; unfold resolvers; cbn; by rewrite (visit_all_length _ _ _ _ _ _ _ _ _ Ev)).
  cbn [mbind option_bind].
  destruct (AdaptiveController.balance seconds tot outcomes c1) as [c2|] eqn:Eb;
    unfold control_act at 2; cbn [fleet controller ticking]; rewrite Eb; done.
Qed.

(** C8: the client with its controller refines the fleet under capped rates.  Every run
    of workers, senders and the controller's actions, sharing limiter, pacer and resolvers
    as the program does, with anything happening in the middle of a tick, is a run of the
    fleet whose global rate is only ever set up to the configured ceiling, so politeness,
    accounting, delivery and the rate cap hold of it; at every moment the controller's next
    action goes through, whatever it measures, and a tick that is left alone is
    [AdaptiveController.tick]. *)
Theorem adaptive_fleet_refines addrs config n ceiling k0 k :
  f64_fin ceiling -> 0 < units ceiling -> adaptive_initial addrs config n ceiling k0 ->
  rtc adaptive_step k0 k ->
  initial addrs config n (fleet k0) /\
  rtc (capped_step ceiling) (fleet k0) (fleet k) /\
  limiter (fleet k) = AdaptiveController.global (controller k) /\
  Forall (fun h => 1 <= RateLimiter.interval_ns (ResolverHealth.limiter h) <= NANOS_PER_SEC) (resolvers (fleet k)) /\
  (forall outcomes elapsed, is_duration elapsed ->
   (exists k', control_act outcomes elapsed k = Some k') /\
   (ticking k = Resting -> exists c' rs',
     AdaptiveController.tick (resolvers (fleet k)) outcomes elapsed (clock (fleet k)) (controller k) = Some (c', rs') /\
     control_alone (12 * length (resolvers (fleet k)) + 4) outcomes elapsed k
     = Some (mk_client (install c' rs' (fleet k)) c' Resting))).
Proof.
  intros Hf Hpos Hinit Hrun. pose proof (adaptive_initial_ok _ _ _ _ _ Hf Hpos Hinit) as Hok0.
  destruct (adaptive_run_ok ceiling k0 k Hrun Hok0) as [Hok Hcap].
  split; [apply Hinit|]. split; [done|]. split; [apply Hok|]. split; [exact (ao_resolvers _ _ Hok)|].
  intros outcomes elapsed Hel. split.
  - destruct (control_act_ok ceiling outcomes elapsed k Hok Hel) as (k' & E & _). by exists k'.
  - intros Hrest. pose proof (tick_alone outcomes elapsed k Hrest) as Halone. destruct Hok as [Hl Hg _ Hr _ _ _ _].
    destruct (tick_ok (resolvers (fleet k)) outcomes elapsed (clock (fleet k)) (controller k) Hl Hg Hr Hel)
      as (c' & rs' & E & _).
    exists c', rs'. split; [done|]. by rewrite Halone, E.
Qed.
End AdaptiveClient.

(** ** Witness *)

Section AdaptiveExamples.
Import ResolverWorker.
#[local] Existing Instance demo_errors.
#[local] Existing Instance demo_dns.
#[local] Open Scope Z_scope.

Definition client0 : client_sys (S := ref_sem) :=
  mk_client paced0 (AdaptiveController.new 2 (limiter paced0) AttemptPacer.new (f64_of_Z 1000)) Resting.

(** A query goes out; half of the finished ones failed, so a tick lowers the global rate,
    while the query's reply arrives in the middle of it; then another query waits. *)
Definition control (n : nat) : list client_action :=
  replicate n (ControlAct (mk_outcomes 100 50) (from_millis 500)).
Definition client_schedule : list client_action :=
  (FleetAction <$> [Send (item "a.example" 10); Send (item "b.example" 11); Tick 5] ++ go 18 0)
  ++ control 5 ++ (FleetAction <$> [Act 0 (Reply (ResolverHealth.Answered full_answer))])
  ++ control 23 ++ (FleetAction <$> go 7 1).
Definition client_end : client_sys (S := ref_sem) := from_option id client0 (run_client client_schedule client0).

Example rate_lowered :
  AdaptiveController.global_limit (controller client_end) = Some (f64_of_Z 2 * RETREAT)%f64.
Proof. vm_compute. reflexivity. Qed.

Lemma adaptive_fleet_refines_witness :
  let ceiling := f64_of_Z 1000 in
  initial [dns_server 1 53; dns_server 2 53] default_config 2 (fleet client0) /\
  rtc (capped_step ceiling) (fleet client0) (fleet client_end) /\
  limiter (fleet client_end) = AdaptiveController.global (controller client_end) /\
  Forall (fun h => 1 <= RateLimiter.interval_ns (ResolverHealth.limiter h) <= NANOS_PER_SEC)
    (resolvers (fleet client_end)) /\
  (forall outcomes elapsed, is_duration elapsed ->
   (exists k', control_act outcomes elapsed client_end = Some k') /\
   (ticking client_end = Resting -> exists c' rs',
     AdaptiveController.tick (resolvers (fleet client_end)) outcomes elapsed (clock (fleet client_end))
       (controller client_end) = Some (c', rs') /\
     control_alone (12 * length (resolvers (fleet client_end)) + 4) outcomes elapsed client_end
     = Some (mk_client (install c' rs' (fleet client_end)) c' Resting))).
Proof.
  intros ceiling.
  apply (adaptive_fleet_refines [dns_server 1 53; dns_server 2 53] default_config 2 ceiling client0 client_end).
  - f64_const.
  - vm_compute. reflexivity.
  - split; [exact paced0_initial|]. split_and!; vm_compute; reflexivity.
  - apply (run_client_rtc client_schedule). vm_compute. reflexivity.
Defined.
End AdaptiveExamples.
