(* ===== verification/Client.v ===== *)
(** * The client: [client.rs]

    [with_config] with every check in its order, [ensure_workers], and [resolve_full]
    in its three phases: the cache lookup, the attempts, whose replies come from the
    workers, and the conclusion, which fills the cache and counts the outcome.  Other
    tasks may act between the phases. *)

From Stdlib Require Import Ascii String.
From stdpp Require Import list.
From S2P Require Import Prelude Float64 Extern Limiter Config Addresses Errors Cache Health.
From S2P Require Import Controller Pool Utils Dns.
#[local] Open Scope Z_scope.
#[local] Open Scope list_scope.

(** Most queries a single persistent socket can carry at once. *)
Definition PERSISTENT_INFLIGHT_LIMIT : Z := 32.

(** [Outcomes::default]. *)
Definition default_outcomes : Outcomes := mk_outcomes 0 0.
#[export] Instance outcomes_settable : Settable Outcomes :=
  fun o => mk_outcomes (completed o) (failed o).

Definition answers_the_question `{DnsTypes} (response : DnsResponse) : bool :=
  match response_code response with NoError | NXDomain => true | OtherCode _ => false end.

Module BlastDNSClient.
Section BlastDNSClient.
Context `{DnsTypes} {S L : Type} `{SemaphoreOps S} `{LruOps Query (SimpleCache.CacheEntry DnsResponse) L}.

(** The work channel belongs to the workers' state. *)
Record t := mk {
  resolvers : list SocketAddress;
  pool : ResolverPool.t SocketAddress S;
  limiter : RateLimiter.t;
  outcomes : Outcomes;
  config : BlastDNSConfig;
  queue_capacity : Z;
  workers_spawned : bool;
  cache : option (SimpleCache.t L)
}.
#[global] Instance t_settable : Settable t := fun c =>
  mk (resolvers c) (pool c) (limiter c) (outcomes c) (config c) (queue_capacity c)
    (workers_spawned c) (cache c).

(** ** Construction *)

(** What the system contributes to building a client. *)
Record environment := mk_env {
  set_order : list IpAddr -> list IpAddr;
  system_conf : result (list SocketAddress) text;
  rlimits : rlimit_calls
}.

(** A system resolver, as the text that is parsed again. *)
Definition system_resolver (i : IpAddr) : text := show_ip i ++ lit ":53".

Definition resolver_texts (env : environment) (resolvers : list text) : result (list text) BlastDNSError :=
  match resolvers with
  | [] =>
      let? system_ips := get_system_resolvers (set_order env) (system_conf env) in
      Ok (system_resolver <$> system_ips)
  | _ => Ok resolvers
  end.

Definition too_many_inflight (config : BlastDNSConfig) : text :=
  lit "max_inflight_per_resolver of " ++ show_Z (max_inflight_per_resolver config)
  ++ lit " exceeds the " ++ show_Z PERSISTENT_INFLIGHT_LIMIT
  ++ lit " a persistent socket can carry before its transport blocks; lower it or set persistent_socket=false".

(** [None] is a panic of one of the rate limiters. *)
Definition with_config (env : environment) (resolvers : list text) (config : BlastDNSConfig) (now : Z)
    : option (result t BlastDNSError) :=
  let checked :=
    let? inputs := resolver_texts env resolvers in
    let? parsed := collect (parse_resolver <$> inputs) in
    if Config.persistent_socket config
       && (PERSISTENT_INFLIGHT_LIMIT <? max_inflight_per_resolver config)
    then Err (Configuration (too_many_inflight config))
    else
      let queue_capacity := Z.max (max_concurrency config) 1 in
      let? _ := map_err Configuration
                  (check_ulimits (rlimits env) queue_capacity (Z.of_nat (length parsed))
                     (Config.persistent_socket config)) in
      Ok (parsed, queue_capacity) in
  match checked with
  | Err e => Some (Err e)
  | Ok (parsed, queue_capacity) =>
      pool ← ResolverPool.new parsed config now;
      limiter ← RateLimiter.new (from_option id UNLIMITED_QPS (rate_limit config)) now;
      let cache :=
        if 0 <? cache_capacity config
        then Some (SimpleCache.new (cache_capacity config) (cache_min_ttl config) (cache_max_ttl config))
        else None in
      Some (Ok (mk parsed pool limiter default_outcomes config queue_capacity false cache))
  end.

Definition new (env : environment) (resolvers : list text) (now : Z) : option (result t BlastDNSError) :=
  with_config env resolvers default_config now.

(** [resolvers()]: the addresses as texts. *)
Definition resolver_list (c : t) : list text := show_socket <$> resolvers c.

Definition stats (c : t) : list (ResolverStats SocketAddress) := ResolverPool.stats (pool c).

(** The global pacing rate, unless unlimited. *)
Definition global_rate_qps (c : t) : option f64 :=
  let rate := RateLimiter.rate (limiter c) in
  if (rate <? UNLIMITED_QPS)%f64 then Some rate else None.

Definition get_concurrency (c : t) : Z := Z.max (queue_capacity c) 1.

(** ** First use *)

(** What is set going on first use: how many workers, and the controller if any. *)
Record started := mk_started {
  worker_count : Z;
  controller : option (AdaptiveController.t S)
}.

(** What the first use runs; [alive] tells which resolvers answer the startup probe. *)
Definition start_workers (alive : nat -> bool) (c : t) : t * started :=
  let concurrency := Z.max (max_concurrency (config c)) 1 in
  let ceiling := from_option id UNLIMITED_QPS (rate_limit (config c)) in
  let pool' := if resolver_probe (config c) then (ResolverPool.probe alive (pool c)).1 else pool c in
  let controller :=
    if adaptive (config c)
    then Some (AdaptiveController.new (length (ResolverPool.resolvers pool')) (limiter c)
                 AttemptPacer.new ceiling)
    else None in
  (c <| pool := pool' |>, mk_started concurrency controller).

(** Later uses start nothing. *)
Definition ensure_workers (alive : nat -> bool) (c : t) : t * option started :=
  if workers_spawned c then (c, None)
  else let '(c, st) := start_workers alive c in (c <| workers_spawned := true |>, Some st).

(** ** [resolve_full] *)

(** What an attempt brings back: the queue was closed, the worker went away without
    answering, or it answered. *)
Inductive delivery :=
| QueueShut
| Dropped
| Delivered (r : result DnsResponse BlastDNSError).

(** How the attempts ended: with a response to report, a closed queue, an error, or by
    running out of the loop. *)
Inductive verdict :=
| Settled (response : DnsResponse)
| Shut
| GaveUp (err : BlastDNSError)
| RanOut.

Definition prepare_host (host : text) (record_type : RecordType) : text :=
  if decide (record_type = PTR) then format_ptr_query host else host.

Definition look_up (host : text) (record_type : RecordType) (now : Z) (cache : option (SimpleCache.t L))
    : option (SimpleCache.t L) * option DnsResponse :=
  match cache with
  | Some c =>
      match parse_name host with
      | Ok name =>
          let '(c', response) := SimpleCache.get (question name record_type) now c in (Some c', response)
      | Err _ => (cache, None)
      end
  | None => (None, None)
  end.

(** [for attempt in 0..attempts], [reply i] being what attempt [i] brings back: the
    verdict, and how many queries were put on the queue. *)
Fixpoint attempt_loop (fuel attempt : nat) (attempts : Z) (reply : nat -> delivery) : verdict * nat :=
  match fuel with
  | O => (RanOut, attempt)
  | Datatypes.S fuel' =>
      match reply attempt with
      | QueueShut => (Shut, attempt)
      | d =>
          let response := match d with Delivered r => r | _ => Err WorkerDropped end in
          match response with
          | Ok resp =>
              if negb (answers_the_question resp) && (Z.of_nat attempt + 1 <? attempts)
              then attempt_loop fuel' (Datatypes.S attempt) attempts reply
              else (Settled resp, Datatypes.S attempt)
          | Err err =>
              if (Z.of_nat attempt + 1 =? attempts) || negb (is_retryable err)
              then (GaveUp err, Datatypes.S attempt)
              else attempt_loop fuel' (Datatypes.S attempt) attempts reply
          end
      end
  end.

Definition run_attempts (config : BlastDNSConfig) (reply : nat -> delivery) : verdict * nat :=
  let attempts := u64_saturating_add (max_retries config) 1 in
  attempt_loop (Z.to_nat attempts) 0 attempts reply.

(** The state shared by the tasks that resolve. *)
Record shared := mk_shared { sh_cache : option (SimpleCache.t L); sh_outcomes : Outcomes }.
#[global] Instance shared_settable : Settable shared := fun s => mk_shared (sh_cache s) (sh_outcomes s).

Definition count_completed (o : Outcomes) : Outcomes := o <| completed := fetch_add (completed o) 1 |>.
Definition count_failed (o : Outcomes) : Outcomes :=
  o <| completed := fetch_add (completed o) 1 |> <| failed := fetch_add (failed o) 1 |>.

(** Caching the response; [None] is the panic of the insertion. *)
Definition fill_cache (host : text) (record_type : RecordType) (resp : DnsResponse) (now : Z)
    (cache : option (SimpleCache.t L)) : option (option (SimpleCache.t L)) :=
  match cache with
  | Some c =>
      if has_answers resp then
        match parse_name host with
        | Ok name => c' ← SimpleCache.insert (question name record_type) resp now c; Some (Some c')
        | Err _ => Some cache
        end
      else Some cache
  | None => Some None
  end.

Definition conclude (host : text) (record_type : RecordType) (now : Z) (v : verdict) (s : shared)
    : option (shared * result DnsResponse BlastDNSError) :=
  match v with
  | Settled resp =>
      cache' ← fill_cache host record_type resp now (sh_cache s);
      Some (mk_shared cache' (count_completed (sh_outcomes s)), Ok resp)
  | Shut => Some (s, Err QueueClosed)
  | GaveUp err =>
      Some (if is_congestion_evidence err
            then s <| sh_outcomes := count_failed (sh_outcomes s) |> else s, Err err)
  | RanOut => Some (s, Err WorkerDropped)
  end.

(** One call when no other task acts in between; with the number of queries enqueued. *)
Definition resolve_full (config : BlastDNSConfig) (host : text) (record_type : RecordType)
    (looked_up_at concluded_at : Z) (reply : nat -> delivery) (s : shared)
    : option (shared * nat * result DnsResponse BlastDNSError) :=
  let host := prepare_host host record_type in
  let '(cache', hit) := look_up host record_type looked_up_at (sh_cache s) in
  let s := s <| sh_cache := cache' |> in
  match hit with
  | Some response => Some (s, 0%nat, Ok response)
  | None =>
      let '(v, enqueued) := run_attempts config reply in
      '(s', r) ← conclude host record_type concluded_at v s; Some (s', enqueued, r)
  end.

End BlastDNSClient.
Arguments t S L : clear implicits.
Arguments shared L : clear implicits.
End BlastDNSClient.

(** ** Retries *)

Section ClientProofs.
Import BlastDNSClient.
Context `{DnsTypes} {S L : Type} `{SemaphoreOps S} `{LruOps Query (SimpleCache.CacheEntry DnsResponse) L}.

(** Replies after which the loop asks again, while attempts are left. *)
Definition retried (d : delivery) : bool :=
  match d with
  | QueueShut => false
  | Dropped => true
  | Delivered (Ok resp) => negb (answers_the_question resp)
  | Delivered (Err err) => is_retryable err
  end.

(** The verdict when a reply is the last one. *)
Definition verdict_of (d : delivery) : verdict :=
  match d with
  | QueueShut => Shut
  | Dropped => GaveUp WorkerDropped
  | Delivered (Ok resp) => Settled resp
  | Delivered (Err err) => GaveUp err
  end.
Definition enqueued_by (d : delivery) (j : nat) : nat :=
  match d with QueueShut => j | _ => Datatypes.S j end.

Lemma attempt_loop_spec reply : forall fuel attempt,
  (0 < fuel)%nat ->
  exists j, (attempt <= j < attempt + fuel)%nat /\
    (forall i, (attempt <= i < j)%nat -> retried (reply i) = true) /\
    (retried (reply j) = false \/ (j + 1 = attempt + fuel)%nat) /\
    attempt_loop fuel attempt (Z.of_nat (attempt + fuel)) reply
    = (verdict_of (reply j), enqueued_by (reply j) j).
Proof.
  induction fuel as [|fuel IH]; intros attempt Hf; [lia|].
  assert (Hlast : (retried (reply attempt) = false \/ fuel = 0%nat) ->
    attempt_loop (Datatypes.S fuel) attempt (Z.of_nat (attempt + Datatypes.S fuel)) reply
    = (verdict_of (reply attempt), enqueued_by (reply attempt) attempt)).
  { intros Hstop. simpl. destruct (reply attempt) as [| |[resp|err]]; simpl in *; [done|..].
    - destruct Hstop as [?|E]; [done|]. destruct (Z.eqb_spec (Z.of_nat attempt + 1) (Z.of_nat (attempt + Datatypes.S fuel))); [done|lia].
    - destruct Hstop as [->|E]; [done|].
      destruct (Z.ltb_spec (Z.of_nat attempt + 1) (Z.of_nat (attempt + Datatypes.S fuel))); [lia|].
      by rewrite andb_false_r.
    - destruct Hstop as [->|E]; [by rewrite orb_true_r|].
      destruct (Z.eqb_spec (Z.of_nat attempt + 1) (Z.of_nat (attempt + Datatypes.S fuel))); [done|lia]. }
  destruct (decide (retried (reply attempt) = false \/ fuel = 0%nat)) as [Hstop|Hgo].
  { exists attempt. split; [lia|]. split; [lia|]. split; [destruct Hstop; [by left|right; lia]|by apply Hlast]. }
  destruct (retried (reply attempt)) eqn:Hr; [|by destruct Hgo; left].
  assert (fuel <> 0%nat) as Hne by tauto.
  destruct (IH (Datatypes.S attempt) ltac:(lia)) as (j & Hj & Hbefore & Hend & E).
  exists j. split; [lia|]. split.
  { intros i Hi. destruct (decide (i = attempt)) as [->|]; [done|]. apply Hbefore. lia. }
  split; [destruct Hend; [by left|right; lia]|]. rewrite <- E.
  replace (Datatypes.S attempt + fuel)%nat with (attempt + Datatypes.S fuel)%nat by lia. simpl.
  destruct (reply attempt) as [| |[resp|err]]; simpl in Hr; [done|..].
  - destruct (Z.eqb_spec (Z.of_nat attempt + 1) (Z.of_nat (attempt + Datatypes.S fuel))); [lia|done].
  - rewrite Hr. destruct (Z.ltb_spec (Z.of_nat attempt + 1) (Z.of_nat (attempt + Datatypes.S fuel))); [done|lia].
  - rewrite Hr. destruct (Z.eqb_spec (Z.of_nat attempt + 1) (Z.of_nat (attempt + Datatypes.S fuel))); [lia|done].
Qed.

(** C11: the retry loop always ends, within [max_retries + 1] attempts (saturating), and
    on the reply of a definite attempt [j]: every earlier one was worth retrying (a
    dropped worker, a transient error, a resolver that declined), and [j] is not or was
    the last.  So the [WorkerDropped] after the loop is never returned. *)
Theorem retries_bounded config reply :
  0 <= max_retries config <= u64_max ->
  let attempts := Z.min (max_retries config + 1) u64_max in
  exists j, Z.of_nat j < attempts /\
    (forall i, (i < j)%nat -> retried (reply i) = true) /\
    (retried (reply j) = false \/ Z.of_nat j + 1 = attempts) /\
    run_attempts config reply = (verdict_of (reply j), enqueued_by (reply j) j) /\
    (run_attempts config reply).1 <> RanOut.
Proof.
  intros Hm. cbv zeta. unfold run_attempts, u64_saturating_add.
  set (attempts := Z.min (max_retries config + 1) u64_max).
  assert (1 <= attempts) by (unfold attempts, u64_max, u64_modulus in *; lia).
  destruct (attempt_loop_spec reply (Z.to_nat attempts) 0 ltac:(lia)) as (j & Hj & Hb & He & E).
  cbn [Nat.add] in E. rewrite Z2Nat.id in E by lia. exists j. split; [lia|].
  split; [intros i Hi; apply Hb; lia|]. split; [destruct He; [by left|right; lia]|].
  rewrite E. split; [done|].
  by destruct (reply j) as [| |[]].
Qed.

(** ** Outcomes *)

Definition evidence (v : verdict) : bool :=
  match v with GaveUp err => is_congestion_evidence err | _ => false end.
Definition counted (v : verdict) : bool := match v with Settled _ => true | _ => evidence v end.

(** A history of the shared state: cache lookups and the like, and the verdicts of the
    calls that concluded. *)
Inductive history : shared L -> list verdict -> shared L -> Prop :=
| history_nil s : history s [] s
| history_cache s c vs s' : history (s <| sh_cache := c |>) vs s' -> history s vs s'
| history_conclude s host rt now v s1 r vs s' :
    conclude host rt now v s = Some (s1, r) -> history s1 vs s' -> history s (v :: vs) s'.

Definition tally (f : verdict -> bool) (vs : list verdict) : Z :=
  Z.of_nat (length (filter (fun v => f v = true) vs)).

Lemma tally_cons f v vs : tally f (v :: vs) = (if f v then 1 else 0) + tally f vs.
Proof. unfold tally. rewrite filter_cons. destruct (f v); simpl; lia. Qed.
Lemma tally_bounds f vs : 0 <= tally f vs <= Z.of_nat (length vs).
Proof. unfold tally. pose proof (length_filter (fun v => f v = true) vs). lia. Qed.
Lemma tally_evidence vs : tally evidence vs <= tally counted vs.
Proof.
  induction vs as [|v vs IH]; [done|]. rewrite !tally_cons.
  destruct v as [resp| |err|]; simpl; try destruct (is_congestion_evidence err); lia.
Qed.

Lemma conclude_outcomes host rt now v s s' r : conclude host rt now v s = Some (s', r) ->
  completed (sh_outcomes s') =
    (if counted v then fetch_add (completed (sh_outcomes s)) 1 else completed (sh_outcomes s)) /\
  failed (sh_outcomes s') =
    (if evidence v then fetch_add (failed (sh_outcomes s)) 1 else failed (sh_outcomes s)).
Proof.
  destruct v as [resp| |err|]; simpl; intros Hc.
  - apply bind_Some in Hc as (c & _ & [= <- <-]). done.
  - by injection Hc as <- <-.
  - destruct (is_congestion_evidence err); by injection Hc as <- <-.
  - by injection Hc as <- <-.
Qed.

Lemma history_outcomes s vs s' : history s vs s' ->
  completed (sh_outcomes s') ≡64 completed (sh_outcomes s) + tally counted vs /\
  failed (sh_outcomes s') ≡64 failed (sh_outcomes s) + tally evidence vs.
Proof.
  induction 1 as [s|s c vs s' _ IH|s host rt now v s1 r vs s' Hc _ [IH1 IH2]].
  - split; apply eq64_refl; unfold tally; simpl; lia.
  - exact IH.
  - destruct (conclude_outcomes _ _ _ _ _ _ _ Hc) as [E1 E2]. rewrite E1 in IH1. rewrite E2 in IH2.
    rewrite !tally_cons. split; [rewrite IH1|rewrite IH2].
    + destruct (counted v); rewrite ?fetch_add_eq64; apply eq64_refl; lia.
    + destruct (evidence v); rewrite ?fetch_add_eq64; apply eq64_refl; lia.
Qed.

(** The counters stay 64-bit numbers. *)
Definition counters_u64 (s : shared L) : Prop :=
  0 <= completed (sh_outcomes s) < u64_modulus /\ 0 <= failed (sh_outcomes s) < u64_modulus.

Lemma fetch_add_range a b : 0 <= fetch_add a b < u64_modulus.
Proof. by apply Z.mod_pos_bound. Qed.

Lemma history_u64 s vs s' : history s vs s' -> counters_u64 s -> counters_u64 s'.
Proof.
  induction 1 as [s|s c vs s' _ IH|s host rt now v s1 r vs s' Hc _ IH]; [done|exact IH|].
  intros [Hcs Hfs]. apply IH. destruct (conclude_outcomes _ _ _ _ _ _ _ Hc) as [E1 E2].
  unfold counters_u64. rewrite E1, E2. destruct (counted v), (evidence v); split; done || apply fetch_add_range.
Qed.

End ClientProofs.

(** ** Answers from the cache *)

Section CacheHits.
Import BlastDNSClient.
Context `{DnsTypes} {L : Type} `{LruOps Query (SimpleCache.CacheEntry DnsResponse) L}.
Context `{!Lru Query (SimpleCache.CacheEntry DnsResponse) L}.
Implicit Types c : SimpleCache.t L.

(** A cache in working order: its map is sound and no thread panicked holding its lock. *)
Definition cache_ready c : Prop :=
  lru_ok (SimpleCache.inner c) /\ 1 <= lru_cap (SimpleCache.inner c) /\ SimpleCache.poisoned c = false.

Lemma get_poisoned q now c : SimpleCache.poisoned (SimpleCache.get q now c).1 = SimpleCache.poisoned c.
Proof.
  unfold SimpleCache.get. destruct (SimpleCache.poisoned c) eqn:E; [done|].
  destruct (lru_get q (SimpleCache.inner c)) as [l [e|]]; [|done]. by destruct (now <? SimpleCache.expire_at e).
Qed.

Lemma get_ready q now c : cache_ready c ->
  cache_ready (SimpleCache.get q now c).1 /\
  forall r : DnsResponse, SimpleCache.lifetime (SimpleCache.get q now c).1 r = SimpleCache.lifetime c r.
Proof.
  intros (Hok & Hcap & Hp). destruct (lookup_entries q now c Hok) as (_ & Hok' & Hcap' & Emin & Emax & _).
  split; [|intros r; by apply lifetime_ttls]. split_and!; [done|lia|by rewrite get_poisoned].
Qed.

(** A response worth caching, concluded with, is found again. *)
Lemma conclude_cached host rt now name resp c (s s' : shared L) r now' :
  sh_cache s = Some c -> cache_ready c -> parse_name host = Ok name ->
  min_or_zero (answer_ttls resp) <> 0 ->
  conclude host rt now (Settled resp) s = Some (s', r) -> now' < now + SimpleCache.lifetime c resp ->
  exists c', look_up host rt now' (sh_cache s') = (Some c', Some resp).
Proof.
  intros Ec (Hok & Hcap & Hp) Hn Httl Hconc Hnow. simpl in Hconc. rewrite Ec in Hconc. simpl in Hconc.
  assert (has_answers resp = true) as Ha.
  { destruct (has_answers resp) eqn:E; [done|]. apply no_ttls in E. rewrite E in Httl. done. }
  rewrite Ha, Hn in Hconc. apply bind_Some in Hconc as (cache' & Hins & [= <- <-]).
  apply bind_Some in Hins as (c' & Hins & [= <-]).
  pose proof (get_after_insert (question name rt) resp now now' c c' Hok Hcap Hp Httl Hins) as Hget.
  destruct (Z.ltb_spec now' (now + SimpleCache.lifetime c resp)); [|lia].
  unfold look_up. simpl. rewrite Hn.
  destruct (SimpleCache.get (question name rt) now' c') as [c2 found]. simpl in Hget. subst found. by exists c2.
Qed.

End CacheHits.

(** ** Construction *)

Section Construction.
Import BlastDNSClient.
Context `{DnsTypes} {S L : Type} `{SemaphoreOps S} `{LruOps Query (SimpleCache.CacheEntry DnsResponse) L}.

(** Building the pool never panics: resolvers start unlimited. *)
Lemma pool_builds (addrs : list SocketAddress) config now :
  exists p : ResolverPool.t SocketAddress S, ResolverPool.new addrs config now = Some p.
Proof.
  unfold ResolverPool.new.
  assert (is_Some (mapM (fun addr => ResolverHealth.new (S := S) addr config now now) addrs)) as [rs ->].
  { apply mapM_is_Some_2, Forall_forall. intros addr _. by eexists. }
  by eexists.
Qed.

(** A client as [with_config] leaves it. *)
Record built (env : environment) (inputs : list text) (cfg : BlastDNSConfig) (c : t S L) : Prop := {
  bt_resolvers : exists texts, resolver_texts env inputs = Ok texts /\
    Forall2 (fun s a => parse_resolver s = Ok a) texts (resolvers c);
  bt_pool : length (ResolverPool.resolvers (pool c)) = length (resolvers c);
  bt_permits : forall k h, ResolverPool.resolvers (pool c) !! k = Some h ->
    ResolverHealth.inflight h = sem_new (max_inflight_per_resolver cfg);
  bt_persistent : Config.persistent_socket cfg = true ->
    max_inflight_per_resolver cfg <= PERSISTENT_INFLIGHT_LIMIT;
  bt_limits : check_ulimits (rlimits env) (queue_capacity c) (Z.of_nat (length (resolvers c)))
                (Config.persistent_socket cfg) = Ok tt;
  bt_queue : queue_capacity c = max_concurrency cfg /\ get_concurrency c = max_concurrency cfg;
  bt_cache : is_Some (cache c) <-> 0 < cache_capacity cfg;
}.

Lemma parse_resolver_error s e : parse_resolver s = Err e -> is_congestion_evidence e = false.
Proof.
  unfold parse_resolver. destruct (parse_socket s); [done|]. destruct (parse_ip _); [done|].
  by intros [= <-].
Qed.

Lemma collect_error {T} (rs : list (result T BlastDNSError)) e :
  (forall r e, r ∈ rs -> r = Err e -> is_congestion_evidence e = false) ->
  collect rs = Err e -> is_congestion_evidence e = false.
Proof.
  induction rs as [|r rs IH]; intros Hall Hc; [done|]. simpl in Hc.
  destruct r as [x|e']; simpl in Hc.
  - destruct (collect rs) as [xs|e2]; simpl in Hc; [done|]. injection Hc as ->.
    apply IH; [|done]. intros r' e3 Hr. apply Hall. by right.
  - injection Hc as ->. apply (Hall (Err e)); [by left|done].
Qed.

End Construction.

(** ** TTL bounds that cross *)

Section TtlBounds.
Import BlastDNSClient.
Context `{DnsTypes} {S L : Type} `{SemaphoreOps S} `{LruOps Query (SimpleCache.CacheEntry DnsResponse) L}.
Context `{!Lru Query (SimpleCache.CacheEntry DnsResponse) L}.

(** The state a client starts to resolve from. *)
Definition opening (c : t S L) : shared L := mk_shared (cache c) (outcomes c).

Lemma with_config_cache env inputs cfg now (c : t S L) :
  with_config env inputs cfg now = Some (Ok c) -> 0 < cache_capacity cfg ->
  opening c = mk_shared (Some (SimpleCache.new (cache_capacity cfg) (cache_min_ttl cfg) (cache_max_ttl cfg)))
                default_outcomes.
Proof.
  unfold with_config, opening. intros Hw Hcap.
  match type of Hw with match ?checked with _ => _ end = _ => destruct checked as [[parsed q]|e] end; [|done].
  apply bind_Some in Hw as (p & _ & Hw). apply bind_Some in Hw as (l & _ & [= <-]). simpl.
  by destruct (Z.ltb_spec 0 (cache_capacity cfg)); [|lia].
Qed.

(** Nothing is found in a new cache. *)
Lemma new_cache_misses host rt now capacity lo hi :
  exists c : SimpleCache.t L,
    look_up host rt now (Some (SimpleCache.new capacity lo hi)) = (Some c, None) /\
    SimpleCache.min_ttl c = lo /\ SimpleCache.max_ttl c = hi.
Proof.
  unfold look_up. destruct (parse_name host) as [name|e]; [|by eexists].
  unfold SimpleCache.get. simpl.
  destruct (lru_new_spec (Z.max capacity 1) ltac:(lia)) as (Hok & He & _).
  pose proof (lru_get_spec (question name rt) (lru_new (Z.max capacity 1)) Hok) as Hg.
  destruct (lru_get (question name rt) (lru_new (Z.max capacity 1))) as [l v].
  destruct Hg as (_ & _ & -> & _). rewrite He. simpl. by eexists.
Qed.

End TtlBounds.

(** ** System resolvers *)

(** C27: system resolvers only survive as IPv4.  The text made of a system address and
    [":53"] is parsed again: for an IPv4 address it gives that address and port 53; for an
    IPv6 address, which would need brackets, it gives an error or some other address,
    never the one the system configured. *)
Theorem system_resolvers_only_v4 `{ErrorTypes} i :
  well_formed i ->
  match i with
  | V4 _ _ _ _ => parse_resolver (BlastDNSClient.system_resolver i) = Ok (mk_socket i 53 0)
  | V6 _ => forall a, parse_resolver (BlastDNSClient.system_resolver i) = Ok a -> ip a <> i
  end.
Proof.
  unfold BlastDNSClient.system_resolver. change (lit ":53") with port_53. intros Hw.
  destruct i as [a b c d|l]; cbn [show_ip].
  - unfold parse_resolver, parse_socket, read_socket. by rewrite read_shown_v4.
  - pose proof Hw as [Hlen Hl]. intros addr.
    assert (Hport : Forall address_char port_53) by (by apply (bool_decide_eq_true_1 _)).
    destruct (show_v6_text l Hw) as [a b c d El H4|hs z ts Hz El|].
    + destruct (mapped_with_port a b c d H4) as [l' Hread]. rewrite parse_resolver_bare; [| |done|done].
      * unfold parse_ip. rewrite Hread. done.
      * rewrite !Forall_app. split; [split|done]; [|by apply show_v4_address_chars].
        by apply (bool_decide_eq_true_1 _).
    + assert (Hsplit : Forall is_segment hs /\ Forall is_segment ts /\ (length hs + z + length ts = 8)%nat).
      { rewrite El in Hl, Hlen. rewrite !Forall_app in Hl. rewrite !length_app, length_replicate in Hlen.
        destruct Hl as (? & _ & ?). split_and!; done || lia. }
      destruct Hsplit as (Hhs & Hts & Hsum).
      rewrite parse_resolver_bare.
      * rewrite (compressed_with_port hs z ts) by done. destruct ts as [|t ts]; [done|].
        intros [= <-]. cbn [ip]. intros [= E]. rewrite El in E. apply app_inv_head in E.
        replace z with (Datatypes.S (z - 1)) in E at 2 by lia.
        rewrite replicate_S_end, <- app_assoc in E. apply app_inv_head in E.
        apply (snoc_cons_eq (t :: ts) 83 0) in E. done.
      * rewrite !Forall_app. split; [split|done]; [by apply show_segments_chars|].
        do 2 (constructor; [by right; right|]). by apply show_segments_chars.
      * destruct hs; [done|]. intros E. apply app_nil in E as [E _]. by apply app_nil in E as [_ E].
      * rewrite <- app_assoc. apply segments_no_ipv4; [done|apply after_colon|]. by intros _.
    + assert (Hread : read_ip (show_segments l ++ port_53) = Some (V6 l, port_53))
        by (apply read_full_ipv6; [done|apply after_colon]).
      rewrite parse_resolver_bare.
      * unfold parse_ip. by rewrite Hread.
      * apply Forall_app. split; [by apply show_segments_chars|done].
      * intros E. by apply app_nil in E as [_ E].
      * apply segments_no_ipv4; [done|apply after_colon|]. by intros ->.
Qed.

(** ** Witnesses and examples *)

Section ClientExamples.
Import BlastDNSClient.
#[local] Existing Instance demo_errors.
#[local] Existing Instance demo_dns.
#[local] Open Scope Z_scope.
#[local] Open Scope list_scope.

Abbreviation demo_lru := (ref_lru Query (SimpleCache.CacheEntry DnsResponse)).
Definition ask_once : BlastDNSConfig :=
  from_wire (mk_wire 64 8 None true false false 1000 2 10 1000 10 10 86400).
Definition A_TYPE : RecordType := 1.
Definition PTR_TYPE : RecordType := 12.
Definition timed_out : BlastDNSError := QueryTimedOut (mk_socket (V4 192 0 2 1) 53 0) 5.
Definition declined : DnsResponse := mk_demo [] false (OtherCode 5).
Definition found : DnsResponse := mk_demo [(300, lit "192.0.2.7")] false NoError.
Definition replies (i : nat) : delivery :=
  match i with O => Dropped | 1%nat => Delivered (Ok declined) | _ => Delivered (Ok found) end.

Example third_attempt : run_attempts ask_once replies = (Settled found, 3%nat).
Proof. vm_compute. reflexivity. Qed.

(** On the last attempt even a refusal is reported. *)
Example last_refusal :
  run_attempts ask_once (fun _ => Delivered (Ok declined)) = (Settled declined, 3%nat).
Proof. vm_compute. reflexivity. Qed.

Lemma retries_bounded_witness :
  exists j, Z.of_nat j < 3 /\ (forall i, (i < j)%nat -> retried (replies i) = true) /\
    (retried (replies j) = false \/ Z.of_nat j + 1 = 3) /\
    run_attempts ask_once replies = (verdict_of (replies j), enqueued_by (replies j) j) /\
    (run_attempts ask_once replies).1 <> RanOut.
Proof. apply (retries_bounded ask_once replies). vm_compute. split; discriminate. Defined.

Definition fresh_state : shared demo_lru :=
  mk_shared (Some (SimpleCache.new 10 (from_secs 10) (from_secs 86400))) default_outcomes.
Definition first_call : option (shared demo_lru * nat * result DnsResponse BlastDNSError) :=
  resolve_full ask_once (lit "192.0.2.7") PTR_TYPE 0 (from_secs 1) replies fresh_state.
Definition after_call : shared demo_lru := from_option (fun x => x.1.1) fresh_state first_call.
Definition cache_of (s : shared demo_lru) : SimpleCache.t demo_lru :=
  from_option id (SimpleCache.new 10 0 0) (sh_cache s).


Definition demo_env : environment :=
  mk_env id (Ok [mk_socket (V4 192 0 2 53) 53 0; mk_socket (V6 [8193; 18528; 18528; 0; 0; 0; 0; 34952]) 53 0])
    (raisable 1024 4096).

(** 2001:4860:4860::8888 becomes 2001:4860:4860::8888:53. *)
Example google_v6_misread :
  match with_config (S := ref_sem) (L := demo_lru) demo_env [] ask_once 0 with
  | Some (Ok c) => resolvers c
  | _ => []
  end = [mk_socket (V4 192 0 2 53) 53 0;
         mk_socket (V6 [8193; 18528; 18528; 0; 0; 0; 34952; 83]) 53 0].
Proof. vm_compute. reflexivity. Qed.


Definition google_v6 : IpAddr := V6 [8193; 18528; 18528; 0; 0; 0; 0; 34952].
Definition misread : SocketAddress := mk_socket (V6 [8193; 18528; 18528; 0; 0; 0; 34952; 83]) 53 0.
Lemma system_resolvers_only_v4_witness :
  parse_resolver (system_resolver google_v6) = Ok misread /\ ip misread <> google_v6.
Proof.
  assert (E : parse_resolver (system_resolver google_v6) = Ok misread) by (vm_compute; reflexivity).
  split; [exact E|]. apply (system_resolvers_only_v4 google_v6); [|exact E].
  split; [reflexivity|]. repeat constructor; vm_compute; discriminate.
Defined.
(** Ten seconds at least, five at most. *)
Definition crossed : BlastDNSConfig :=
  from_wire (mk_wire 64 8 None true false false 1000 2 10 1000 10 10 5).
Definition crossed_client : BlastDNSClient.t ref_sem demo_lru :=
  match with_config demo_env [lit "192.0.2.1"] crossed 0 with
  | Some (Ok c) => c
  | _ => mk [] (ResolverPool.mk [] 0 0) (RateLimiter.mk 1 0 0) default_outcomes crossed 0 false None
  end.
End ClientExamples.
