(* ===== verification/Handles.v ===== *)
(** * First use, and clones of a client: [ensure_workers] of [client.rs]

    The first call of a client starts its workers, and calls that come meanwhile wait for
    it.  A client can be cloned; clones share the pool, the limiter, the outcomes, the
    queue and the cache, but each has a cell of its own that remembers whether the workers
    were started, with what the cell held when it was cloned.  Here callers come to any
    handle at any time, start, wait and are cancelled, and handles are cloned in between.
    A handle starts its workers at most once and nobody gets past it before; handles
    cloned from a client that is running start nothing, but handles cloned before the
    first use start the full number of workers apiece. *)

From Stdlib Require Import String.
From stdpp Require Import list relations.
From S2P Require Import Prelude Float64 Extern Limiter Config Addresses Errors Cache Health.
From S2P Require Import Controller Pool Utils Dns Worker Client.
#[local] Open Scope Z_scope.
#[local] Open Scope list_scope.

Module Handles.
Section Handles.
Import BlastDNSClient.
Context `{DnsTypes} {S L C : Type} `{SemaphoreOps S} `{LruOps Query (SimpleCache.CacheEntry DnsResponse) L}.
Context `{OnceClone unit C}.

(** A caller in [ensure_workers]: waiting its turn, probing the resolvers, past it, gone. *)
Inductive pc := Calling | Probing | Passed | Cancelled.

(** What the handles share is one [client]; [launched] are the workers and controllers set
    going, each with its handle. *)
Record sys := mk {
  client : BlastDNSClient.t S L;
  cells : list C;
  callers : list (nat * pc);
  launched : list (nat * started (S := S))
}.
#[global] Instance sys_settable : Settable sys :=
  fun s => mk (client s) (cells s) (callers s) (launched s).

Definition built (c : BlastDNSClient.t S L) : sys := mk c [once_new] [] [].

(** A handle, as the client it is. *)
Definition handle (k : nat) (s : sys) : option (BlastDNSClient.t S L) :=
  c ← cells s !! k;
  Some ((client s) <| workers_spawned := match once_get c with Some _ => true | None => false end |>).

Definition go (w k : nat) (p : pc) (s : sys) : sys := s <| callers := <[w := (k, p)]> (callers s) |>.

(** The first use of handle [k], whose cell [c] is being initialised, comes to its end. *)
Definition launch (alive : nat -> bool) (w k : nat) (c : C) (s : sys) : sys :=
  let '(client', st) := start_workers alive (client s) in
  go w k Passed
    (s <| client := client' |> <| cells := <[k := once_finish (Some tt) c]> (cells s) |>
       <| launched := launched s ++ [(k, st)] |>).

Inductive action :=
| Clone (k : nat)
| Call (k : nat)
| Act (w : nat) (alive : nat -> bool)
| Cancel (w : nat).

Definition perform (a : action) (s : sys) : option sys :=
  match a with
  | Clone k => c ← cells s !! k; Some (s <| cells := cells s ++ [once_clone c] |>)
  | Call k => _ ← cells s !! k; Some (s <| callers := callers s ++ [(k, Calling)] |>)
  | Act w alive =>
      '(k, p) ← callers s !! w;
      c ← cells s !! k;
      match p with
      | Calling =>
          match once_get c with
          | Some _ => Some (go w k Passed s)
          | None =>
              c' ← once_start w c;
              (* without the probe the initialisation does not wait for anything *)
              if resolver_probe (config (client s))
              then Some (go w k Probing (s <| cells := <[k := c']> (cells s) |>))
              else Some (launch alive w k c' s)
          end
      | Probing => Some (launch alive w k c s)
      | _ => None
      end
  | Cancel w =>
      '(k, p) ← callers s !! w;
      c ← cells s !! k;
      match p with
      | Calling => Some (go w k Cancelled s)
      | Probing => Some (go w k Cancelled (s <| cells := <[k := once_finish None c]> (cells s) |>))
      | _ => None
      end
  end.

(** All the workers there are. *)
Definition total_workers (s : sys) : Z := foldr Z.add 0 ((fun l => worker_count l.2) <$> launched s).

Definition step (s s' : sys) : Prop := exists a, perform a s = Some s'.
Fixpoint perform_all (acts : list action) (s : sys) : option sys :=
  match acts with [] => Some s | a :: acts => s' ← perform a s; perform_all acts s' end.

End Handles.
End Handles.

Section HandlesProofs.
Import BlastDNSClient Handles.
Context `{DnsTypes} {S L C : Type} `{SemaphoreOps S} `{LruOps Query (SimpleCache.CacheEntry DnsResponse) L}.
Context `{HC : OnceCell unit C} `{!OnceClone unit C}.
Implicit Types (s : Handles.sys (S := S) (L := L) (C := C)).

(** The workers of one launch, by the configuration. *)
Definition launched_by (config : BlastDNSConfig) (st : started (S := S)) : Prop :=
  worker_count st = Z.max (max_concurrency config) 1 /\
  (controller st <> None <-> adaptive config = true).

Record handles_ok (cfg : BlastDNSConfig) s : Prop := {
  ho_config : config (client s) = cfg;
  ho_running k c w : cells s !! k = Some c ->
    once_running c = Some w <-> callers s !! w = Some (k, Probing);
  ho_idle k c : cells s !! k = Some c -> once_get c <> None -> once_running c = None;
  ho_callers w k p : callers s !! w = Some (k, p) -> (k < length (cells s))%nat;
  ho_passed w k c : callers s !! w = Some (k, Passed) -> cells s !! k = Some c -> once_get c <> None;
  ho_once : NoDup (launched s).*1;
  ho_launched k st : (k, st) ∈ launched s ->
    launched_by cfg st /\ exists c, cells s !! k = Some c /\ once_get c <> None;
  ho_some k c : cells s !! k = Some c -> once_get c <> None -> launched s <> [];
}.

Lemma built_ok c : handles_ok (config c) (built c).
Proof.
  destruct once_new_spec as [Eg Er]. split; simpl; try done; [..|constructor|by intros k st ?%elem_of_nil|].
  - intros k x w [-> <-]%list_lookup_singleton_Some. by rewrite Er.
  - intros k x [-> <-]%list_lookup_singleton_Some. done.
  - intros k x [-> <-]%list_lookup_singleton_Some. by rewrite Eg.
Qed.

Lemma start_workers_config alive (c : BlastDNSClient.t S L) :
  config (start_workers alive c).1 = config c /\ launched_by (config c) (start_workers alive c).2.
Proof.
  unfold start_workers, launched_by. simpl. split; [done|]. split; [done|]. by destruct (adaptive (config c)).
Qed.

(** A caller of handle [k] moves from [p0] to [p], leaving its cell as [c']; nobody is
    launched. *)
Lemma go_ok cfg w k p0 p c c' s :
  handles_ok cfg s -> callers s !! w = Some (k, p0) -> cells s !! k = Some c ->
  (once_running c' = Some w <-> p = Probing) ->
  (forall v, v <> w -> once_running c' = Some v <-> once_running c = Some v) ->
  once_get c' = once_get c -> (once_get c' <> None -> once_running c' = None) ->
  (p = Passed -> once_get c' <> None) ->
  handles_ok cfg (go w k p (s <| cells := <[k := c']> (cells s) |>)).
Proof.
  intros [Hcfg Hrun Hidle Hcal Hpass Hnd Hl Hsome] Hw Hk Hself Hother Eg Hi Hp.
  assert (Hkl : (k < length (cells s))%nat) by (by eapply lookup_lt_Some).
  assert (Hwl : (w < length (callers s))%nat) by (by eapply lookup_lt_Some).
  assert (Hcell : forall j x, <[k := c']> (cells s) !! j = Some x ->
    j = k /\ x = c' \/ j <> k /\ cells s !! j = Some x).
  { intros j x [(-> & -> & _)|[? ?]]%list_lookup_insert_Some; [by left|by right]. }
  split; simpl; try done.
  - intros j x v [[-> ->]|[Hne Hj]]%Hcell; destruct (decide (v = w)) as [->|Hv].
    + rewrite list_lookup_insert_eq by done. rewrite Hself. split; [by intros ->|by intros [= ->]].
    + rewrite list_lookup_insert_ne by done. rewrite Hother by done. by apply Hrun.
    + rewrite list_lookup_insert_eq by done. rewrite (Hrun j x w Hj), Hw. split; congruence.
    + rewrite list_lookup_insert_ne by done. by apply Hrun.
  - intros j x [[-> ->]|[Hne Hj]]%Hcell; [done|by eapply Hidle].
  - intros v j q. rewrite length_insert. intros [(-> & E & _)|[? ?]]%list_lookup_insert_Some; [congruence|by eapply Hcal].
  - intros v j x [(-> & E & _)|[Hv Hc]]%list_lookup_insert_Some [[-> ->]|[Hne Hj]]%Hcell; simplify_eq; auto.
    + rewrite Eg. by eapply Hpass.
    + by eapply Hpass.
  - intros j st Hin. destruct (Hl j st Hin) as [Hb (x & Hx & Hg)]. split; [done|].
    destruct (decide (j = k)) as [->|Hne].
    + exists c'. rewrite list_lookup_insert_eq, Eg by done. split; [done|]. congruence.
    + exists x. by rewrite list_lookup_insert_ne.
  - intros j x [[-> ->]|[Hne Hj]]%Hcell; [rewrite Eg; exact (Hsome k c Hk)|by eapply Hsome].
Qed.

(** The same when the cell stays as it is. *)
Lemma go_only cfg w k p c s :
  handles_ok cfg s -> callers s !! w = Some (k, Calling) -> cells s !! k = Some c -> p <> Probing ->
  (p = Passed -> once_get c <> None) -> handles_ok cfg (go w k p s).
Proof.
  intros Hs Hw Hk Hp Hg. pose proof (ho_running _ _ Hs k c w Hk) as Hrun. rewrite Hw in Hrun.
  pose proof (go_ok cfg w k Calling p c c s Hs Hw Hk) as Hgo. rewrite (list_insert_id _ _ _ Hk) in Hgo.
  assert (s <| cells := cells s |> = s) as E by (by destruct s). rewrite E in Hgo.
  apply Hgo; try done; [|exact (ho_idle _ _ Hs k c Hk)]. rewrite Hrun. split; [congruence|by intros ->].
Qed.

(** The first use of handle [k] comes to its end. *)
Lemma launch_ok cfg alive w k p0 c0 c s :
  handles_ok cfg s -> callers s !! w = Some (k, p0) -> cells s !! k = Some c0 ->
  once_get c0 = None -> once_get c = None -> once_running c = Some w ->
  (once_running c0 = None \/ once_running c0 = Some w) ->
  handles_ok cfg (launch alive w k c s).
Proof.
  intros [Hcfg Hrun Hidle Hcal Hpass Hnd Hl Hsome] Hw Hk Eg0 Eg Er Er0.
  assert (Hkl : (k < length (cells s))%nat) by (by eapply lookup_lt_Some).
  assert (Hwl : (w < length (callers s))%nat) by (by eapply lookup_lt_Some).
  destruct (once_finish_spec (Some tt) c) as [Eg' Er']; [by rewrite Er|done|].
  pose proof (start_workers_config alive (client s)) as [Hc' Hb]. rewrite Hcfg in *.
  unfold launch. destruct (start_workers alive (client s)) as [client' st]. simpl in *.
  assert (Hcell : forall j x, <[k := once_finish (Some tt) c]> (cells s) !! j = Some x ->
    j = k /\ x = once_finish (Some tt) c \/ j <> k /\ cells s !! j = Some x).
  { intros j x [(-> & -> & _)|[? ?]]%list_lookup_insert_Some; [by left|by right]. }
  split; simpl; try done.
  - intros j x v [[-> ->]|[Hne Hj]]%Hcell; destruct (decide (v = w)) as [->|Hv].
    + rewrite list_lookup_insert_eq by done. by rewrite Er'.
    + rewrite list_lookup_insert_ne by done. rewrite Er', <- (Hrun k c0 v Hk).
      destruct Er0 as [->| ->]; split; congruence.
    + rewrite list_lookup_insert_eq by done. rewrite (Hrun j x w Hj), Hw. split; congruence.
    + rewrite list_lookup_insert_ne by done. by apply Hrun.
  - intros j x [[-> ->]|[Hne Hj]]%Hcell; [done|by eapply Hidle].
  - intros v j q. rewrite length_insert. intros [(-> & E & _)|[? ?]]%list_lookup_insert_Some; [congruence|by eapply Hcal].
  - intros v j x [(-> & E & _)|[Hv Hc]]%list_lookup_insert_Some [[-> ->]|[Hne Hj]]%Hcell; simplify_eq;
      try (by rewrite Eg'); by eapply Hpass.
  - rewrite fmap_app. apply NoDup_app. split; [done|split; [|apply NoDup_singleton]].
    intros j Hin Hj%list_elem_of_singleton. apply list_elem_of_fmap in Hin as ([j' st'] & E & Hin).
    destruct (Hl _ _ Hin) as [_ (x & Hx & Hg)]. simpl in *. congruence.
  - intros j st' [Hin|E%list_elem_of_singleton]%elem_of_app.
    + destruct (Hl _ _ Hin) as [Hb' (x & Hx & Hg)]. split; [done|]. exists x. split; [|done].
      rewrite list_lookup_insert_ne; [done|]. congruence.
    + injection E as -> ->. split; [done|]. exists (once_finish (Some tt) c).
      rewrite list_lookup_insert_eq by done. by rewrite Eg'.
  - intros j x _ _ E. by apply app_eq_nil in E as [_ ?].
Qed.

(** A clone has a cell of its own, with the same value. *)
Lemma clone_ok cfg k c s :
  handles_ok cfg s -> cells s !! k = Some c -> handles_ok cfg (s <| cells := cells s ++ [once_clone c] |>).
Proof.
  intros Hs Hk. destruct (once_clone_spec c) as [Eg Er].
  destruct Hs as [Hcfg Hrun Hidle Hcal Hpass Hnd Hl Hsome].
  assert (Hcell : forall j x, (cells s ++ [once_clone c]) !! j = Some x ->
    j = length (cells s) /\ x = once_clone c \/ cells s !! j = Some x).
  { intros j x [Hj|[Hle [E <-]%list_lookup_singleton_Some]]%lookup_app_Some; [by right|left]. split; [lia|done]. }
  split; simpl; try done.
  - intros j x w [[-> ->]|Hj]%Hcell; [|by apply Hrun]. rewrite Er. split; [done|]. intros Hw%Hcal. lia.
  - intros j x [[-> ->]|Hj]%Hcell; [done|by eapply Hidle].
  - intros w j p Hw%Hcal. rewrite length_app. lia.
  - intros w j x Hw [[-> ->]|Hj]%Hcell; [|by eapply Hpass]. apply Hcal in Hw. lia.
  - intros j st Hin. destruct (Hl j st Hin) as [Hb (x & Hx & Hg)]. split; [done|]. exists x.
    by rewrite (lookup_app_l_Some _ _ _ _ Hx).
  - intros j x [[-> ->]|Hj]%Hcell; [rewrite Eg; exact (Hsome k c Hk)|by eapply Hsome].
Qed.

(** A caller comes to handle [k]. *)
Lemma call_ok cfg k c s :
  handles_ok cfg s -> cells s !! k = Some c -> handles_ok cfg (s <| callers := callers s ++ [(k, Calling)] |>).
Proof.
  intros Hs Hk. destruct Hs as [Hcfg Hrun Hidle Hcal Hpass Hnd Hl Hsome].
  assert (Hcall : forall v j p, (callers s ++ [(k, Calling)]) !! v = Some (j, p) ->
    callers s !! v = Some (j, p) \/ j = k /\ p = Calling).
  { intros v j p [Hv|[_ [_ E]%list_lookup_singleton_Some]]%lookup_app_Some; [by left|right]. by injection E. }
  split; simpl; try done.
  - intros j x v Hj. rewrite (Hrun j x v Hj). split; [by apply lookup_app_l_Some|].
    by intros [Hv|[_ ?]]%Hcall.
  - intros v j p [Hv|[-> _]]%Hcall; [by eapply Hcal|by eapply lookup_lt_Some].
  - intros v j x [Hv|[_ ?]]%Hcall; [by eapply Hpass|done].
Qed.

Lemma handles_perform cfg a s s' : handles_ok cfg s -> Handles.perform a s = Some s' -> handles_ok cfg s'.
Proof.
  intros Hs Hp. destruct a as [k|k|w alive|w]; cbn [Handles.perform] in Hp.
  - apply bind_Some in Hp as (c & Hk & [= <-]). by apply (clone_ok cfg k).
  - apply bind_Some in Hp as (c & Hk & [= <-]). by apply (call_ok cfg k c).
  - apply bind_Some in Hp as ([k p] & Hw & (c & Hk & Hp)%bind_Some). destruct p; try done.
    + destruct (once_get c) as [[]|] eqn:Eg.
      * injection Hp as <-. apply (go_only cfg w k Passed c); try done. by rewrite Eg.
      * apply bind_Some in Hp as (c' & Ec & Hp). pose proof (once_start_spec w c) as Hst. rewrite Ec in Hst.
        destruct Hst as (_ & Er & Eg' & Er'). destruct (resolver_probe _); injection Hp as <-.
        -- apply (go_ok cfg w k Calling Probing c c' s Hs Hw Hk); try done.
           ++ intros v Hv. rewrite Er, Er'. split; congruence.
           ++ by rewrite Eg, Eg'.
        -- eapply (launch_ok cfg alive w k Calling c c' s Hs Hw Hk); auto.
    + injection Hp as <-. pose proof (proj2 (ho_running _ _ Hs k c w Hk) Hw) as Er.
      assert (Eg : once_get c = None).
      { destruct (once_get c) eqn:E; [|done]. rewrite (ho_idle _ _ Hs k c Hk) in Er; [done|by rewrite E]. }
      eapply (launch_ok cfg alive w k Probing c c s Hs Hw Hk); auto.
  - apply bind_Some in Hp as ([k p] & Hw & (c & Hk & Hp)%bind_Some). destruct p; try done; injection Hp as <-.
    + by apply (go_only cfg w k Cancelled c).
    + pose proof (proj2 (ho_running _ _ Hs k c w Hk) Hw) as Er.
      assert (Eg : once_get c = None).
      { destruct (once_get c) eqn:E; [|done]. rewrite (ho_idle _ _ Hs k c Hk) in Er; [done|by rewrite E]. }
      destruct (once_finish_spec None c) as [Eg' Er']; [by rewrite Er|done|].
      apply (go_ok cfg w k Probing Cancelled c _ s Hs Hw Hk); try done.
      * by rewrite Er'.
      * intros v Hv. rewrite Er, Er'. split; congruence.
      * by rewrite Eg, Eg'.
Qed.

Lemma handles_reach c s : rtc Handles.step (built c) s -> handles_ok (config c) s.
Proof.
  intros Hr. pose proof (built_ok c) as Hi. revert Hi. generalize (config c). 
  induction Hr as [|s1 s2 s3 [a Ha] _ IH]; intros cfg Hi; [done|]. apply IH. by eapply handles_perform.
Qed.

Lemma perform_all_steps acts : forall s s', Handles.perform_all acts s = Some s' -> rtc Handles.step s s'.
Proof.
  induction acts as [|a acts IH]; intros s s' Hp; simpl in Hp; [by injection Hp as <-|].
  apply bind_Some in Hp as (s1 & Ha & Hr). eapply rtc_l; [by exists a|by apply IH].
Qed.

(** A call that nobody comes between is [ensure_workers] of its handle. *)
Lemma first_use_alone alive k c s :
  cells s !! k = Some c -> once_running c = None ->
  exists acts s' hk, Handles.perform_all acts s = Some s' /\ handle k s = Some hk /\
    let '(hk', st) := ensure_workers alive hk in
    handle k s' = Some hk' /\ callers s' = callers s ++ [(k, Passed)] /\
    launched s' = launched s ++ (pair k <$> option_list st) /\ exists c', cells s' = <[k := c']> (cells s).
Proof.
  intros Hk Er. assert (Hkl : (k < length (cells s))%nat) by (by eapply lookup_lt_Some).
  assert (Hw : forall p, (callers s ++ [(k, p)]) !! length (callers s) = Some (k, p))
    by (intros p; by rewrite lookup_app_r, Nat.sub_diag by lia).
  assert (Hput : forall q p, <[length (callers s) := (k, p)]> (callers s ++ [(k, q)]) = callers s ++ [(k, p)])
    by (intros q p; by rewrite insert_app_r_alt, Nat.sub_diag by lia).
  destruct (once_get c) as [[]|] eqn:Eg.
  - exists [Call k; Act (length (callers s)) alive]. eexists _, _. cbn. unfold handle. rewrite Hk. cbn. rewrite Hw. cbn.
    rewrite Hk. cbn. rewrite Eg. cbn. split; [reflexivity|]. split; [reflexivity|]. cbn.
    rewrite Hk. cbn. rewrite Eg, app_nil_r, Hput. split_and!; try done. exists c. by rewrite list_insert_id.
  - pose proof (once_start_spec (length (callers s)) c) as Hst.
    destruct (once_start (length (callers s)) c) as [c1|] eqn:Ec; [|by rewrite Er, Eg in Hst; destruct Hst].
    destruct Hst as (_ & _ & Eg1 & Er1). destruct (once_finish_spec (Some tt) c1) as [Eg' _]; [by rewrite Er1|done|].
    destruct (resolver_probe (config (client s))) eqn:Epr.
    + exists [Call k; Act (length (callers s)) alive; Act (length (callers s)) alive]. eexists _, _. cbn.
      unfold handle. rewrite Hk. cbn. rewrite Hw. cbn. rewrite Hk. cbn. rewrite Eg, Ec. cbn. rewrite Epr. cbn.
      rewrite Hput, Hw. cbn. rewrite list_lookup_insert_eq by done. cbn. split; [reflexivity|].
      split; [reflexivity|]. cbn. rewrite Hput, list_insert_insert_eq, list_lookup_insert_eq by done. cbn.
      rewrite Eg'. rewrite Epr. split_and!; try done. by eexists.
    + exists [Call k; Act (length (callers s)) alive]. eexists _, _. cbn.
      unfold handle. rewrite Hk. cbn. rewrite Hw. cbn. rewrite Hk. cbn. rewrite Eg, Ec. cbn. rewrite Epr. cbn.
      split; [reflexivity|]. split; [reflexivity|]. cbn. rewrite Hput, list_lookup_insert_eq by done. cbn.
      rewrite Eg', Epr. split_and!; try done. by eexists.
Qed.

(** Workers are counted by the launches. *)
Lemma total_launched cfg s :
  handles_ok cfg s -> total_workers s = Z.of_nat (length (launched s)) * Z.max (max_concurrency cfg) 1.
Proof.
  intros Hs. unfold total_workers. pose proof (ho_launched _ _ Hs) as Hl. clear Hs.
  induction (launched s) as [|[k st] ls IH]; [done|]. cbn [fmap list_fmap foldr length snd].
  destruct (Hl k st) as [[-> _] _]; [by left|]. rewrite IH; [lia|]. intros k' st' Hin. apply Hl. by right.
Qed.

(** With every handle used, whatever happens launches nothing and leaves them used. *)
Lemma used_perform cfg a s s' :
  handles_ok cfg s -> Forall (fun x => once_get x <> None) (cells s) -> Handles.perform a s = Some s' ->
  launched s' = launched s /\ Forall (fun x => once_get x <> None) (cells s').
Proof.
  intros Hs Hall Ha. assert (forall w k x, cells s !! k = Some x -> callers s !! w <> Some (k, Probing)) as Hidle.
  { intros w k x Hk Hw. apply (ho_running _ _ Hs k x w Hk) in Hw.
    by rewrite (ho_idle _ _ Hs k x Hk (Forall_lookup_1 _ _ _ _ Hall Hk)) in Hw. }
  destruct a as [k|k|w alive|w]; cbn [Handles.perform] in Ha.
  - apply bind_Some in Ha as (x & Hk & [= <-]). split; [done|]. cbn. apply Forall_app. split; [done|].
    constructor; [|constructor]. rewrite (proj1 (once_clone_spec x)). exact (Forall_lookup_1 _ _ _ _ Hall Hk).
  - by apply bind_Some in Ha as (x & _ & [= <-]).
  - apply bind_Some in Ha as ([k p] & Hw & (x & Hk & Ha)%bind_Some).
    pose proof (Forall_lookup_1 _ _ _ _ Hall Hk) as Hg. cbn beta in Hg.
    destruct p; try done; [|by destruct (Hidle w k x Hk)].
    destruct (once_get x) as [[]|]; [by injection Ha as <-|done].
  - apply bind_Some in Ha as ([k p] & Hw & (x & Hk & Ha)%bind_Some).
    destruct p; try done; [by injection Ha as <-|by destruct (Hidle w k x Hk)].
Qed.

(** C6: workers are there before they are needed, and once for a handle.  However callers
    come to the handles of a client, wait, are cancelled and clone them, a caller that is
    past [ensure_workers] has workers; a handle launches at most once, at
    [max_concurrency] workers, with a controller exactly when the configuration is
    adaptive; one caller at a time starts a handle; and once every handle has been used,
    or cloned from a used one, nothing is ever launched again. *)
Theorem started_before_use c s :
  rtc Handles.step (built c) s ->
  (forall w k, callers s !! w = Some (k, Passed) -> launched s <> []) /\
  NoDup (launched s).*1 /\ Forall (fun l => launched_by (config c) l.2) (launched s) /\
  (length (launched s) <= length (cells s))%nat /\
  (forall v w k, callers s !! v = Some (k, Probing) -> callers s !! w = Some (k, Probing) -> v = w) /\
  (Forall (fun x => once_get x <> None) (cells s) -> forall s', rtc Handles.step s s' -> launched s' = launched s).
Proof.
  intros Hr. pose proof (handles_reach _ _ Hr) as Hs. split_and!.
  - intros w k Hw. destruct (lookup_lt_is_Some_2 _ _ (ho_callers _ _ Hs _ _ _ Hw)) as [x Hx].
    apply (ho_some _ _ Hs k x Hx). by apply (ho_passed _ _ Hs w k).
  - exact (ho_once _ _ Hs).
  - apply Forall_forall. intros [k st] Hin. by apply (ho_launched _ _ Hs k st).
  - rewrite <- (length_fmap fst), <- (length_seq (length (cells s)) 0). apply submseteq_length.
    apply NoDup_submseteq; [exact (ho_once _ _ Hs)|]. intros k ([k' st] & -> & Hin)%list_elem_of_fmap.
    destruct (ho_launched _ _ Hs k' st Hin) as [_ (x & Hx%lookup_lt_Some & _)]. apply elem_of_seq. simpl. lia.
  - intros v w k Hv Hw. destruct (lookup_lt_is_Some_2 _ _ (ho_callers _ _ Hs _ _ _ Hv)) as [x Hx].
    apply (ho_running _ _ Hs k x) in Hv, Hw; [congruence|done..].
  - intros Hall s' Hst. clear Hr. revert Hs Hall. generalize (config c). 
    induction Hst as [s|s s1 s' [a Ha] _ IH]; intros cfg Hs Hall; [done|].
    destruct (used_perform _ _ _ _ Hs Hall Ha) as [<- Hall1].
    eapply IH; [by eapply handles_perform|done].
Qed.

(** C28: clones made before the first use start everything again.  A client cloned [n] times
    before it is used can come to run [n + 1] times [max_concurrency] workers, and as many
    controllers and attempt pacers, on the one pool and queue. *)
Theorem clones_start_apiece c n :
  exists s, rtc Handles.step (built c) s /\ length (cells s) = Datatypes.S n /\
    (launched s).*1 = seq 0 (Datatypes.S n) /\
    total_workers s = Z.of_nat (Datatypes.S n) * Z.max (max_concurrency (config c)) 1.
Proof.
  assert (exists s, rtc Handles.step (built c) s /\ length (cells s) = Datatypes.S n /\ launched s = [] /\
    Forall (fun x => once_get x = None /\ once_running x = None) (cells s)) as (s & Hr & Hlen & Hl & Hall).
  { induction n as [|n (s & Hr & Hlen & Hl & Hall)].
    - exists (built c). split_and!; try done. constructor; [apply once_new_spec|constructor].
    - destruct (lookup_lt_is_Some_2 (cells s) 0) as [x Hx]; [lia|].
      exists (s <| cells := cells s ++ [once_clone x] |>). split.
      + eapply rtc_r; [exact Hr|]. exists (Clone 0). cbn [Handles.perform]. by rewrite Hx.
      + cbn. split; [rewrite length_app; simpl; lia|]. split; [done|]. apply Forall_app. split; [done|].
        constructor; [|constructor]. destruct (once_clone_spec x) as [-> ->].
        by destruct (Forall_lookup_1 _ _ _ _ Hall Hx). }
  assert (forall i, (i <= Datatypes.S n)%nat -> exists s, rtc Handles.step (built c) s /\
    length (cells s) = Datatypes.S n /\ (launched s).*1 = seq 0 i /\
    forall k x, (i <= k)%nat -> cells s !! k = Some x -> once_get x = None /\ once_running x = None) as Hi.
  { induction i as [|i IH]; intros Hle.
    - exists s. split_and!; [done..|by rewrite Hl|]. intros k x _ Hk. by apply (Forall_lookup_1 _ _ _ _ Hall Hk).
    - destruct IH as (s1 & Hr1 & Hlen1 & Hl1 & Hrest1); [lia|].
      destruct (lookup_lt_is_Some_2 (cells s1) i) as [x Hx]; [lia|].
      destruct (Hrest1 i x) as [Eg Er]; [lia|done|].
      destruct (first_use_alone (fun _ => true) i x s1 Hx Er) as (acts & s2 & hk & Hp & Hh & Hrest).
      unfold handle in Hh. rewrite Hx in Hh. cbn in Hh. rewrite Eg in Hh. injection Hh as <-.
      unfold ensure_workers in Hrest. cbn [workers_spawned] in Hrest.
      destruct (start_workers _ _) as [c2 st]. destruct Hrest as (_ & _ & Hl2 & x' & Hc2).
      exists s2. split_and!.
      + etrans; [exact Hr1|by eapply perform_all_steps].
      + by rewrite Hc2, length_insert.
      + by rewrite Hl2, fmap_app, Hl1, seq_S.
      + intros k y Hk Hy. rewrite Hc2, list_lookup_insert_ne in Hy by lia. apply (Hrest1 k y); [lia|done]. }
  destruct (Hi (Datatypes.S n) (le_n _)) as (s' & Hr' & Hlen' & Hl' & _).
  exists s'. split_and!; try done. rewrite (total_launched _ _ (handles_reach _ _ Hr')).
  f_equal. by rewrite <- (length_fmap fst), Hl', length_seq.
Qed.

End HandlesProofs.

(** ** Witness *)

Section HandlesExamples.
Import BlastDNSClient Handles.
#[local] Existing Instance demo_errors.
#[local] Existing Instance demo_dns.
Abbreviation demo_lru := (ref_lru Query (SimpleCache.CacheEntry DnsResponse)).

(** Two calls; the first is cancelled while it probes, the second starts the workers; a
    clone of the client that is running starts nothing. *)
Definition two_uses : list action :=
  [Call 0; Call 0; Act 0 (fun _ => true); Cancel 0; Act 1 (fun _ => true); Act 1 (fun _ => true);
   Clone 0; Call 1; Act 2 (fun _ => true)].
Definition probing_client : BlastDNSClient.t ref_sem demo_lru :=
  match with_config demo_env [lit "192.0.2.1"; lit "192.0.2.2"]
          (from_wire (mk_wire 8 8 None true true false 1000 2 10 1000 10 10 5)) 0 with
  | Some (Ok c) => c
  | _ => crossed_client
  end.
Definition used : Handles.sys (C := ref_cell unit) :=
  from_option id (built probing_client) (Handles.perform_all two_uses (built probing_client)).

Example used_once :
  callers used = [(0, Cancelled); (0, Passed); (1, Passed)]%nat /\ (launched used).*1 = [0%nat] /\
  total_workers used = 8.
Proof. vm_compute. auto. Qed.

Lemma started_before_use_witness :
  rtc Handles.step (built probing_client) used /\
  (length (launched used) <= length (cells used))%nat /\
  (forall s', rtc Handles.step used s' -> launched s' = launched used).
Proof.
  assert (Hr : rtc Handles.step (built probing_client) used)
    by (apply (perform_all_steps two_uses); vm_compute; reflexivity).
  split; [exact Hr|].
  destruct (started_before_use probing_client used Hr) as (_ & _ & _ & Hle & _ & Hused).
  split; [exact Hle|]. apply Hused. repeat constructor; vm_compute; discriminate.
Defined.

Lemma clones_start_apiece_witness :
  exists s : Handles.sys (C := ref_cell unit),
    rtc Handles.step (built probing_client) s /\ length (cells s) = 3%nat /\
    (launched s).*1 = [0; 1; 2]%nat /\ total_workers s = 3 * 8.
Proof. exact (clones_start_apiece probing_client 2). Defined.
End HandlesExamples.
