(* ===== verification/Sockets.v ===== *)
(** * The resolvers of a client, as texts

    [resolvers()] prints the socket addresses a client uses.  Every address the client can
    hold reads back as itself ([socket_reads_back]), so a client is rebuilt from its own
    list, [resolvers_rebuild]: bare addresses, odd brackets and system resolvers have all
    become explicit. *)

From Stdlib Require Import Ascii String.
From stdpp Require Import list.
From S2P Require Import Prelude Extern Float64 Limiter Config Addresses Errors Cache Health Pool Utils Dns Client.
#[local] Open Scope Z_scope.
#[local] Open Scope list_scope.

(** ** Decimal numbers *)

Lemma to_digit_decimal d : 0 <= d < 10 -> to_digit 10 (48 + d) = Some d.
Proof.
  intros Hd. refine (bool_decide_eq_true_1 _ (every_below (fun d =>
    bool_decide (to_digit 10 (48 + d) = Some d)) 10 d _ _)); [lia|].
  vm_compute. reflexivity.
Qed.

Lemma read_shown_digits : forall fuel n k acc rest, (0 < fuel)%nat -> 0 <= n < 10 ^ Z.of_nat fuel ->
  exists len, (0 < len)%nat /\
    read_digits 10 None k acc (show_digits fuel n ++ rest)
    = read_digits 10 None (k + len) (acc * 10 ^ Z.of_nat len + n) rest.
Proof.
  induction fuel as [|fuel IH]; intros n k acc rest Hf Hn; [lia|].
  assert (Hlast : forall k acc m, 0 <= m < 10 -> read_digits 10 None k acc ((48 + m) :: rest)
                  = read_digits 10 None (S k) (acc * 10 + m) rest).
  { intros k' acc' m Hm. cbn [read_digits]. by rewrite to_digit_decimal. }
  cbn [show_digits]. rewrite <- app_assoc. cbn [app]. destruct (Z.ltb_spec n 10).
  - exists 1%nat. split; [lia|]. cbn [app]. rewrite Hlast by (apply Z.mod_pos_bound; lia).
    rewrite Z.mod_small by lia. by rewrite Nat.add_1_r.
  - destruct (IH (n / 10) k acc ((48 + n mod 10) :: rest)) as (len & Hlen & E).
    + destruct fuel; [simpl in Hn; lia|lia].
    + rewrite Nat2Z.inj_succ, Z.pow_succ_r in Hn by lia. split; [apply Z.div_pos; lia|].
      apply Z.div_lt_upper_bound; lia.
    + exists (S len). split; [lia|]. rewrite E, Hlast by (apply Z.mod_pos_bound; lia).
      rewrite Nat2Z.inj_succ, Z.pow_succ_r by lia. pose proof (Z.div_mod n 10).
      f_equal; [lia|]. rewrite Z.mul_add_distr_r. lia.
Qed.

(** A number that was printed reads back, whatever follows that is no digit. *)
Lemma read_shown_Z n bound rest : 0 <= n <= bound -> ends_number 10 rest ->
  read_number 10 None true bound (show_Z n ++ rest) = Some (n, rest).
Proof.
  intros Hn Hr. unfold read_number, show_Z.
  destruct (read_shown_digits (S (Z.to_nat (Z.log2 n))) n 0 0 rest) as (len & Hlen & ->); [lia| |].
  - split; [lia|]. rewrite Nat2Z.inj_succ, Z2Nat.id by apply Z.log2_nonneg.
    apply Z.le_lt_trans with (2 ^ Z.succ (Z.log2 n) - 1).
    + destruct (decide (n = 0)) as [->|]; [simpl; lia|]. pose proof (Z.log2_spec n). lia.
    + pose proof (Z.pow_le_mono_l 2 10 (Z.succ (Z.log2 n))). lia.
  - rewrite Z.mul_0_l, Z.add_0_l, Nat.add_0_l.
    assert (E : read_digits 10 None len n rest = Some (n, len, rest)).
    { destruct rest as [|c rest]; [done|]. simpl in *. by rewrite Hr. }
    rewrite E. cbn [mbind option_bind negb andb]. destruct (Nat.eqb_spec len 0); [lia|].
    by destruct (Z.leb_spec n bound); [|lia].
Qed.

(** ** Socket addresses *)

Definition u32_max : Z := 2 ^ 32 - 1.

(** A socket address as [std::net] holds it; only IPv6 ones have a scope. *)
Definition socket_ok (a : SocketAddress) : Prop :=
  well_formed (ip a) /\ 0 <= port a <= 65535 /\
  match ip a with V4 _ _ _ _ => scope_id a = 0 | V6 _ => 0 <= scope_id a <= u32_max end.

Lemma read_shown_port p : 0 <= p <= 65535 -> read_port (COLON :: show_Z p) = Some (p, []).
Proof.
  intros Hp. unfold read_port. rewrite read_char_same. cbn [mbind option_bind].
  by rewrite <- (app_nil_r (show_Z p)), read_shown_Z.
Qed.

(** Every socket address reads back from its text. *)
Lemma socket_reads_back a : socket_ok a -> parse_socket (show_socket a) = Some a.
Proof.
  destruct a as [[a b c d|l] p sc]; intros (Hw & Hp & Hs); cbn [ip port scope_id] in *;
    unfold parse_socket, read_socket, show_socket; cbn [ip port scope_id show_ip].
  - rewrite read_shown_v4 by done. cbn [mbind option_bind]. rewrite read_shown_port by done. by subst.
  - rewrite read_ipv4_other by done. cbn [mbind option_bind]. rewrite read_char_same. cbn [mbind option_bind].
    destruct (Z.eqb_spec sc 0) as [->|Hsc]; cbn [app].
    + rewrite read_shown_v6 by (done || by right). cbn [mbind option_bind].
      change (read_char PERCENT (CLOSE :: COLON :: show_Z p)) with (@None text). cbn [mbind option_bind].
      rewrite read_char_same. cbn [mbind option_bind]. by rewrite read_shown_port.
    + rewrite read_shown_v6 by (done || by left). cbn [mbind option_bind]. rewrite read_char_same. cbn [mbind option_bind].
      unfold u32_max in Hs. change (2 ^ 32 - 1) with 4294967295 in Hs. rewrite read_shown_Z by done.
      rewrite read_char_same. cbn [mbind option_bind]. by rewrite read_shown_port.
Qed.

(** ** What is read is an address *)

Lemma read_port_ok s p rest : read_port s = Some (p, rest) -> 0 <= p <= 65535.
Proof.
  unfold read_port. intros E. apply bind_Some in E as (s' & _ & E).
  by apply (read_number_reads 10 _ _ _ ltac:(lia)) in E as [? _].
Qed.

Lemma read_socket_ok s a rest : read_socket s = Some (a, rest) -> socket_ok a.
Proof.
  unfold read_socket.
  match goal with |- match ?v with _ => _ end = _ -> _ => destruct v as [[a' rest']|] eqn:E4 end.
  - intros [= -> ->]. apply bind_Some in E4 as ([[[[x y] z] w] s1] & Hv & E4).
    apply bind_Some in E4 as ([p s2] & Hp & [= <- _]).
    apply read_ipv4_reads in Hv as [Hv _]. apply read_port_ok in Hp. by split.
  - intros E. apply bind_Some in E as (s1 & _ & E). apply bind_Some in E as ([l s2] & Hl & E).
    apply read_ipv6_reads in Hl as [Hl _].
    match type of E with (let '(_, _) := ?m in _) = _ => destruct m as [sc s3] eqn:Es end.
    apply bind_Some in E as (s4 & _ & E). apply bind_Some in E as ([p s5] & Hp & [= <- _]).
    apply read_port_ok in Hp. split; [done|]. split; [done|]. cbn [ip scope_id].
    match type of Es with match ?m with _ => _ end = _ => destruct m as [[sc' s']|] eqn:Er end; simplify_eq.
    + apply bind_Some in Er as (s'' & _ & Er).
      by apply (read_number_reads 10 _ _ _ ltac:(lia)) in Er as [? _].
    + unfold u32_max. lia.
Qed.

Lemma parse_resolver_ok `{ErrorTypes} s a : parse_resolver s = Ok a -> socket_ok a.
Proof.
  unfold parse_resolver. destruct (parse_socket s) as [a'|] eqn:E.
  - intros [= ->]. unfold parse_socket, whole in E.
    destruct (read_socket s) as [[a'' [|]]|] eqn:Er; simplify_eq. by eapply read_socket_ok.
  - destruct (parse_ip _) as [i|] eqn:Ei; [|done]. intros [= <-]. apply parse_ip_reads in Ei as [Hi _].
    split; [done|]. cbn. split; [lia|]. destruct i; [done|]. unfold u32_max. lia.
Qed.

Lemma parse_resolver_shown `{ErrorTypes} a : socket_ok a -> parse_resolver (show_socket a) = Ok a.
Proof. intros Ha. unfold parse_resolver. by rewrite socket_reads_back. Qed.

(** ** A client from its own list *)

Section Rebuild.
Import BlastDNSClient.
Context `{DnsTypes} {S L : Type} `{SemaphoreOps S} `{LruOps Query (SimpleCache.CacheEntry DnsResponse) L}.

Lemma with_config_resolvers env inputs cfg now (c : t S L) :
  with_config env inputs cfg now = Some (Ok c) ->
  resolvers c <> [] /\ Forall socket_ok (resolvers c) /\
  exists texts, resolver_texts env inputs = Ok texts /\ collect (parse_resolver <$> texts) = Ok (resolvers c).
Proof.
  unfold with_config. intros Hw.
  destruct (resolver_texts env inputs) as [texts|e] eqn:Et; [|done]. cbn [and_then] in Hw.
  destruct (collect (parse_resolver <$> texts)) as [parsed|e] eqn:Ep; [|done]. cbn [and_then] in Hw.
  destruct (_ && _); [done|]. destruct (map_err _ _); [|done]. cbn [and_then] in Hw.
  apply bind_Some in Hw as (p & _ & Hw). apply bind_Some in Hw as (l & _ & [= <-]). cbn [resolvers].
  pose proof Ep as Hall. apply collect_Ok, Forall2_fmap_l in Hall. split_and!; [| |by exists texts].
  - intros ->. apply Forall2_nil_inv_r in Hall as ->. unfold resolver_texts in Et.
    destruct inputs; [|done]. unfold get_system_resolvers in Et.
    destruct (system_conf env); [|done]. by destruct (set_order env _).
  - clear -Hall. induction Hall; constructor; [by eapply parse_resolver_ok|done].
Qed.

(** The list of texts reads back as the list of addresses. *)
Lemma resolver_list_read (addrs : list SocketAddress) :
  Forall socket_ok addrs -> collect (parse_resolver <$> (show_socket <$> addrs)) = Ok addrs.
Proof.
  intros Ha. apply collect_Ok. rewrite <- list_fmap_compose. apply Forall2_fmap_l.
  induction Ha as [|a addrs Ha _ IH]; constructor; [|done]. simpl. by rewrite parse_resolver_shown.
Qed.

(** C31: a client is rebuilt from its own list of resolvers.  Whatever texts it was built
    from, or the system's resolvers when there were none, [resolvers()] is a list that is
    not empty and from which, with the same configuration and limits, the very same client
    is built, without asking the system again; its addresses, ports and scopes are all
    within their ranges. *)
Theorem resolvers_rebuild env env' inputs cfg now (c : t S L) :
  with_config env inputs cfg now = Some (Ok c) -> rlimits env' = rlimits env ->
  Forall socket_ok (resolvers c) /\ with_config env' (resolver_list c) cfg now = Some (Ok c).
Proof.
  intros Hw Er. destruct (with_config_resolvers _ _ _ _ _ Hw) as (Hne & Hok & texts & Et & Ep).
  split; [done|]. rewrite <- Hw. unfold with_config, resolver_list. rewrite Et, Er. cbn [and_then]. rewrite Ep.
  assert (resolver_texts env' (show_socket <$> resolvers c) = Ok (show_socket <$> resolvers c)) as ->
    by (by destruct (resolvers c)).
  cbn [and_then]. by rewrite resolver_list_read.
Qed.
End Rebuild.

Section RebuildExamples.
Import BlastDNSClient.
#[local] Existing Instance demo_errors.
#[local] Existing Instance demo_dns.

Abbreviation demo_lru := (ref_lru Query (SimpleCache.CacheEntry DnsResponse)).

(** A bare address, a bracketed one, one with a port and a scope. *)
Definition three_texts : list text := [lit " 192.0.2.1"; lit "[2001:db8::1]"; lit "[fe80::1%3]:5353"].
Definition three_client : BlastDNSClient.t ref_sem demo_lru :=
  match with_config demo_env three_texts ask_once 0 with
  | Some (Ok c) => c
  | _ => crossed_client
  end.

Example three_list :
  resolver_list three_client = [lit "192.0.2.1:53"; lit "[2001:db8::1]:53"; lit "[fe80::1%3]:5353"].
Proof. vm_compute. reflexivity. Qed.

Lemma resolvers_rebuild_witness :
  with_config (S := ref_sem) (L := demo_lru) demo_env (resolver_list three_client) ask_once 0 = Some (Ok three_client).
Proof.
  apply (resolvers_rebuild demo_env demo_env three_texts); [|reflexivity]. vm_compute. reflexivity.
Defined.
End RebuildExamples.
