(* ===== verification/Resolver.v ===== *)
(** * The resolver interface: [resolver.rs]

    [DnsResolver] is a class with one operation and a default for each of the others, as
    in the source.  A batch is a step relation: hosts are pulled while there is room,
    lookups complete in any order, and what completes is filtered. *)

From Stdlib Require Import Ascii String.
From stdpp Require Import list gmap.
From S2P Require Import Prelude Addresses Errors Utils Dns.
#[local] Open Scope Z_scope.
#[local] Open Scope list_scope.

(** What one lookup brings back, when it is the only one. *)
Class DnsResolver `{DnsTypes} (R : Type) := {
  resolve_full : R -> text -> RecordType -> result DnsResponse BlastDNSError;
  get_concurrency : R -> Z;
}.

(** [get_concurrency] of an implementation that does not override it. *)
Definition default_concurrency : Z := 32.

Section DefaultMethods.
Context `{DnsTypes} {R : Type} `{!DnsResolver R}.

Definition resolve (self : R) (host : text) (record_type : RecordType) : result (list text) BlastDNSError :=
  let? response := resolve_full self host record_type in Ok (rdata_strings response).

(** Collecting pairs into a [HashMap]: the last one of a key stays. *)
Definition to_map {V} (l : list (RecordType * V)) : gmap RecordType V :=
  fold_left (fun m kv => <[kv.1 := kv.2]> m) l ∅.

Definition query_host (host : text) (record_type : RecordType) : text :=
  if decide (record_type = PTR) then format_ptr_query host else host.

Definition resolve_multi_full (self : R) (host : text) (record_types : list RecordType)
    : result (gmap RecordType (result DnsResponse BlastDNSError)) BlastDNSError :=
  match record_types with
  | [] => Err (Configuration (lit "at least one record type is required"))
  | _ =>
      Ok (to_map ((fun record_type =>
            (record_type, resolve_full self (query_host host record_type) record_type)) <$> record_types))
  end.

(** The answers worth keeping of one result. *)
Definition kept_answers (result : result DnsResponse BlastDNSError) : option (list text) :=
  match result with
  | Ok response =>
      match rdata_strings response with [] => None | answers => Some answers end
  | Err _ => None
  end.

Definition resolve_multi (self : R) (host : text) (record_types : list RecordType)
    : result (gmap RecordType (list text)) BlastDNSError :=
  let? full_results := resolve_multi_full self host record_types in
  Ok (omap kept_answers full_results).

(** ** Batches *)

(** [resolve_batch_full]'s last filter. *)
Definition keep (skip_empty skip_errors : bool) (item : text * result DnsResponse BlastDNSError) : bool :=
  match item.2 with
  | Ok response => negb (skip_empty && negb (has_answers response))
  | Err _ => negb skip_errors
  end.

(** [resolve_batch] keeps successes with answers, as strings. *)
Definition brief (record_type : RecordType) (item : text * result DnsResponse BlastDNSError)
    : option (text * text * list text) :=
  match item.2 with
  | Ok response =>
      match rdata_strings response with
      | [] => None
      | answers => Some (item.1, record_type_text record_type, answers)
      end
  | Err _ => None
  end.

(** [concurrency * 2] lookups at once. *)
Definition batch_limit (self : R) : Z := wrap_u64 (get_concurrency self * 2).

(** The hosts not yet pulled (an iterator's item may be an error), the lookups in
    progress, and what came out, oldest first. *)
Record batch (E : Type) := mk_batch {
  source : list (result text E);
  in_progress : list text;
  completed : list (text * result DnsResponse BlastDNSError);
  emitted : list (text * result DnsResponse BlastDNSError)
}.
#[global] Arguments mk_batch {E}.
#[global] Arguments source {E}. #[global] Arguments in_progress {E}.
#[global] Arguments completed {E}. #[global] Arguments emitted {E}.

Inductive batch_step {E} (limit : Z) (skip_empty skip_errors : bool) : batch E -> batch E -> Prop :=
| batch_pull host rest ps cs es :
    Z.of_nat (length ps) < limit ->
    batch_step limit skip_empty skip_errors
      (mk_batch (Ok host :: rest) ps cs es) (mk_batch rest (ps ++ [host]) cs es)
| batch_bad_item e rest ps cs es :
    Z.of_nat (length ps) < limit ->
    batch_step limit skip_empty skip_errors (mk_batch (Err e :: rest) ps cs es) (mk_batch rest ps cs es)
| batch_complete rest ps1 host ps2 cs es r :
    batch_step limit skip_empty skip_errors
      (mk_batch rest (ps1 ++ host :: ps2) cs es)
      (mk_batch rest (ps1 ++ ps2) (cs ++ [(host, r)])
         (if keep skip_empty skip_errors (host, r) then es ++ [(host, r)] else es)).

Definition batch_start {E} (hosts : list (result text E)) : batch E := mk_batch hosts [] [] [].
Definition batch_done {E} (b : batch E) : Prop := source b = [] /\ in_progress b = [].

(** The hosts an iterator really yields. *)
Definition good_hosts {E} (hosts : list (result text E)) : list text :=
  omap (fun r => match r with Ok h => Some h | Err _ => None end) hosts.

(** Steps left at most: two for each host to pull, one for each lookup. *)
Definition batch_measure {E} (b : batch E) : nat := (2 * length (source b) + length (in_progress b))%nat.
End DefaultMethods.

(** ** [BlockingIteratorStream] *)

Module BlockingIteratorStream.
Section BlockingIteratorStream.
Context {T : Type}.

(** The iterator's items, whether its mutex is poisoned, and whether a blocking task
    that takes the next item is pending. *)
Record t := mk { iterator : list T; poisoned : bool; pending : bool }.
#[global] Instance t_settable : Settable t := fun s => mk (iterator s) (poisoned s) (pending s).

Definition new (iterator : list T) : t := mk iterator false false.

(** How the blocking task stands when it is polled. *)
Inductive handle := Running | Finished | Panicked.

Inductive poll := Ready (item : option T) | Pending.

Definition poll_next (h : handle) (s : t) : t * poll :=
  let s := s <| pending := true |> in
  match h with
  | Running => (s, Pending)
  | Finished =>
      let s := s <| pending := false |> in
      if poisoned s then (s, Ready None)
      else
        match iterator s with
        | [] => (s, Ready None)
        | item :: rest => (s <| iterator := rest |>, Ready (Some item))
        end
  | Panicked => (s <| pending := false |> <| poisoned := true |>, Ready None)
  end.

(** The items of a series of polls. *)
Fixpoint poll_all (tasks : list handle) (s : t) : t * list T :=
  match tasks with
  | [] => (s, [])
  | h :: tasks' =>
      let '(s1, p) := poll_next h s in
      let '(s2, items) := poll_all tasks' s1 in
      (s2, match p with Ready (Some item) => item :: items | _ => items end)
  end.

(** Nothing comes of a poisoned iterator. *)
Lemma poll_dead tasks : forall s, poisoned s = true -> (poll_all tasks s).2 = [].
Proof.
  induction tasks as [|h tasks IH]; intros s Hp; [done|]. simpl.
  destruct h; simpl; rewrite ?Hp;
    match goal with |- context [poll_all tasks ?s'] => specialize (IH s' ltac:(done));
      by destruct (poll_all tasks s') end.
Qed.

Ltac poll_rest IH :=
  match goal with |- context [poll_all ?tasks ?s'] =>
    specialize (IH s' ltac:(simpl; done)); destruct (poll_all tasks s') as [s2 items] end;
  destruct IH as (lost & E & Hl).

(** Whatever the tasks do, the items come in the iterator's order, none twice, and without
    a panic none is skipped. *)
Lemma poll_all_items tasks : forall s, poisoned s = false ->
  let '(s', items) := poll_all tasks s in
  exists lost, iterator s = items ++ lost /\
    (Forall (fun h => h <> Panicked) tasks -> lost = iterator s' /\ poisoned s' = false).
Proof.
  induction tasks as [|h tasks IH]; intros s Hp; simpl.
  { exists (iterator s). auto. }
  destruct h; simpl.
  - poll_rest IH. exists lost. split; [exact E|]. intros Hall. apply Forall_inv_tail in Hall. by apply Hl.
  - rewrite Hp. destruct (iterator s) as [|x rest] eqn:Ei; simpl.
    + poll_rest IH. exists lost. split; [exact E|].
      intros Hall. apply Forall_inv_tail in Hall. by apply Hl.
    + poll_rest IH. simpl in E. exists lost. rewrite E. split; [done|].
      intros Hall. apply Forall_inv_tail in Hall. by apply Hl.
  - match goal with |- context [poll_all tasks ?s'] => pose proof (poll_dead tasks s' eq_refl) as Hd;
      destruct (poll_all tasks s') as [s2 items] end.
    simpl in Hd. subst items. exists (iterator s). split; [done|]. intros Hall. by apply Forall_inv in Hall.
Qed.
End BlockingIteratorStream.
End BlockingIteratorStream.

(** ** Several record types at once *)

Section MultiProofs.
Context `{DnsTypes} {R : Type} `{!DnsResolver R}.

Lemma to_map_lookup {V} (f : RecordType -> V) types : forall m rt,
  fold_left (fun m kv => <[kv.1 := kv.2]> m) ((fun t => (t, f t)) <$> types) m !! rt
  = if decide (rt ∈ types) then Some (f rt) else (m : gmap RecordType V) !! rt.
Proof.
  induction types as [|t types IH]; intros m rt; [by rewrite decide_False by apply not_elem_of_nil|].
  simpl. unfold fmap in IH. rewrite IH. destruct (decide (rt ∈ types)) as [Hin|Hout].
  - by rewrite decide_True by (by right).
  - destruct (decide (t = rt)) as [->|Hne].
    + rewrite lookup_insert_eq. by rewrite decide_True by (by left).
    + rewrite lookup_insert_ne by done. rewrite decide_False; [done|].
      intros Hin. apply elem_of_cons in Hin as [->|Hin]; done.
Qed.

Lemma resolve_multi_full_spec (self : R) host types :
  match resolve_multi_full self host types with
  | Ok found =>
      types <> [] /\
      forall rt, found !! rt =
        if decide (rt ∈ types) then Some (resolve_full self (query_host host rt) rt) else None
  | Err e => types = [] /\ is_congestion_evidence e = false
  end.
Proof.
  unfold resolve_multi_full. destruct types as [|t types]; [done|]. split; [done|]. intros rt. unfold to_map.
  rewrite (to_map_lookup (fun record_type => resolve_full self (query_host host record_type) record_type)).
  destruct (decide (rt ∈ t :: types)); [done|]. by rewrite lookup_empty.
Qed.

(** Resolving several record types asks for each, PTR under its reverse name, and
    reports exactly those that succeeded with answers, each under its own type; asking
    for none is refused. *)
Theorem resolve_multi_spec (self : R) host types :
  match resolve_multi self host types with
  | Ok found =>
      types <> [] /\
      forall rt, found !! rt =
        if decide (rt ∈ types) then kept_answers (resolve_full self (query_host host rt) rt) else None
  | Err e => types = [] /\ is_congestion_evidence e = false
  end.
Proof.
  unfold resolve_multi. pose proof (resolve_multi_full_spec self host types) as Hs.
  destruct (resolve_multi_full self host types) as [found|e]; [|done]. cbn [and_then].
  destruct Hs as [Hne Hs]. split; [done|]. intros rt. rewrite lookup_omap, Hs. by destruct (decide (rt ∈ types)).
Qed.
End MultiProofs.

(** ** Batches: every host once, in bounded concurrency *)

Section BatchProofs.
Context `{DnsTypes} {E : Type}.
Implicit Types b : batch E.

Record batch_ok (limit : Z) (se sx : bool) (hosts : list (result text E)) b : Prop := {
  bo_hosts : good_hosts hosts ≡ₚ good_hosts (source b) ++ in_progress b ++ (completed b).*1;
  bo_emitted : emitted b = filter (fun item => keep se sx item = true) (completed b);
  bo_limit : Z.of_nat (length (in_progress b)) <= Z.max limit 0;
}.

Lemma batch_step_ok limit se sx hosts b b' :
  batch_step limit se sx b b' -> batch_ok limit se sx hosts b -> batch_ok limit se sx hosts b'.
Proof.
  intros Hs [Hh He Hl]. destruct Hs as [host rest ps cs es Hlim|e rest ps cs es Hlim|rest ps1 host ps2 cs es r];
    simpl in *; split; simpl; try done.
  - rewrite Hh. simpl. rewrite <- app_assoc. simpl.
    rewrite <- (Permutation_middle ps). by rewrite <- Permutation_middle.
  - rewrite length_app. simpl. lia.
  - rewrite Hh, fmap_app. simpl. rewrite <- !app_assoc. do 2 apply Permutation_app_head. simpl.
    rewrite (Permutation_app_comm (cs.*1) [host]). simpl. apply Permutation_middle.
  - rewrite filter_app, He. simpl. rewrite filter_cons, filter_nil.
    destruct (keep se sx (host, r)); simpl; [done|by rewrite app_nil_r].
  - rewrite length_app in *. simpl in Hl. lia.
Qed.

Lemma batch_run_ok limit se sx hosts b0 b :
  rtc (batch_step limit se sx) b0 b -> batch_ok limit se sx hosts b0 -> batch_ok limit se sx hosts b.
Proof. induction 1; eauto using batch_step_ok. Qed.

Lemma batch_start_ok limit se sx (hosts : list (result text E)) :
  batch_ok limit se sx hosts (batch_start hosts).
Proof. split; simpl; [by rewrite app_nil_r|done|lia]. Qed.

Lemma batch_progress limit se sx b : 0 < limit -> ~ batch_done b -> exists b', batch_step limit se sx b b'.
Proof.
  intros Hlim Hnd. destruct b as [src ps cs es]. destruct ps as [|host ps].
  - destruct src as [|[host|e] rest]; [by destruct Hnd| |]; eexists;
      [apply batch_pull|apply batch_bad_item]; simpl; lia.
  - eexists. apply (batch_complete limit se sx src [] host ps cs es (Err WorkerDropped)).
Qed.

Lemma batch_step_measure limit se sx b b' :
  batch_step limit se sx b b' -> (batch_measure b' < batch_measure b)%nat.
Proof. intros []; unfold batch_measure; simpl; rewrite ?length_app; simpl; lia. Qed.

(** C19: a batch looks every host up exactly once, never more than the limit at a time, and
    ends.  In any order of completions, what came out so far is what completed, filtered
    ([skip_empty], [skip_errors]); until it is done there is a step to take, every step
    decreases a measure that starts at twice the number of items, and when it is done
    every host the iterator yielded (its errors left out) has completed exactly once. *)
Theorem batch_resolves_all limit se sx (hosts : list (result text E)) b :
  0 < limit -> rtc (batch_step limit se sx) (batch_start hosts) b ->
  Z.of_nat (length (in_progress b)) <= limit /\
  emitted b = filter (fun item => keep se sx item = true) (completed b) /\
  (batch_done b -> (completed b).*1 ≡ₚ good_hosts hosts) /\
  (~ batch_done b -> exists b', batch_step limit se sx b b') /\
  (forall b', batch_step limit se sx b b' -> (batch_measure b' < batch_measure b)%nat) /\
  (batch_measure (batch_start hosts) = 2 * length hosts)%nat.
Proof.
  intros Hlim Hr. destruct (batch_run_ok _ _ _ hosts _ _ Hr (batch_start_ok _ _ _ _)) as [Hh He Hl].
  split; [lia|]. split; [done|]. split; [intros [E1 E2]; rewrite Hh, E1, E2; done|].
  split; [by apply batch_progress|]. split; [intros b'; apply batch_step_measure|].
  unfold batch_measure. simpl. lia.
Qed.
End BatchProofs.

(** ** Witnesses and examples *)

Section ResolverExamples.
#[local] Existing Instance demo_errors.
#[local] Existing Instance demo_dns.

Definition item_error : Type := unit.
Definition two_hosts : list (result text item_error) := [Ok (lit "a"); Err tt; Ok (lit "b")].
Definition no_answer : DnsResponse := mk_demo [] false NXDomain.
Definition an_answer : DnsResponse := mk_demo [(60, lit "192.0.2.7")] false NoError.

(** Both pulled, completed in the other order, the empty one left out. *)
Definition after_batch : batch item_error :=
  mk_batch [] [] [(lit "b", Ok an_answer); (lit "a", Ok no_answer)] [(lit "b", Ok an_answer)].

Lemma after_batch_run : rtc (batch_step 64 true true) (batch_start two_hosts) after_batch.
Proof.
  eapply rtc_l; [apply batch_pull; vm_compute; reflexivity|].
  eapply rtc_l; [apply batch_bad_item; vm_compute; reflexivity|].
  eapply rtc_l; [apply batch_pull; vm_compute; reflexivity|].
  eapply rtc_l; [apply (batch_complete 64 true true [] [lit "a"] (lit "b") [] [] [] (Ok an_answer))|].
  eapply rtc_l; [apply (batch_complete 64 true true [] [] (lit "a") [] _ _ (Ok no_answer))|].
  apply rtc_refl.
Qed.

Lemma batch_resolves_all_witness :
  Z.of_nat (length (in_progress after_batch)) <= 64 /\
  emitted after_batch = filter (fun item => keep true true item = true) (completed after_batch) /\
  (batch_done after_batch -> (completed after_batch).*1 ≡ₚ good_hosts two_hosts) /\
  (~ batch_done after_batch -> exists b', batch_step 64 true true after_batch b') /\
  (forall b', batch_step 64 true true after_batch b' -> (batch_measure b' < batch_measure after_batch)%nat) /\
  (batch_measure (batch_start two_hosts) = 2 * length two_hosts)%nat.
Proof. apply (batch_resolves_all 64 true true two_hosts after_batch); [lia|exact after_batch_run]. Defined.
End ResolverExamples.
