(* ===== verification/ZoneTransfer.v ===== *)
(** * Zone transfers: [zone_transfer.rs]

    An AXFR over one TCP connection: the answers of every response, in order, or the
    first error. *)

From Stdlib Require Import Ascii String.
From stdpp Require Import list.
From S2P Require Import Prelude Addresses Errors Utils Dns.
#[local] Open Scope Z_scope.
#[local] Open Scope list_scope.

Section ZoneTransfer.
Context `{DnsTypes}.

Record ZoneTransferResult := mk_transfer {
  zone : text;
  nameserver : SocketAddress;
  records : list DnsRecord
}.

Definition ends_with_dot (s : text) : bool :=
  match last s with Some c => c =? DOT | None => false end.
Definition fqdn (s : text) : text := if ends_with_dot s then s else s ++ [DOT].

(** The stream of responses, up to the first error. *)
Fixpoint collect_records (addr : SocketAddress) (xfr_stream : list (result DnsResponse ClientError))
    (all_records : list DnsRecord) : result (list DnsRecord) BlastDNSError :=
  match xfr_stream with
  | [] => Ok all_records
  | Ok response :: rest => collect_records addr rest (all_records ++ answers response)
  | Err source :: _ => Err (ResolverRequestFailed addr source)
  end.

(** [connected] is what connecting gives, [xfr_stream] what the transfer then yields. *)
Definition zone_transfer (nameserver zone : text) (connected : result unit ProtoError)
    (xfr_stream : list (result DnsResponse ClientError)) : result ZoneTransferResult BlastDNSError :=
  let? addr := parse_resolver nameserver in
  let? zone_name := map_err (InvalidHostname zone) (parse_name (fqdn zone)) in
  let? client := map_err (ResolverSetupFailed addr) connected in
  let? all_records := collect_records addr xfr_stream [] in
  Ok (mk_transfer zone addr all_records).

Lemma collect_records_spec addr stream acc :
  match collect_records addr stream acc with
  | Ok all => exists responses, stream = Ok <$> responses /\ all = acc ++ (responses ≫= answers)
  | Err e => exists before source after,
      stream = (Ok <$> before) ++ Err source :: after /\ e = ResolverRequestFailed addr source
  end.
Proof.
  revert acc. induction stream as [|[response|source] rest IH]; intros acc; simpl.
  - exists []. by rewrite app_nil_r.
  - specialize (IH (acc ++ answers response)). destruct (collect_records _ _ _) as [all|e].
    + destruct IH as (responses & -> & ->). exists (response :: responses). by rewrite <- app_assoc.
    + destruct IH as (before & source & after & -> & ->). by exists (response :: before), source, after.
  - by exists [], source, rest.
Qed.

Lemma fqdn_dot s : fqdn (fqdn s) = fqdn s.
Proof.
  unfold fqdn. destruct (ends_with_dot s) eqn:E; [by rewrite E|].
  assert (ends_with_dot (s ++ [DOT]) = true) as ->; [|done].
  unfold ends_with_dot. by rewrite last_snoc.
Qed.

(** C38: a zone transfer is all or nothing.  It succeeds exactly when the server's text and
    the zone's name parse, the connection is made, and every response arrives; then its
    records are those of all responses in order.  A partial transfer is never reported,
    and a trailing dot on the zone only shows in the result's name. *)
Theorem zone_transfer_all_or_nothing ns z connected stream :
  (forall t, zone_transfer ns z connected stream = Ok t <->
     exists addr name responses,
       parse_resolver ns = Ok addr /\ parse_name (fqdn z) = Ok name /\ connected = Ok tt /\
       stream = Ok <$> responses /\ t = mk_transfer z addr (responses ≫= answers)) /\
  (forall t, zone_transfer ns z connected stream = Ok t ->
     zone_transfer ns (fqdn z) connected stream = Ok (mk_transfer (fqdn z) (nameserver t) (records t))).
Proof.
  assert (Hspec : forall z t, zone_transfer ns z connected stream = Ok t <->
     exists addr name responses,
       parse_resolver ns = Ok addr /\ parse_name (fqdn z) = Ok name /\ connected = Ok tt /\
       stream = Ok <$> responses /\ t = mk_transfer z addr (responses ≫= answers)).
  { clear z. intros z t. unfold zone_transfer. destruct (parse_resolver ns) as [addr|e]; cbn [and_then].
    2:{ split; [done|]. intros (? & ? & ? & ? & _). done. }
    destruct (parse_name (fqdn z)) as [name|e]; cbn [map_err and_then].
    2:{ split; [done|]. intros (? & ? & ? & _ & ? & _). done. }
    destruct connected as [[]|e]; cbn [map_err and_then].
    2:{ split; [done|]. intros (? & ? & ? & _ & _ & ? & _). done. }
    pose proof (collect_records_spec addr stream []) as Hc.
    destruct (collect_records addr stream []) as [all|e]; cbn [and_then].
    - destruct Hc as (responses & -> & ->). split.
      + intros [= <-]. by exists addr, name, responses.
      + intros (a & n & rs & [= <-] & _ & _ & E & ->).
        apply (inj (fmap (M := list) Ok)) in E as <-. done.
    - split; [done|]. intros (a & n & rs & _ & _ & _ & -> & _).
      destruct Hc as (before & source & after & E & _). exfalso. clear -E.
      revert before E. induction rs as [|r rs IH]; intros [|b before] E; simplify_eq/=. by eapply IH. }
  split; [apply Hspec|]. intros t Ht. apply Hspec in Ht as (addr & name & rs & H1 & H2 & H3 & H4 & ->).
  apply Hspec. exists addr, name, rs. rewrite fqdn_dot. done.
Qed.
End ZoneTransfer.
