(* ===== verification/Mock.v ===== *)
(** * The mock client: [mock.rs]

    Configured answers and NXDOMAINs, exact or by pattern, and the fabricated response.
    The regular expressions and the construction of records and messages belong to
    third-party crates. *)

From Stdlib Require Import Ascii String.
From stdpp Require Import list gmap.
From S2P Require Import Prelude Addresses Errors Utils Dns Resolver ZoneTransfer.
#[local] Open Scope Z_scope.
#[local] Open Scope list_scope.

(** The [regex] crate, and what the DNS library offers to build a response. *)
Class MockTypes `{DnsTypes} := {
  Regex : Type;
  compile : text -> option Regex;
  is_match : Regex -> text -> bool;
  RData : Type;
  rdata_from_str : RecordType -> text -> result RData text;
  proto_text : ProtoError -> text;
}.

Section Message.
Context `{MockTypes}.

Record Header := mk_header {
  id : Z;
  is_response : bool;
  is_query_op : bool;
  authoritative : bool;
  h_truncated : bool;
  recursion_desired : bool;
  recursion_available : bool;
  authentic_data : bool;
  checking_disabled : bool;
  h_response_code : ResponseCode
}.

Record Message := mk_message {
  header : Header;
  queries : list Query;
  message_answers : list (Name * Z * RData)
}.
End Message.

Module MockBlastDNSClient.
Section MockBlastDNSClient.
Context `{MockTypes}.
Context (from_message : Message -> result DnsResponse text).

Record t := mk {
  mock_data : gmap text (gmap RecordType (list text));
  regex_patterns : list (Regex * gmap RecordType (list text));
  nxdomain_hosts : gset text;
  nxdomain_patterns : list Regex
}.
#[global] Instance t_settable : Settable t := fun c =>
  mk (mock_data c) (regex_patterns c) (nxdomain_hosts c) (nxdomain_patterns c).

Definition new : t := mk ∅ [] ∅ [].
Definition clear (c : t) : t := mk ∅ [] ∅ [].

(** [str::strip_prefix]. *)
Fixpoint strip_prefix (prefix s : text) : option text :=
  match prefix, s with
  | [], _ => Some s
  | p :: prefix', c :: s' => if p =? c then strip_prefix prefix' s' else None
  | _, [] => None
  end.
Definition regex_prefix : text := lit "regex:".

(** The records of one host, as the map of their parsed types. *)
Definition add_record (m : gmap RecordType (list text)) (r : text * list text)
    : gmap RecordType (list text) :=
  match record_type_from_str r.1 with Some record_type => <[record_type := r.2]> m | None => m end.
Definition record_map (rs : list (text * list text)) : gmap RecordType (list text) :=
  fold_left add_record rs ∅.

Definition add_exact (host : text) (c : t) (r : text * list text) : t :=
  match record_type_from_str r.1 with
  | Some record_type =>
      c <| mock_data := <[host := <[record_type := r.2]> (default ∅ (mock_data c !! host))]> (mock_data c) |>
  | None => c
  end.

Definition add_host (c : t) (entry : text * list (text * list text)) : t :=
  let '(host, rs) := entry in
  match strip_prefix regex_prefix host with
  | Some pattern =>
      match compile pattern with
      | Some regex => c <| regex_patterns := regex_patterns c ++ [(regex, record_map rs)] |>
      | None => c
      end
  | None => fold_left (add_exact host) rs c
  end.

Definition add_nxdomain (c : t) (host : text) : t :=
  match strip_prefix regex_prefix host with
  | Some pattern =>
      match compile pattern with
      | Some regex => c <| nxdomain_patterns := nxdomain_patterns c ++ [regex] |>
      | None => c
      end
  | None => c <| nxdomain_hosts := {[ host ]} ∪ nxdomain_hosts c |>
  end.

(** [responses] and each host's records come in the order their hash maps are iterated. *)
Definition mock_dns (responses : list (text * list (text * list text))) (nxdomains : list text) (c : t) : t :=
  fold_left add_nxdomain nxdomains (fold_left add_host responses (clear c)).

(** ** Fabricated responses *)

Definition parse_rdata (record_type : RecordType) (rdata_str : text) : result (option RData) BlastDNSError :=
  map_err (fun e => Configuration (lit "invalid mock " ++ record_type_text record_type ++ lit " record `"
                                   ++ rdata_str ++ lit "`: " ++ e))
    (let? rdata := rdata_from_str record_type rdata_str in Ok (Some rdata)).

Fixpoint fabricate_answers (name : Name) (record_type : RecordType) (answers_data : list text)
    : result (list (Name * Z * RData)) BlastDNSError :=
  match answers_data with
  | [] => Ok []
  | rdata_str :: rest =>
      let? rdata := parse_rdata record_type rdata_str in
      let? records := fabricate_answers name record_type rest in
      Ok (match rdata with Some rdata => (name, 300, rdata) :: records | None => records end)
  end.

Definition fabricated_header (response_code : ResponseCode) : Header := {|
  id := 12345; is_response := true; is_query_op := true; authoritative := false; h_truncated := false;
  recursion_desired := true; recursion_available := true; authentic_data := false;
  checking_disabled := false; h_response_code := response_code
|}.

Definition fabricate_response_with_code (host : text) (record_type : RecordType) (answers_data : list text)
    (response_code : ResponseCode) : result DnsResponse BlastDNSError :=
  let? name := map_err (fun e => Configuration (lit "invalid name: " ++ proto_text e))
                 (parse_name (fqdn host)) in
  let? answers := fabricate_answers name record_type answers_data in
  let message := mk_message (fabricated_header response_code) [question name record_type] answers in
  map_err (fun e => Configuration (lit "failed to create response: " ++ e)) (from_message message).

Definition fabricate_response (host : text) (record_type : RecordType) (answers_data : list text)
    : result DnsResponse BlastDNSError :=
  fabricate_response_with_code host record_type answers_data NoError.
Definition fabricate_nxdomain_response (host : text) (record_type : RecordType)
    : result DnsResponse BlastDNSError :=
  fabricate_response_with_code host record_type [] NXDomain.

(** ** Lookup *)

(** The first pattern that matches and knows the record type. *)
Fixpoint pattern_answers (patterns : list (Regex * gmap RecordType (list text))) (host : text)
    (record_type : RecordType) : option (list text) :=
  match patterns with
  | [] => None
  | (pattern, record_map) :: rest =>
      if is_match pattern host then
        match record_map !! record_type with
        | Some answers_data => Some answers_data
        | None => pattern_answers rest host record_type
        end
      else pattern_answers rest host record_type
  end.

Definition resolve_full_impl (c : t) (host : text) (record_type : RecordType)
    : result DnsResponse BlastDNSError :=
  if decide (host ∈ nxdomain_hosts c) then fabricate_nxdomain_response host record_type
  else if existsb (fun pattern => is_match pattern host) (nxdomain_patterns c)
  then fabricate_nxdomain_response host record_type
  else
    match mock_data c !! host ≫= (fun host_data => host_data !! record_type) with
    | Some answers_data => fabricate_response host record_type answers_data
    | None =>
        match pattern_answers (regex_patterns c) host record_type with
        | Some answers_data => fabricate_response host record_type answers_data
        | None => fabricate_response host record_type []
        end
    end.

Definition resolve_full (c : t) (host : text) (record_type : RecordType)
    : result DnsResponse BlastDNSError :=
  resolve_full_impl c (if decide (record_type = PTR) then format_ptr_query host else host) record_type.

End MockBlastDNSClient.
End MockBlastDNSClient.

Section MockProofs.
Import MockBlastDNSClient.
#[local] Arguments strip_prefix : simpl never.
Context `{MockTypes} (from_message : Message -> result DnsResponse text).
Implicit Types c : t.

(** The records of a host; none when it is not configured. *)
Definition data_of (host : text) c : gmap RecordType (list text) := default ∅ (mock_data c !! host).

Lemma data_of_lookup host c rt :
  mock_data c !! host ≫= (fun host_data => host_data !! rt) = data_of host c !! rt.
Proof. unfold data_of. destruct (mock_data c !! host); simpl; [done|by rewrite lookup_empty]. Qed.

Lemma add_exact_spec host rs : forall c,
  let c' := fold_left (add_exact host) rs c in
  data_of host c' = fold_left add_record rs (data_of host c) /\
  (forall host', host' <> host -> data_of host' c' = data_of host' c) /\
  nxdomain_hosts c' = nxdomain_hosts c.
Proof.
  induction rs as [|r rs IH]; intros c; [done|]. simpl.
  assert (Hr : data_of host (add_exact host c r) = add_record (data_of host c) r /\
    (forall host', host' <> host -> data_of host' (add_exact host c r) = data_of host' c) /\
    nxdomain_hosts (add_exact host c r) = nxdomain_hosts c).
  { unfold add_exact, add_record, data_of. destruct (record_type_from_str r.1); [|done]. simpl.
    split; [by rewrite lookup_insert_eq|]. split; [|done]. intros host' Hne. by rewrite lookup_insert_ne. }
  destruct Hr as (E1 & E2 & E3). destruct (IH (add_exact host c r)) as (IH1 & IH2 & IH3).
  rewrite IH1, E1, IH3, E3. split; [done|]. split; [|done]. intros host' Hne. rewrite IH2; auto.
Qed.

Lemma add_host_other host c entry : entry.1 <> host -> data_of host (add_host c entry) = data_of host c.
Proof.
  destruct entry as [host' rs]. simpl. intros Hne. destruct (strip_prefix regex_prefix host') as [p|].
  - by destruct (compile p).
  - apply add_exact_spec. congruence.
Qed.

Lemma add_hosts_other host responses : forall c, host ∉ responses.*1 ->
  data_of host (fold_left add_host responses c) = data_of host c.
Proof.
  induction responses as [|entry responses IH]; intros c Hout; [done|]. simpl in *.
  rewrite IH by (intros ?; apply Hout; by right). apply add_host_other. intros E. apply Hout. rewrite E. by left.
Qed.

Lemma add_hosts_data host rs responses : forall c, NoDup responses.*1 -> (host, rs) ∈ responses ->
  strip_prefix regex_prefix host = None -> data_of host c = ∅ ->
  data_of host (fold_left add_host responses c) = record_map rs.
Proof.
  induction responses as [|entry responses IH]; intros c Hnd Hin Hp Hc; [by apply elem_of_nil in Hin|].
  simpl in Hnd. apply NoDup_cons in Hnd as [Hout Hnd]. simpl.
  apply elem_of_cons in Hin as [<-|Hin].
  - rewrite add_hosts_other by done. simpl. rewrite Hp.
    destruct (add_exact_spec host rs c) as (E & _ & _). rewrite E, Hc. done.
  - apply IH; [done..|]. rewrite add_host_other; [done|]. intros E. apply Hout. rewrite E.
    apply list_elem_of_fmap. by exists (host, rs).
Qed.

Lemma add_nxdomain_data nx host : forall c, data_of host (fold_left add_nxdomain nx c) = data_of host c.
Proof.
  induction nx as [|h nx IH]; intros c; [done|]. simpl. rewrite IH. unfold add_nxdomain.
  destruct (strip_prefix regex_prefix h) as [p|]; [by destruct (compile p)|done].
Qed.

Lemma add_nxdomain_hosts nx host : strip_prefix regex_prefix host = None -> forall c,
  host ∈ nxdomain_hosts (fold_left add_nxdomain nx c) <-> host ∈ nx \/ host ∈ nxdomain_hosts c.
Proof.
  intros Hp. induction nx as [|h nx IH]; intros c; simpl.
  { split; [auto|]. intros [Hin|Hin]; [by apply elem_of_nil in Hin|done]. }
  rewrite IH, elem_of_cons. unfold add_nxdomain.
  destruct (strip_prefix regex_prefix h) as [p|] eqn:E.
  - assert (host <> h) by congruence. destruct (compile p); simpl; tauto.
  - simpl. rewrite elem_of_union, elem_of_singleton. tauto.
Qed.

Lemma add_host_hosts responses : forall c,
  nxdomain_hosts (fold_left add_host responses c) = nxdomain_hosts c.
Proof.
  induction responses as [|[host rs] responses IH]; intros c; [done|]. simpl. rewrite IH.
  destruct (strip_prefix regex_prefix host) as [p|]; [by destruct (compile p)|]. apply add_exact_spec.
Qed.

(** Records of a fabricated response: one per configured answer, in order, TTL 300. *)
Lemma fabricate_answers_spec name rt data rs :
  fabricate_answers name rt data = Ok rs <->
  Forall2 (fun s r => exists d, rdata_from_str rt s = Ok d /\ r = (name, 300, d)) data rs.
Proof.
  revert rs. induction data as [|s data IH]; intros rs; simpl.
  - split; [intros [= <-]; constructor|]. by intros ->%Forall2_nil_inv_l.
  - unfold parse_rdata. destruct (rdata_from_str rt s) as [d|e] eqn:E; cbn [and_then map_err].
    + destruct (fabricate_answers name rt data) as [rs'|e]; cbn [and_then].
      * split; [intros [= <-]; constructor; [by eauto|by apply IH]|].
        intros (r & rs2 & (d' & E' & ->) & Hrs & ->)%Forall2_cons_inv_l. apply IH in Hrs. congruence.
      * split; [done|]. intros (r & rs2 & _ & Hrs & ->)%Forall2_cons_inv_l. by apply IH in Hrs.
    + split; [done|]. intros (r & rs2 & (d' & E' & _) & _ & ->)%Forall2_cons_inv_l. congruence.
Qed.

(** The mock serves its last configuration and nothing else, in whatever order its maps
    are iterated and whatever was configured before: a host listed as NXDOMAIN answers
    NXDOMAIN to every type, even one with records; any other exact host answers a type it
    has records for with exactly those, each with a TTL of 300. *)
Theorem mock_serves_configuration responses nx c host rs rt :
  NoDup responses.*1 -> (host, rs) ∈ responses -> strip_prefix regex_prefix host = None ->
  let c' := mock_dns responses nx c in
  (host ∈ nx -> resolve_full_impl from_message c' host rt = fabricate_nxdomain_response from_message host rt) /\
  (host ∉ nx -> Forall (fun p => is_match p host = false) (nxdomain_patterns c') ->
   forall data, record_map rs !! rt = Some data ->
   resolve_full_impl from_message c' host rt = fabricate_response from_message host rt data).
Proof.
  intros Hnd Hin Hp. cbv zeta. unfold mock_dns.
  assert (Hnx : host ∈ nxdomain_hosts (fold_left add_nxdomain nx (fold_left add_host responses (clear c)))
                <-> host ∈ nx).
  { rewrite add_nxdomain_hosts by done. rewrite add_host_hosts. simpl. rewrite elem_of_empty. tauto. }
  split.
  - intros Hi. unfold resolve_full_impl. by rewrite decide_True by (by apply Hnx).
  - intros Hi Hpat data Hd. unfold resolve_full_impl. rewrite decide_False by (by rewrite Hnx).
    destruct (existsb _ _) eqn:E.
    { apply existsb_exists in E as (p & Hpin & Hm). rewrite Forall_forall in Hpat.
      rewrite Hpat in Hm; [done|]. by apply list_elem_of_In. }
    rewrite data_of_lookup, add_nxdomain_data.
    rewrite (add_hosts_data host rs) by done. by rewrite Hd.
Qed.
End MockProofs.

Section MockExamples.
Import MockBlastDNSClient.
#[local] Existing Instance demo_errors.
#[local] Existing Instance demo_dns.

(** Patterns match themselves, record data is text, a message becomes its answers. *)
Definition demo_mock : @MockTypes demo_errors demo_dns := {|
  Regex := text; compile := Some; is_match := fun p s => bool_decide (p = s);
  RData := text; rdata_from_str := fun _ s => Ok s; proto_text := fun e => e
|}.
#[local] Existing Instance demo_mock.
Definition demo_message (m : Message) : result DnsResponse text :=
  Ok (mk_demo ((fun a => (a.1.2, a.2)) <$> message_answers m) false (h_response_code (header m))).

Definition configured : list (text * list (text * list text)) :=
  [(lit "a.example", [(lit "A", [lit "192.0.2.7"])]); (lit "b.example", [(lit "A", [lit "192.0.2.8"])])].
Definition mock_a : RecordType := 1.

Lemma mock_serves_configuration_witness :
  let c' := mock_dns configured [lit "b.example"] new in
  (lit "a.example" ∈ [lit "b.example"] ->
   resolve_full_impl demo_message c' (lit "a.example") mock_a
   = fabricate_nxdomain_response demo_message (lit "a.example") mock_a) /\
  (lit "a.example" ∉ [lit "b.example"] ->
   Forall (fun p => is_match p (lit "a.example") = false) (nxdomain_patterns c') ->
   forall data, record_map [(lit "A", [lit "192.0.2.7"])] !! mock_a = Some data ->
   resolve_full_impl demo_message c' (lit "a.example") mock_a
   = fabricate_response demo_message (lit "a.example") mock_a data).
Proof.
  apply (mock_serves_configuration demo_message configured [lit "b.example"] new (lit "a.example")).
  - apply (bool_decide_eq_true_1 _). vm_compute. reflexivity.
  - by left.
  - vm_compute. reflexivity.
Defined.

Example mock_answers :
  resolve_full_impl demo_message (mock_dns configured [lit "b.example"] new) (lit "a.example") mock_a
  = Ok (mk_demo [(300, lit "192.0.2.7")] false NoError).
Proof. vm_compute. reflexivity. Qed.
End MockExamples.
