(* ===== verification/Cli.v ===== *)
(** * The command line: [main.rs]

    Arguments to configuration, and the resolver and host lists: one entry a line, [#]
    starting a comment, blanks trimmed. *)

From Stdlib Require Import Ascii String.
From stdpp Require Import list.
From S2P Require Import Prelude Float64 Limiter Config Addresses Errors Utils Dns.
#[local] Open Scope Z_scope.
#[local] Open Scope list_scope.

Definition HASH : Z := 35.
Definition CR : Z := 13.

(** [str::to_ascii_uppercase]. *)
Definition ascii_upper (c : Z) : Z := if (97 <=? c) && (c <=? 122) then c - 32 else c.
Definition to_ascii_uppercase (s : text) : text := ascii_upper <$> s.
Definition trim : text -> text := trim_matches is_whitespace.

Section Args.
Context `{DnsTypes}.

Record Args := mk_args {
  hosts : option text;
  record_type : RecordType;
  resolvers_path : text;
  max_inflight_per_resolver : Z;
  max_concurrency : Z;
  rate_limit : f64;
  resolver_probe : bool;
  no_adaptive : bool;
  persistent_socket : bool;
  timeout_ms : Z;
  retries : Z;
  purgatory_threshold : Z;
  purgatory_sentence_ms : Z;
  skip_empty : bool;
  skip_errors : bool;
  brief : bool;
  cache_capacity : Z
}.

(** The configuration [main] builds. *)
Definition args_config (args : Args) : BlastDNSConfig := {|
  Config.max_inflight_per_resolver := Z.max (max_inflight_per_resolver args) 1;
  Config.max_concurrency := Z.max (max_concurrency args) 1;
  Config.rate_limit := if (rate_limit args >? f64_of_Z 0)%f64 then Some (rate_limit args) else None;
  Config.adaptive := negb (no_adaptive args);
  Config.resolver_probe := resolver_probe args;
  Config.persistent_socket := persistent_socket args;
  Config.request_timeout := from_millis (Z.max (timeout_ms args) 1);
  Config.max_retries := retries args;
  Config.purgatory_threshold := purgatory_threshold args;
  Config.purgatory_sentence := from_millis (purgatory_sentence_ms args);
  Config.cache_capacity := cache_capacity args;
  Config.cache_min_ttl := DEFAULT_CACHE_MIN_TTL;
  Config.cache_max_ttl := DEFAULT_CACHE_MAX_TTL
|}.

Definition parse_record_type (value : text) : result RecordType text :=
  let upper := to_ascii_uppercase (trim value) in
  match record_type_from_str upper with
  | Some t => Ok t
  | None => Err (lit "invalid record type `" ++ value ++ lit "`")
  end.
End Args.

(** The configuration of any arguments, zeroes and negative or NaN rates included, is one
    a client can be built from. *)
Lemma args_config_buildable `{DnsTypes} args : config_buildable (args_config args).
Proof.
  split; cbn [args_config Config.max_inflight_per_resolver Config.max_concurrency Config.rate_limit]; [lia..|].
  intros r. destruct (f64_lt (f64_of_Z 0) (rate_limit args)) eqn:E; [|discriminate]. by intros [= <-].
Qed.

(** ** Lists of lines *)

(** [str::lines]: a line ends with LF or CR LF; nothing follows the last LF. *)
Definition strip_cr (line : text) : text :=
  match last line with
  | Some c => if c =? CR then removelast line else line
  | None => line
  end.
Fixpoint lines_from (line : text) (s : text) : list text :=
  match s with
  | [] => match line with [] => [] | _ => [line] end
  | c :: s' => if c =? NEWLINE then strip_cr line :: lines_from [] s' else lines_from (line ++ [c]) s'
  end.
Definition lines (s : text) : list text := lines_from [] s.

(** [line.split('#').next().unwrap_or("").trim()]. *)
Fixpoint before_hash (line : text) : text :=
  match line with [] => [] | c :: line' => if c =? HASH then [] else c :: before_hash line' end.
Definition clean_line (line : text) : text := trim (before_hash line).

Definition entries (ls : list text) : list text :=
  omap (fun line => match clean_line line with [] => None | trimmed => Some trimmed end) ls.

(** [file] is the resolver file's content, or the text of the error of reading it. *)
Definition load_resolvers (path : text) (file : result text text) : result (list text) text :=
  let? buf := file in
  match entries (lines buf) with
  | [] => Err (lit "resolver list `" ++ path ++ lit "` is empty")
  | out => Ok out
  end.

(** Lines that cannot be read are skipped. *)
Definition load_hosts (file_lines : list (option text)) : list text := entries (omap id file_lines).

(** ** Properties *)

Lemma before_hash_no_hash line : HASH ∉ before_hash line.
Proof.
  induction line as [|c line IH]; simpl; [apply not_elem_of_nil|].
  destruct (Z.eqb_spec c HASH); [apply not_elem_of_nil|]. rewrite elem_of_cons. intros [E|Hin]; [congruence|done].
Qed.

Lemma before_hash_id line : HASH ∉ line -> before_hash line = line.
Proof.
  induction line as [|c line IH]; simpl; [done|]. intros Hn.
  destruct (Z.eqb_spec c HASH) as [->|Hne]; [destruct Hn; by left|].
  rewrite IH; [done|]. intros Hin. apply Hn. by right.
Qed.

Lemma before_hash_In line c : c ∈ before_hash line -> c ∈ line.
Proof.
  induction line as [|x line IH]; simpl; [done|].
  destruct (Z.eqb_spec x HASH); [by intros ?%elem_of_nil|]. rewrite !elem_of_cons. tauto.
Qed.

(** An entry as loading leaves it. *)
Record clean (s : text) : Prop := {
  cl_nonempty : s <> [];
  cl_hash : HASH ∉ s;
  cl_newline : NEWLINE ∉ s;
  cl_trimmed : trimmed is_whitespace s;
}.

Lemma lines_from_no_newline s : forall line, NEWLINE ∉ line -> Forall (fun l => NEWLINE ∉ l) (lines_from line s).
Proof.
  assert (Hcr : forall l, NEWLINE ∉ l -> NEWLINE ∉ strip_cr l).
  { intros l Hl. unfold strip_cr. destruct (last l) as [c|] eqn:El; [|done].
    destruct (c =? CR); [|done]. apply last_Some in El as [l' ->]. rewrite removelast_last.
    intros Hin. apply Hl, elem_of_app. by left. }
  induction s as [|c s IH]; intros line Hl; simpl.
  - destruct line; repeat constructor; done.
  - destruct (Z.eqb_spec c NEWLINE) as [->|Hne].
    + constructor; [by apply Hcr|]. apply IH. apply not_elem_of_nil.
    + apply IH. rewrite elem_of_app, list_elem_of_singleton. intros [?|?]; [done|congruence].
Qed.

Lemma entries_cons line ls :
  entries (line :: ls) = match clean_line line with [] => entries ls | s => s :: entries ls end.
Proof. unfold entries. simpl. by destruct (clean_line line). Qed.

Lemma entries_clean ls : Forall (fun l => NEWLINE ∉ l) ls -> Forall clean (entries ls).
Proof.
  induction 1 as [|l ls Hl Hls IH]; [constructor|]. rewrite entries_cons.
  destruct (clean_line l) as [|c s] eqn:E; [done|]. constructor; [|done]. rewrite <- E.
  unfold clean_line, trim. split.
  - unfold clean_line, trim in E. by rewrite E.
  - intros Hin. by apply trim_matches_In, before_hash_no_hash in Hin.
  - intros Hin. by apply trim_matches_In, before_hash_In in Hin.
  - apply trim_matches_spec.
Qed.

Lemma clean_line_id s : clean s -> clean_line s = s.
Proof. intros [_ Hh _ Ht]. unfold clean_line. rewrite before_hash_id by done. by apply trim_fixed. Qed.

Lemma clean_strip_cr s : clean s -> strip_cr s = s.
Proof.
  intros [_ _ _ [_ Hl]]. unfold strip_cr. destruct (last s) as [c|]; [|done].
  destruct (Z.eqb_spec c CR) as [->|]; done.
Qed.

Lemma lines_from_line l : forall line rest, NEWLINE ∉ l ->
  lines_from line (l ++ rest) = lines_from (line ++ l) rest.
Proof.
  induction l as [|c l IH]; intros line rest Hn; simpl; [by rewrite app_nil_r|].
  destruct (Z.eqb_spec c NEWLINE) as [->|Hne]; [destruct Hn; by left|].
  rewrite IH by (intros Hin; apply Hn; by right). by rewrite <- app_assoc.
Qed.

Lemma lines_join out : Forall clean out -> lines (join [NEWLINE] out) = out.
Proof.
  unfold lines. induction 1 as [|s out Hs Hout IH]; [done|].
  destruct out as [|s' out]; simpl.
  - rewrite <- (app_nil_r s) at 1. rewrite lines_from_line by apply Hs. simpl.
    destruct s; [by destruct (cl_nonempty _ Hs)|done].
  - rewrite lines_from_line by apply Hs. simpl. rewrite clean_strip_cr by done. f_equal. exact IH.
Qed.

Lemma entries_id out : Forall clean out -> entries out = out.
Proof.
  induction 1 as [|s out Hs Hout IH]; [done|]. rewrite entries_cons, clean_line_id, IH by done. destruct s; [by destruct (cl_nonempty _ Hs)|done].
Qed.

(** Loading a resolver list cleans it once and for all: each entry is one line's text
    before any comment, trimmed and not empty; at least one entry is left; and writing the
    entries back, one a line, and loading that gives the same list. *)
Theorem load_resolvers_clean path buf out :
  load_resolvers path (Ok buf) = Ok out ->
  out <> [] /\ Forall clean out /\ out = entries (lines buf) /\
  load_resolvers path (Ok (join [NEWLINE] out)) = Ok out.
Proof.
  unfold load_resolvers. cbn [and_then]. intros Hload.
  assert (Hc : Forall clean (entries (lines buf))).
  { apply entries_clean, lines_from_no_newline, not_elem_of_nil. }
  destruct (entries (lines buf)) as [|s out'] eqn:E; [done|]. injection Hload as <-.
  split; [done|]. split; [done|]. split; [done|]. rewrite lines_join, entries_id by done. done.
Qed.

Lemma load_resolvers_clean_witness :
  let out := [lit "192.0.2.1"; lit "[2001:db8::1]:5353"] in
  out <> [] /\ Forall clean out /\
  out = entries (lines (lit "192.0.2.1 # first" ++ [CR; NEWLINE; NEWLINE; HASH; NEWLINE]
                         ++ lit "	[2001:db8::1]:5353")) /\
  load_resolvers (lit "r.txt") (Ok (join [NEWLINE] out)) = Ok out.
Proof.
  apply (load_resolvers_clean (lit "r.txt")
           (lit "192.0.2.1 # first" ++ [CR; NEWLINE; NEWLINE; HASH; NEWLINE] ++ lit "	[2001:db8::1]:5353")).
  vm_compute. reflexivity.
Defined.
