(* ===== verification/Python.v ===== *)
(** * The Python bindings' own logic: [python.rs]

    What the bindings do themselves: record types given as text, batches of results for
    asynchronous iteration, the exception an error becomes, the hosts a record points to,
    and the mock's dictionary.  Values of the Python runtime are what is extracted from
    them. *)

From Stdlib Require Import Ascii String.
From stdpp Require Import list gmap.
From S2P Require Import Prelude Float64 Limiter Config Addresses Errors Utils Dns Resolver ZoneTransfer Mock Cli.
#[local] Open Scope Z_scope.
#[local] Open Scope list_scope.

(** The exceptions raised, by class. *)
Inductive py_error :=
| Raised                       (* by the Python code called, or by extracting a value *)
| ValueError (message : text)
| StopAsyncIteration
| RuntimeError (message : text)
| ConfigurationError (message : text)
| NoResolversError (message : text)
| ResolverError (message : text).

(** Attributes of [blastdns.exceptions], once it was imported and they were found to be
    classes; an attribute that is missing panics. *)
Record exception_types := mk_exception_types { configuration_cls : bool; no_resolvers_cls : bool; resolver_cls : bool }.

(** [make_pyerr]: only a class can be raised. *)
Definition make_pyerr (is_class : bool) (raised : text -> py_error) (msg : text) : option py_error :=
  if is_class then Some (raised msg) else None.

(** The exception for an error; [types] is [None] when the package could not be imported. *)
Definition blastdns_error_to_pyerr `{ErrorTypes} (types : option exception_types) (err : BlastDNSError) : py_error :=
  let msg := show_error err in
  let result : option py_error :=
    types ← types;
    match err with
    | NoResolvers => make_pyerr (no_resolvers_cls types) NoResolversError msg
    | InvalidResolver _ _ | InvalidHostname _ _ | Configuration _ =>
        make_pyerr (configuration_cls types) ConfigurationError msg
    | ResolverRequestFailed _ _ | QueryTimedOut _ _ | ResolverSetupFailed _ _ | WorkerDropped | QueueClosed =>
        make_pyerr (resolver_cls types) ResolverError msg
    end in
  match result with
  | Some raised => raised
  | None => RuntimeError (lit "blastdns exception types not initialized (packaging bug?): " ++ msg)
  end.

(** The configuration of a new client: the parsed JSON's, or the default. *)
Definition client_config (config_json : option (result BlastDNSConfigWire text)) : result BlastDNSConfig py_error :=
  match config_json with
  | Some (Ok wire) => Ok (from_wire wire)
  | Some (Err e) => Err (ValueError (lit "invalid config JSON: " ++ e))
  | None => Ok default_config
  end.

Section RecordTypes.
Context `{DnsTypes} (A : RecordType).

Definition parse_record_type (input : option text) : result RecordType py_error :=
  match input with
  | None => Ok A
  | Some value =>
      let trimmed := trim value in
      match trimmed with
      | [] => Ok A
      | _ =>
          let upper := to_ascii_uppercase trimmed in
          match record_type_from_str upper with
          | Some t => Ok t
          | None => Err (ValueError (lit "invalid record type `" ++ value ++ lit "`"))
          end
      end
  end.

(** [resolve_multi]: every type must parse; the dictionary is keyed by the types' texts,
    in the order the map is iterated. *)
Definition parse_record_types (record_types : list text) : result (list RecordType) py_error :=
  collect ((fun rt => parse_record_type (Some rt)) <$> record_types).

Definition multi_dict {V} (results : list (RecordType * V)) : gmap text V :=
  fold_left (fun m kv => <[record_type_text kv.1 := kv.2]> m) results ∅.
End RecordTypes.

(** ** Hosts from Python *)

Module PythonHostIterator.
Section PythonHostIterator.
Context {Object : Type} (extract : Object -> result text py_error).

(** What the Python iterator still yields: objects, or exceptions it raises. *)
Definition t : Type := list (result Object py_error).

Definition new (iterator : list (result Object py_error)) : t := iterator.

Definition next (self : t) : option (result text py_error) * t :=
  match self with
  | [] => (None, [])
  | result :: rest => (Some (let? item := result in extract item), rest)
  end.

(** Every item of the iteration. *)
Fixpoint drain (fuel : nat) (self : t) : list (result text py_error) :=
  match fuel with
  | O => []
  | S fuel' => match next self with (Some item, rest) => item :: drain fuel' rest | (None, _) => [] end
  end.

Lemma drain_items self :
  drain (S (length self)) self = (fun result => let? item := result in extract item) <$> self.
Proof. induction self as [|r self IH]; [done|]. cbn [length drain next fmap list_fmap] in *. by rewrite IH. Qed.
End PythonHostIterator.
End PythonHostIterator.

(** ** Targets of a record *)

Section Targets.
Context `{DnsTypes} (name_text : Name -> text).

(** The variants of the DNS library's record data that are told apart. *)
Inductive RData :=
| RA (addr : IpAddr)
| RAAAA (addr : IpAddr)
| RCNAME (name : Name)
| RNS (name : Name)
| RPTR (name : Name)
| RANAME (name : Name)
| RMX (exchange : Name)
| RSRV (target : Name)
| RSOA (mname : Name)
| RNAPTR (replacement : Name)
| ROther.

Definition ascii_lower (c : Z) : Z := if (65 <=? c) && (c <=? 90) then c + 32 else c.
(** [str::trim_end_matches] of one character. *)
Definition trim_end (c : Z) (s : text) : text := reverse (trim_start (fun d => d =? c) (reverse s)).
Definition normalize (n : Name) : text := ascii_lower <$> trim_end DOT (name_text n).

(** [rdtype] is the text of the data's record type. *)
Definition targets_for_rdata (rdtype : text) (data : RData) : list (text * text) :=
  match data with
  | RA addr | RAAAA addr => [(rdtype, show_ip addr)]
  | RCNAME n | RNS n | RPTR n | RANAME n | RMX n | RSRV n | RSOA n | RNAPTR n => [(rdtype, normalize n)]
  | ROther => []
  end.

(** A normalised name has no trailing dot and no upper case letter. *)
Lemma normalize_spec n :
  last (normalize n) <> Some DOT /\ Forall (fun c => ~ 65 <= c <= 90) (normalize n).
Proof.
  unfold normalize. split.
  - rewrite fmap_last. unfold trim_end. rewrite last_reverse.
    destruct (trim_start_spec (fun d => d =? DOT) (reverse (name_text n))) as [_ Hh].
    destruct (trim_start _ _) as [|c s]; [done|]. simpl. intros [= E]. revert E Hh.
    unfold ascii_lower, DOT.
    destruct ((65 <=? c) && (c <=? 90)) eqn:Ec; intros E Hh; [|by subst].
    apply andb_true_iff in Ec as [?%Z.leb_le ?%Z.leb_le]. lia.
  - apply Forall_fmap, Forall_true. intros c. unfold ascii_lower. simpl.
    destruct (Z.leb_spec 65 c), (Z.leb_spec c 90); simpl; lia.
Qed.
End Targets.

(** ** The mock's dictionary, system resolvers and zone transfers *)

Section MockDictionary.
Context `{MockTypes} {Key Value : Type}.
Context (extract_key : Key -> result text py_error).
Context (extract_hosts : Value -> result (list text) py_error).
Context (extract_records : Value -> result (list (text * list text)) py_error).
(** The order in which the map of responses is iterated. *)
Context (order : gmap text (list (text * list text)) -> list (text * list (text * list text))).

Definition NXDOMAIN_KEY : text := lit "_NXDOMAIN".

Fixpoint read_dict (dict : list (Key * Value)) (responses : gmap text (list (text * list text)))
    (nxdomains : list text) : result (gmap text (list (text * list text)) * list text) py_error :=
  match dict with
  | [] => Ok (responses, nxdomains)
  | (key, value) :: rest =>
      let? key_str := extract_key key in
      if bool_decide (key_str = NXDOMAIN_KEY) then
        let? nxdomains' := extract_hosts value in read_dict rest responses nxdomains'
      else
        let? host_records := extract_records value in
        read_dict rest (<[key_str := host_records]> responses) nxdomains
  end.

(** [unique]: no query holds another reference to the client; [data] is [None] when the
    argument is no dictionary. *)
Definition py_mock_dns (unique : bool) (data : option (list (Key * Value)))
    (client : MockBlastDNSClient.t) : result MockBlastDNSClient.t py_error :=
  if unique then
    match data with
    | None => Err (ValueError (lit "expected dict"))
    | Some dict =>
        let? read := read_dict dict ∅ [] in
        Ok (MockBlastDNSClient.mock_dns (order read.1) read.2 client)
    end
  else Err (RuntimeError (lit "Cannot modify mock client with outstanding references")).
End MockDictionary.

Definition get_system_resolvers_py `{ErrorTypes} (set_order : list IpAddr -> list IpAddr)
    (system_conf : result (list SocketAddress) text) : result (list text) py_error :=
  let? resolver_ips := map_err (fun e => RuntimeError (lit "Failed to get system resolvers: " ++ show_error e))
                         (get_system_resolvers set_order system_conf) in
  Ok (show_ip <$> resolver_ips).

Section ZoneTransferPy.
Context `{DnsTypes} (record_name : DnsRecord -> text) (record_rtype : DnsRecord -> RecordType).

(** [Duration::from_secs_f64] panics on what is no duration: negative, NaN, too long. *)
Definition is_duration (secs : f64) : bool :=
  (f64_of_Z 0 <=? secs)%f64 && (secs <? f64_of_Z u64_modulus)%f64.

(** [None] is that panic. *)
Definition zone_transfer_py (types : option exception_types) (nameserver zone : text) (timeout_secs : f64)
    (connected : result unit ProtoError) (xfr_stream : list (result DnsResponse ClientError))
    : option (result (list (text * text * text)) py_error) :=
  if is_duration timeout_secs then
    Some (
      let? result := map_err (blastdns_error_to_pyerr types) (zone_transfer nameserver zone connected xfr_stream) in
      Ok ((fun record => (record_name record, record_type_text (record_rtype record), record_data record))
            <$> records result))
  else None.
End ZoneTransferPy.

(** [init_logging]: the subscriber is global to the process; installing one, and what a
    filter is, are the tracing library's. *)
Section Logging.
Context {Filter Global LogError : Type} (env_filter : text -> Filter) (from_default_env : Filter).
Context (try_init : Filter -> Global -> result unit LogError * Global).

Definition init_logging (filter : option text) (process : Global) : bool * Global :=
  let env := match filter with Some directive => env_filter directive | None => from_default_env end in
  let '(installed, process') := try_init env process in
  (match installed with Ok _ => true | Err _ => false end, process').
End Logging.

(** ** Asynchronous iteration *)

Section Batches.
Context {A B : Type} (payload : A -> result B py_error).

Definition BATCH_SIZE : nat := 1000.
Definition BATCH_TIMEOUT : Z := from_millis 200.

(** [__anext__]: the stream's items, each with the time elapsed since the call when it had
    arrived; the batch or the exception, and what is left of the stream. *)
Fixpoint anext (batch : list B) (elapsed : Z) (stream : list (A * Z))
    : result (list B) py_error * list (A * Z) :=
  if (BATCH_SIZE <=? length batch)%nat || (negb (length batch =? 0)%nat && (BATCH_TIMEOUT <=? elapsed))
  then (Ok batch, stream)
  else
    match stream with
    | (item, elapsed') :: rest =>
        match payload item with
        | Ok p => anext (batch ++ [p]) elapsed' rest
        | Err e => (Err e, rest)
        end
    | [] => match batch with [] => (Err StopAsyncIteration, []) | _ => (Ok batch, []) end
    end.

(** [async for]: batches until the iteration stops. *)
Fixpoint iterate (fuel : nat) (stream : list (A * Z)) : option (list (list B)) :=
  match fuel with
  | O => None
  | S fuel' =>
      match anext [] 0 stream with
      | (Ok batch, rest) => bs ← iterate fuel' rest; Some (batch :: bs)
      | (Err StopAsyncIteration, _) => Some []
      | (Err _, _) => None
      end
  end.

(** With payloads that all succeed, as those of the basic iterator do. *)
Context (f : A -> B) (Hpayload : forall x, payload x = Ok (f x)).

Lemma stop_now (batch : list B) (stream : list (A * Z)) :
  (length batch <= BATCH_SIZE)%nat -> (0 < length batch)%nat ->
  exists taken, stream = taken ++ stream /\ batch = batch ++ (f <$> taken.*1) /\
    (0 < length batch)%nat /\ (length batch <= BATCH_SIZE)%nat /\
    (batch = [] -> (0 < length taken)%nat).
Proof.
  intros Hle Hpos. exists []. simpl. rewrite app_nil_r. split_and!; try done.
  intros ->. simpl in Hpos. lia.
Qed.

Lemma anext_spec stream : forall batch elapsed, (length batch <= BATCH_SIZE)%nat ->
  match anext batch elapsed stream with
  | (Ok out, rest) =>
      exists taken, stream = taken ++ rest /\ out = batch ++ (f <$> taken.*1) /\
        (0 < length out)%nat /\ (length out <= BATCH_SIZE)%nat /\
        (batch = [] -> (0 < length taken)%nat)
  | (Err e, rest) => e = StopAsyncIteration /\ batch = [] /\ stream = []
  end.
Proof.
  induction stream as [|[x t] stream IH]; intros batch elapsed Hlen.
  - cbn [anext]. destruct (Nat.leb_spec BATCH_SIZE (length batch)) as [Hfull|Hroom]; cbn [orb].
    + apply stop_now; [done|]. unfold BATCH_SIZE in *. lia.
    + destruct (Nat.eqb_spec (length batch) 0) as [E0|Hne]; cbn [negb andb].
      * apply nil_length_inv in E0 as ->. done.
      * destruct batch as [|b batch]; [done|].
        destruct (BATCH_TIMEOUT <=? elapsed); (apply stop_now; [done|simpl; lia]).
  - cbn [anext]. destruct (_ || _) eqn:Estop.
    + apply stop_now; [done|]. apply orb_true_iff in Estop as [E|E].
      * apply Nat.leb_le in E. unfold BATCH_SIZE in *. lia.
      * apply andb_true_iff in E as [E _]. apply negb_true_iff, Nat.eqb_neq in E. lia.
    + apply orb_false_iff in Estop as [Eroom _]. apply Nat.leb_gt in Eroom. rewrite Hpayload.
      specialize (IH (batch ++ [f x]) t). rewrite length_app in IH. specialize (IH ltac:(simpl; lia)).
      destruct (anext (batch ++ [f x]) t stream) as [[out|e] rest].
      * destruct IH as (taken & -> & -> & H1 & H2 & _). exists ((x, t) :: taken).
        simpl. rewrite <- app_assoc. simpl. rewrite <- app_assoc in H1, H2. simpl in H1, H2.
        split_and!; try done; lia.
      * destruct IH as (_ & E & _). by destruct batch.
Qed.

(** C39: asynchronous iteration hands out every result once, in order.  When every payload can
    be made, the batches, however the arrivals are timed, are non-empty, hold at most a
    thousand results, and put together are the whole stream; then the iteration stops,
    after no more calls than there are results and one. *)
Theorem batches_partition stream :
  exists batches, iterate (S (length stream)) stream = Some batches /\
    concat batches = f <$> stream.*1 /\
    Forall (fun b => (0 < length b)%nat /\ (length b <= BATCH_SIZE)%nat) batches.
Proof.
  remember (length stream) as n eqn:Hn. assert (Hle : (length stream <= n)%nat) by lia. clear Hn.
  revert stream Hle. induction n as [|n IH]; intros stream Hle.
  - assert (stream = []) as -> by (destruct stream; [done|simpl in Hle; lia]).
    exists []. by vm_compute.
  - pose proof (anext_spec stream [] 0 ltac:(simpl; lia)) as Ha. cbn [iterate].
    destruct (anext [] 0 stream) as [[out|e] rest].
    + destruct Ha as (taken & -> & -> & H1 & H2 & H3). specialize (H3 eq_refl).
      rewrite length_app in Hle. destruct (IH rest ltac:(lia)) as (batches & E & Hc & Hf).
      cbn [iterate] in E. exists ((f <$> taken.*1) :: batches).
      destruct n as [|n]; [destruct rest; [|simpl in Hle; lia]|].
      * cbn [iterate] in *. rewrite E. cbn [mbind option_bind]. split; [done|]. simpl. rewrite Hc.
        rewrite !fmap_app. split; [done|]. by constructor.
      * rewrite E. cbn [mbind option_bind]. split; [done|]. simpl. rewrite Hc.
        rewrite !fmap_app. split; [done|]. by constructor.
    + destruct Ha as (-> & _ & ->). exists []. done.
Qed.
End Batches.

(** The payload of a full result: the response or the error, in bytes. *)
Definition full_payload `{DnsTypes} {Bytes : Type} (dns_response_to_bytes : DnsResponse -> result Bytes py_error)
    (error_to_bytes : BlastDNSError -> result Bytes py_error)
    (item : text * result DnsResponse BlastDNSError) : result (text * Bytes) py_error :=
  let? payload := match item.2 with
                  | Ok response => dns_response_to_bytes response
                  | Err err => error_to_bytes err
                  end in
  Ok (item.1, payload).

(** [PyBatchIterator] makes the payload of each result; [PyBatchBasicIterator] hands the
    tuples out as they are. *)
Definition anext_full `{DnsTypes} {Bytes : Type} (dns_response_to_bytes : DnsResponse -> result Bytes py_error)
    (error_to_bytes : BlastDNSError -> result Bytes py_error) :=
  anext (full_payload dns_response_to_bytes error_to_bytes) [] 0.
Definition anext_basic : list (text * text * list text * Z) ->
    result (list (text * text * list text)) py_error * list (text * text * list text * Z) :=
  anext Ok [] 0.

(** Three results, the last one late: the batch of the first two, then the third. *)
Lemma batches_partition_witness :
  (forall x : Z, (fun x => Ok (E := py_error) (x + 1)) x = Ok (x + 1)) /\
  exists batches, iterate (fun x : Z => Ok (x + 1)) 4 [(1, 5); (2, from_millis 200); (3, 9)] = Some batches /\
    concat batches = (fun x => x + 1) <$> [1; 2; 3] /\
    Forall (fun b => (0 < length b)%nat /\ (length b <= BATCH_SIZE)%nat) batches.
Proof.
  split; [reflexivity|].
  exact (batches_partition (fun x : Z => Ok (x + 1)) (fun x => x + 1) (fun _ => eq_refl)
           [(1, 5); (2, from_millis 200); (3, 9)]).
Defined.

Example late_item_starts_a_batch :
  iterate (fun x : Z => Ok (x + 1)) 4 [(1, 5); (2, from_millis 200); (3, 9)] = Some [[2; 3]; [4]].
Proof. vm_compute. reflexivity. Qed.

(** A timeout that is no duration is not refused: it panics. *)
Example timeouts_that_panic :
  is_duration <$> [f64_of_Z 6; f64_of_Z 0; f64_of_Z (-1); S754_nan; f64_of_Z u64_modulus]
  = [true; true; false; false; false].
Proof. vm_compute. reflexivity. Qed.
