(* ===== verification/Output.v ===== *)
(** * What the front ends hand out: [main.rs] and [python.rs]

    Results as JSON.  [serde_json] turns a value into text and the DNS library's types into
    values: both are parameters, and each may fail.  The program prints one line per result
    and stops at the first it cannot write ([prints_every_result]); the bindings return
    bytes, or a dictionary with one entry per record type asked for
    ([multi_entry_per_type]). *)

From Stdlib Require Import Ascii String.
From stdpp Require Import list gmap.
From S2P Require Import Prelude Float64 Extern Limiter Config Addresses Errors Cache Health Pool Utils Dns.
From S2P Require Import Client Resolver ZoneTransfer Mock Cli Python.
#[local] Open Scope Z_scope.
#[local] Open Scope list_scope.

#[local] Set Warnings "-register-all".

(** [serde_json::Value]; [Opaque] is one that serialising a type of the DNS library gave. *)
Inductive Value (V : Type) :=
| Null
| Number (n : Z)
| Float (x : f64)
| Text (s : text)
| Array (items : list (Value V))
| Object (fields : list (text * Value V))
| Opaque (v : V).
Arguments Null {V}. Arguments Number {V} n. Arguments Float {V} x. Arguments Text {V} s. Arguments Array {V} items.
Arguments Object {V} fields. Arguments Opaque {V} v.

(** ** The program's output *)

Section Main.
Context `{DnsTypes} {V Json : Type} (to_string : Value V -> result Json text).
Context (message_value : DnsResponse -> V).

Definition brief_payload (item : text * text * list text) : Value V :=
  let '(host, record_type, answers) := item in
  Object [(lit "host", Text host); (lit "record_type", Text record_type);
          (lit "answers", Array (Text <$> answers))].

Definition full_payload (item : text * result DnsResponse BlastDNSError) : Value V :=
  match item.2 with
  | Ok response => Object [(lit "host", Text item.1); (lit "response", Opaque (message_value response))]
  | Err err => Object [(lit "host", Text item.1); (lit "error", Text (show_error err))]
  end.

(** Lines printed, and the error that ended the program. *)
Fixpoint print_all {A} (payload : A -> Value V) (items : list A) : list Json * option text :=
  match items with
  | [] => ([], None)
  | item :: rest =>
      match to_string (payload item) with
      | Ok line => let '(lines, e) := print_all payload rest in (line :: lines, e)
      | Err e => ([], Some e)
      end
  end.

(** What the streams of [resolve_batch] and [resolve_batch_full] yield of the results, in
    the order in which they come back. *)
Definition full_items (args : Args) (back : list (text * result DnsResponse BlastDNSError)) :=
  filter (fun item => keep (skip_empty args) (skip_errors args) item = true) back.
Definition brief_items (args : Args) (back : list (text * result DnsResponse BlastDNSError)) :=
  omap (Resolver.brief (record_type args)) (filter (fun item => keep true true item = true) back).

Definition output (args : Args) (back : list (text * result DnsResponse BlastDNSError)) : list Json * option text :=
  if brief args then print_all brief_payload (brief_items args back)
  else print_all full_payload (full_items args back).

(** How [main] ends early. *)
Inductive main_error :=
| NoResolverList (context source : text)
| NoHosts (context source : text)
| NoClient (err : BlastDNSError)
| ClientPanic
| Unprintable (source : text).

(** [client] is what building one from the resolvers and the configuration gives, [back] the
    results of a batch over the hosts; files are their content or the text of an error. *)
Definition main {C} (args : Args) (resolver_file : result text text) (host_file : result (list (option text)) text)
    (client : list text -> BlastDNSConfig -> option (result C BlastDNSError))
    (back : C -> list text -> list (text * result DnsResponse BlastDNSError)) : list Json * option main_error :=
  match load_resolvers (resolvers_path args) resolver_file with
  | Err e => ([], Some (NoResolverList (lit "failed to load resolvers from " ++ resolvers_path args) e))
  | Ok resolvers =>
      match host_file with
      | Err e => ([], Some (NoHosts (lit "failed to load hostnames") e))
      | Ok host_lines =>
          match client resolvers (args_config args) with
          | None => ([], Some ClientPanic)
          | Some (Err err) => ([], Some (NoClient err))
          | Some (Ok c) =>
              let '(lines, e) := output args (back c (load_hosts host_lines)) in (lines, Unprintable <$> e)
          end
      end
  end.

Lemma print_all_spec {A} (payload : A -> Value V) items :
  let '(lines, e) := print_all payload items in
  exists printed rest, items = printed ++ rest /\ Forall2 (fun item line => to_string (payload item) = Ok line) printed lines /\
    match e with
    | None => rest = []
    | Some e => exists item rest', rest = item :: rest' /\ to_string (payload item) = Err e
    end.
Proof.
  induction items as [|item items IH]; cbn [print_all]; [by exists [], []|].
  destruct (to_string (payload item)) as [line|e] eqn:El; [|exists [], (item :: items); split_and!; [done|constructor|by eauto]].
  destruct (print_all payload items) as [lines e]. destruct IH as (printed & rest & -> & Hp & He).
  exists (item :: printed), rest. split; [done|]. split; [by constructor|done].
Qed.

End Main.

(** ** The bindings' results *)

Section PythonResults.
Context `{DnsTypes} {V Bytes : Type} (to_vec : Value V -> result Bytes text) (A : RecordType).
Context (types : option exception_types).

(** A message as the bindings read it; [None] is a part that does not serialise. *)
Record message_parts := mk_parts {
  p_header : option V;
  p_queries : option V;
  p_answers : list DnsRecord;
  p_name_servers : list DnsRecord;
  p_additionals : list DnsRecord;
  p_signature : option V;
  p_edns : option V
}.
Context (into_message : DnsResponse -> message_parts).
Context (record_name record_class : DnsRecord -> text) (record_type_of : DnsRecord -> RecordType).
Context (rdata_value : DnsRecord -> option V) (rdata : DnsRecord -> Python.RData) (name_text : Name -> text).

Definition or_null (v : option V) : Value V := match v with Some v => Opaque v | None => Null end.

Definition record_to_extended_value (record : DnsRecord) : Value V :=
  Object [(lit "name_labels", Text (record_name record)); (lit "ttl", Number (record_ttl record));
          (lit "dns_class", Text (record_class record)); (lit "rdata", or_null (rdata_value record));
          (lit "text", Text (record_data record));
          (lit "targets", Array ((fun target => Array [Text target.1; Text target.2]) <$>
             targets_for_rdata name_text (record_type_text (record_type_of record)) (rdata record)))].

Definition message_to_extended_value (message : message_parts) : Value V :=
  let to_records records := Array (record_to_extended_value <$> records) in
  Object [(lit "header", or_null (p_header message)); (lit "queries", or_null (p_queries message));
          (lit "answers", to_records (p_answers message)); (lit "name_servers", to_records (p_name_servers message));
          (lit "additionals", to_records (p_additionals message));
          (lit "signature", or_null (p_signature message)); (lit "edns", or_null (p_edns message))].

Definition dns_response_to_bytes (response : DnsResponse) : result Bytes py_error :=
  map_err (fun err => ValueError (lit "failed to serialize response: " ++ err))
    (to_vec (message_to_extended_value (into_message response))).

Definition error_to_bytes (err : BlastDNSError) : result Bytes py_error :=
  map_err (fun e => ValueError (lit "failed to serialize error payload: " ++ e))
    (to_vec (Object [(lit "error", Text (show_error err))])).

(** What comes of a lookup: the response as bytes, or an exception. *)
Definition reply_bytes (r : result DnsResponse BlastDNSError) : result Bytes py_error :=
  let? response := map_err (blastdns_error_to_pyerr types) r in dns_response_to_bytes response.

Section Client.
Context {R : Type} `{!DnsResolver R} (inner : R).

Definition py_resolve (host : text) (record_type : option text) : result (list text) py_error :=
  let? record_type := Python.parse_record_type A record_type in
  map_err (blastdns_error_to_pyerr types) (Resolver.resolve inner host record_type).

Definition py_resolve_full (host : text) (record_type : option text) : result Bytes py_error :=
  let? record_type := Python.parse_record_type A record_type in
  reply_bytes (Resolver.resolve_full inner host record_type).

(** Setting the items of a dictionary, each value made from a result. *)
Fixpoint set_items {X} (value : X -> result Bytes py_error) (results : list (RecordType * X)) (dict : gmap text Bytes)
    : result (gmap text Bytes) py_error :=
  match results with
  | [] => Ok dict
  | (record_type, x) :: rest =>
      let? bytes := value x in set_items value rest (<[record_type_text record_type := bytes]> dict)
  end.

Definition result_bytes (r : result DnsResponse BlastDNSError) : result Bytes py_error :=
  match r with Ok response => dns_response_to_bytes response | Err err => error_to_bytes err end.

(** [order]: the order in which the map of results is iterated. *)
Definition py_resolve_multi (order : gmap RecordType (list text) -> list (RecordType * list text))
    (host : text) (record_types : list text) : result (gmap text (list text)) py_error :=
  let? parsed_types := parse_record_types A record_types in
  let? results := map_err (blastdns_error_to_pyerr types) (Resolver.resolve_multi inner host parsed_types) in
  Ok (multi_dict (order results)).

Definition py_resolve_multi_full
    (order : gmap RecordType (result DnsResponse BlastDNSError) -> list (RecordType * result DnsResponse BlastDNSError))
    (host : text) (record_types : list text) : result (gmap text Bytes) py_error :=
  let? parsed_types := parse_record_types A record_types in
  let? results := map_err (blastdns_error_to_pyerr types) (Resolver.resolve_multi_full inner host parsed_types) in
  set_items result_bytes (order results) ∅.

(** [resolve_batch] and [resolve_batch_full]: the type is read first, then the iterable is
    made an iterator, whose items are the hosts. *)
Definition py_resolve_batch {Obj} (extract : Obj -> result text py_error) (record_type : option text)
    (try_iter : result (list (result Obj py_error)) py_error)
    : result (RecordType * PythonHostIterator.t (Object := Obj)) py_error :=
  let? record_type := Python.parse_record_type A record_type in
  let? py_iter := try_iter in
  Ok (record_type, PythonHostIterator.new py_iter).

(** The counters of each resolver, under the names of the record's fields. *)
Definition stats_value (s : ResolverStats SocketAddress) : Value V :=
  Object [(lit "resolver", Text (show_socket (st_resolver s)));
          (lit "attempted", Number (st_attempted s)); (lit "answered", Number (st_answered s));
          (lit "empty", Number (st_empty s)); (lit "timeout", Number (st_timeout s));
          (lit "error", Number (st_error s)); (lit "rtt_mean_us", Number (st_rtt_mean_us s));
          (lit "rtt_min_us", Number (st_rtt_min_us s));
          (lit "purgatory_entries", Number (st_purgatory_entries s));
          (lit "truncated", Number (st_truncated s));
          (lit "rate_qps", match st_rate_qps s with Some rate => Float rate | None => Null end)].

Definition py_stats {S L} (inner : BlastDNSClient.t S L) : result Bytes py_error :=
  map_err (fun e => ValueError (lit "failed to serialize stats: " ++ e))
    (to_vec (Array (stats_value <$> BlastDNSClient.stats inner))).

(** The items set are those of the results, the last one of a key; they do not collide. *)
Lemma set_items_spec {X} (value : X -> result Bytes py_error) results :
  NoDup (record_type_text <$> results.*1) -> forall dict dict', set_items value results dict = Ok dict' ->
  (forall rt x, (rt, x) ∈ results -> exists bytes, value x = Ok bytes /\ dict' !! record_type_text rt = Some bytes) /\
  (forall key, (forall rt, rt ∈ results.*1 -> key <> record_type_text rt) -> dict' !! key = dict !! key).
Proof.
  induction results as [|[rt x] results IH]; intros Hn dict dict' Hs; cbn [set_items] in Hs.
  { injection Hs as ->. split; [by intros rt x ?%elem_of_nil|done]. }
  apply NoDup_cons in Hn as [Hrt Hn]. destruct (value x) as [bytes|e] eqn:Ev; [|done]. cbn [and_then] in Hs.
  destruct (IH Hn _ _ Hs) as [K1 K2]. split.
  - intros rt' x' [[= -> ->]|Hin]%elem_of_cons; [|by apply K1].
    exists bytes. split; [done|]. rewrite K2; [apply lookup_insert_eq|].
    intros rt' Hin E. apply Hrt, list_elem_of_fmap. by exists rt'.
  - intros key Hkey. rewrite K2 by (intros rt' Hin; apply Hkey; by right).
    apply lookup_insert_ne. intros <-. by apply (Hkey rt (list_elem_of_here _ _)).
Qed.

(** One entry per record type asked for.  When [resolve_multi_full] returns a
    dictionary for types with texts of their own, there was at least one, and under the text
    of each is the whole of its own result, the response or the error, PTR under its reverse name;
    there is no other key.  The order in which the map of results is iterated is immaterial. *)
Theorem multi_entry_per_type order host record_types parsed dict :
  (forall results, order results ≡ₚ map_to_list results) ->
  parse_record_types A record_types = Ok parsed ->
  (forall rt rt', rt ∈ parsed -> rt' ∈ parsed -> record_type_text rt = record_type_text rt' -> rt = rt') ->
  py_resolve_multi_full order host record_types = Ok dict ->
  parsed <> [] /\
    (forall rt, rt ∈ parsed -> exists bytes,
       result_bytes (Resolver.resolve_full inner (query_host host rt) rt) = Ok bytes /\
       dict !! record_type_text rt = Some bytes) /\
    (forall key, is_Some (dict !! key) -> exists rt, rt ∈ parsed /\ key = record_type_text rt).
Proof.
  intros Horder Hparsed Hinj Hrun. unfold py_resolve_multi_full in Hrun.
  rewrite Hparsed in Hrun. cbn [and_then] in Hrun.
  pose proof (resolve_multi_full_spec inner host parsed) as Hspec.
  destruct (Resolver.resolve_multi_full inner host parsed) as [results|e]; [|done].
  destruct Hspec as [Hne Hspec]. cbn [map_err and_then] in Hrun.
  assert (Hin : forall rt x, (rt, x) ∈ order results <-> results !! rt = Some x)
    by (intros rt x; by rewrite Horder, elem_of_map_to_list).
  assert (Hkeys : forall rt, rt ∈ (order results).*1 -> rt ∈ parsed).
  { intros rt Hrt. apply list_elem_of_fmap in Hrt as ([rt' x] & -> & Hx). apply Hin in Hx.
    rewrite Hspec in Hx. by destruct (decide (rt' ∈ parsed)). }
  assert (Hn : NoDup (record_type_text <$> (order results).*1)).
  { apply NoDup_fmap_2_strong; [intros rt rt' ?%Hkeys ?%Hkeys; by apply Hinj|].
    rewrite Horder. apply NoDup_fst_map_to_list. }
  destruct (set_items_spec _ _ Hn _ _ Hrun) as [K1 K2]. split; [done|]. split.
  - intros rt Hrt. apply K1, Hin. rewrite Hspec. by rewrite decide_True.
  - intros key [bytes Hk]. destruct (decide (Exists (fun rt => key = record_type_text rt) (order results).*1)) as [He|He].
    + apply Exists_exists in He as (rt & Hrt & ->). exists rt. split; [by apply Hkeys|done].
    + rewrite K2 in Hk; [by rewrite lookup_empty in Hk|]. intros rt Hrt ->. apply He, Exists_exists. by exists rt.
Qed.
End Client.

(** ** The class of the mock client

    Its methods are copies of the other class's, over the mock as a resolver; only [mock_dns]
    is its own. *)

Section MockClient.
Context `{!MockTypes} (from_message : Message -> result DnsResponse text).
#[local] Instance mock_resolver : DnsResolver MockBlastDNSClient.t := {|
  Resolver.resolve_full := MockBlastDNSClient.resolve_full from_message;
  Resolver.get_concurrency := fun _ => default_concurrency
|}.

Definition mock_py_new : MockBlastDNSClient.t := MockBlastDNSClient.new.
Definition mock_py_resolve (inner : MockBlastDNSClient.t) := py_resolve inner.
Definition mock_py_resolve_full (inner : MockBlastDNSClient.t) := py_resolve_full inner.
Definition mock_py_resolve_multi (inner : MockBlastDNSClient.t) := py_resolve_multi inner.
Definition mock_py_resolve_multi_full (inner : MockBlastDNSClient.t) := py_resolve_multi_full inner.
Definition mock_py_resolve_batch {Obj} (extract : Obj -> result text py_error) := py_resolve_batch extract.

Section Configured.
Context {Key Object : Type} (extract_key : Key -> result text py_error).
Context (extract_hosts : Object -> result (list text) py_error).
Context (extract_records : Object -> result (list (text * list text)) py_error).
Context (order : gmap text (list (text * list text)) -> list (text * list (text * list text))).

(** Reading a dictionary: every key is kept, the special one apart. *)
Lemma read_dict_spec dict : NoDup (extract_key <$> dict.*1) -> forall responses0 nx0 responses nx,
  read_dict extract_key extract_hosts extract_records dict responses0 nx0 = Ok (responses, nx) ->
  (forall key value host, (key, value) ∈ dict -> extract_key key = Ok host -> host <> NXDOMAIN_KEY ->
     exists rs, extract_records value = Ok rs /\ responses !! host = Some rs) /\
  (forall host, (forall key, key ∈ dict.*1 -> extract_key key <> Ok host) -> responses !! host = responses0 !! host) /\
  (forall key value, (key, value) ∈ dict -> extract_key key = Ok NXDOMAIN_KEY -> extract_hosts value = Ok nx) /\
  ((forall key, key ∈ dict.*1 -> extract_key key <> Ok NXDOMAIN_KEY) -> nx = nx0).
Proof.
  induction dict as [|[key value] dict IH]; intros Hn responses0 nx0 responses nx Hr; cbn [read_dict] in Hr.
  { injection Hr as -> ->. split_and!; try done; by intros * ?%elem_of_nil. }
  cbn [fmap list_fmap fst] in Hn. apply NoDup_cons in Hn as [Hk Hn].
  assert (Hfresh : forall k v, (k, v) ∈ dict -> extract_key k <> extract_key key).
  { intros k v Hin E. apply Hk. rewrite <- E. apply list_elem_of_fmap_2, list_elem_of_fmap. by exists (k, v). }
  destruct (extract_key key) as [name|e] eqn:Ek; [|done]. cbn [and_then] in Hr.
  assert (Hlast : forall P : text -> Prop, (forall k, k ∈ key :: dict.*1 -> extract_key k <> Ok name) -> P name)
    by (intros P Hall; by destruct (Hall key (list_elem_of_here _ _))).
  case_bool_decide as Ename.
  - subst name. destruct (extract_hosts value) as [nx1|e] eqn:Ev; [|done]. cbn [and_then] in Hr.
    destruct (IH Hn _ _ _ _ Hr) as (K1 & K2 & K3 & K4). split_and!.
    + intros k v host [[= -> ->]|Hin]%elem_of_cons Eh Hh; [congruence|by eapply K1].
    + intros host Hall. apply K2. intros k Hin. apply Hall. by right.
    + intros k v [[= -> ->]|Hin]%elem_of_cons Eh; [|by destruct (Hfresh _ _ Hin); congruence].
      rewrite Ev. f_equal. symmetry. apply K4. intros k' ([k v'] & -> & Hin)%list_elem_of_fmap. by apply (Hfresh _ v').
    + intros Hall. by apply (Hlast (fun _ => nx = nx0)).
  - destruct (extract_records value) as [rs1|e] eqn:Ev; [|done]. cbn [and_then] in Hr.
    destruct (IH Hn _ _ _ _ Hr) as (K1 & K2 & K3 & K4). split_and!.
    + intros k v host [[= -> ->]|Hin]%elem_of_cons Eh Hh; [|by eapply K1].
      rewrite Ek in Eh. injection Eh as <-. exists rs1. split; [done|]. rewrite K2; [apply lookup_insert_eq|].
      intros k' ([k v'] & -> & Hin)%list_elem_of_fmap. by apply (Hfresh _ v').
    + intros host Hall. rewrite K2 by (intros k Hin; apply Hall; by right). apply lookup_insert_ne.
      intros <-. by apply (Hall key (list_elem_of_here _ _)).
    + intros k v [[= -> ->]|Hin]%elem_of_cons Eh; [congruence|by eapply K3].
    + intros Hall. apply K4. intros k Hin. apply Hall. by right.
Qed.

(** What a Python dictionary configures is what the mock answers.  When [mock_dns]
    takes a dictionary, whatever was configured before and in whatever order the map it
    builds is iterated, a host among its keys, exact and not the special key, is answered
    through the bindings thus: NXDOMAIN when the special key lists it, and otherwise, unless
    an NXDOMAIN pattern matches it, exactly the records under its key, for every type it
    has some for; a PTR question is put by address or by name alike.  Without the special
    key no host is listed. *)
Theorem mock_from_python dict c c' key value host asked record_type rt :
  (forall m, order m ≡ₚ map_to_list m) -> NoDup (extract_key <$> dict.*1) ->
  py_mock_dns extract_key extract_hosts extract_records order true (Some dict) c = Ok c' ->
  (key, value) ∈ dict -> extract_key key = Ok host -> host <> NXDOMAIN_KEY ->
  MockBlastDNSClient.strip_prefix MockBlastDNSClient.regex_prefix host = None ->
  Python.parse_record_type A record_type = Ok rt -> query_host asked rt = host ->
  exists rs nx, extract_records value = Ok rs /\
    (forall k v, (k, v) ∈ dict -> extract_key k = Ok NXDOMAIN_KEY -> extract_hosts v = Ok nx) /\
    ((forall k, k ∈ dict.*1 -> extract_key k <> Ok NXDOMAIN_KEY) -> nx = []) /\
    (host ∈ nx ->
       mock_py_resolve_full c' asked record_type
       = reply_bytes (MockBlastDNSClient.fabricate_nxdomain_response from_message host rt)) /\
    (host ∉ nx -> Forall (fun p => is_match p host = false) (MockBlastDNSClient.nxdomain_patterns c') ->
       forall data, MockBlastDNSClient.record_map rs !! rt = Some data ->
       mock_py_resolve_full c' asked record_type
       = reply_bytes (MockBlastDNSClient.fabricate_response from_message host rt data)).
Proof.
  intros Horder Hn Hm Hin Hk Hh Hp Ht Hq. unfold py_mock_dns in Hm.
  destruct (read_dict _ _ _ dict ∅ []) as [[responses nx]|e] eqn:Er; [|done]. injection Hm as <-.
  destruct (read_dict_spec _ Hn _ _ _ _ Er) as (K1 & _ & K3 & K4).
  destruct (K1 _ _ _ Hin Hk Hh) as (rs & Hrs & Hl). exists rs, nx. split; [done|]. do 2 (split; [done|]).
  assert (Hnd : NoDup (order responses).*1) by (rewrite Horder; apply NoDup_fst_map_to_list).
  assert (Hr : (host, rs) ∈ order responses) by (by rewrite Horder, elem_of_map_to_list).
  destruct (mock_serves_configuration from_message _ nx c _ _ rt Hnd Hr Hp) as [S1 S2].
  assert (Hlook : forall c' : MockBlastDNSClient.t, mock_py_resolve_full c' asked record_type
    = reply_bytes (MockBlastDNSClient.resolve_full_impl from_message c' host rt)).
  { intros c'. unfold mock_py_resolve_full, py_resolve_full. rewrite Ht. cbn [and_then].
    cbn [Resolver.resolve_full mock_resolver]. unfold MockBlastDNSClient.resolve_full. by rewrite <- Hq. }
  split; intros; rewrite Hlook; f_equal; [by apply S1|by apply S2].
Qed.
End Configured.
End MockClient.
End PythonResults.

(** ** Witnesses *)

Section OutputExamples.
#[local] Existing Instance demo_errors.
#[local] Existing Instance demo_dns.

(** A resolver that refuses everything but addresses; two record types of different texts. *)
Definition a_only : text -> Z -> result DnsResponse BlastDNSError :=
  fun host rt => if rt =? 1 then Ok an_answer else Err (QueryTimedOut (mk_socket (V4 192 0 2 1) 53 0) (from_secs 5)).
#[local] Instance demo_resolver : DnsResolver unit := {|
  Resolver.resolve_full := fun _ => a_only; Resolver.get_concurrency := fun _ => 8
|}.

(** JSON that only counts the fields of an object; errors do not serialise. *)
Definition count_fields (v : Value unit) : result nat text :=
  match v with Object fields => Ok (length fields) | _ => Err (lit "no object") end.
Definition no_parts (_ : DnsResponse) : message_parts (V := unit) := mk_parts None None [] [] [] None None.
Definition demo_multi (record_types : list text) : result (gmap text nat) py_error :=
  py_resolve_multi_full count_fields 1 None no_parts (fun _ => []) (fun _ => []) (fun _ => 1) (fun _ => None)
    (fun _ => Python.ROther) (fun name => name) tt map_to_list (lit "a.example") record_types.
Definition two_types : list text := [lit "a"; lit " ptr "].

Lemma multi_entry_per_type_witness :
  demo_multi two_types = Ok (<[lit "A" := 7%nat]> (<[lit "PTR" := 1%nat]> ∅)) /\
  forall key, is_Some ((<[lit "A" := 7%nat]> (<[lit "PTR" := 1%nat]> ∅) : gmap text nat) !! key) ->
    exists rt, rt ∈ [1; 12] /\ key = record_type_text rt.
Proof.
  assert (E : demo_multi two_types = Ok (<[lit "A" := 7%nat]> (<[lit "PTR" := 1%nat]> ∅))) by (vm_compute; reflexivity).
  split; [exact E|].
  refine (proj2 (proj2 (multi_entry_per_type count_fields 1 None no_parts (fun _ => []) (fun _ => []) (fun _ => 1)
            (fun _ => None) (fun _ => Python.ROther) (fun name => name) tt map_to_list (lit "a.example") two_types [1; 12] _ _ _ _ E))).
  - intros results. reflexivity.
  - vm_compute. reflexivity.
  - intros rt rt' Hrt Hrt'. apply list_elem_of_In in Hrt, Hrt'. simpl in Hrt, Hrt'.
    destruct Hrt as [<-|[<-|[]]], Hrt' as [<-|[<-|[]]]; vm_compute; intros E'; first [reflexivity|discriminate E'].
Defined.

(** A dictionary as Python has it: lists of hosts, or records. *)
#[local] Existing Instance demo_mock.
Definition PyObject : Type := list text + list (text * list text).
Definition as_hosts (o : PyObject) : result (list text) py_error :=
  match o with inl hosts => Ok hosts | inr _ => Err (ValueError (lit "no list")) end.
Definition as_records (o : PyObject) : result (list (text * list text)) py_error :=
  match o with inr records => Ok records | inl _ => Err (ValueError (lit "no dict")) end.
Definition demo_dict : list (text * PyObject) :=
  [(lit "a.example", inr [(lit "A", [lit "192.0.2.7"])]); (NXDOMAIN_KEY, inl [lit "b.example"]);
   (lit "b.example", inr [(lit "A", [lit "192.0.2.8"])])].
Definition dict_client : MockBlastDNSClient.t :=
  match py_mock_dns Ok as_hosts as_records map_to_list true (Some demo_dict) mock_py_new with
  | Ok c => c
  | Err _ => mock_py_new
  end.
Definition demo_ask (host : text) (record_type : option text) : result nat py_error :=
  mock_py_resolve_full count_fields 1 None no_parts (fun _ => []) (fun _ => []) (fun _ => 1) (fun _ => None)
    (fun _ => Python.ROther) (fun name => name) demo_message dict_client host record_type.

Example dict_answers :
  MockBlastDNSClient.resolve_full demo_message dict_client (lit "a.example") 1
  = MockBlastDNSClient.fabricate_response demo_message (lit "a.example") 1 [lit "192.0.2.7"] /\
  demo_ask (lit "a.example") (Some (lit "a")) = Ok 7%nat.
Proof. split; vm_compute; reflexivity. Qed.

Lemma mock_from_python_witness :
  exists nx, nx = [lit "b.example"] /\
    (lit "b.example" ∈ nx ->
       demo_ask (lit "b.example") None
       = reply_bytes count_fields None no_parts (fun _ => []) (fun _ => []) (fun _ => 1) (fun _ => None)
           (fun _ => Python.ROther) (fun name => name)
           (MockBlastDNSClient.fabricate_nxdomain_response demo_message (lit "b.example") 1)).
Proof.
  unshelve epose proof (mock_from_python count_fields 1 None no_parts (fun _ => []) (fun _ => []) (fun _ => 1)
    (fun _ => None) (fun _ => Python.ROther) (fun name => name) demo_message Ok as_hosts as_records map_to_list
    demo_dict mock_py_new dict_client (lit "b.example") (inr [(lit "A", [lit "192.0.2.8"])]) (lit "b.example")
    (lit "b.example") None 1 _ _ _ _ _ _ _ _ _) as (rs & nx & _ & Hnx & _ & Hlisted & _);
    [..|exists nx; split; [|exact Hlisted]].
  - intros m. reflexivity.
  - apply NoDup_fmap_2_strong; [intros x y _ _ [= ->]; reflexivity|].
    apply (bool_decide_eq_true_1 _). vm_compute. reflexivity.
  - vm_compute. reflexivity.
  - right. right. left.
  - reflexivity.
  - vm_compute. discriminate.
  - vm_compute. reflexivity.
  - reflexivity.
  - vm_compute. reflexivity.
  - assert (E : as_hosts (inl [lit "b.example"]) = Ok nx) by (apply (Hnx NXDOMAIN_KEY); [right; left|reflexivity]).
    injection E as <-. reflexivity.
Defined.
End OutputExamples.
