(* ===== verification/Sim.v ===== *)
(** * The simulated resolver: [sim.rs]

    The in-process server the controller is tested against: deterministic loss and
    refusals, a capacity kept as a budget cursor, delayed answers over UDP that may be
    truncated, whole ones over TCP.  Tests conclude from its counters, so the theorems say
    what they count: every datagram once ([sim_accounts]), loss and refusals by sequence
    number ([sim_outcomes]), the capacity as both a cap and a promise ([sim_capacity],
    [sim_spaced_never_dropped]), and TCP as the way to every record ([sim_tcp_recovers]). *)

From Stdlib Require Import String.
From stdpp Require Import list.
From S2P Require Import Prelude Float64 Addresses.
#[local] Open Scope Z_scope.
#[local] Open Scope list_scope.

Definition BURST_ALLOWANCE : Z := from_millis 50.
Definition TRUNCATED_ANSWER_COUNT : nat := 2.
Definition FULL_ANSWER_COUNT : nat := 8.

Record SimConfig := mk_sim_config {
  latency : Z;
  capacity_qps : option f64;
  drop_one_in : option Z;
  refuse_one_in : option Z;
  truncate_udp : bool
}.
Definition default_sim : SimConfig := mk_sim_config (from_millis 1) None None None false.

Record Counters := mk_counters {
  received : Z;
  answered : Z;
  dropped : Z;
  tcp_served : Z;
  budget_ns : Z
}.
#[export] Instance counters_settable : Settable Counters := fun c =>
  mk_counters (received c) (answered c) (dropped c) (tcp_served c) (budget_ns c).

Inductive SimCode := Clear | Refused.
Definition SimCode_eq_dec : EqDecision SimCode.
Proof. solve_decision. Defined.
#[export] Existing Instance SimCode_eq_dec.

Module SimResolver.
Section SimResolver.
(** A message of the DNS library, through the accessors and setters used here; its wire
    format is the library's. *)
Context {Name RecordType OpCode : Type} `{EqDecision RecordType} (A_TYPE : RecordType).

Record ARecord := mk_record { r_name : Name; r_ttl : Z; r_addr : IpAddr }.
Record Message := mk_message {
  m_id : Z;
  m_response : bool;
  m_op_code : OpCode;
  m_recursion_desired : bool;
  m_recursion_available : bool;
  m_queries : list (Name * RecordType);
  m_code : SimCode;
  m_answers : list ARecord;
  m_truncated : bool
}.
#[global] Instance message_settable : Settable Message := fun m =>
  mk_message (m_id m) (m_response m) (m_op_code m) (m_recursion_desired m) (m_recursion_available m)
    (m_queries m) (m_code m) (m_answers m) (m_truncated m).

Context (from_bytes : list Z -> option Message) (to_vec : Message -> option (list Z)).

Definition build_response_sized (request : Message) (refuse : bool) (answer_count : nat) (truncated : bool) : Message :=
  let response := mk_message (m_id request) true (m_op_code request) (m_recursion_desired request) true
                    (m_queries request) Clear [] false in
  if refuse then response <| m_code := Refused |>
  else
    let response :=
      match m_queries request with
      | (name, query_type) :: _ =>
          if decide (query_type = A_TYPE)
          then response <| m_answers :=
                 (fun i => mk_record name 60 (V4 127 0 0 ((Z.of_nat i + 1) mod 256))) <$> seq 0 answer_count |>
          else response
      | [] => response
      end in
    response <| m_truncated := truncated |>.

Definition build_response (request : Message) (refuse : bool) : Message :=
  build_response_sized request refuse FULL_ANSWER_COUNT false.

Definition interval_of (config : SimConfig) : option Z :=
  (fun qps => f64_as_u64 (f64_max (f64_round (f64_of_Z 1000000000 / qps)%f64) (f64_of_Z 1))) <$> capacity_qps config.

(** [n.is_some_and(|n| n > 0 && seq.is_multiple_of(n))]. *)
Definition one_in (n : option Z) (seq : Z) : bool :=
  match n with Some n => (0 <? n) && (seq mod n =? 0) | None => false end.

(** The budget cursor; [spurious] failures of the exchange go round the loop again.  Only
    the serving task moves the cursor, so there are no others. *)
Fixpoint claim (spurious : nat) (interval_ns now_ns : Z) (counters : Counters) : bool * Counters :=
  let current := budget_ns counters in
  if u64_saturating_add now_ns BURST_ALLOWANCE <? current then (true, counters)
  else
    let base := Z.max current now_ns in
    let next := u64_saturating_add base interval_ns in
    match spurious with
    | O => (false, counters <| budget_ns := next |>)
    | S spurious' => claim spurious' interval_ns now_ns counters
    end.

Definition should_drop (spurious : nat) (config : SimConfig) (counters : Counters) (interval_ns : option Z)
    (start now seq : Z) : bool * Counters :=
  if one_in (drop_one_in config) seq then (true, counters)
  else
    match interval_ns with
    | None => (false, counters)
    | Some interval_ns => claim spurious interval_ns (elapsed_ns start now) counters
    end.

(** What became of a datagram. *)
Inductive outcome := ByShare | OverCapacity | Malformed | Accepted (refuse : bool).

Record pending := mk_pending { request : Message; src : SocketAddress; refuse : bool; due : Z }.

(** The server with the answers under way, and, for the theorems, the log of datagrams
    with their arrival times and what was sent or failed to be. *)
Record t := mk {
  config : SimConfig;
  counters : Counters;
  start_at : Z;
  clock : Z;
  tasks : list pending;
  sent : list (SocketAddress * Message);
  failed : nat;
  log : list (Z * outcome)
}.
#[global] Instance t_settable : Settable t := fun s =>
  mk (config s) (counters s) (start_at s) (clock s) (tasks s) (sent s) (failed s) (log s).

Definition start (config : SimConfig) (now : Z) : t :=
  mk config (mk_counters 0 0 0 0 0) now now [] [] 0 [].

(** One turn of the loop of [serve]. *)
Definition receive (spurious : nat) (datagram : list Z) (from : SocketAddress) (s : t) : t :=
  let seq := u64_add (received (counters s)) 1 in
  let c := (counters s) <| received := fetch_add (received (counters s)) 1 |> in
  let '(drop, c) := should_drop spurious (config s) c (interval_of (config s)) (start_at s) (clock s) seq in
  let seen o s := s <| log := log s ++ [(elapsed_ns (start_at s) (clock s), o)] |> in
  if drop then
    seen (if one_in (drop_one_in (config s)) seq then ByShare else OverCapacity)
      (s <| counters := c <| dropped := fetch_add (dropped c) 1 |> |>)
  else
    match from_bytes (take 1024 datagram) with
    | None => seen Malformed (s <| counters := c <| dropped := fetch_add (dropped c) 1 |> |>)
    | Some request =>
        let refuse := one_in (refuse_one_in (config s)) seq in
        seen (Accepted refuse)
          (s <| counters := c |>
             <| tasks := tasks s ++ [mk_pending request from refuse (clock s + latency (config s))] |>)
    end.

Definition udp_response (s : t) (p : pending) : Message :=
  if truncate_udp (config s)
  then build_response_sized (request p) (refuse p) TRUNCATED_ANSWER_COUNT true
  else build_response (request p) (refuse p).

(** A task whose latency has passed answers; [ok] tells whether the socket took it. *)
Definition answer (i : nat) (ok : bool) (s : t) : option t :=
  p ← tasks s !! i;
  if due p <=? clock s then
    let s' := s <| tasks := delete i (tasks s) |> in
    match to_vec (udp_response s p) with
    | Some _ =>
        if ok then
          Some (s' <| sent := sent s ++ [(src p, udp_response s p)] |>
                   <| counters := (counters s) <| answered := fetch_add (answered (counters s)) 1 |> |>)
        else Some (s' <| failed := S (failed s) |>)
    | None => Some (s' <| failed := S (failed s) |>)
    end
  else None.

(** *** TCP *)

Definition read_exact (n : nat) (input : list Z) : option (list Z * list Z) :=
  if (n <=? length input)%nat then Some (take n input, drop n input) else None.

(** Two bytes of length before the message. *)
Definition framed (bytes : list Z) : list Z :=
  let len := Z.of_nat (length bytes) mod 65536 in [len / 256; len mod 256] ++ bytes.

(** One connection, over all that is read from it: the output, and how many were served.
    [writable] tells how many responses the peer takes before writing fails. *)
Fixpoint serve_connection (fuel writable : nat) (input : list Z) : list Z * nat :=
  match fuel with
  | O => ([], 0%nat)
  | S fuel' =>
      match
        ('(len_buf, input) ← read_exact 2 input;
         let len := match len_buf with [hi; lo] => Z.to_nat (hi * 256 + lo) | _ => 0%nat end in
         '(buf, input) ← read_exact len input;
         request ← from_bytes buf;
         bytes ← to_vec (build_response request false);
         Some (bytes, input))
      with
      | Some (bytes, input) =>
          match writable with
          | O => ([], 0%nat)
          | S writable' =>
              let '(out, served) := serve_connection fuel' writable' input in (framed bytes ++ out, S served)
          end
      | None => ([], 0%nat)
      end
  end.

Definition serve_tcp (writable : nat) (input : list Z) : list Z * nat :=
  serve_connection (length input) writable input.

(** The listener exists only for a truncating resolver. *)
Definition accept (writable : nat) (input : list Z) (s : t) : option t :=
  if truncate_udp (config s)
  then Some (s <| counters := (counters s) <| tcp_served :=
                    fetch_add (tcp_served (counters s)) (Z.of_nat (serve_tcp writable input).2) |> |>)
  else None.

Inductive action :=
| Datagram (spurious : nat) (bytes : list Z) (from : SocketAddress)
| RecvError
| Answer (i : nat) (ok : bool)
| Connection (writable : nat) (input : list Z)
| Tick (d : Z).

Definition perform (a : action) (s : t) : option t :=
  match a with
  | Datagram spurious bytes from => Some (receive spurious bytes from s)
  | RecvError => Some s
  | Answer i ok => answer i ok s
  | Connection writable input => accept writable input s
  | Tick d => if 0 <=? d then Some (s <| clock := clock s + d |>) else None
  end.

Fixpoint perform_all (acts : list action) (s : t) : option t :=
  match acts with
  | [] => Some s
  | a :: acts' => s' ← perform a s; perform_all acts' s'
  end.
End SimResolver.
End SimResolver.

(** ** What the counters count *)

(** Entries of the log: past the budget, accepted, dropped by share. *)
Definition passed (e : Z * SimResolver.outcome) : Prop := match e.2 with SimResolver.Malformed | SimResolver.Accepted _ => True | _ => False end.
#[export] Instance passed_dec e : Decision (passed e).
Proof. destruct e as [z []]; apply _. Defined.
Definition taken (e : Z * SimResolver.outcome) : Prop := match e.2 with SimResolver.Accepted _ => True | _ => False end.
#[export] Instance taken_dec e : Decision (taken e).
Proof. destruct e as [z []]; apply _. Defined.
Definition by_share (e : Z * SimResolver.outcome) : Prop := match e.2 with SimResolver.ByShare => True | _ => False end.
#[export] Instance by_share_dec e : Decision (by_share e).
Proof. destruct e as [z []]; apply _. Defined.

Section SimProofs.
Import SimResolver.
Context {Name RecordType OpCode : Type} `{EqDecision RecordType} (A_TYPE : RecordType).
Abbreviation message := (Message (Name := Name) (RecordType := RecordType) (OpCode := OpCode)).
Context (from_bytes : list Z -> option message) (to_vec : message -> option (list Z)).
Abbreviation sim := (SimResolver.t (Name := Name) (RecordType := RecordType) (OpCode := OpCode)).
Abbreviation run := (perform_all A_TYPE from_bytes to_vec).
Implicit Types (s : sim).

Definition tally (P : Z * outcome -> Prop) `{!forall e, Decision (P e)} s : Z := Z.of_nat (length (filter P (log s))).

Lemma claim_spurious spurious i now c : claim spurious i now c = claim 0 i now c.
Proof. induction spurious as [|n IH]; [done|]. cbn [claim] in *. by case_match. Qed.

(** What one datagram does, by the way it ends. *)
Definition seen (e : Z * outcome) s s' : Prop :=
  log s' = log s ++ [e] /\ config s' = config s /\ start_at s' = start_at s /\ clock s' = clock s /\
  sent s' = sent s /\ failed s' = failed s /\
  received (counters s') = fetch_add (received (counters s)) 1 /\
  answered (counters s') = answered (counters s) /\
  match e.2 with
  | Accepted _ => dropped (counters s') = dropped (counters s) /\ length (tasks s') = S (length (tasks s))
  | _ => dropped (counters s') = fetch_add (dropped (counters s)) 1 /\ tasks s' = tasks s
  end.

(** How it ends, and what becomes of the budget. *)
Definition verdict (seq : Z) s (o : outcome) (budget : Z) : Prop :=
  if one_in (drop_one_in (config s)) seq then o = ByShare /\ budget = budget_ns (counters s)
  else
    let now := elapsed_ns (start_at s) (clock s) in
    let within := o = Malformed \/ o = Accepted (one_in (refuse_one_in (config s)) seq) in
    match interval_of (config s) with
    | None => within /\ budget = budget_ns (counters s)
    | Some i =>
        if u64_saturating_add now BURST_ALLOWANCE <? budget_ns (counters s)
        then o = OverCapacity /\ budget = budget_ns (counters s)
        else within /\ budget = u64_saturating_add (Z.max (budget_ns (counters s)) now) i
    end.

Lemma receive_spec spurious bytes from s :
  let seq := u64_add (received (counters s)) 1 in
  let s' := receive from_bytes spurious bytes from s in
  exists o, verdict seq s o (budget_ns (counters s')) /\
    seen (elapsed_ns (start_at s) (clock s), o) s s'.
Proof.
  intros seq s'. subst s'. unfold receive, verdict, should_drop. fold seq.
  destruct (one_in (drop_one_in (config s)) seq); cbn.
  { exists ByShare. by repeat split. }
  destruct (interval_of (config s)) as [i|]; cbn.
  - rewrite claim_spurious. cbn [claim budget_ns]. destruct (_ <? _); cbn.
    { exists OverCapacity. by repeat split. }
    destruct (from_bytes _) as [m|]; cbn.
    + eexists. split; [split; [by right|done]|]. repeat split. cbn. rewrite length_app. simpl. lia.
    + exists Malformed. split; [split; [by left|done]|]. by repeat split.
  - destruct (from_bytes _) as [m|]; cbn.
    + eexists. split; [split; [by right|done]|]. repeat split. cbn. rewrite length_app. simpl. lia.
    + exists Malformed. split; [split; [by left|done]|]. by repeat split.
Qed.

(** Every other action leaves the log, the budget and the counts of datagrams alone. *)
Definition apart s s' : Prop :=
  log s' = log s /\ config s' = config s /\ start_at s' = start_at s /\ clock s <= clock s' /\
  received (counters s') = received (counters s) /\ dropped (counters s') = dropped (counters s) /\
  budget_ns (counters s') = budget_ns (counters s) /\
  (tasks s' = tasks s /\ sent s' = sent s /\ failed s' = failed s /\ answered (counters s') = answered (counters s) \/
   S (length (tasks s')) = length (tasks s) /\
   ((length (sent s') = S (length (sent s)) /\ failed s' = failed s /\
     answered (counters s') = fetch_add (answered (counters s)) 1) \/
    (sent s' = sent s /\ failed s' = S (failed s) /\ answered (counters s') = answered (counters s)))).

Lemma perform_spec a s s' : perform A_TYPE from_bytes to_vec a s = Some s' ->
  (exists spurious bytes from, s' = receive from_bytes spurious bytes from s) \/ apart s s'.
Proof.
  intros Hp. destruct a as [spurious bytes from| |i ok|writable input|d]; cbn [perform] in Hp.
  - left. injection Hp as <-. by eexists _, _, _.
  - right. injection Hp as <-. split_and!; try done. by left.
  - right. unfold answer in Hp. apply bind_Some in Hp as (p & Hi & Hp).
    assert (Hlen : S (length (delete i (tasks s))) = length (tasks s)).
    { rewrite length_delete by (by eexists). apply lookup_lt_Some in Hi. lia. }
    destruct (due p <=? clock s); [|done].
    destruct (to_vec _) as [bytes|]; [destruct ok|]; injection Hp as <-; unfold apart; cbn;
      (split_and!; try done; right; split; [done|]).
    + left. rewrite length_app. simpl. split_and!; done || lia.
    + by right.
    + by right.
  - right. unfold accept in Hp. destruct (truncate_udp _); [|done]. injection Hp as <-.
    unfold apart; cbn. split_and!; try done. by left.
  - right. destruct (Z.leb_spec 0 d); [|done]. injection Hp as <-. unfold apart; cbn. split_and!; try done; [lia|].
    by left.
Qed.

(** An invariant of the server holds along every run that starts with it. *)
Lemma run_invariant (I : sim -> Prop) acts s s' :
  (forall s spurious bytes from, I s -> I (receive from_bytes spurious bytes from s)) ->
  (forall s1 s2, I s1 -> apart s1 s2 -> I s2) ->
  I s -> run acts s = Some s' -> I s'.
Proof.
  intros Hrecv Hapart. revert s. induction acts as [|a acts IH]; intros s Hs Hr; cbn in Hr; [by injection Hr as <-|].
  apply bind_Some in Hr as (s1 & Ha & Hr). apply (IH s1); [|done].
  apply perform_spec in Ha as [(spurious & bytes & from & ->)|Ha]; [by apply Hrecv|by eapply Hapart].
Qed.

Lemma tally_snoc (P : Z * outcome -> Prop) `{!forall e, Decision (P e)} s s' e :
  log s' = log s ++ [e] -> tally P s' = tally P s + (if decide (P e) then 1 else 0).
Proof.
  intros El. unfold tally. rewrite El, filter_app, length_app, filter_cons.
  destruct (decide (P e)); simpl; lia.
Qed.

(** *** Every datagram is accounted for *)

Record accounts s : Prop := {
  ac_received : received (counters s) ≡64 Z.of_nat (length (log s));
  ac_dropped : dropped (counters s) + tally taken s ≡64 Z.of_nat (length (log s));
  ac_answered : answered (counters s) ≡64 Z.of_nat (length (sent s));
  ac_taken : tally taken s = Z.of_nat (length (tasks s) + length (sent s) + failed s);
}.

Lemma start_accounts cfg now : accounts (start cfg now).
Proof. by split. Qed.

Lemma receive_accounts spurious bytes from s : accounts s -> accounts (receive from_bytes spurious bytes from s).
Proof.
  intros [Hr Hd Ha Ht].
  destruct (receive_spec spurious bytes from s) as (o & _ & El & _ & _ & _ & Es & Ef & Er & Ea & Eo).
  pose proof (tally_snoc taken _ _ _ El) as Etaken.
  assert (Elen : Z.of_nat (length (log (receive from_bytes spurious bytes from s))) = Z.of_nat (length (log s)) + 1)
    by (rewrite El, length_app; simpl; lia).
  split.
  - by rewrite Er, Elen, fetch_add_eq64, Hr.
  - rewrite Elen, <- Hd, Etaken. destruct o; destruct Eo as [-> _]; rewrite ?fetch_add_eq64; apply eq64_refl; simpl; lia.
  - by rewrite Ea, Es.
  - rewrite Etaken, Ht, Es, Ef. destruct o; destruct Eo as [_ E]; rewrite E; simpl; lia.
Qed.

Lemma apart_accounts s s' : accounts s -> apart s s' -> accounts s'.
Proof.
  intros [Hr Hd Ha Ht] (El & _ & _ & _ & Er & Ed & _ & Hrest).
  assert (Et : tally taken s' = tally taken s) by (unfold tally; by rewrite El).
  split; rewrite ?El, ?Er, ?Ed, ?Et; try done.
  - destruct Hrest as [(_ & -> & _ & ->)|(_ & [(E & _ & ->)|(-> & _ & ->)])]; try done.
    rewrite fetch_add_eq64, Ha, E. apply eq64_refl. lia.
  - rewrite Ht. destruct Hrest as [(-> & -> & -> & _)|(E & [(E2 & -> & _)|(-> & -> & _)])]; [done|rewrite E2|]; lia.
Qed.

(** The simulator's counters account for every datagram.  In every state that any
    sequence of datagrams, answers, connections and ticks reaches, what was received is what
    was dropped, answered, failed to be sent or is still under way, modulo 2 ^ 64. *)
Theorem sim_accounts cfg now acts s :
  run acts (start cfg now) = Some s ->
  received (counters s) ≡64 dropped (counters s) + answered (counters s)
                            + Z.of_nat (failed s) + Z.of_nat (length (tasks s)) /\
  received (counters s) ≡64 Z.of_nat (length (log s)).
Proof.
  intros Hr. destruct (run_invariant accounts acts (start cfg now) s) as [K1 K2 K3 K4];
    [intros; by apply receive_accounts|intros; by eapply apart_accounts|apply start_accounts|done|].
  split; [|done]. rewrite K1, <- K2, K3, K4. apply eq64_refl. lia.
Qed.

(** *** Loss and refusals by sequence number *)

(** How many of the first [m] datagrams a share of one in [n] is. *)
Definition share (n : option Z) (m : Z) : Z :=
  match n with Some n => if 0 <? n then m / n else 0 | None => 0 end.

Lemma share_next n m : 0 <= m -> share n (m + 1) = share n m + (if one_in n (m + 1) then 1 else 0).
Proof.
  intros Hm. destruct n as [n|]; [|done]. simpl. destruct (Z.ltb_spec 0 n); [|simpl; lia]. cbn [andb].
  destruct (Z.eqb_spec ((m + 1) mod n) 0) as [E|E].
  - apply Z.mod_divide in E as [k E]; [|lia]. rewrite E, Z.div_mul by lia.
    replace m with ((k - 1) * n + (n - 1)) by lia. rewrite Z.div_add_l, Z.div_small by lia. lia.
  - pose proof (Z.mod_pos_bound (m + 1) n ltac:(lia)). pose proof (Z.div_mod (m + 1) n ltac:(lia)) as D.
    rewrite Z.add_0_r.
    apply (Z.div_unique_pos m n ((m + 1) / n) ((m + 1) mod n - 1)); lia.
Qed.

Record by_number cfg s : Prop := {
  bn_config : config s = cfg;
  bn_received : Z.of_nat (length (log s)) <= u64_max -> received (counters s) = Z.of_nat (length (log s));
  bn_entries k e : Z.of_nat (length (log s)) <= u64_max -> log s !! k = Some e ->
    let seq := Z.of_nat k + 1 in
    (e.2 = ByShare <-> one_in (drop_one_in cfg) seq = true) /\
    (forall refuse, e.2 = Accepted refuse -> refuse = one_in (refuse_one_in cfg) seq) /\
    (capacity_qps cfg = None -> e.2 <> OverCapacity);
  bn_share : Z.of_nat (length (log s)) <= u64_max ->
    tally by_share s = share (drop_one_in cfg) (Z.of_nat (length (log s)));
}.

Lemma start_by_number cfg now : by_number cfg (start cfg now).
Proof.
  split; try done. intros _. unfold share. cbn. destruct (drop_one_in cfg) as [n|]; [|done]. by destruct (0 <? n).
Qed.

Lemma receive_by_number cfg spurious bytes from s :
  by_number cfg s -> by_number cfg (receive from_bytes spurious bytes from s).
Proof.
  intros [Hc Hr He Hs].
  destruct (receive_spec spurious bytes from s) as (o & Hv & El & Ec & _ & _ & _ & _ & Er & _ & _).
  set (s' := receive from_bytes spurious bytes from s) in *. clearbody s'.
  assert (Elen : Z.of_nat (length (log s')) = Z.of_nat (length (log s)) + 1)
    by (rewrite El, length_app; simpl; lia).
  assert (Hnext : Z.of_nat (length (log s')) <= u64_max ->
    received (counters s') = Z.of_nat (length (log s)) + 1 /\
    u64_add (received (counters s)) 1 = Z.of_nat (length (log s)) + 1).
  { intros Hlen. unfold u64_max in *. rewrite Er. unfold fetch_add, u64_add, wrap_u64.
    rewrite Hr, Z.mod_small by lia. done. }
  assert (Ho : Z.of_nat (length (log s')) <= u64_max ->
    let seq := Z.of_nat (length (log s)) + 1 in
    (o = ByShare <-> one_in (drop_one_in cfg) seq = true) /\
    (forall refuse, o = Accepted refuse -> refuse = one_in (refuse_one_in cfg) seq) /\
    (capacity_qps cfg = None -> o <> OverCapacity)).
  { intros Hlen seq. destruct (Hnext Hlen) as [_ Eseq]. rewrite Eseq in Hv. fold seq in Hv.
    unfold verdict, interval_of in Hv. rewrite Hc in Hv. destruct (one_in (drop_one_in cfg) seq).
    - destruct Hv as [-> _]. by split_and!.
    - destruct (capacity_qps cfg) as [q|]; cbn [fmap option_fmap option_map] in Hv.
      + destruct (_ <? _).
        * destruct Hv as [-> _]. by split_and!.
        * destruct Hv as [[->| ->] _]; split_and!; try done. by intros refuse [= ->].
      + destruct Hv as [[->| ->] _]; split_and!; try done. by intros refuse [= ->]. }
  split.
  - congruence.
  - intros Hlen. destruct (Hnext Hlen) as [-> _]. lia.
  - intros k e Hlen Hk. rewrite El in Hk. apply lookup_app_Some in Hk as [Hk|[Hge Hk]].
    + apply He; [lia|done].
    + apply list_lookup_singleton_Some in Hk as [Hk <-]. replace k with (length (log s)) by lia. by apply Ho.
  - intros Hlen. rewrite (tally_snoc by_share _ _ _ El), Hs, Elen, share_next by lia. f_equal.
    destruct (Ho Hlen) as (Hiff & _). cbn zeta in Hiff. destruct (one_in _ _) eqn:E.
    + by rewrite (proj2 Hiff eq_refl).
    + destruct o; try done. discriminate (proj1 Hiff eq_refl).
Qed.

Lemma apart_by_number cfg s s' : by_number cfg s -> apart s s' -> by_number cfg s'.
Proof.
  intros [Hc Hr He Hs] (El & Ec & _ & _ & Er & _). split; unfold tally; rewrite ?El, ?Er; try done. congruence.
Qed.

(** Loss and refusals are by sequence number.  Whatever else happens, the datagram with
    number [seq] is dropped by its share exactly when [seq] is a multiple of [drop_one_in],
    an accepted one is refused exactly when it is a multiple of [refuse_one_in], so exactly
    one in every so many is lost; and without a capacity nothing else is dropped but what
    does not parse. *)
Theorem sim_outcomes cfg now acts s :
  run acts (start cfg now) = Some s -> Z.of_nat (length (log s)) <= u64_max ->
  tally by_share s = share (drop_one_in cfg) (Z.of_nat (length (log s))) /\
  forall k e, log s !! k = Some e ->
    let seq := Z.of_nat k + 1 in
    (e.2 = ByShare <-> one_in (drop_one_in cfg) seq = true) /\
    (forall refuse, e.2 = Accepted refuse -> refuse = one_in (refuse_one_in cfg) seq) /\
    (capacity_qps cfg = None -> e.2 <> OverCapacity).
Proof.
  intros Hr Hlen. destruct (run_invariant (by_number cfg) acts (start cfg now) s) as [_ _ K1 K2];
    [intros; by apply receive_by_number|intros; by eapply apart_by_number|apply start_by_number|done|].
  split; [by apply K2|]. intros k e Hk. by apply K1.
Qed.

(** *** The capacity is a cap, and a promise *)

Definition sim_horizon : Z := 2 ^ 62.

Section Capacity.
Context (i : Z) (Hi : 1 <= i <= sim_horizon).

(** The time the server has run, short enough for the nanoseconds to fit. *)
Definition ran s : Z := clock s - start_at s.

Record metered cfg s : Prop := {
  mt_config : config s = cfg;
  mt_clock : 0 <= ran s;
  mt_budget : 0 <= budget_ns (counters s);
  mt_ahead : ran s <= sim_horizon -> budget_ns (counters s) <= ran s + BURST_ALLOWANCE + i;
  mt_paid : ran s <= sim_horizon -> i * tally passed s <= budget_ns (counters s);
}.

(** Arrivals at least an interval apart. *)
Definition spaced (l : list (Z * outcome)) : Prop :=
  forall k e e', l !! k = Some e -> l !! S k = Some e' -> e.1 + i <= e'.1.

Record unhurried s : Prop := {
  un_none : ran s <= sim_horizon -> spaced (log s) -> Forall (fun e => e.2 <> OverCapacity) (log s);
  un_budget : ran s <= sim_horizon -> spaced (log s) ->
    budget_ns (counters s) <= match last (log s) with Some e => e.1 + i | None => 0 end;
  un_past : ran s <= sim_horizon -> Forall (fun e => e.1 <= ran s) (log s);
}.

Lemma elapsed_ran s : 0 <= ran s -> ran s <= sim_horizon -> elapsed_ns (start_at s) (clock s) = ran s.
Proof.
  unfold ran, sim_horizon, elapsed_ns, wrap_u64, u64_modulus. intros. rewrite Z.max_l by lia.
  apply Z.mod_small. lia.
Qed.

(** A datagram, by what the capacity makes of it; [late] is a budget beyond the allowance. *)
Lemma receive_metered spurious bytes from cfg s :
  interval_of cfg = Some i -> metered cfg s -> ran s <= sim_horizon ->
  let s' := receive from_bytes spurious bytes from s in
  exists o, seen (ran s, o) s s' /\
    (~ passed (0, o) /\ budget_ns (counters s') = budget_ns (counters s) /\
       (o = OverCapacity -> ran s + BURST_ALLOWANCE < budget_ns (counters s)) \/
     passed (0, o) /\ budget_ns (counters s) <= ran s + BURST_ALLOWANCE /\
       budget_ns (counters s') = Z.max (budget_ns (counters s)) (ran s) + i).
Proof.
  intros Ei [Hc Hclock Hb Hahead _] Hran s'. specialize (Hahead Hran).
  destruct (receive_spec spurious bytes from s) as (o & Hv & Hseen). fold s' in Hv, Hseen.
  rewrite elapsed_ran in Hseen by done. exists o. split; [done|]. clearbody s'.
  unfold verdict in Hv. rewrite elapsed_ran, Hc, Ei in Hv by done.
  destruct (one_in _ _).
  { destruct Hv as [-> ->]. left. split; [by intros []|]. by split. }
  unfold sim_horizon, u64_saturating_add, u64_max, u64_modulus in *.
  assert (BURST_ALLOWANCE = 50000000) as Eb by reflexivity. rewrite Eb in *.
  destruct (Z.ltb_spec (Z.min (ran s + 50000000) (2 ^ 64 - 1)) (budget_ns (counters s))) as [Hl|Hl];
    rewrite Z.min_l in Hl by lia.
  - destruct Hv as [-> ->]. left. split; [by intros []|]. split; [done|]. intros _. lia.
  - destruct Hv as [Ho ->]. right. split; [by destruct Ho as [->| ->]|]. split; [done|]. apply Z.min_l. lia.
Qed.

Lemma seen_ran e s s' : seen e s s' -> ran s' = ran s /\ config s' = config s.
Proof. intros (_ & Ec & Es & Ek & _). unfold ran. by rewrite Es, Ek. Qed.

Lemma receive_keeps_meter spurious bytes from cfg s :
  interval_of cfg = Some i -> metered cfg s -> metered cfg (receive from_bytes spurious bytes from s).
Proof.
  intros Ei Hs. set (s' := receive from_bytes spurious bytes from s).
  destruct (receive_spec spurious bytes from s) as (o0 & Hv & Hseen0). fold s' in Hv, Hseen0.
  destruct (seen_ran _ _ _ Hseen0) as [Er Ec]. pose proof Hs as [Hc Hclock Hb Hahead Hpaid].
  assert (Hcase : ran s <= sim_horizon ->
    budget_ns (counters s') <= ran s + BURST_ALLOWANCE + i /\ i * tally passed s' <= budget_ns (counters s')).
  { intros Hran. specialize (Hahead Hran). specialize (Hpaid Hran).
    destruct (receive_metered spurious bytes from cfg s Ei Hs Hran) as (o & (El & _) & Hcase).
    fold s' in El, Hcase. rewrite (tally_snoc passed _ _ _ El).
    assert (Hsame : forall z, (if decide (passed (z, o)) then 1 else 0) = (if decide (passed (0, o)) then 1 else 0))
      by (intros z; by destruct o). rewrite Hsame.
    assert (0 <= BURST_ALLOWANCE) by done.
    destruct Hcase as [(Hn & -> & _)|(Hp & Hw & ->)].
    - rewrite decide_False by done. lia.
    - rewrite decide_True by done. lia. }
  split; rewrite ?Er; try done.
  - congruence.
  - unfold verdict in Hv. rewrite Hc, Ei in Hv. destruct (one_in _ _); [by destruct Hv as [_ ->]|].
    destruct (_ <? _); destruct Hv as [_ ->]; [done|]. unfold u64_saturating_add, u64_max, u64_modulus. lia.
  - intros Hran. by apply Hcase.
  - intros Hran. by apply Hcase.
Qed.

Lemma apart_keeps_meter cfg s s' : metered cfg s -> apart s s' -> metered cfg s'.
Proof.
  intros [Hc Hclock Hb Hahead Hpaid] (El & Ec & Es & Hk & _ & _ & Eb & _).
  assert (Hr : ran s <= ran s') by (unfold ran; lia).
  assert (Et : tally passed s' = tally passed s) by (unfold tally; by rewrite El).
  split; rewrite ?Eb, ?Et; try done.
  - congruence.
  - lia.
  - intros Hh. specialize (Hahead ltac:(lia)). lia.
  - intros Hh. apply Hpaid. lia.
Qed.

Lemma spaced_snoc l e : spaced (l ++ [e]) -> spaced l /\ match last l with Some e0 => e0.1 + i <= e.1 | None => True end.
Proof.
  intros Hs. split.
  - intros k x y Hx Hy. apply (Hs k); by apply lookup_app_l_Some.
  - destruct (last l) as [e0|] eqn:E; [|done]. rewrite last_lookup in E.
    assert (0 < length l)%nat by (destruct l; [done|simpl; lia]).
    apply (Hs (pred (length l))); [by apply lookup_app_l_Some|].
    rewrite lookup_app_r by lia. by replace (S (pred (length l)) - length l)%nat with 0%nat by lia.
Qed.

Lemma receive_unhurried spurious bytes from cfg s :
  interval_of cfg = Some i -> metered cfg s -> unhurried s ->
  unhurried (receive from_bytes spurious bytes from s).
Proof.
  intros Ei Hs [Hnone Hbudget Hpast]. set (s' := receive from_bytes spurious bytes from s).
  destruct (receive_spec spurious bytes from s) as (o0 & _ & Hseen0). fold s' in Hseen0.
  destruct (seen_ran _ _ _ Hseen0) as [Er _].
  assert (Hcase : ran s <= sim_horizon -> exists o, log s' = log s ++ [(ran s, o)] /\
    (spaced (log s') -> o <> OverCapacity /\ budget_ns (counters s') <= ran s + i)).
  { intros Hran. destruct (receive_metered spurious bytes from cfg s Ei Hs Hran) as (o & (El & _) & Hcase).
    fold s' in El, Hcase. exists o. split; [done|]. rewrite El. intros [Hsp Hlast]%spaced_snoc.
    specialize (Hbudget Hran Hsp). cbn [fst] in Hlast. pose proof (mt_clock _ _ Hs).
    assert (budget_ns (counters s) <= ran s) by (destruct (last (log s)); lia).
    assert (0 <= BURST_ALLOWANCE) by done.
    destruct Hcase as [(Hn & -> & Hl)|(Hp & Hw & ->)].
    - split; [|lia]. intros Ho. specialize (Hl Ho). lia.
    - split; [by destruct o|]. lia. }
  split; rewrite Er; intros Hran; destruct (Hcase Hran) as (o & El & Ho).
  - intros Hsp. destruct (Ho Hsp) as [Hno _]. rewrite El in *. apply spaced_snoc in Hsp as [Hsp _].
    apply Forall_app. split; [by apply Hnone|]. by repeat constructor.
  - intros Hsp. destruct (Ho Hsp) as [_ Hb]. by rewrite El, last_snoc.
  - rewrite El. apply Forall_app. split; [by apply Hpast|]. by repeat constructor.
Qed.

Lemma apart_unhurried s s' : unhurried s -> apart s s' -> unhurried s'.
Proof.
  intros [Hnone Hbudget Hpast] (El & _ & Es & Hk & _ & _ & Eb & _).
  assert (Hr : ran s <= ran s') by (unfold ran; lia).
  split; rewrite ?El, ?Eb; intros Hh; [apply Hnone; lia|apply Hbudget; lia|].
  eapply Forall_impl; [apply Hpast; lia|]. simpl. lia.
Qed.

(** The capacity is a cap and a promise.  With an interval of [i] nanoseconds per query,
    in [T] nanoseconds at most [(T + 50ms) / i + 1] datagrams get past the budget, however
    they are bunched; and when they arrive at least [i] apart, none is over capacity. *)
Theorem sim_capacity cfg now acts s :
  interval_of cfg = Some i -> run acts (start cfg now) = Some s -> clock s - now <= sim_horizon ->
  tally passed s <= (clock s - now + BURST_ALLOWANCE) / i + 1 /\
  (spaced (log s) -> Forall (fun e => e.2 <> OverCapacity) (log s)).
Proof.
  intros Ei Hr Hran.
  destruct (run_invariant (fun s => metered cfg s /\ unhurried s /\ start_at s = now) acts (start cfg now) s)
    as (Hm & Hu & Est); [..|done|].
  - intros s1 spurious bytes from (K1 & K2 & K3). split_and!; [by apply receive_keeps_meter|by eapply receive_unhurried|].
    destruct (receive_spec spurious bytes from s1) as (o & _ & _ & _ & E & _). by rewrite E.
  - intros s1 s2 (K1 & K2 & K3) Ha. split_and!; [by eapply apart_keeps_meter|by eapply apart_unhurried|].
    destruct Ha as (_ & _ & -> & _). done.
  - unfold ran. split_and!; [split|split|done]; unfold ran, tally; cbn; try done; try lia. 
    unfold BURST_ALLOWANCE, from_millis. lia.
  - assert (E : clock s - now = ran s) by (unfold ran; by rewrite Est). rewrite E in *. split; [|by apply (un_none _ Hu)].
    pose proof (mt_paid _ _ Hm Hran) as Hp. pose proof (mt_ahead _ _ Hm Hran) as Ha.
    assert (tally passed s - 1 <= (ran s + BURST_ALLOWANCE) / i); [|lia].
    apply Z.div_le_lower_bound; nia.
Qed.
End Capacity.

(** *** Every record is to be had over TCP *)

Lemma read_exact_app n (bytes rest : list Z) : length bytes = n -> read_exact n (bytes ++ rest) = Some (bytes, rest).
Proof.
  intros <-. unfold read_exact. rewrite length_app. destruct (Nat.leb_spec (length bytes) (length bytes + length rest)); [|lia].
  by rewrite take_app_length, drop_app_length.
Qed.

(** A frame is read back as its bytes. *)
Lemma read_framed (bytes rest : list Z) : Z.of_nat (length bytes) < 65536 ->
  ('(len_buf, input) ← read_exact 2 (framed bytes ++ rest);
   let len := match len_buf with [hi; lo] => Z.to_nat (hi * 256 + lo) | _ => 0%nat end in
   read_exact len input) = Some (bytes, rest).
Proof.
  intros Hlen. unfold framed. rewrite <- app_assoc. rewrite read_exact_app by done. cbn [mbind option_bind].
  rewrite Z.mod_small by lia. apply read_exact_app.
  pose proof (Z.div_mod (Z.of_nat (length bytes)) 256). lia.
Qed.

(** A request on the wire, and the bytes of its whole response. *)
Record exchange := mk_exchange { asked : list Z; asking : message; told : list Z }.
Definition exchange_ok (x : exchange) : Prop :=
  from_bytes (asked x) = Some (asking x) /\ Z.of_nat (length (asked x)) < 65536 /\
  to_vec (build_response A_TYPE (asking x) false) = Some (told x).

Lemma serve_exchanges (xs : list exchange) : forall fuel, Forall exchange_ok xs -> (length xs <= fuel)%nat ->
  serve_connection A_TYPE from_bytes to_vec fuel (length xs) (xs ≫= fun x => framed (asked x))
  = (xs ≫= fun x => framed (told x), length xs).
Proof.
  induction xs as [|x xs IH]; intros fuel Hxs Hfuel; [by destruct fuel|].
  apply Forall_cons in Hxs as [(Hf & Hl & Ht) Hxs]. destruct fuel as [|fuel]; [simpl in Hfuel; lia|].
  rewrite !bind_cons. cbn [serve_connection length].
  pose proof (read_framed (asked x) (xs ≫= fun x => framed (asked x)) Hl) as Hread.
  destruct (read_exact 2 _) as [[len_buf input]|]; [|done]. cbn [mbind option_bind] in *.
  rewrite Hread. cbn [mbind option_bind]. rewrite Hf. cbn [mbind option_bind]. rewrite Ht. cbn [mbind option_bind].
  rewrite IH by (done || (simpl in Hfuel; lia)). done.
Qed.

Lemma exchanges_length (xs : list exchange) : (length xs <= length (xs ≫= fun x => framed (asked x)))%nat.
Proof.
  induction xs as [|x xs IH]; [done|]. rewrite bind_cons, length_app. unfold framed at 1. simpl. lia.
Qed.

(** Whatever UDP leaves out, TCP brings.  A connection answers any number of requests in
    order, each with the whole response in one frame, and counts them all; and the truncated
    response over UDP is that response with its first two records, marked as truncated, or
    the same one where there is nothing to leave out but the mark. *)
Theorem sim_tcp_recovers (xs : list exchange) :
  Forall exchange_ok xs ->
  serve_tcp A_TYPE from_bytes to_vec (length xs) (xs ≫= fun x => framed (asked x))
  = (xs ≫= fun x => framed (told x), length xs) /\
  forall x, x ∈ xs ->
    let whole := build_response A_TYPE (asking x) false in
    let cut := build_response_sized A_TYPE (asking x) false TRUNCATED_ANSWER_COUNT true in
    cut = whole <| m_answers := take TRUNCATED_ANSWER_COUNT (m_answers whole) |> <| m_truncated := true |> /\
    m_truncated whole = false /\ m_queries whole = m_queries (asking x) /\ m_id whole = m_id (asking x) /\
    (length (m_answers whole) = 0%nat \/ length (m_answers whole) = FULL_ANSWER_COUNT).
Proof.
  intros Hxs. split; [apply serve_exchanges; [done|apply exchanges_length]|].
  intros x _. unfold build_response, build_response_sized.
  destruct (m_queries (asking x)) as [|[name query_type] qs]; [by split_and!; try left|].
  destruct (decide (query_type = A_TYPE)); cbn; by split_and!; auto.
Qed.
End SimProofs.

(** ** Witnesses *)

Section SimExamples.
Import SimResolver.

Abbreviation demo_message := (Message (Name := text) (RecordType := Z) (OpCode := Z)).
(** On this wire a message is its identifier, asking for the address of one name. *)
Definition ask (id : Z) : demo_message := mk_message id false 0 true false [(lit "a.example", 1)] Clear [] false.
Definition demo_from (bytes : list Z) : option demo_message := match bytes with [id] => Some (ask id) | _ => None end.
Definition demo_to (m : demo_message) : option (list Z) := Some (m_id m :: (Z.of_nat (length (m_answers m))) :: []).
Definition client_addr : SocketAddress := mk_socket (V4 127 0 0 1) 40000 0.
Definition get (id : Z) : action := Datagram 1 [id] client_addr.

Abbreviation demo_run := (perform_all 1 demo_from demo_to).

(** A hundred queries a second, one in four lost, one in three refused. *)
Definition lossy : SimConfig := mk_sim_config (from_millis 1) (Some (f64_of_Z 100)) (Some 4) (Some 3) true.
Definition lossy_acts : list action :=
  [get 1; get 2; get 3; get 4; get 5; get 6; get 7; get 8; get 9; get 10; Datagram 0 [] client_addr; RecvError;
   Tick (from_millis 1); Answer 0 true; Answer 0 false; Connection 2 (framed [7] ++ framed [8])].
Definition lossy_state := from_option id (start lossy 5) (demo_run lossy_acts (start lossy 5)).

Example lossy_counts :
  counters lossy_state = mk_counters 11 1 5 2 (from_millis 60) /\ length (tasks lossy_state) = 4%nat.
Proof. vm_compute. split; reflexivity. Qed.

Example lossy_log : snd <$> log lossy_state =
  [Accepted false; Accepted false; Accepted true; ByShare; Accepted false; Accepted true; Accepted false; ByShare;
   OverCapacity; OverCapacity; OverCapacity].
Proof. vm_compute. reflexivity. Qed.

Lemma lossy_run : demo_run lossy_acts (start lossy 5) = Some lossy_state.
Proof. vm_compute. reflexivity. Qed.

Lemma sim_accounts_witness :
  received (counters lossy_state) ≡64
    dropped (counters lossy_state) + answered (counters lossy_state)
    + Z.of_nat (failed lossy_state) + Z.of_nat (length (tasks lossy_state)) /\
  received (counters lossy_state) ≡64 Z.of_nat (length (log lossy_state)).
Proof. apply (sim_accounts 1 demo_from demo_to lossy 5 lossy_acts). exact lossy_run. Defined.

Lemma sim_outcomes_witness : tally by_share lossy_state = share (Some 4) 11.
Proof.
  apply (sim_outcomes 1 demo_from demo_to lossy 5 lossy_acts lossy_state lossy_run). vm_compute. discriminate.
Defined.

Lemma sim_capacity_witness :
  tally passed lossy_state <= (clock lossy_state - 5 + BURST_ALLOWANCE) / from_millis 10 + 1.
Proof.
  apply (sim_capacity 1 demo_from demo_to (from_millis 10) ltac:(vm_compute; split; discriminate)
           lossy 5 lossy_acts lossy_state).
  - vm_compute. reflexivity.
  - exact lossy_run.
  - vm_compute. discriminate.
Defined.

Definition two_exchanges : list (exchange (Name := text) (RecordType := Z) (OpCode := Z)) :=
  [mk_exchange [7] (ask 7) [7; 8]; mk_exchange [9] (ask 9) [9; 8]].
Lemma sim_tcp_recovers_witness :
  serve_tcp 1 demo_from demo_to 2 [0; 1; 7; 0; 1; 9] = ([0; 2; 7; 8; 0; 2; 9; 8], 2%nat).
Proof.
  assert (Hok : Forall (exchange_ok 1 demo_from demo_to) two_exchanges)
    by (repeat constructor; vm_compute; reflexivity).
  exact (proj1 (sim_tcp_recovers 1 demo_from demo_to two_exchanges Hok)).
Defined.
End SimExamples.
