(* ===== verification/Reach.v ===== *)
(** * What every reachable fleet state satisfies

    Beyond the invariant of [Worker]: the indices that tasks carry are those of resolvers,
    the clocks agree and sentences fit 64 bits ([sound_pool]), and every fleet run is, for
    the attempt pacer, one of its own runs, in which exactly the workers that wait in it
    are queued ([paced_workers]).  [Progress] builds on these. *)

From stdpp Require Import list relations.
From S2P Require Import Prelude Float64 Extern Limiter Config Addresses Errors Health Pool Utils Dns Worker.
#[local] Open Scope Z_scope.
#[local] Open Scope list_scope.

(** ** The pool *)

Section SoundPool.
Import ResolverPool.
Context {A S : Type} `{HO : SemaphoreOps S}.
Implicit Types (q : sys A S) (p : t A S) (r : ResolverHealth.t A S).

(** The indices a task carries are in range. *)
Definition in_range (n : nat) (a : pc) : Prop :=
  match a with
  | Enter | Asleep _ | NoneActive | Idle => True
  | Visit _ _ _ _ wa | Decide _ _ wa => forall k, wa = Some k -> (k < n)%nat
  | CheckBench _ _ _ _ wa | TryAcquire _ _ _ _ wa => (0 < n)%nat /\ forall k, wa = Some k -> (k < n)%nat
  | Queued k | Recheck k | RecheckBench k | Reserved k => (k < n)%nat
  end.

(** A resolver that shares the pool's origin of time, with a sentence that fits. *)
Definition sound_resolver (origin : Z) r : Prop :=
  ResolverHealth.start r = origin /\ 0 <= ResolverHealth.benched_until r <= u64_max.

Record sound_pool q : Prop := {
  sp_tasks : Forall (in_range (length (resolvers (pool q)))) (tasks q);
  sp_resolvers : Forall (sound_resolver (start (pool q))) (resolvers (pool q));
  sp_clock : start (pool q) <= clock q;
}.

Lemma sound_resolver_permits origin rs rs' :
  only_permits rs rs' -> Forall (sound_resolver origin) rs -> Forall (sound_resolver origin) rs'.
Proof.
  intros Hp Hf. induction Hp as [|r r' rs rs' (sem & ->) Hp IH]; [constructor|].
  apply Forall_cons in Hf as [Hr Hf]. constructor; [exact Hr|by apply IH].
Qed.

Lemma reserve_step_range w now p a :
  in_range (length (resolvers p)) a -> in_range (length (resolvers p)) (reserve_step w now p a).2.
Proof.
  intros Ha.
  destruct a as [|o i ac be wa|o i ac be wa|o i ac be wa|ac be wa|k|k|k|u|k| |]; cbn [reserve_step];
    simpl in Ha; try exact Ha; try done.
  - destruct (resolvers p); done.
  - destruct (Nat.ltb_spec i (length (resolvers p))); [|exact Ha].
    destruct (resolvers p !! _) as [r|]; [|exact Ha].
    destruct (ResolverHealth.is_active r); simpl; [split; [lia|]|]; exact Ha.
  - destruct Ha as [Hn Ha]. destruct (resolvers p !! _) as [r|]; [|by split].
    by destruct (ResolverHealth.is_benched now r).
  - destruct Ha as [Hn Ha]. pose proof (slot_lt o i _ Hn) as Hlt.
    destruct (resolvers p !! _) as [r|]; [|by split].
    destruct (ResolverHealth.try_acquire r); simpl; [done|]. destruct wa; [done|]. by intros k [= <-].
  - destruct (ac =? 0); [done|]. destruct (be =? ac); [by destruct (0 <? _)|].
    destruct wa as [k|]; [|done]. destruct (resolvers p !! k) as [r|]; [|exact Ha].
    specialize (Ha k eq_refl). destruct (sem_acquire w _) as [sem []]; simpl; done.
  - destruct (resolvers p !! k) as [r|]; [|exact Ha]. by destruct (ResolverHealth.is_active r).
  - destruct (resolvers p !! k) as [r|]; [|exact Ha]. by destruct (ResolverHealth.is_benched now r).
  - by destruct (u <=? now).
Qed.

Lemma reserve_step_start w now p a : start (reserve_step w now p a).1 = start p.
Proof.
  destruct a; cbn [reserve_step]; repeat case_match; simplify_eq/=; done.
Qed.

Lemma permits_length rs rs' : only_permits (A := A) (S := S) rs rs' -> length rs' = length rs.
Proof. intros Hp. symmetry. exact (Forall2_length _ _ _ Hp). Qed.

Lemma release_sound k q : sound_pool q -> sound_pool (release k q).
Proof.
  intros [Ht Hr Hc]. pose proof (release_permits k q) as Hp.
  pose proof (permits_length _ _ Hp) as Hl. split.
  - rewrite Hl. clear Hp Hl. unfold release.
    destruct (resolvers (pool q) !! k) as [r|] eqn:Hk; [|done].
    destruct (sem_add_permits 1 _) as [sem woken]. simpl. unfold wake.
    apply lookup_lt_Some in Hk. revert Ht. generalize (tasks q). induction woken as [|w ws IH]; [done|].
    intros ts Hts. simpl. apply IH. apply Forall_insert; [exact Hts|exact Hk].
  - apply (sound_resolver_permits _ _ _ Hp). revert Hr. unfold release.
    destruct (resolvers (pool q) !! k); [|done]. by destruct (sem_add_permits 1 _).
  - revert Hc. unfold release. destruct (resolvers (pool q) !! k); [|done]. by destruct (sem_add_permits 1 _).
Qed.

Lemma move_sound w a b q :
  sound_pool q -> in_range (length (resolvers (pool q))) b -> sound_pool (move w a b q).
Proof.
  intros [Ht Hr Hc] Hb.
  assert (sound_pool (q <| tasks := <[w := b]> (tasks q) |>)) as Hs.
  { split; [|exact Hr|exact Hc]. by apply Forall_insert. }
  unfold move. destruct (held a) as [k|]; [|exact Hs]. destruct (held b); [exact Hs|]. by apply release_sound.
Qed.

Lemma run_task_sound w a q : sound_pool q -> tasks q !! w = Some a -> sound_pool (run_task w a q).
Proof.
  intros [Ht Hr Hc] Hw. pose proof (Forall_lookup_1 _ _ _ _ Ht Hw) as Ha.
  pose proof (reserve_step_range w (clock q) (pool q) a Ha) as Hb.
  pose proof (reserve_step_start w (clock q) (pool q) a) as Hst.
  pose proof (reserve_permits w (clock q) (pool q) a) as Hp.
  unfold run_task. destruct (reserve_step w (clock q) (pool q) a) as [p b]. cbn [fst snd] in *.
  pose proof (permits_length _ _ Hp) as Hl. apply move_sound; [|by cbn; rewrite Hl].
  split; cbn; rewrite ?Hl, ?Hst; [exact Ht| |exact Hc]. by apply (sound_resolver_permits _ _ _ Hp).
Qed.

Lemma update_sound k r r' q :
  sound_pool q -> resolvers (pool q) !! k = Some r -> ResolverHealth.start r' = ResolverHealth.start r ->
  0 <= ResolverHealth.benched_until r' <= u64_max -> sound_pool (q <| pool := update k r' (pool q) |>).
Proof.
  intros [Ht Hr Hc] Hk Hst Hbe. split; cbn; [by rewrite length_insert| |exact Hc].
  apply Forall_insert; [exact Hr|]. destruct (Forall_lookup_1 _ _ _ _ Hr Hk) as [E _]. split; [congruence|exact Hbe].
Qed.

Lemma clock_sound d q : 0 <= d -> sound_pool q -> sound_pool (q <| clock := clock q + d |>).
Proof. intros Hd [Ht Hr Hc]. split; [exact Ht|exact Hr|cbn; lia]. Qed.
End SoundPool.

(** ** The attempt pacer *)

Section PacerMembers.
Import AttemptPacer.
Context {S : Type} `{HO : SemaphoreOps S} `{!Semaphore S}.
Implicit Types (p : sys S).

(** The callers inside the pacer's [acquire]. *)
Definition insiders p : list nat := counted p ++ sem_waiters (tokens (pacer p)) ++ woken p.

Lemma inside_insiders p : inside p = Z.of_nat (length (insiders p)).
Proof. unfold inside, insiders. rewrite !length_app. lia. Qed.

(** What an action leaves: the callers inside, and whether [w] went through. *)
Definition through (w : nat) p p' : Prop := sent p' = w :: sent p.

Lemma enter_insiders w p :
  let p' := enter w p in
  match rate (pacer p) with
  | None => insiders p' = insiders p /\ through w p p'
  | Some _ => insiders p' = w :: insiders p /\ sent p' = sent p
  end.
Proof. unfold enter, insiders, through. destruct (rate (pacer p)); done. Qed.

Lemma poll_insiders w c1 c2 p :
  sem_ok (tokens (pacer p)) -> counted p = c1 ++ w :: c2 ->
  let p' := poll w (p <| counted := c1 ++ c2 |>) in
  (insiders p ≡ₚ w :: insiders p' /\ through w p p') \/
  (insiders p ≡ₚ insiders p' /\ sent p' = sent p /\ counted p' = c1 ++ c2 /\
   w ∈ sem_waiters (tokens (pacer p'))).
Proof.
  intros Hok Hc. unfold poll. cbn.
  pose proof (sem_acquire_spec w _ Hok) as Hs.
  destruct (sem_acquire w (tokens (pacer p))) as [tok granted]. destruct Hs as [_ Hs].
  destruct granted; [left|right]; unfold insiders, through, leave; cbn; rewrite Hc.
  - destruct Hs as [_ ->]. split; [|done]. rewrite <- Permutation_middle. simpl. by rewrite !app_assoc.
  - destruct Hs as (_ & _ & ->). split; [|split; [done|split; [done|]]].
    + rewrite <- Permutation_middle, <- !app_assoc. simpl.
      rewrite !(app_assoc c1 c2), (app_assoc _ (sem_waiters _)), (app_assoc _ (sem_waiters _)).
      apply Permutation_cons_app. done.
    + apply elem_of_app. right. by left.
Qed.

Lemma resume_insiders w c1 c2 p :
  woken p = c1 ++ w :: c2 ->
  let p' := leave w (p <| woken := c1 ++ c2 |>) in insiders p ≡ₚ w :: insiders p' /\ through w p p'.
Proof.
  intros Hc. unfold leave, insiders, through. cbn. rewrite Hc. split; [|done].
  rewrite !(app_assoc (counted p)), !(app_assoc _ c1). symmetry. apply Permutation_middle.
Qed.

Lemma tick_insiders seconds p :
  sem_ok (tokens (pacer p)) -> 0 <= waiting (pacer p) ->
  insiders (tick seconds p) ≡ₚ insiders p /\ rate (pacer (tick seconds p)) = rate (pacer p) /\
  counted (tick seconds p) = counted p.
Proof.
  intros Hok Hw. unfold tick. pose proof (refill_spec seconds (pacer p) Hok Hw) as Hr.
  destruct (refill seconds (pacer p)) as [p' ws]. destruct Hr as (_ & _ & Hrate & Hq).
  unfold insiders. cbn. split; [|done]. rewrite <- Hq, (Permutation_app_comm (woken p)).
  rewrite (app_assoc (sem_waiters _)), (Permutation_app_comm (sem_waiters _) ws). done.
Qed.
End PacerMembers.

(** ** The fleet *)

Section Reach.
Import ResolverWorker.
Context `{DnsTypes} {S : Type} `{HO : SemaphoreOps S} `{!Semaphore S}.
Implicit Types (s : sys (S := S)) (st : stage) (p : AttemptPacer.sys S).

Definition pacing st : bool := match st with Pacing _ _ _ => true | _ => false end.

(** The pacer is in one of its own states, and its callers are the workers that wait in it. *)
Record paced_workers s : Prop := {
  pw_pacer : pacer_inv (pacer s);
  pw_nodup : NoDup (insiders (pacer s));
  pw_members : forall w, w ∈ insiders (pacer s) <-> exists st, workers s !! w = Some st /\ pacing st = true;
}.

Definition listed (w : nat) (b : bool) : list nat := if b then [w] else [].

(** What worker [w] leaving [st] for [st'] does to the pacer. *)
Definition pacer_move (w : nat) st st' p p' : Prop :=
  rtc AttemptPacer.step p p' /\ insiders p' ++ listed w (pacing st) ≡ₚ insiders p ++ listed w (pacing st').

Lemma pacer_inv_rtc p p' : rtc AttemptPacer.step p p' -> pacer_inv p -> pacer_inv p'.
Proof. induction 1; eauto using step_pacer_inv. Qed.

Lemma elem_of_listed v w b : v ∈ listed w b <-> v = w /\ b = true.
Proof. destruct b; simpl; rewrite ?list_elem_of_singleton, ?elem_of_nil; tauto || intuition congruence. Qed.

(** The callers listed before and after, worker [w] apart, are the same, and so is [w]'s place. *)
Lemma pacer_move_members w st st' p p' :
  pacer_move w st st' p p' -> NoDup (insiders p) -> (w ∈ insiders p <-> pacing st = true) ->
  NoDup (insiders p') /\ (w ∈ insiders p' <-> pacing st' = true) /\
  (forall v, v <> w -> v ∈ insiders p' <-> v ∈ insiders p).
Proof.
  intros [_ E] Hn Hw. split_and!.
  - destruct (pacing st), (pacing st'); simpl in E; rewrite ?app_nil_r in E.
    + apply Permutation_app_inv_r in E. by rewrite E.
    + rewrite <- E in Hn. by apply NoDup_app in Hn as (? & _).
    + rewrite E. apply NoDup_app. split; [done|]. split; [|apply NoDup_singleton].
      intros v Hv ->%list_elem_of_singleton. by apply Hw in Hv.
    + by rewrite E.
  - destruct (pacing st), (pacing st'); simpl in E; rewrite ?app_nil_r in E.
    + apply Permutation_app_inv_r in E. by rewrite E.
    + rewrite <- E in Hn. apply NoDup_app in Hn as (_ & Hn & _). split; [|done].
      intros Hin. destruct (Hn w Hin). by left.
    + split; [done|]. intros _. rewrite E. apply elem_of_app. right. by left.
    + by rewrite E.
  - intros v Hne.
    assert (Ev : v ∈ insiders p' ++ listed w (pacing st) <-> v ∈ insiders p ++ listed w (pacing st')) by (by rewrite E).
    rewrite !elem_of_app, !elem_of_listed in Ev. tauto.
Qed.

Lemma paced_move w st st' s s' :
  paced_workers s -> workers s !! w = Some st -> workers s' = <[w := st']> (workers s) ->
  pacer_move w st st' (pacer s) (pacer s') -> paced_workers s'.
Proof.
  intros [Hp Hn Hm] Hw Ew Hmv.
  assert (Hself : w ∈ insiders (pacer s) <-> pacing st = true).
  { rewrite Hm, Hw. split; [by intros (st2 & [= <-] & ?)|]. by exists st. }
  destruct (pacer_move_members _ _ _ _ _ Hmv Hn Hself) as (Hn' & Hself' & Hother).
  split; [by apply (pacer_inv_rtc _ _ (proj1 Hmv))|done|]. intros v. rewrite Ew.
  destruct (decide (v = w)) as [->|Hne].
  - rewrite list_lookup_insert_eq by (by eapply lookup_lt_Some). rewrite Hself'.
    split; [by exists st'|]. by intros (st2 & [= <-] & ?).
  - rewrite list_lookup_insert_ne by done. by rewrite Hother.
Qed.

Lemma remove_one_spec w l l' : remove_one w l = Some l' -> exists c1 c2, l = c1 ++ w :: c2 /\ l' = c1 ++ c2.
Proof.
  revert l'. induction l as [|x l IH]; intros l' Hr; simpl in Hr; [done|].
  destruct (decide (x = w)) as [->|Hne]; [injection Hr as <-; by exists [], l|].
  apply bind_Some in Hr as (l2 & H2 & [= <-]). destruct (IH l2 H2) as (c1 & c2 & -> & ->).
  by exists (x :: c1), c2.
Qed.

Lemma remove_one_in w l : w ∈ l -> exists l', remove_one w l = Some l'.
Proof.
  induction l as [|x l IH]; intros Hin; [by apply elem_of_nil in Hin|]. simpl.
  destruct (decide (x = w)) as [->|Hne]; [by eexists|].
  apply elem_of_cons in Hin as [->|Hin]; [done|]. destruct (IH Hin) as [l' ->]. by eexists.
Qed.

Lemma pacer_stays w st st' p : pacing st' = pacing st -> pacer_move w st st' p p.
Proof. intros E. split; [done|]. by rewrite E. Qed.

(** After [pacer_action], the stage tells whether the pacer let the worker go. *)
Lemma pacer_action_stage w p' a b s :
  pacer_action w p' a b s =
  goto w (if decide (length (AttemptPacer.sent (pacer s)) < length (AttemptPacer.sent p'))%nat then a else b)
    (s <| pacer := p' |>).
Proof. unfold pacer_action. destruct (Nat.ltb_spec (length (AttemptPacer.sent (pacer s))) (length (AttemptPacer.sent p')));
  case_decide; done || lia. Qed.

Lemma through_longer w p p' : through w p p' ->
  (length (AttemptPacer.sent p) < length (AttemptPacer.sent p'))%nat.
Proof. unfold through. intros ->. simpl. lia. Qed.

(** Entering the pacer, and the two ways to go on from there. *)
Lemma arriving_pacer w item name k s :
  let s' := pacer_action w (AttemptPacer.enter w (pacer s)) (Sending item name k) (Pacing item name k) s in
  exists st', workers s' = <[w := st']> (workers s) /\
    pacer_move w (Arriving item name k) st' (pacer s) (pacer s').
Proof.
  rewrite pacer_action_stage. cbn. eexists. split; [done|]. split; [apply rtc_once; constructor|].
  pose proof (enter_insiders w (pacer s)) as He. cbv zeta in He.
  destruct (AttemptPacer.rate (AttemptPacer.pacer (pacer s))).
  - destruct He as [-> ->]. rewrite decide_False by lia. cbn. rewrite app_nil_r. apply Permutation_cons_append.
  - destruct He as [-> Ht]. rewrite decide_True by (by apply (through_longer w)). done.
Qed.

Lemma polling_pacer w item name k c s :
  pacer_inv (pacer s) -> remove_one w (AttemptPacer.counted (pacer s)) = Some c ->
  let s' := pacer_action w (AttemptPacer.poll w ((pacer s) <| AttemptPacer.counted := c |>))
              (Sending item name k) (Pacing item name k) s in
  (workers s' = <[w := Sending item name k]> (workers s) \/
   workers s' = <[w := Pacing item name k]> (workers s) /\ AttemptPacer.counted (pacer s') = c /\
   w ∈ sem_waiters (AttemptPacer.tokens (AttemptPacer.pacer (pacer s')))) /\
  exists st', workers s' = <[w := st']> (workers s) /\
    pacer_move w (Pacing item name k) st' (pacer s) (pacer s').
Proof.
  intros [Hok _] Hrm. rewrite pacer_action_stage. cbn.
  destruct (remove_one_spec _ _ _ Hrm) as (c1 & c2 & Hc & ->).
  assert (Hstep := AttemptPacer.step_poll w c1 c2 _ Hc).
  destruct (poll_insiders w c1 c2 (pacer s) Hok Hc) as [[Ei Ht]|(Ei & Et & Ec & Hw)].
  - rewrite decide_True by (by apply (through_longer w)). split; [by left|]. eexists. split; [done|].
    split; [by apply rtc_once|]. cbn. rewrite Ei, app_nil_r. symmetry. apply Permutation_cons_append.
  - cbn in Et. rewrite Et, decide_False by lia. split; [by right|]. eexists. split; [done|].
    split; [by apply rtc_once|]. cbn. by rewrite Ei.
Qed.

Lemma resuming_pacer w item name k c s :
  remove_one w (AttemptPacer.woken (pacer s)) = Some c ->
  let s' := pacer_action w (AttemptPacer.leave w ((pacer s) <| AttemptPacer.woken := c |>))
              (Sending item name k) (Pacing item name k) s in
  workers s' = <[w := Sending item name k]> (workers s) /\
  pacer_move w (Pacing item name k) (Sending item name k) (pacer s) (pacer s').
Proof.
  intros Hrm. rewrite pacer_action_stage. cbn.
  destruct (remove_one_spec _ _ _ Hrm) as (c1 & c2 & Hc & ->).
  destruct (resume_insiders w c1 c2 (pacer s) Hc) as [Ei Ht].
  rewrite decide_True by (simpl; lia). split; [done|].
  split; [apply rtc_once; by constructor|]. cbn. rewrite Ei, app_nil_r. symmetry. apply Permutation_cons_append.
Qed.

(** An action moves one worker; the pacer follows with a run of its own. *)
Lemma advance_pacer w x s s' :
  pacer_inv (pacer s) -> advance w x s = Some s' ->
  exists st st', workers s !! w = Some st /\ workers s' = <[w := st']> (workers s) /\
    pacer_move w st st' (pacer s) (pacer s').
Proof.
  intros Hp Hadv. unfold advance in Hadv. apply bind_Some in Hadv as (st & Hw & Hadv). exists st.
  assert (Hstay : forall st', pacing st' = pacing st -> workers s' = <[w := st']> (workers s) ->
    pacer s' = pacer s -> exists st', workers s !! w = Some st /\ workers s' = <[w := st']> (workers s) /\
    pacer_move w st st' (pacer s) (pacer s')).
  { intros st' E1 E2 E3. exists st'. split; [done|]. split; [done|]. rewrite E3. by apply pacer_stays. }
  destruct st as [|item name pc|item name|item name k pc|item name k|item name k|item name k
                 |item name k started|item name k started partial|];
    destruct x as [spurious|x|tcp answer]; try discriminate Hadv; cbn in Hadv;
    try (apply bind_Some in Hadv as (h & Hh & Hadv)).
  - repeat case_match; simplify_eq; (eapply Hstay; [|reflexivity..]; done).
  - destruct (RateLimiter.acquire_step _ _ _ _) as [l a]. destruct a; simplify_eq;
      (eapply Hstay; [|reflexivity..]; done).
  - destruct h; simplify_eq; try (eapply Hstay; [|reflexivity..]; done);
      (apply (Hstay (Reserving item name)); [done| |done]; cbn; by rewrite list_insert_id).
  - destruct (RateLimiter.acquire_step _ _ _ _) as [l a]. destruct a; simplify_eq;
      (eapply Hstay; [|reflexivity..]; done).
  - injection Hadv as <-. destruct (arriving_pacer w item name k s) as (st' & E1 & E2). by exists st'.
  - destruct (remove_one w (AttemptPacer.counted (pacer s))) as [c|] eqn:Ec.
    + injection Hadv as <-. destruct (polling_pacer w item name k c s Hp Ec) as (_ & st' & E1 & E2). by exists st'.
    + apply bind_Some in Hadv as (c & Er & [= <-]).
      destruct (resuming_pacer w item name k c s Er) as (E1 & E2). by eexists.
  - injection Hadv as <-. eapply Hstay; [|reflexivity..]; done.
  - destruct (on_reply x started (clock s) h) as [h' []]; simplify_eq; (eapply Hstay; [|reflexivity..]; done).
  - simplify_eq. eapply Hstay; [|reflexivity..]; done.
Qed.

Lemma advance_paced w x s s' : paced_workers s -> advance w x s = Some s' -> paced_workers s'.
Proof.
  intros Hp Hadv. destruct (advance_pacer w x s s' (pw_pacer _ Hp) Hadv) as (st & st' & Hw & Ew & Hm).
  by eapply paced_move.
Qed.

Lemma paced_background s s' :
  paced_workers s -> workers s' = workers s -> AttemptPacer.step (pacer s) (pacer s') ->
  insiders (pacer s') ≡ₚ insiders (pacer s) -> paced_workers s'.
Proof.
  intros [Hp Hn Hm] Ew Hs E. split; [by eapply step_pacer_inv|by rewrite E|]. intros w. by rewrite E, Hm, Ew.
Qed.

Lemma perform_paced a s s' : paced_workers s -> perform a s = Some s' -> paced_workers s'.
Proof.
  intros Hp Hperf. pose proof Hp as [Hi Hn Hm].
  destruct a as [w x|d|item| |seconds|r|q|k q]; simpl in Hperf.
  - by eapply advance_paced.
  - destruct (0 <=? d); [|done]. injection Hperf as <-. by split.
  - destruct (_ && _); [|done]. injection Hperf as <-. by split.
  - injection Hperf as <-. by split.
  - injection Hperf as <-. eapply paced_background; try done; [constructor|].
    destruct Hi as [Hok Hwt]. apply tick_insiders; [done|]. rewrite Hwt.
    by destruct (Z.mod_pos_bound (AttemptPacer.inside (pacer s)) u64_modulus).
  - injection Hperf as <-. eapply paced_background; try done. constructor.
  - apply bind_Some in Hperf as (l & _ & [= <-]). by split.
  - apply bind_Some in Hperf as (h & _ & Hperf). apply bind_Some in Hperf as (h' & _ & [= <-]). by split.
Qed.

(** *** Resolvers stay sound *)

Definition fits (b : Z) : Prop := 0 <= b <= u64_max.
Lemma fits_u64_add a b : fits (u64_add a b).
Proof. unfold fits, u64_add, wrap_u64, u64_max. pose proof (Z.mod_pos_bound (a + b) u64_modulus eq_refl). lia. Qed.

(** What recording an outcome leaves of a resolver's origin and sentence. *)
Definition keeps_time (h h' : ResolverHealth.t SocketAddress S) : Prop :=
  ResolverHealth.start h' = ResolverHealth.start h /\
  (fits (ResolverHealth.benched_until h) -> fits (ResolverHealth.benched_until h')).

Lemma record_response_time rtt had now h : keeps_time h (ResolverHealth.record_response rtt had now h).
Proof.
  destruct (record_response_frame rtt had now h) as (_ & _ & _ & _ & _ & _ & E & _).
  split; [|by rewrite E]. unfold ResolverHealth.record_response.
  match goal with |- context [ResolverHealth.record_rtt ?r ?n ?g] =>
    destruct (record_rtt_frame r n g) as (_ & _ & _ & _ & _ & _ & _ & _ & _ & _ & -> & _) end.
  by destruct had.
Qed.

Lemma record_error_time timed now h : keeps_time h (ResolverHealth.record_error timed now h).
Proof.
  destruct (record_error_frame timed now h) as (_ & _ & _ & _ & _ & _ & _ & E & _). split; [exact E|].
  unfold ResolverHealth.record_error. destruct timed; repeat case_match; try done; intros _; apply fits_u64_add.
Qed.

Lemma on_reply_time x started now h : keeps_time h (on_reply x started now h).1.
Proof.
  unfold on_reply. destruct (ResolverHealth.query_bounded h x) as [response|err].
  - destruct (truncated response); [done|]. apply record_response_time.
  - apply record_error_time.
Qed.

Lemma set_health_sound k h h' s :
  sound_pool (reserving s) -> resolvers s !! k = Some h -> keeps_time h h' ->
  sound_pool (reserving (set_health k h' s)).
Proof.
  intros Hs Hk [E1 E2]. apply (update_sound k h h' _ Hs Hk E1), E2.
  by destruct (Forall_lookup_1 _ _ _ _ (sp_resolvers _ Hs) Hk).
Qed.

Lemma retask_sound w a b s :
  sound_pool (reserving s) -> in_range (length (resolvers s)) b -> sound_pool (reserving (retask w a b s)).
Proof. apply move_sound. Qed.

Lemma advance_sound w x s s' : sound_pool (reserving s) -> advance w x s = Some s' -> sound_pool (reserving s').
Proof.
  intros Hs Hadv. unfold advance in Hadv. apply bind_Some in Hadv as (st & Hw & Hadv).
  destruct st as [|item name pc|item name|item name k pc|item name k|item name k|item name k
                 |item name k started|item name k started partial|];
    destruct x as [spurious|x|tcp answer]; try discriminate Hadv; cbn in Hadv;
    try (apply bind_Some in Hadv as (h & Hh & Hadv)).
  - repeat case_match; simplify_eq; exact Hs.
  - destruct (RateLimiter.acquire_step _ _ _ _) as [l a]. destruct a; simplify_eq; try exact Hs.
    by apply (retask_sound _ _ _ _ Hs).
  - destruct h; simplify_eq; try exact Hs; try (apply (run_task_sound w _ _ Hs Hh)).
    by apply (retask_sound _ _ _ _ Hs).
  - destruct (RateLimiter.acquire_step _ _ _ _) as [l a].
    destruct a; simplify_eq; (apply (set_health_sound _ h); [exact Hs|done..]).
  - simplify_eq. exact Hs.
  - repeat case_match; [|apply bind_Some in Hadv as (? & _ & Hadv)]; simplify_eq; exact Hs.
  - simplify_eq. apply (set_health_sound _ h); [exact Hs|done..].
  - pose proof (on_reply_time x started (clock s) h) as Ht.
    destruct (on_reply x started (clock s) h) as [h' []]; simplify_eq;
      [apply (retask_sound _ _ _ (set_health _ _ _)); [|done]|]; by apply (set_health_sound _ h).
  - simplify_eq. apply (retask_sound _ _ _ (set_health _ _ _)); [|done].
    apply (set_health_sound _ h); [exact Hs|done|]. apply record_response_time.
Qed.

Lemma perform_sound a s s' : sound_pool (reserving s) -> perform a s = Some s' -> sound_pool (reserving s').
Proof.
  intros Hs Hperf. destruct a as [w x|d|item| |seconds|r|q|k q]; simpl in Hperf.
  - by eapply advance_sound.
  - destruct (Z.leb_spec 0 d); [|done]. injection Hperf as <-. by apply clock_sound.
  - destruct (_ && _); [|done]. injection Hperf as <-. exact Hs.
  - injection Hperf as <-. exact Hs.
  - injection Hperf as <-. exact Hs.
  - injection Hperf as <-. exact Hs.
  - apply bind_Some in Hperf as (l & _ & [= <-]). exact Hs.
  - apply bind_Some in Hperf as (h & Hh & Hperf). apply bind_Some in Hperf as (h' & Hh' & [= <-]).
    unfold ResolverHealth.set_rate in Hh'. apply bind_Some in Hh' as (l & _ & [= <-]).
    by apply (set_health_sound _ h).
Qed.

(** *** All invariants together *)

Record steady (cap : Z) s : Prop := {
  sd_fleet : fleet_ok cap s;
  sd_pool : sound_pool (reserving s);
  sd_paced : paced_workers s;
}.

Lemma perform_steady cap a s s' : steady cap s -> perform a s = Some s' -> steady cap s'.
Proof.
  intros [Hf Hp Hw] Ha. split; [by eapply perform_ok|by eapply perform_sound|by eapply perform_paced].
Qed.

Lemma new_pool_sound (addrs : list SocketAddress) config now (p : ResolverPool.t SocketAddress S) alive :
  ResolverPool.new addrs config now = Some p ->
  let p' := (ResolverPool.probe alive p).1 in
  ResolverPool.start p' = now /\ Forall (sound_resolver now) (ResolverPool.resolvers p').
Proof.
  intros Hn. unfold ResolverPool.new in Hn. apply bind_Some in Hn as (rs & Hm & [= <-]).
  split; [done|]. apply Forall_lookup_2. intros k h Hk. simpl in Hk. rewrite list_lookup_imap in Hk.
  destruct (rs !! k) as [h0|] eqn:Hk0; [|done]. injection Hk as <-.
  apply mapM_Some in Hm. destruct (Forall2_lookup_r _ _ _ _ _ Hm Hk0) as (addr & _ & Hnh).
  unfold ResolverHealth.new in Hnh. apply bind_Some in Hnh as (l & _ & [= <-]).
  destruct (alive k); (split; [done|]; cbn; unfold u64_max, u64_modulus; lia).
Qed.

Lemma initial_steady addrs config n s :
  initial addrs config n s -> steady (Z.max (max_inflight_per_resolver config) 1) s.
Proof.
  intros Hi. split; [by eapply initial_fleet_ok|..];
    destruct Hi as ((p & alive & Hn & Ep) & Ht & Hp & Hw & _).
  - destruct (new_pool_sound _ _ _ _ alive Hn) as [Est Hr]. rewrite <- Ep in Est, Hr. split.
    + rewrite Ht. by apply Forall_replicate.
    + by rewrite Est.
    + rewrite Est. unfold clock. lia.
  - destruct (sem_new_ok 0) as (Hok & _ & Hq); [done|].
    assert (E : insiders (pacer s) = []) by (rewrite Hp; unfold insiders; simpl; by rewrite Hq).
    split; [split; rewrite ?inside_insiders, ?E; by rewrite Hp|rewrite E; constructor|].
    intros w. rewrite E, Hw. split; [by intros ?%elem_of_nil|]. intros (st & Hst & Hpac).
    apply lookup_replicate in Hst as [-> _]. done.
Qed.

Lemma run_steady cap s s' : rtc step s s' -> steady cap s -> steady cap s'.
Proof. induction 1 as [|s1 s2 s3 [a Ha] _ IH]; [done|]. intros Hs. apply IH. by eapply perform_steady. Qed.

Lemma reachable_steady addrs config n s0 s :
  initial addrs config n s0 -> rtc step s0 s -> steady (Z.max (max_inflight_per_resolver config) 1) s.
Proof. intros Hi Hrun. eapply run_steady; [exact Hrun|]. by eapply initial_steady. Qed.

(** The pacer never lets more callers in than there are workers. *)
Lemma inside_workers cap s : steady cap s -> AttemptPacer.inside (pacer s) <= Z.of_nat (length (workers s)).
Proof.
  intros [_ _ [_ Hn Hm]]. rewrite inside_insiders. apply inj_le.
  rewrite <- (length_seq (length (workers s)) 0). apply submseteq_length, NoDup_submseteq; [done|].
  intros w Hw. apply Hm in Hw as (st & Hst & _). apply elem_of_seq. apply lookup_lt_Some in Hst. lia.
Qed.
End Reach.
