(* ===== verification/Stretch.v ===== *)
(** * Stretches of a run that help

    From every reachable state of [Worker]'s fleet some runs of the workers, the clock and
    the pacer's refills lower [measure]: [drives] is such a stretch of one worker, and here
    are those of a worker at the rate limiter and of one that holds a permit (with a
    timeout for an answer).  [Progress] has the others and the theorem. *)

From Stdlib Require Import String.
From stdpp Require Import list relations.
From S2P Require Import Prelude Float64 Extern Limiter Config Addresses Errors Health Pool Utils Dns Worker.
From S2P Require Import Fleet Reach.
#[local] Open Scope Z_scope.
#[local] Open Scope list_scope.

(** ** A caller of the rate limiter gets through *)

Section Acquire.
Import RateLimiter.

(** Actions a lone caller still needs, once what it sleeps for has passed. *)
Definition claims_left (l : t) (a : pc) : nat :=
  match a with
  | Returned _ _ => 0
  | Sleeping _ _ => 1
  | Claimed _ => 2
  | Attempt _ current _ => if decide (next_ns l = current) then 3 else 6
  | Loaded _ current => if decide (next_ns l = current) then 4 else 7
  | Looping _ => 5
  | Called => 6
  end.

Definition wake_time (a : pc) : Z := match a with Sleeping _ until => until | _ => 0 end.
Definition is_returned (a : pc) : bool := match a with Returned _ _ => true | _ => false end.

Lemma acquire_closer now l a :
  (forall slot until, a = Sleeping slot until -> until <= now) ->
  let '(l', a') := acquire_step false now l a in
  is_returned a' = true \/ (claims_left l' a' < claims_left l a)%nat.
Proof.
  intros Hw. destruct a as [|i|i c|i c n|slot|slot u|slot at_ns]; cbn [acquire_step].
  - right. simpl. lia.
  - right. simpl. rewrite decide_True by done. lia.
  - right. simpl. case_decide; lia.
  - destruct (Z.eqb_spec (next_ns l) c) as [E|E]; simpl; right.
    + rewrite decide_True by done. lia.
    + rewrite decide_False by done. lia.
  - destruct (_ <=? _); [by left|]. destruct (_ <=? _); [right; simpl; lia|by left].
  - rewrite (proj2 (Z.leb_le u now)) by (by eapply Hw). by left.
  - by left.
Qed.
End Acquire.

(** ** Runs that help, and what they lower *)

Section Stretch.
Import ResolverWorker.
Context `{DnsTypes} {S : Type} `{HO : SemaphoreOps S} `{!Semaphore S}.
Implicit Types (s : sys (S := S)) (st : stage) (a b : ResolverPool.pc).

(** The workers act, time passes, the pacer is refilled, the controller lifts its rate. *)
Definition helpful (x : action) : Prop :=
  match x with
  | Act _ _ | Tick _ | Refill _ => True
  | SetAttemptRate r => r = None
  | _ => False
  end.
Definition nudge s s' : Prop := exists x, helpful x /\ perform x s = Some s'.

(** No attempt rate is set. *)
Definition calm s : Prop := AttemptPacer.rate (AttemptPacer.pacer (pacer s)) = None.

Definition rank st a : nat :=
  match st with
  | Receiving | Stopped => 0
  | Refetching _ _ _ _ _ => 1
  | Querying _ _ _ _ => 2
  | Sending _ _ _ => 3
  | Pacing _ _ _ => 4
  | Arriving _ _ _ => 5
  | Rating _ _ _ _ => 6
  | Reserving _ _ =>
      match a with
      | ResolverPool.Queued _ => 10
      | ResolverPool.Recheck _ => 9
      | ResolverPool.RecheckBench _ => 8
      | _ => 7
      end
  | Limiting _ _ _ => 11
  end.

Definition tasks_of s : list ResolverPool.pc := ResolverPool.tasks (reserving s).
Definition measure s : nat :=
  (sum_list (zip_with rank (workers s) (tasks_of s)) + 12 * length (queue s))%nat.

(** A stretch of a run that takes worker [w] to [st] and its place in [reserve] to [b];
    others only move by being woken. *)
Record drives (w : nat) st b s s' : Prop := {
  dr_run : rtc nudge s s';
  dr_workers : workers s' = <[w := st]> (workers s);
  dr_tasks : only_woken (<[w := b]> (tasks_of s)) (tasks_of s');
  dr_queue : queue s' = queue s;
}.

Lemma nudge_step s s' : rtc nudge s s' -> rtc step s s'.
Proof. induction 1 as [|s1 s2 s3 (x & _ & Hx) _ IH]; [done|]. eapply rtc_l; [by exists x|done]. Qed.

Lemma nudge_act w x s s' : advance w x s = Some s' -> rtc nudge s s'.
Proof. intros E. apply rtc_once. by exists (Act w x). Qed.

Definition ticked (d : Z) s : sys := s <| reserving := (reserving s) <| ResolverPool.clock := clock s + d |> |>.
Lemma nudge_tick d s : 0 <= d -> rtc nudge s (ticked d s).
Proof. intros Hd. apply rtc_once. exists (Tick d). simpl. by rewrite (proj2 (Z.leb_le 0 d)). Qed.

Lemma nudge_steady cap s s' : rtc nudge s s' -> steady cap s -> steady cap s'.
Proof. intros Hr. by apply run_steady, nudge_step. Qed.

(** Helping runs accept nothing and leave the attempt rate lifted. *)
Lemma advance_frame w x s s' :
  advance w x s = Some s' -> accepted s' = accepted s /\
  AttemptPacer.rate (AttemptPacer.pacer (pacer s')) = AttemptPacer.rate (AttemptPacer.pacer (pacer s)).
Proof.
  intros Hadv. unfold advance in Hadv. apply bind_Some in Hadv as (st & Hw & Hadv).
  destruct st, x; try discriminate Hadv; cbn in Hadv;
    try (apply bind_Some in Hadv as (? & _ & Hadv)); repeat case_match; simplify_eq; try done;
    try (apply bind_Some in Hadv as (? & _ & Hadv)); simplify_eq; rewrite ?pacer_action_stage; cbn;
    unfold AttemptPacer.enter, AttemptPacer.poll, AttemptPacer.leave; cbn; repeat case_match; done.
Qed.

Lemma tick_rate seconds (p : AttemptPacer.sys S) :
  AttemptPacer.rate (AttemptPacer.pacer (AttemptPacer.tick seconds p)) = AttemptPacer.rate (AttemptPacer.pacer p).
Proof.
  unfold AttemptPacer.tick, AttemptPacer.refill.
  destruct (AttemptPacer.rate (AttemptPacer.pacer p)) eqn:E;
    destruct (sem_add_permits _ _); simpl; by rewrite ?E.
Qed.

Lemma nudge_frame s s' : rtc nudge s s' -> accepted s' = accepted s /\ (calm s -> calm s').
Proof.
  induction 1 as [s|s1 s2 s3 (x & Hx & Hp) _ (IH1 & IH2)]; [done|].
  enough (accepted s2 = accepted s1 /\ (calm s1 -> calm s2)) as [E1 E2] by (split; [congruence|auto]).
  clear IH1 IH2. unfold calm. destruct x as [w x|d| | |seconds|r| |]; try done; simpl in Hp.
  - destruct (advance_frame _ _ _ _ Hp) as [-> ->]. done.
  - destruct (0 <=? d); [|done]. by injection Hp as <-.
  - injection Hp as <-. simpl. by rewrite tick_rate.
  - simpl in Hx. subst r. by injection Hp as <-.
Qed.

(** *** Composing stretches *)

Lemma only_woken_insert w a b (ts ts1 ts2 : list ResolverPool.pc) :
  only_woken (<[w := a]> ts) ts1 -> only_woken (<[w := b]> ts1) ts2 -> only_woken (<[w := b]> ts) ts2.
Proof.
  intros [L1 H1] [L2 H2]. rewrite !length_insert in *. split; [rewrite length_insert; lia|]. intros v.
  specialize (H1 v). specialize (H2 v). destruct (decide (v = w)) as [->|Hne].
  - destruct (decide (w < length ts)%nat) as [Hlt|Hge].
    + rewrite !list_lookup_insert_eq in * by lia. done.
    + rewrite !list_insert_ge in * by lia. rewrite !lookup_ge_None_2 in * by lia. by left.
  - rewrite !list_lookup_insert_ne in * by done.
    destruct H1 as [E1|(k & E1 & E1')], H2 as [E2|(k2 & E2 & E2')].
    + left. congruence.
    + right. exists k2. split; congruence.
    + right. exists k. split; congruence.
    + congruence.
Qed.

Lemma drives_trans w st1 b1 st2 b2 s s1 s2 :
  drives w st1 b1 s s1 -> drives w st2 b2 s1 s2 -> drives w st2 b2 s s2.
Proof.
  intros [R1 W1 T1 Q1] [R2 W2 T2 Q2]. split; [by etrans| |by eapply only_woken_insert|congruence].
  by rewrite W2, W1, list_insert_insert_eq.
Qed.

(** A stretch in which only the stage of [w] may change. *)
Lemma drives_plain w st b s s' :
  rtc nudge s s' -> workers s' = <[w := st]> (workers s) -> tasks_of s !! w = Some b ->
  tasks_of s' = tasks_of s -> queue s' = queue s -> drives w st b s s'.
Proof. intros Hr Hw Hb Ht Hq. split; try done. rewrite list_insert_id by done. by rewrite Ht. Qed.

Lemma sum_list_le (l l' : list nat) :
  length l' = length l -> (forall i x x', l !! i = Some x -> l' !! i = Some x' -> (x' <= x)%nat) ->
  (sum_list l' <= sum_list l)%nat.
Proof.
  revert l'. induction l as [|y l IH]; intros [|y' l'] Hlen Hle; simplify_eq/=; [lia|].
  specialize (IH l' Hlen ltac:(intros i; apply (Hle (Datatypes.S i)))).
  assert (y' <= y)%nat by (by apply (Hle 0%nat)). lia.
Qed.

Lemma sum_list_lt (l l' : list nat) w x x' :
  length l' = length l -> (forall i x x', l !! i = Some x -> l' !! i = Some x' -> (x' <= x)%nat) ->
  l !! w = Some x -> l' !! w = Some x' -> (x' < x)%nat -> (sum_list l' < sum_list l)%nat.
Proof.
  revert l' w. induction l as [|y l IH]; intros [|y' l'] w Hlen Hle Hx Hx' Hlt; try done. simpl in Hlen |- *.
  assert (Htl : forall i x x', l !! i = Some x -> l' !! i = Some x' -> (x' <= x)%nat)
    by (intros i; apply (Hle (Datatypes.S i))).
  assert (y' <= y)%nat by (by apply (Hle 0%nat)).
  destruct w as [|w]; simpl in Hx, Hx'.
  - pose proof (sum_list_le l l' ltac:(lia) Htl). simplify_eq. lia.
  - specialize (IH l' w ltac:(lia) Htl Hx Hx' Hlt). lia.
Qed.

Lemma rank_woken st a b : b = a \/ (exists k, a = ResolverPool.Queued k /\ b = ResolverPool.Recheck k) ->
  (rank st b <= rank st a)%nat.
Proof. intros [->|(k & -> & ->)]; [lia|]. destruct st; simpl; lia. Qed.

Ltac woken_at Ht :=
  let k := fresh "k" in destruct Ht as [?|(k & ? & ?)]; [left|right; exists k; split]; congruence.

Lemma ranks_drop w st st' a b s s' :
  length (workers s) = length (tasks_of s) -> workers s !! w = Some st -> tasks_of s !! w = Some a ->
  drives w st' b s s' -> (rank st' b < rank st a)%nat ->
  (sum_list (zip_with rank (workers s') (tasks_of s')) < sum_list (zip_with rank (workers s) (tasks_of s)))%nat.
Proof.
  intros Hlen Hw Ha [_ Ew [Lt Ht] _] Hr.
  pose proof (lookup_lt_Some _ _ _ Hw) as Hlt. rewrite length_insert in Lt.
  destruct (lookup_lt_is_Some_2 (tasks_of s') w) as [b' Hb']; [lia|].
  apply (sum_list_lt _ _ w (rank st a) (rank st' b')).
  - rewrite !length_zip_with, Ew, length_insert. lia.
  - intros i x x' Hx Hx'. apply lookup_zip_with_Some in Hx as (st1 & a1 & -> & W1 & T1).
    apply lookup_zip_with_Some in Hx' as (st2 & a2 & -> & W2 & T2). rewrite Ew in W2. specialize (Ht i).
    destruct (decide (i = w)) as [->|Hne].
    + rewrite list_lookup_insert_eq in W2 by lia. rewrite list_lookup_insert_eq in Ht by lia. simplify_eq.
      match goal with |- (rank ?x ?y <= _)%nat => enough (rank x y <= rank x b)%nat by lia end.
      apply rank_woken. woken_at Ht.
    + rewrite list_lookup_insert_ne in W2 by done. rewrite list_lookup_insert_ne in Ht by done. simplify_eq. apply rank_woken. woken_at Ht.
  - by rewrite lookup_zip_with, Hw, Ha.
  - by rewrite lookup_zip_with, Ew, list_lookup_insert_eq, Hb' by lia.
  - specialize (Ht w). rewrite list_lookup_insert_eq in Ht by lia.
    enough (rank st' b' <= rank st' b)%nat by lia. apply rank_woken. woken_at Ht.
Qed.

Definition improves s : Prop := exists s', rtc nudge s s' /\ (measure s' < measure s)%nat.

Lemma drives_improves cap w st st' a b s s' :
  steady cap s -> workers s !! w = Some st -> task w s = Some a ->
  drives w st' b s s' -> (rank st' b < rank st a)%nat -> improves s.
Proof.
  intros Hs Hw Ha Hd Hr. exists s'. split; [apply Hd|]. unfold measure.
  rewrite (dr_queue _ _ _ _ _ Hd).
  enough (sum_list (zip_with rank (workers s') (tasks_of s')) < sum_list (zip_with rank (workers s) (tasks_of s)))%nat
    by lia.
  eapply ranks_drop; eauto. apply (fo_length _ _ (sd_fleet _ _ Hs)).
Qed.

(** *** The stages with a permit, and the rate limiter *)

Lemma drives_tick cap w st a d s :
  steady cap s -> workers s !! w = Some st -> task w s = Some a -> 0 <= d -> drives w st a s (ticked d s).
Proof. intros Hs Hw Ha Hd. apply drives_plain; try done; [by apply nudge_tick|by rewrite list_insert_id]. Qed.

(** A limiter's caller gets through: [wait] is its stage inside [acquire], [thru] the one after. *)
Lemma acquire_through cap w t b (wait : RateLimiter.pc -> stage) thru (lim : sys (S := S) -> RateLimiter.t) :
  (forall s (a : RateLimiter.pc), steady cap s -> workers s !! w = Some (wait a) -> task w s = Some t ->
     exists s', advance w (Go false) s = Some s' /\
       let '(l', a') := RateLimiter.acquire_step false (clock s) (lim s) a in
       if is_returned a' then drives w thru b s s' else drives w (wait a') t s s' /\ task w s' = Some t /\ lim s' = l') ->
  (forall d s, lim (ticked d s) = lim s) ->
  forall m s (a : RateLimiter.pc), (claims_left (lim s) a <= m)%nat -> steady cap s -> workers s !! w = Some (wait a) ->
    task w s = Some t -> exists s', drives w thru b s s'.
Proof.
  intros Hact Htick. induction m as [m IH] using lt_wf_ind. intros s a Hm Hs Hw Ht.
  set (d := Z.max 0 (wake_time a - clock s)).
  pose proof (drives_tick cap w (wait a) t d s Hs Hw Ht ltac:(lia)) as Hd.
  assert (Hs1 : steady cap (ticked d s)) by (eapply nudge_steady; [apply Hd|done]).
  destruct (Hact (ticked d s) a Hs1 Hw Ht) as (s' & Hadv & Hcase).
  pose proof (acquire_closer (clock (ticked d s)) (lim (ticked d s)) a) as Hcl.
  destruct (RateLimiter.acquire_step _ _ _ a) as [l' a'].
  destruct (is_returned a') eqn:Er; [exists s'; by eapply drives_trans|].
  destruct Hcase as (Hd' & Ht' & El).
  destruct Hcl as [?|Hlt]; [|done|].
  { intros slot until ->. unfold d, clock. simpl. unfold clock. lia. }
  rewrite Htick in Hlt. destruct (IH (claims_left l' a') ltac:(lia) s' a') as (s2 & Hd2).
  - by rewrite El.
  - eapply nudge_steady; [apply Hd'|done].
  - rewrite (dr_workers _ _ _ _ _ Hd'), list_lookup_insert_eq; [done|]. by eapply lookup_lt_Some.
  - done.
  - exists s2. eapply drives_trans; [exact Hd|]. by eapply drives_trans.
Qed.

Lemma limiting_through cap w item name (a : RateLimiter.pc) s :
  steady cap s -> workers s !! w = Some (Limiting item name a) ->
  exists s', drives w (Reserving item name) ResolverPool.Enter s s'.
Proof.
  intros Hs Hw. destruct (task_of _ _ _ _ (sd_fleet _ _ Hs) Hw) as (t & Ht & Et). simpl in Et. subst t.
  eapply (acquire_through cap w ResolverPool.Idle _ (Limiting item name) (Reserving item name) limiter);
    [|done|reflexivity|done..].
  clear s a Hs Hw Ht. intros s a Hs Hw Ht.
  assert (Hadv : forall s', advance w (Go false) s = Some s' -> rtc nudge s s') by apply nudge_act.
  unfold advance in *. rewrite Hw in *. simpl in *.
  destruct (RateLimiter.acquire_step false (clock s) (limiter s) a) as [l a'].
  destruct a'; (eexists; split; [reflexivity|]); specialize (Hadv _ eq_refl); simpl;
    [split; [by apply drives_plain|done]..|]. by split.
Qed.

Lemma reserved_resolver cap w st k s :
  steady cap s -> workers s !! w = Some st -> holding st = Some k ->
  task w s = Some (ResolverPool.Reserved k) /\ exists h, resolvers s !! k = Some h.
Proof.
  intros Hs Hw Hk. destruct (task_of _ _ _ _ (sd_fleet _ _ Hs) Hw) as (t & Ht & Et).
  assert (t = ResolverPool.Reserved k) as -> by (destruct st; simplify_eq/=; done).
  split; [done|]. apply lookup_lt_is_Some_2. exact (Forall_lookup_1 _ _ _ _ (sp_tasks _ (sd_pool _ _ Hs)) Ht).
Qed.

Lemma rating_through cap w item name k (a : RateLimiter.pc) s :
  steady cap s -> workers s !! w = Some (Rating item name k a) ->
  exists s', drives w (Arriving item name k) (ResolverPool.Reserved k) s s'.
Proof.
  intros Hs Hw. destruct (reserved_resolver _ _ _ k _ Hs Hw eq_refl) as [Ht _].
  set (lim := fun s : sys (S := S) => match resolvers s !! k with
                       | Some h => ResolverHealth.limiter h | None => RateLimiter.mk 1 0 0 end).
  eapply (acquire_through cap w (ResolverPool.Reserved k) _ (Rating item name k) (Arriving item name k) lim);
    [|done|reflexivity|done..].
  clear s a Hs Hw Ht. intros s a Hs Hw Ht.
  destruct (reserved_resolver _ _ _ k _ Hs Hw eq_refl) as [_ [h Hh]].
  assert (Hadv : forall s', advance w (Go false) s = Some s' -> rtc nudge s s') by apply nudge_act.
  unfold lim. rewrite Hh. unfold advance in *. rewrite Hw in *. simpl in *. rewrite Hh in *. simpl in *.
  destruct (RateLimiter.acquire_step false (clock s) (ResolverHealth.limiter h) a) as [l a'].
  assert (Hl : forall st h', resolvers (goto w st (set_health k h' s)) !! k = Some h').
  { intros st h'. unfold resolvers. simpl. apply list_lookup_insert_eq. by eapply lookup_lt_Some. }
  destruct a'; (eexists; split; [reflexivity|]); specialize (Hadv _ eq_refl); cbn [is_returned];
    [split; [by apply drives_plain|split; [done|by rewrite Hl]]..|]. by apply drives_plain.
Qed.

(** *** In the pacer, with no rate set *)

Section Pacing.
Context (cap : Z) (w : nat) (item : WorkItem) (name : Name) (k : nat).

(** Counted: the first poll lets it go, or queues it. *)
Lemma polled s :
  steady cap s -> workers s !! w = Some (Pacing item name k) -> w ∈ AttemptPacer.counted (pacer s) ->
  exists st s', drives w st (ResolverPool.Reserved k) s s' /\
    (st = Sending item name k \/
     st = Pacing item name k /\ w ∈ sem_waiters (AttemptPacer.tokens (AttemptPacer.pacer (pacer s')))).
Proof.
  intros Hs Hw Hin. destruct (remove_one_in _ _ Hin) as [c Hrm].
  destruct (reserved_resolver _ _ _ k _ Hs Hw eq_refl) as [Ht _].
  destruct (polling_pacer w item name k c s (pw_pacer _ (sd_paced _ _ Hs)) Hrm) as [Hcase _].
  assert (Hadv : forall s', advance w (Go false) s = Some s' -> rtc nudge s s') by apply nudge_act.
  unfold advance in Hadv. rewrite Hw in Hadv. cbn in Hadv. rewrite Hrm in Hadv. specialize (Hadv _ eq_refl).
  destruct Hcase as [Ew|(Ew & _ & Hq)]; eexists _, _;
    (split; [apply drives_plain; [exact Hadv|exact Ew|exact Ht|done..]|]); [by left|by right].
Qed.

(** Woken with a token: it goes. *)
Lemma resumed s :
  steady cap s -> workers s !! w = Some (Pacing item name k) -> w ∈ AttemptPacer.woken (pacer s) ->
  exists s', drives w (Sending item name k) (ResolverPool.Reserved k) s s'.
Proof.
  intros Hs Hw Hin. destruct (reserved_resolver _ _ _ k _ Hs Hw eq_refl) as [Ht _].
  destruct (remove_one_in _ _ Hin) as [c Hrm].
  assert (Hnot : remove_one w (AttemptPacer.counted (pacer s)) = None).
  { destruct (remove_one w (AttemptPacer.counted (pacer s))) as [l|] eqn:E; [|done]. exfalso.
    destruct (remove_one_spec _ _ _ E) as (c1 & c2 & Ec & _).
    pose proof (pw_nodup _ (sd_paced _ _ Hs)) as Hn. unfold insiders in Hn.
    apply NoDup_app in Hn as (_ & Hdis & _). apply (Hdis w); rewrite ?Ec, !elem_of_app; [|by right].
    right. by left. }
  destruct (resuming_pacer w item name k c s Hrm) as [Ew _].
  assert (Hadv : forall s', advance w (Go false) s = Some s' -> rtc nudge s s') by apply nudge_act.
  unfold advance in Hadv. rewrite Hw in Hadv. cbn in Hadv. rewrite Hnot, Hrm in Hadv. specialize (Hadv _ eq_refl).
  eexists. by apply drives_plain.
Qed.

(** Queued, with no rate set: a refill wakes it. *)
Lemma refilled s :
  steady cap s -> calm s -> Z.of_nat (length (workers s)) <= u64_max ->
  workers s !! w = Some (Pacing item name k) ->
  w ∈ sem_waiters (AttemptPacer.tokens (AttemptPacer.pacer (pacer s))) ->
  exists s', drives w (Pacing item name k) (ResolverPool.Reserved k) s s' /\ w ∈ AttemptPacer.woken (pacer s').
Proof.
  intros Hs Hc Hn Hw Hin. destruct (reserved_resolver _ _ _ k _ Hs Hw eq_refl) as [Ht _].
  pose proof (inside_workers _ _ Hs) as Hins.
  destruct (cleared_refill (pacer s) (f64_of_Z 0) (pw_pacer _ (sd_paced _ _ Hs)) Hc ltac:(lia)) as [_ Ew].
  exists (s <| pacer := AttemptPacer.tick (f64_of_Z 0) (pacer s) |>). split.
  - apply drives_plain; try done; [|by rewrite list_insert_id]. apply rtc_once. by exists (Refill (f64_of_Z 0)).
  - simpl. rewrite Ew. apply elem_of_app. by right.
Qed.

Lemma pacing_through s :
  steady cap s -> calm s -> Z.of_nat (length (workers s)) <= u64_max ->
  workers s !! w = Some (Pacing item name k) ->
  exists s', drives w (Sending item name k) (ResolverPool.Reserved k) s s'.
Proof.
  intros Hs Hc Hn Hw.
  assert (Hqueued : forall s, steady cap s -> calm s -> Z.of_nat (length (workers s)) <= u64_max ->
    workers s !! w = Some (Pacing item name k) ->
    w ∈ sem_waiters (AttemptPacer.tokens (AttemptPacer.pacer (pacer s))) ->
    exists s', drives w (Sending item name k) (ResolverPool.Reserved k) s s').
  { clear s Hs Hc Hn Hw. intros s Hs Hc Hn Hw Hin. destruct (refilled s Hs Hc Hn Hw Hin) as (s1 & Hd & Hin1).
    destruct (resumed s1) as (s2 & Hd2); [by eapply nudge_steady; [apply Hd|]| |done|].
    - rewrite (dr_workers _ _ _ _ _ Hd), list_lookup_insert_eq; [done|]. by eapply lookup_lt_Some.
    - exists s2. by eapply drives_trans. }
  assert (Hin : w ∈ insiders (pacer s)) by (apply (pw_members _ (sd_paced _ _ Hs)); by eexists).
  unfold insiders in Hin. rewrite !elem_of_app in Hin. destruct Hin as [Hin|[Hin|Hin]].
  - destruct (polled s Hs Hw Hin) as (st & s1 & Hd & [->|[-> Hq]]); [by exists s1|].
    pose proof (dr_workers _ _ _ _ _ Hd) as Ew.
    destruct (Hqueued s1) as (s2 & Hd2); [by eapply nudge_steady; [apply Hd|]|..|done|].
    + by apply (nudge_frame s s1 (dr_run _ _ _ _ _ Hd)).
    + by rewrite Ew, length_insert.
    + rewrite Ew, list_lookup_insert_eq; [done|]. by eapply lookup_lt_Some.
    + exists s2. by eapply drives_trans.
  - by apply Hqueued.
  - by apply resumed.
Qed.
End Pacing.

(** Answering gives the permit up, which may wake a worker. *)
Lemma respond_drives cap w item r k h h' s :
  steady cap s -> resolvers s !! k = Some h -> ResolverHealth.inflight h' = ResolverHealth.inflight h ->
  task w s = Some (ResolverPool.Reserved k) ->
  let s' := respond w item r (retask w (ResolverPool.Reserved k) ResolverPool.Idle (set_health k h' s)) in
  rtc nudge s s' -> drives w Receiving ResolverPool.Idle s s'.
Proof.
  intros Hs Hh Hin Ht s' Hr. split; [done|done| |done].
  apply (move_tasks cap w (ResolverPool.Reserved k) ResolverPool.Idle (reserving (set_health k h' s))); auto.
  eapply step_ok; [|apply (fo_permits _ _ (sd_fleet _ _ Hs))]. by eapply ResolverPool.step_health.
Qed.

(** Every stage that holds a permit leads on, with a timeout or the partial answer for a reply. *)
Lemma holding_improves cap w st k s :
  steady cap s -> calm s -> Z.of_nat (length (workers s)) <= u64_max ->
  workers s !! w = Some st -> holding st = Some k -> improves s.
Proof.
  intros Hs Hc Hn Hw Hk. destruct (reserved_resolver _ _ _ k _ Hs Hw Hk) as [Ht [h Hh]].
  assert (Hgo : forall st' b s', drives w st' b s s' -> (rank st' b < rank st (ResolverPool.Reserved k))%nat -> improves s)
    by (intros; by eapply drives_improves).
  assert (Hadv : forall x s', advance w x s = Some s' -> rtc nudge s s') by (intros x; apply nudge_act).
  destruct st as [|item name pc|item name|item name k' pc|item name k'|item name k'|item name k'
                 |item name k' started|item name k' started partial|]; try done; injection Hk as ->.
  - destruct (rating_through _ _ _ _ _ _ _ Hs Hw) as [s' Hd]. apply (Hgo _ _ _ Hd). simpl. lia.
  - specialize (Hadv (Go false)). unfold advance in Hadv. rewrite Hw in Hadv. cbn in Hadv.
    specialize (Hadv _ eq_refl). rewrite pacer_action_stage in Hadv.
    unfold AttemptPacer.enter in Hadv. rewrite Hc in Hadv. cbn in Hadv. rewrite decide_True in Hadv by lia.
    eapply (Hgo (Sending item name k) (ResolverPool.Reserved k)); [apply drives_plain; [exact Hadv|done..]|simpl; lia].
  - destruct (pacing_through cap w item name k s Hs Hc Hn Hw) as [s' Hd]. apply (Hgo _ _ _ Hd). simpl. lia.
  - specialize (Hadv (Go false)). unfold advance in Hadv. rewrite Hw in Hadv. cbn in Hadv. rewrite Hh in Hadv.
    cbn in Hadv. specialize (Hadv _ eq_refl).
    eapply (Hgo _ (ResolverPool.Reserved k)); [apply drives_plain; [exact Hadv|done..]|simpl; lia].
  - assert (exists h' r, on_reply ResolverHealth.Elapsed started (clock s) h = (h', Done r)) as (h' & r & E)
      by (eexists _, _; reflexivity).
    pose proof (on_reply_balance ResolverHealth.Elapsed started (clock s) h) as Hb. rewrite E in Hb.
    destruct Hb as [_ Hi].
    eapply (Hgo Receiving ResolverPool.Idle); [|simpl; lia]. apply (respond_drives cap w item r k h h'); try done.
    apply (Hadv (Reply ResolverHealth.Elapsed)). unfold advance. rewrite Hw. cbn [mbind option_bind].
    rewrite Hh. cbn [mbind option_bind]. by rewrite E.
  - eapply (Hgo Receiving ResolverPool.Idle); [|simpl; lia].
    eapply (respond_drives cap w item _ k h); [done|done| |done|].
    2:{ apply (Hadv (TcpReply (Err NoResolvers) (Ok partial))). unfold advance. rewrite Hw. cbn [mbind option_bind].
        rewrite Hh. cbn [mbind option_bind]. unfold on_refetch. reflexivity. }
    apply record_response_inflight.
Qed.
End Stretch.
