(* ===== verification/Pace.v ===== *)
(** * One resolver's own pace

    [Fleet] bounds what passes the global limiter.  A resolver has a limiter of its own,
    which starts unlimited and which the controller slows down while queries are on their
    way, so what can be bounded is what a window of time lets through.  [paced_move] is all
    that an action does to one resolver's limiter and to its count of queries;
    [window] keeps the slots granted since the window opened, and the role each worker has
    in it. *)

From Stdlib Require Import Ascii String.
From stdpp Require Import list relations.
From S2P Require Import Prelude Float64 Extern Limiter Config Addresses Errors Health Controller Pool Utils Dns.
From S2P Require Import Worker Fleet.
#[local] Open Scope Z_scope.
#[local] Open Scope list_scope.

Section Pace.
Import ResolverWorker.
Context `{DnsTypes} {S : Type} `{HO : SemaphoreOps S} `{!Semaphore S}.
Implicit Types (s : sys (S := S)) (h : ResolverHealth.t SocketAddress S) (st : stage) (l : RateLimiter.t).

(** The resolver's rate is only ever set to a rate up to [cap]. *)
Definition resolver_capped (k : nat) (cap : f64) (a : action) : Prop :=
  match a with SetResolverRate k' q => k' = k -> RateLimiter.at_most cap q | _ => True end.
Definition resolver_capped_step (k : nat) (cap : f64) s s' : Prop :=
  exists a, resolver_capped k cap a /\ perform a s = Some s'.

(** ** What an action does to one resolver *)

(** The stage after an action of the resolver's limiter. *)
Definition rated (item : WorkItem) (name : Name) (k : nat) (a : RateLimiter.pc) : stage :=
  match a with RateLimiter.Returned _ _ => Arriving item name k | _ => Rating item name k a end.

(** Between a resolver's limiter and the query sent to it. *)
Definition due st : option nat :=
  match st with Arriving _ _ k | Pacing _ _ k | Sending _ _ k => Some k | _ => None end.
(** From the reservation to the query. *)
Definition owing st : option nat := match st with Rating _ _ k _ => Some k | _ => due st end.

(** A worker's move as resolver [k] sees it: its limiter before and after, and whether a
    query went out to it. *)
Inductive paced_move (k : nat) (now : Z) : RateLimiter.t -> stage -> RateLimiter.t -> stage -> bool -> Prop :=
| pm_claim l item name a spurious l' a' :
    RateLimiter.acquire_step spurious now l a = (l', a') ->
    paced_move k now l (Rating item name k a) l' (rated item name k a') false
| pm_elsewhere l item name k' a a' :
    k' <> k -> paced_move k now l (Rating item name k' a) l (rated item name k' a') false
| pm_waits l st st' k' :
    due st = Some k' -> due st' = Some k' -> paced_move k now l st l st' false
| pm_sends l item name k' :
    paced_move k now l (Sending item name k') l (Querying item name k' now) (bool_decide (k' = k))
| pm_reserves l item name k' :
    paced_move k now l (Reserving item name) l (Rating item name k' RateLimiter.Called) false
| pm_other l st st' :
    owing st = None -> owing st' = None -> paced_move k now l st l st' false.

Definition sent_one (b : bool) : Z := if b then 1 else 0.

(** A worker's action, for every resolver at once. *)
Definition moved w st s s' : Prop :=
  clock s' = clock s /\
  exists st', workers s' = <[w := st']> (workers s) /\
    forall k h', resolvers s' !! k = Some h' -> exists h b, resolvers s !! k = Some h /\
      paced_move k (clock s) (ResolverHealth.limiter h) st (ResolverHealth.limiter h') st' b /\
      ResolverHealth.attempted h' ≡64 ResolverHealth.attempted h + sent_one b.

Lemma permits_pace rs rs' k h' : only_permits rs rs' -> rs' !! k = Some h' ->
  exists h, rs !! k = Some h /\ ResolverHealth.limiter h' = ResolverHealth.limiter h /\
    ResolverHealth.attempted h' = ResolverHealth.attempted h.
Proof.
  intros Hp Hk. destruct (Forall2_lookup_r _ _ _ _ _ Hp Hk) as (h & Hh & sem & ->). eauto.
Qed.

(** A move that leaves the limiters and the counts of queries alone. *)
Lemma moved_quietly w st st' s s' :
  clock s' = clock s -> workers s' = <[w := st']> (workers s) -> only_permits (resolvers s) (resolvers s') ->
  (forall k l, paced_move k (clock s) l st l st' false) -> moved w st s s'.
Proof.
  intros Hc Hw Hp Hm. split; [done|]. exists st'. split; [done|]. intros k h' Hk.
  destruct (permits_pace _ _ _ _ Hp Hk) as (h & Hh & El & Ea). exists h, false. rewrite El, Ea.
  split; [done|]. split; [apply Hm|]. simpl. apply eq64_refl. lia.
Qed.

(** A move that records something at resolver [k0], before it lets go of it. *)
Lemma moved_health w st st' b k0 h0 h1 s s1 s' :
  clock s' = clock s -> workers s' = <[w := st']> (workers s) -> resolvers s !! k0 = Some h0 ->
  s1 = set_health k0 h1 s -> only_permits (resolvers s1) (resolvers s') ->
  paced_move k0 (clock s) (ResolverHealth.limiter h0) st (ResolverHealth.limiter h1) st' b ->
  ResolverHealth.attempted h1 ≡64 ResolverHealth.attempted h0 + sent_one b ->
  (forall k l, k <> k0 -> paced_move k (clock s) l st l st' false) -> moved w st s s'.
Proof.
  intros Hc Hw Hk0 -> Hp Hm Ha Hother. split; [done|]. exists st'. split; [done|]. intros k h' Hk.
  destruct (permits_pace _ _ _ _ Hp Hk) as (h & Hh & El & Ea). unfold resolvers in Hh. cbn in Hh.
  destruct (decide (k = k0)) as [->|Hne].
  - rewrite list_lookup_insert_eq in Hh by (by eapply lookup_lt_Some). injection Hh as <-.
    exists h0, b. rewrite El, Ea. by split_and!.
  - rewrite list_lookup_insert_ne in Hh by done. exists h, false. rewrite El, Ea.
    split; [done|]. split; [by apply Hother|]. simpl. apply eq64_refl. lia.
Qed.

Lemma record_response_limiter rtt had now h :
  ResolverHealth.limiter (ResolverHealth.record_response rtt had now h) = ResolverHealth.limiter h.
Proof.
  unfold ResolverHealth.record_response.
  match goal with |- context [ResolverHealth.record_rtt ?r ?n ?g] =>
    destruct (record_rtt_frame r n g) as (_ & _ & _ & _ & _ & _ & _ & _ & _ & _ & _ & _ & _ & ->) end.
  by destruct had.
Qed.

Lemma response_paced rtt had now h :
  ResolverHealth.limiter (ResolverHealth.record_response rtt had now h) = ResolverHealth.limiter h /\
  ResolverHealth.attempted (ResolverHealth.record_response rtt had now h) = ResolverHealth.attempted h.
Proof. split; [apply record_response_limiter|]. by destruct (record_response_frame rtt had now h). Qed.

Lemma on_reply_paced x started now h :
  ResolverHealth.limiter (on_reply x started now h).1 = ResolverHealth.limiter h /\
  ResolverHealth.attempted (on_reply x started now h).1 = ResolverHealth.attempted h.
Proof.
  unfold on_reply. destruct (ResolverHealth.query_bounded h x) as [response|err].
  - destruct (truncated response); [done|]. apply response_paced.
  - destruct (record_error_frame (is_timeout err) now h) as (Ea & _ & _ & _ & _ & _ & _ & _ & _ & _ & El & _).
    split; [exact El|exact Ea].
Qed.

(** Recording the outcome of a query. *)
Lemma moved_outcome w st st' k h h' s s' :
  workers s !! w = Some st -> owing st = None -> owing st' = None -> resolvers s !! k = Some h ->
  ResolverHealth.limiter h' = ResolverHealth.limiter h ->
  ResolverHealth.attempted h' = ResolverHealth.attempted h ->
  clock s' = clock s -> workers s' = <[w := st']> (workers s) ->
  only_permits (resolvers (set_health k h' s)) (resolvers s') -> moved w st s s'.
Proof.
  intros Hw Ho Ho' Hk El Ea Hc Ew Hp. eapply (moved_health w st st' false k h h'); try done.
  - rewrite El. by apply pm_other.
  - rewrite Ea. apply eq64_refl. simpl. lia.
  - intros. by apply pm_other.
Qed.

Ltac quietly move := eapply moved_quietly; [try done|done|try done|intros; by eapply move].

(** Opening up what an action of a worker in a given stage does. *)
Ltac advancing Hw Hadv :=
  unfold advance in Hadv; rewrite Hw in Hadv; cbn [mbind option_bind] in Hadv.

Lemma reserving_moved w item name x s s' :
  workers s !! w = Some (Reserving item name) -> advance w x s = Some s' -> moved w (Reserving item name) s s'.
Proof.
  intros Hw Hadv. advancing Hw Hadv. destruct x as [spurious|x|tcp answer]; try discriminate Hadv.
  apply bind_Some in Hadv as (a & Ha & Hadv).
  assert (Hrun : moved w (Reserving item name) s (s <| reserving := ResolverPool.run_task w a (reserving s) |>)).
  { eapply (moved_quietly w _ (Reserving item name)); [apply run_task_clock|by rewrite list_insert_id| |].
    - apply (run_task_permits w a (reserving s)).
    - intros. by apply pm_other. }
  destruct a; try (injection Hadv as <-; exact Hrun); injection Hadv as <-;
    [by quietly pm_reserves|by quietly pm_other].
Qed.

Lemma rating_moved w item name k a x s s' :
  workers s !! w = Some (Rating item name k a) -> advance w x s = Some s' -> moved w (Rating item name k a) s s'.
Proof.
  intros Hw Hadv. advancing Hw Hadv. destruct x as [spurious|x|tcp answer]; try discriminate Hadv.
  apply bind_Some in Hadv as (h & Hk & Hadv).
  destruct (RateLimiter.acquire_step _ _ _ _) as [l a'] eqn:E.
  set (h' := h <| ResolverHealth.limiter := l |>) in *.
  assert (Es : clock s' = clock s /\ workers s' = <[w := rated item name k a']> (workers s)
               /\ resolvers s' = resolvers (set_health k h' s))
    by (destruct a'; by injection Hadv as <-).
  destruct Es as (Ec & Ew & Er).
  eapply (moved_health w _ (rated item name k a') false k h h'); try done.
  - by rewrite Er.
  - by eapply pm_claim.
  - apply eq64_refl. simpl. lia.
  - intros k' l' Hne. by apply pm_elsewhere.
Qed.

Lemma sending_moved w item name k x s s' :
  workers s !! w = Some (Sending item name k) -> advance w x s = Some s' -> moved w (Sending item name k) s s'.
Proof.
  intros Hw Hadv. advancing Hw Hadv. destruct x as [spurious|x|tcp answer]; try discriminate Hadv.
  apply bind_Some in Hadv as (h & Hk & Hadv). injection Hadv as <-.
  eapply (moved_health w _ _ true k h (begin_query h)); try done.
  - pose proof (pm_sends k (clock s) (ResolverHealth.limiter h) item name k) as Hm.
    by rewrite bool_decide_true in Hm.
  - apply fetch_add_eq64.
  - intros k' l Hne. pose proof (pm_sends k' (clock s) l item name k) as Hm.
    by rewrite bool_decide_false in Hm by congruence.
Qed.

Lemma querying_moved w item name k started x s s' :
  workers s !! w = Some (Querying item name k started) -> advance w x s = Some s' ->
  moved w (Querying item name k started) s s'.
Proof.
  intros Hw Hadv. advancing Hw Hadv. destruct x as [spurious|x|tcp answer]; try discriminate Hadv.
  apply bind_Some in Hadv as (h & Hk & Hadv).
  destruct (on_reply_paced x started (clock s) h) as [El Ea].
  destruct (on_reply x started (clock s) h) as [h' p]. cbn [fst] in El, Ea. destruct p as [r|partial].
  - injection Hadv as <-. eapply (moved_outcome _ _ Receiving k h h'); try done.
    + exact (retask_clock w _ _ (set_health k h' s)).
    + apply (move_permits w _ _ (reserving (set_health k h' s))).
  - injection Hadv as <-. by eapply (moved_outcome _ _ (Refetching item name k started partial) k h h').
Qed.

Lemma advance_moved w x st s s' : workers s !! w = Some st -> advance w x s = Some s' -> moved w st s s'.
Proof.
  intros Hw Hadv.
  destruct st as [|item name pc|item name|item name k pc|item name k|item name k|item name k
                 |item name k started|item name k started partial|];
    [| |by eapply reserving_moved|by eapply rating_moved| | |by eapply sending_moved|by eapply querying_moved| |];
    advancing Hw Hadv; destruct x as [spurious|x|tcp answer]; try discriminate Hadv.
  - destruct (queue s) as [|item queue'].
    + destruct (closed s); [|done]. injection Hadv as <-. by quietly pm_other.
    + destruct (from_ascii _); injection Hadv as <-; by quietly pm_other.
  - destruct (RateLimiter.acquire_step _ _ _ _) as [l pc']. destruct pc'; injection Hadv as <-; quietly pm_other.
  - injection Hadv as <-. unfold pacer_action. destruct (_ <? _)%nat; quietly pm_waits.
  - destruct (remove_one w (AttemptPacer.counted (pacer s))) as [c|];
      [|apply bind_Some in Hadv as (c & _ & Hadv)]; injection Hadv as <-; unfold pacer_action;
      destruct (_ <? _)%nat; quietly pm_waits.
  - apply bind_Some in Hadv as (h & Hk & Hadv). unfold on_refetch in Hadv. injection Hadv as <-.
    match goal with |- context [set_health k ?g s] =>
      apply (moved_outcome _ _ Receiving k h g); try done; [apply response_paced..| |];
      [exact (retask_clock w _ _ (set_health k g s))|apply (move_permits w _ _ (reserving (set_health k g s)))]
    end.
Qed.

(** Anything but a worker's action: only setting its rate touches a resolver's limiter. *)
Definition unmoved (a : action) s s' : Prop :=
  workers s' = workers s /\ clock s <= clock s' /\
  forall k h', resolvers s' !! k = Some h' -> exists h, resolvers s !! k = Some h /\
    ResolverHealth.attempted h' = ResolverHealth.attempted h /\
    (ResolverHealth.limiter h' = ResolverHealth.limiter h \/
     exists q, a = SetResolverRate k q /\
       RateLimiter.set_rate q (ResolverHealth.limiter h) = Some (ResolverHealth.limiter h')).

Lemma unmoved_same a s s' :
  workers s' = workers s -> clock s <= clock s' -> resolvers s' = resolvers s -> unmoved a s s'.
Proof. intros E1 E2 E3. split_and!; [done..|]. rewrite E3. intros k h' Hk. exists h'. split_and!; auto. Qed.

Lemma perform_moves a s s' : perform a s = Some s' ->
  (exists w st, workers s !! w = Some st /\ moved w st s s') \/ unmoved a s s'.
Proof.
  intros Hperf. destruct a as [w x|d|item| |seconds|r|q|k q]; simpl in Hperf.
  - left. destruct (workers s !! w) as [st|] eqn:Hw; [|unfold advance in Hperf; by rewrite Hw in Hperf].
    exists w, st. split; [done|]. by eapply advance_moved.
  - right. destruct (Z.leb_spec 0 d); [|done]. injection Hperf as <-. apply unmoved_same; try done.
    unfold clock. simpl. fold (clock s). lia.
  - right. destruct (_ && _); [|done]. injection Hperf as <-. by apply unmoved_same.
  - right. injection Hperf as <-. by apply unmoved_same.
  - right. injection Hperf as <-. by apply unmoved_same.
  - right. injection Hperf as <-. by apply unmoved_same.
  - right. apply bind_Some in Hperf as (l & _ & [= <-]). by apply unmoved_same.
  - right. apply bind_Some in Hperf as (h & Hk & Hperf). apply bind_Some in Hperf as (h1 & Hset & [= <-]).
    unfold ResolverHealth.set_rate in Hset. apply bind_Some in Hset as (l & Hl & [= <-]).
    split_and!; [done..|]. intros k' h' Hk'. unfold resolvers in Hk'. cbn in Hk'.
    destruct (decide (k' = k)) as [->|Hne].
    + rewrite list_lookup_insert_eq in Hk' by (by eapply lookup_lt_Some). injection Hk' as <-.
      exists h. split_and!; [done..|]. right. by exists q.
    + rewrite list_lookup_insert_ne in Hk' by done. exists h'. split_and!; auto.
Qed.

(** ** Limiters of reachable states *)

Record sane_limiter (now : Z) l : Prop := {
  sl_start : RateLimiter.start l <= now;
  sl_interval : 0 <= RateLimiter.interval_ns l;
  sl_next : 0 <= RateLimiter.next_ns l <= u64_max;
}.
Definition sane_stage (k : nat) st : Prop :=
  match st with Rating _ _ k' a => k' = k -> from_option (Z.le 0) True (pc_interval a) | _ => True end.

Definition sane (k : nat) s : Prop := forall h, resolvers s !! k = Some h ->
  sane_limiter (clock s) (ResolverHealth.limiter h) /\ Forall (sane_stage k) (workers s).

Lemma acquire_sane spurious now l a l' a' :
  RateLimiter.acquire_step spurious now l a = (l', a') -> sane_limiter now l ->
  from_option (Z.le 0) True (pc_interval a) ->
  sane_limiter now l' /\ from_option (Z.le 0) True (pc_interval a') /\
  RateLimiter.start l' = RateLimiter.start l /\ RateLimiter.interval_ns l' = RateLimiter.interval_ns l /\
  RateLimiter.next_ns l <= RateLimiter.next_ns l'.
Proof.
  intros E [Hs Hi Hn] Ha.
  destruct a as [|i|i current|i current seen|slot|slot until|slot t]; simpl in E, Ha;
    repeat match type of E with context [if ?b then _ else _] => destruct b eqn:?Eb end;
    injection E as <- <-; (split; [split; simpl|]); simpl; try lia; try done; unfold u64_saturating_add; try lia.
Qed.

Lemma move_sane k now l st l' st' b :
  paced_move k now l st l' st' b -> sane_limiter now l -> sane_stage k st ->
  sane_limiter now l' /\ sane_stage k st' /\ RateLimiter.start l' = RateLimiter.start l /\
  RateLimiter.interval_ns l' = RateLimiter.interval_ns l /\ RateLimiter.next_ns l <= RateLimiter.next_ns l'.
Proof.
  intros Hm Hl Hst. destruct Hm as [l item name a spurious l' a' E|l item name k' a a' Hne|l st st' k' Hd Hd'
    |l item name k'|l item name k'|l st st' Ho Ho']; try (split_and!; done).
  - destruct (acquire_sane _ _ _ _ _ _ E Hl (Hst eq_refl)) as (? & Ha & ? & ? & ?). split_and!; try done.
    destruct a'; simpl; auto.
  - split_and!; try done. by destruct a'; try done; intros ->.
  - split_and!; try done. by destruct st'.
  - split_and!; try done. by destruct st'.
Qed.

Lemma set_rate_sane now q l l' : RateLimiter.set_rate q l = Some l' -> sane_limiter now l ->
  sane_limiter now l' /\ RateLimiter.start l' = RateLimiter.start l /\ RateLimiter.next_ns l' = RateLimiter.next_ns l.
Proof.
  unfold RateLimiter.set_rate, RateLimiter.interval_for. intros E [Hs Hi Hn].
  destruct (f64_lt _ _); [|done]. injection E as <-. split_and!; try done. split; try done. apply f64_as_u64_nonneg.
Qed.

Lemma sane_later now now' l : sane_limiter now l -> now <= now' -> sane_limiter now' l.
Proof. intros [? ? ?] ?. split; lia. Qed.

Lemma perform_sane k a s s' : perform a s = Some s' -> sane k s -> sane k s'.
Proof.
  intros Hperf Hs h' Hk. destruct (perform_moves _ _ _ Hperf) as [(w & st & Hw & Ec & st' & Ew & Hr)|(Ew & Hc & Hr)].
  - destruct (Hr k h' Hk) as (h & b & Hh & Hm & _). destruct (Hs h Hh) as [Hl Hst].
    destruct (move_sane _ _ _ _ _ _ _ Hm Hl (Forall_lookup_1 _ _ _ _ Hst Hw)) as (? & ? & _).
    rewrite Ec, Ew. split; [done|by apply Forall_insert].
  - destruct (Hr k h' Hk) as (h & Hh & _ & Hset). destruct (Hs h Hh) as [Hl Hst]. rewrite Ew. split; [|done].
    apply (sane_later (clock s)); [|done]. destruct Hset as [->|(q & _ & Hset)]; [done|].
    by apply (set_rate_sane _ _ _ _ Hset).
Qed.

Lemma reachable_sane addrs config n k s0 s : initial addrs config n s0 -> rtc step s0 s -> sane k s.
Proof.
  intros ((p & alive & Hn & Ep) & _ & _ & Hw & _) Hr.
  assert (Hs0 : sane k s0).
  { intros h Hk. unfold resolvers in Hk. rewrite Ep in Hk. simpl in Hk. rewrite list_lookup_imap in Hk.
    destruct (ResolverPool.resolvers p !! k) as [h0|] eqn:Hk0; [|done]. injection Hk as <-.
    unfold ResolverPool.new in Hn. apply bind_Some in Hn as (rs & Hm & [= <-]). apply mapM_Some in Hm.
    destruct (Forall2_lookup_r _ _ _ _ _ Hm Hk0) as (addr & _ & Ha).
    unfold ResolverHealth.new in Ha. apply bind_Some in Ha as (l & Hl & [= <-]).
    unfold RateLimiter.new in Hl. apply bind_Some in Hl as (i & Hi & [= <-]).
    split; [|rewrite Hw; by apply Forall_replicate]. unfold RateLimiter.interval_for in Hi.
    destruct (f64_lt _ _); [|done]. injection Hi as <-. destruct (alive k); split; simpl; try lia; try done;
      apply f64_as_u64_nonneg. }
  clear -Hs0 Hr. induction Hr as [|s1 s2 s3 [a Ha] _ IH]; [done|]. apply IH. by eapply perform_sane.
Qed.

(** ** A window of time *)

(** The part a worker has in the window: it held the resolver when the window opened and
    still owes its query; it holds a slot granted since; it was let through with such a
    slot; or none of these. *)
Inductive role := Old | Holding (slot : Z) | Through | Clear.
Definition role_slot (r : role) : option Z := match r with Holding slot => Some slot | _ => None end.
Definition unsent (r : role) : bool := match r with Old | Through => true | _ => false end.

(** [acquire] begun since the window opened at [t0], under an interval of [i] or more. *)
Definition fresh (i t0 : Z) (a : RateLimiter.pc) : Prop :=
  match a with
  | RateLimiter.Called => True
  | RateLimiter.Looping j | RateLimiter.Loaded j _ => i <= j
  | RateLimiter.Attempt j _ seen => i <= j /\ t0 <= seen
  | _ => False
  end.

Definition fits (k : nat) (i t0 origin : Z) st (r : role) : Prop :=
  match r with
  | Old => owing st = Some k
  | Through => due st = Some k
  | Holding slot => exists item name a, st = Rating item name k a /\
      (a = RateLimiter.Claimed slot \/ a = RateLimiter.Sleeping slot (origin + slot))
  | Clear => match st with Rating _ _ k' a => k' = k -> fresh i t0 a | _ => due st <> Some k end
  end.

(** What a move of the worker does to its role. *)
Inductive role_move (i t0 elapsed : Z) l l' : role -> role -> bool -> Prop :=
| rm_stays r : role_move i t0 elapsed l l' r r false
| rm_granted slot j :
    i <= j -> t0 <= slot -> RateLimiter.next_ns l <= slot ->
    u64_saturating_add slot j <= RateLimiter.next_ns l' ->
    role_move i t0 elapsed l l' Clear (Holding slot) false
| rm_let_through slot : slot < elapsed + 1000000 -> role_move i t0 elapsed l l' (Holding slot) Through false
| rm_sent r : unsent r = true -> role_move i t0 elapsed l l' r Clear true.

Ltac clear_role := exists Clear; split; [cbn; try done; intros; lia|constructor].

(** A claim of a worker that came to the limiter since the window opened. *)
Lemma fresh_move k i t0 spurious now l item name a l' a' :
  RateLimiter.acquire_step spurious now l a = (l', a') -> fresh i t0 a -> i <= RateLimiter.interval_ns l ->
  t0 <= now - RateLimiter.start l -> now - RateLimiter.start l <= u64_max -> RateLimiter.start l <= now ->
  exists r', fits k i t0 (RateLimiter.start l) (rated item name k a') r' /\
    role_move i t0 (now - RateLimiter.start l) l l' Clear r' false.
Proof.
  intros E Hf Hi Ht Hmax Hst.
  destruct a as [|j|j current|j current seen|slot|slot until|slot t]; simpl in E, Hf; try done.
  - injection E as <- <-. clear_role.
  - injection E as <- <-. clear_role.
  - injection E as <- <-. exists Clear. split; [|constructor]. simpl. rewrite elapsed_ns_small by done. auto.
  - destruct Hf as [Hj Hs]. destruct (_ && _) eqn:Eb; injection E as <- <-.
    + apply andb_prop in Eb as [Eb%Z.eqb_eq _]. exists (Holding (Z.max current seen)). split.
      * exists item, name, (RateLimiter.Claimed (Z.max current seen)). auto.
      * apply (rm_granted _ _ _ _ _ _ j); simpl; lia.
    + clear_role.
Qed.

(** A worker with its slot sleeps or is let through, less than a millisecond early. *)
Lemma slot_move k i t0 spurious now l item name a l' a' slot :
  RateLimiter.acquire_step spurious now l a = (l', a') ->
  a = RateLimiter.Claimed slot \/ a = RateLimiter.Sleeping slot (RateLimiter.start l + slot) ->
  now - RateLimiter.start l <= u64_max -> RateLimiter.start l <= now ->
  exists r', fits k i t0 (RateLimiter.start l) (rated item name k a') r' /\
    role_move i t0 (now - RateLimiter.start l) l l' (Holding slot) r' false.
Proof.
  intros E Ha Hmax Hst. pose proof (elapsed_ns_small _ _ Hst Hmax) as He.
  destruct Ha as [-> | ->]; cbn [RateLimiter.acquire_step] in E; rewrite ?He in E.
  - destruct (Z.leb_spec slot (now - RateLimiter.start l)).
    { injection E as <- <-. exists Through. split; [done|]. apply rm_let_through. lia. }
    unfold RateLimiter.SUB_MS_SKIP_THRESHOLD_NS in E.
    destruct (Z.leb_spec 1000000 (slot - (now - RateLimiter.start l))); injection E as <- <-.
    + exists (Holding slot). split; [|constructor]. eexists item, name, _. split; [done|]. right. f_equal. lia.
    + exists Through. split; [done|]. apply rm_let_through. lia.
  - destruct (Z.leb_spec (RateLimiter.start l + slot) now); injection E as <- <-.
    + exists Through. split; [done|]. apply rm_let_through. lia.
    + exists (Holding slot). split; [|constructor]. eexists item, name, _. split; [done|]. by right.
Qed.

Lemma fits_move k i t0 now l st l' st' b r :
  paced_move k now l st l' st' b -> fits k i t0 (RateLimiter.start l) st r -> i <= RateLimiter.interval_ns l ->
  t0 <= now - RateLimiter.start l -> now - RateLimiter.start l <= u64_max -> RateLimiter.start l <= now ->
  exists r', fits k i t0 (RateLimiter.start l) st' r' /\ role_move i t0 (now - RateLimiter.start l) l l' r r' b.
Proof.
  intros Hm Hf Hi Ht Hmax Hst.
  destruct Hm as [l item name a spurious l' a' E|l item name k' a a' Hne|l st st' k' Hd Hd'
    |l item name k'|l item name k'|l st st' Ho Ho'].
  - destruct r as [|slot| |]; simpl in Hf; try done.
    + exists Old. split; [by destruct a'|constructor].
    + destruct Hf as (item' & name' & a1 & [= <- <- <-] & Ha). by apply (slot_move k i t0 _ _ _ item name _ _ _ _ E).
    + by apply (fresh_move k i t0 _ _ _ item name _ _ _ E (Hf eq_refl)).
  - exists r. split; [|constructor]. destruct r as [|slot| |]; simpl in Hf |- *; try done.
    + congruence.
    + destruct Hf as (? & ? & ? & [= _ _ ? _] & _). done.
    + destruct a'; simpl; congruence.
  - exists r. split; [|constructor]. destruct r as [|slot| |]; simpl in Hf |- *.
    + destruct st, st'; simpl in *; congruence.
    + destruct Hf as (? & ? & ? & -> & _). done.
    + congruence.
    + destruct st, st'; simpl in *; congruence.
  - destruct r as [|slot| |]; simpl in Hf.
    + injection Hf as ->. rewrite bool_decide_true by done. exists Clear. split; [done|by constructor].
    + by destruct Hf as (? & ? & ? & ? & _).
    + injection Hf as ->. rewrite bool_decide_true by done. exists Clear. split; [done|by constructor].
    + rewrite bool_decide_false by congruence. clear_role.
  - destruct r as [|slot| |]; simpl in Hf; try done; [by destruct Hf as (? & ? & ? & ? & _)|].
    clear_role.
  - exists r. split; [|constructor]. destruct r as [|slot| |]; simpl in Hf |- *.
    + congruence.
    + destruct Hf as (? & ? & ? & -> & _). done.
    + destruct st; simpl in *; congruence.
    + destruct st'; simpl in *; congruence.
Qed.

(** The window since resolver [k] had sent [a0] queries and [olds] workers held it: the
    [sent] queries since, every worker's role, the slots granted, and those let through. *)
Record window (k : nat) (i t0 a0 olds : Z) s h (sent : Z) (roles : list role)
    (gs : list RateLimiter.grant) (released : list Z) : Prop := {
  wi_length : length roles = length (workers s);
  wi_fits : forall w st r, workers s !! w = Some st -> roles !! w = Some r ->
    fits k i t0 (RateLimiter.start (ResolverHealth.limiter h)) st r;
  wi_interval : i <= RateLimiter.interval_ns (ResolverHealth.limiter h);
  wi_opened : t0 <= clock s - RateLimiter.start (ResolverHealth.limiter h);
  wi_spaced : RateLimiter.spaced gs (RateLimiter.next_ns (ResolverHealth.limiter h));
  wi_gaps : Forall (fun g => i <= RateLimiter.g_interval g) gs;
  wi_from : Forall (fun g => t0 <= RateLimiter.g_slot g) gs;
  wi_slots : omap role_slot roles ++ released ≡ₚ RateLimiter.g_slot <$> gs;
  wi_released : Forall (fun z => z < clock s - RateLimiter.start (ResolverHealth.limiter h) + 1000000) released;
  wi_count : sent + Z.of_nat (length (filter (fun r => unsent r = true) roles)) = olds + Z.of_nat (length released);
  wi_nonneg : 0 <= sent;
  wi_sent : ResolverHealth.attempted h ≡64 a0 + sent;
}.

Lemma window_move k i t0 a0 olds w st s s' h h' st' b sent roles gs released :
  window k i t0 a0 olds s h sent roles gs released -> workers s !! w = Some st ->
  clock s' = clock s -> workers s' = <[w := st']> (workers s) ->
  paced_move k (clock s) (ResolverHealth.limiter h) st (ResolverHealth.limiter h') st' b ->
  ResolverHealth.attempted h' ≡64 ResolverHealth.attempted h + sent_one b ->
  sane_limiter (clock s) (ResolverHealth.limiter h) -> sane_stage k st ->
  clock s - RateLimiter.start (ResolverHealth.limiter h) <= u64_max ->
  exists sent' roles' gs' released', window k i t0 a0 olds s' h' sent' roles' gs' released'.
Proof.
  intros [Wl Wf Wi Wo Wsp Wg Wfr Wsl Wr Wc Wn Ws] Hw Ec Ew Hm Ha Hl Hst Hmax.
  destruct (move_sane _ _ _ _ _ _ _ Hm Hl Hst) as (_ & _ & El & Ei & Hnext).
  assert (is_Some (roles !! w)) as [r Hr] by (apply lookup_lt_is_Some; rewrite Wl; by eapply lookup_lt_Some).
  destruct (fits_move _ _ _ _ _ _ _ _ _ _ Hm (Wf _ _ _ Hw Hr) Wi Wo Hmax (sl_start _ _ Hl)) as (r' & Hf' & Hrm).
  assert (Hfits : forall w2 st2 r2, workers s' !! w2 = Some st2 -> <[w := r']> roles !! w2 = Some r2 ->
    fits k i t0 (RateLimiter.start (ResolverHealth.limiter h')) st2 r2).
  { intros w2 st2 r2. rewrite Ew, El. destruct (decide (w2 = w)) as [->|Hne].
    - rewrite !list_lookup_insert_eq by (by eapply lookup_lt_Some). by intros [= <-] [= <-].
    - rewrite !list_lookup_insert_ne by done. by apply Wf. }
  assert (Hlen : length (<[w := r']> roles) = length (workers s')) by (by rewrite Ew, !length_insert).
  pose proof (count_insert (fun r => unsent r = true) roles w r r' Hr) as Hcount.
  pose proof (omap_insert_perm role_slot roles w r r' Hr) as Hslots.
  assert (Hkeep : RateLimiter.spaced gs (RateLimiter.next_ns (ResolverHealth.limiter h'))) by (by eapply spaced_weaken).
  rewrite <- El, <- Ec in *. rewrite <- Ei in Wi.
  destruct Hrm as [r|slot j Hj Ht Hlow Hup|slot Hearly|r Hu]; cbn [role_slot unsent option_list app sent_one] in *.
  - exists sent, (<[w := r]> roles), gs, released. rewrite (list_insert_id _ _ _ Hr) in *.
    split; try done. rewrite Ha, Ws. apply eq64_refl. lia.
  - exists sent, (<[w := Holding slot]> roles), (RateLimiter.mk_grant slot j :: gs), released. split; try done.
    + simpl. split; [exact Hup|]. exact (spaced_weaken _ _ _ Wsp Hlow).
    + by constructor.
    + by constructor.
    + simpl. rewrite Hslots. simpl. by constructor.
    + repeat case_decide; try done; lia.
    + rewrite Ha, Ws. apply eq64_refl. lia.
  - exists sent, (<[w := Through]> roles), gs, (slot :: released). split; try done.
    + rewrite <- Wsl, <- Permutation_middle. change (slot :: omap role_slot (<[w := Through]> roles) ++ released)
        with ((slot :: omap role_slot (<[w := Through]> roles)) ++ released). by rewrite Hslots.
    + by constructor.
    + simpl length. repeat case_decide; try done; lia.
    + rewrite Ha, Ws. apply eq64_refl. lia.
  - exists (sent + 1), (<[w := Clear]> roles), gs, released. split; try done.
    + rewrite <- Wsl. apply Permutation_app_tail. by destruct r.
    + repeat case_decide; try done; try congruence; lia.
    + lia.
    + rewrite Ha, Ws. apply eq64_refl. lia.
Qed.

(** [opened] is the instant the window opened, [origin] the limiter's own. *)
Definition windowed (k : nat) (i origin opened a0 olds : Z) s : Prop := forall h, resolvers s !! k = Some h ->
  RateLimiter.start (ResolverHealth.limiter h) = origin /\
  (clock s - origin <= u64_max ->
   exists sent roles gs released, window k i (opened - origin) a0 olds s h sent roles gs released).

Lemma perform_window k cap i origin opened a0 olds a s s' :
  f64_fin cap -> RateLimiter.interval_for cap = Some i -> resolver_capped k cap a -> perform a s = Some s' ->
  sane k s -> windowed k i origin opened a0 olds s -> windowed k i origin opened a0 olds s'.
Proof.
  intros Hf Hi Hcap Hperf Hs Hwin h' Hk.
  destruct (perform_moves _ _ _ Hperf) as [(w & st & Hw & Ec & st' & Ew & Hr)|(Ew & Hc & Hr)].
  - destruct (Hr k h' Hk) as (h & b & Hh & Hm & Ha). destruct (Hs h Hh) as [Hl Hst].
    pose proof (Forall_lookup_1 _ _ _ _ Hst Hw) as Hst1.
    destruct (move_sane _ _ _ _ _ _ _ Hm Hl Hst1) as (_ & _ & El & _). destruct (Hwin h Hh) as [Eo Hwindow].
    rewrite El, Ec. split; [done|]. intros Hmax. destruct (Hwindow Hmax) as (sent & roles & gs & released & W).
    rewrite <- Eo in Hmax.
    by apply (window_move _ _ _ _ _ _ _ _ _ _ _ _ _ _ _ _ _ W Hw Ec Ew Hm Ha Hl Hst1 Hmax).
  - destruct (Hr k h' Hk) as (h & Hh & Ha & Hset).
    assert (RateLimiter.start (ResolverHealth.limiter h') = RateLimiter.start (ResolverHealth.limiter h) /\
            RateLimiter.next_ns (ResolverHealth.limiter h') = RateLimiter.next_ns (ResolverHealth.limiter h) /\
            (i <= RateLimiter.interval_ns (ResolverHealth.limiter h) ->
             i <= RateLimiter.interval_ns (ResolverHealth.limiter h'))) as (El & En & Hint).
    { destruct Hset as [->|(q & -> & Hq)]; [done|].
      destruct (set_rate_paced _ _ _ _ _ Hf Hi (Hcap eq_refl) Hq) as (? & ? & ?). by split_and!. }
    destruct (Hwin h Hh) as [Eo Hwindow]. rewrite El. split; [done|]. intros Hmax.
    destruct (Hwindow ltac:(lia)) as (sent & roles & gs & released & W).
    exists sent, roles, gs, released. destruct W as [Wl Wf Wi Wo Wsp Wg Wfr Wsl Wr Wc Wn Ws].
    split; rewrite ?Ew, ?El, ?En, ?Ha; try done; [by apply Hint|lia|].
    eapply Forall_impl; [exact Wr|]. intros z Hz. simpl in *. lia.
Qed.

Lemma run_window k cap i origin opened a0 olds s s' :
  f64_fin cap -> RateLimiter.interval_for cap = Some i -> rtc (resolver_capped_step k cap) s s' ->
  sane k s -> windowed k i origin opened a0 olds s -> windowed k i origin opened a0 olds s'.
Proof.
  intros Hf Hi Hr. induction Hr as [|s1 s2 s3 (a & Hcap & Ha) _ IH]; [done|]. intros Hs Hw.
  apply IH; [by eapply perform_sane|by eapply perform_window].
Qed.

Definition opening_role (k : nat) st : role := if decide (owing st = Some k) then Old else Clear.

Lemma opening_count k (ws : list stage) :
  length (filter (fun r => unsent r = true) (opening_role k <$> ws))
  = length (filter (fun st => owing st = Some k) ws).
Proof.
  induction ws as [|st ws IH]; [done|]. rewrite fmap_cons, !filter_cons.
  assert (unsent (opening_role k st) = true <-> owing st = Some k)
    by (unfold opening_role; by destruct (decide (owing st = Some k))).
  repeat case_decide; simpl; rewrite ?IH; tauto.
Qed.

(** When the window opens, whoever is on the way to the resolver is [Old]. *)
Lemma window_opens k i s h :
  resolvers s !! k = Some h -> i <= RateLimiter.interval_ns (ResolverHealth.limiter h) -> sane k s ->
  windowed k i (RateLimiter.start (ResolverHealth.limiter h)) (clock s) (ResolverHealth.attempted h)
    (count_at owing k s) s.
Proof.
  intros Hk Hi Hs h' Hk'. assert (h' = h) as -> by congruence. clear Hk'. destruct (Hs h Hk) as [Hl _].
  split; [done|]. intros _. exists 0, (opening_role k <$> workers s), [], []. split; try done.
  - by rewrite length_fmap.
  - intros w st r Hw. rewrite list_lookup_fmap, Hw. intros [= <-]. unfold opening_role.
    destruct (decide (owing st = Some k)); [done|]. destruct st; simpl in *; congruence.
  - apply Hl.
  - rewrite app_nil_r. generalize (workers s). induction l as [|st ws IH]; [done|]. simpl. unfold opening_role at 1.
    by destruct (decide _).
  - rewrite opening_count. unfold count_at. simpl. lia.
  - apply eq64_refl. lia.
Qed.

Lemma owing_holding k s : count_at owing k s <= count_at holding k s.
Proof.
  apply inj_le, count_pointwise; [done|]. intros w st st' H1 H2 Ho. assert (st' = st) as -> by congruence.
  destruct st; simpl in *; congruence.
Qed.

(** Those let through had slots of the window, which are an interval apart. *)
Lemma window_count k i t0 a0 olds s h sent roles gs released :
  window k i t0 a0 olds s h sent roles gs released -> 0 < i -> 0 <= t0 ->
  let elapsed := clock s - RateLimiter.start (ResolverHealth.limiter h) in
  elapsed + 1000000 <= u64_max -> (sent - olds - 1) * i <= elapsed + 999999 - t0.
Proof.
  intros [Wl Wf Wi Wo Wsp Wg Wfr Wsl Wr Wc Wn Ws] Hi Ht elapsed Hmax. fold elapsed in Wo, Wr.
  pose proof (spaced_count t0 (elapsed + 999999) i gs _ Hi Ht ltac:(lia) Wg Wsp) as Hcount.
  assert (Hle : (length released <= length (RateLimiter.slots_within t0 (elapsed + 999999) gs))%nat).
  { rewrite <- slots_within_length. setoid_rewrite <- Wsl. rewrite filter_app, length_app.
    rewrite (filter_all _ released); [lia|]. apply Forall_forall. intros z Hz. rewrite Forall_forall in Wr.
    specialize (Wr z Hz). split; [|lia].
    assert (z ∈ RateLimiter.g_slot <$> gs) as Hin by (rewrite <- Wsl; apply elem_of_app; by right).
    apply list_elem_of_fmap in Hin as (g & -> & Hg). rewrite Forall_forall in Wfr. by apply Wfr. }
  assert (sent - olds <= Z.of_nat (length released)) by lia. nia.
Qed.

(** ** Property *)

End Pace.

(** ** Witness *)

Section PaceExamples.
Import ResolverWorker.
#[local] Existing Instance demo_errors.
#[local] Existing Instance demo_dns.
#[local] Open Scope Z_scope.

(** Two workers over one resolver, which is slowed to a thousand queries a second while
    the first of them is at its limiter, with the old interval. *)
Definition lone0 : fleet :=
  fleet0 <| reserving := ResolverPool.mk_sys
    (from_option id (ResolverPool.mk [] 0 0) (ResolverPool.new [dns_server 1 53] default_config 0))
    0 (replicate 2 ResolverPool.Idle) |>.
Definition before_window : list action :=
  [Send (item "a.example" 10); Send (item "b.example" 11); Tick 5] ++ go 12 0
  ++ [SetResolverRate 0 (f64_of_Z 1000)].
Definition slowed : fleet := from_option id lone0 (perform_all before_window lone0).
Definition in_window : list action :=
  go 6 0 ++ go 18 1 ++ [SetResolverRate 0 (f64_of_Z 500); Tick 1000000].
Definition window_end : fleet := from_option id slowed (perform_all in_window slowed).

Lemma lone0_initial : initial [dns_server 1 53] default_config 2 lone0.
Proof.
  split; [eexists _, (fun _ => true); split; vm_compute; reflexivity|].
  split_and!; vm_compute; reflexivity.
Qed.

End PaceExamples.
