(* ===== verification/Progress.v ===== *)
(** * The fleet can always finish

    As long as a query is pending some worker has a stretch that lowers [measure]
    ([improve_or_idle]): one that holds a permit if there is one, else one at the rate
    limiter, else one inside [reserve], which then finds every permit free: it settles,
    lets the sentences lapse, and its next scan takes the first active resolver. *)

From Stdlib Require Import String.
From stdpp Require Import list relations.
From S2P Require Import Prelude Float64 Extern Limiter Config Addresses Errors Health Pool Utils Dns Worker.
From S2P Require Import Fleet Reach Stretch.
#[local] Open Scope Z_scope.
#[local] Open Scope list_scope.

Section Progress.
Import ResolverWorker.
Context `{DnsTypes} {S : Type} `{HO : SemaphoreOps S} `{!Semaphore S}.
Implicit Types (s : sys (S := S)) (st : stage) (a b : ResolverPool.pc).

(** *** Alone inside [reserve] *)

(** No worker but [w] holds a permit or waits for one. *)
Definition lonely (w : nat) s : Prop :=
  forall v a, v <> w -> task v s = Some a -> ResolverPool.held a = None /\ queued a = None.

(** A stretch of a run in which only worker [w] moves, inside [reserve], to [b]. *)
Record lone (w : nat) b s s' : Prop := {
  ln_run : rtc nudge s s';
  ln_workers : workers s' = workers s;
  ln_tasks : tasks_of s' = <[w := b]> (tasks_of s);
  ln_queue : queue s' = queue s;
}.

Lemma lone_trans w b1 b2 s s1 s2 : lone w b1 s s1 -> lone w b2 s1 s2 -> lone w b2 s s2.
Proof.
  intros [R1 W1 T1 Q1] [R2 W2 T2 Q2]. split; [by etrans|congruence| |congruence].
  by rewrite T2, T1, list_insert_insert_eq.
Qed.

Lemma lone_task w a b s s' : task w s = Some a -> lone w b s s' -> task w s' = Some b.
Proof.
  intros Ha [_ _ Et _]. change (tasks_of s' !! w = Some b). rewrite Et.
  apply list_lookup_insert_eq. by eapply lookup_lt_Some.
Qed.

Lemma lone_lonely w b s s' : lonely w s -> lone w b s s' -> lonely w s'.
Proof.
  intros Hl [_ _ Et _] v a Hne Hv. apply (Hl v a Hne). change (tasks_of s' !! v = Some a) in Hv.
  by rewrite Et, list_lookup_insert_ne in Hv.
Qed.

Lemma lone_drives w st a b s s' :
  workers s !! w = Some st -> task w s = Some a -> lone w b s s' -> drives w st b s s'.
Proof.
  intros Hw Ha [R W T Q]. split; [done|by rewrite W, list_insert_id| |done]. by rewrite T.
Qed.

Lemma lone_tick w a d s : 0 <= d -> task w s = Some a -> lone w a s (ticked d s).
Proof. intros Hd Ha. split; [by apply nudge_tick|done| |done]. symmetry. by apply list_insert_id. Qed.

(** Task [w] on its way: not out of [reserve] yet. *)
Definition under_way a : bool :=
  match a with ResolverPool.Reserved _ | ResolverPool.NoneActive | ResolverPool.Idle => false | _ => true end.

Lemma advance_reserving w x item name a s :
  workers s !! w = Some (Reserving item name) -> task w s = Some a -> under_way a = true ->
  advance w (Go x) s = Some (s <| reserving := ResolverPool.run_task w a (reserving s) |>).
Proof.
  intros Hw Ha Hu. unfold advance. rewrite Hw. cbn [mbind option_bind]. rewrite Ha. cbn [mbind option_bind].
  destruct a; done.
Qed.

(** With nobody waiting, a permit given up wakes nobody. *)
Lemma lone_move w a b (q : ResolverPool.sys SocketAddress S) cap :
  permits_ok cap no_debt q -> ResolverPool.tasks q !! w = Some a -> queued a = queued b ->
  ResolverPool.held b = ResolverPool.held a \/ ResolverPool.held b = None ->
  (forall v c, v <> w -> ResolverPool.tasks q !! v = Some c -> queued c = None) -> queued b = None ->
  ResolverPool.tasks (ResolverPool.move w a b q) = <[w := b]> (ResolverPool.tasks q).
Proof.
  intros Hp Ha Hq Hh Hother Hb. destruct (move_tasks cap w a b q Hp Ha Hq Hh) as [Hl Hlook].
  apply list_eq. intros v. destruct (Hlook v) as [E|(k & E & _)]; [done|exfalso].
  destruct (decide (v = w)) as [->|Hne].
  - rewrite list_lookup_insert_eq in E by (by eapply lookup_lt_Some). simplify_eq.
  - rewrite list_lookup_insert_ne in E by done. by specialize (Hother v _ Hne E).
Qed.

Lemma lone_step cap w item name a s :
  steady cap s -> lonely w s -> workers s !! w = Some (Reserving item name) -> task w s = Some a ->
  under_way a = true -> queued a = None ->
  let '(p', b) := ResolverPool.reserve_step w (clock s) (ResolverPool.pool (reserving s)) a in
  exists s', clock s' = clock s /\ length (resolvers s') = length (resolvers s) /\
    (ResolverPool.held a = None -> lone w b s s' /\ ResolverPool.pool (reserving s') = p') /\
    (queued b = None -> lone w b s s').
Proof.
  intros Hs Hl Hw Ha Hu Hqa.
  pose proof (nudge_act w (Go false) s _ (advance_reserving w false item name a s Hw Ha Hu)) as Hrun.
  pose proof (fo_permits _ _ (sd_fleet _ _ Hs)) as Hp.
  pose proof (permits_length _ _ (run_task_permits w a (reserving s))) as Hlen.
  unfold ResolverPool.run_task in Hrun, Hlen.
  change (ResolverPool.clock (reserving s)) with (clock s) in Hrun, Hlen.
  destruct (ResolverPool.reserve_step w (clock s) (ResolverPool.pool (reserving s)) a) as [p' b] eqn:E.
  set (q := (reserving s) <| ResolverPool.pool := p' |>) in *.
  set (s' := s <| reserving := ResolverPool.move w a b q |>) in *.
  assert (Hfree : ResolverPool.held a = None -> lone w b s s' /\ ResolverPool.pool (reserving s') = p').
  { intros Hh. subst s' q. split; [split; [exact Hrun|done| |done]|];
      unfold tasks_of; cbn; unfold ResolverPool.move; by rewrite Hh. }
  exists s'. split; [exact (move_clock w a b q)|]. split; [exact Hlen|]. split; [exact Hfree|]. intros Hqb.
  destruct (ResolverPool.held a) as [k|] eqn:Hh; [|by apply Hfree].
  assert (p' = ResolverPool.pool (reserving s) /\ (ResolverPool.held b = Some k \/ ResolverPool.held b = None))
    as [-> Hb].
  { destruct a; simplify_eq/=; repeat case_match; simplify_eq/=; auto. }
  split; [exact Hrun|done| |done]. unfold tasks_of, s'. cbn.
  apply (lone_move w a b q cap); [|exact Ha|congruence|by rewrite Hh| |done].
  - subst q. by replace ((reserving s) <| ResolverPool.pool := ResolverPool.pool (reserving s) |>)
      with (reserving s) by (by destruct (reserving s)).
  - intros v c Hne Hv. by apply (Hl v c).
Qed.

(** With nobody else holding one, every permit is there for [w]. *)
Lemma lonely_available cap w a k h s :
  steady cap s -> lonely w s -> task w s = Some a -> ResolverPool.held a = None ->
  resolvers s !! k = Some h -> sem_ok (ResolverHealth.inflight h) /\ sem_available (ResolverHealth.inflight h) = cap.
Proof.
  intros Hs Hl Ha Hh Hk. destruct (po_resolver _ _ _ (fo_permits _ _ (sd_fleet _ _ Hs)) k h Hk) as (Hok & Hav & _).
  split; [done|]. unfold no_debt in Hav. enough (ResolverPool.holders k (reserving s) = 0) by lia.
  unfold ResolverPool.holders. rewrite filter_none; [done|].
  apply Forall_lookup_2. intros v c Hv Hc. destruct (decide (v = w)) as [->|Hne].
  - unfold task in Ha. congruence.
  - destruct (Hl v c Hne Hv). congruence.
Qed.

(** Actions left, at most, until a lone task is out of [reserve] or back at its entry. *)
Definition settle_rank (n : nat) a : nat :=
  match a with
  | ResolverPool.Visit _ i _ _ _ => 3 * (n - i) + 6
  | ResolverPool.CheckBench _ i _ _ _ => 3 * (n - Datatypes.S i) + 8
  | ResolverPool.TryAcquire _ i _ _ _ => 3 * (n - Datatypes.S i) + 7
  | ResolverPool.Decide _ _ _ => 5
  | ResolverPool.Asleep _ => 4
  | ResolverPool.Recheck _ => 3
  | ResolverPool.RecheckBench _ => 2
  | _ => 0
  end.

Lemma settle_closer w now (p : ResolverPool.t SocketAddress S) a :
  let n := length (ResolverPool.resolvers p) in
  in_range n a -> under_way a = true -> queued a = None -> a <> ResolverPool.Enter ->
  (forall until, a = ResolverPool.Asleep until -> until <= now) ->
  (ResolverPool.held a = None -> forall k h, ResolverPool.resolvers p !! k = Some h ->
     sem_ok (ResolverHealth.inflight h) /\ 0 < sem_available (ResolverHealth.inflight h)) ->
  let b := (ResolverPool.reserve_step w now p a).2 in
  queued b = None /\ b <> ResolverPool.Idle /\ (settle_rank n b < settle_rank n a)%nat.
Proof.
  intros n Hr Hu Hq He Hs Hav.
  destruct a as [|o i ac be wa|o i ac be wa|o i ac be wa|ac be wa|k|k|k|u|k| |]; try done;
    cbn [ResolverPool.reserve_step]; fold n; simpl in Hr.
  - destruct (Nat.ltb_spec i n); [|simpl; split_and!; done || lia].
    destruct (lookup_lt_is_Some_2 (ResolverPool.resolvers p) (ResolverPool.slot o i n)) as [h ->];
      [apply slot_lt; lia|]. destruct (ResolverHealth.is_active h); simpl; split_and!; done || lia.
  - destruct Hr as [Hn _].
    destruct (lookup_lt_is_Some_2 (ResolverPool.resolvers p) (ResolverPool.slot o i n)) as [h ->];
      [by apply slot_lt|]. destruct (ResolverHealth.is_benched now h); simpl; split_and!; done || lia.
  - destruct Hr as [Hn _].
    destruct (lookup_lt_is_Some_2 (ResolverPool.resolvers p) (ResolverPool.slot o i n)) as [h ->];
      [by apply slot_lt|]. destruct (ResolverHealth.try_acquire h); simpl; split_and!; done || lia.
  - destruct (ac =? 0); [simpl; split_and!; done || lia|].
    destruct (be =? ac); [destruct (0 <? _); simpl; split_and!; done || lia|].
    destruct wa as [k|]; [|simpl; split_and!; done || lia].
    destruct (lookup_lt_is_Some_2 (ResolverPool.resolvers p) k (Hr k eq_refl)) as [h Hh]. rewrite Hh.
    destruct (Hav eq_refl k h Hh) as [Hok Hpos].
    pose proof (sem_acquire_granted w _ Hok Hpos) as Hg.
    destruct (sem_acquire w (ResolverHealth.inflight h)) as [sem g]. simpl in Hg. subst g.
    simpl; split_and!; done || lia.
  - destruct (lookup_lt_is_Some_2 (ResolverPool.resolvers p) k Hr) as [h ->].
    destruct (ResolverHealth.is_active h); simpl; split_and!; done || lia.
  - destruct (lookup_lt_is_Some_2 (ResolverPool.resolvers p) k Hr) as [h ->].
    destruct (ResolverHealth.is_benched now h); simpl; split_and!; done || lia.
  - rewrite (proj2 (Z.leb_le u now)) by (by apply Hs). simpl; split_and!; done || lia.
Qed.

(** Out of [reserve], or at its entry. *)
Definition settled a : Prop := a = ResolverPool.Enter \/ under_way a = false /\ a <> ResolverPool.Idle.

Definition sleep_end a : Z := match a with ResolverPool.Asleep until => until | _ => 0 end.

Lemma settle cap w item name : forall m s a,
  1 <= cap -> (settle_rank (length (resolvers s)) a <= m)%nat -> steady cap s -> lonely w s ->
  workers s !! w = Some (Reserving item name) -> task w s = Some a -> queued a = None ->
  exists s' b, lone w b s s' /\ settled b /\ queued b = None.
Proof.
  induction m as [m IH] using lt_wf_ind. intros s a Hcap Hm Hs Hl Hw Ha Hq.
  assert (Hni : a <> ResolverPool.Idle) by exact (fo_tasks _ _ (sd_fleet _ _ Hs) w _ a Hw Ha).
  assert (Hstay : lone w a s s) by (split; [done|done| |done]; symmetry; by apply list_insert_id).
  destruct (under_way a) eqn:Hu; [|exists s, a; split; [done|]; split; [by right|done]].
  destruct (decide (a = ResolverPool.Enter)) as [->|He]; [exists s, ResolverPool.Enter; split; [done|]; split; [by left|done]|].
  set (d := Z.max 0 (sleep_end a - clock s)).
  pose proof (lone_tick w a d s ltac:(lia) Ha) as Hd.
  assert (Hs1 : steady cap (ticked d s)) by (eapply nudge_steady; [apply Hd|done]).
  assert (Hl1 : lonely w (ticked d s)) by (by eapply lone_lonely).
  pose proof (settle_closer w (clock (ticked d s)) (ResolverPool.pool (reserving (ticked d s))) a) as Hcl.
  pose proof (lone_step cap w item name a (ticked d s) Hs1 Hl1 Hw Ha Hu Hq) as Hst.
  destruct (ResolverPool.reserve_step _ _ _ a) as [p' b]. destruct Hst as (s' & _ & Elen & _ & Hst).
  destruct Hcl as (Hqb & _ & Hlt); [exact (Forall_lookup_1 _ _ _ _ (sp_tasks _ (sd_pool _ _ Hs)) Ha)|done..| | |].
  { intros u ->. unfold d, clock. simpl. unfold clock. lia. }
  { intros Hh k h Hk. destruct (lonely_available cap w a k h s Hs Hl Ha Hh Hk). split; [done|lia]. }
  specialize (Hst Hqb). pose proof (lone_trans _ _ _ _ _ _ Hd Hst) as Hds.
  assert (Hs' : steady cap s') by (eapply nudge_steady; [apply Hds|done]).
  destruct (IH (settle_rank (length (resolvers s')) b)) with (s := s') (a := b) as (s2 & b2 & H2 & H3); try done.
  - rewrite Elen. exact (Nat.lt_le_trans _ _ _ Hlt Hm).
  - by eapply lone_lonely.
  - by rewrite (ln_workers _ _ _ _ Hds).
  - by eapply lone_task.
  - exists s2, b2. split; [by eapply lone_trans|done].
Qed.

(** *** A scan with nobody benched *)

Definition unbenched s : Prop := Forall (fun h => ResolverHealth.is_benched (clock s) h = false) (resolvers s).

Lemma elapsed_reaches origin now m :
  origin <= now -> fits m -> exists d, 0 <= d /\ m <= elapsed_ns origin (now + d).
Proof.
  intros Hle Hm. unfold fits, elapsed_ns, wrap_u64, u64_max in *.
  set (e := (now - origin) mod u64_modulus).
  pose proof (Z.mod_pos_bound (now - origin) u64_modulus eq_refl) as He. fold e in He.
  pose proof (Z_div_mod_eq_full (now - origin) u64_modulus) as Hdiv. fold e in Hdiv.
  exists (Z.max 0 (m - e)). split; [lia|].
  replace (Z.max (now + Z.max 0 (m - e) - origin) 0) with (Z.max e m + (now - origin) / u64_modulus * u64_modulus) by lia.
  rewrite Z_mod_plus_full, Z.mod_small by lia. lia.
Qed.

Lemma latest_sentence origin (hs : list (ResolverHealth.t SocketAddress S)) :
  Forall (sound_resolver origin) hs ->
  exists m, fits m /\ Forall (fun h => ResolverHealth.benched_until h <= m) hs.
Proof.
  induction 1 as [|h hs [_ Hb] _ (m & Hm & IH)].
  - exists 0. split; [unfold fits, u64_max, u64_modulus; lia|constructor].
  - exists (Z.max (ResolverHealth.benched_until h) m). unfold fits in *. split; [lia|].
    constructor; [lia|]. eapply Forall_impl; [exact IH|]. simpl. lia.
Qed.

(** Some time later every sentence has lapsed. *)
Lemma sentences_lapse cap s : steady cap s -> exists d, 0 <= d /\ unbenched (ticked d s).
Proof.
  intros [_ [_ Hr Hc] _]. destruct (latest_sentence _ _ Hr) as (m & Hm & Hall).
  destruct (elapsed_reaches _ _ m Hc Hm) as (d & Hd & Hle). exists d. split; [done|].
  unfold unbenched. apply Forall_forall. intros h Hin. change (h ∈ resolvers s) in Hin.
  rewrite Forall_forall in Hr, Hall. destruct (Hr h Hin) as [E _]. specialize (Hall h Hin). simpl in Hall.
  unfold ResolverHealth.is_benched, ResolverHealth.now_ns. rewrite E. apply Z.ltb_ge.
  change (clock (ticked d s)) with (clock s + d). unfold clock. lia.
Qed.

Definition concluded a : Prop := (exists k, a = ResolverPool.Reserved k) \/ a = ResolverPool.NoneActive.

Section Scan.
Context (cap : Z) (w : nat) (item : WorkItem) (name : Name) (Hcap : 1 <= cap).

(** What a scan by [w] starts from: nobody else holds a permit, nobody is benched. *)
Record scanning a s : Prop := {
  sc_steady : steady cap s;
  sc_lonely : lonely w s;
  sc_stage : workers s !! w = Some (Reserving item name);
  sc_task : task w s = Some a;
  sc_unbenched : unbenched s;
}.

(** A step that holds no permit and moves none leaves the resolvers as they are. *)
Lemma scan_step a s :
  scanning a s -> under_way a = true -> queued a = None -> ResolverPool.held a = None ->
  let '(p', b) := ResolverPool.reserve_step w (clock s) (ResolverPool.pool (reserving s)) a in
  exists s', lone w b s s' /\ resolvers s' = ResolverPool.resolvers p' /\
    (ResolverPool.resolvers p' = resolvers s -> scanning b s').
Proof.
  intros [Hs Hl Hw Ha Hub] Hu Hq Hh. pose proof (lone_step cap w item name a s Hs Hl Hw Ha Hu Hq) as Hst.
  destruct (ResolverPool.reserve_step _ _ _ a) as [p' b]. destruct Hst as (s' & Ec & _ & Hst & _).
  destruct (Hst Hh) as [Hln Ep]. exists s'. split; [done|].
  assert (Er : resolvers s' = ResolverPool.resolvers p') by (unfold resolvers; by rewrite Ep).
  split; [done|]. intros Esame. split.
  - eapply nudge_steady; [apply Hln|done].
  - by eapply lone_lonely.
  - by rewrite (ln_workers _ _ _ _ Hln).
  - by eapply lone_task.
  - unfold unbenched. by rewrite Ec, Er, Esame.
Qed.

(** An active resolver that is visited is taken. *)
Lemma free_visit o i ac be wa h s :
  scanning (ResolverPool.CheckBench o i ac be wa) s ->
  resolvers s !! ResolverPool.slot o i (length (resolvers s)) = Some h ->
  exists s' b, lone w b s s' /\ concluded b.
Proof.
  intros Hsc Hh. set (k := ResolverPool.slot o i (length (resolvers s))) in *.
  pose proof (scan_step _ s Hsc eq_refl eq_refl eq_refl) as H1.
  cbn [ResolverPool.reserve_step] in H1.
  change (ResolverPool.resolvers (ResolverPool.pool (reserving s))) with (resolvers s) in H1. fold k in H1.
  rewrite Hh, (Forall_lookup_1 _ _ _ _ (sc_unbenched _ _ Hsc) Hh) in H1.
  destruct H1 as (s1 & Hl1 & Er & Hsc1). specialize (Hsc1 eq_refl). cbn in Er.
  pose proof (scan_step _ s1 Hsc1 eq_refl eq_refl eq_refl) as H2.
  cbn [ResolverPool.reserve_step] in H2.
  change (ResolverPool.resolvers (ResolverPool.pool (reserving s1))) with (resolvers s1) in H2.
  rewrite Er in H2. change (ResolverPool.resolvers (ResolverPool.pool (reserving s))) with (resolvers s) in H2.
  fold k in H2. rewrite Hh in H2. unfold ResolverHealth.try_acquire in H2.
  destruct (lonely_available cap w _ k h s (sc_steady _ _ Hsc) (sc_lonely _ _ Hsc) (sc_task _ _ Hsc) eq_refl Hh)
    as [Hok Hav].
  pose proof (sem_try_acquire_spec _ Hok) as Ht. destruct (sem_try_acquire _) as [sem|]; [|lia].
  destruct H2 as (s2 & Hl2 & _). exists s2, (ResolverPool.Reserved k).
  split; [by eapply lone_trans|left; by eexists].
Qed.

Lemma scan_from o : forall m i s,
  (length (resolvers s) - i <= m)%nat -> scanning (ResolverPool.Visit o i 0 0 None) s ->
  exists s' b, lone w b s s' /\ concluded b.
Proof.
  induction m as [m IH] using lt_wf_ind. intros i s Hm Hsc.
  pose proof (scan_step _ s Hsc eq_refl eq_refl eq_refl) as H1.
  cbn [ResolverPool.reserve_step] in H1. change (ResolverPool.resolvers (ResolverPool.pool (reserving s))) with (resolvers s) in H1.
  destruct (Nat.ltb_spec i (length (resolvers s))) as [Hi|Hi].
  2:{ destruct H1 as (s1 & Hl1 & _ & Hsc1). specialize (Hsc1 eq_refl).
      pose proof (scan_step _ s1 Hsc1 eq_refl eq_refl eq_refl) as H2. cbn in H2.
      destruct H2 as (s2 & Hl2 & _). exists s2, ResolverPool.NoneActive. split; [by eapply lone_trans|by right]. }
  set (k := ResolverPool.slot o i (length (resolvers s))) in *.
  destruct (lookup_lt_is_Some_2 (resolvers s) k) as [h Hh]; [apply slot_lt; lia|]. rewrite Hh in H1.
  destruct (ResolverHealth.is_active h) eqn:Eact.
  2:{ destruct H1 as (s1 & Hl1 & Er & Hsc1). specialize (Hsc1 eq_refl).
      destruct (IH (length (resolvers s) - Datatypes.S i)%nat ltac:(lia) (Datatypes.S i) s1) as (s2 & b & Hl2 & Hb);
        [rewrite Er; done|done|]. exists s2, b. split; [by eapply lone_trans|done]. }
  destruct H1 as (s1 & Hl1 & Er1 & Hsc1). specialize (Hsc1 eq_refl). cbn in Er1.
  destruct (free_visit o i 1 0 None h s1 Hsc1) as (s2 & b & Hl2 & Hb); [by rewrite Er1|].
  exists s2, b. split; [by eapply lone_trans|done].
Qed.

(** From the entry of [reserve]. *)
Lemma enter_concludes s : scanning ResolverPool.Enter s -> exists s' b, lone w b s s' /\ concluded b.
Proof.
  intros Hsc. pose proof (scan_step _ s Hsc eq_refl eq_refl eq_refl) as H1.
  cbn [ResolverPool.reserve_step] in H1.
  destruct (ResolverPool.resolvers (ResolverPool.pool (reserving s))) as [|h hs] eqn:E.
  - destruct H1 as (s1 & Hl1 & _). exists s1, ResolverPool.NoneActive. split; [done|by right].
  - destruct H1 as (s1 & Hl1 & _ & Hsc1). specialize (Hsc1 eq_refl).
    destruct (scan_from _ _ _ s1 (le_n _) Hsc1) as (s2 & b & Hl2 & Hb). exists s2, b.
    split; [by eapply lone_trans|done].
Qed.
End Scan.

(** A lone worker inside [reserve] gets a reservation or an answer. *)
Lemma reserve_concludes cap w item name a s :
  1 <= cap -> steady cap s -> lonely w s -> workers s !! w = Some (Reserving item name) ->
  task w s = Some a -> queued a = None -> exists s' b, lone w b s s' /\ concluded b.
Proof.
  intros Hcap Hs Hl Hw Ha Hq.
  destruct (settle cap w item name _ s a Hcap (le_n _) Hs Hl Hw Ha Hq) as (s1 & b & H1 & [->|[Hu Hi]] & Hqb).
  - assert (Hs1 : steady cap s1) by (eapply nudge_steady; [apply H1|done]).
    destruct (sentences_lapse cap s1 Hs1) as (d & Hd & Hub).
    pose proof (lone_task _ _ _ _ _ Ha H1) as Ha1.
    pose proof (lone_tick w _ d s1 Hd Ha1) as H2.
    destruct (enter_concludes cap w item name Hcap (ticked d s1)) as (s3 & b & H3 & Hb).
    + split; [by eapply nudge_steady; [apply H2|]| |by rewrite (ln_workers _ _ _ _ H2), (ln_workers _ _ _ _ H1)|done|done].
      eapply lone_lonely; [|exact H2]. by eapply lone_lonely.
    + exists s3, b. split; [|done]. eapply lone_trans; [exact H1|]. by eapply lone_trans.
  - exists s1, b. split; [done|]. destruct b; try done; [left; by eexists|by right].
Qed.

(** *** Some worker always has a stretch *)

Lemma concluded_through cap w item name a s :
  steady cap s -> workers s !! w = Some (Reserving item name) -> task w s = Some a -> concluded a ->
  exists st' b s', drives w st' b s s' /\ (rank st' b <= 6)%nat.
Proof.
  intros Hs Hw Ha Hc.
  assert (Hadv : forall s', advance w (Go false) s = Some s' -> rtc nudge s s') by apply nudge_act.
  unfold advance in Hadv. rewrite Hw in Hadv. cbn in Hadv. rewrite Ha in Hadv. cbn in Hadv.
  destruct Hc as [[k ->]| ->]; specialize (Hadv _ eq_refl).
  - exists (Rating item name k RateLimiter.Called), (ResolverPool.Reserved k). eexists.
    split; [by apply drives_plain|simpl; lia].
  - exists Receiving, ResolverPool.Idle. eexists. split; [by split|simpl; lia].
Qed.

Lemma rechecking_improves cap w item name a s :
  steady cap s -> workers s !! w = Some (Reserving item name) -> task w s = Some a ->
  (exists k, a = ResolverPool.Recheck k \/ a = ResolverPool.RecheckBench k) -> improves s.
Proof.
  intros Hs Hw Ha (k & Hk).
  pose proof (Forall_lookup_1 _ _ _ _ (sp_tasks _ (sd_pool _ _ Hs)) Ha) as Hr.
  pose proof (run_task_tasks cap w a (reserving s) (fo_permits _ _ (sd_fleet _ _ Hs)) Ha) as Ht.
  assert (Hu : under_way a = true) by (by destruct Hk as [-> | ->]).
  eapply (drives_improves cap w _ (Reserving item name) a _ s _ Hs Hw Ha).
  - split; [exact (nudge_act w _ s _ (advance_reserving w false item name a s Hw Ha Hu))| |exact Ht|done].
    cbn. by rewrite list_insert_id.
  - destruct (lookup_lt_is_Some_2 (ResolverPool.resolvers (ResolverPool.pool (reserving s))) k) as [h Hh];
      [destruct Hk as [-> | ->]; exact Hr|].
    destruct Hk as [-> | ->]; cbn [ResolverPool.reserve_step]; rewrite Hh;
      [destruct (ResolverHealth.is_active h)|destruct (ResolverHealth.is_benched _ h)]; simpl; lia.
Qed.

(** Workers that can go on whatever the others do. *)
Definition ready st a : bool :=
  match st with
  | Receiving | Stopped => false
  | Reserving _ _ =>
      match a with
      | ResolverPool.Recheck _ | ResolverPool.RecheckBench _ | ResolverPool.Reserved _ | ResolverPool.NoneActive => true
      | _ => false
      end
  | _ => true
  end.

Lemma ready_improves cap w st a s :
  steady cap s -> calm s -> Z.of_nat (length (workers s)) <= u64_max ->
  workers s !! w = Some st -> task w s = Some a -> ready st a = true -> improves s.
Proof.
  intros Hs Hc Hn Hw Ha Hr. destruct (holding st) as [k|] eqn:Hk; [by eapply holding_improves|].
  destruct st as [|item name pc|item name| | | | | | |]; try done.
  - destruct (limiting_through cap w item name pc s Hs Hw) as (s' & Hd).
    eapply drives_improves; [exact Hs|exact Hw|exact Ha|exact Hd|simpl; lia].
  - destruct a; try done;
      try (eapply rechecking_improves; [exact Hs|exact Hw|exact Ha|]; eexists; by eauto);
      (destruct (concluded_through cap w item name _ s Hs Hw Ha) as (st' & b & s' & Hd & Hle);
       [first [by right|left; by eexists]|]; eapply drives_improves; [exact Hs|exact Hw|exact Ha|exact Hd|simpl; lia]).
Qed.

(** When nobody is ready, nobody holds a permit, and so nobody waits for one. *)
Lemma nobody_ready_lonely cap s :
  1 <= cap -> steady cap s ->
  (forall v st a, workers s !! v = Some st -> task v s = Some a -> ready st a = false) ->
  forall v a, task v s = Some a -> ResolverPool.held a = None /\ queued a = None.
Proof.
  intros Hcap Hs Hnone.
  assert (Hheld : forall v a, task v s = Some a -> ResolverPool.held a = None).
  { intros v a Ha. destruct (lookup_lt_is_Some_2 (workers s) v) as [st Hst].
    { rewrite (fo_length _ _ (sd_fleet _ _ Hs)). by eapply lookup_lt_Some. }
    specialize (Hnone v st a Hst Ha). pose proof (fo_tasks _ _ (sd_fleet _ _ Hs) v st a Hst Ha) as Ht.
    destruct st; try done; simpl in Ht; subst; try done. by destruct a. }
  intros v a Ha. split; [by eapply Hheld|]. destruct (queued a) as [k|] eqn:Hq; [exfalso|done].
  assert (a = ResolverPool.Queued k) as -> by (destruct a; simplify_eq/=; done).
  pose proof (Forall_lookup_1 _ _ _ _ (sp_tasks _ (sd_pool _ _ Hs)) Ha) as Hr.
  destruct (lookup_lt_is_Some_2 (ResolverPool.resolvers (ResolverPool.pool (reserving s))) k Hr) as [h Hh].
  destruct (po_resolver _ _ _ (fo_permits _ _ (sd_fleet _ _ Hs)) k h Hh) as ([_ Hw] & Hav & _ & Hin).
  assert (ResolverPool.holders k (reserving s) = 0) as E.
  { unfold ResolverPool.holders. rewrite filter_none; [done|]. apply Forall_lookup_2. intros u c Hu Hc.
    rewrite (Hheld u c Hu) in Hc. done. }
  unfold no_debt in Hav. rewrite Hw in Hin by lia. apply Hin in Ha. by apply elem_of_nil in Ha.
Qed.

Lemma reserving_improves cap w item name s :
  1 <= cap -> steady cap s ->
  (forall v a, task v s = Some a -> ResolverPool.held a = None /\ queued a = None) ->
  workers s !! w = Some (Reserving item name) -> improves s.
Proof.
  intros Hcap Hs Hnone Hw. destruct (task_of _ _ _ _ (sd_fleet _ _ Hs) Hw) as (a & Ha & _).
  destruct (Hnone w a Ha) as [Hh Hq].
  destruct (reserve_concludes cap w item name a s Hcap Hs) as (s1 & b & H1 & Hb); [|done..|].
  { intros v c _. apply Hnone. }
  assert (Hs1 : steady cap s1) by (eapply nudge_steady; [apply H1|done]).
  destruct (concluded_through cap w item name b s1 Hs1) as (st' & b' & s2 & Hd & Hle);
    [by rewrite (ln_workers _ _ _ _ H1)|by eapply lone_task|done|].
  eapply (drives_improves cap w _ st' a b' s s2 Hs Hw Ha).
  - eapply drives_trans; [|exact Hd]. by eapply lone_drives.
  - enough (7 <= rank (Reserving item name) a)%nat by lia. destruct a; simpl; lia.
Qed.

Lemma receiving_improves cap w s :
  steady cap s -> workers s !! w = Some Receiving -> queue s <> [] -> improves s.
Proof.
  intros Hs Hw Hq. destruct (task_of _ _ _ _ (sd_fleet _ _ Hs) Hw) as (a & Ha & Et). simpl in Et. subst a.
  assert (Hgo : forall st s', rtc nudge s s' -> workers s' = <[w := st]> (workers s) -> tasks_of s' = tasks_of s ->
    queue s' = tail (queue s) -> improves s).
  { intros st s' Hr Ew Et Eq. exists s'. split; [done|]. unfold measure. rewrite Ew, Et, Eq.
    rewrite <- (list_insert_id (tasks_of s) w ResolverPool.Idle Ha) at 1. rewrite <- insert_zip_with.
    pose proof (sum_list_insert (zip_with rank (workers s) (tasks_of s)) w 0 (rank st ResolverPool.Idle)) as E.
    assert (rank st ResolverPool.Idle <= 11)%nat by (destruct st; simpl; lia).
    destruct (queue s) as [|x l]; [done|]. simpl length. simpl tail.
    rewrite lookup_zip_with, Hw in E. change (tasks_of s !! w = Some ResolverPool.Idle) in Ha. rewrite Ha in E.
    specialize (E eq_refl). lia. }
  assert (Hadv : forall s', advance w (Go false) s = Some s' -> rtc nudge s s') by apply nudge_act.
  unfold advance in Hadv. rewrite Hw in Hadv. cbn in Hadv. destruct (queue s) as [|item queue'] eqn:Eq; [done|].
  destruct (from_ascii (host (query item))) as [name|source]; specialize (Hadv _ eq_refl);
    (eapply Hgo; [exact Hadv|reflexivity..]).
Qed.

(** No query queued and none in hand. *)
Definition idle s : Prop := queue s = [] /\ Forall (fun st => working_on st = None) (workers s).

Lemma improve_or_idle cap s :
  1 <= cap -> steady cap s -> calm s -> workers s <> [] -> Z.of_nat (length (workers s)) <= u64_max ->
  idle s \/ improves s.
Proof.
  intros Hcap Hs Hc Hne Hn. pose proof (fo_length _ _ (sd_fleet _ _ Hs)) as Hlen.
  destruct (decide (Exists (fun x => ready x.1 x.2 = true) (zip (workers s) (tasks_of s)))) as [Hex|Hnot].
  { apply Exists_exists in Hex as ([st a] & Hin & Hr). apply list_elem_of_lookup_1 in Hin as [w Hw].
    apply lookup_zip_with_Some in Hw as (st' & a' & [= -> ->] & Hst & Ha). right. by eapply ready_improves. }
  assert (Hnone : forall v st a, workers s !! v = Some st -> task v s = Some a -> ready st a = false).
  { intros v st a Hst Ha. destruct (ready st a) eqn:Hr; [exfalso|done]. apply Hnot, Exists_exists.
    exists (st, a). split; [|done]. apply (list_elem_of_lookup_2 _ v). rewrite lookup_zip_with, Hst. simpl.
    change (tasks_of s !! v = Some a) in Ha. by rewrite Ha. }
  pose proof (nobody_ready_lonely cap s Hcap Hs Hnone) as Hfree.
  destruct (decide (Forall (fun st => working_on st = None) (workers s))) as [Hall|Hsome].
  - destruct (decide (queue s = [])) as [Hq|Hq]; [left; by split|right].
    destruct (workers s) as [|st ws] eqn:Ew; [done|].
    assert (Hw : workers s !! 0%nat = Some st) by (by rewrite Ew).
    apply Forall_cons in Hall as [Hst _]. destruct st; try done; [by eapply receiving_improves|].
    destruct (fo_stopped _ _ (sd_fleet _ _ Hs)); [rewrite Ew; by left|done].
  - right. apply not_Forall_Exists in Hsome; [|intros x; apply _]. apply Exists_exists in Hsome as (st & Hin & Hst).
    apply list_elem_of_lookup_1 in Hin as [w Hw].
    destruct (task_of _ _ _ _ (sd_fleet _ _ Hs) Hw) as (a & Ha & _). specialize (Hnone w st a Hw Ha).
    destruct st; simpl in Hst, Hnone; try done. by eapply reserving_improves.
Qed.

(** *** Whole runs *)

Lemma nudge_acts s s' : rtc nudge s s' -> exists acts, Forall helpful acts /\ perform_all acts s = Some s'.
Proof.
  induction 1 as [s|s1 s2 s3 (x & Hx & Hp) _ (acts & Ha & E)]; [by exists []|].
  exists (x :: acts). split; [by constructor|]. simpl. by rewrite Hp.
Qed.

Lemma perform_workers cap x s s' : steady cap s -> perform x s = Some s' -> length (workers s') = length (workers s).
Proof.
  intros Hs Hp. destruct x as [w x|d|item| |seconds|r|q|k q]; simpl in Hp.
  - destruct (advance_pacer w x s s' (pw_pacer _ (sd_paced _ _ Hs)) Hp) as (st & st' & _ & -> & _).
    by rewrite length_insert.
  - destruct (0 <=? d); [|done]. by injection Hp as <-.
  - destruct (_ && _); [|done]. by injection Hp as <-.
  - by injection Hp as <-.
  - by injection Hp as <-.
  - by injection Hp as <-.
  - by apply bind_Some in Hp as (l & _ & [= <-]).
  - apply bind_Some in Hp as (h & _ & Hp). by apply bind_Some in Hp as (h' & _ & [= <-]).
Qed.

Lemma run_workers cap s s' : rtc step s s' -> steady cap s -> length (workers s') = length (workers s).
Proof.
  induction 1 as [|s1 s2 s3 [x Hx] _ IH]; [done|]. intros Hs.
  rewrite IH by (by eapply perform_steady). by eapply perform_workers.
Qed.

Lemma becomes_idle cap : forall m s,
  (measure s <= m)%nat -> 1 <= cap -> steady cap s -> calm s -> workers s <> [] ->
  Z.of_nat (length (workers s)) <= u64_max -> exists s', rtc nudge s s' /\ idle s'.
Proof.
  induction m as [m IH] using lt_wf_ind. intros s Hm Hcap Hs Hc Hne Hn.
  destruct (improve_or_idle cap s Hcap Hs Hc Hne Hn) as [Hi|(s1 & H1 & Hlt)]; [by exists s|].
  pose proof (run_workers cap s s1 (nudge_step _ _ H1) Hs) as Hlen.
  destruct (IH (measure s1) ltac:(lia) s1) as (s2 & H2 & Hi); [lia|done|by eapply nudge_steady| |..].
  - by apply (nudge_frame s s1 H1).
  - intros E. rewrite E in Hlen. by destruct (workers s).
  - by rewrite Hlen.
  - exists s2. split; [by etrans|done].
Qed.

Lemma no_items (ws : list stage) : Forall (fun st => working_on st = None) ws -> ws ≫= in_hand = [].
Proof.
  induction 1 as [|st ws Hst _ IH]; [done|].
  change (in_hand st ++ (ws ≫= in_hand) = []). rewrite IH. unfold in_hand. by rewrite Hst.
Qed.

End Progress.

(** ** Witness *)

Section ProgressExamples.
Import ResolverWorker.
#[local] Existing Instance demo_errors.
#[local] Existing Instance demo_dns.

(** Halfway through the schedule of [Worker], with an attempt rate just set. *)
Definition braked : fleet := from_option id fleet0 (perform_all (schedule ++ [SetAttemptRate (Some (f64_of_Z 1))]) fleet0).

End ProgressExamples.
