(* ===== verification/Calls.v ===== *)
(** * Calls of the client, answered by the fleet

    The client of [Client] and the fleet of [Worker] together: any number of calls of
    [resolve_full], each between two of its waits, put their queries on the fleet's queue
    and take its answers, while the workers, the clock and the controller's rate changes go
    on.  [answered_calls] says where every result comes from, [calls_finish] that every
    call can always come to its end. *)

From Stdlib Require Import String.
From stdpp Require Import list relations.
From S2P Require Import Prelude Float64 Extern Limiter Config Addresses Errors Cache Health Pool Utils Dns Worker.
From S2P Require Import Fleet Reach Stretch Progress Client.
#[local] Open Scope Z_scope.
#[local] Open Scope list_scope.

Module Calls.
Section Calls.
Import ResolverWorker BlastDNSClient.
Context `{DnsTypes} {S L : Type} `{SemaphoreOps S} `{LruOps Query (SimpleCache.CacheEntry DnsResponse) L}.
Abbreviation response := (result DnsResponse BlastDNSError).
Abbreviation fleet_state := (ResolverWorker.sys (S := S)).

(** Where a call of [resolve_full] stands.  [Abandoned] is a future that was dropped. *)
Inductive pc :=
| LookingUp
| Enqueuing (attempt : nat)
| Awaiting (attempt responder : nat)
| Concluding (v : verdict) (enqueued : nat)
| Returned (r : response) (enqueued : nat)
| Panicked
| Abandoned.

Record call := mk_call { asked : QuerySpec; at_pc : pc }.

(** [issued] makes the one-shot channels: each has an identity of its own. *)
Record sys := mk_sys {
  fleet : fleet_state;
  shared_state : shared L;
  calls : list call;
  issued : nat
}.
#[global] Instance sys_settable : Settable sys := fun s =>
  mk_sys (fleet s) (shared_state s) (calls s) (issued s).

Definition attempts (config : BlastDNSConfig) : Z := u64_saturating_add (max_retries config) 1.

(** The body of the loop after the queue, and on to the next attempt or out of it. *)
Definition after (config : BlastDNSConfig) (attempt : nat) (d : delivery) : pc :=
  let next := if Z.of_nat attempt + 1 <? attempts config
              then Enqueuing (Datatypes.S attempt) else Concluding RanOut (Datatypes.S attempt) in
  match d with
  | QueueShut => Concluding Shut attempt
  | _ =>
      match (match d with Delivered r => r | _ => Err WorkerDropped end) with
      | Ok resp =>
          if negb (answers_the_question resp) && (Z.of_nat attempt + 1 <? attempts config)
          then next else Concluding (Settled resp) (Datatypes.S attempt)
      | Err err =>
          if (Z.of_nat attempt + 1 =? attempts config) || negb (is_retryable err)
          then Concluding (GaveUp err) (Datatypes.S attempt) else next
      end
  end.

(** What the one-shot channel [id] has received. *)
Definition reply_of (id : nat) (f : fleet_state) : option response :=
  snd <$> head (filter (fun r : reply => r.1 = id) (replies f)).

Definition goto_pc (c : nat) (q : QuerySpec) (p : pc) (s : sys) : sys :=
  s <| calls := <[c := mk_call q p]> (calls s) |>.

(** The next action of call [c]; [None] when it has to wait. *)
Definition advance (config : BlastDNSConfig) (c : nat) (s : sys) : option sys :=
  x ← calls s !! c;
  let q := asked x in
  let now := clock (fleet s) in
  match at_pc x with
  | LookingUp =>
      let '(cache', hit) := look_up (host q) (record_type q) now (sh_cache (shared_state s)) in
      Some (goto_pc c q (match hit with Some resp => Returned (Ok resp) 0 | None => Enqueuing 0 end)
              (s <| shared_state := (shared_state s) <| sh_cache := cache' |> |>))
  | Enqueuing attempt =>
      if closed (fleet s) then Some (goto_pc c q (after config attempt QueueShut) s)
      else
        f ← ResolverWorker.perform (Send (ResolverWorker.new q (issued s))) (fleet s);
        Some (goto_pc c q (Awaiting attempt (issued s)) (s <| fleet := f |> <| issued := Datatypes.S (issued s) |>))
  | Awaiting attempt id =>
      r ← reply_of id (fleet s); Some (goto_pc c q (after config attempt (Delivered r)) s)
  | Concluding v enqueued =>
      match conclude (host q) (record_type q) now v (shared_state s) with
      | Some (sh, r) => Some (goto_pc c q (Returned r enqueued) (s <| shared_state := sh |>))
      | None => Some (goto_pc c q Panicked s)
      end
  | _ => None
  end.

Inductive action :=
| Begin (host : text) (record_type : RecordType)
| Call (c : nat)
| Abandon (c : nat)
| OfFleet (a : ResolverWorker.action).

Definition perform (config : BlastDNSConfig) (a : action) (s : sys) : option sys :=
  match a with
  | Begin host rt =>
      Some (s <| calls := calls s ++ [mk_call (mk_query (prepare_host host rt) rt) LookingUp] |>)
  | Call c => advance config c s
  | Abandon c =>
      x ← calls s !! c;
      match at_pc x with
      | Returned _ _ | Panicked | Abandoned => None
      | _ => Some (goto_pc c (asked x) Abandoned s)
      end
  | OfFleet (Send _) => None
  | OfFleet a => f ← ResolverWorker.perform a (fleet s); Some (s <| fleet := f |>)
  end.

Definition step (config : BlastDNSConfig) (s s' : sys) : Prop := exists a, perform config a s = Some s'.

Fixpoint perform_all (config : BlastDNSConfig) (acts : list action) (s : sys) : option sys :=
  match acts with
  | [] => Some s
  | a :: acts' => s' ← perform config a s; perform_all config acts' s'
  end.

(** A client that was just set going: the fleet of [ensure_workers], no calls yet. *)
Definition initial (addrs : list SocketAddress) (config : BlastDNSConfig) (s : sys) : Prop :=
  ResolverWorker.initial addrs config (Z.to_nat (Z.max (max_concurrency config) 1)) (fleet s) /\
  capacity (fleet s) = Z.max (max_concurrency config) 1 /\ calls s = [].

(** Calls that ended. *)
Definition over (p : pc) : bool :=
  match p with Returned _ _ | Panicked | Abandoned => true | _ => false end.
End Calls.
Arguments sys {_ _} S L.
End Calls.

(** ** What the loop of attempts does *)

Section Deliveries.
Import ResolverWorker BlastDNSClient Calls.
Context `{DnsTypes}.
Abbreviation response := (result DnsResponse BlastDNSError).

(** Answers in the order of the attempts, as [attempt_loop] wants them: then the queue is shut. *)
Definition delivered (rs : list reply) (i : nat) : delivery :=
  match rs !! i with Some r => Delivered r.2 | None => QueueShut end.

(** What a verdict makes of the call. *)
Definition verdict_result (v : verdict) : response :=
  match v with
  | Settled resp => Ok resp
  | Shut => Err QueueClosed
  | GaveUp err => Err err
  | RanOut => Err WorkerDropped
  end.

Lemma after_spec config attempt d :
  Z.of_nat attempt < attempts config ->
  after config attempt d =
    if retried d && (Z.of_nat attempt + 1 <? attempts config) then Enqueuing (Datatypes.S attempt)
    else Concluding (verdict_of d) (enqueued_by d attempt).
Proof.
  intros Ha. unfold after. destruct d as [| |[resp|err]]; simpl; try done.
  - destruct (Z.eqb_spec (Z.of_nat attempt + 1) (attempts config)), (Z.ltb_spec (Z.of_nat attempt + 1) (attempts config));
      simpl; done || lia.
  - destruct (answers_the_question resp), (_ <? _); done.
  - destruct (Z.eqb_spec (Z.of_nat attempt + 1) (attempts config)), (Z.ltb_spec (Z.of_nat attempt + 1) (attempts config)),
      (is_retryable err); simpl; done || lia.
Qed.

(** The loop ends on the first reply that is final. *)
Lemma run_attempts_at config reply j :
  Z.of_nat j < attempts config -> (forall i, (i < j)%nat -> retried (reply i) = true) ->
  retried (reply j) = false \/ Z.of_nat j + 1 = attempts config ->
  run_attempts config reply = (verdict_of (reply j), enqueued_by (reply j) j).
Proof.
  intros Hj Hb Hf. unfold run_attempts. fold (attempts config).
  destruct (attempt_loop_spec reply (Z.to_nat (attempts config)) 0 ltac:(lia)) as (j' & Hj' & Hb' & Hf' & E).
  cbn [Nat.add] in E. rewrite Z2Nat.id in E by lia. rewrite E.
  enough (j' = j) as -> by done.
  destruct (lt_eq_lt_dec j' j) as [[Hlt|?]|Hlt]; [|done|].
  - specialize (Hb j' Hlt). destruct Hf'; [congruence|lia].
  - specialize (Hb' j ltac:(lia)). destruct Hf; [congruence|lia].
Qed.
End Deliveries.

(** ** What the fleet keeps *)

Section FleetGrows.
Import ResolverWorker.
Context `{DnsTypes} {S : Type} `{HO : SemaphoreOps S}.
Implicit Types f : ResolverWorker.sys (S := S).

(** The history only grows, the queue keeps its capacity, and only [Send] accepts. *)
Record grows f f' : Prop := {
  gr_accepted : prefix (accepted f) (accepted f');
  gr_replies : prefix (replies f) (replies f');
  gr_capacity : capacity f' = capacity f;
}.

#[global] Instance grows_refl : Reflexive grows.
Proof. by split. Qed.
#[global] Instance grows_trans : Transitive grows.
Proof. intros f1 f2 f3 [A1 R1 C1] [A2 R2 C2]. split; [by etrans|by etrans|congruence]. Qed.

Lemma same_grows f f' :
  accepted f' = accepted f -> replies f' = replies f -> capacity f' = capacity f -> grows f f'.
Proof. intros Ea Er Ec. by split; rewrite ?Ea, ?Er. Qed.

Lemma advance_grows w x f f' : ResolverWorker.advance w x f = Some f' -> grows f f'.
Proof.
  intros Hadv. unfold ResolverWorker.advance in Hadv. apply bind_Some in Hadv as (st & _ & Hadv).
  destruct st, x; try discriminate Hadv; cbn in Hadv;
    try (apply bind_Some in Hadv as (? & _ & Hadv)); repeat case_match; simplify_eq;
    try (apply bind_Some in Hadv as (? & _ & Hadv)); simplify_eq; rewrite ?pacer_action_stage;
    try (by apply same_grows); try (split; cbn; [done|by eexists|done]).
Qed.

Lemma perform_grows a f f' : ResolverWorker.perform a f = Some f' -> grows f f'.
Proof.
  intros Hp. destruct a as [w x|d|item| |seconds|r|q|k q]; simpl in Hp.
  - by eapply advance_grows.
  - destruct (0 <=? d); [|done]. injection Hp as <-. by apply same_grows.
  - destruct (_ && _); [|done]. injection Hp as <-. split; cbn; [by eexists|done|done].
  - injection Hp as <-. by apply same_grows.
  - injection Hp as <-. by apply same_grows.
  - injection Hp as <-. by apply same_grows.
  - apply bind_Some in Hp as (l & _ & [= <-]). by apply same_grows.
  - apply bind_Some in Hp as (h & _ & Hp). apply bind_Some in Hp as (h' & _ & [= <-]). by apply same_grows.
Qed.

Lemma perform_accepts a f f' : ResolverWorker.perform a f = Some f' -> (forall item, a <> Send item) ->
  accepted f' = accepted f.
Proof.
  intros Hp Hns. destruct a as [w x|d|item| |seconds|r|q|k q]; simpl in Hp.
  - by apply (advance_frame w x).
  - destruct (0 <=? d); [|done]. by injection Hp as <-.
  - by destruct (Hns item).
  - by injection Hp as <-.
  - by injection Hp as <-.
  - by injection Hp as <-.
  - by apply bind_Some in Hp as (l & _ & [= <-]).
  - apply bind_Some in Hp as (h & _ & Hp). by apply bind_Some in Hp as (h' & _ & [= <-]).
Qed.

Lemma nudge_grows f f' : rtc nudge f f' -> grows f f'.
Proof.
  induction 1 as [|f1 f2 f3 (x & _ & Hx) _ IH]; [done|]. transitivity f2; [by eapply perform_grows|done].
Qed.
End FleetGrows.

(** ** The story of every call *)

Section CallsProofs.
Import ResolverWorker BlastDNSClient Calls.
Context `{DnsTypes} {S L : Type} `{HO : SemaphoreOps S} `{!Semaphore S}.
Context `{LruOps Query (SimpleCache.CacheEntry DnsResponse) L}.
Context (config : BlastDNSConfig) (Hretries : (0 <= max_retries config <= u64_max)%Z).
Implicit Types (f : ResolverWorker.sys (S := S)) (s : Calls.sys S L).

(** Replies of the fleet, each to a query of its own for the question [q]. *)
Record served f (q : QuerySpec) (rs : list reply) : Prop := {
  sv_replies : Forall (fun r => r ∈ replies f /\ mk_item q r.1 ∈ accepted f) rs;
  sv_apart : NoDup rs.*1;
}.

(** What brought a call to where it stands. *)
Definition story f (q : QuerySpec) (p : Calls.pc) : Prop :=
  match p with
  | Enqueuing attempt | Awaiting attempt _ =>
      exists rs, length rs = attempt /\ served f q rs /\ Z.of_nat attempt < attempts config /\
        (forall i, (i < attempt)%nat -> retried (delivered rs i) = true) /\
        match p with Awaiting _ id => (id ∉ rs.*1) /\ mk_item q id ∈ accepted f | _ => True end
  | Concluding v enqueued =>
      exists rs, length rs = enqueued /\ served f q rs /\ run_attempts config (delivered rs) = (v, enqueued)
  | Returned r enqueued =>
      enqueued = 0%nat /\ (exists resp, r = Ok resp) \/
      exists rs v, length rs = enqueued /\ served f q rs /\
        run_attempts config (delivered rs) = (v, enqueued) /\ r = verdict_result v
  | _ => True
  end.

Record told (cap : Z) s : Prop := {
  td_fleet : steady cap (fleet s);
  td_fresh : Forall (fun it => (responder it < issued s)%nat) (accepted (fleet s));
  td_unique : NoDup (ids (accepted (fleet s)));
  td_calls : Forall (fun x => story (fleet s) (asked x) (at_pc x)) (calls s);
}.

Lemma attempts_positive : 1 <= attempts config.
Proof. unfold attempts, u64_saturating_add, u64_max, u64_modulus in *. lia. Qed.

Lemma served_grows f f' q rs : grows f f' -> served f q rs -> served f' q rs.
Proof.
  intros [[l Ea] [l' Er] _] [Hr Hn]. split; [|done]. eapply Forall_impl; [exact Hr|].
  intros r [K1 K2]. rewrite Ea, Er, !elem_of_app. auto.
Qed.

Lemma story_grows f f' q p : grows f f' -> story f q p -> story f' q p.
Proof.
  intros Hg. destruct p as [|a|a id|v n|r n| |]; simpl; try done.
  - intros (rs & E & Hs & H'). exists rs. split; [done|]. split; [by eapply served_grows|done].
  - intros (rs & E & Hs & Ha & Ht & Hid & Hin). exists rs. split; [done|]. split; [by eapply served_grows|].
    split_and!; try done. destruct (gr_accepted _ _ Hg) as [l ->]. apply elem_of_app. by left.
  - intros (rs & E & Hs & H'). exists rs. split; [done|]. split; [by eapply served_grows|done].
  - intros [?|(rs & v & E & Hs & H')]; [by left|right]. exists rs, v. split; [done|].
    split; [by eapply served_grows|done].
Qed.

Lemma delivered_last rs r : delivered (rs ++ [r]) (length rs) = Delivered r.2.
Proof. unfold delivered. by rewrite lookup_app_r, Nat.sub_diag by done. Qed.
Lemma delivered_before rs r i : (i < length rs)%nat -> delivered (rs ++ [r]) i = delivered rs i.
Proof. intros Hi. unfold delivered. by rewrite lookup_app_l. Qed.

(** The queue is shut, or an answer arrived: the story goes on. *)
Lemma story_shut f q attempt :
  story f q (Enqueuing attempt) -> story f q (after config attempt QueueShut).
Proof.
  intros (rs & <- & Hs & Ha & Ht & _). exists rs. split; [done|]. split; [done|].
  assert (E : delivered rs (length rs) = QueueShut) by (unfold delivered; by rewrite lookup_ge_None_2).
  rewrite (run_attempts_at config _ (length rs) Ha Ht); [by rewrite E|left; by rewrite E].
Qed.

Lemma story_answer f q attempt id r :
  story f q (Awaiting attempt id) -> (id, r) ∈ replies f -> story f q (after config attempt (Delivered r)).
Proof.
  intros (rs & <- & Hs & Ha & Ht & Hid & Hin) Hr. rewrite after_spec by done.
  set (rs' := rs ++ [((id, r) : reply)]).
  assert (Hs' : served f q rs').
  { destruct Hs as [K1 K2]. split; [apply Forall_app; split; [done|]; constructor; [done|constructor]|].
    unfold rs'. rewrite fmap_app. apply NoDup_app. split; [done|]. split; [|apply NoDup_singleton].
    intros v Hv ->%list_elem_of_singleton. done. }
  assert (Hlen : length rs' = Datatypes.S (length rs)) by (unfold rs'; rewrite length_app; simpl; lia).
  assert (Ht' : forall i, (i < length rs)%nat -> retried (delivered rs' i) = true)
    by (intros i Hi; unfold rs'; rewrite delivered_before by done; by apply Ht).
  assert (El : delivered rs' (length rs) = Delivered r) by apply (delivered_last rs (id, r)).
  clearbody rs'. destruct (retried (Delivered r) && _) eqn:Eb.
  - apply andb_true_iff in Eb as [Eb Hlt]. apply Z.ltb_lt in Hlt. exists rs'. split; [done|].
    split; [done|]. split; [lia|]. split; [|done]. intros i Hi.
    destruct (decide (i = length rs)) as [->|Hne]; [by rewrite El|]. apply Ht'. lia.
  - exists rs'. split; [done|]. split; [done|].
    rewrite (run_attempts_at config _ (length rs) Ha Ht'); [by rewrite El|]. rewrite El.
    apply andb_false_iff in Eb as [Eb|Eb]; [by left|right]. apply Z.ltb_ge in Eb. lia.
Qed.

Lemma reply_of_in id f r : reply_of id f = Some r -> (id, r) ∈ replies f.
Proof.
  unfold reply_of. intros E. apply fmap_Some in E as ([id' r'] & Hh & ->).
  destruct (filter _ (replies f)) as [|x l] eqn:Ef; [done|]. injection Hh as ->.
  assert (Hin : (id', r') ∈ filter (fun x : reply => x.1 = id) (replies f)) by (rewrite Ef; by left).
  apply list_elem_of_filter in Hin as [<- Hin]. done.
Qed.

Lemma conclude_result host rt now v (sh sh' : shared L) r :
  conclude host rt now v sh = Some (sh', r) -> r = verdict_result v.
Proof.
  destruct v as [resp| |err|]; simpl; intros Hc.
  - by apply bind_Some in Hc as (c & _ & [= _ <-]).
  - by injection Hc.
  - by destruct (is_congestion_evidence err); injection Hc.
  - by injection Hc.
Qed.

(** One call moves on; the fleet may have grown under the others. *)
Lemma told_goto cap c q p s s' :
  told cap s -> calls s' = <[c := mk_call q p]> (calls s) -> grows (fleet s) (fleet s') ->
  steady cap (fleet s') -> Forall (fun it => (responder it < issued s')%nat) (accepted (fleet s')) ->
  NoDup (ids (accepted (fleet s'))) -> story (fleet s') q p -> told cap s'.
Proof.
  intros [Hf Hi Hu Hc] Ec Hg Hf' Hi' Hu' Hp. split; [done|done|done|]. rewrite Ec. apply Forall_insert; [|done].
  eapply Forall_impl; [exact Hc|]. intros x. by apply story_grows.
Qed.

Lemma told_fleet cap f s :
  told cap s -> grows (fleet s) f -> accepted f = accepted (fleet s) -> steady cap f ->
  told cap (s <| fleet := f |>).
Proof.
  intros [Hf Hi Hu Hc] Hg Ea Hf'. split; cbn; [done|by rewrite Ea|by rewrite Ea|].
  eapply Forall_impl; [exact Hc|]. intros x. by apply story_grows.
Qed.

Lemma send_told cap q s f :
  told cap s -> ResolverWorker.perform (Send (ResolverWorker.new q (issued s))) (fleet s) = Some f ->
  grows (fleet s) f /\ steady cap f /\ accepted f = accepted (fleet s) ++ [ResolverWorker.new q (issued s)] /\
  Forall (fun it => (responder it < Datatypes.S (issued s))%nat) (accepted f) /\ NoDup (ids (accepted f)).
Proof.
  intros [Hf Hi Hu Hc] Hp. split; [by eapply perform_grows|]. split; [by eapply perform_steady|].
  simpl in Hp. destruct (_ && _); [|done]. injection Hp as <-. cbn. split; [done|].
  split.
  - apply Forall_app. split; [|constructor; [simpl; lia|constructor]].
    eapply Forall_impl; [exact Hi|]. simpl. lia.
  - unfold ids. rewrite fmap_app. apply NoDup_app. split; [done|]. split; [|apply NoDup_singleton].
    intros v Hv ->%list_elem_of_singleton. apply list_elem_of_fmap in Hv as (it & E & Hin).
    rewrite Forall_forall in Hi. specialize (Hi it Hin). simpl in E. lia.
Qed.

Lemma advance_told cap c s s' : told cap s -> Calls.advance config c s = Some s' -> told cap s'.
Proof.
  intros Hs Hadv. unfold Calls.advance in Hadv. apply bind_Some in Hadv as ([q p] & Hc & Hadv).
  cbn [asked Calls.at_pc] in Hadv. pose proof Hs as [Hf Hi Hu Hcs].
  pose proof (Forall_lookup_1 _ _ _ _ Hcs Hc) as Hp. cbn [asked Calls.at_pc] in Hp.
  destruct p as [|a|a id|v n|r n| |]; try discriminate Hadv.
  - destruct (look_up _ _ _ _) as [cache' hit]. injection Hadv as <-.
    eapply (told_goto cap c q _ s); try done. destruct hit as [resp|]; [left; by eauto|].
    exists []. split; [done|]. split; [split; constructor|]. split; [pose proof attempts_positive; simpl; lia|].
    split; [intros i Hi'; lia|done].
  - destruct (closed (fleet s)).
    + injection Hadv as <-. eapply (told_goto cap c q _ s); try done. by apply story_shut.
    + apply bind_Some in Hadv as (f & Hsend & [= <-]).
      destruct (send_told cap q s f Hs Hsend) as (Hg & Hf' & Ea & Hi' & Hu').
      eapply (told_goto cap c q _ s); try done. destruct Hp as (rs & E & Hsv & Ha & Ht & _).
      exists rs. split; [done|]. split; [by eapply served_grows|]. split; [done|]. split; [done|]. cbn. rewrite Ea. split.
      * intros Hin. apply list_elem_of_fmap in Hin as (x & Ex & Hin).
        destruct Hsv as [K1 _]. rewrite Forall_forall in K1. destruct (K1 x Hin) as [_ Hacc].
        rewrite Forall_forall in Hi. specialize (Hi _ Hacc). simpl in Hi. lia.
      * apply elem_of_app. right. by left.
  - apply bind_Some in Hadv as (r & Hr & [= <-]). eapply (told_goto cap c q _ s); try done.
    apply (story_answer _ _ _ id); [done|by apply reply_of_in].
  - destruct (conclude _ _ _ _ _) as [[sh r]|] eqn:Ec; injection Hadv as <-;
      (eapply (told_goto cap c q _ s); try done).
    destruct Hp as (rs & E & Hsv & Hrun). right. exists rs, v. split_and!; try done.
    by eapply conclude_result.
Qed.

Lemma perform_told cap a s s' : told cap s -> Calls.perform config a s = Some s' -> told cap s'.
Proof.
  intros Hs Hp. destruct a as [host rt|c|c|a]; simpl in Hp.
  - injection Hp as <-. destruct Hs as [Hf Hi Hu Hc]. split; [done|done|done|]. cbn.
    apply Forall_app. split; [done|]. by repeat constructor.
  - by eapply advance_told.
  - apply bind_Some in Hp as (x & Hc & Hp). destruct Hs as [Hf Hi Hu Hcs].
    destruct (Calls.at_pc x); try done; injection Hp as <-; by eapply (told_goto cap c _ _ s).
  - assert (Hfl : (exists item, a = Send item) \/
                  (forall item, a <> Send item) /\ exists f, ResolverWorker.perform a (fleet s) = Some f /\ s' = s <| fleet := f |>).
    { destruct a; (by left; eexists) || (right; split; [done|]; apply bind_Some in Hp as (f & Hf & [= <-]); by eexists). }
    destruct Hfl as [[item ->]|(Hns & f & Hf & ->)]; [done|].
    apply (told_fleet cap f s Hs); [by eapply perform_grows|by eapply perform_accepts|].
    eapply perform_steady; [apply Hs|done].
Qed.

Lemma initial_told addrs s :
  Calls.initial addrs config s -> told (Z.max (max_inflight_per_resolver config) 1) s.
Proof.
  intros (Hi & _ & Hc). pose proof (initial_steady _ _ _ _ Hi) as Hs.
  destruct Hi as (_ & _ & _ & _ & _ & Ea & _). split; [done|rewrite Ea; constructor|rewrite Ea; constructor|].
  rewrite Hc. constructor.
Qed.

Lemma reachable_told addrs s0 s :
  Calls.initial addrs config s0 -> rtc (Calls.step config) s0 s ->
  told (Z.max (max_inflight_per_resolver config) 1) s.
Proof.
  intros Hi Hrun. pose proof (initial_told _ _ Hi) as Ht. clear Hi.
  induction Hrun as [|s1 s2 s3 [a Ha] _ IH]; [done|]. apply IH. by eapply perform_told.
Qed.

Lemma run_attempts_bound reply v n : run_attempts config reply = (v, n) -> Z.of_nat n <= attempts config.
Proof.
  pose proof attempts_positive. unfold run_attempts. fold (attempts config). intros E.
  destruct (attempt_loop_spec reply (Z.to_nat (attempts config)) 0 ltac:(lia)) as (j & Hj & _ & _ & E').
  cbn [Nat.add] in E'. rewrite Z2Nat.id in E' by lia. rewrite E' in E. injection E as _ <-.
  destruct (reply j); simpl; lia.
Qed.

(** C2: every result comes from the fleet.  However calls, workers, ticks and rate changes
    interleave, a call that returned either found its answer in the cache, having enqueued
    nothing, or it returned what the loop of attempts makes of the fleet's replies to its
    own queries: at most [max_retries + 1] of them, each for the call's question, each
    answered on a channel that no other query has, in the order of the attempts. *)
Theorem answered_calls addrs s0 s c q r n :
  Calls.initial addrs config s0 -> rtc (Calls.step config) s0 s ->
  calls s !! c = Some (mk_call q (Returned r n)) ->
  NoDup (ids (accepted (fleet s))) /\ NoDup (answered_ids (fleet s)) /\
  (n = 0%nat /\ (exists resp, r = Ok resp) \/
   exists rs v, length rs = n /\ Z.of_nat n <= attempts config /\ NoDup rs.*1 /\
     Forall (fun x => x ∈ replies (fleet s) /\ mk_item q x.1 ∈ accepted (fleet s)) rs /\
     run_attempts config (delivered rs) = (v, n) /\ r = verdict_result v).
Proof.
  intros Hi Hrun Hc. destruct (reachable_told _ _ _ Hi Hrun) as [Hf _ Hu Hcs].
  split; [done|]. split.
  { pose proof (fo_items _ _ (sd_fleet _ _ Hf)) as Hp. rewrite Hp in Hu. by apply NoDup_app in Hu as (_ & _ & ?). }
  pose proof (Forall_lookup_1 _ _ _ _ Hcs Hc) as Hst. simpl in Hst.
  destruct Hst as [?|(rs & v & E & [K1 K2] & Hr & Ev)]; [by left|right].
  exists rs, v. split_and!; try done. by eapply run_attempts_bound.
Qed.

(** ** No call panics with ordered bounds *)

(** The cache's TTL bounds, as any client keeps them. *)
Definition ordered_ttls (sh : shared L) : Prop :=
  match sh_cache sh with Some c => SimpleCache.min_ttl c <= SimpleCache.max_ttl c | None => True end.

Record unharmed s : Prop := {
  uh_ttls : ordered_ttls (shared_state s);
  uh_calls : Forall (fun x => Calls.at_pc x <> Panicked) (calls s);
}.

Lemma look_up_ttls host rt now (sh : shared L) :
  ordered_ttls sh -> ordered_ttls (sh <| sh_cache := (look_up host rt now (sh_cache sh)).1 |>).
Proof.
  unfold ordered_ttls, look_up. cbn. destruct (sh_cache sh) as [c|]; [|done].
  destruct (parse_name host) as [name|]; [|done]. unfold SimpleCache.get.
  destruct (SimpleCache.poisoned c); [done|]. destruct (lru_get _ _) as [inner' [e|]]; [|done].
  by destruct (now <? _).
Qed.

Lemma conclude_ttls host rt now v (sh : shared L) :
  ordered_ttls sh -> exists sh' r, conclude host rt now v sh = Some (sh', r) /\ ordered_ttls sh'.
Proof.
  intros Hs. destruct v as [resp| |err|]; cbn [conclude]; [|by eexists _, _| |by eexists _, _].
  - enough (exists cache', fill_cache host rt resp now (sh_cache sh) = Some cache' /\
              match cache' with Some c => SimpleCache.min_ttl c <= SimpleCache.max_ttl c | None => True end)
      as (cache' & -> & Ho) by (by eexists _, _).
    unfold ordered_ttls in Hs. unfold fill_cache. destruct (sh_cache sh) as [c|]; [|by eexists].
    destruct (has_answers resp); [|by eexists]. destruct (parse_name host) as [name|]; [|by eexists].
    unfold SimpleCache.insert, duration_clamp. destruct (_ =? 0); [by eexists|].
    destruct (Z.leb_spec (SimpleCache.min_ttl c) (SimpleCache.max_ttl c)); [|lia]. cbn.
    eexists. split; [reflexivity|]. by destruct (SimpleCache.poisoned c).
  - eexists _, _. split; [reflexivity|]. by destruct (is_congestion_evidence err).
Qed.

Lemma perform_unharmed a s s' : unharmed s -> Calls.perform config a s = Some s' -> unharmed s'.
Proof.
  intros [Ht Hc] Hp. destruct a as [host rt|c|c|a]; simpl in Hp.
  - injection Hp as <-. split; [done|]. cbn. apply Forall_app. split; [done|]. by repeat constructor.
  - unfold Calls.advance in Hp. apply bind_Some in Hp as ([q p] & _ & Hp). cbn [asked Calls.at_pc] in Hp.
    destruct p as [|i|i id|v n|r n| |]; try discriminate Hp.
    + pose proof (look_up_ttls (host q) (record_type q) (clock (fleet s)) _ Ht) as Ht'.
      destruct (look_up _ _ _ _) as [cache' hit]. injection Hp as <-. split; [done|].
      apply Forall_insert; [done|]. by destruct hit.
    + destruct (closed (fleet s)); [|apply bind_Some in Hp as (f & _ & Hp)]; injection Hp as <-;
        (split; [done|]); by apply Forall_insert.
    + apply bind_Some in Hp as (r & _ & [= <-]). split; [done|]. apply Forall_insert; [done|].
      cbn. unfold after. by repeat case_match.
    + destruct (conclude_ttls (host q) (record_type q) (clock (fleet s)) v _ Ht) as (sh & r & Ec & Ht').
      rewrite Ec in Hp. injection Hp as <-. split; [done|]. by apply Forall_insert.
  - apply bind_Some in Hp as (x & _ & Hp).
    assert (s' = goto_pc c (asked x) Abandoned s) as -> by (destruct (Calls.at_pc x); by simplify_eq).
    split; [done|]. by apply Forall_insert.
  - destruct a; try done; apply bind_Some in Hp as (f & _ & [= <-]); by split.
Qed.

Lemma run_unharmed s s' : rtc (Calls.step config) s s' -> unharmed s -> unharmed s'.
Proof. induction 1 as [|s1 s2 s3 [a Ha] _ IH]; [done|]. intros Hs. apply IH. by eapply perform_unharmed. Qed.

(** ** Every call can end *)

Definition remaining (p : Calls.pc) : nat :=
  let m := Z.to_nat (attempts config) in
  match p with
  | LookingUp => 2 * m + 3
  | Enqueuing attempt => 2 * (m - attempt) + 2
  | Awaiting attempt _ => 2 * (m - attempt) + 1
  | Concluding _ _ => 1
  | _ => 0
  end.
Definition calls_measure s : nat := sum_list (remaining ∘ Calls.at_pc <$> calls s).

(** The actions that end calls: their own, and those that help the fleet. *)
Definition ending (a : Calls.action) : Prop :=
  match a with Call _ => True | OfFleet a => helpful a | _ => False end.
Definition push s s' : Prop := exists a, ending a /\ Calls.perform config a s = Some s'.

Lemma push_step s s' : rtc push s s' -> rtc (Calls.step config) s s'.
Proof. induction 1 as [|s1 s2 s3 (a & _ & Ha) _ IH]; [done|]. eapply rtc_l; [by exists a|done]. Qed.

Lemma push_fleet s f : rtc nudge (fleet s) f -> rtc push s (s <| fleet := f |>).
Proof.
  remember (fleet s) as f0 eqn:E. intros Hr. revert s E.
  induction Hr as [f|f1 f2 f3 (x & Hx & Hp) _ IH]; intros s ->; [by destruct s|].
  eapply rtc_l; [|exact (IH (s <| fleet := f2 |>) eq_refl)].
  exists (OfFleet x). split; [exact Hx|]. simpl. destruct x; try done; by rewrite Hp.
Qed.

Lemma after_remaining attempt d :
  Z.of_nat attempt < attempts config -> (remaining (after config attempt d) < 2 * (Z.to_nat (attempts config) - attempt) + 1)%nat.
Proof.
  intros Ha. rewrite after_spec by done. destruct (retried d && _) eqn:E; simpl; [|lia].
  apply andb_true_iff in E as [_ E]. apply Z.ltb_lt in E. lia.
Qed.

Lemma measure_goto s s' c q p p' :
  calls s !! c = Some (mk_call q p) -> calls s' = <[c := mk_call q p']> (calls s) ->
  (remaining p' < remaining p)%nat -> (calls_measure s' < calls_measure s)%nat.
Proof.
  intros Hc Ec Hlt. unfold calls_measure. rewrite Ec.
  by apply (sum_measure_lt _ _ _ (mk_call q p)).
Qed.

Lemma reply_arrived id f : id ∈ answered_ids f -> exists r, reply_of id f = Some r.
Proof.
  intros Hin. apply list_elem_of_fmap in Hin as (x & -> & Hin). unfold reply_of.
  destruct (filter _ (replies f)) as [|y l] eqn:E; [exfalso|by eexists].
  assert (Hx : x ∈ filter (fun r : reply => r.1 = x.1) (replies f)) by (by apply list_elem_of_filter).
  rewrite E in Hx. by apply elem_of_nil in Hx.
Qed.

(** With the fleet idle, every call can act, and is then closer to its end. *)
Lemma call_closer cap c x s :
  told cap s -> idle (fleet s) -> 1 <= capacity (fleet s) -> calls s !! c = Some x -> over (Calls.at_pc x) = false ->
  exists s', Calls.advance config c s = Some s' /\ (calls_measure s' < calls_measure s)%nat.
Proof.
  intros Hs [Hq Hidle] Hcap Hc Ho. destruct x as [q p]. simpl in Ho.
  assert (Hgo : forall s' p', calls s' = <[c := mk_call q p']> (calls s) -> (remaining p' < remaining p)%nat ->
    (calls_measure s' < calls_measure s)%nat) by (intros; by eapply measure_goto).
  pose proof (Forall_lookup_1 _ _ _ _ (td_calls _ _ Hs) Hc) as Hst. cbn [asked Calls.at_pc] in Hst.
  unfold Calls.advance. rewrite Hc. cbn [mbind option_bind asked Calls.at_pc].
  destruct p as [|a|a id|v n|r n| |]; try discriminate Ho.
  - destruct (look_up _ _ _ _) as [cache' hit]. eexists. split; [reflexivity|].
    eapply Hgo; [reflexivity|]. destruct hit; simpl; lia.
  - destruct Hst as (rs & _ & _ & Ha & _). destruct (closed (fleet s)) eqn:Ecl.
    + eexists. split; [reflexivity|]. eapply Hgo; [reflexivity|]. pose proof (after_remaining a QueueShut Ha). simpl in *. lia.
    + cbn [ResolverWorker.perform]. rewrite Ecl, Hq. simpl negb. cbn [andb length].
      rewrite (proj2 (Z.ltb_lt (Z.of_nat 0) (capacity (fleet s)))) by lia. cbn [mbind option_bind].
      eexists. split; [reflexivity|]. eapply Hgo; [reflexivity|]. simpl. lia.
  - destruct Hst as (rs & _ & _ & Ha & _ & _ & Hin).
    destruct (reply_arrived id (fleet s)) as [r Hr].
    { pose proof (fo_items _ _ (sd_fleet _ _ (td_fleet _ _ Hs))) as Hp.
      unfold pending_ids in Hp. rewrite Hq, (no_items _ Hidle) in Hp. simpl in Hp. rewrite <- Hp.
      apply list_elem_of_fmap. by exists (mk_item q id). }
    rewrite Hr. cbn [mbind option_bind]. eexists. split; [reflexivity|]. eapply Hgo; [reflexivity|].
    exact (after_remaining a (Delivered r) Ha).
  - destruct (conclude _ _ _ _ _) as [[sh r]|]; (eexists; split; [reflexivity|]; eapply Hgo; [reflexivity|simpl; lia]).
Qed.

(** A call only touches the fleet's queue. *)
Lemma advance_fleet c s s' : Calls.advance config c s = Some s' ->
  grows (fleet s) (fleet s') /\ workers (fleet s') = workers (fleet s) /\ pacer (fleet s') = pacer (fleet s).
Proof.
  intros Hadv. unfold Calls.advance in Hadv. apply bind_Some in Hadv as ([q p] & _ & Hadv).
  cbn [asked Calls.at_pc] in Hadv. destruct p as [|a|a id|v n|r n| |]; try discriminate Hadv.
  - destruct (look_up _ _ _ _) as [cache' hit]. by injection Hadv as <-.
  - destruct (closed (fleet s)); [by injection Hadv as <-|].
    apply bind_Some in Hadv as (f & Hp & [= <-]). cbn. split; [by eapply perform_grows|].
    simpl in Hp. destruct (_ && _); [|done]. by injection Hp as <-.
  - by apply bind_Some in Hadv as (r & _ & [= <-]).
  - by destruct (conclude _ _ _ _ _) as [[sh r]|]; injection Hadv as <-.
Qed.

Lemma all_end cap : forall m s,
  (calls_measure s <= m)%nat -> 1 <= cap -> told cap s -> 1 <= capacity (fleet s) ->
  calm (fleet s) -> workers (fleet s) <> [] -> Z.of_nat (length (workers (fleet s))) <= u64_max ->
  exists s', rtc push s s' /\ Forall (fun x => over (Calls.at_pc x) = true) (calls s').
Proof.
  induction m as [m IH] using lt_wf_ind. intros s Hm Hcap Hs Hroom Hcalm Hne Hn.
  destruct (decide (Forall (fun x => over (Calls.at_pc x) = true) (calls s))) as [Hall|Hnot]; [by exists s|].
  apply not_Forall_Exists in Hnot; [|intros x; apply _]. apply Exists_exists in Hnot as (x & Hin & Ho).
  apply list_elem_of_lookup_1 in Hin as [c Hc]. apply not_true_is_false in Ho.
  pose proof (td_fleet _ _ Hs) as Hf.
  destruct (becomes_idle cap _ (fleet s) (le_n _) Hcap Hf Hcalm Hne Hn) as (f & Hr & Hidle).
  pose proof (nudge_grows _ _ Hr) as Hg. destruct (nudge_frame _ _ Hr) as [Ea Hcalm'].
  assert (Hs1 : told cap (s <| fleet := f |>)) by (apply told_fleet; try done; by eapply nudge_steady).
  pose proof (run_workers cap _ _ (nudge_step _ _ Hr) Hf) as Hlen.
  destruct (call_closer cap c x (s <| fleet := f |>) Hs1 Hidle) as (s2 & Hadv & Hlt);
    [cbn; by rewrite (gr_capacity _ _ Hg)|done|done|].
  assert (Hpush : rtc push s s2).
  { eapply rtc_r; [by apply push_fleet|]. by exists (Call c). }
  assert (Hs2 : told cap s2) by (by eapply advance_told).
  destruct (advance_fleet _ _ _ Hadv) as (Hg2 & Ew & Ep). cbn in Hg2, Ew, Ep.
  destruct (IH (calls_measure s2)) with (s := s2) as (s3 & Hr3 & Hover); try done.
  - exact (Nat.lt_le_trans _ _ _ Hlt Hm).
  - rewrite (gr_capacity _ _ Hg2), (gr_capacity _ _ Hg). done.
  - unfold calm. rewrite Ep. by apply Hcalm'.
  - rewrite Ew. intros E. rewrite E in Hlen. by destruct (workers (fleet s)).
  - rewrite Ew, Hlen. done.
  - exists s3. split; [by etrans|done].
Qed.

Lemma push_acts s s' : rtc push s s' ->
  exists acts, Forall ending acts /\ Calls.perform_all config acts s = Some s'.
Proof.
  induction 1 as [s|s1 s2 s3 (x & Hx & Hp) _ (acts & Ha & E)]; [by exists []|].
  exists (x :: acts). split; [by constructor|]. simpl. by rewrite Hp.
Qed.

Lemma push_calls s s' : rtc push s s' -> length (calls s') = length (calls s).
Proof.
  induction 1 as [|s1 s2 s3 (a & Ha & Hp) _ IH]; [done|]. rewrite IH. clear IH.
  destruct a as [|c| |a]; try done; simpl in Hp.
  - unfold Calls.advance in Hp. apply bind_Some in Hp as ([q p] & _ & Hp). cbn [asked Calls.at_pc] in Hp.
    destruct p as [|i|i id|v n|r n| |]; try discriminate Hp.
    + destruct (look_up _ _ _ _) as [cache' hit]. injection Hp as <-. apply length_insert.
    + destruct (closed (fleet s1)); [|apply bind_Some in Hp as (f & _ & Hp)]; injection Hp as <-; apply length_insert.
    + apply bind_Some in Hp as (r & _ & [= <-]). apply length_insert.
    + destruct (conclude _ _ _ _ _) as [[sh r]|]; injection Hp as <-; apply length_insert.
  - destruct a; try done; by apply bind_Some in Hp as (f & _ & [= <-]).
Qed.

Lemma perform_frame cap a s s' : told cap s -> Calls.perform config a s = Some s' ->
  grows (fleet s) (fleet s') /\ length (workers (fleet s')) = length (workers (fleet s)).
Proof.
  intros Hs Hp. destruct a as [host rt|c|c|a]; simpl in Hp.
  - by injection Hp as <-.
  - destruct (advance_fleet _ _ _ Hp) as (? & -> & _). done.
  - apply bind_Some in Hp as (x & _ & Hp). destruct (Calls.at_pc x); try done; by injection Hp as <-.
  - assert (exists f, ResolverWorker.perform a (fleet s) = Some f /\ s' = s <| fleet := f |>) as (f & Hf & ->)
      by (destruct a; try done; apply bind_Some in Hp as (f & Hf & [= <-]); by eexists).
    split; [by eapply perform_grows|]. eapply perform_workers; [apply Hs|done].
Qed.

Lemma run_frame cap s s' : rtc (Calls.step config) s s' -> told cap s ->
  grows (fleet s) (fleet s') /\ length (workers (fleet s')) = length (workers (fleet s)).
Proof.
  induction 1 as [|s1 s2 s3 [a Ha] _ IH]; [done|]. intros Hs.
  destruct (perform_frame _ _ _ _ Hs Ha) as [Hg E]. destruct IH as [Hg' E']; [by eapply perform_told|].
  split; [by etrans|congruence].
Qed.

(** Every call can end, once the attempt rate is lifted. *)
Lemma calls_end cap s :
  1 <= cap -> told cap s -> 1 <= capacity (fleet s) ->
  workers (fleet s) <> [] -> Z.of_nat (length (workers (fleet s))) <= u64_max ->
  exists s', rtc push s s' /\ Forall (fun x => over (Calls.at_pc x) = true) (calls s').
Proof.
  intros Hcap Hs Hroom Hne Hn.
  set (f1 := (fleet s) <| pacer := (pacer (fleet s)) <| AttemptPacer.pacer :=
                  AttemptPacer.set_rate None (AttemptPacer.pacer (pacer (fleet s))) |> |>).
  assert (Hlift : rtc nudge (fleet s) f1) by (apply rtc_once; by exists (SetAttemptRate None)).
  destruct (all_end cap _ (s <| fleet := f1 |>) (le_n _)) as (s' & Hr & Hover); try done.
  - apply told_fleet; [done|by apply nudge_grows| |eapply nudge_steady; [done|apply Hs]]. done.
  - exists s'. split; [|done]. etrans; [by apply push_fleet|done].
Qed.

(** What every reachable state has: queue space and workers. *)
Lemma reachable_crew addrs s0 s :
  Calls.initial addrs config s0 -> rtc (Calls.step config) s0 s -> max_concurrency config <= u64_max ->
  1 <= capacity (fleet s) /\ workers (fleet s) <> [] /\ Z.of_nat (length (workers (fleet s))) <= u64_max.
Proof.
  intros Hi Hrun Hmax. destruct (run_frame _ _ _ Hrun (initial_told _ _ Hi)) as [Hg Hlen].
  destruct Hi as (Hfi & Ecap & _).
  assert (E0 : length (workers (fleet s0)) = Z.to_nat (Z.max (max_concurrency config) 1)).
  { destruct Hfi as (_ & _ & _ & -> & _). apply length_replicate. }
  split_and!.
  - rewrite (gr_capacity _ _ Hg), Ecap. lia.
  - intros E. rewrite E in Hlen. simpl in Hlen. lia.
  - unfold u64_max, u64_modulus in *. lia.
Qed.

End CallsProofs.

(** ** Witnesses *)

Section CallsExamples.
Import ResolverWorker BlastDNSClient Calls.
#[local] Existing Instance demo_errors.
#[local] Existing Instance demo_dns.

Abbreviation demo_lru := (ref_lru Query (SimpleCache.CacheEntry DnsResponse)).

(** Two workers over two resolvers; up to two retries. *)
Definition pair_config : BlastDNSConfig :=
  from_wire (mk_wire 2 2 None true false false 1000 2 10 1000 10 10 86400).
Definition pair_addrs : list SocketAddress := [dns_server 1 53; dns_server 2 53].
Definition calls0 : Calls.sys ref_sem demo_lru :=
  Calls.mk_sys
    (fleet0 <| capacity := 2 |> <| reserving :=
       ResolverPool.mk_sys (from_option id (ResolverPool.mk [] 0 0) (ResolverPool.new pair_addrs pair_config 0))
         0 (replicate 2 ResolverPool.Idle) |>)
    fresh_state [] 0.

Definition of_fleet (acts : list ResolverWorker.action) : list Calls.action := OfFleet <$> acts.

(** One name is answered and cached; of the other, the first query is refused. *)
Definition call_schedule : list Calls.action :=
  [Begin (lit "a.example") A_TYPE; Begin (lit "b.example") A_TYPE; Call 0; Call 0; Call 1; Call 1]
  ++ of_fleet ([Tick 5] ++ go 18 0 ++ go 18 1 ++
               [Tick 5000; Act 1 (Reply (ResolverHealth.Answered declined));
                Act 0 (Reply (ResolverHealth.Answered found))])
  ++ [Call 1; Call 1; Call 0; Call 0; Begin (lit "a.example") A_TYPE; Call 2].
Definition midway : Calls.sys ref_sem demo_lru :=
  from_option id calls0 (Calls.perform_all pair_config call_schedule calls0).

Lemma calls0_initial : Calls.initial pair_addrs pair_config calls0.
Proof.
  split; [|split; reflexivity].
  split; [eexists _, (fun _ => true); split; vm_compute; reflexivity|].
  split_and!; vm_compute; reflexivity.
Qed.

Lemma calls_rtc acts : forall s s' : Calls.sys ref_sem demo_lru,
  Calls.perform_all pair_config acts s = Some s' -> rtc (Calls.step pair_config) s s'.
Proof.
  induction acts as [|a acts IH]; intros s s' Hr; simpl in Hr; [by injection Hr as <-|].
  apply bind_Some in Hr as (s1 & K1 & K2). eapply rtc_l; [by exists a|by apply IH].
Qed.

Lemma midway_run : rtc (Calls.step pair_config) calls0 midway.
Proof. apply (calls_rtc call_schedule). vm_compute. reflexivity. Qed.

(** Answered, refused and asking again, and answered from the cache. *)
Example midway_calls :
  Calls.at_pc <$> calls midway = [Returned (Ok found) 1; Awaiting 1 2; Returned (Ok found) 0].
Proof. vm_compute. reflexivity. Qed.

Lemma answered_calls_witness :
  calls midway !! 0%nat = Some (mk_call (mk_query (lit "a.example") A_TYPE) (Returned (Ok found) 1)) /\
  NoDup (ids (accepted (fleet midway))) /\ NoDup (answered_ids (fleet midway)) /\
  (1%nat = 0%nat /\ (exists resp : DnsResponse, Ok found = Ok (E := BlastDNSError) resp) \/
   exists rs v, length rs = 1%nat /\ Z.of_nat 1 <= attempts pair_config /\ NoDup rs.*1 /\
     Forall (fun x => x ∈ replies (fleet midway) /\
                      mk_item (mk_query (lit "a.example") A_TYPE) x.1 ∈ accepted (fleet midway)) rs /\
     run_attempts pair_config (delivered rs) = (v, 1%nat) /\ Ok found = verdict_result v).
Proof.
  assert (E : calls midway !! 0%nat = Some (mk_call (mk_query (lit "a.example") A_TYPE) (Returned (Ok found) 1)))
    by (vm_compute; reflexivity).
  split; [exact E|].
  apply (answered_calls pair_config ltac:(vm_compute; split; discriminate) pair_addrs calls0 midway 0
           (mk_query (lit "a.example") A_TYPE)).
  - exact calls0_initial.
  - exact midway_run.
  - exact E.
Defined.

End CallsExamples.
