(* ===== verification/Batches.v ===== *)
(** * A batch over the client

    [resolve_batch_full] of [resolver.rs] with [resolve_full] of the client underneath: the
    batch pulls hosts while it has room, starts a call for each, and yields what the calls
    return, while those calls, other users' calls, the workers, the clock and the
    controller's rate changes go on.  It refines the abstract batch of [Resolver], and it
    can always come to its end: [batch_end_to_end]. *)

From Stdlib Require Import String.
From stdpp Require Import list relations.
From S2P Require Import Prelude Float64 Extern Limiter Config Addresses Errors Cache Health Pool Utils Dns Worker.
From S2P Require Import Fleet Reach Stretch Progress Client Resolver Calls.
#[local] Open Scope Z_scope.
#[local] Open Scope list_scope.

Module Batches.
Section Batches.
Import BlastDNSClient Calls.
Context `{DnsTypes} {S L : Type} `{SemaphoreOps S} `{LruOps Query (SimpleCache.CacheEntry DnsResponse) L}.
Context {E : Type} (config : BlastDNSConfig) (record_type : RecordType) (skip_empty skip_errors : bool).
Abbreviation response := (result DnsResponse BlastDNSError).

(** The hosts to pull, the calls under way with their labels, what came back and what was
    kept; [dead] after a panic of a call, which is one of the stream's consumer. *)
Record sys := mk_sys {
  client : Calls.sys S L;
  todo : list (result text E);
  running : list (text * nat);
  back : list (text * response);
  out : list (text * response);
  dead : bool
}.
#[global] Instance sys_settable : Settable sys := fun s =>
  mk_sys (client s) (todo s) (running s) (back s) (out s) (dead s).

(** [get_concurrency() * 2]. *)
Definition limit : Z := wrap_u64 (Z.max (Z.max (max_concurrency config) 1) 1 * 2).

Inductive action :=
| Pull
| Yield (i : nat)
| Client (a : Calls.action).

(** Only the batch itself drops its calls, which it does with all its state. *)
Definition ours (s : sys) (a : Calls.action) : bool :=
  match a with Abandon c => bool_decide (c ∈ (running s).*2) | _ => false end.

Definition perform (a : action) (s : sys) : option sys :=
  match a with
  | Pull =>
      if negb (dead s) && (Z.of_nat (length (running s)) <? limit) then
        match todo s with
        | Ok host :: rest =>
            client' ← Calls.perform config (Begin host record_type) (client s);
            Some (s <| client := client' |> <| todo := rest |>
                    <| running := running s ++ [(host, length (calls (client s)))] |>)
        | Err _ :: rest => Some (s <| todo := rest |>)
        | [] => None
        end
      else None
  | Yield i =>
      if dead s then None
      else
        '(label, c) ← running s !! i;
        x ← calls (client s) !! c;
        match at_pc x with
        | Returned r _ =>
            Some (s <| running := delete i (running s) |> <| back := back s ++ [(label, r)] |>
                    <| out := if keep skip_empty skip_errors (label, r) then out s ++ [(label, r)] else out s |>)
        | Panicked => Some (s <| dead := true |>)
        | _ => None
        end
  | Client a =>
      if ours s a then None
      else client' ← Calls.perform config a (client s); Some (s <| client := client' |>)
  end.

Definition step (s s' : sys) : Prop := exists a, perform a s = Some s'.

Fixpoint perform_all (acts : list action) (s : sys) : option sys :=
  match acts with
  | [] => Some s
  | a :: acts' => s' ← perform a s; perform_all acts' s'
  end.

Definition initial (addrs : list SocketAddress) (hosts : list (result text E)) (s : sys) : Prop :=
  Calls.initial addrs config (client s) /\ todo s = hosts /\ running s = [] /\ back s = [] /\ out s = [] /\
  dead s = false.

(** The batch as [Resolver] sees it. *)
Definition view (s : sys) : batch E := mk_batch (todo s) (running s).*1 (back s) (out s).
End Batches.
Arguments sys {_ _} S L E.
End Batches.

Section BatchProofs.
Import ResolverWorker BlastDNSClient Calls Batches.
Context `{DnsTypes} {S L : Type} `{HO : SemaphoreOps S} `{!Semaphore S}.
Context `{LruOps Query (SimpleCache.CacheEntry DnsResponse) L}.
Context {E : Type} (config : BlastDNSConfig) (record_type : RecordType) (skip_empty skip_errors : bool).
Context (Hretries : (0 <= max_retries config <= u64_max)%Z).
Implicit Types (s : Batches.sys S L E) (k : Calls.sys S L).

(** The question a label stands for. *)
Definition question_of (label : text) : QuerySpec := mk_query (prepare_host label record_type) record_type.

(** ** Calls keep their place *)

Record kept (c : nat) (x x' : call) (a : Calls.action) : Prop := {
  kp_asked : asked x' = asked x;
  kp_over : over (Calls.at_pc x) = true -> x' = x;
  kp_abandoned : Calls.at_pc x' = Abandoned -> Calls.at_pc x = Abandoned \/ a = Abandon c;
}.

Lemma kept_same c x a : kept c x x a.
Proof. split; auto. Qed.

Lemma goto_kept c c' q p x k a y :
  calls k !! c' = Some y -> q = asked y -> over (Calls.at_pc y) = false ->
  (p = Abandoned -> a = Abandon c') -> calls k !! c = Some x ->
  exists x', <[c' := mk_call q p]> (calls k) !! c = Some x' /\ kept c x x' a.
Proof.
  intros Hy -> Ho Hp Hx. destruct (decide (c' = c)) as [->|Hne].
  - rewrite list_lookup_insert_eq by (by eapply lookup_lt_Some). eexists. split; [done|].
    assert (y = x) as -> by congruence. split; [done|by rewrite Ho|]. simpl. auto.
  - rewrite list_lookup_insert_ne by done. exists x. split; [done|apply kept_same].
Qed.

Lemma call_kept a k k' c x :
  Calls.perform config a k = Some k' -> calls k !! c = Some x ->
  exists x', calls k' !! c = Some x' /\ kept c x x' a.
Proof.
  intros Hp Hx. destruct a as [host rt|c'|c'|a]; cbn [Calls.perform] in Hp.
  - injection Hp as <-. exists x. split; [by apply lookup_app_l_Some|apply kept_same].
  - unfold Calls.advance in Hp. apply bind_Some in Hp as ([q p] & Hc & Hp). cbn [asked Calls.at_pc] in Hp.
    destruct p as [|i|i id|v n|r n| |]; try discriminate Hp.
    + destruct (look_up _ _ _ _) as [cache' hit]. injection Hp as <-. cbn.
      eapply goto_kept; [exact Hc|done..| |done]. by destruct hit.
    + destruct (closed (fleet k)); [|apply bind_Some in Hp as (f & _ & Hp)]; injection Hp as <-;
        cbn; eapply goto_kept; try exact Hc; try done.
    + apply bind_Some in Hp as (r & _ & [= <-]). cbn. eapply goto_kept; [exact Hc|done..| |done].
      unfold after. repeat case_match; done.
    + destruct (conclude _ _ _ _ _) as [[sh r]|]; injection Hp as <-; cbn;
        (eapply goto_kept; [exact Hc|done..]).
  - apply bind_Some in Hp as (y & Hc & Hp).
    assert (Ho : over (Calls.at_pc y) = false) by (by destruct (Calls.at_pc y)).
    assert (k' = goto_pc c' (asked y) Abandoned k) as -> by (destruct (Calls.at_pc y); by simplify_eq).
    cbn. by eapply goto_kept.
  - exists x. split; [|apply kept_same].
    assert (calls k' = calls k) as -> by (destruct a; try done; by apply bind_Some in Hp as (f & _ & [= <-])).
    done.
Qed.

(** ** The invariant *)

Definition entrusted k (x : text * nat) : Prop :=
  exists y, calls k !! x.2 = Some y /\ asked y = question_of x.1 /\ Calls.at_pc y <> Abandoned.

(** A result that came back is one of a call for its label. *)
Definition returned k (x : text * result DnsResponse BlastDNSError) : Prop :=
  exists c n, calls k !! c = Some (mk_call (question_of x.1) (Returned x.2 n)).

Record batch_ok (cap : Z) s : Prop := {
  bo_client : told config cap (client s);
  bo_running : Forall (entrusted (client s)) (running s);
  bo_apart : NoDup (running s).*2;
  bo_back : Forall (returned (client s)) (back s);
  bo_limit : 0 <= limit config -> Z.of_nat (length (running s)) <= limit config;
  bo_dead : dead s = true -> exists c x, calls (client s) !! c = Some x /\ Calls.at_pc x = Panicked;
}.

Lemma returned_kept a k k' x : Calls.perform config a k = Some k' -> returned k x -> returned k' x.
Proof.
  intros Hp (c & n & Hc). destruct (call_kept _ _ _ _ _ Hp Hc) as (y & Hy & [_ Ko _]).
  exists c, n. by rewrite Hy, (Ko eq_refl).
Qed.

Lemma entrusted_kept a k k' x :
  Calls.perform config a k = Some k' -> a <> Abandon x.2 -> entrusted k x -> entrusted k' x.
Proof.
  intros Hp Hne (y & Hy & Ha & Hn). destruct (call_kept _ _ _ _ _ Hp Hy) as (y' & Hy' & [Ka _ Kn]).
  exists y'. split; [done|]. split; [by rewrite Ka|]. intros Ey. by destruct (Kn Ey).
Qed.

Lemma client_ok cap a k' s :
  batch_ok cap s -> Calls.perform config a (client s) = Some k' -> ours s a = false ->
  batch_ok cap (s <| client := k' |>).
Proof.
  intros [Hc Hr Ha Hb Hl Hd] Hp Ho. split; cbn; try done.
  - by eapply perform_told.
  - rewrite Forall_forall in Hr |- *. intros x Hx. eapply entrusted_kept; [done| |by apply Hr].
    intros ->. cbn [ours] in Ho. apply bool_decide_eq_false in Ho. apply Ho. apply list_elem_of_fmap. by exists x.
  - eapply Forall_impl; [exact Hb|]. intros x. by apply (returned_kept a).
  - intros Hdead. destruct (Hd Hdead) as (c & x & Hx & Ep).
    destruct (call_kept _ _ _ _ _ Hp Hx) as (x' & Hx' & [_ Ko _]). exists c, x'.
    rewrite Ko in * by (by rewrite Ep). done.
Qed.

Lemma perform_batch cap a s s' :
  batch_ok cap s -> Batches.perform config record_type skip_empty skip_errors a s = Some s' ->
  batch_ok cap s' /\ rtc (batch_step (limit config) skip_empty skip_errors) (view s) (view s').
Proof.
  intros Hs Hp. destruct a as [|i|a]; cbn [Batches.perform] in Hp.
  - destruct (negb (dead s) && _) eqn:Eg; [|done]. apply andb_true_iff in Eg as [_ Hlt%Z.ltb_lt].
    unfold view. destruct (todo s) as [|[host|e] rest] eqn:Et; [done| |].
    + injection Hp as <-. cbn.
      pose proof (client_ok cap (Begin host record_type) _ s Hs eq_refl eq_refl) as [Hc Hr Ha Hb Hl Hd].
      cbn in Hc, Hr, Ha, Hb, Hl, Hd. split.
      * split; cbn; try done.
        -- apply Forall_app. split; [done|]. constructor; [|constructor].
           exists (mk_call (question_of host) LookingUp). cbn. split; [|done].
           by rewrite lookup_app_r, Nat.sub_diag by done.
        -- rewrite fmap_app. apply NoDup_app. split; [done|]. split; [|apply NoDup_singleton].
           intros c Hin ->%list_elem_of_singleton. apply list_elem_of_fmap in Hin as (x & Ex & Hin).
           destruct (proj1 (Forall_forall _ _) (bo_running _ _ Hs) x Hin) as (y & Hy & _).
           apply lookup_lt_Some in Hy. rewrite <- Ex in Hy. cbn in Hy. lia.
        -- intros _. rewrite length_app. simpl. lia.
      * apply rtc_once. rewrite fmap_app. apply batch_pull. by rewrite length_fmap.
    + injection Hp as <-. split; [by destruct Hs; split|]. cbn. apply rtc_once, (batch_bad_item _ _ _ e).
      by rewrite length_fmap.
  - destruct (dead s) eqn:Ed; [done|]. apply bind_Some in Hp as ([label c] & Hi & Hp).
    apply bind_Some in Hp as (x & Hx & Hp). pose proof Hs as [Hc Hr Ha Hb Hl Hd].
    destruct (Calls.at_pc x) as [| | | |r n| |] eqn:Ep; try discriminate Hp; injection Hp as <-.
    + pose proof (Forall_lookup_1 _ _ _ _ Hr Hi) as (y & Hy & Eq & _). cbn in Hy, Eq.
      assert (y = x) as -> by congruence.
      destruct x as [q p]. cbn in Eq, Ep. subst q p.
      assert (Erun : running s = take i (running s) ++ (label, c) :: drop (Datatypes.S i) (running s))
        by (symmetry; by apply take_drop_middle).
      split.
      * split; cbn; try done.
        -- rewrite delete_take_drop. rewrite Erun in Hr. apply Forall_app in Hr as [? Hr]. apply Forall_inv_tail in Hr.
           by apply Forall_app.
        -- eapply sublist_NoDup; [exact Ha|]. apply fmap_sublist, sublist_delete.
        -- apply Forall_app. split; [done|]. constructor; [|constructor]. by exists c, n.
        -- intros Hl0. specialize (Hl Hl0). apply lookup_lt_Some in Hi as Hlt.
           rewrite length_delete by (by eexists). lia.
      * apply rtc_once. unfold view. cbn. rewrite delete_take_drop. rewrite Erun at 1.
        rewrite !fmap_app, fmap_cons. cbn. apply batch_complete.
    + split; [|done]. split; cbn; try done. intros _. by exists c, x.
  - destruct (ours s a) eqn:Eo; [done|]. apply bind_Some in Hp as (k' & Hk & [= <-]).
    split; [by eapply client_ok|]. done.
Qed.

Lemma initial_batch addrs hosts s :
  Batches.initial config addrs hosts s ->
  batch_ok (Z.max (max_inflight_per_resolver config) 1) s /\ view s = batch_start hosts.
Proof.
  intros (Hi & Et & Er & Eb & Eo & Ed). split.
  - split; rewrite ?Er, ?Eb, ?Ed; [by eapply initial_told|constructor..| |done]. by intros.
  - unfold view, batch_start. by rewrite Et, Er, Eb, Eo.
Qed.

Lemma run_batch cap s s' :
  rtc (Batches.step config record_type skip_empty skip_errors) s s' -> batch_ok cap s ->
  batch_ok cap s' /\ rtc (batch_step (limit config) skip_empty skip_errors) (view s) (view s') /\
  rtc (Calls.step config) (client s) (client s').
Proof.
  induction 1 as [|s1 s2 s3 [a Ha] _ IH]; [done|]. intros Hs.
  destruct (perform_batch _ _ _ _ Hs Ha) as [Hs2 Hr]. destruct (IH Hs2) as (Hs3 & Hr3 & Hk3).
  split; [done|]. split; [by etrans|]. clear -Ha Hk3. destruct a as [|i|a]; cbn [Batches.perform] in Ha.
  - destruct (negb (dead s1) && _); [|done]. destruct (todo s1) as [|[host|e] rest]; [done| |].
    + injection Ha as <-. eapply rtc_l; [by exists (Begin host record_type)|exact Hk3].
    + by injection Ha as <-.
  - destruct (dead s1); [done|]. apply bind_Some in Ha as ([label c] & _ & Ha).
    apply bind_Some in Ha as (x & _ & Ha). by destruct (Calls.at_pc x); simplify_eq.
  - destruct (ours s1 a); [done|]. apply bind_Some in Ha as (k' & Hk & [= <-]).
    eapply rtc_l; [by exists a|exact Hk3].
Qed.

(** ** The batch can always end *)

Definition moves : relation (Batches.sys S L E) := fun s s' =>
  exists a, match a with Client b => ending b | _ => True end /\
            Batches.perform config record_type skip_empty skip_errors a s = Some s'.

Lemma moves_step s s' : rtc moves s s' -> rtc (Batches.step config record_type skip_empty skip_errors) s s'.
Proof. induction 1 as [|s1 s2 s3 (a & _ & Ha) _ IH]; [done|]. eapply rtc_l; [by exists a|done]. Qed.

Lemma push_moves k k' : rtc (push config) k k' -> forall s, client s = k -> rtc moves s (s <| client := k' |>).
Proof.
  induction 1 as [k|k1 k2 k3 (a & Ha & Hp) _ IH]; intros s Es; [by destruct s; subst|].
  eapply rtc_l; [|exact (IH (s <| client := k2 |>) eq_refl)]. exists (Client a). split; [done|]. cbn [Batches.perform].
  assert (ours s a = false) as -> by (by destruct a). by rewrite Es, Hp.
Qed.

(** The batch has ended, or a panic ended it. *)
Definition ended s : Prop := dead s = true \/ batch_done (view s).

Lemma view_measure s : batch_measure (view s) = (2 * length (todo s) + length (running s))%nat.
Proof. unfold batch_measure, view. cbn [source in_progress]. by rewrite length_fmap. Qed.

Lemma batch_ends cap : forall m s,
  (batch_measure (view s) <= m)%nat -> 1 <= cap -> 1 <= limit config -> batch_ok cap s ->
  1 <= capacity (fleet (client s)) -> workers (fleet (client s)) <> [] ->
  Z.of_nat (length (workers (fleet (client s)))) <= u64_max ->
  exists s', rtc moves s s' /\ ended s'.
Proof.
  induction m as [m IH] using lt_wf_ind. intros s Hm Hcap Hlim Hs Hroom Hne Hn.
  destruct (dead s) eqn:Ed; [exists s; split; [done|by left]|].
  (* one move on, with as many workers and as much room *)
  assert (Hgo : forall s1 s2, rtc moves s s1 -> moves s1 s2 ->
    (batch_measure (view s2) < batch_measure (view s))%nat -> exists s', rtc moves s s' /\ ended s').
  { intros s1 s2 Hr1 Hr2 Hlt. assert (Hr : rtc moves s s2) by (by eapply rtc_r).
    destruct (run_batch cap _ _ (moves_step _ _ Hr) Hs) as (Hs2 & _ & Hk).
    destruct (run_frame config Hretries cap _ _ Hk (bo_client _ _ Hs)) as [Hg Hlen].
    destruct (IH (batch_measure (view s2))) with (s := s2) as (s3 & Hr3 & He); try done.
    - lia.
    - by rewrite (gr_capacity _ _ Hg).
    - intros Ew. rewrite Ew in Hlen. by destruct (workers (fleet (client s))).
    - by rewrite Hlen.
    - exists s3. split; [by etrans|done]. }
  destruct (running s) as [|[label c] rest] eqn:Er.
  - destruct (todo s) as [|item rest] eqn:Et.
    { exists s. split; [done|]. right. split; cbn; [done|]. by rewrite Er. }
    assert (Hroom2 : negb (dead s) && (Z.of_nat (length (running s)) <? limit config) = true).
    { rewrite Ed, Er. simpl. apply Z.ltb_lt. lia. }
    destruct item as [host|e]; (eapply Hgo; [done|exists Pull; split; [done|]; cbn [Batches.perform];
      rewrite Hroom2, Et; reflexivity|]); rewrite !view_measure; cbn; rewrite Et, ?length_app, Er; simpl; lia.
  - destruct (calls_end config Hretries cap (client s) Hcap (bo_client _ _ Hs) Hroom Hne Hn) as (k & Hk & Hover).
    pose proof (push_moves _ _ Hk s eq_refl) as Hr1.
    destruct (run_batch cap _ _ (moves_step _ _ Hr1) Hs) as (Hs1 & _ & _).
    pose proof (Forall_lookup_1 _ _ 0%nat (label, c) (bo_running _ _ Hs1) ltac:(cbn; by rewrite Er)) as (x & Hx & _ & Hna).
    cbn in Hx. pose proof (Forall_lookup_1 _ _ _ _ Hover Hx) as Ho. cbn in Ho.
    assert (Hyield : forall s2, Batches.perform config record_type skip_empty skip_errors (Yield 0)
              (s <| client := k |>) = Some s2 -> moves (s <| client := k |>) s2) by (intros s2 H2; by exists (Yield 0)).
    destruct (Calls.at_pc x) eqn:Ep; try done.
    + eapply Hgo; [exact Hr1|apply Hyield; cbn; rewrite Ed, Er; cbn; rewrite Hx; cbn; rewrite Ep; reflexivity|].
      rewrite !view_measure. cbn. rewrite Er. simpl. lia.
    + exists (s <| client := k |> <| dead := true |>). split; [|by left]. eapply rtc_r; [exact Hr1|].
      apply Hyield. cbn. rewrite Ed, Er. cbn. rewrite Hx. cbn. by rewrite Ep.
Qed.

Lemma moves_acts s s' : rtc moves s s' -> exists acts,
  Forall (fun a => match a with Client b => ending b | _ => True end) acts /\
  Batches.perform_all config record_type skip_empty skip_errors acts s = Some s'.
Proof.
  induction 1 as [s|s1 s2 s3 (x & Hx & Hp) _ (acts & Ha & Er)]; [by exists []|].
  exists (x :: acts). split; [by constructor|]. simpl. by rewrite Hp.
Qed.

End BatchProofs.

(** ** Witness *)

Section BatchExamples.
Import ResolverWorker BlastDNSClient Calls Batches.
#[local] Existing Instance demo_errors.
#[local] Existing Instance demo_dns.

Abbreviation demo_lru := (ref_lru Query (SimpleCache.CacheEntry DnsResponse)).
Abbreviation demo_batch := (Batches.sys ref_sem demo_lru unit).

Definition listed_hosts : list (result text unit) := [Ok (lit "a.example"); Err tt; Ok (lit "b.example"); Ok (lit "a.example")].
Definition batch0 : demo_batch := Batches.mk_sys calls0 listed_hosts [] [] [] false.
Definition by_fleet (acts : list ResolverWorker.action) : list Batches.action := Client <$> of_fleet acts.

(** Two hosts go out; one is refused, the other answered, and its label pulled again. *)
Definition batch_acts : list Batches.action :=
  [Pull; Pull; Pull; Client (Call 0); Client (Call 0); Client (Call 1); Client (Call 1)]
  ++ by_fleet ([Tick 5] ++ go 18 0 ++ go 18 1 ++
               [Tick 5000; Act 1 (Reply (ResolverHealth.Answered declined));
                Act 0 (Reply (ResolverHealth.Answered found))])
  ++ [Client (Call 1); Client (Call 0); Client (Call 0); Yield 0; Pull; Client (Call 2); Yield 1].
Abbreviation demo_perform := (Batches.perform_all pair_config A_TYPE true true).
Definition batch_midway : demo_batch := from_option id batch0 (demo_perform batch_acts batch0).

Example batch_midway_results :
  out batch_midway = [(lit "a.example", Ok found); (lit "a.example", Ok found)] /\
  running batch_midway = [(lit "b.example", 1%nat)] /\ todo batch_midway = [].
Proof. vm_compute. split_and!; reflexivity. Qed.

Lemma batch_rtc acts : forall s s' : demo_batch,
  demo_perform acts s = Some s' -> rtc (Batches.step pair_config A_TYPE true true) s s'.
Proof.
  induction acts as [|a acts IH]; intros s s' Hr; simpl in Hr; [by injection Hr as <-|].
  apply bind_Some in Hr as (s1 & K1 & K2). eapply rtc_l; [by exists a|by apply IH].
Qed.

End BatchExamples.
